(* ===== verification/_CoqProject ===== *)
-Q . S2P
Prelude.v
Deps.v
ToyCrates.v
Registers.v
Protocol.v
Transfers.v
RecordStore.v
ReplicationFetcher.v
Payments.v
Effects.v
Network.v
NodeValidation.v
NodeStore.v
NodeRegisters.v
NodeSpends.v
SwarmDriver.v
NodeApi.v
NodeSystem.v
Wallet.v
WalletFiles.v
Client.v
ClientWallet.v
PaidStorage.v
Files.v
Faucet.v
Cli.v
Startup.v
CliMain.v
Testnet.v
Safenode.v
FaucetServer.v
