(* ===== verification/Prelude.v ===== *)
(** * Verification of the Safe Network node, networking, wallet and client libraries

    The repository is a Rust workspace.  A node ([sn_node]) and a client
    ([sn_client]) reach the network through a handle ([Network] of
    [sn_networking]), which sends commands to one driver task ([SwarmDriver]).
    The driver owns libp2p's swarm, the on-disk record store and the fetcher of
    replicated records, and sends events back to the node.  What travels and is
    stored is defined by [sn_protocol]: chunks, registers ([sn_registers]) and
    signed spends of DBCs.  Tokens are moved by [sn_transfers]: genesis, offline
    transfers, the Merkle proofs of storage payments and the local wallet.  The
    programs on top are the command line client ([sn_cli]), the binaries of a
    node and of the faucet ([sn_node]), and the launcher of local networks
    ([sn_testnet]).

    ** Files

    - [Prelude]: results with panics ([Res]), the state monad of [&mut self]
      methods ([StM]), machine integers, insertion-ordered maps, framing lemmas,
      hint databases and tactics.
    - [Deps]: a class of operations for every third-party crate, and a separate
      class of the documented laws that some theorems use.  [ToyCrates] holds
      concrete instances of those classes with the laws proved.  They are used
      by the witnesses, and model no code of the repository.
    - [Registers]: sn_registers.  Addresses (address.rs), [Permissions]
      (permissions.rs), signed operations (register_op.rs), the CRDT
      (reg_crdt.rs), [Register] and [SignedRegister] (register.rs).
    - [Protocol]: sn_protocol.  [NetworkAddress] (lib.rs), record headers
      (storage/header.rs), chunks (storage/chunks.rs), the messages (messages/)
      and encrypted transfers (messages/utxo.rs).
    - [Transfers]: sn_transfers' dbc_genesis.rs and client_transfers/.
    - [Payments]: sn_transfers' payment_proof/mod.rs and the fee checks
      [verify_fee_output_and_proof], [verify_fee_output_id] of sn_node's
      put_validation.rs.
    - [RecordStore], [ReplicationFetcher]: sn_networking's circular_vec.rs,
      record_store.rs and replication_fetcher.rs.
    - [Effects]: programs that exchange operations and answers with their
      environment, their executions, and the logics to reason on them: [always]
      for every execution, [given] for those with good answers.
    - [Network]: the handle of sn_networking's lib.rs; its operation type is
      [SwarmCmd] of cmd.rs.
    - [NodeValidation]: sn_node's put_validation.rs, spends.rs and
      get_validation.rs, as programs over [Network].
    - [NodeStore]: the tasks of a node over its record store, alone, in turn and
      interleaved.  A put is a command that waits in the channel, the store takes
      it, evicts or refuses as [RecordStore] says, and the file is written by a
      task later; [node_step] allows commands and writes to be lost, [calm_step]
      does not.  [NodeRegisters] and [NodeSpends]: what becomes of registers and
      of conflicting spends there.
    - [SwarmDriver]: the driver of sn_networking (cmd.rs, event.rs, msg/mod.rs
      and the main loop of lib.rs), a state machine over the state that owns
      [RecordStore] and [ReplicationFetcher].
    - [NodeApi]: sn_node's api.rs and replication.rs, the handlers of the
      events, queries, commands and responses, over [NodeValidation].
    - [NodeSystem]: a whole node ([Node::run] and [RunningNode] of sn_node's
      api.rs): its event loop, the tasks of [NodeApi], the channels and the
      driver with its store, as one step function.
    - [Wallet]: sn_transfers' wallet/mod.rs and wallet/local_store.rs, over
      [Transfers] and [Payments].
    - [WalletFiles]: the wallet directory.  wallet/wallet_file.rs,
      wallet/keys.rs, the loading and storing of local_store.rs and the wallets
      of dbc_genesis.rs, as programs over file operations ([FsOp]); [fs_step]
      says what these do to the files, and [wp] is the logic to reason on them.
    - [Client]: sn_client's api.rs, event.rs and register.rs: the client's
      events, its records and its registers with the queue of operations to
      publish, over [Network] and [Registers].
    - [ClientWallet]: sn_client's wallet.rs, paying and sending over [Client] and
      [Wallet].
    - [PaidStorage]: a client's payment and a node's validation together.
    - [Files]: sn_client's file_apis.rs and chunks/: chunking, uploading and
      reading of files over [Client].
    - [Faucet]: sn_client's function [send] of wallet.rs and faucet/mod.rs, which
      use the network and the file system ([SumAns] of [Effects]).
    - [Cli]: sn_cli's commands (subcommands/) and the client's key and directory
      (main.rs).
    - [Startup]: what the binaries share: paths, the logging arguments of
      sn_logging and the peers of sn_peers_acquisition.
    - [CliMain]: sn_cli's entry point (main.rs) and arguments (cli.rs), over [Cli]
      and [Startup].
    - [Testnet]: sn_testnet, launching and checking a local network.
    - [Safenode]: the safenode binary and its RPC service
      (sn_node's bin/safenode/), with the bytes of an event (event.rs).
    - [FaucetServer]: the faucet binary (sn_node's bin/faucet/).

    ** How code becomes definitions

    A pure function is a function; a fallible one returns [Res], whose third
    case is a panic (out-of-bounds slice, arithmetic overflow, explicit
    panic), so that a theorem that a call returns also excludes panics.  A
    [&mut self] method is an [StM] computation over the record it mutates; on
    an early return it keeps what was written before.  Async code that awaits
    the network is a [Prog] of [Effects]: the environment picks every answer,
    a failed channel included, and the theorems quantify over all executions.
    What the source leaves open is an argument: the iteration order of a
    [HashMap] or [HashSet], the completion order of a [JoinSet], the readings
    of a clock, random derivation indices and keys, the order in which spawned
    tasks run and whether file operations fail.  Futures that are joined are
    interleaved by a schedule ([join_all]), and the theorems hold for each one.

    A file of the record store is written by a task in several steps: it is
    opened, which empties it, and its bytes follow in pieces; a write can fail
    after any of them and overlap with another one ([file_task]).  Reading a file
    is one step.  In [NodeStore] a file is written in one step or not at all.

    Integers whose overflow the code can reach keep their width: the fee
    product of the payment check, the balance of a wallet, the store cost.

    ** What the theorems show

    - Registers: every replica reachable by creating, editing, merging and
      applying operations verifies; replicas that absorb the same operations in
      any order and grouping agree; verification, application and
      materialisation are characterised exactly, and an operation addressed to
      another register is accepted and the register can never be materialised
      again.
    - Protocol: records and transfers round-trip, a chunk record read back is
      addressed by its content.
    - Transfers and payments: input selection and transfers conserve tokens,
      the proofs a client builds are accepted by the node and give back the
      index of the address, the node's fee check is sound, and where its
      product overflows.
    - Record store: capacity, refinement of a bounded map; in any order of the
      spawned tasks, and whatever part of them is carried out, what is returned
      under a key is a value put under it, the beginning of one that is being
      written, or the remains of writes that failed or met each other; pricing;
      eviction on update, stale and mixed versions.
    - Replication fetcher: the limit of parallel fetches, exactness of the keys
      handed out, the drift of its counter.
    - Network: the fee quote, the closest peers, bounded retries, a verified put
      was read back.
    - Node: a record is put only after the validation of its kind, whatever the
      network answers and whatever event is handled; the aggregation of spends
      and the paths on which a parent check is skipped; replication to a new
      peer.  A chunk that was paid for is stored, by a node that asks for no
      more than was paid and is answered with the client's spends.  Registers
      validated in turn converge, whatever their order, when nothing is lost on
      the way to the disk; validated at the same time, and whatever is lost, what
      is read back verifies, but an update can be lost and a double spend can
      stay unseen.
    - Whole node: what a node serves was validated by one of its tasks, was on
      its disk, or won a split vote, or is a part of such values that an
      unfinished write left; what a task is told has a majority of the peers
      asked behind it; each request for which the channel of events had room is
      handled once.
    - Driver: a record is found only with the votes of a majority of distinct
      peers, a finished query answers its caller, split votes.
    - Wallet: a send conserves tokens; a spent DBC is never offered again.  A
      wallet reloads from disk as it was stored, a DBC is handed over as a file,
      and an interrupted store can lose the wallet.
    - Client: it is connected after a close group of peers; a register retrieved
      is verified, an owner's write is accepted by every replica, operations are
      published in order and the failed ones kept; the writes of other permitted
      users are signed wrongly.
    - Client wallet and faucet: a paid chunk is accepted by a node that asks for
      the price paid; a send leaves the wallet and the DBC on disk and, when
      verifying, every spend in the network; it ends within twelve rounds; and
      resending removes the wrong transfer from the queue.
    - Files: a file read back is the file chunked, packing ends, an upload that
      returns stored every chunk, and the edges where reading goes wrong.
    - Command line: files uploaded are found again by a download with the index,
      what is chunked and paid for a directory, deposits, and the edges; without
      peers the client ends before it touches the network.
    - Binaries: a node that is started again keeps its key, a key written in part
      stops it, and it restarts only on request; the faucet answers requests in
      order with DBCs made for them, and one that it cannot pay for ends it; a
      test network is launched as asked and passed its check.

    Some theorems state a behaviour the code has although a comment, a test or
    the purpose of the function says otherwise; their doc comments say so.

    ** Bounds

    Recursion follows the data wherever the code iterates over it.  The loops
    that count use the code's own bounds as fuel: [get_record_loop] the attempts
    of [VERIFICATION_ATTEMPTS] (30), [put_record_with_retries] its three retries.
    [batches] of [NodeApi] has the number of keys as fuel, enough because each
    round removes at least one key.  The driver's loop is one step
    ([run_round]) per event or command, and its properties hold along every
    sequence of steps.  [pack_loop] and [unpack_chunk] of [Files] loop over the
    levels of data maps: [chunking_terminates] gives the fuel that is enough for
    the first, and [file_roundtrip] shows that the same fuel is enough for the
    second.  The loop of [send] needs twelve rounds ([send_terminates]).

    ** Not modelled

    Crates that the sources call are parameters or environments: libp2p,
    self_encryption, bincode, rmp_serde, blsttc, sn_dbc, crdts, merkletree (with
    the Sha3 hasher of payment_proof/hasher.rs), tonic and tiny_http.  The
    construction of a swarm ([SwarmDriver::new], [new_client], [with]) only
    configures libp2p.  Of sn_logging the layers of tracing, the rotating log
    file (appender.rs) and the metrics (metrics.rs) are left out, as are the
    log markers of sn_node, the parsing of command line arguments, the texts that
    are printed, and the [Display] and [Debug] implementations that nothing
    else reads.  Of the client: the progress bar, the receiving ends of its
    broadcast channel, and the chunking of a file given by its path.
    sn_build_info holds build constants.  Tests, benches and examples of the
    repository are not modelled. *)

From stdpp Require Import base tactics list gmap sorting.
From Stdlib Require Import ZArith Lia.

(** ** Results: [Result<T, E>] with panics made explicit

    A Rust call returns [Ok a], returns [Err e], or panics.  Panics are values
    here, so that a theorem "this returns" also excludes them. *)

Inductive panic_reason :=
| SliceOutOfBounds
| ArithmeticOverflow
| ExplicitPanic.

Inductive Res (E A : Type) : Type :=
| Ok (a : A)
| Err (e : E)
| Panic (why : panic_reason).
Arguments Ok {E A} a.
Arguments Err {E A} e.
Arguments Panic {E A} why.

#[global] Instance panic_reason_eq_dec : EqDecision panic_reason.
Proof. solve_decision. Defined.

#[global] Instance Res_eq_dec `{EqDecision E, EqDecision A} : EqDecision (Res E A).
Proof. solve_decision. Defined.

#[global] Instance Res_ret (E : Type) : MRet (Res E) := fun A a => Ok a.

#[global] Instance Res_bind (E : Type) : MBind (Res E) :=
  fun A B (k : A → Res E B) (c : Res E A) =>
    match c with
    | Ok a => k a
    | Err e => Err e
    | Panic w => Panic w
    end.

(** [Result::map_err] (also the [From] conversion behind [?]). *)
Definition map_err {E F A : Type} (f : E → F) (r : Res E A) : Res F A :=
  match r with
  | Ok a => Ok a
  | Err e => Err (f e)
  | Panic w => Panic w
  end.

(** [Option::ok_or]. *)
Definition ok_or {E A : Type} (o : option A) (e : E) : Res E A :=
  match o with Some a => Ok a | None => Err e end.

(** A [Result] carried by a message or a channel: a sum, which cannot panic. *)
Definition of_sum {E A : Type} (r : E + A) : Res E A :=
  match r with inl e => Err e | inr a => Ok a end.

(** [Result::is_ok]. *)
Definition is_ok {E A : Type} (r : Res E A) : bool :=
  match r with Ok _ => true | _ => false end.

(** [Result::ok]. *)
Definition res_ok {E A : Type} (r : Res E A) : option A :=
  match r with Ok a => Some a | _ => None end.

Definition panics {E A : Type} (r : Res E A) : Prop := ∃ w, r = Panic w.

(** [Vec::first], [Vec::last]. *)
Definition first_of {A : Type} (l : list A) : option A := head l.
Definition last_of {A : Type} (l : list A) : option A := last l.

(** A [for x in xs { f(x)?; }] loop. *)
Fixpoint try_for_each {E A : Type} (f : A → Res E unit) (l : list A) : Res E unit :=
  match l with
  | [] => Ok tt
  | x :: l' => _ ← f x; try_for_each f l'
  end.

(** A [for x in xs { s = f(s, x)?; }] loop. *)
Fixpoint try_fold {E S A : Type} (f : S → A → Res E S) (s : S) (l : list A) : Res E S :=
  match l with
  | [] => Ok s
  | x :: l' => s' ← f s x; try_fold f s' l'
  end.

(** [iter.map(f).collect::<Result<Vec<_>>>()]. *)
Fixpoint try_map {E A B : Type} (f : A → Res E B) (l : list A) : Res E (list B) :=
  match l with
  | [] => Ok []
  | x :: l' => y ← f x; ys ← try_map f l'; Ok (y :: ys)
  end.

(** ** State passing: a [&mut self] method that may fail.

    The state survives an error: [?] in Rust keeps the mutations made before
    the failing call. *)

Definition StM (S E A : Type) : Type := S → S * Res E A.

#[global] Instance StM_ret (S E : Type) : MRet (StM S E) := fun A a s => (s, Ok a).

#[global] Instance StM_bind (S E : Type) : MBind (StM S E) :=
  fun A B k c s =>
    match c s with
    | (s', Ok a) => k a s'
    | (s', Err e) => (s', Err e)
    | (s', Panic w) => (s', Panic w)
    end.

Definition lift_res {S E A : Type} (r : Res E A) : StM S E A := fun s => (s, r).
Definition gets {S E A : Type} (f : S → A) : StM S E A := fun s => (s, Ok (f s)).
Definition modify {S E : Type} (f : S → S) : StM S E unit := fun s => (f s, Ok tt).
Definition throw {S E A : Type} (e : E) : StM S E A := fun s => (s, Err e).

(** Every run of a method relates its states by a preorder. *)
Section Frame.
Context {S E : Type} (R : relation S) `{!PreOrder R}.

Definition frame {A : Type} (m : StM S E A) : Prop := ∀ s, R s (m s).1.

Lemma frame_ret {A} (a : A) : frame (mret a).
Proof. intros s. reflexivity. Qed.

Lemma frame_lift {A} (r : Res E A) : frame (lift_res r).
Proof. intros s. reflexivity. Qed.

Lemma frame_gets {A} (f : S → A) : frame (gets f).
Proof. intros s. reflexivity. Qed.

Lemma frame_throw {A} (e : E) : frame (A:=A) (throw e).
Proof. intros s. reflexivity. Qed.

Lemma frame_modify (f : S → S) : (∀ s, R s (f s)) → frame (modify f).
Proof. intros H s. apply H. Qed.

Lemma frame_bind {A B} (m : StM S E A) (k : A → StM S E B) : frame m → (∀ a, frame (k a)) → frame (m ≫= k).
Proof.
  intros Hm Hk s. specialize (Hm s). unfold mbind, StM_bind. destruct (m s) as [s' [a|e|w]]; cbn in *; try done.
  etrans; [exact Hm|apply Hk].
Qed.

End Frame.

(** ** Machine integers

    [u64]/[usize] values are integers of [Z] in [0 .. 2^64).  Arithmetic that
    leaves the range panics when overflow checks are on (the [dev] and [test]
    profiles) and wraps when they are off (the [release] profile); the
    workspace sets no profile, so both builds exist. *)

Inductive Build := Debug | Release.

Definition two64 : Z := 18446744073709551616.

Definition in_u64 (z : Z) : Prop := (0 ≤ z < two64)%Z.

#[global] Instance in_u64_dec z : Decision (in_u64 z).
Proof. unfold in_u64. apply _. Defined.

Definition u64_of {E : Type} (b : Build) (z : Z) : Res E Z :=
  if decide (in_u64 z) then Ok z
  else match b with Debug => Panic ArithmeticOverflow | Release => Ok (z mod two64)%Z end.

Definition u64_add {E : Type} (b : Build) (x y : Z) : Res E Z := u64_of b (x + y).
Definition u64_sub {E : Type} (b : Build) (x y : Z) : Res E Z := u64_of b (x - y).
Definition u64_mul {E : Type} (b : Build) (x y : Z) : Res E Z := u64_of b (x * y).

(** [u64::saturating_add]. *)
Definition u64_saturating_add (x y : Z) : Z := Z.min (x + y) (two64 - 1).

(** [usize::saturating_sub] on counters kept as [nat] is [Nat.sub]. *)

Lemma u64_of_in_range {E} b z : in_u64 z → u64_of (E:=E) b z = Ok z.
Proof. intros H. unfold u64_of. by rewrite decide_True. Qed.

Lemma u64_of_Ok_range {E} b z v : u64_of (E:=E) b z = Ok v → in_u64 v.
Proof.
  unfold u64_of, in_u64, two64. case_decide as H.
  - intros [= <-]. exact H.
  - destruct b; [done|]. intros [= <-]. apply Z.mod_pos_bound. lia.
Qed.

Lemma u64_of_debug_exact {E} z v : u64_of (E:=E) Debug z = Ok v → v = z ∧ in_u64 z.
Proof. unfold u64_of. case_decide; [|done]. by intros [= <-]. Qed.

Lemma u64_of_exact {E} b z v : u64_of (E:=E) b z = Ok v → b = Debug ∨ in_u64 z → v = z ∧ in_u64 z.
Proof. intros H [->|Hz]; [by apply u64_of_debug_exact in H|]. rewrite u64_of_in_range in H by done. by injection H as <-. Qed.

Lemma u64_of_no_err {E} b z (e : E) : u64_of b z ≠ Err e.
Proof. unfold u64_of. case_decide; [done|]. by destruct b. Qed.

(** ** Inversion of the monadic code *)

Lemma bind_Ok_iff {E A B} (c : Res E A) (k : A → Res E B) v :
  (x ← c; k x) = Ok v ↔ ∃ a, c = Ok a ∧ k a = Ok v.
Proof. destruct c; cbn; naive_solver. Qed.

Lemma is_ok_true {E A} (r : Res E A) : is_ok r = true → ∃ v, r = Ok v.
Proof. destruct r; [by eexists|done|done]. Qed.

(** A computed result, where the errors have no decidable equality. *)
Definition ok_with {E A} `{EqDecision A} (a : A) (r : Res E A) : bool :=
  match r with Ok b => bool_decide (b = a) | _ => false end.
Lemma ok_with_true {E A} `{EqDecision A} (a : A) (r : Res E A) : ok_with a r = true → r = Ok a.
Proof. destruct r; cbn; [|done|done]. by intros ->%bool_decide_eq_true. Qed.

Lemma bind_Err_iff {E A B} (c : Res E A) (k : A → Res E B) e :
  (x ← c; k x) = Err e ↔ c = Err e ∨ ∃ a, c = Ok a ∧ k a = Err e.
Proof. destruct c; cbn; naive_solver. Qed.

Lemma map_err_Ok_iff {E F A} (f : E → F) (r : Res E A) v : map_err f r = Ok v ↔ r = Ok v.
Proof. destruct r; cbn; naive_solver. Qed.

Lemma ok_or_Ok_iff {E A} (o : option A) (e : E) v : ok_or o e = Ok v ↔ o = Some v.
Proof. destruct o; cbn; naive_solver. Qed.

Lemma exists_Some_eq {A} (a : A) (P : A → Prop) : (∃ b, Some a = Some b ∧ P b) ↔ P a.
Proof. split; [by intros (b & [= <-] & ?)|by exists a]. Qed.

(** Peel one layer of a hypothesis about a computation that returned [Ok]. *)
Ltac res_step :=
  match goal with
  | H : mbind _ _ = Ok _ |- _ =>
      let a := fresh "a" in let Ha := fresh "Hc" in
      apply bind_Ok_iff in H; destruct H as (a & Ha & H)
  | H : map_err _ _ = Ok _ |- _ => apply map_err_Ok_iff in H
  | H : ok_or _ _ = Ok _ |- _ => apply ok_or_Ok_iff in H
  | H : Ok _ = Ok _ |- _ => injection H as H; subst
  | H : Some _ = Some _ |- _ => injection H as H; subst
  | H : Err _ = Ok _ |- _ => discriminate H
  | H : Panic _ = Ok _ |- _ => discriminate H
  | H : None = Some _ |- _ => discriminate H
  | H : Some _ = None |- _ => discriminate H
  | H : mret _ = Ok _ |- _ => unfold mret, Res_ret in H
  | x : unit |- _ => destruct x
  end.
Ltac res_inv := repeat (res_step; try subst).

(** Split on the scrutinee of the leftmost [match]/[if] of a hypothesis. *)
Ltac split_match_in H :=
  match type of H with
  | context [if ?b then _ else _] => destruct b eqn:?
  | context [match ?x with _ => _ end] => destruct x eqn:?
  end.

Lemma try_for_each_Ok_iff {E A} (f : A → Res E unit) l :
  try_for_each f l = Ok tt ↔ Forall (λ x, f x = Ok tt) l.
Proof.
  induction l as [|x l IH]; cbn; [by split; [constructor|]|].
  rewrite Forall_cons, <- IH. destruct (f x) as [[]| |]; cbn; naive_solver.
Qed.

Lemma try_for_each_Err {E A} (f : A → Res E unit) l e :
  try_for_each f l = Err e →
  ∃ l1 x l2, l = l1 ++ x :: l2 ∧ Forall (λ y, f y = Ok tt) l1 ∧ f x = Err e.
Proof.
  induction l as [|x l IH]; cbn; [done|].
  destruct (f x) as [[]| |] eqn:Hx; cbn; [| |done].
  - intros (l1 & y & l2 & -> & H1 & H2)%IH.
    exists (x :: l1), y, l2. auto.
  - intros [= ->]. by exists [], x, l.
Qed.

Lemma try_for_each_no_panic {E A} (f : A → Res E unit) l :
  (∀ x, x ∈ l → ¬ panics (f x)) → ¬ panics (try_for_each f l).
Proof.
  induction l as [|x l IH]; intros Hf; [by intros [w Hw]|].
  cbn. intros [w Hw]. destruct (f x) eqn:Hx; cbn in Hw.
  - apply IH; [|by exists w]. intros y Hy. apply Hf. by right.
  - done.
  - apply (Hf x); [left|]. by exists why.
Qed.

Lemma try_map_Ok_Forall2 {E A B} (f : A → Res E B) l ys :
  try_map f l = Ok ys ↔ Forall2 (λ x y, f x = Ok y) l ys.
Proof.
  revert ys. induction l as [|x l IH]; intros ys; cbn.
  - split; [intros [= <-]; constructor | intros H; by inversion H].
  - split.
    + intros H. res_inv. constructor; [done|]. by apply IH.
    + intros H. inversion H as [|? y ? ys' Hy Hys]; subst.
      rewrite Hy. cbn. apply IH in Hys. by rewrite Hys.
Qed.

(** ** [BTreeSet] and [BTreeMap]

    A B-tree collection is the finite set or map of its content together with
    the [Ord] of its keys; iteration is in increasing key order. *)

Class Ord (A : Type) := {
  ord_le : relation A;
  ord_le_dec :: RelDecision ord_le;
  ord_le_po :: PartialOrder ord_le;
  ord_le_total :: Total ord_le;
}.

Definition btree_iter {A : Type} `{Ord A, Countable A} (X : gset A) : list A :=
  merge_sort ord_le (elements X).

Definition key_le {K V : Type} `{Ord K} : relation (K * V) := λ p q, ord_le p.1 q.1.

#[global] Instance key_le_dec {K V} `{Ord K} : RelDecision (key_le (K:=K) (V:=V)).
Proof. intros p q. unfold key_le. apply _. Defined.

#[global] Instance key_le_total {K V} `{Ord K} : Total (key_le (K:=K) (V:=V)).
Proof. intros p q. unfold key_le. apply (total ord_le). Qed.

#[global] Instance key_le_trans {K V} `{Ord K} : Transitive (key_le (K:=K) (V:=V)).
Proof. intros p q r. unfold key_le. apply transitivity. Qed.

Definition bmap_iter {K V : Type} `{Ord K, Countable K} (m : gmap K V) : list (K * V) :=
  merge_sort key_le (map_to_list m).

Definition bmap_values {K V : Type} `{Ord K, Countable K} (m : gmap K V) : list V :=
  snd <$> bmap_iter m.

Lemma btree_iter_perm {A} `{Ord A, Countable A} (X : gset A) : btree_iter X ≡ₚ elements X.
Proof. apply merge_sort_Permutation. Qed.

Lemma elem_of_btree_iter {A} `{Ord A, Countable A} (X : gset A) x : x ∈ btree_iter X ↔ x ∈ X.
Proof. rewrite btree_iter_perm. apply elem_of_elements. Qed.

Lemma NoDup_btree_iter {A} `{Ord A, Countable A} (X : gset A) : NoDup (btree_iter X).
Proof. rewrite btree_iter_perm. apply NoDup_elements. Qed.

Lemma bmap_iter_perm {K V} `{Ord K, Countable K} (m : gmap K V) :
  bmap_iter m ≡ₚ map_to_list m.
Proof. apply merge_sort_Permutation. Qed.

Lemma elem_of_bmap_iter {K V} `{Ord K, Countable K} (m : gmap K V) k v :
  (k, v) ∈ bmap_iter m ↔ m !! k = Some v.
Proof. rewrite bmap_iter_perm. apply elem_of_map_to_list. Qed.

Lemma NoDup_bmap_iter_keys {K V} `{Ord K, Countable K} (m : gmap K V) :
  NoDup (bmap_iter m).*1.
Proof. rewrite bmap_iter_perm. apply NoDup_fst_map_to_list. Qed.

Lemma length_bmap_iter {K V} `{Ord K, Countable K} (m : gmap K V) :
  length (bmap_iter m) = size m.
Proof. by rewrite bmap_iter_perm, length_map_to_list. Qed.

Lemma elem_of_concat {A} (x : A) (ls : list (list A)) : x ∈ concat ls ↔ ∃ l, x ∈ l ∧ l ∈ ls.
Proof.
  induction ls as [|l ls IH]; cbn; [split; [by intros ?%elem_of_nil|by intros (l & _ & ?%elem_of_nil)]|].
  rewrite elem_of_app, IH. setoid_rewrite elem_of_cons. naive_solver.
Qed.

Lemma concat_singletons {A B} (f : A → B) (l : list A) : concat ((λ x, [f x]) <$> l) = f <$> l.
Proof. induction l as [|x l IH]; [done|]. cbn in *. by rewrite IH. Qed.

(** [pop_first] gives the entry with the lowest key. *)
Lemma bmap_iter_head {K V} `{Ord K, Countable K} (m : gmap K V) k v :
  m !! k = Some v → (∀ k' v', m !! k' = Some v' → ord_le k k') → head (bmap_iter m) = Some (k, v).
Proof.
  intros Hk Hmin. pose proof (StronglySorted_merge_sort key_le (map_to_list m)) as Hs.
  fold (bmap_iter m) in Hs. destruct (bmap_iter m) as [|[k0 v0] l] eqn:E; cbn.
  - apply elem_of_bmap_iter in Hk. rewrite E in Hk. by apply elem_of_nil in Hk.
  - assert (m !! k0 = Some v0) as Hv0 by (apply elem_of_bmap_iter; rewrite E; by left).
    assert (ord_le k0 k) as Hle.
    { apply elem_of_bmap_iter in Hk. rewrite E in Hk. apply elem_of_cons in Hk as [[= -> _]|Hk]; [by apply reflexivity|].
      apply StronglySorted_inv in Hs as [_ Hs]. rewrite Forall_forall in Hs. exact (Hs _ Hk). }
    assert (k0 = k) as -> by (apply (anti_symm ord_le); [done|by eapply Hmin]). congruence.
Qed.

Lemma map_size_insert_ge {K A} `{Countable K} (m : gmap K A) i x : size m ≤ size (<[i := x]> m).
Proof. rewrite map_size_insert. destruct (m !! i); cbn; lia. Qed.

(** ** [sort_by_key]

    The sorts of the code compare a numeric key (an XOR distance, an amount).
    The unstable ones leave ties in an unspecified order: the input list of a
    [HashSet] or [HashMap] has an unspecified order itself, and theorems about
    it hold for every such order. *)

Section SortByKey.
Context {A : Type} (f : A → N).

Definition by_key_le : relation A := λ x y, (f x ≤ f y)%N.

#[global] Instance by_key_le_dec : RelDecision by_key_le.
Proof. intros x y. unfold by_key_le. apply _. Defined.
#[global] Instance by_key_le_total : Total by_key_le.
Proof. intros x y. unfold by_key_le. lia. Qed.
#[global] Instance by_key_le_trans : Transitive by_key_le.
Proof. intros x y z. unfold by_key_le. lia. Qed.

Definition sort_by_key (l : list A) : list A := merge_sort by_key_le l.

Lemma sort_by_key_perm l : sort_by_key l ≡ₚ l.
Proof. apply merge_sort_Permutation. Qed.

Lemma sort_by_key_sorted l : StronglySorted by_key_le (sort_by_key l).
Proof. apply (StronglySorted_merge_sort by_key_le). Qed.

Lemma sorted_app_le l1 l2 x y :
  StronglySorted by_key_le (l1 ++ l2) → x ∈ l1 → y ∈ l2 → (f x ≤ f y)%N.
Proof.
  induction l1 as [|z l1 IH]; cbn; [by intros _ ?%elem_of_nil|].
  intros H Hx Hy. inversion H as [|? ? Hs Hz]; subst.
  apply elem_of_cons in Hx as [->|Hx]; [|by apply IH].
  rewrite Forall_forall in Hz. apply Hz. apply elem_of_app. by right.
Qed.

(** The first [n] of the sorted list are the [n] with the smallest keys. *)
Lemma sort_by_key_take_drop n l x y :
  x ∈ take n (sort_by_key l) → y ∈ drop n (sort_by_key l) → (f x ≤ f y)%N.
Proof. apply sorted_app_le. rewrite take_drop. apply sort_by_key_sorted. Qed.

Lemma sort_by_key_last l x :
  last (sort_by_key l) = Some x → x ∈ l ∧ ∀ y, y ∈ l → (f y ≤ f x)%N.
Proof.
  intros (l' & Hl')%last_Some. pose proof (sort_by_key_sorted l) as Hs.
  rewrite Hl' in Hs. split.
  - rewrite <- (sort_by_key_perm l), Hl'. apply elem_of_app. right. by apply list_elem_of_singleton.
  - intros y Hy. rewrite <- (sort_by_key_perm l), Hl' in Hy.
    apply elem_of_app in Hy as [Hy|Hy%list_elem_of_singleton]; [|subst; lia].
    eapply sorted_app_le; [exact Hs|done|by apply list_elem_of_singleton].
Qed.

Lemma sort_by_key_last_is_Some l : l ≠ [] → ∃ x, last (sort_by_key l) = Some x.
Proof.
  intros Hl. destruct (last (sort_by_key l)) as [x|] eqn:E; [by exists x|].
  apply last_None in E. pose proof (sort_by_key_perm l) as Hp. rewrite E in Hp.
  by apply Permutation_nil_l in Hp.
Qed.

End SortByKey.

(** ** Sums of [u64] amounts *)

Definition Zsum (l : list Z) : Z := foldr Z.add 0%Z l.

Lemma Zsum_app l1 l2 : Zsum (l1 ++ l2) = (Zsum l1 + Zsum l2)%Z.
Proof. induction l1 as [|x l1 IH]; cbn; [done|]. unfold Zsum in *. lia. Qed.

#[global] Instance Zsum_proper : Proper ((≡ₚ) ==> (=)) Zsum.
Proof. induction 1; cbn in *; unfold Zsum in *; lia. Qed.

Lemma Zsum_nonneg l : Forall (λ z, 0 ≤ z)%Z l → (0 ≤ Zsum l)%Z.
Proof. induction 1; cbn in *; unfold Zsum in *; lia. Qed.

(** Close a closed decidable goal by evaluation. *)
Ltac by_compute := apply (bool_decide_unpack _); vm_compute; exact I.

Create HintDb safe_net.
#[export] Hint Resolve u64_of_in_range u64_of_Ok_range Zsum_nonneg : safe_net.
#[export] Hint Resolve Forall_nil_2 Forall_cons_2 : safe_net.
