(* ===== verification/Deps.v ===== *)
(** * Interfaces of the third-party crates

    Every crate the workspace calls but does not contain is a class of
    operations (a parameter of the model), and what the code relies on is a
    separate class of laws, each stating documented behaviour of that crate.
    Theorems that need no law take only the operations.

    - [BlsCrate]/[BlsLaws]: blsttc keys and signatures;
    - [XorNameCrate]: xor_name's content hash;
    - [HexCrate]/[HexLaws]: hex encoding;
    - [CrdtsCrate]/[CrdtsLaws]: crdts' [MerkleReg];
    - [SelfEncryptionCrate]: the size constants of self_encryption;
    - [SelfEncryptionOps]/[SelfEncryptionLaws]: its data maps, encryption and
      decryption;
    - [Bincode]/[BincodeLaws]: bincode's encoding of a type;
    - [KadCrate]/[KadLaws]: libp2p peer ids and the Kademlia XOR distance;
    - [TokenCrate]/[TokenLaws]: sn_dbc's [Token];
    - [SnDbcCrate]/[SnDbcLaws]: sn_dbc's ids, transactions and signed spends;
    - [DbcCrate]/[DbcLaws]: sn_dbc's DBCs, keys and transaction builder;
    - [DbcTextCrate]/[DbcTextLaws]: keys as bytes and DBCs as hex text;
    - [Rmp]/[RmpLaws], [RmpHeader]/[RmpHeaderLaws]: rmp_serde's encoding;
    - [BlsEncryption]/[BlsEncryptionLaws]: blsttc's encryption. *)

From S2P Require Import Prelude.
From stdpp Require Import base tactics list gmap strings pretty.
From Stdlib Require Import ZArith NArith Strings.Byte.

(** ** Bytes and fixed-size arrays *)

Notation byte := Byte.byte.
Notation bytes := (list Byte.byte).

#[global] Instance byte_eq_dec : EqDecision byte := Byte.byte_eq_dec.

(** The derived [Ord] of byte arrays is lexicographic. *)
Fixpoint bytes_leb (x y : list byte) : bool :=
  match x, y with
  | [], _ => true
  | _ :: _, [] => false
  | a :: x, b :: y => if decide (a = b) then bytes_leb x y else N.ltb (Byte.to_N a) (Byte.to_N b)
  end.

Lemma to_N_inj a b : Byte.to_N a = Byte.to_N b → a = b.
Proof. intros H. pose proof (Byte.of_to_N a) as Ha. rewrite H, Byte.of_to_N in Ha. by injection Ha. Qed.

Lemma bytes_leb_cons a x b y :
  bytes_leb (a :: x) (b :: y) = true ↔ (Byte.to_N a < Byte.to_N b)%N ∨ (a = b ∧ bytes_leb x y = true).
Proof.
  cbn. case_decide as Hab; [subst|]; [|rewrite N.ltb_lt]; intuition (try lia; congruence).
Qed.

#[global] Instance bytes_ord : Ord (list byte).
Proof.
  refine {| ord_le := λ x y, bytes_leb x y = true |}.
  - intros x y. apply _.
  - split; [split|].
    + intros x. induction x as [|a x IH]; [done|]. apply bytes_leb_cons. by right.
    + intros x. induction x as [|a x IH]; intros [|b y] [|c z]; try done.
      rewrite !bytes_leb_cons. intros [H1|[-> H1]] [H2|[-> H2]]; [left; lia|by left|by left|right; eauto].
    + intros x. induction x as [|a x IH]; intros [|b y]; try done.
      rewrite !bytes_leb_cons. intros [H1|[-> H1]] [H2|[? H2]]; subst; try lia. f_equal. by apply IH.
  - intros x. induction x as [|a x IH]; intros [|b y]; try (by left); [by right|].
    rewrite !bytes_leb_cons. destruct (N.lt_trichotomy (Byte.to_N a) (Byte.to_N b)) as [|[H|]]; [by left; left| |by right; left].
    apply to_N_inj in H as ->. destruct (IH y); [left|right]; by right.
Defined.

#[global] Program Instance byte_countable : Countable byte :=
  inj_countable Byte.to_N Byte.of_N _.
Next Obligation. intros b. apply Byte.of_to_N. Qed.

(** ** Text *)

(** [str::split] on one character. *)
Fixpoint split_on (c : Ascii.ascii) (s : string) : list string :=
  match s with
  | EmptyString => [EmptyString]
  | String a s =>
      if decide (a = c) then EmptyString :: split_on c s
      else match split_on c s with w :: ws => String a w :: ws | [] => [String a EmptyString] end
  end.

Lemma split_on_eq c a s :
  split_on c (String a s) =
  if decide (a = c) then EmptyString :: split_on c s
  else match split_on c s with w :: ws => String a w :: ws | [] => [String a EmptyString] end.
Proof. reflexivity. Qed.

(** A text without the separator is one piece, and a separator ends a piece. *)
Lemma split_on_none c s : c ∉ String.list_ascii_of_string s → split_on c s = [s].
Proof.
  induction s as [|a s IH]; intros Hc; [done|]. apply not_elem_of_cons in Hc as [Ha Hc].
  rewrite split_on_eq, decide_False by done. by rewrite IH.
Qed.

Lemma split_on_app c s t :
  c ∉ String.list_ascii_of_string s → split_on c (String.append s (String c t)) = s :: split_on c t.
Proof.
  induction s as [|a s IH]; intros Hc.
  - change (String.append EmptyString (String c t)) with (String c t). by rewrite split_on_eq, decide_True.
  - apply not_elem_of_cons in Hc as [Ha Hc].
    change (String.append (String a s) (String c t)) with (String a (String.append s (String c t))).
    rewrite split_on_eq, decide_False by done. by rewrite IH.
Qed.

(** [parse] of an unsigned integer below a bound, from digits alone. *)
Definition digit_value (a : Ascii.ascii) : option Z :=
  let n := Z.of_N (Ascii.N_of_ascii a) in
  if decide (48 ≤ n ≤ 57)%Z then Some (n - 48)%Z else None.

Fixpoint parse_digits (bound acc : Z) (s : string) : option Z :=
  match s with
  | EmptyString => Some acc
  | String a s =>
      d ← digit_value a;
      let acc := (10 * acc + d)%Z in
      if decide (acc < bound)%Z then parse_digits bound acc s else None
  end.

Definition parse_uint (bound : Z) (s : string) : option Z :=
  match s with EmptyString => None | _ => parse_digits bound 0 s end.

Lemma digit_value_pretty x : (x < 10)%N → digit_value (pretty_N_char x) = Some (Z.of_N x).
Proof.
  intros Hx. assert (x ∈ [0; 1; 2; 3; 4; 5; 6; 7; 8; 9]%N) as Hin by (rewrite !elem_of_cons; lia).
  revert Hin. rewrite !elem_of_cons. by intros [->|[->|[->|[->|[->|[->|[->|[->|[->|[->|?%elem_of_nil]]]]]]]]]].
Qed.

Lemma parse_digits_go bound x s :
  (Z.of_N x < bound)%Z → parse_digits bound 0 (pretty_N_go x s) = parse_digits bound (Z.of_N x) s.
Proof.
  revert s. induction (N.lt_wf_0 x) as [x _ IH]. intros s Hx.
  destruct (decide (0 < x)%N) as [Hpos|Hz].
  2: { assert (x = 0%N) as -> by lia. by rewrite pretty_N_go_0. }
  assert (x `div` 10 < x)%N by (apply N.div_lt; lia). rewrite pretty_N_go_step by done. rewrite IH by lia.
  cbn [parse_digits]. rewrite digit_value_pretty by (apply N.mod_lt; lia). cbn [mbind option_bind].
  assert (10 * Z.of_N (x `div` 10) + Z.of_N (x `mod` 10) = Z.of_N x)%Z as -> by (pose proof (N.div_mod x 10); lia).
  by rewrite decide_True.
Qed.

Lemma parse_uint_pretty bound n : (Z.of_N n < bound)%Z → parse_uint bound (pretty n) = Some (Z.of_N n).
Proof.
  intros Hn. unfold pretty, pretty_N. case_decide as Hz.
  { subst n. transitivity (if decide (10 * 0 + 0 < bound)%Z then Some 0%Z else None); [reflexivity|by rewrite decide_True]. }
  pose proof (parse_digits_go bound n EmptyString Hn) as H. unfold parse_uint.
  destruct (pretty_N_go n EmptyString) eqn:E; [|exact H]. exfalso.
  cbn in H. injection H as H. lia.
Qed.

(** The text of a number has digits only. *)
Lemma pretty_go_digits x s a :
  a ∈ String.list_ascii_of_string (pretty_N_go x s) → is_Some (digit_value a) ∨ a ∈ String.list_ascii_of_string s.
Proof.
  revert s. induction (N.lt_wf_0 x) as [x _ IH]. intros s.
  destruct (decide (0 < x)%N) as [Hpos|Hz].
  2: { assert (x = 0%N) as -> by lia. rewrite pretty_N_go_0. by right. }
  rewrite pretty_N_go_step by done. intros [H|H]%IH; [by left| |apply N.div_lt; lia].
  cbn in H. apply elem_of_cons in H as [->|H]; [left|by right]. rewrite digit_value_pretty; [by eexists|apply N.mod_lt; lia].
Qed.

Lemma pretty_no_sep (n : N) a : digit_value a = None → a ∉ String.list_ascii_of_string (pretty n).
Proof.
  intros Ha. unfold pretty, pretty_N. case_decide as Hz.
  - intros [->|H]%elem_of_cons; [by cbn in Ha|by apply elem_of_nil in H].
  - intros [[v Hv]|H]%pretty_go_digits; [congruence|by apply elem_of_nil in H].
Qed.

(** [XorName] is the tuple struct over [[u8; 32]] of the xor_name crate; a
    merkle_reg [Hash] is a [[u8; 32]]. *)
Notation XorName := bytes.
Notation Hash32 := bytes.

Definition XOR_NAME_LEN : nat := 32.
Definition PK_SIZE : nat := 48.

Class XorNameCrate := {
  from_content : bytes → XorName;
}.

Class XorNameLaws `{XorNameCrate} : Prop := {
  from_content_len : ∀ b, length (from_content b) = XOR_NAME_LEN;
}.

(** ** blsttc *)

Class BlsCrate := {
  PublicKey : Type;
  SecretKey : Type;
  Signature : Type;
  PublicKey_eq_dec :: EqDecision PublicKey;
  PublicKey_countable :: Countable PublicKey;
  Signature_eq_dec :: EqDecision Signature;
  Signature_countable :: Countable Signature;
  public_key : SecretKey → PublicKey;
  bls_sign : SecretKey → bytes → Signature;
  bls_verify : PublicKey → Signature → bytes → bool;
  pk_to_bytes : PublicKey → bytes;
  pk_from_bytes : bytes → option PublicKey;
}.

Class BlsLaws `{BlsCrate} : Prop := {
  bls_verify_sign : ∀ sk m, bls_verify (public_key sk) (bls_sign sk m) m = true;
  pk_to_bytes_len : ∀ pk, length (pk_to_bytes pk) = PK_SIZE;
  pk_from_to_bytes : ∀ pk, pk_from_bytes (pk_to_bytes pk) = Some pk;
}.

(** ** hex *)

Class HexCrate := {
  hex_encode : bytes → string;
  hex_decode : string → option bytes;
}.

Class HexLaws `{HexCrate} : Prop := {
  hex_decode_encode : ∀ b, hex_decode (hex_encode b) = Some b;
}.

(** ** crdts::merkle_reg, at the entry type [Vec<u8>] of a register *)

Record MerkleNode := {
  node_children : gset Hash32;
  node_value : bytes;
}.

#[global] Instance MerkleNode_eq_dec : EqDecision MerkleNode.
Proof. solve_decision. Defined.

#[global] Program Instance MerkleNode_countable : Countable MerkleNode :=
  inj_countable' (λ n, (node_children n, node_value n))
                 (λ p, {| node_children := p.1; node_value := p.2 |}) _.
Next Obligation. by intros []. Qed.

Class CrdtsCrate := {
  node_hash : MerkleNode → Hash32;
  MerkleReg : Type;
  MerkleReg_eq_dec :: EqDecision MerkleReg;
  mreg_new : MerkleReg;
  mreg_write : MerkleReg → bytes → gset Hash32 → MerkleNode;
  mreg_apply : MerkleReg → MerkleNode → MerkleReg;
  mreg_merge : MerkleReg → MerkleReg → MerkleReg;
  mreg_num_nodes : MerkleReg → nat;
  mreg_num_orphans : MerkleReg → nat;
  mreg_node : MerkleReg → Hash32 → option MerkleNode;
  mreg_read : MerkleReg → gmap Hash32 MerkleNode;
}.

(** [CmRDT]: applying ops commutes and is idempotent.  [CvRDT]: merging is a
    join.  A write only builds the node; an op adds at most one node. *)
Class CrdtsLaws `{CrdtsCrate} : Prop := {
  mreg_write_node : ∀ r v c, mreg_write r v c = {| node_children := c; node_value := v |};
  mreg_apply_comm : ∀ r a b, mreg_apply (mreg_apply r a) b = mreg_apply (mreg_apply r b) a;
  mreg_apply_idem : ∀ r a, mreg_apply (mreg_apply r a) a = mreg_apply r a;
  mreg_merge_comm : ∀ r s, mreg_merge r s = mreg_merge s r;
  mreg_merge_assoc : ∀ r s t, mreg_merge r (mreg_merge s t) = mreg_merge (mreg_merge r s) t;
  mreg_merge_idem : ∀ r, mreg_merge r r = r;
  mreg_new_empty : mreg_num_nodes mreg_new + mreg_num_orphans mreg_new = 0;
  mreg_apply_grows : ∀ r a,
    mreg_num_nodes (mreg_apply r a) + mreg_num_orphans (mreg_apply r a)
    ≤ S (mreg_num_nodes r + mreg_num_orphans r);
}.

(** ** self_encryption *)

Class SelfEncryptionCrate := {
  MIN_ENCRYPTABLE_BYTES : nat;
  MAX_CHUNK_SIZE : nat;
}.

(** The fields of its types that the code looks at. *)
Record EncryptedChunk := { ec_index : nat; ec_content : bytes }.
Record ChunkInfo := { ci_index : nat; ci_dst_hash : XorName }.
Record SeekInfo := { si_start : nat; si_end : nat; si_relative_pos : nat }.

Class SelfEncryptionOps := {
  DataMap : Type;
  dm_infos : DataMap → list ChunkInfo;
  dm_file_size : DataMap → nat;
  se_encrypt : bytes → option (DataMap * list EncryptedChunk);
  decrypt_full_set : DataMap → list EncryptedChunk → option bytes;
  decrypt_range : DataMap → list EncryptedChunk → nat → nat → option bytes;
  seek_info : nat → nat → nat → SeekInfo;
}.

(** The data map names the index and the hash of each encrypted chunk, and all
    the chunks, in any order, decrypt to the data. *)
Class SelfEncryptionLaws `{SelfEncryptionOps, XorNameCrate} : Prop := {
  se_infos : ∀ d dm ecs, se_encrypt d = Some (dm, ecs) →
    (λ i, (ci_index i, ci_dst_hash i)) <$> dm_infos dm ≡ₚ (λ e, (ec_index e, from_content (ec_content e))) <$> ecs;
  se_decrypt : ∀ d dm ecs ecs', se_encrypt d = Some (dm, ecs) → ecs' ≡ₚ ecs → decrypt_full_set dm ecs' = Some d;
}.

(** ** bincode *)

Class Bincode (T : Type) := {
  bincode_serialize : T → option bytes;
  bincode_deserialize : bytes → option T;
}.

Class BincodeLaws (T : Type) `{Bincode T} : Prop := {
  bincode_round : ∀ x b, bincode_serialize x = Some b → bincode_deserialize b = Some x;
}.

(** ** libp2p

    A record key wraps its bytes.  [KBucketKey]s are SHA-256 images of byte
    strings, so a distance is a function of the two preimages. *)

Notation RecordKey := bytes.

Definition K_VALUE : nat := 20.

Class KadCrate := {
  PeerId : Type;
  PeerId_eq_dec :: EqDecision PeerId;
  PeerId_countable :: Countable PeerId;
  PeerId_ord :: Ord PeerId;
  peer_to_bytes : PeerId → bytes;
  peer_from_bytes : bytes → option PeerId;
  kad_distance : bytes → bytes → N;
}.

Class KadLaws `{KadCrate} : Prop := {
  peer_from_to_bytes : ∀ p, peer_from_bytes (peer_to_bytes p) = Some p;
  kad_distance_comm : ∀ x y, kad_distance x y = kad_distance y x;
  kad_distance_refl : ∀ x, kad_distance x x = 0%N;
}.

(** A kad [Record].  [publisher] and [expires] are left out: they are [None] in
    every record the workspace builds or reads from its disk, and no code reads
    them by themselves.  Records are compared as a whole in two places, so a
    record that a peer sends with one of the two set is here equal to the one
    without. *)
Record KRecord := { r_key : RecordKey; r_value : bytes }.

#[global] Instance KRecord_eq_dec : EqDecision KRecord.
Proof. solve_decision. Defined.

(** ** sn_dbc: tokens, an amount of nanos in a [u64] *)

Class TokenCrate := {
  Token : Type;
  Token_eq_dec :: EqDecision Token;
  as_nano : Token → Z;
  from_nano : Z → Token;
  token_zero : Token;
  checked_add : Token → Token → option Token;
  checked_sub : Token → Token → option Token;
}.

Class TokenLaws `{TokenCrate} : Prop := {
  as_nano_range : ∀ t, in_u64 (as_nano t);
  as_from_nano : ∀ n, in_u64 n → as_nano (from_nano n) = n;
  from_as_nano : ∀ t, from_nano (as_nano t) = t;
  as_nano_zero : as_nano token_zero = 0%Z;
  checked_add_spec : ∀ a b, checked_add a b =
    if decide (in_u64 (as_nano a + as_nano b)) then Some (from_nano (as_nano a + as_nano b)) else None;
  checked_sub_spec : ∀ a b, checked_sub a b =
    if decide (in_u64 (as_nano a - as_nano b)) then Some (from_nano (as_nano a - as_nano b)) else None;
}.

(** [Token]'s derived [PartialOrd] compares the nanos. *)
Definition token_lt `{TokenCrate} (a b : Token) : Prop := (as_nano a < as_nano b)%Z.
Definition token_le `{TokenCrate} (a b : Token) : Prop := (as_nano a ≤ as_nano b)%Z.

#[global] Instance token_lt_dec `{TokenCrate} : RelDecision token_lt.
Proof. intros a b. unfold token_lt. apply _. Defined.
#[global] Instance token_le_dec `{TokenCrate} : RelDecision token_le.
Proof. intros a b. unfold token_le. apply _. Defined.
#[global] Instance token_le_total `{TokenCrate} : Total token_le.
Proof. intros a b. unfold token_le. lia. Qed.
#[global] Instance token_le_trans `{TokenCrate} : Transitive token_le.
Proof. intros a b c. unfold token_le. lia. Qed.

(** ** sn_dbc: ids, transactions, spends *)

Class DbcIdCrate := {
  DbcId : Type;
  DbcId_eq_dec :: EqDecision DbcId;
  DbcId_countable :: Countable DbcId;
  DbcId_ord :: Ord DbcId;
  dbc_id_to_bytes : DbcId → bytes;
  dbc_hash : bytes → Hash32;
}.

Section DbcData.
Context `{TK : TokenCrate, DI : DbcIdCrate}.

Record DbcInput := { input_dbc_id : DbcId; input_token : Token }.
Record DbcOutput := { output_dbc_id : DbcId; output_token : Token }.
Record FeeOutput := { fee_id : Hash32; fee_token : Token; fee_root_hash : Hash32 }.
Record DbcTransaction := {
  tx_inputs : list DbcInput;
  tx_outputs : list DbcOutput;
  tx_fee : FeeOutput;
}.

#[global] Instance DbcInput_eq_dec : EqDecision DbcInput.
Proof. solve_decision. Defined.
#[global] Instance DbcOutput_eq_dec : EqDecision DbcOutput.
Proof. solve_decision. Defined.
#[global] Instance FeeOutput_eq_dec : EqDecision FeeOutput.
Proof. solve_decision. Defined.
#[global] Instance DbcTransaction_eq_dec : EqDecision DbcTransaction.
Proof. solve_decision. Defined.

End DbcData.

Class SnDbcCrate `{TokenCrate, DbcIdCrate} := {
  fee_is_free : FeeOutput → bool;
  tx_hash : DbcTransaction → Hash32;
  SignedSpend : Type;
  SignedSpend_eq_dec :: EqDecision SignedSpend;
  SignedSpend_countable :: Countable SignedSpend;
  SignedSpend_ord :: Ord SignedSpend;
  spend_dbc_id : SignedSpend → DbcId;
  spent_tx : SignedSpend → DbcTransaction;
  spent_tx_hash : SignedSpend → Hash32;
  dbc_creation_tx : SignedSpend → DbcTransaction;
  dbc_creation_tx_hash : SignedSpend → Hash32;
  spend_verify : SignedSpend → Hash32 → bool;
  verify_against_inputs_spent : DbcTransaction → gset SignedSpend → bool;
}.

(** A fee is free when its amount is zero. *)
Class SnDbcLaws `{SnDbcCrate} : Prop := {
  fee_is_free_spec : ∀ f, fee_is_free f = bool_decide (as_nano (fee_token f) = 0%Z);
}.

(** ** sn_dbc: DBCs, keys and the transaction builder

    [Dbc::token] and [Dbc::derived_key] fail when the DBC's transaction has no
    output for it, or when the key does not own it. *)
Class DbcCrate `{SnDbcCrate} := {
  MainKey : Type;
  DerivedKey : Type;
  PublicAddress : Type;
  mk_public_address : MainKey → PublicAddress;
  mk_derive_key : MainKey → bytes → DerivedKey;
  dk_dbc_id : DerivedKey → DbcId;
  new_dbc_id : PublicAddress → bytes → DbcId;
  Dbc : Type;
  Dbc_eq_dec :: EqDecision Dbc;
  dbc_id_of : Dbc → DbcId;
  dbc_token : Dbc → option Token;
  dbc_src_tx : Dbc → DbcTransaction;
  dbc_derived_key : Dbc → MainKey → option DerivedKey;
  dbc_signed_spends : Dbc → gset SignedSpend;
  empty_tx : DbcTransaction;
  fee_default : FeeOutput;
  TransactionBuilder : Type;
  tb_ins : TransactionBuilder → list DbcInput;
  tb_outs : TransactionBuilder → list (Token * PublicAddress * bytes);
  tb_fee : TransactionBuilder → FeeOutput;
  tb_default : TransactionBuilder;
  tb_add_inputs : TransactionBuilder → list (DbcInput * DerivedKey * DbcTransaction) → TransactionBuilder;
  tb_add_outputs : TransactionBuilder → list (Token * PublicAddress * bytes) → TransactionBuilder;
  tb_set_fee_output : TransactionBuilder → FeeOutput → TransactionBuilder;
  DbcBuilder : Type;
  tb_build : TransactionBuilder → Hash32 → option DbcBuilder;
  db_spent_tx : DbcBuilder → DbcTransaction;
  db_signed_spends : DbcBuilder → gset SignedSpend;
  db_build : DbcBuilder → option (list (Dbc * Token));
  db_build_without_verifying : DbcBuilder → option (list (Dbc * Token));
}.

(** What the builder accumulates is what the transaction it builds contains:
    its inputs and outputs in order, its fee; one signed spend of that
    transaction per input and one DBC per output. *)
Class DbcLaws `{DbcCrate} : Prop := {
  tb_default_ins : tb_ins tb_default = [];
  tb_default_outs : tb_outs tb_default = [];
  tb_default_fee : tb_fee tb_default = fee_default;
  tb_add_inputs_ins : ∀ b l, tb_ins (tb_add_inputs b l) = tb_ins b ++ (fst ∘ fst <$> l);
  tb_add_inputs_outs : ∀ b l, tb_outs (tb_add_inputs b l) = tb_outs b;
  tb_add_inputs_fee : ∀ b l, tb_fee (tb_add_inputs b l) = tb_fee b;
  tb_add_outputs_ins : ∀ b l, tb_ins (tb_add_outputs b l) = tb_ins b;
  tb_add_outputs_outs : ∀ b l, tb_outs (tb_add_outputs b l) = tb_outs b ++ l;
  tb_add_outputs_fee : ∀ b l, tb_fee (tb_add_outputs b l) = tb_fee b;
  tb_set_fee_ins : ∀ b f, tb_ins (tb_set_fee_output b f) = tb_ins b;
  tb_set_fee_outs : ∀ b f, tb_outs (tb_set_fee_output b f) = tb_outs b;
  tb_set_fee_fee : ∀ b f, tb_fee (tb_set_fee_output b f) = f;
  tb_build_tx : ∀ b h d, tb_build b h = Some d →
    db_spent_tx d = {|
      tx_inputs := tb_ins b;
      tx_outputs := (λ o, {| output_dbc_id := new_dbc_id o.1.2 o.2; output_token := o.1.1 |}) <$> tb_outs b;
      tx_fee := tb_fee b |};
  tb_build_spends : ∀ b h d, tb_build b h = Some d →
    set_map spend_dbc_id (db_signed_spends d) =@{gset DbcId} list_to_set (input_dbc_id <$> tb_ins b);
  tb_build_spent_tx : ∀ b h d s, tb_build b h = Some d → s ∈ db_signed_spends d → spent_tx s = db_spent_tx d;
  db_build_dbcs : ∀ d l, db_build d = Some l ∨ db_build_without_verifying d = Some l →
    (λ p : Dbc * Token, (dbc_id_of p.1, dbc_token p.1, dbc_src_tx p.1)) <$> l
    = (λ o, (output_dbc_id o, Some (output_token o), db_spent_tx d)) <$> tx_outputs (db_spent_tx d);
  fee_default_token : as_nano (fee_token fee_default) = 0%Z;
  dk_of_main_key : ∀ k i, dk_dbc_id (mk_derive_key k i) = new_dbc_id (mk_public_address k) i;
}.

(** Who can derive the key of a built DBC: the owner of the address its output
    was made for. *)
Class DbcOwnerLaws `{DbcCrate} : Prop := {
  db_build_owners : ∀ b h d l, tb_build b h = Some d → db_build d = Some l →
    Forall2 (λ (o : Token * PublicAddress * bytes) (p : Dbc * Token),
      ∀ k, mk_public_address k = o.1.2 → is_Some (dbc_derived_key p.1 k)) (tb_outs b) l;
}.

(** What the wallet directory holds: keys as bytes, DBCs as hex text. *)
Definition SK_SIZE : nat := 32.

Class DbcTextCrate `{BlsCrate, DbcCrate} := {
  sk_from_bytes : bytes → option SecretKey;
  sk_to_bytes : SecretKey → bytes;
  mk_new : SecretKey → MainKey;
  mk_to_bytes : MainKey → bytes;
  pa_new : PublicKey → PublicAddress;
  pa_to_bytes : PublicAddress → bytes;
  dbc_public_address : Dbc → PublicAddress;
  dbc_to_hex : Dbc → option string;
  dbc_from_hex : string → option Dbc;
}.

Definition is_hex_digit (a : Ascii.ascii) : bool :=
  let n := Ascii.N_of_ascii a in ((48 <=? n) && (n <=? 57))%N || ((97 <=? n) && (n <=? 102))%N.

Class DbcTextLaws `{DbcTextCrate} : Prop := {
  sk_bytes : ∀ sk, length (sk_to_bytes sk) = SK_SIZE ∧ sk_from_bytes (sk_to_bytes sk) = Some sk;
  mk_bytes : ∀ k, length (mk_to_bytes k) = SK_SIZE ∧ ∃ sk, sk_from_bytes (mk_to_bytes k) = Some sk ∧ mk_new sk = k;
  pa_bytes : ∀ a, length (pa_to_bytes a) = PK_SIZE ∧ ∃ pk, pk_from_bytes (pa_to_bytes a) = Some pk ∧ pa_new pk = a;
  dbc_hex : ∀ d h, dbc_to_hex d = Some h →
    dbc_from_hex h = Some d ∧ Forall (λ a, is_hex_digit a = true) (String.list_ascii_of_string h);
}.

(** ** rmp_serde: MessagePack serialisation of a type [T]

    [from_slice] reads a value off the front of the slice and ignores what
    follows. *)
Class Rmp (T : Type) := {
  rmp_to_vec : T → option bytes;
  rmp_from_slice : bytes → option T;
}.

Class RmpLaws (T : Type) `{Rmp T} : Prop := {
  rmp_from_to : ∀ x b rest, rmp_to_vec x = Some b → rmp_from_slice (b ++ rest) = Some x;
}.

(** A struct with a single [u32] field ([RecordHeader]): an array marker and a
    fixint for small values. *)
Class RmpHeader := {
  rmp_header_to_vec : Z → option bytes;
  rmp_header_from_slice : bytes → option Z;
}.

Class RmpHeaderLaws `{RmpHeader} : Prop := {
  rmp_header_size : ∀ n, (0 ≤ n < 128)%Z → ∃ b, rmp_header_to_vec n = Some b ∧ length b = 2;
  rmp_header_from_to : ∀ n b rest,
    rmp_header_to_vec n = Some b → rmp_header_from_slice (b ++ rest) = Some n;
}.

(** blsttc encryption *)
Class BlsEncryption `{BlsCrate} := {
  Ciphertext : Type;
  bls_encrypt : PublicKey → bytes → Ciphertext;
  bls_decrypt : SecretKey → Ciphertext → option bytes;
}.

Class BlsEncryptionLaws `{BlsEncryption} : Prop := {
  bls_decrypt_encrypt : ∀ sk m, bls_decrypt sk (bls_encrypt (public_key sk) m) = Some m;
}.
