(* ===== verification/ToyCrates.v ===== *)
(** * Small concrete crates

    Executable instances of the interfaces of [Deps] that satisfy their laws.
    They show that the hypotheses the theorems make about third-party crates
    can hold together, and let the definitions be evaluated on concrete inputs.
    They model no code of the repository. *)

From S2P Require Import Prelude Deps.
From stdpp Require Import base tactics list gmap strings countable.
From Stdlib Require Import ZArith NArith Strings.Byte Lia.

(** A total order on any countable type. *)
Definition countable_le {A} `{Countable A} (x y : A) : Prop := (encode x ≤ encode y)%positive.

Definition countable_ord {A} `{Countable A} : Ord A.
Proof.
  refine {| ord_le := countable_le |}.
  - intros x y. unfold countable_le. apply _.
  - split; [split|].
    + intros x. unfold countable_le. lia.
    + intros x y z. unfold countable_le. lia.
    + intros x y. unfold countable_le. intros Hxy Hyx. apply encode_inj. by apply Pos.le_antisym.
  - intros x y. unfold countable_le. lia.
Defined.

(** Content hash: the first 32 bytes, padded. *)
#[global] Instance toy_xorname : XorNameCrate := {|
  from_content := λ b, take 32 (b ++ replicate 32 Byte.x00);
|}.

#[global] Instance toy_xorname_laws : XorNameLaws.
Proof.
  constructor. intros b. cbn [from_content toy_xorname].
  rewrite length_take, length_app, length_replicate. unfold XOR_NAME_LEN. lia.
Qed.

(** Keys are bytes, a signature is the signer and the message. *)
#[global] Instance toy_bls : BlsCrate := {|
  PublicKey := byte;
  SecretKey := byte;
  Signature := byte * bytes;
  public_key := λ sk, sk;
  bls_sign := λ sk m, (sk, m);
  bls_verify := λ pk sig m, bool_decide (sig = (pk, m));
  pk_to_bytes := λ pk, replicate 48 pk;
  pk_from_bytes := λ b, head b;
|}.

#[global] Instance toy_bls_laws : BlsLaws.
Proof.
  constructor.
  - intros sk m. cbn. by apply bool_decide_eq_true_2.
  - intros pk. apply length_replicate.
  - intros pk. done.
Qed.

(** Lower-case hexadecimal text. *)
Definition toy_nibble (n : N) : Ascii.ascii :=
  Ascii.ascii_of_N (if (n <? 10)%N then 48 + n else 87 + n)%N.

Definition toy_unnibble (a : Ascii.ascii) : option N :=
  let n := Ascii.N_of_ascii a in
  if ((48 <=? n) && (n <? 58))%N then Some (n - 48)%N
  else if ((97 <=? n) && (n <? 103))%N then Some (n - 87)%N else None.

Fixpoint toy_hex_encode (b : bytes) : string :=
  match b with
  | [] => EmptyString
  | x :: b' =>
      String (toy_nibble (Byte.to_N x / 16)) (String (toy_nibble (Byte.to_N x mod 16)) (toy_hex_encode b'))
  end.

Fixpoint toy_hex_decode (s : string) : option bytes :=
  match s with
  | EmptyString => Some []
  | String c1 (String c2 s') =>
      match toy_unnibble c1, toy_unnibble c2 with
      | Some h, Some l =>
          match Byte.of_N (16 * h + l), toy_hex_decode s' with
          | Some x, Some b => Some (x :: b)
          | _, _ => None
          end
      | _, _ => None
      end
  | String _ EmptyString => None
  end.

#[global] Instance toy_hex : HexCrate := {|
  hex_encode := toy_hex_encode;
  hex_decode := toy_hex_decode;
|}.

Lemma toy_hex_round b : toy_hex_decode (toy_hex_encode b) = Some b.
Proof. induction b as [|x b IH]; [done|]. destruct x; cbn in *; by rewrite IH. Qed.

#[global] Instance toy_hex_laws : HexLaws.
Proof. constructor. apply toy_hex_round. Qed.

(** A Merkle register as the set of its nodes, hashed by a short digest. *)
#[global] Instance toy_crdts : CrdtsCrate := {|
  node_hash := λ n, node_value n ++ [Byte.x2f] ++ concat (elements (node_children n));
  MerkleReg := gset MerkleNode;
  mreg_new := ∅;
  mreg_write := λ _ v c, {| node_children := c; node_value := v |};
  mreg_apply := λ r n, {[ n ]} ∪ r;
  mreg_merge := λ r s, r ∪ s;
  mreg_num_nodes := λ r, size r;
  mreg_num_orphans := λ _, 0;
  mreg_node := λ r h,
    head (filter (λ n, node_value n ++ [Byte.x2f] ++ concat (elements (node_children n)) = h) (elements r));
  mreg_read := λ r, list_to_map ((λ n, (node_value n ++ [Byte.x2f] ++ concat (elements (node_children n)), n)) <$> elements r);
|}.

#[global] Instance toy_crdts_laws : CrdtsLaws.
Proof.
  constructor; cbn.
  - done.
  - intros r a b. set_solver.
  - intros r a. set_solver.
  - intros r s. set_solver.
  - intros r s t. set_solver.
  - intros r. set_solver.
  - rewrite size_empty. lia.
  - intros r a. rewrite !Nat.add_0_r.
    assert (size ({[a]} ∪ r) ≤ size ({[a]} : gset MerkleNode) + size r) as H.
    { rewrite (size_union_alt {[a]} r).
      assert (size (r ∖ {[a]}) ≤ size r); [apply subseteq_size; set_solver|lia]. }
    rewrite size_singleton in H. lia.
Qed.

#[global] Instance toy_self_encryption : SelfEncryptionCrate := {|
  MIN_ENCRYPTABLE_BYTES := 9;
  MAX_CHUNK_SIZE := 140;
|}.

(** Data is split into two halves, which are their own encryption. *)
Record ToyDataMap := { tdm_low : XorName; tdm_high : XorName; tdm_size : nat }.

Definition toy_half (i : nat) (ecs : list EncryptedChunk) : option bytes :=
  ec_content ∘ snd <$> list_find (λ e, ec_index e = i) ecs.

Definition toy_join (ecs : list EncryptedChunk) : option bytes :=
  low ← toy_half 0 ecs; high ← toy_half 1 ecs; Some (low ++ high).

#[global] Instance toy_self_encryption_ops : SelfEncryptionOps := {|
  DataMap := ToyDataMap;
  dm_infos := λ m, [{| ci_index := 0; ci_dst_hash := tdm_low m |}; {| ci_index := 1; ci_dst_hash := tdm_high m |}];
  dm_file_size := tdm_size;
  se_encrypt := λ d,
    let low := take (length d / 2) d in
    let high := drop (length d / 2) d in
    if decide (length d < 9) then None
    else Some ({| tdm_low := from_content low; tdm_high := from_content high; tdm_size := length d |},
               [{| ec_index := 0; ec_content := low |}; {| ec_index := 1; ec_content := high |}]);
  decrypt_full_set := λ _ ecs, toy_join ecs;
  decrypt_range := λ _ ecs pos len, (λ b, take len (drop pos b)) <$> toy_join ecs;
  seek_info := λ _ pos _, {| si_start := 0; si_end := 1; si_relative_pos := pos |};
|}.

#[global] Instance toy_self_encryption_laws : SelfEncryptionLaws.
Proof.
  constructor; intros d dm ecs; [intros H|intros ecs' H]; cbn -[take drop Nat.div] in H; case_decide; simplify_eq.
  - done.
  - intros Hp. symmetry in Hp. apply Permutation_length_2_inv in Hp as [->| ->]; cbn -[take drop Nat.div]; exact (f_equal Some (take_drop _ d)).
Qed.

(** ** Serialisation: a self-delimiting encoding of any countable type *)

Fixpoint toy_enc (p : positive) : bytes :=
  match p with
  | xH => [Byte.x02]
  | xO q => Byte.x00 :: toy_enc q
  | xI q => Byte.x01 :: toy_enc q
  end.

Fixpoint toy_dec (b : bytes) : option positive :=
  match b with
  | Byte.x02 :: _ => Some xH
  | Byte.x00 :: r => xO <$> toy_dec r
  | Byte.x01 :: r => xI <$> toy_dec r
  | _ => None
  end.

Lemma toy_dec_enc p rest : toy_dec (toy_enc p ++ rest) = Some p.
Proof. induction p as [p IH|p IH|]; cbn; [by rewrite IH|by rewrite IH|done]. Qed.

Definition toy_rmp {T} `{Countable T} : Rmp T := {|
  rmp_to_vec := λ x, Some (toy_enc (encode x));
  rmp_from_slice := λ b, toy_dec b ≫= decode;
|}.

Lemma toy_rmp_laws {T} `{Countable T} : @RmpLaws T toy_rmp.
Proof. constructor. cbn. intros x b rest [= <-]. rewrite toy_dec_enc. cbn. apply decode_encode. Qed.

Lemma toy_enc_short p : 2 * length (toy_enc p) ≤ Pos.to_nat p + 2.
Proof. induction p as [p IH|p IH|]; cbn [toy_enc length]; lia. Qed.

(** Bytes are their own encoding. *)
#[global] Instance toy_bincode_bytes : Bincode bytes := {| bincode_serialize := Some; bincode_deserialize := Some |}.

#[global] Instance toy_bincode_bytes_laws : BincodeLaws bytes.
Proof. constructor. by intros x b [= <-]. Qed.

#[global] Instance toy_rmp_header : RmpHeader := {|
  rmp_header_to_vec := λ n, if decide (0 ≤ n < 128)%Z
    then (λ b, [Byte.x91; b]) <$> Byte.of_N (Z.to_N n) else None;
  rmp_header_from_slice := λ b,
    match b with Byte.x91 :: x :: _ => Some (Z.of_N (Byte.to_N x)) | _ => None end;
|}.

#[global] Instance toy_rmp_header_laws : RmpHeaderLaws.
Proof.
  constructor; cbn.
  - intros n Hn. rewrite decide_True by done.
    destruct (Byte.of_N (Z.to_N n)) as [b|] eqn:E; cbn; [by eexists|].
    apply Byte.of_N_None_iff in E. lia.
  - intros n b rest. case_decide; [|done].
    destruct (Byte.of_N (Z.to_N n)) as [x|] eqn:E; cbn; [|done]. intros [= <-]. cbn.
    apply Byte.to_of_N in E. rewrite E, Z2N.id; [done|lia].
Qed.

#[global] Instance toy_bls_encryption : BlsEncryption := {|
  Ciphertext := byte * bytes;
  bls_encrypt := λ pk m, (pk, m);
  bls_decrypt := λ sk c, if decide (c.1 = sk) then Some c.2 else None;
|}.

#[global] Instance toy_bls_encryption_laws : BlsEncryptionLaws.
Proof. constructor. intros sk m. cbn. by rewrite decide_True. Qed.

(** ** libp2p: peers are bytes, keys hash to their length and first byte *)

Definition toy_kad_hash (b : bytes) : N :=
  match b with [] => 0 | x :: r => Byte.to_N x + 256 * N.of_nat (length r) end%N.

#[global] Instance toy_kad : KadCrate := {|
  PeerId := byte;
  PeerId_ord := countable_ord;
  peer_to_bytes := λ p, [p];
  peer_from_bytes := λ b, match b with [p] => Some p | _ => None end;
  kad_distance := λ x y, N.lxor (toy_kad_hash x) (toy_kad_hash y);
|}.

#[global] Instance toy_kad_laws : KadLaws.
Proof.
  constructor; cbn.
  - done.
  - intros x y. apply N.lxor_comm.
  - intros x. apply N.lxor_nilpotent.
Qed.

(** ** sn_dbc *)

Lemma toy_token_ok z : bool_decide (in_u64 (z mod two64)) = true.
Proof.
  apply bool_decide_eq_true. unfold in_u64, two64. apply Z.mod_pos_bound. lia.
Qed.

Definition toy_from_nano (z : Z) : dsig in_u64 :=
  exist _ (z mod two64)%Z (eq_rect true Is_true I _ (eq_sym (toy_token_ok z))).

#[global] Instance toy_token : TokenCrate := {|
  Token := dsig in_u64;
  as_nano := proj1_sig;
  from_nano := toy_from_nano;
  token_zero := toy_from_nano 0;
  checked_add := λ a b, if decide (in_u64 (`a + `b)) then Some (toy_from_nano (`a + `b)) else None;
  checked_sub := λ a b, if decide (in_u64 (`a - `b)) then Some (toy_from_nano (`a - `b)) else None;
|}.

Definition toy_tok (z : Z) : Token := toy_from_nano z.

#[global] Instance toy_token_laws : TokenLaws.
Proof.
  constructor; cbn.
  - intros [z Hz]. cbn. by apply bool_decide_unpack in Hz.
  - intros n Hn. unfold in_u64 in Hn. by rewrite Z.mod_small.
  - intros [z Hz]. apply dsig_eq. cbn. apply bool_decide_unpack in Hz.
    unfold in_u64 in Hz. by rewrite Z.mod_small.
  - done.
  - done.
  - done.
Qed.

#[global] Program Instance toy_token_countable : Countable (dsig in_u64) :=
  inj_countable' (λ t, `t) toy_from_nano _.
Next Obligation.
  intros [z Hz]. apply dsig_eq. cbn. apply bool_decide_unpack in Hz.
  unfold in_u64 in Hz. by rewrite Z.mod_small.
Qed.

#[global] Instance toy_dbc_id : DbcIdCrate := {|
  DbcId := byte;
  DbcId_ord := countable_ord;
  dbc_id_to_bytes := λ i, [i];
  dbc_hash := λ b, take 32 b;
|}.

#[global] Program Instance toy_input_countable : Countable DbcInput :=
  inj_countable' (λ i, (input_dbc_id i, input_token i))
                 (λ p, {| input_dbc_id := p.1; input_token := p.2 |}) _.
Next Obligation. by intros []. Qed.
#[global] Program Instance toy_output_countable : Countable DbcOutput :=
  inj_countable' (λ i, (output_dbc_id i, output_token i))
                 (λ p, {| output_dbc_id := p.1; output_token := p.2 |}) _.
Next Obligation. by intros []. Qed.
#[global] Program Instance toy_fee_countable : Countable FeeOutput :=
  inj_countable' (λ i, (fee_id i, fee_token i, fee_root_hash i))
                 (λ p, {| fee_id := p.1.1; fee_token := p.1.2; fee_root_hash := p.2 |}) _.
Next Obligation. by intros []. Qed.
#[global] Program Instance toy_tx_countable : Countable DbcTransaction :=
  inj_countable' (λ i, (tx_inputs i, tx_outputs i, tx_fee i))
                 (λ p, {| tx_inputs := p.1.1; tx_outputs := p.1.2; tx_fee := p.2 |}) _.
Next Obligation. by intros []. Qed.

(** A spend names its id, the transaction that spends it and the one that
    created it, and carries whether its signature is good. *)
Record ToySpend := {
  ts_id : byte;
  ts_spent : DbcTransaction;
  ts_creation : DbcTransaction;
  ts_good : bool;
}.
#[global] Instance ToySpend_eq_dec : EqDecision ToySpend.
Proof. solve_decision. Defined.
#[global] Program Instance ToySpend_countable : Countable ToySpend :=
  inj_countable' (λ i, (ts_id i, ts_spent i, ts_creation i, ts_good i))
    (λ p, {| ts_id := p.1.1.1; ts_spent := p.1.1.2; ts_creation := p.1.2; ts_good := p.2 |}) _.
Next Obligation. by intros []. Qed.

#[global] Instance toy_sn_dbc : SnDbcCrate := {|
  fee_is_free := λ f, bool_decide (as_nano (fee_token f) = 0%Z);
  tx_hash := λ tx, toy_enc (encode tx);
  SignedSpend := ToySpend;
  SignedSpend_ord := countable_ord;
  spend_dbc_id := ts_id;
  spent_tx := ts_spent;
  spent_tx_hash := λ s, toy_enc (encode (ts_spent s));
  dbc_creation_tx := ts_creation;
  dbc_creation_tx_hash := λ s, toy_enc (encode (ts_creation s));
  spend_verify := λ s h, ts_good s && bool_decide (h = toy_enc (encode (ts_spent s)));
  verify_against_inputs_spent := λ tx spends,
    bool_decide (list_to_set (input_dbc_id <$> tx_inputs tx) =@{gset byte} set_map ts_id spends);
|}.

#[global] Instance toy_sn_dbc_laws : SnDbcLaws.
Proof. by constructor. Qed.

(** A DBC names its owner and its amount; a builder is the list of what was
    added to it, and building always succeeds. *)
Record ToyDbc := {
  td_id : byte;
  td_owner : byte;
  td_index : bytes;
  td_token : option Token;
  td_src : DbcTransaction;
}.
#[global] Instance ToyDbc_eq_dec : EqDecision ToyDbc.
Proof. solve_decision. Defined.

Record ToyBuilder := {
  tob_ins : list (DbcInput * (byte * bytes) * DbcTransaction);
  tob_outs : list (Token * byte * bytes);
  tob_fee : FeeOutput;
}.

Definition toy_new_dbc_id (a : byte) (i : bytes) : byte :=
  match i with x :: _ => x | [] => a end.

Definition toy_fee_default : FeeOutput :=
  {| fee_id := []; fee_token := toy_from_nano 0; fee_root_hash := [] |}.

Definition toy_built_tx (b : ToyBuilder) : DbcTransaction := {|
  tx_inputs := fst ∘ fst <$> tob_ins b;
  tx_outputs := (λ o : Token * byte * bytes,
    {| output_dbc_id := toy_new_dbc_id o.1.2 o.2 : DbcId; output_token := o.1.1 |}) <$> tob_outs b;
  tx_fee := tob_fee b;
|}.

Definition toy_built_dbcs (b : ToyBuilder) : list (ToyDbc * Token) :=
  (λ o : Token * byte * bytes,
    ({| td_id := toy_new_dbc_id o.1.2 o.2; td_owner := o.1.2; td_index := o.2;
        td_token := Some o.1.1; td_src := toy_built_tx b |}, o.1.1)) <$> tob_outs b.

#[global] Instance toy_dbc_crate : DbcCrate := {|
  MainKey := byte;
  DerivedKey := byte * bytes;
  PublicAddress := byte;
  mk_public_address := λ k, k;
  mk_derive_key := λ k i, (k, i);
  dk_dbc_id := λ p, toy_new_dbc_id p.1 p.2;
  new_dbc_id := toy_new_dbc_id;
  Dbc := ToyDbc;
  dbc_id_of := td_id;
  dbc_token := td_token;
  dbc_src_tx := td_src;
  dbc_derived_key := λ d k, if decide (td_owner d = k) then Some (k, td_index d) else None;
  dbc_signed_spends := λ d, list_to_set ((λ i : DbcInput,
    {| ts_id := input_dbc_id i : byte; ts_spent := td_src d; ts_creation := td_src d; ts_good := true |})
    <$> tx_inputs (td_src d));
  empty_tx := {| tx_inputs := []; tx_outputs := []; tx_fee := toy_fee_default |};
  fee_default := toy_fee_default;
  TransactionBuilder := ToyBuilder;
  tb_ins := λ b, fst ∘ fst <$> tob_ins b;
  tb_outs := tob_outs;
  tb_fee := tob_fee;
  tb_default := {| tob_ins := []; tob_outs := []; tob_fee := toy_fee_default |};
  tb_add_inputs := λ b l, {| tob_ins := tob_ins b ++ l; tob_outs := tob_outs b; tob_fee := tob_fee b |};
  tb_add_outputs := λ b l, {| tob_ins := tob_ins b; tob_outs := tob_outs b ++ l; tob_fee := tob_fee b |};
  tb_set_fee_output := λ b f, {| tob_ins := tob_ins b; tob_outs := tob_outs b; tob_fee := f |};
  DbcBuilder := ToyBuilder;
  tb_build := λ b _, Some b;
  db_spent_tx := toy_built_tx;
  db_signed_spends := λ b, list_to_set ((λ i : DbcInput * (byte * bytes) * DbcTransaction,
    {| ts_id := input_dbc_id i.1.1 : byte; ts_spent := toy_built_tx b; ts_creation := toy_built_tx b; ts_good := true |})
    <$> tob_ins b);
  db_build := λ b, Some (toy_built_dbcs b);
  db_build_without_verifying := λ b, Some (toy_built_dbcs b);
|}.

#[global] Instance toy_dbc_laws : DbcLaws.
Proof.
  constructor; try done; cbn.
  - intros b l. apply fmap_app.
  - intros b h d [= <-]. done.
  - intros b h d [= <-]. apply set_eq. intros x.
    rewrite elem_of_map, elem_of_list_to_set, <- list_fmap_compose. setoid_rewrite elem_of_list_to_set.
    setoid_rewrite list_elem_of_fmap. split.
    + intros (s & -> & i & -> & Hi). by exists i.
    + intros (i & -> & Hi). eexists. split; [|by exists i]. done.
  - intros b h d s [= <-]. rewrite elem_of_list_to_set, list_elem_of_fmap. by intros (i & -> & _).
  - intros b l Hl. assert (l = toy_built_dbcs b) as -> by (destruct Hl; congruence).
    unfold toy_built_dbcs, toy_built_tx. cbn. by rewrite <- !list_fmap_compose.
Qed.

#[global] Instance toy_dbc_owner_laws : DbcOwnerLaws.
Proof.
  constructor. cbn. intros b h d l [= <-] [= <-]. unfold toy_built_dbcs.
  apply Forall2_fmap_r, Forall_Forall2_diag, Forall_true. intros o k ->. cbn. rewrite decide_True by done. by eexists.
Qed.

#[global] Instance toy_derived_key_eq_dec : EqDecision DerivedKey :=
  prod_eq_dec (A:=byte) (B:=bytes).

(** ** Keys as bytes, DBCs as hex text *)

#[global] Program Instance ToyDbc_countable : Countable ToyDbc :=
  inj_countable' (λ d, (td_id d, td_owner d, td_index d, td_token d, td_src d))
    (λ p, {| td_id := p.1.1.1.1; td_owner := p.1.1.1.2; td_index := p.1.1.2; td_token := p.1.2; td_src := p.2 |}) _.
Next Obligation. by intros []. Qed.

#[global] Instance toy_dbc_text : DbcTextCrate := {|
  sk_from_bytes := head;
  sk_to_bytes := λ sk, replicate SK_SIZE sk;
  mk_new := λ sk, sk;
  mk_to_bytes := λ k, replicate SK_SIZE k;
  pa_new := λ pk, pk;
  pa_to_bytes := λ a, replicate PK_SIZE a;
  dbc_public_address := td_owner;
  dbc_to_hex := λ d, Some (toy_hex_encode (toy_enc (encode d)));
  dbc_from_hex := λ s, b ← toy_hex_decode s; p ← toy_dec b; decode p;
|}.

Lemma toy_hex_digits b : Forall (λ a, is_hex_digit a = true) (String.list_ascii_of_string (toy_hex_encode b)).
Proof. induction b as [|x b IH]; cbn; [constructor|]. repeat constructor; [by destruct x|by destruct x|exact IH]. Qed.

#[global] Instance toy_dbc_text_laws : DbcTextLaws.
Proof.
  constructor.
  - intros sk. split; [apply length_replicate|done].
  - intros k. split; [apply length_replicate|]. by exists k.
  - intros a. split; [apply length_replicate|]. by exists a.
  - intros d h [= <-]. split; [|apply toy_hex_digits]. cbn. rewrite toy_hex_round. cbn.
    rewrite <- (app_nil_r (toy_enc _)), toy_dec_enc. cbn. apply decode_encode.
Qed.
