(* ===== verification/Registers.v ===== *)
(** * sn_registers: addresses, permissions, operations and signed registers

    - [RegisterAddress_*]: src/sn_registers/src/address.rs;
    - [Permissions_*], [User]: src/sn_registers/src/permissions.rs;
    - [RegisterOp_*]: src/sn_registers/src/register_op.rs;
    - [RegisterCrdt_*]: src/sn_registers/src/reg_crdt.rs;
    - [Register_*], [SignedRegister_*]: src/sn_registers/src/register.rs.

    A [&mut self] method is an [StM] computation over the record it mutates. *)

From S2P Require Import Prelude Deps ToyCrates.
From stdpp Require Import base tactics list gmap strings sorting.
From Stdlib Require Import ZArith NArith Strings.Byte Lia.

(** ** Data *)

Section Data.
Context `{BLS : BlsCrate, XN : XorNameCrate, HX : HexCrate, CR : CrdtsCrate, SE : SelfEncryptionCrate}.

Inductive User :=
| Anyone
| Key (pk : PublicKey).

#[global] Instance User_eq_dec : EqDecision User.
Proof. solve_decision. Defined.

#[global] Program Instance User_countable : Countable User :=
  inj_countable' (λ u, match u with Anyone => None | Key pk => Some pk end)
                 (λ o, match o with None => Anyone | Some pk => Key pk end) _.
Next Obligation. by intros []. Qed.

Record RegisterAddress := { reg_meta : XorName; reg_owner : PublicKey }.

#[global] Instance RegisterAddress_eq_dec : EqDecision RegisterAddress.
Proof. solve_decision. Defined.

#[global] Program Instance RegisterAddress_countable : Countable RegisterAddress :=
  inj_countable' (λ a, (reg_meta a, reg_owner a))
                 (λ p, {| reg_meta := p.1; reg_owner := p.2 |}) _.
Next Obligation. by intros []. Qed.

Inductive RegError :=
| RegisterAddrMismatch (dst_addr reg_addr : RegisterAddress)
| EntryTooBig (size max : nat)
| AccessDenied (u : User)
| TooManyEntries (n : nat)
| NoSuchEntry (h : Hash32)
| SerialisationFailed
| DifferentBaseRegister
| InvalidSignature
| MissingSignature
| InvalidSecretKey
| InvalidRegisterAddress (requested got : RegisterAddress)
| HexDeserializeFailed.

Record Permissions := { writers : gset User }.

Record RegisterOp := {
  op_address : RegisterAddress;
  op_crdt_op : MerkleNode;
  op_source : User;
  op_signature : option Signature;
}.

#[global] Instance RegisterOp_eq_dec : EqDecision RegisterOp.
Proof. solve_decision. Defined.

#[global] Program Instance RegisterOp_countable : Countable RegisterOp :=
  inj_countable' (λ o, (op_address o, op_crdt_op o, op_source o, op_signature o))
                 (λ p, match p with (a, c, s, g) =>
                    {| op_address := a; op_crdt_op := c; op_source := s; op_signature := g |} end) _.
Next Obligation. by intros []. Qed.

Record RegisterCrdt := { crdt_address : RegisterAddress; crdt_data : MerkleReg }.

Record Register := { reg_crdt : RegisterCrdt; reg_permissions : Permissions }.

#[global] Instance Permissions_eq_dec : EqDecision Permissions.
Proof. solve_decision. Defined.
#[global] Instance RegisterCrdt_eq_dec : EqDecision RegisterCrdt.
Proof. solve_decision. Defined.
#[global] Instance Register_eq_dec : EqDecision Register.
Proof. solve_decision. Defined.

Record SignedRegister := {
  base_register : Register;
  sr_signature : Signature;
  sr_ops : gset RegisterOp;
}.

#[global] Instance SignedRegister_eq_dec : EqDecision SignedRegister.
Proof. solve_decision. Defined.
#[global] Instance RegError_eq_dec : EqDecision RegError.
Proof. solve_decision. Defined.

End Data.

(** The parameters of the register code beside the crates: the [DefaultHasher]
    value of (address, op hash, source), whose algorithm std leaves
    unspecified; bincode's serialisation of a [Register]; the derived [Ord] of
    [RegisterOp], which orders the [BTreeSet] of operations. *)
Class RegisterParams `{BlsCrate, CrdtsCrate} := {
  default_hasher_finish : RegisterAddress → Hash32 → User → Z;
  bincode_register : Register → option bytes;
  RegisterOp_ord :: Ord RegisterOp;
}.

(** [u64::to_ne_bytes] on a little-endian target. *)
Definition byte_of_Z (z : Z) : byte :=
  match Byte.of_N (Z.to_N (z mod 256)) with Some b => b | None => Byte.x00 end.

Definition u64_to_ne_bytes (z : Z) : bytes :=
  (λ i, byte_of_Z (Z.shiftr z (8 * Z.of_nat i))) <$> seq 0 8.

Section Operations.
Context `{BLS : BlsCrate, XN : XorNameCrate, HX : HexCrate, CR : CrdtsCrate}.
Context `{SE : SelfEncryptionCrate, RP : !RegisterParams}.

(** ** address.rs *)

Definition RegisterAddress_new (meta : XorName) (owner : PublicKey) : RegisterAddress :=
  {| reg_meta := meta; reg_owner := owner |}.

Definition RegisterAddress_xorname (a : RegisterAddress) : XorName :=
  from_content (reg_meta a ++ pk_to_bytes (reg_owner a)).

Definition RegisterAddress_to_hex (a : RegisterAddress) : string :=
  hex_encode (reg_meta a ++ pk_to_bytes (reg_owner a)).

(** [bytes[..XOR_NAME_LEN]] panics on a shorter slice; the first [try_into] is
    then always of the right length, the second need not be. *)
Definition RegisterAddress_from_hex (h : string) : Res RegError RegisterAddress :=
  b ← ok_or (hex_decode h) HexDeserializeFailed;
  if decide (length b < XOR_NAME_LEN) then Panic SliceOutOfBounds
  else
    let meta := take XOR_NAME_LEN b in
    let owner_bytes := drop XOR_NAME_LEN b in
    if decide (length owner_bytes = PK_SIZE) then
      owner ← ok_or (pk_from_bytes owner_bytes) HexDeserializeFailed;
      Ok {| reg_meta := meta; reg_owner := owner |}
    else Err HexDeserializeFailed.

(** ** permissions.rs *)

Definition Permissions_new_with (ws : list User) : Permissions :=
  {| writers := list_to_set ws |}.

Definition Permissions_new_anyone_can_write : Permissions :=
  {| writers := {[ Anyone ]} |}.

Definition Permissions_new_owner_only : Permissions := {| writers := ∅ |}.

Definition everyone_can_write (p : Permissions) : bool :=
  bool_decide (Anyone ∈ writers p).

Definition can_write (p : Permissions) (u : User) : bool :=
  everyone_can_write p || bool_decide (u ∈ writers p).

(** ** register_op.rs *)

Definition RegisterOp_new (address : RegisterAddress) (crdt_op : MerkleNode)
    (source : User) (signature : option Signature) : RegisterOp :=
  {| op_address := address; op_crdt_op := crdt_op;
     op_source := source; op_signature := signature |}.

Definition bytes_for_signing (op : RegisterOp) : bytes :=
  u64_to_ne_bytes
    (default_hasher_finish (op_address op) (node_hash (op_crdt_op op)) (op_source op)).

Definition verify_signature (op : RegisterOp) (pk : PublicKey) : Res RegError unit :=
  let b := bytes_for_signing op in
  sig ← ok_or (op_signature op) MissingSignature;
  if negb (bls_verify pk sig b) then Err InvalidSignature else Ok tt.

Definition with_source (op : RegisterOp) (u : User) (g : option Signature) : RegisterOp :=
  {| op_address := op_address op; op_crdt_op := op_crdt_op op;
     op_source := u; op_signature := g |}.

(** [sign_with] sets the source first, so the signed bytes name the signer;
    the [debug_assert!] panics only in builds that check it. *)
Definition sign_with (b : Build) (op : RegisterOp) (sk : SecretKey) : Res RegError RegisterOp :=
  let op1 := with_source op (Key (public_key sk)) (op_signature op) in
  let sig := bls_sign sk (bytes_for_signing op1) in
  let op2 := with_source op1 (op_source op1) (Some sig) in
  match b with
  | Debug => if is_ok (verify_signature op2 (public_key sk)) then Ok op2 else Panic ExplicitPanic
  | Release => Ok op2
  end.

Definition add_signature (op : RegisterOp) (pk : PublicKey) (sig : Signature) : RegisterOp :=
  with_source op (Key pk) (Some sig).

(** ** reg_crdt.rs *)

Definition RegisterCrdt_new (address : RegisterAddress) : RegisterCrdt :=
  {| crdt_address := address; crdt_data := mreg_new |}.

Definition RegisterCrdt_merge (c other : RegisterCrdt) : RegisterCrdt :=
  {| crdt_address := crdt_address c; crdt_data := mreg_merge (crdt_data c) (crdt_data other) |}.

Definition RegisterCrdt_size (c : RegisterCrdt) : nat :=
  mreg_num_nodes (crdt_data c) + mreg_num_orphans (crdt_data c).

Definition RegisterCrdt_write (entry : bytes) (children : gset Hash32) (source : User)
    : StM RegisterCrdt RegError (Hash32 * RegisterOp) := λ c,
  let crdt_op := mreg_write (crdt_data c) entry children in
  let c' := {| crdt_address := crdt_address c; crdt_data := mreg_apply (crdt_data c) crdt_op |} in
  let hash := node_hash crdt_op in
  let op := RegisterOp_new (crdt_address c) crdt_op source None in
  (c', Ok (hash, op)).

Definition RegisterCrdt_apply_op (op : RegisterOp) : StM RegisterCrdt RegError unit := λ c,
  if decide (crdt_address c ≠ op_address op) then
    (c, Err (RegisterAddrMismatch (op_address op) (crdt_address c)))
  else
    ({| crdt_address := crdt_address c; crdt_data := mreg_apply (crdt_data c) (op_crdt_op op) |},
     Ok tt).

Definition RegisterCrdt_get (c : RegisterCrdt) (h : Hash32) : option bytes :=
  node_value <$> mreg_node (crdt_data c) h.

Definition RegisterCrdt_read (c : RegisterCrdt) : gset (Hash32 * bytes) :=
  list_to_set ((λ p, (p.1, node_value p.2)) <$> map_to_list (mreg_read (crdt_data c))).

(** ** register.rs: [Register] *)

Definition MAX_REG_ENTRY_SIZE : nat := MIN_ENCRYPTABLE_BYTES / 3.
Definition MAX_REG_NUM_ENTRIES : nat := 1024.

Definition Register_new (owner : PublicKey) (meta : XorName) (permissions : Permissions) : Register :=
  let address := {| reg_meta := meta; reg_owner := owner |} in
  {| reg_crdt := RegisterCrdt_new address;
     reg_permissions := {| writers := {[ Key owner ]} ∪ writers permissions |} |}.

Definition Register_address (r : Register) : RegisterAddress := crdt_address (reg_crdt r).
Definition Register_owner (r : Register) : PublicKey := reg_owner (Register_address r).
Definition Register_size (r : Register) : nat := RegisterCrdt_size (reg_crdt r).

Definition Register_bytes (r : Register) : Res RegError bytes :=
  ok_or (bincode_register r) SerialisationFailed.

Definition Register_sign (r : Register) (sk : SecretKey) : Res RegError Signature :=
  if decide (Register_owner r ≠ public_key sk) then Err InvalidSecretKey
  else b ← Register_bytes r; Ok (bls_sign sk b).

Definition Register_get (r : Register) (h : Hash32) : Res RegError bytes :=
  ok_or (RegisterCrdt_get (reg_crdt r) h) (NoSuchEntry h).

Definition Register_read (r : Register) : gset (Hash32 * bytes) := RegisterCrdt_read (reg_crdt r).

Definition check_user_permissions (r : Register) (requester : User) : Res RegError unit :=
  if bool_decide (requester = Key (Register_owner r)) || can_write (reg_permissions r) requester
  then Ok tt else Err (AccessDenied requester).

Definition check_register_op (r : Register) (op : RegisterOp) : Res RegError unit :=
  _ ← check_user_permissions r (op_source op);
  if everyone_can_write (reg_permissions r) then Ok tt
  else match op_source op with
       | Anyone => Ok tt
       | Key pk => verify_signature op pk
       end.

Definition check_entry_and_reg_sizes (r : Register) (entry : bytes) : Res RegError unit :=
  let size := length entry in
  if decide (MAX_REG_ENTRY_SIZE < size) then Err (EntryTooBig size MAX_REG_ENTRY_SIZE)
  else
    let reg_size := RegisterCrdt_size (reg_crdt r) in
    if decide (MAX_REG_NUM_ENTRIES ≤ reg_size) then Err (TooManyEntries reg_size) else Ok tt.

Definition on_crdt {A : Type} (m : StM RegisterCrdt RegError A) : StM Register RegError A := λ r,
  let '(c, x) := m (reg_crdt r) in
  ({| reg_crdt := c; reg_permissions := reg_permissions r |}, x).

Definition Register_write (entry : bytes) (children : gset Hash32)
    : StM Register RegError (Hash32 * RegisterOp) := λ r,
  (_ ← lift_res (check_entry_and_reg_sizes r entry);
   on_crdt (RegisterCrdt_write entry children (Key (Register_owner r)))) r.

Definition Register_apply_op (op : RegisterOp) : StM Register RegError unit := λ r,
  (_ ← lift_res (check_entry_and_reg_sizes r (node_value (op_crdt_op op)));
   _ ← lift_res (check_register_op r op);
   on_crdt (RegisterCrdt_apply_op op)) r.

Definition Register_merge (r other : Register) : Register :=
  {| reg_crdt := RegisterCrdt_merge (reg_crdt r) (reg_crdt other);
     reg_permissions := reg_permissions r |}.

(** ** register.rs: [SignedRegister] *)

Definition SignedRegister_new (base : Register) (sig : Signature) : SignedRegister :=
  {| base_register := base; sr_signature := sig; sr_ops := ∅ |}.

Definition Register_into_signed (r : Register) (sk : SecretKey) : Res RegError SignedRegister :=
  sig ← Register_sign r sk; Ok (SignedRegister_new r sig).

Definition SignedRegister_address (sr : SignedRegister) : RegisterAddress :=
  Register_address (base_register sr).
Definition SignedRegister_owner (sr : SignedRegister) : PublicKey :=
  Register_owner (base_register sr).

Definition SignedRegister_verify (sr : SignedRegister) : Res RegError unit :=
  b ← Register_bytes (base_register sr);
  if negb (bls_verify (Register_owner (base_register sr)) (sr_signature sr) b)
  then Err InvalidSignature
  else try_for_each (check_register_op (base_register sr)) (btree_iter (sr_ops sr)).

Definition verify_with_address (sr : SignedRegister) (address : RegisterAddress) : Res RegError unit :=
  if decide (Register_address (base_register sr) ≠ address)
  then Err (InvalidRegisterAddress address (SignedRegister_address sr))
  else SignedRegister_verify sr.

Definition apply_op_res (r : Register) (op : RegisterOp) : Res RegError Register :=
  match Register_apply_op op r with
  | (r', Ok _) => Ok r'
  | (_, Err e) => Err e
  | (_, Panic w) => Panic w
  end.

Definition SignedRegister_register (sr : SignedRegister) : Res RegError Register :=
  try_fold apply_op_res (base_register sr) (btree_iter (sr_ops sr)).

Definition with_ops (sr : SignedRegister) (ops : gset RegisterOp) : SignedRegister :=
  {| base_register := base_register sr; sr_signature := sr_signature sr; sr_ops := ops |}.

Definition SignedRegister_merge (other : SignedRegister) : StM SignedRegister RegError unit := λ sr,
  if decide (base_register sr ≠ base_register other) then (sr, Err DifferentBaseRegister)
  else (with_ops sr (sr_ops sr ∪ sr_ops other), Ok tt).

Definition verified_merge (other : SignedRegister) : StM SignedRegister RegError unit := λ sr,
  if decide (base_register sr ≠ base_register other) then (sr, Err DifferentBaseRegister)
  else match SignedRegister_verify other with
       | Ok _ => (with_ops sr (sr_ops sr ∪ sr_ops other), Ok tt)
       | Err e => (sr, Err e)
       | Panic w => (sr, Panic w)
       end.

Definition add_op (op : RegisterOp) : StM SignedRegister RegError unit := λ sr,
  match check_register_op (base_register sr) op with
  | Ok _ => (with_ops sr ({[ op ]} ∪ sr_ops sr), Ok tt)
  | Err e => (sr, Err e)
  | Panic w => (sr, Panic w)
  end.

End Operations.

#[global] Arguments bytes_for_signing : simpl never.
#[global] Arguments u64_to_ne_bytes : simpl never.
#[global] Arguments MAX_REG_NUM_ENTRIES : simpl never.

(** ** Specification and lemmas *)

Section Spec.
Context `{BLS : BlsCrate, XN : XorNameCrate, HX : HexCrate, CR : CrdtsCrate}.
Context `{SE : SelfEncryptionCrate, RP : !RegisterParams}.

(** What a replica promises about an operation it holds: the register is open
    to everyone, or a permitted key signed exactly these bytes. *)
Definition op_authorised (r : Register) (op : RegisterOp) : Prop :=
  Anyone ∈ writers (reg_permissions r) ∨
  ∃ pk sig, op_source op = Key pk ∧
    (pk = Register_owner r ∨ Key pk ∈ writers (reg_permissions r)) ∧
    op_signature op = Some sig ∧ bls_verify pk sig (bytes_for_signing op) = true.

(** What it promises about the whole register. *)
Definition sr_authentic (sr : SignedRegister) : Prop :=
  (∃ b, bincode_register (base_register sr) = Some b ∧
        bls_verify (SignedRegister_owner sr) (sr_signature sr) b = true) ∧
  ∀ op, op ∈ sr_ops sr → op_authorised (base_register sr) op.

Lemma verify_signature_iff op pk :
  verify_signature op pk = Ok tt ↔
  ∃ sig, op_signature op = Some sig ∧ bls_verify pk sig (bytes_for_signing op) = true.
Proof.
  unfold verify_signature. destruct (op_signature op) as [sig|]; cbn; [|naive_solver].
  rewrite exists_Some_eq. by destruct (bls_verify pk sig (bytes_for_signing op)).
Qed.

Lemma check_user_permissions_iff r u :
  check_user_permissions r u = Ok tt ↔
  u = Key (Register_owner r) ∨ Anyone ∈ writers (reg_permissions r) ∨ u ∈ writers (reg_permissions r).
Proof.
  unfold check_user_permissions, can_write, everyone_can_write.
  repeat case_bool_decide; cbn; naive_solver.
Qed.

Lemma check_register_op_iff r op : check_register_op r op = Ok tt ↔ op_authorised r op.
Proof.
  unfold check_register_op, op_authorised. rewrite bind_Ok_iff. split.
  - intros ([] & Hp & Hs). apply check_user_permissions_iff in Hp. revert Hs.
    unfold everyone_can_write. case_bool_decide as Hany; [by left|].
    destruct (op_source op) as [|pk]; [naive_solver|].
    rewrite verify_signature_iff. intros (sig & ? & ?). right. exists pk, sig. naive_solver.
  - intros Ha. exists tt. rewrite check_user_permissions_iff. unfold everyone_can_write.
    case_bool_decide as Hany; [naive_solver|].
    destruct Ha as [|(pk & sig & -> & Hp & Hsig)]; [done|].
    rewrite verify_signature_iff. naive_solver.
Qed.

Lemma check_register_op_unit r op x : check_register_op r op = Ok x ↔ op_authorised r op.
Proof. destruct x. apply check_register_op_iff. Qed.

Lemma check_register_op_total r op :
  check_register_op r op = Ok tt ∨ ∃ e, check_register_op r op = Err e.
Proof.
  unfold check_register_op, check_user_permissions.
  destruct (_ || _); cbn; [|by eauto].
  destruct (everyone_can_write _); [by eauto|].
  destruct (op_source op); [by eauto|]. unfold verify_signature.
  destruct (op_signature op); cbn; [|by eauto]. destruct (negb _); eauto.
Qed.

Lemma SignedRegister_verify_iff sr : SignedRegister_verify sr = Ok tt ↔ sr_authentic sr.
Proof.
  unfold SignedRegister_verify, sr_authentic, Register_bytes, SignedRegister_owner.
  destruct (bincode_register (base_register sr)) as [b|]; cbn; [|naive_solver].
  rewrite exists_Some_eq. destruct (bls_verify _ _ b); cbn; [|naive_solver].
  rewrite try_for_each_Ok_iff, Forall_forall.
  setoid_rewrite elem_of_btree_iter. setoid_rewrite check_register_op_iff. naive_solver.
Qed.

Lemma SignedRegister_verify_unit sr x : SignedRegister_verify sr = Ok x ↔ sr_authentic sr.
Proof. destruct x. apply SignedRegister_verify_iff. Qed.

Lemma SignedRegister_verify_total sr :
  SignedRegister_verify sr = Ok tt ∨ ∃ e, SignedRegister_verify sr = Err e.
Proof.
  destruct (SignedRegister_verify sr) as [[]|e|w] eqn:E; eauto. exfalso. revert E.
  unfold SignedRegister_verify, Register_bytes.
  destruct (bincode_register _); cbn; [|done]. destruct (negb _); [done|].
  intros E. eapply try_for_each_no_panic; [|by exists w].
  intros op _ [w' Hw]. destruct (check_register_op_total (base_register sr) op) as [H|[? H]];
    congruence.
Qed.

#[global] Instance op_authorised_dec r op : Decision (op_authorised r op).
Proof.
  destruct (decide (check_register_op r op = Ok tt)) as [H|H];
    rewrite check_register_op_iff in H; [by left|by right].
Defined.

#[global] Instance sr_authentic_dec sr : Decision (sr_authentic sr).
Proof.
  destruct (decide (SignedRegister_verify sr = Ok tt)) as [H|H];
    rewrite SignedRegister_verify_iff in H; [by left|by right].
Defined.

(** *** The effect of the three mutators *)

Lemma verified_merge_spec other sr :
  (∃ x, verified_merge other sr = (with_ops sr (sr_ops sr ∪ sr_ops other), Ok x) ∧
        base_register sr = base_register other ∧ sr_authentic other) ∨
  (∃ e, verified_merge other sr = (sr, Err e) ∧
        (base_register sr ≠ base_register other ∨ ¬ sr_authentic other)).
Proof.
  unfold verified_merge. case_decide as Hb; [by right; eauto|].
  destruct (SignedRegister_verify_total other) as [H|[e H]]; rewrite H.
  - left. exists tt. apply SignedRegister_verify_iff in H. split_and!; done.
  - right. exists e. split; [done|]. right. rewrite <- SignedRegister_verify_iff. congruence.
Qed.

Lemma add_op_spec op sr :
  (add_op op sr = (with_ops sr ({[ op ]} ∪ sr_ops sr), Ok tt) ∧ op_authorised (base_register sr) op) ∨
  (∃ e, add_op op sr = (sr, Err e) ∧ ¬ op_authorised (base_register sr) op).
Proof.
  unfold add_op. destruct (check_register_op_total (base_register sr) op) as [H|[e H]]; rewrite H.
  - left. split; [done|]. by apply check_register_op_iff.
  - right. exists e. split; [done|]. rewrite <- check_register_op_iff. congruence.
Qed.

Lemma with_ops_authentic sr ops :
  sr_authentic sr → (∀ op, op ∈ ops → op_authorised (base_register sr) op) →
  sr_authentic (with_ops sr ops).
Proof. intros [Hs _] Ho. split; [exact Hs|exact Ho]. Qed.

Lemma with_ops_twice sr X Y : with_ops (with_ops sr X) Y = with_ops sr Y.
Proof. done. Qed.

Lemma with_ops_self sr : with_ops sr (sr_ops sr) = sr.
Proof. by destruct sr. Qed.

Lemma add_op_authentic op sr : sr_authentic sr → sr_authentic (add_op op sr).1.
Proof.
  intros Hsr. destruct (add_op_spec op sr) as [[-> Ha]|(e & -> & _)]; cbn; [|done].
  apply with_ops_authentic; [done|]. destruct Hsr as [_ Ho]. set_solver.
Qed.

Lemma verified_merge_authentic other sr :
  sr_authentic sr → sr_authentic (verified_merge other sr).1.
Proof.
  intros Hsr. destruct (verified_merge_spec other sr) as [(x & -> & Hb & Hoth)|(e & -> & _)]; cbn; [|done].
  apply with_ops_authentic; [done|]. destruct Hsr as [_ Ho], Hoth as [_ Ho'].
  rewrite Hb in *. set_solver.
Qed.

End Spec.
#[export] Hint Resolve add_op_authentic verified_merge_authentic : safe_net.

(** ** Replicas: states reached from a signed register *)

Section Replicas.
Context `{BLS : BlsCrate, XN : XorNameCrate, HX : HexCrate, CR : CrdtsCrate}.
Context `{SE : SelfEncryptionCrate, RP : !RegisterParams}.

(** One update of a replica: an op submitted to it, or the verified merge of
    any other replica, including a forged one.  Both may be refused. *)
Inductive replica_step : SignedRegister → SignedRegister → Prop :=
| step_add_op op sr : replica_step sr (add_op op sr).1
| step_verified_merge other sr : replica_step sr (verified_merge other sr).1.

Inductive replica_reachable (sk : SecretKey) (r : Register) : SignedRegister → Prop :=
| reach_signed sr : Register_into_signed r sk = Ok sr → replica_reachable sk r sr
| reach_step sr sr' :
    replica_reachable sk r sr → replica_step sr sr' → replica_reachable sk r sr'.

Lemma replica_step_base sr sr' :
  replica_step sr sr' →
  base_register sr' = base_register sr ∧ sr_signature sr' = sr_signature sr ∧ sr_ops sr ⊆ sr_ops sr'.
Proof.
  destruct 1 as [op sr|other sr].
  - destruct (add_op_spec op sr) as [[-> _]|(e & -> & _)]; cbn; set_solver.
  - destruct (verified_merge_spec other sr) as [(x & -> & _)|(e & -> & _)]; cbn; set_solver.
Qed.

Lemma into_signed_authentic `{!BlsLaws} r sk sr :
  Register_into_signed r sk = Ok sr → sr_authentic sr ∧ base_register sr = r ∧ sr_ops sr = ∅.
Proof.
  unfold Register_into_signed, Register_sign, Register_bytes.
  intros (sig & Hs & [= <-])%bind_Ok_iff. case_decide as Ho; [done|].
  apply bind_Ok_iff in Hs as (b & Hb%ok_or_Ok_iff & [= <-]).
  split_and!; [|done..]. split; [|cbn; set_solver]. exists b. split; [done|].
  unfold SignedRegister_owner. cbn. rewrite Ho. apply bls_verify_sign.
Qed.

Lemma replica_reachable_authentic `{!BlsLaws} sk r sr :
  replica_reachable sk r sr → sr_authentic sr ∧ base_register sr = r.
Proof.
  induction 1 as [sr Hs|sr sr' _ [IH IHb] Hstep].
  - by apply into_signed_authentic in Hs as (? & ? & _).
  - split; [destruct Hstep; eauto with safe_net|].
    by apply replica_step_base in Hstep as (-> & _).
Qed.

(** Merging a sequence of incoming replicas, refused ones being skipped. *)
Definition absorb (sr : SignedRegister) (l : list SignedRegister) : SignedRegister :=
  foldl (λ s other, (verified_merge other s).1) sr l.

Definition acceptable (sr other : SignedRegister) : Prop :=
  base_register sr = base_register other ∧ sr_authentic other.

#[global] Instance acceptable_dec sr other : Decision (acceptable sr other).
Proof. unfold acceptable. apply _. Defined.

Lemma verified_merge_fst other sr :
  (verified_merge other sr).1 =
  with_ops sr (sr_ops sr ∪ (if decide (acceptable sr other) then sr_ops other else ∅)).
Proof.
  destruct (verified_merge_spec other sr) as [(x & -> & Hb & Ha)|(e & -> & Hn)]; cbn.
  - by rewrite decide_True.
  - rewrite decide_False by (unfold acceptable; naive_solver).
    by rewrite union_empty_r_L, with_ops_self.
Qed.

Lemma absorb_spec sr l :
  absorb sr l = with_ops sr (sr_ops sr ∪ ⋃ (sr_ops <$> filter (acceptable sr) l)).
Proof.
  unfold absorb. revert sr. induction l as [|o l IH]; intros sr.
  - cbn. by rewrite union_empty_r_L, with_ops_self.
  - cbn [foldl]. rewrite IH, verified_merge_fst, filter_cons, with_ops_twice. f_equal.
    change (filter (acceptable (with_ops sr ?X)) l) with (filter (acceptable sr) l).
    destruct (decide (acceptable sr o)); cbn; set_solver.
Qed.

Lemma elem_of_absorb sr l op :
  op ∈ sr_ops (absorb sr l) ↔ op ∈ sr_ops sr ∨ ∃ o, o ∈ l ∧ acceptable sr o ∧ op ∈ sr_ops o.
Proof.
  rewrite absorb_spec. cbn. rewrite elem_of_union, elem_of_union_list.
  setoid_rewrite list_elem_of_fmap. setoid_rewrite list_elem_of_filter. naive_solver.
Qed.

Lemma absorb_perm sr l1 l2 : l1 ≡ₚ l2 → absorb sr l1 = absorb sr l2.
Proof.
  intros Hp. rewrite !absorb_spec. f_equal. f_equal. apply set_eq. intros op. rewrite !elem_of_union_list.
  setoid_rewrite list_elem_of_fmap. setoid_rewrite list_elem_of_filter. by setoid_rewrite Hp.
Qed.

End Replicas.

(** ** Materialising a register: [SignedRegister::register] *)

Section Materialise.
Context `{BLS : BlsCrate, XN : XorNameCrate, HX : HexCrate, CR : CrdtsCrate}.
Context `{SE : SelfEncryptionCrate, RP : !RegisterParams}.

Definition with_data (r : Register) (d : MerkleReg) : Register :=
  {| reg_crdt := {| crdt_address := crdt_address (reg_crdt r); crdt_data := d |};
     reg_permissions := reg_permissions r |}.

Definition reg_data (r : Register) : MerkleReg := crdt_data (reg_crdt r).

(** When [Register::apply_op] accepts an op. *)
Definition op_applicable (r : Register) (op : RegisterOp) : Prop :=
  length (node_value (op_crdt_op op)) ≤ MAX_REG_ENTRY_SIZE ∧
  Register_size r < MAX_REG_NUM_ENTRIES ∧
  op_authorised r op ∧
  op_address op = Register_address r.

Lemma check_sizes_iff r e :
  check_entry_and_reg_sizes r e = Ok tt ↔
  length e ≤ MAX_REG_ENTRY_SIZE ∧ Register_size r < MAX_REG_NUM_ENTRIES.
Proof.
  unfold check_entry_and_reg_sizes, Register_size.
  repeat case_decide; split; try done; lia.
Qed.

Lemma check_sizes_total r e :
  check_entry_and_reg_sizes r e = Ok tt ∨ ∃ x, check_entry_and_reg_sizes r e = Err x.
Proof. unfold check_entry_and_reg_sizes. repeat case_decide; eauto. Qed.

Lemma Register_apply_op_spec op r :
  (Register_apply_op op r = (with_data r (mreg_apply (reg_data r) (op_crdt_op op)), Ok tt) ∧
   op_applicable r op) ∨
  (∃ e, Register_apply_op op r = (r, Err e) ∧ ¬ op_applicable r op).
Proof.
  unfold Register_apply_op, op_applicable, mbind, StM_bind, lift_res.
  destruct (check_sizes_total r (node_value (op_crdt_op op))) as [H1|[e H1]]; rewrite H1; cbn.
  2:{ right. exists e. split; [done|].
      intros (Ha & Hb & _). assert (Hn := conj Ha Hb). apply check_sizes_iff in Hn. congruence. }
  apply check_sizes_iff in H1.
  destruct (check_register_op_total r op) as [H2|[e H2]]; rewrite H2; cbn.
  2:{ right. exists e. split; [done|]. intros (_ & _ & Ha & _).
      apply check_register_op_iff in Ha. congruence. }
  apply check_register_op_iff in H2.
  unfold on_crdt, RegisterCrdt_apply_op. case_decide as Ha; cbn.
  - right. eexists. split; [by destruct r as [[] ?]|]. unfold Register_address. naive_solver.
  - left. split; [done|]. unfold Register_address. naive_solver.
Qed.

Lemma apply_op_res_Ok_iff r op r' :
  apply_op_res r op = Ok r' ↔
  op_applicable r op ∧ r' = with_data r (mreg_apply (reg_data r) (op_crdt_op op)).
Proof.
  unfold apply_op_res.
  destruct (Register_apply_op_spec op r) as [[-> H]|(e & -> & H)]; naive_solver.
Qed.

Lemma apply_all_Ok `{!CrdtsLaws} (ops : list RegisterOp) (r : Register) :
  (∀ op, op ∈ ops → length (node_value (op_crdt_op op)) ≤ MAX_REG_ENTRY_SIZE ∧
                    op_authorised r op ∧ op_address op = Register_address r) →
  Register_size r + length ops ≤ MAX_REG_NUM_ENTRIES →
  try_fold apply_op_res r ops =
  Ok (with_data r (foldl mreg_apply (reg_data r) (op_crdt_op <$> ops))).
Proof.
  revert r. induction ops as [|op ops IH]; intros r Hops Hsize; cbn.
  { by destruct r as [[] ?]. }
  destruct (Hops op ltac:(left)) as (Hl & Hau & Had).
  assert (apply_op_res r op = Ok (with_data r (mreg_apply (reg_data r) (op_crdt_op op)))) as ->.
  { apply apply_op_res_Ok_iff. unfold op_applicable. cbn in Hsize. naive_solver lia. }
  cbn. rewrite IH; [done| |].
  - intros op' Hop'. apply Hops. by right.
  - assert (Hg := mreg_apply_grows (reg_data r) (op_crdt_op op)).
    cbn in Hsize |- *. unfold Register_size, RegisterCrdt_size in *. cbn in *.
    unfold reg_data in *. lia.
Qed.

Lemma foldl_mreg_apply_perm `{!CrdtsLaws} (l1 l2 : list MerkleNode) (m : MerkleReg) :
  l1 ≡ₚ l2 → foldl mreg_apply m l1 = foldl mreg_apply m l2.
Proof.
  intros Hp. revert m. induction Hp as [|x l1 l2 _ IH|x y l|l1 l2 l3 _ IH1 _ IH2]; intros m; cbn.
  - done.
  - apply IH.
  - by rewrite mreg_apply_comm.
  - by rewrite IH1.
Qed.

Lemma try_fold_Ok_split {A B E} (f : A → B → Res E A) l1 x l2 a b :
  try_fold f a (l1 ++ x :: l2) = Ok b → ∃ a1 a2, try_fold f a l1 = Ok a1 ∧ f a1 x = Ok a2.
Proof.
  revert a. induction l1 as [|y l1 IH]; intros a; cbn.
  - intros (a' & Ha & _)%bind_Ok_iff. eauto.
  - intros (a' & Ha & H)%bind_Ok_iff. apply IH in H as (a1 & a2 & ? & ?).
    exists a1, a2. by rewrite Ha.
Qed.

Lemma apply_all_address ops r r' :
  try_fold apply_op_res r ops = Ok r' → Register_address r' = Register_address r.
Proof.
  revert r. induction ops as [|op ops IH]; intros r; cbn; [by intros [= ->]|].
  intros (r1 & Hr1 & H)%bind_Ok_iff. apply IH in H. rewrite H.
  by apply apply_op_res_Ok_iff in Hr1 as [_ ->].
Qed.

Lemma register_requires_addresses sr r op :
  SignedRegister_register sr = Ok r → op ∈ sr_ops sr → op_address op = SignedRegister_address sr.
Proof.
  unfold SignedRegister_register. intros Hr Hop.
  apply elem_of_btree_iter in Hop. apply list_elem_of_split in Hop as (l1 & l2 & Hl).
  rewrite Hl in Hr. apply try_fold_Ok_split in Hr as (r1 & r2 & H1 & H2).
  apply apply_op_res_Ok_iff in H2 as [(_ & _ & _ & Ha) _].
  by rewrite Ha, (apply_all_address _ _ _ H1).
Qed.

End Materialise.

(** ** Properties *)

Section Properties.
Context `{BLS : BlsCrate, XN : XorNameCrate, HX : HexCrate, CR : CrdtsCrate}.
Context `{SE : SelfEncryptionCrate, RP : !RegisterParams}.

(** [SignedRegister::verify] accepts exactly the authentic registers: the
    owner signed the serialised base register, and every operation is either on
    a public register or carries the valid signature of a permitted key. *)
Theorem signed_register_verify_exact sr :
  SignedRegister_verify sr = Ok tt ↔ sr_authentic sr.
Proof. apply SignedRegister_verify_iff. Qed.

(** C6: every state a replica reaches from a register signed by its owner, by
    adding operations and merging arbitrary (possibly forged) replicas through
    [verified_merge], still verifies and keeps the base register it was created with. *)
Theorem replica_reachable_verifies (HB : BlsLaws) sk r sr :
  replica_reachable sk r sr → SignedRegister_verify sr = Ok tt ∧ base_register sr = r.
Proof.
  intros H. apply replica_reachable_authentic in H as [H ->].
  split; [by apply SignedRegister_verify_iff|done].
Qed.

(** C7: strong eventual consistency of replicas: whatever order the same
    replicas arrive in, merging them all ends in the same signed register, whose
    operations are its own plus those of exactly the authentic replicas of the same base. *)
Theorem absorb_order_independent sr (l1 l2 : list SignedRegister) :
  l1 ≡ₚ l2 →
  absorb sr l1 = absorb sr l2 ∧
  ∀ op, op ∈ sr_ops (absorb sr l1) ↔
        op ∈ sr_ops sr ∨ ∃ o, o ∈ l1 ∧ acceptable sr o ∧ op ∈ sr_ops o.
Proof. intros Hp. split; [by apply absorb_perm|]. intros op. apply elem_of_absorb. Qed.

(** C34: a signed register whose operations are addressed to it, have entries
    within the size limit and do not exceed the entry cap materialises, and the
    result is the base content with all operations applied, in any order. *)
Theorem register_materialises (HC : CrdtsLaws) sr (l : list RegisterOp) :
  sr_authentic sr →
  (∀ op, op ∈ sr_ops sr → op_address op = SignedRegister_address sr ∧
         length (node_value (op_crdt_op op)) ≤ MAX_REG_ENTRY_SIZE) →
  Register_size (base_register sr) + size (sr_ops sr) ≤ MAX_REG_NUM_ENTRIES →
  l ≡ₚ elements (sr_ops sr) →
  SignedRegister_register sr =
  Ok (with_data (base_register sr)
        (foldl mreg_apply (reg_data (base_register sr)) (op_crdt_op <$> l))).
Proof.
  intros [_ Ha] Hops Hsize Hl. unfold SignedRegister_register.
  rewrite apply_all_Ok; [| |].
  - f_equal. f_equal. apply foldl_mreg_apply_perm. f_equiv. by rewrite Hl, btree_iter_perm.
  - intros op Hop%elem_of_btree_iter. destruct (Hops op Hop). auto.
  - rewrite btree_iter_perm. exact Hsize.
Qed.

(** neither [add_op] nor [verify] looks at an operation's destination: an
    authorised operation addressed to another register is accepted and the
    signed register keeps verifying, but it can never be materialised again. *)
Theorem misaddressed_op_accepted_and_poisons sr op :
  sr_authentic sr → op_authorised (base_register sr) op →
  op_address op ≠ SignedRegister_address sr →
  ∃ sr', add_op op sr = (sr', Ok tt) ∧ SignedRegister_verify sr' = Ok tt ∧
         ∀ r, SignedRegister_register sr' ≠ Ok r.
Proof.
  intros Hsr Hop Haddr. destruct (add_op_spec op sr) as [[Heq _]|(e & _ & ?)]; [|done].
  eexists. split; [exact Heq|]. split.
  - apply SignedRegister_verify_iff. assert (H := add_op_authentic op sr Hsr). by rewrite Heq in H.
  - intros r Hr. eapply Haddr, (register_requires_addresses _ _ op Hr). cbn. set_solver.
Qed.

(** [Register::apply_op] applies an operation exactly when its entry fits,
    the register is below its entry cap, the writer is authorised and the
    destination matches; otherwise it reports an error and changes nothing. *)
Theorem register_apply_op_exact op r :
  (op_applicable r op →
   Register_apply_op op r = (with_data r (mreg_apply (reg_data r) (op_crdt_op op)), Ok tt)) ∧
  (¬ op_applicable r op → ∃ e, Register_apply_op op r = (r, Err e)).
Proof. destruct (Register_apply_op_spec op r) as [[-> ?]|(e & -> & ?)]; naive_solver. Qed.

(** [RegisterAddress::from_hex] inverts [to_hex] on well-formed addresses,
    and panics on every hex text that decodes to fewer than 32 bytes. *)
Theorem register_address_hex (HB : BlsLaws) (HH : HexLaws) (a : RegisterAddress) (h : string) (b : bytes) :
  length (reg_meta a) = XOR_NAME_LEN → hex_decode h = Some b →
  RegisterAddress_from_hex (RegisterAddress_to_hex a) = Ok a ∧
  (length b < XOR_NAME_LEN ↔ panics (RegisterAddress_from_hex h)).
Proof.
  intros Hm Hd. unfold RegisterAddress_from_hex, RegisterAddress_to_hex. split.
  - rewrite hex_decode_encode. cbn. rewrite length_app, pk_to_bytes_len, Hm.
    rewrite decide_False by (unfold XOR_NAME_LEN, PK_SIZE; lia).
    rewrite drop_app_length' by done. rewrite take_app_length' by done.
    rewrite decide_True by apply pk_to_bytes_len.
    rewrite pk_from_to_bytes. cbn. by destruct a.
  - rewrite Hd. cbn. case_decide; [unfold panics; naive_solver|].
    split; [done|]. intros [w Hw]. case_decide; [|done].
    by destruct (pk_from_bytes _).
Qed.

(** An operation signed with [sign_with] passes the owner's signature check
    and the [debug_assert!] inside [sign_with] never fires, in either build. *)
Theorem sign_with_verifies (HB : BlsLaws) bld op sk :
  ∃ op', sign_with bld op sk = Ok op' ∧ op_source op' = Key (public_key sk) ∧
         verify_signature op' (public_key sk) = Ok tt.
Proof.
  unfold sign_with. set (op2 := with_source _ _ (Some _)).
  assert (verify_signature op2 (public_key sk) = Ok tt) as Hv.
  { apply verify_signature_iff. eexists. split; [done|]. apply bls_verify_sign. }
  exists op2. rewrite Hv. by destruct bld.
Qed.

End Properties.

(** ** The properties at a concrete register

    The hypotheses about the crates hold together for the crates of
    [ToyCrates]; each property is applied to a small register there. *)

#[global] Instance toy_register_params : RegisterParams := {|
  default_hasher_finish := λ a h u, (Z.pos (encode (a, h, u)) mod two64)%Z;
  bincode_register := λ r, Some (reg_meta (Register_address r) ++ pk_to_bytes (Register_owner r));
  RegisterOp_ord := countable_ord;
|}.

#[global] Program Instance toy_register_countable : Countable Register :=
  inj_countable' (λ r : Register, (Register_address r, crdt_data (reg_crdt r) : gset MerkleNode, writers (reg_permissions r)))
    (λ x, {| reg_crdt := {| crdt_address := x.1.1; crdt_data := x.1.2 : MerkleReg |};
             reg_permissions := {| writers := x.2 |} |}) _.
Next Obligation. by intros [[] []]. Qed.

#[global] Program Instance toy_signed_register_countable : Countable SignedRegister :=
  inj_countable' (λ sr : SignedRegister, (base_register sr, sr_signature sr : byte * bytes, sr_ops sr))
    (λ x, {| base_register := x.1.1; sr_signature := x.1.2 : Signature; sr_ops := x.2 |}) _.
Next Obligation. by intros []. Qed.

Definition toy_owner : SecretKey := Byte.x01.
Definition toy_reg : Register :=
  Register_new toy_owner (replicate 32 Byte.x07) Permissions_new_owner_only.
Definition toy_sr : SignedRegister := SignedRegister_new toy_reg (bls_sign toy_owner
  (replicate 32 Byte.x07 ++ pk_to_bytes toy_owner)).
Definition toy_unsigned_op (a : RegisterAddress) : RegisterOp :=
  RegisterOp_new a {| node_children := ∅; node_value := [Byte.x05] |} Anyone None.
Definition toy_op (a : RegisterAddress) : RegisterOp :=
  match sign_with Debug (toy_unsigned_op a) toy_owner with Ok op => op | _ => toy_unsigned_op a end.
Definition toy_sr1 : SignedRegister := (add_op (toy_op (Register_address toy_reg)) toy_sr).1.

Lemma toy_sr_authentic : sr_authentic toy_sr.
Proof. apply SignedRegister_verify_iff. by_compute. Defined.

Lemma toy_sr1_authentic : sr_authentic toy_sr1.
Proof. apply SignedRegister_verify_iff. by_compute. Defined.

Lemma replica_reachable_verifies_witness :
  SignedRegister_verify toy_sr1 = Ok tt ∧ base_register toy_sr1 = toy_reg.
Proof.
  apply (replica_reachable_verifies _ toy_owner toy_reg toy_sr1).
  apply (reach_step _ _ toy_sr).
  - apply reach_signed. by_compute.
  - unfold toy_sr1. constructor.
Defined.

Lemma absorb_order_independent_witness :
  absorb toy_sr [toy_sr; toy_sr1] = absorb toy_sr [toy_sr1; toy_sr].
Proof. apply (absorb_order_independent toy_sr [toy_sr; toy_sr1] [toy_sr1; toy_sr]). apply perm_swap. Defined.

Lemma register_materialises_witness :
  SignedRegister_register toy_sr1 =
  Ok (with_data toy_reg (foldl mreg_apply (reg_data toy_reg) [op_crdt_op (toy_op (Register_address toy_reg))])).
Proof.
  apply (register_materialises _ toy_sr1 [toy_op (Register_address toy_reg)]).
  - exact toy_sr1_authentic.
  - change (set_Forall (λ op, op_address op = SignedRegister_address toy_sr1 ∧
      length (node_value (op_crdt_op op)) ≤ MAX_REG_ENTRY_SIZE) (sr_ops toy_sr1)). by_compute.
  - by_compute.
  - assert (elements (sr_ops toy_sr1) = [toy_op (Register_address toy_reg)]) as -> by by_compute.
    reflexivity.
Defined.

Definition toy_other_address : RegisterAddress := RegisterAddress_new (replicate 32 Byte.x09) toy_owner.

Lemma misaddressed_op_witness :
  ∃ sr', add_op (toy_op toy_other_address) toy_sr = (sr', Ok tt) ∧ SignedRegister_verify sr' = Ok tt ∧
         ∀ r, SignedRegister_register sr' ≠ Ok r.
Proof.
  apply (misaddressed_op_accepted_and_poisons toy_sr (toy_op toy_other_address)).
  - exact toy_sr_authentic.
  - apply check_register_op_iff. by_compute.
  - by_compute.
Defined.

Lemma register_apply_op_exact_witness :
  Register_apply_op (toy_op (Register_address toy_reg)) toy_reg =
  (with_data toy_reg (mreg_apply (reg_data toy_reg) (op_crdt_op (toy_op (Register_address toy_reg)))), Ok tt).
Proof.
  apply (register_apply_op_exact (toy_op (Register_address toy_reg)) toy_reg).
  repeat split.
  - by_compute.
  - by_compute.
  - apply check_register_op_iff. by_compute.
Defined.

Lemma register_address_hex_witness :
  RegisterAddress_from_hex (RegisterAddress_to_hex (Register_address toy_reg)) = Ok (Register_address toy_reg) ∧
  panics (RegisterAddress_from_hex (HX:=toy_hex) "0a").
Proof.
  destruct (register_address_hex _ _ (Register_address toy_reg) "0a" [Byte.x0a]) as [H1 H2].
  - reflexivity.
  - reflexivity.
  - split; [exact H1|]. apply H2. vm_compute. lia.
Defined.

Lemma sign_with_verifies_witness :
  ∃ op', sign_with Debug (toy_unsigned_op toy_other_address) toy_owner = Ok op' ∧
         op_source op' = Key (public_key toy_owner) ∧ verify_signature op' (public_key toy_owner) = Ok tt.
Proof. apply (sign_with_verifies _ Debug (toy_unsigned_op toy_other_address) toy_owner). Defined.
