(* ===== verification/Protocol.v ===== *)
(** * sn_protocol: network addresses, record encoding and messages

    - [NetworkAddress] and its conversions: src/sn_protocol/src/lib.rs;
    - [RecordKind], [RecordHeader_*], [try_*_record]: storage/header.rs;
    - [Chunk], [ChunkWithPayment]: storage/chunks.rs;
    - [Cmd], [Query], [Request], [Response], [ReplicatedData]: messages/;
    - [Utxo], [Transfer]: messages/utxo.rs;
    - [ProtocolError]: error.rs, without the human-readable texts. *)

From S2P Require Import Prelude Deps ToyCrates Registers.
From stdpp Require Import base tactics list gmap strings.
From Stdlib Require Import ZArith NArith Strings.Byte Lia.

(** ** Storage addresses and [NetworkAddress] *)

Section Addresses.
Context `{BLS : BlsCrate, XN : XorNameCrate, KD : KadCrate, DI : DbcIdCrate}.

Record ChunkAddress := { chunk_xorname : XorName }.
Record DbcAddress := { dbc_xorname : XorName }.

#[global] Instance ChunkAddress_eq_dec : EqDecision ChunkAddress.
Proof. solve_decision. Defined.
#[global] Instance DbcAddress_eq_dec : EqDecision DbcAddress.
Proof. solve_decision. Defined.

Definition DbcAddress_from_dbc_id (id : DbcId) : DbcAddress :=
  {| dbc_xorname := from_content (dbc_id_to_bytes id) |}.

Inductive NetworkAddress :=
| NA_PeerId (b : bytes)
| NA_ChunkAddress (a : ChunkAddress)
| NA_DbcAddress (a : DbcAddress)
| NA_RegisterAddress (a : RegisterAddress)
| NA_RecordKey (b : bytes).

#[global] Instance NetworkAddress_eq_dec : EqDecision NetworkAddress.
Proof. solve_decision. Defined.

Definition from_chunk_address (a : ChunkAddress) : NetworkAddress := NA_ChunkAddress a.
Definition from_dbc_address (a : DbcAddress) : NetworkAddress := NA_DbcAddress a.
Definition from_register_address (a : RegisterAddress) : NetworkAddress := NA_RegisterAddress a.
Definition from_peer (p : PeerId) : NetworkAddress := NA_PeerId (peer_to_bytes p).
Definition from_record_key (k : RecordKey) : NetworkAddress := NA_RecordKey k.

Definition as_bytes (a : NetworkAddress) : bytes :=
  match a with
  | NA_PeerId b | NA_RecordKey b => b
  | NA_ChunkAddress a => chunk_xorname a
  | NA_DbcAddress a => dbc_xorname a
  | NA_RegisterAddress a => RegisterAddress_xorname a
  end.

Definition as_peer_id (a : NetworkAddress) : option PeerId :=
  match a with
  | NA_PeerId b => peer_from_bytes b
  | _ => None
  end.

Definition as_record_key (a : NetworkAddress) : option RecordKey :=
  match a with
  | NA_RecordKey b => Some b
  | _ => None
  end.

Definition to_record_key (a : NetworkAddress) : RecordKey :=
  match a with
  | NA_RecordKey b => b
  | NA_ChunkAddress a => chunk_xorname a
  | NA_RegisterAddress a => RegisterAddress_xorname a
  | NA_DbcAddress a => dbc_xorname a
  | NA_PeerId b => b
  end.

Definition na_distance (a b : NetworkAddress) : N := kad_distance (as_bytes a) (as_bytes b).

Lemma to_record_key_as_bytes a : to_record_key a = as_bytes a.
Proof. by destruct a. Qed.

End Addresses.

(** ** error.rs and messages *)

Section Messages.
Context `{BLS : BlsCrate, XN : XorNameCrate, KD : KadCrate, CR : CrdtsCrate}.
Context `{TK : TokenCrate, DI : DbcIdCrate, SD : !SnDbcCrate}.

Inductive RecordKind := RK_Chunk | RK_DbcSpend | RK_Register.

#[global] Instance RecordKind_eq_dec : EqDecision RecordKind.
Proof. solve_decision. Defined.

Inductive ProtocolError :=
| ChunkNotFound (a : ChunkAddress)
| ChunkNotStored (x : XorName)
| RegisterNotStored (a : RegisterAddress)
| RegisterNotFound (a : RegisterAddress)
| RegisterInvalid (a : RegisterAddress)
| RegisterError (e : RegError)
| RegisterAlreadyClaimed (pk : PublicKey)
| SpendNotFound (a : DbcAddress)
| SpendNotStored
| DoubleSpendAttempt (s1 s2 : SignedSpend)
| SpendSignatureInvalid
| SpendParentTxInvalid
| SpendIsEmpty
| GetStoreCostFailed
| SignStoreCostFailed
| PaymentProofInsufficientAmount (paid expected : Token)
| PaymentProofTxMismatch (x : XorName)
| PaymentProofWithoutInputs (x : XorName)
| PaymentProofInvalidFeeOutput (h : Hash32)
| InvalidPaymentProof (x : XorName)
| UtxoSerialisationFailed
| UtxoDecryptionFailed
| ReplicatedDataNotFound (holder address : NetworkAddress)
| RecordHeaderParsingFailed
| RecordParsingFailed
| RecordKeyMismatch
| RecordKindMismatch (k : RecordKind).

#[global] Instance ProtocolError_eq_dec : EqDecision ProtocolError.
Proof. solve_decision. Defined.

(** [MerkleTreeNodesType] is [[u8; 32]]; a path step is a [usize]. *)
Record PaymentProof := {
  spent_ids : list DbcId;
  audit_trail : list Hash32;
  proof_path : list Z;
}.

#[global] Instance PaymentProof_eq_dec : EqDecision PaymentProof.
Proof. solve_decision. Defined.

(** *** storage/chunks.rs *)

Record Chunk := { chunk_address : ChunkAddress; chunk_value : bytes }.

#[global] Instance Chunk_eq_dec : EqDecision Chunk.
Proof. solve_decision. Defined.

Definition Chunk_new (value : bytes) : Chunk :=
  {| chunk_address := {| chunk_xorname := from_content value |}; chunk_value := value |}.

Definition chunk_name (c : Chunk) : XorName := chunk_xorname (chunk_address c).
Definition chunk_serialised_size (c : Chunk) : nat := length (chunk_value c).

Record ChunkWithPayment := { cwp_chunk : Chunk; cwp_payment : PaymentProof }.

#[global] Instance ChunkWithPayment_eq_dec : EqDecision ChunkWithPayment.
Proof. solve_decision. Defined.

Inductive ReplicatedData :=
| RD_Chunk (c : ChunkWithPayment)
| RD_DbcSpend (l : list SignedSpend)
| RD_Register (r : SignedRegister).

Definition ReplicatedData_name (d : ReplicatedData) : Res ProtocolError XorName :=
  match d with
  | RD_Chunk c => Ok (chunk_name (cwp_chunk c))
  | RD_DbcSpend spends =>
      match first_of spends with
      | Some s => Ok (dbc_xorname (DbcAddress_from_dbc_id (spend_dbc_id s)))
      | None => Err SpendIsEmpty
      end
  | RD_Register r => Ok (RegisterAddress_xorname (SignedRegister_address r))
  end.

Definition ReplicatedData_dst (d : ReplicatedData) : Res ProtocolError NetworkAddress :=
  match d with
  | RD_Chunk c => Ok (from_chunk_address (chunk_address (cwp_chunk c)))
  | RD_DbcSpend spends =>
      match first_of spends with
      | Some s => Ok (from_dbc_address (DbcAddress_from_dbc_id (spend_dbc_id s)))
      | None => Err SpendIsEmpty
      end
  | RD_Register r => Ok (from_register_address (SignedRegister_address r))
  end.

(** *** messages/ *)

Inductive Cmd := Cmd_Replicate (holder : NetworkAddress) (keys : list NetworkAddress).

Definition Cmd_dst (c : Cmd) : NetworkAddress :=
  match c with Cmd_Replicate holder _ => holder end.

Inductive Query :=
| Query_GetStoreCost (address : NetworkAddress)
| Query_GetReplicatedData (requester address : NetworkAddress).

Definition Query_dst (q : Query) : NetworkAddress :=
  match q with
  | Query_GetStoreCost address => address
  | Query_GetReplicatedData _ address => address
  end.

Inductive RegisterCmd :=
| RC_Create (register : Register) (signature : Signature)
| RC_Edit (op : RegisterOp).

Definition RegisterCmd_dst (c : RegisterCmd) : RegisterAddress :=
  match c with
  | RC_Create register _ => Register_address register
  | RC_Edit op => op_address op
  end.

Inductive Request := Request_Cmd (c : Cmd) | Request_Query (q : Query).

Definition Request_dst (r : Request) : NetworkAddress :=
  match r with Request_Cmd c => Cmd_dst c | Request_Query q => Query_dst q end.

Inductive QueryResponse :=
| QR_GetStoreCost (r : ProtocolError + Token)
| QR_GetReplicatedData (r : ProtocolError + NetworkAddress * ReplicatedData).

Inductive CmdResponse := CR_Replicate (r : ProtocolError + unit).

Inductive Response := Response_Cmd (r : CmdResponse) | Response_Query (r : QueryResponse).

#[global] Instance ReplicatedData_eq_dec : EqDecision ReplicatedData.
Proof. solve_decision. Defined.
#[global] Instance Cmd_eq_dec : EqDecision Cmd.
Proof. solve_decision. Defined.
#[global] Instance Query_eq_dec : EqDecision Query.
Proof. solve_decision. Defined.
#[global] Instance Request_eq_dec : EqDecision Request.
Proof. solve_decision. Defined.
#[global] Instance QueryResponse_eq_dec : EqDecision QueryResponse.
Proof. solve_decision. Defined.
#[global] Instance CmdResponse_eq_dec : EqDecision CmdResponse.
Proof. solve_decision. Defined.
#[global] Instance Response_eq_dec : EqDecision Response.
Proof. solve_decision. Defined.

Inductive CmdOk := StoredSuccessfully | DataAlreadyPresent.

#[global] Instance CmdOk_eq_dec : EqDecision CmdOk.
Proof. solve_decision. Defined.

(** *** storage/header.rs *)

Record RecordHeader := { rh_kind : RecordKind }.

#[global] Instance RecordHeader_eq_dec : EqDecision RecordHeader.
Proof. solve_decision. Defined.

Definition RecordHeader_SIZE : nat := 2.

Definition RecordKind_serialize (k : RecordKind) : Z :=
  match k with RK_Chunk => 0 | RK_DbcSpend => 1 | RK_Register => 2 end%Z.

Definition RecordKind_deserialize (n : Z) : option RecordKind :=
  match n with
  | 0 => Some RK_Chunk
  | 1 => Some RK_DbcSpend
  | 2 => Some RK_Register
  | _ => None
  end%Z.

Context `{RH : RmpHeader}.

Definition RecordHeader_try_serialize (h : RecordHeader) : Res ProtocolError bytes :=
  ok_or (rmp_header_to_vec (RecordKind_serialize (rh_kind h))) RecordHeaderParsingFailed.

Definition RecordHeader_try_deserialize (b : bytes) : Res ProtocolError RecordHeader :=
  n ← ok_or (rmp_header_from_slice b) RecordHeaderParsingFailed;
  k ← ok_or (RecordKind_deserialize n) RecordHeaderParsingFailed;
  Ok {| rh_kind := k |}.

(** [&record.value[..SIZE + 1]] panics on a shorter value. *)
Definition RecordHeader_from_record (r : KRecord) : Res ProtocolError RecordHeader :=
  if decide (length (r_value r) < RecordHeader_SIZE + 1) then Panic SliceOutOfBounds
  else map_err (λ _, RecordHeaderParsingFailed)
         (RecordHeader_try_deserialize (take (RecordHeader_SIZE + 1) (r_value r))).

Definition try_deserialize_record {T : Type} `{RT : Rmp T} (r : KRecord) : Res ProtocolError T :=
  if decide (length (r_value r) < RecordHeader_SIZE) then Panic SliceOutOfBounds
  else ok_or (rmp_from_slice (drop RecordHeader_SIZE (r_value r))) RecordParsingFailed.

Definition try_serialize_record {T : Type} `{RT : Rmp T} (data : T) (k : RecordKind) : Res ProtocolError bytes :=
  payload ← ok_or (rmp_to_vec data) RecordParsingFailed;
  record_value ← RecordHeader_try_serialize {| rh_kind := k |};
  Ok (record_value ++ payload).

(** *** messages/utxo.rs *)

Record Utxo := { derivation_index : bytes; parent_spend : DbcAddress }.

Context `{RU : Rmp Utxo, BE : !BlsEncryption}.

Definition Utxo_to_bytes (u : Utxo) : Res ProtocolError bytes :=
  ok_or (rmp_to_vec u) UtxoSerialisationFailed.

Definition Utxo_from_bytes (b : bytes) : Res ProtocolError Utxo :=
  ok_or (rmp_from_slice b) UtxoSerialisationFailed.

Definition Utxo_encrypt (u : Utxo) (pk : PublicKey) : Res ProtocolError Ciphertext :=
  b ← Utxo_to_bytes u; Ok (bls_encrypt pk b).

Definition Utxo_decrypt (c : Ciphertext) (sk : SecretKey) : Res ProtocolError Utxo :=
  b ← ok_or (bls_decrypt sk c) UtxoDecryptionFailed; Utxo_from_bytes b.

Record Transfer := { encrypted_utxos : list Ciphertext }.

Definition Transfer_create (utxos : list Utxo) (recipient : PublicKey) : Res ProtocolError Transfer :=
  cs ← try_map (λ u, Utxo_encrypt u recipient) utxos;
  Ok {| encrypted_utxos := cs |}.

Definition Transfer_utxos (t : Transfer) (sk : SecretKey) : Res ProtocolError (list Utxo) :=
  try_fold (λ acc c, u ← Utxo_decrypt c sk; Ok (acc ++ [u])) [] (encrypted_utxos t).

End Messages.

(** The [Serialize]/[Deserialize] implementations of [Chunk]: only the value is
    written, and the address is recomputed when a chunk is read. *)
#[global] Instance ChunkWithPayment_rmp `{BLS : BlsCrate, XN : XorNameCrate, DI : DbcIdCrate}
    `{RC : Rmp (bytes * PaymentProof)} : Rmp ChunkWithPayment := {|
  rmp_to_vec := λ c, rmp_to_vec (chunk_value (cwp_chunk c), cwp_payment c);
  rmp_from_slice := λ b,
    (λ p : bytes * PaymentProof, {| cwp_chunk := Chunk_new p.1; cwp_payment := p.2 |}) <$> rmp_from_slice b;
|}.

(** ** Lemmas *)

Section Lemmas.
Context `{BLS : BlsCrate, XN : XorNameCrate, KD : KadCrate, CR : CrdtsCrate}.
Context `{TK : TokenCrate, DI : DbcIdCrate, SD : !SnDbcCrate, RH : RmpHeader}.

Lemma try_serialize_no_panic {T} `{RT : Rmp T} (x : T) k w : try_serialize_record x k ≠ Panic w.
Proof.
  unfold try_serialize_record, RecordHeader_try_serialize.
  destruct (rmp_to_vec x); cbn; [|done]. by destruct (rmp_header_to_vec _).
Qed.

Lemma RecordKind_round k : RecordKind_deserialize (RecordKind_serialize k) = Some k.
Proof. by destruct k. Qed.

Lemma header_serialize `{!RmpHeaderLaws} k :
  ∃ b, RecordHeader_try_serialize {| rh_kind := k |} = Ok b ∧ length b = RecordHeader_SIZE ∧
       rmp_header_to_vec (RecordKind_serialize k) = Some b.
Proof.
  destruct (rmp_header_size (RecordKind_serialize k)) as (b & Hb & Hl); [by destruct k|].
  exists b. unfold RecordHeader_try_serialize. cbn. by rewrite Hb.
Qed.

Lemma header_deserialize `{!RmpHeaderLaws} k b rest :
  rmp_header_to_vec (RecordKind_serialize k) = Some b →
  RecordHeader_try_deserialize (b ++ rest) = Ok {| rh_kind := k |}.
Proof.
  intros Hb. unfold RecordHeader_try_deserialize. erewrite rmp_header_from_to by done.
  cbn. by rewrite RecordKind_round.
Qed.

Lemma try_deserialize_app {T} `{RT : Rmp T, !RmpLaws T} (d : T) k b payload :
  length b = RecordHeader_SIZE → rmp_to_vec d = Some payload →
  try_deserialize_record {| r_key := k; r_value := b ++ payload |} = Ok d.
Proof.
  intros Hb Hp. unfold try_deserialize_record. cbn [r_value].
  rewrite decide_False by (rewrite length_app; lia). rewrite drop_app_length' by done.
  erewrite <- (app_nil_r payload), rmp_from_to by done. done.
Qed.

Lemma from_record_app `{!RmpHeaderLaws} kind k b payload :
  rmp_header_to_vec (RecordKind_serialize kind) = Some b → length b = RecordHeader_SIZE →
  payload ≠ [] →
  RecordHeader_from_record {| r_key := k; r_value := b ++ payload |} = Ok {| rh_kind := kind |}.
Proof.
  intros Hb Hl Hp. unfold RecordHeader_from_record. cbn [r_value].
  destruct payload as [|x payload]; [done|].
  rewrite decide_False by (rewrite length_app; unfold RecordHeader_SIZE in *; cbn; lia).
  rewrite take_app_ge by lia. erewrite header_deserialize by done. done.
Qed.

(** What is written under a kind is read back. *)
Lemma record_written_read `{!RmpHeaderLaws} {T} `{RT : Rmp T, !RmpLaws T} (data : T) kind key payload :
  rmp_to_vec data = Some payload → payload ≠ [] →
  ∃ v, try_serialize_record data kind = Ok v ∧
       RecordHeader_from_record {| r_key := key; r_value := v |} = Ok {| rh_kind := kind |} ∧
       try_deserialize_record {| r_key := key; r_value := v |} = Ok data.
Proof.
  intros Hp Hne. destruct (header_serialize kind) as (b & Hb & Hl & Hv).
  exists (b ++ payload). unfold try_serialize_record. rewrite Hp. cbn. rewrite Hb. cbn.
  split_and!; [done|by apply from_record_app|by apply try_deserialize_app].
Qed.

Lemma serialized_read_back `{!RmpHeaderLaws} {T} `{RT : Rmp T, !RmpLaws T} (data : T) kind key v :
  rmp_to_vec data ≠ Some [] → try_serialize_record data kind = Ok v →
  RecordHeader_from_record {| r_key := key; r_value := v |} = Ok {| rh_kind := kind |} ∧
  try_deserialize_record {| r_key := key; r_value := v |} = Ok data.
Proof.
  intros Hne Hv. destruct (rmp_to_vec data) as [payload|] eqn:Hp.
  - destruct (record_written_read data kind key payload Hp) as (v' & Hv' & Hread); [by intros ->|].
    rewrite Hv in Hv'. by injection Hv' as <-.
  - unfold try_serialize_record in Hv. by rewrite Hp in Hv.
Qed.

Lemma chunk_from_record `{RC : Rmp (bytes * PaymentProof)} r (c : ChunkWithPayment) :
  try_deserialize_record r = Ok c → chunk_name (cwp_chunk c) = from_content (chunk_value (cwp_chunk c)).
Proof.
  unfold try_deserialize_record. case_decide; [done|]. cbn.
  destruct (rmp_from_slice _) as [p|]; cbn; [|done]. by intros [= <-].
Qed.

(** A chunk and its payment are written as the pair of its value and the payment. *)
Lemma chunk_record_written `{RC : Rmp (bytes * PaymentProof)} (c : Chunk) payment :
  try_serialize_record {| cwp_chunk := c; cwp_payment := payment |} RK_Chunk =
  try_serialize_record (chunk_value c, payment) RK_Chunk.
Proof. done. Qed.

Lemma chunk_record_read `{RC : Rmp (bytes * PaymentProof)} r value payment :
  try_deserialize_record r = Ok (value, payment) →
  try_deserialize_record r = Ok {| cwp_chunk := Chunk_new value; cwp_payment := payment |}.
Proof.
  unfold try_deserialize_record. case_decide; [done|]. cbn. destruct (rmp_from_slice _) as [p|]; cbn; [|done]. by intros [= ->].
Qed.

Lemma Transfer_utxos_acc `{RU : Rmp Utxo, BE : !BlsEncryption} acc cs sk us :
  Forall2 (λ c u, Utxo_decrypt c sk = Ok u) cs us →
  try_fold (λ acc c, u ← Utxo_decrypt c sk; Ok (acc ++ [u])) acc cs = Ok (acc ++ us).
Proof.
  intros H. revert acc. induction H as [|c u cs us Hc _ IH]; intros acc; cbn.
  - by rewrite app_nil_r.
  - rewrite Hc. cbn. rewrite IH. by rewrite <- app_assoc.
Qed.

Lemma Utxo_decrypt_encrypt `{RU : Rmp Utxo, !RmpLaws Utxo, BE : !BlsEncryption, !BlsEncryptionLaws} u sk c :
  Utxo_encrypt u (public_key sk) = Ok c → Utxo_decrypt c sk = Ok u.
Proof.
  unfold Utxo_encrypt, Utxo_decrypt, Utxo_to_bytes, Utxo_from_bytes.
  intros (b & Hb%ok_or_Ok_iff & [= <-])%bind_Ok_iff.
  rewrite bls_decrypt_encrypt. cbn. erewrite <- (app_nil_r b), rmp_from_to by done. done.
Qed.

End Lemmas.

(** ** Properties *)

Section Properties.
Context `{BLS : BlsCrate, XN : XorNameCrate, KD : KadCrate, CR : CrdtsCrate}.
Context `{TK : TokenCrate, DI : DbcIdCrate, SD : !SnDbcCrate, RH : RmpHeader}.

(** a value stored under a record kind is read back: the two header bytes
    (parsed from a three-byte window) give the kind and the rest gives the value. *)
Theorem record_roundtrip {T : Type} {RT : Rmp T} (HH : RmpHeaderLaws) (HT : RmpLaws T)
    (data : T) (kind : RecordKind) (key : RecordKey) (payload : bytes) :
  rmp_to_vec data = Some payload → payload ≠ [] →
  ∃ v, try_serialize_record data kind = Ok v ∧
       RecordHeader_from_record {| r_key := key; r_value := v |} = Ok {| rh_kind := kind |} ∧
       try_deserialize_record {| r_key := key; r_value := v |} = Ok data.
Proof. intros Hp Hne. by eapply record_written_read. Qed.

(** every chunk read from a record is content addressed, whatever bytes
    the record holds; and a record value of fewer than three bytes makes the
    header parser panic instead of returning an error. *)
Theorem chunk_record_content_addressed {RC : Rmp (bytes * PaymentProof)} (r : KRecord) :
  (∀ c : ChunkWithPayment, try_deserialize_record r = Ok c →
     chunk_name (cwp_chunk c) = from_content (chunk_value (cwp_chunk c))) ∧
  (length (r_value r) < 3 → panics (RecordHeader_from_record r)).
Proof.
  split; [apply chunk_from_record|]. intros H. exists SliceOutOfBounds.
  unfold RecordHeader_from_record. by rewrite decide_True.
Qed.

(** the recipient of a transfer recovers exactly the UTXOs it was created
    with, in order, with the secret key of the address they were encrypted to. *)
Theorem transfer_roundtrip {RU : Rmp Utxo} {BE : BlsEncryption}
    (HU : RmpLaws Utxo) (HE : BlsEncryptionLaws) (utxos : list Utxo) sk t :
  Transfer_create utxos (public_key sk) = Ok t → Transfer_utxos t sk = Ok utxos.
Proof.
  intros (cs & Hcs & [= <-])%bind_Ok_iff. unfold Transfer_utxos. cbn.
  apply (Transfer_utxos_acc []). apply try_map_Ok_Forall2 in Hcs.
  apply Forall2_flip. eapply Forall2_impl; [exact Hcs|].
  intros u c Hc. by apply Utxo_decrypt_encrypt.
Qed.

End Properties.

(** ** The properties at concrete values *)

#[global] Program Instance toy_utxo_eq_dec : EqDecision Utxo.
Next Obligation. solve_decision. Defined.
#[global] Program Instance toy_utxo_countable : Countable Utxo :=
  inj_countable' (λ u, (derivation_index u, dbc_xorname (parent_spend u)))
    (λ p, {| derivation_index := p.1; parent_spend := {| dbc_xorname := p.2 |} |}) _.
Next Obligation. by intros [? []]. Qed.

#[global] Program Instance toy_payment_countable : Countable PaymentProof :=
  inj_countable' (λ p, (spent_ids p, audit_trail p, proof_path p))
    (λ p, {| spent_ids := p.1.1; audit_trail := p.1.2; proof_path := p.2 |}) _.
Next Obligation. by intros []. Qed.

#[global] Instance toy_rmp_chunk : Rmp (bytes * PaymentProof) := toy_rmp.
#[global] Instance toy_rmp_spends : Rmp (list SignedSpend) := toy_rmp (T:=list ToySpend).
#[global] Instance toy_rmp_register : Rmp SignedRegister := toy_rmp.

Definition toy_record_of {T} `{Rmp T} (key : RecordKey) (x : T) (kind : RecordKind) : KRecord :=
  {| r_key := key; r_value := default [] (res_ok (try_serialize_record x kind)) |}.

Definition toy_utxo : Utxo :=
  {| derivation_index := [Byte.x2a]; parent_spend := {| dbc_xorname := [Byte.x01] |} |}.

Lemma record_roundtrip_witness :
  ∃ v, try_serialize_record (RT:=toy_rmp) 5%nat RK_DbcSpend = Ok v ∧
       RecordHeader_from_record {| r_key := []; r_value := v |} = Ok {| rh_kind := RK_DbcSpend |} ∧
       try_deserialize_record (RT:=toy_rmp) {| r_key := []; r_value := v |} = Ok 5%nat.
Proof.
  apply (record_roundtrip (RT:=toy_rmp) _ toy_rmp_laws 5%nat RK_DbcSpend [] (toy_enc (encode 5%nat))).
  - reflexivity.
  - by_compute.
Defined.

Lemma chunk_record_witness : panics (RecordHeader_from_record {| r_key := []; r_value := [Byte.x91] |}).
Proof.
  apply (chunk_record_content_addressed (RC:=toy_rmp) {| r_key := []; r_value := [Byte.x91] |}).
  by_compute.
Defined.

Lemma transfer_roundtrip_witness :
  Transfer_utxos (RU:=toy_rmp) {| encrypted_utxos := [(toy_owner, toy_enc (encode toy_utxo))] |} toy_owner
  = Ok [toy_utxo].
Proof.
  apply (transfer_roundtrip (RU:=toy_rmp) toy_rmp_laws _ [toy_utxo] toy_owner).
  reflexivity.
Defined.
