(* ===== verification/Transfers.v ===== *)
(** * sn_transfers: the genesis DBC and offline transfers

    - [TOTAL_SUPPLY], [GENESIS_DBC_AMOUNT], [create_first_dbc_from_key],
      [GENESIS_DBC], [is_genesis_parent_tx]: src/sn_transfers/src/dbc_genesis.rs;
    - [select_inputs], [create_transfer], [create_storage_payment_transfer],
      [create_transfer_with]: src/sn_transfers/src/client_transfers/transfer.rs,
      with the data of client_transfers/mod.rs and the errors of error.rs.

    The random derivation index of the change output is an argument [rnd].
    Amounts are sn_dbc [Token]s; the one raw [u64] subtraction is kept at its
    width.  The main theorems: input selection conserves tokens and selects a
    minimal prefix, and every transfer built is balanced. *)

From S2P Require Import Prelude Deps ToyCrates.
From stdpp Require Import base tactics list gmap strings.
From Stdlib Require Import ZArith Strings.Byte Floats.SpecFloat Lia.

(** ** [f64] casts of the standard library, on binary64 *)

Definition f64_of_u64 (z : Z) : spec_float :=
  match z with
  | Zpos p => binary_round 53 1024 false p 0
  | _ => S754_zero false
  end.

(** [as u64] truncates and saturates. *)
Definition f64_to_u64 (f : spec_float) : Z :=
  match f with
  | S754_finite false m e => Z.min (Z.shiftl (Zpos m) e) (two64 - 1)
  | S754_infinity false => two64 - 1
  | _ => 0
  end%Z.

(** The binary64 nearest to 0.3. *)
Definition f64_0_3 : spec_float := S754_finite false 5404319552844595 (-54).

(** ** dbc_genesis.rs *)

Definition TOTAL_SUPPLY : Z := 4294967295 * 10 ^ 9.

Definition GENESIS_DBC_AMOUNT : Z := f64_to_u64 (SFmul 53 1024 f64_0_3 (f64_of_u64 TOTAL_SUPPLY)).

Inductive GenesisError := GenesisDbcError | FailedToParseReason.

#[global] Instance GenesisError_eq_dec : EqDecision GenesisError.
Proof. solve_decision. Defined.

Definition GENESIS_DBC_SK : string :=
  "5f15ae2ea589007e1474e049bbc32904d583265f12ce1f8153f955076a9af49b".

Section Genesis.
Context `{TK : TokenCrate, DI : DbcIdCrate, SD : !SnDbcCrate, DC : !DbcCrate}.
(** [SecretKey::from_hex] followed by [MainKey::new]. *)
Context (main_key_from_hex : string → option MainKey).

Definition create_first_dbc_from_key (first_dbc_key : MainKey) : Res GenesisError Dbc :=
  let public_address := mk_public_address first_dbc_key in
  let derivation_index := replicate 32 Byte.x00 in
  let derived_key := mk_derive_key first_dbc_key derivation_index in
  let genesis_input :=
    {| input_dbc_id := dk_dbc_id derived_key; input_token := from_nano GENESIS_DBC_AMOUNT |} in
  let reason := dbc_hash (String.list_byte_of_string "GENESIS") in
  dbc_builder ← ok_or
    (tb_build
       (tb_add_outputs
          (tb_add_inputs tb_default [(genesis_input, derived_key, empty_tx)])
          [(from_nano GENESIS_DBC_AMOUNT, public_address, derivation_index)])
       reason)
    GenesisDbcError;
  output_dbcs ← ok_or (db_build_without_verifying dbc_builder) GenesisDbcError;
  p ← ok_or (head output_dbcs) GenesisDbcError;
  Ok p.1.

Definition GENESIS_DBC : Res GenesisError Dbc :=
  match main_key_from_hex GENESIS_DBC_SK with
  | None => Panic ExplicitPanic
  | Some main_key =>
      match create_first_dbc_from_key main_key with
      | Ok dbc => Ok dbc
      | Err _ => Panic ExplicitPanic
      | Panic w => Panic w
      end
  end.

(** The comparison with the lazily built genesis DBC. *)
Definition is_genesis_parent_tx (parent_tx : DbcTransaction) : Res GenesisError bool :=
  genesis ← GENESIS_DBC; Ok (bool_decide (parent_tx = dbc_src_tx genesis)).

End Genesis.

(** ** client_transfers *)

Section ClientTransfers.
Context `{TK : TokenCrate, DI : DbcIdCrate, SD : !SnDbcCrate, DC : !DbcCrate}.

Inductive TransferError :=
| NotEnoughBalance (available required : Token)
| Dbcs
| DbcReissueFailed.

#[global] Instance TransferError_eq_dec : EqDecision TransferError.
Proof. solve_decision. Defined.

Record Inputs := {
  dbcs_to_spend : list (Dbc * DerivedKey);
  recipients : list (Token * PublicAddress * bytes);
  change : Token * PublicAddress;
}.

Record SpendRequest := { signed_spend : SignedSpend; parent_tx : DbcTransaction }.

Record TransferOutputs := {
  to_tx : DbcTransaction;
  created_dbcs : list Dbc;
  change_dbc : option Dbc;
  all_spend_requests : list SpendRequest;
}.

(** The [for] loop of [select_inputs]; returns what it selected, the total
    input amount and the change amount. *)
Fixpoint select_loop (bld : Build) (available_dbcs : list (Dbc * DerivedKey))
    (sel : list (Dbc * DerivedKey)) (total_input_amount change_amount : Token)
    : Res TransferError (list (Dbc * DerivedKey) * Token * Token) :=
  match available_dbcs with
  | [] => Ok (sel, total_input_amount, change_amount)
  | (dbc, derived_key) :: rest =>
      match dbc_token dbc with
      | None => select_loop bld rest sel total_input_amount change_amount
      | Some dbc_balance =>
          let sel := sel ++ [(dbc, derived_key)] in
          total_input_amount ← ok_or (checked_add total_input_amount dbc_balance) DbcReissueFailed;
          match checked_sub change_amount dbc_balance with
          | Some pending_output =>
              if decide (as_nano pending_output = 0%Z) then Ok (sel, total_input_amount, pending_output)
              else select_loop bld rest sel total_input_amount pending_output
          | None =>
              n ← u64_sub bld (as_nano dbc_balance) (as_nano change_amount);
              Ok (sel, total_input_amount, from_nano n)
          end
      end
  end.

Definition select_inputs (bld : Build) (available_dbcs : list (Dbc * DerivedKey))
    (total_output_amount : Token) : Res TransferError (list (Dbc * DerivedKey) * Token) :=
  r ← select_loop bld available_dbcs [] token_zero total_output_amount;
  let '(dbcs_to_spend, total_input_amount, change_amount) := r in
  if decide (token_lt total_input_amount total_output_amount)
  then Err (NotEnoughBalance total_input_amount total_output_amount)
  else Ok (dbcs_to_spend, change_amount).

(** The first loop of [create_transfer_with]: the transaction inputs and the
    map of source transactions. *)
Fixpoint collect_inputs (dbcs : list (Dbc * DerivedKey))
    (inputs : list (DbcInput * DerivedKey * DbcTransaction)) (src_txs : gmap DbcId DbcTransaction)
    : list (DbcInput * DerivedKey * DbcTransaction) * gmap DbcId DbcTransaction :=
  match dbcs with
  | [] => (inputs, src_txs)
  | (dbc, derived_key) :: rest =>
      match dbc_token dbc with
      | None => collect_inputs rest inputs src_txs
      | Some token =>
          let input := {| input_dbc_id := dbc_id_of dbc; input_token := token |} in
          collect_inputs rest (inputs ++ [(input, derived_key, dbc_src_tx dbc)])
            (<[dbc_id_of dbc := dbc_src_tx dbc]> src_txs)
      end
  end.

Definition spends_by_id (spends : gset SignedSpend) : gmap DbcId SignedSpend :=
  foldl (λ m s, <[spend_dbc_id s := s]> m) ∅ (btree_iter spends).

(** [created_dbcs.retain(..)], which takes the change DBC out. *)
Definition split_change (change_id : DbcId) (created : list Dbc) : list Dbc * option Dbc :=
  foldl (λ acc d, if decide (dbc_id_of d = change_id) then (acc.1, Some d) else (acc.1 ++ [d], acc.2))
    ([], None) created.

Definition create_transfer_with (selected_inputs : Inputs) (reason_hash : Hash32)
    (fee : option FeeOutput) (rnd : bytes) : Res TransferError TransferOutputs :=
  let '(change_amount, change_to) := change selected_inputs in
  let '(inputs, src_txs) := collect_inputs (dbcs_to_spend selected_inputs) [] ∅ in
  let tx_builder := tb_add_outputs (tb_add_inputs tb_default inputs) (recipients selected_inputs) in
  let tx_builder :=
    match fee with Some fee_output => tb_set_fee_output tx_builder fee_output | None => tx_builder end in
  let derivation_index := rnd in
  let change_id := new_dbc_id change_to derivation_index in
  let tx_builder :=
    if decide (as_nano change_amount = 0%Z) then tx_builder
    else tb_add_outputs tx_builder [(change_amount, change_to, derivation_index)] in
  dbc_builder ← ok_or (tb_build tx_builder reason_hash) Dbcs;
  let tx := db_spent_tx dbc_builder in
  let signed_spends := spends_by_id (db_signed_spends dbc_builder) in
  if negb (forallb (λ p : DbcId * SignedSpend, bool_decide (is_Some (src_txs !! p.1))) (bmap_iter signed_spends))
  then Err DbcReissueFailed
  else
    all_spend_requests ← try_map (λ p : DbcId * SignedSpend,
      parent ← ok_or (src_txs !! p.1) DbcReissueFailed;
      Ok {| signed_spend := p.2; parent_tx := parent |}) (bmap_iter signed_spends);
    built ← ok_or (db_build dbc_builder) Dbcs;
    let '(created, change_dbc) := split_change change_id (fst <$> built) in
    Ok {| to_tx := tx; created_dbcs := created; change_dbc := change_dbc;
          all_spend_requests := all_spend_requests |}.

Definition create_transfer (bld : Build) (available_dbcs : list (Dbc * DerivedKey))
    (recipients : list (Token * PublicAddress * bytes)) (change_to : PublicAddress)
    (reason_hash : Hash32) (rnd : bytes) : Res TransferError TransferOutputs :=
  total_output_amount ← ok_or
    (foldl (λ total (p : Token * PublicAddress * bytes), t ← total; checked_add t p.1.1)
       (Some token_zero) recipients) DbcReissueFailed;
  r ← select_inputs bld available_dbcs total_output_amount;
  create_transfer_with
    {| dbcs_to_spend := r.1; recipients := recipients; change := (r.2, change_to) |}
    reason_hash None rnd.

(** The id of the fee output: the hash of the root and the ids of the inputs. *)
Definition create_storage_payment_transfer (bld : Build) (available_dbcs : list (Dbc * DerivedKey))
    (change_to : PublicAddress) (storage_payment : Token) (root_hash reason_hash : Hash32)
    (rnd : bytes) : Res TransferError TransferOutputs :=
  r ← select_inputs bld available_dbcs storage_payment;
  let fee_id_bytes := foldl (λ acc (p : Dbc * DerivedKey), acc ++ dbc_id_to_bytes (dbc_id_of p.1)) root_hash r.1 in
  let fee := {| fee_id := dbc_hash fee_id_bytes; fee_token := from_nano (as_nano storage_payment);
                fee_root_hash := root_hash |} in
  create_transfer_with
    {| dbcs_to_spend := r.1; recipients := []; change := (r.2, change_to) |}
    reason_hash (Some fee) rnd.

End ClientTransfers.

(** ** Lemmas on input selection *)

Section Selection.
Context `{TK : TokenCrate, DI : DbcIdCrate, SD : !SnDbcCrate, DC : !DbcCrate}.

Definition dbc_nanos (p : Dbc * DerivedKey) : Z := default 0%Z (as_nano <$> dbc_token p.1).

Definition readable (p : Dbc * DerivedKey) : Prop := is_Some (dbc_token p.1).

#[global] Instance readable_dec p : Decision (readable p).
Proof. unfold readable. apply _. Defined.

(** The DBCs whose amount can be read, in order. *)
Definition spendable (l : list (Dbc * DerivedKey)) : list (Dbc * DerivedKey) := filter readable l.

Definition nanos (l : list (Dbc * DerivedKey)) : Z := Zsum (dbc_nanos <$> l).

Lemma nanos_app l1 l2 : nanos (l1 ++ l2) = (nanos l1 + nanos l2)%Z.
Proof. unfold nanos. by rewrite fmap_app, Zsum_app. Qed.

Lemma nanos_cons p l : nanos (p :: l) = (dbc_nanos p + nanos l)%Z.
Proof. done. Qed.

Lemma spendable_cons_Some d k t l : dbc_token d = Some t → spendable ((d, k) :: l) = (d, k) :: spendable l.
Proof. intros Ht. unfold spendable. apply filter_cons_True. by exists t. Qed.

Lemma spendable_cons_None d k l : dbc_token d = None → spendable ((d, k) :: l) = spendable l.
Proof.
  intros Ht. unfold spendable. apply filter_cons_False. intros [t Hs]. cbn in Hs. congruence.
Qed.

Context `{TKL : !TokenLaws}.

Lemma dbc_nanos_nonneg p : (0 ≤ dbc_nanos p)%Z.
Proof. unfold dbc_nanos. destruct (dbc_token p.1) as [t|]; cbn; [apply as_nano_range|done]. Qed.

Lemma nanos_nonneg l : (0 ≤ nanos l)%Z.
Proof. apply Zsum_nonneg, Forall_fmap, Forall_true. intros p. apply dbc_nanos_nonneg. Qed.

(** What the loop selects: either it ran out of DBCs with the missing amount
    pending, or it covered the amount with a shortest prefix. *)
Definition selection (out ch : Z) (picked all : list (Dbc * DerivedKey)) : Prop :=
  (picked = all ∧ (nanos picked + ch = out)%Z ∧ (picked = [] ∨ 0 < ch)%Z) ∨
  (∃ p0 x, picked = p0 ++ [x] ∧ picked `prefix_of` all ∧
           nanos picked = (out + ch)%Z ∧ (p0 = [] ∨ nanos p0 < out)%Z).

Lemma selection_cons x out ch picked all :
  (dbc_nanos x < out)%Z →
  selection (out - dbc_nanos x) ch picked all → selection out ch (x :: picked) (x :: all).
Proof.
  intros Hx. pose proof (dbc_nanos_nonneg x) as Hnn.
  intros [(-> & Hsum & Hmin)|(p0 & y & -> & Hp & Hsum & Hmin)].
  - left. rewrite nanos_cons. split_and!; [done|lia|].
    right. destruct Hmin as [->|Hmin]; [unfold nanos in Hsum; cbn in Hsum; lia|done].
  - right. exists (x :: p0), y. split_and!; [done|by apply prefix_cons| |].
    + cbn [app]. rewrite nanos_cons. lia.
    + right. rewrite nanos_cons. destruct Hmin as [->|Hmin]; [unfold nanos; cbn; lia|lia].
Qed.

Lemma checked_add_Some a b c :
  checked_add a b = Some c → as_nano c = (as_nano a + as_nano b)%Z.
Proof. rewrite checked_add_spec. case_decide; [|done]. intros [= <-]. by rewrite as_from_nano. Qed.

Lemma select_loop_Ok bld avail sel ti ch sel' ti' ch' :
  select_loop bld avail sel ti ch = Ok (sel', ti', ch') →
  ∃ picked, sel' = sel ++ picked ∧ as_nano ti' = (as_nano ti + nanos picked)%Z ∧
            selection (as_nano ch) (as_nano ch') picked (spendable avail).
Proof.
  revert sel ti ch. induction avail as [|[d k] avail IH]; intros sel ti ch; cbn [select_loop].
  { intros [= <- <- <-]. exists []. rewrite app_nil_r. unfold nanos. cbn.
    split_and!; [done|lia|left; split_and!; [done|unfold nanos; cbn; lia|by left]]. }
  destruct (dbc_token d) as [t|] eqn:Ht.
  2:{ rewrite (spendable_cons_None d k) by done. apply IH. }
  rewrite (spendable_cons_Some d k t) by done.
  intros (ti1 & Hti%ok_or_Ok_iff%checked_add_Some & H)%bind_Ok_iff.
  assert (dbc_nanos (d, k) = as_nano t) as Hn by (unfold dbc_nanos; cbn; by rewrite Ht).
  rewrite checked_sub_spec in H. case_decide as Hr.
  - case_decide as H0.
    + injection H as <- <- <-. rewrite as_from_nano in H0 |- * by done.
      exists [(d, k)]. unfold nanos. cbn. split_and!; [done|lia|].
      right. exists [], (d, k). split_and!; [done|by exists (spendable avail)| |by left].
      unfold nanos. cbn. lia.
    + apply IH in H as (picked & -> & Hti' & Hs). exists ((d, k) :: picked).
      rewrite as_from_nano in H0, Hs by done. rewrite <- app_assoc.
      split_and!; [done|rewrite nanos_cons; lia|].
      apply selection_cons; [unfold in_u64 in Hr; lia|by rewrite Hn].
  - apply bind_Ok_iff in H as (n & Hsub & [= <- <- <-]). exists [(d, k)].
    pose proof (as_nano_range t). pose proof (as_nano_range ch).
    unfold u64_sub in Hsub. rewrite u64_of_in_range in Hsub by (unfold in_u64 in *; lia).
    injection Hsub as <-. rewrite as_from_nano by (unfold in_u64 in *; lia).
    unfold nanos. cbn. split_and!; [done|lia|].
    right. exists [], (d, k). split_and!; [done|by exists (spendable avail)| |by left].
    unfold nanos. cbn. lia.
Qed.

(** Without an overflow of the sum the loop always returns. *)
Lemma select_loop_total bld avail sel ti ch :
  in_u64 (as_nano ti + nanos (spendable avail)) → ∃ r, select_loop bld avail sel ti ch = Ok r.
Proof.
  revert sel ti ch. induction avail as [|[d k] avail IH]; intros sel ti ch Hr; cbn [select_loop].
  { by eexists. }
  destruct (dbc_token d) as [t|] eqn:Ht.
  2:{ rewrite (spendable_cons_None d k) in Hr by done. by apply IH. }
  rewrite (spendable_cons_Some d k t), nanos_cons in Hr by done.
  assert (dbc_nanos (d, k) = as_nano t) as Hn by (unfold dbc_nanos; cbn; by rewrite Ht).
  pose proof (nanos_nonneg (spendable avail)). pose proof (as_nano_range t) as Htr.
  pose proof (as_nano_range ti) as Htir. pose proof (as_nano_range ch) as Hchr.
  rewrite checked_add_spec, decide_True by (unfold in_u64 in *; lia). cbn.
  destruct (checked_sub ch t) as [p|] eqn:Hp.
  - case_decide; [by eexists|]. apply IH.
    rewrite as_from_nano by (unfold in_u64 in *; lia). unfold in_u64 in *. lia.
  - rewrite checked_sub_spec in Hp. case_decide as Hs; [done|].
    unfold u64_sub. rewrite u64_of_in_range by (unfold in_u64 in *; lia). cbn. by eexists.
Qed.

Lemma select_inputs_Ok bld avail out sel ch :
  select_inputs bld avail out = Ok (sel, ch) →
  nanos sel = (as_nano out + as_nano ch)%Z ∧ sel `prefix_of` spendable avail ∧
  (∀ p0 x, sel = p0 ++ [x] → p0 = [] ∨ nanos p0 < as_nano out)%Z.
Proof.
  unfold select_inputs. intros ([[sel' ti] ch'] & H & Hd)%bind_Ok_iff.
  case_decide as Hlt; [done|]. injection Hd as -> ->.
  apply select_loop_Ok in H as (picked & -> & Hti & Hs). cbn [app].
  unfold token_lt in Hlt. rewrite as_nano_zero in Hti. pose proof (as_nano_range ch) as Hr.
  destruct Hs as [(-> & Hs & Hc)|(p0 & x & -> & Hp & Hs & Hm)].
  - unfold in_u64 in Hr. destruct Hc as [Hn|Hc]; [|lia]. rewrite Hn in Hs, Hti |- *.
    unfold nanos in *. cbn in *. split_and!; [lia|done|]. intros p0 x Hx. by destruct p0.
  - split_and!; [done|done|]. intros p1 y [-> _]%app_inj_tail. exact Hm.
Qed.

End Selection.

(** ** Lemmas on the transfer built *)

Section Building.
Context `{TK : TokenCrate, DI : DbcIdCrate, SD : !SnDbcCrate, DC : !DbcCrate}.

Definition input_of (p : Dbc * DerivedKey) : DbcInput :=
  {| input_dbc_id := dbc_id_of p.1; input_token := default token_zero (dbc_token p.1) |}.

Definition tx_in (tx : DbcTransaction) : Z := Zsum (as_nano ∘ input_token <$> tx_inputs tx).
Definition tx_out (tx : DbcTransaction) : Z := Zsum (as_nano ∘ output_token <$> tx_outputs tx).

(** The fee id the network recomputes from a transaction: root, then the ids of the inputs. *)
Definition fee_preimage (root : Hash32) (tx : DbcTransaction) : bytes :=
  root ++ concat (dbc_id_to_bytes ∘ input_dbc_id <$> tx_inputs tx).

(** A request names a DBC of the inputs and carries the transaction that created it. *)
Definition request_sourced (l : list (Dbc * DerivedKey)) (r : SpendRequest) : Prop :=
  ∃ p, p ∈ l ∧ dbc_id_of p.1 = spend_dbc_id (signed_spend r) ∧ parent_tx r = dbc_src_tx p.1.

Lemma collect_inputs_fst dbcs ins src :
  (collect_inputs dbcs ins src).1
  = ins ++ ((λ p, (input_of p, p.2, dbc_src_tx p.1)) <$> spendable dbcs).
Proof.
  revert ins src. induction dbcs as [|[d k] dbcs IH]; intros ins src; cbn [collect_inputs].
  { cbn. by rewrite app_nil_r. }
  destruct (dbc_token d) as [t|] eqn:Ht.
  - rewrite IH, (spendable_cons_Some d k t), <- app_assoc by done. cbn.
    unfold input_of. cbn. by rewrite Ht.
  - by rewrite IH, (spendable_cons_None d k).
Qed.

Lemma collect_inputs_snd dbcs ins src id tx :
  (collect_inputs dbcs ins src).2 !! id = Some tx →
  src !! id = Some tx ∨ ∃ p, p ∈ dbcs ∧ dbc_id_of p.1 = id ∧ tx = dbc_src_tx p.1.
Proof.
  revert ins src. induction dbcs as [|[d k] dbcs IH]; intros ins src; cbn [collect_inputs]; [by left|].
  destruct (dbc_token d) as [t|] eqn:Ht; intros H; apply IH in H as [H|(p & Hp & H)].
  - apply lookup_insert_Some in H as [[<- <-]|[_ H]]; [|by left].
    right. exists (d, k). split; [by left|done].
  - right. exists p. split; [by right|done].
  - by left.
  - right. exists p. split; [by right|done].
Qed.

Lemma spends_by_id_key (l : list SignedSpend) (m : gmap DbcId SignedSpend) id s :
  (∀ i x, m !! i = Some x → spend_dbc_id x = i) →
  foldl (λ m s, <[spend_dbc_id s := s]> m) m l !! id = Some s → spend_dbc_id s = id.
Proof.
  revert m. induction l as [|x l IH]; intros m Hm; cbn; [apply Hm|].
  apply IH. intros i y [[<- <-]|[_ Hy]]%lookup_insert_Some; [done|by apply Hm].
Qed.

Lemma spendable_prefix sel l : sel `prefix_of` spendable l → spendable sel = sel.
Proof.
  intros [k Hk]. assert (Forall readable sel) as Hf.
  { apply Forall_forall. intros p Hp.
    assert (p ∈ spendable l) as [? _]%list_elem_of_filter by (rewrite Hk; apply elem_of_app; by left).
    done. }
  clear -Hf. induction Hf as [|p sel Hp Hf IH]; [done|].
  unfold spendable in *. by rewrite filter_cons_True, IH.
Qed.

Lemma fee_id_fold root (l : list (Dbc * DerivedKey)) :
  foldl (λ acc (p : Dbc * DerivedKey), acc ++ dbc_id_to_bytes (dbc_id_of p.1)) root l
  = root ++ concat (dbc_id_to_bytes ∘ dbc_id_of ∘ fst <$> l).
Proof.
  revert root. induction l as [|p l IH]; intros root; cbn; [by rewrite app_nil_r|].
  rewrite IH, <- app_assoc. done.
Qed.

Context `{TKL : !TokenLaws, DCL : !DbcLaws}.

Lemma nanos_inputs l : Zsum (as_nano ∘ input_token <$> (input_of <$> l)) = nanos l.
Proof.
  unfold nanos. rewrite <- list_fmap_compose. f_equal. apply list_fmap_ext. intros i p _.
  cbn. unfold dbc_nanos. destruct (dbc_token p.1); cbn; [done|apply as_nano_zero].
Qed.

Lemma recipients_total rs t0 t :
  foldl (λ total (p : Token * PublicAddress * bytes), t ← total; checked_add t p.1.1) (Some t0) rs = Some t →
  as_nano t = (as_nano t0 + Zsum (as_nano ∘ fst ∘ fst <$> rs))%Z.
Proof.
  revert t0. induction rs as [|r rs IH]; intros t0; cbn.
  - intros [= ->]. lia.
  - destruct (checked_add t0 r.1.1) as [t1|] eqn:E.
    + intros H%IH. apply checked_add_Some in E. unfold Zsum in *. cbn in *. lia.
    + intros H. exfalso. clear -H. induction rs as [|r' rs IH]; cbn in H; [done|by apply IH].
Qed.

Lemma create_transfer_with_Ok inp reason fee rnd out :
  create_transfer_with inp reason fee rnd = Ok out →
  tx_inputs (to_tx out) = input_of <$> spendable (dbcs_to_spend inp) ∧
  tx_out (to_tx out) = (Zsum (as_nano ∘ fst ∘ fst <$> recipients inp) + as_nano (change inp).1)%Z ∧
  tx_fee (to_tx out) = default fee_default fee ∧
  Forall (request_sourced (dbcs_to_spend inp)) (all_spend_requests out).
Proof.
  unfold create_transfer_with. destruct (change inp) as [ch to]. cbn [fst].
  pose proof (collect_inputs_fst (dbcs_to_spend inp) [] ∅) as Hins.
  pose proof (collect_inputs_snd (dbcs_to_spend inp) [] ∅) as Hsrc.
  destruct (collect_inputs _ _ _) as [ins src]. cbn [fst snd app] in *. subst ins.
  intros (d & Hb%ok_or_Ok_iff & H)%bind_Ok_iff. apply tb_build_tx in Hb.
  split_match_in H; [done|].
  apply bind_Ok_iff in H as (reqs & Hreqs & H). apply bind_Ok_iff in H as (built & _ & H).
  destruct (split_change _ _) as [created cd]. injection H as <-. cbn [to_tx all_spend_requests].
  rewrite Hb. unfold tx_out. cbn [tx_inputs tx_outputs tx_fee].
  split_and!.
  - destruct fee, (decide (as_nano ch = 0%Z));
      rewrite ?tb_add_outputs_ins, ?tb_set_fee_ins, ?tb_add_outputs_ins, tb_add_inputs_ins, tb_default_ins;
      cbn [app]; by rewrite <- list_fmap_compose.
  - rewrite <- list_fmap_compose. set (f := as_nano ∘ output_token ∘ _).
    change (as_nano ∘ fst ∘ fst) with f.
    destruct fee, (decide (as_nano ch = 0%Z)) as [H0|H0];
      rewrite ?tb_add_outputs_outs, ?tb_set_fee_outs, ?tb_add_outputs_outs, tb_add_inputs_outs, tb_default_outs;
      cbn [app]; rewrite ?fmap_app, ?Zsum_app, ?H0, ?Z.add_0_r; try done;
      f_equal; unfold f, Zsum; cbn; lia.
  - destruct fee, (decide (as_nano ch = 0%Z)); cbn;
      by rewrite ?tb_add_outputs_fee, ?tb_set_fee_fee, ?tb_add_outputs_fee, ?tb_add_inputs_fee, ?tb_default_fee.
  - apply try_map_Ok_Forall2 in Hreqs. apply Forall_forall. intros r Hr.
    apply list_elem_of_lookup in Hr as [i Hr].
    destruct (Forall2_lookup_r _ _ _ _ _ Hreqs Hr) as ([id s] & Hi & Hq).
    apply bind_Ok_iff in Hq as (tx & Htx%ok_or_Ok_iff & [= <-]).
    apply Hsrc in Htx as [?%lookup_empty_Some|(p & Hp & Hid & ->)]; [done|].
    exists p. cbn. split_and!; [done| |done].
    apply list_elem_of_lookup_2, elem_of_bmap_iter, spends_by_id_key in Hi; [cbn in *; congruence|].
    by intros ? ? ?%lookup_empty_Some.
Qed.

(** Collecting spends by id keeps one for each id that occurs. *)
Lemma spends_by_id_fold (l : list SignedSpend) (m : gmap DbcId SignedSpend) :
  (∀ id s, foldl (λ m s, <[spend_dbc_id s := s]> m) m l !! id = Some s → s ∈ l ∨ m !! id = Some s) ∧
  (∀ id, is_Some (m !! id) ∨ id ∈ spend_dbc_id <$> l →
         is_Some (foldl (λ m s, <[spend_dbc_id s := s]> m) m l !! id)).
Proof.
  revert m. induction l as [|x l IH]; intros m; cbn.
  { split; [by right|]. intros id [H|H%elem_of_nil]; done. }
  destruct (IH (<[spend_dbc_id x := x]> m)) as [H1 H2]. split.
  - intros id s [Hs|[[_ <-]|[_ Hm]]%lookup_insert_Some]%H1; [left; by right|left; by left|by right].
  - intros id Hid. apply H2. destruct (decide (id = spend_dbc_id x)) as [->|Hne].
    + left. rewrite lookup_insert_eq. by eexists.
    + rewrite lookup_insert_ne by done. destruct Hid as [|[->|]%elem_of_cons]; [by left|done|by right].
Qed.

(** Every input of a transfer is spent by a request for that transfer. *)
Lemma create_transfer_requests inp reason fee rnd out :
  create_transfer_with inp reason fee rnd = Ok out →
  (∀ r, r ∈ all_spend_requests out → spent_tx (signed_spend r) = to_tx out) ∧
  (∀ i, i ∈ tx_inputs (to_tx out) →
     ∃ r, r ∈ all_spend_requests out ∧ spend_dbc_id (signed_spend r) = input_dbc_id i).
Proof.
  unfold create_transfer_with. destruct (change inp) as [ch to]. destruct (collect_inputs _ _ _) as [ins src].
  intros (d & Hb%ok_or_Ok_iff & H)%bind_Ok_iff. split_match_in H; [done|].
  apply bind_Ok_iff in H as (reqs & Hreqs%try_map_Ok_Forall2 & H). apply bind_Ok_iff in H as (built & _ & H).
  destruct (split_change _ _) as [created cd]. injection H as <-. cbn [to_tx all_spend_requests].
  unfold spends_by_id in Hreqs. destruct (spends_by_id_fold (btree_iter (db_signed_spends d)) ∅) as [Hf1 Hf2]. split.
  - intros r [i Hr]%list_elem_of_lookup. destruct (Forall2_lookup_r _ _ _ _ _ Hreqs Hr) as ([id s] & Hi & Hq).
    apply bind_Ok_iff in Hq as (tx & _ & [= <-]). cbn.
    apply list_elem_of_lookup_2, elem_of_bmap_iter, Hf1 in Hi as [Hi%elem_of_btree_iter|?%lookup_empty_Some]; [|done].
    by eapply tb_build_spent_tx.
  - intros i Hi. pose proof (tb_build_spends _ _ _ Hb) as Hs. rewrite (tb_build_tx _ _ _ Hb) in Hi. cbn in Hi.
    assert (input_dbc_id i ∈@{gset DbcId} set_map spend_dbc_id (db_signed_spends d)) as (s & Hid & Hin)%elem_of_map.
    { rewrite Hs. by apply elem_of_list_to_set, list_elem_of_fmap_2. }
    destruct (Hf2 (input_dbc_id i)) as [s' Hs'].
    { right. rewrite Hid. by apply list_elem_of_fmap_2, elem_of_btree_iter. }
    pose proof Hs' as Hkey. apply spends_by_id_key in Hkey; [|by intros ? ? ?%lookup_empty_Some].
    apply elem_of_bmap_iter, list_elem_of_lookup in Hs' as [j Hj].
    destruct (Forall2_lookup_l _ _ _ _ _ Hreqs Hj) as (r & Hr & Hq).
    apply bind_Ok_iff in Hq as (tx & _ & [= <-]). eexists. split; [by eapply list_elem_of_lookup_2|done].
Qed.

Lemma storage_payment_requests bld avail change_to payment root reason rnd out :
  create_storage_payment_transfer bld avail change_to payment root reason rnd = Ok out →
  (∀ r, r ∈ all_spend_requests out → spent_tx (signed_spend r) = to_tx out) ∧
  (∀ i, i ∈ tx_inputs (to_tx out) →
     ∃ r, r ∈ all_spend_requests out ∧ spend_dbc_id (signed_spend r) = input_dbc_id i).
Proof. intros (sel & _ & H)%bind_Ok_iff. by eapply create_transfer_requests. Qed.

Lemma storage_payment_Ok (bld : Build)
    (avail : list (Dbc * DerivedKey)) change_to payment root reason rnd out :
  create_storage_payment_transfer bld avail change_to payment root reason rnd = Ok out →
  tx_in (to_tx out) = (tx_out (to_tx out) + as_nano payment)%Z ∧
  tx_fee (to_tx out)
  = {| fee_id := dbc_hash (fee_preimage root (to_tx out)); fee_token := payment; fee_root_hash := root |}.
Proof.
  unfold create_storage_payment_transfer. intros ([sel ch] & Hsel & H)%bind_Ok_iff.
  apply select_inputs_Ok in Hsel as (Hsum & Hpre & _).
  apply create_transfer_with_Ok in H as (Hin & Hout & Hfee & Hreq).
  cbn [dbcs_to_spend recipients change fst snd] in *.
  rewrite (spendable_prefix sel avail) in Hin by done. split.
  - unfold tx_in. rewrite Hin, nanos_inputs. unfold Zsum in Hout. cbn in Hout. lia.
  - rewrite Hfee, fee_id_fold, from_as_nano. unfold fee_preimage. rewrite Hin.
    do 2 f_equal. by rewrite <- list_fmap_compose.
Qed.

End Building.

(** ** Properties *)

Section Properties.
Context `{TK : TokenCrate, DI : DbcIdCrate, SD : !SnDbcCrate, DC : !DbcCrate}.

(** C17: input selection conserves tokens: the selected DBCs are worth exactly
    the requested amount plus the change, they are the shortest sufficient
    prefix of the readable DBCs in the order given, and when the available sum
    fits in 64 bits selection succeeds exactly when the sum covers the amount. *)
Theorem select_inputs_conserves (HT : TokenLaws) (bld : Build) (avail : list (Dbc * DerivedKey)) (out : Token) :
  (∀ sel ch, select_inputs bld avail out = Ok (sel, ch) →
     nanos sel = (as_nano out + as_nano ch)%Z ∧ sel `prefix_of` spendable avail ∧
     (∀ p0 x, sel = p0 ++ [x] → p0 = [] ∨ nanos p0 < as_nano out)%Z) ∧
  (in_u64 (nanos (spendable avail)) →
     if decide (as_nano out ≤ nanos (spendable avail))%Z
     then is_ok (select_inputs bld avail out) = true
     else select_inputs bld avail out = Err (NotEnoughBalance (from_nano (nanos (spendable avail))) out)).
Proof.
  split; [intros sel ch; apply select_inputs_Ok|]. intros Hr.
  destruct (select_loop_total bld avail [] token_zero out) as [[[sel ti] ch] Hl].
  { by rewrite as_nano_zero. }
  unfold select_inputs. rewrite Hl. cbn.
  apply select_loop_Ok in Hl as (picked & -> & Hti & Hs). rewrite as_nano_zero in Hti.
  pose proof (as_nano_range ch) as Hc. pose proof (as_nano_range ti) as Htr. unfold in_u64 in Hc.
  assert (nanos picked ≤ nanos (spendable avail))%Z as Hle.
  { destruct Hs as [(-> & _)|(p0 & x & -> & [k ->] & _)]; [done|].
    rewrite (nanos_app (p0 ++ [x])). pose proof (nanos_nonneg k). lia. }
  unfold token_lt. case_decide as Hlt; case_decide as Hcov; try done.
  - exfalso. destruct Hs as [(-> & Hs & _)|(p0 & x & -> & _ & Hs & _)]; lia.
  - destruct Hs as [(-> & Hs & _)|(p0 & x & -> & _ & Hs & _)]; [|lia].
    do 2 f_equal. rewrite <- (from_as_nano ti). f_equal. lia.
  - lia.
Qed.

(** every transfer built is balanced: the inputs of its transaction are
    worth its outputs plus its fee, and each spend request carries the source
    transaction of one of the available DBCs. *)
Theorem create_transfer_balanced (HT : TokenLaws) (HD : DbcLaws) (bld : Build)
    (avail : list (Dbc * DerivedKey)) rs change_to reason rnd out :
  create_transfer bld avail rs change_to reason rnd = Ok out →
  tx_in (to_tx out) = (tx_out (to_tx out) + as_nano (fee_token (tx_fee (to_tx out))))%Z ∧
  Forall (request_sourced avail) (all_spend_requests out).
Proof.
  unfold create_transfer. intros (tot & Htot%ok_or_Ok_iff & H)%bind_Ok_iff.
  apply bind_Ok_iff in H as ([sel ch] & Hsel & H).
  apply select_inputs_Ok in Hsel as (Hsum & Hpre & _).
  apply create_transfer_with_Ok in H as (Hin & Hout & Hfee & Hreq).
  cbn [dbcs_to_spend recipients change fst snd] in *.
  apply recipients_total in Htot. rewrite as_nano_zero in Htot.
  rewrite (spendable_prefix sel avail) in Hin by done. split.
  - rewrite Hfee. cbn [default]. rewrite fee_default_token. unfold tx_in. rewrite Hin, nanos_inputs. lia.
  - eapply Forall_impl; [exact Hreq|]. intros r (p & Hp & Hr). exists p. split; [|done].
    destruct Hpre as [k Hk].
    assert (p ∈ spendable avail) as [_ ?]%list_elem_of_filter by (rewrite Hk; apply elem_of_app; by left).
    done.
Qed.

(** a storage payment pays exactly the requested amount as the fee of a
    balanced transaction without other recipients, and its fee id is the hash
    of the payment root followed by the ids of the transaction's own inputs,
    which is what a node recomputes from the spend. *)
Theorem storage_payment_fee (HT : TokenLaws) (HD : DbcLaws) (bld : Build)
    (avail : list (Dbc * DerivedKey)) change_to payment root reason rnd out :
  create_storage_payment_transfer bld avail change_to payment root reason rnd = Ok out →
  tx_in (to_tx out) = (tx_out (to_tx out) + as_nano payment)%Z ∧
  tx_fee (to_tx out)
  = {| fee_id := dbc_hash (fee_preimage root (to_tx out)); fee_token := payment; fee_root_hash := root |}.
Proof. apply storage_payment_Ok. Qed.

(** The genesis DBC: its only transaction takes and gives the same id (the
    one derived from the key at index zero) and the genesis amount, which is
    exactly 30% of the total supply, 1,288,490,188.5 whole tokens. *)
Theorem genesis_dbc_shape (HD : DbcLaws) (k : MainKey) (d : Dbc) :
  create_first_dbc_from_key k = Ok d →
  let id := new_dbc_id (mk_public_address k) (replicate 32 Byte.x00) in
  let amount := from_nano GENESIS_DBC_AMOUNT in
  dbc_id_of d = id ∧ dbc_token d = Some amount ∧
  dbc_src_tx d = {| tx_inputs := [{| input_dbc_id := id; input_token := amount |}];
                    tx_outputs := [{| output_dbc_id := id; output_token := amount |}];
                    tx_fee := fee_default |} ∧
  (10 * GENESIS_DBC_AMOUNT = 3 * TOTAL_SUPPLY)%Z ∧ GENESIS_DBC_AMOUNT = 1288490188500000000%Z ∧
  in_u64 TOTAL_SUPPLY.
Proof.
  unfold create_first_dbc_from_key. generalize (replicate 32 Byte.x00) as idx. intros idx.
  intros (b & Hb%ok_or_Ok_iff & H)%bind_Ok_iff. cbn zeta.
  apply bind_Ok_iff in H as (l & Hl%ok_or_Ok_iff & H).
  apply bind_Ok_iff in H as (p & Hp%ok_or_Ok_iff & [= <-]).
  apply tb_build_tx in Hb.
  rewrite tb_add_outputs_ins, tb_add_inputs_ins, tb_default_ins, tb_add_outputs_outs,
    tb_add_inputs_outs, tb_default_outs, tb_add_outputs_fee, tb_add_inputs_fee, tb_default_fee in Hb.
  pose proof (db_build_dbcs b l (or_intror Hl)) as Hd. rewrite Hb in Hd. cbn [tx_outputs app fmap list_fmap fst snd] in Hd.
  destruct l as [|q l]; [done|]. injection Hp as ->. injection Hd as Hid Htok Hsrc _.
  rewrite dk_of_main_key in Hsrc. split_and!; [done|done|done|by_compute|by_compute|by_compute].
Qed.

End Properties.

(** ** The properties at concrete values *)

Definition toy_dbc (i : byte) (n : Z) : Dbc :=
  {| td_id := i; td_owner := Byte.x01; td_index := [i]; td_token := Some (toy_from_nano n);
     td_src := empty_tx |}.

Definition toy_key (i : byte) : DerivedKey := (Byte.x01, [i]).

(** Three DBCs, of which one cannot be read; 12 nanos are asked for. *)
Definition toy_available : list (Dbc * DerivedKey) :=
  [(toy_dbc Byte.x0a 5, toy_key Byte.x0a);
   ({| td_id := Byte.x0b; td_owner := Byte.x01; td_index := []; td_token := None; td_src := empty_tx |},
    toy_key Byte.x0b);
   (toy_dbc Byte.x0c 10, toy_key Byte.x0c);
   (toy_dbc Byte.x0d 20, toy_key Byte.x0d)].

Lemma select_inputs_conserves_witness :
  nanos (take 1 toy_available ++ [(toy_dbc Byte.x0c 10, toy_key Byte.x0c)]) = 15%Z ∧
  is_ok (select_inputs Release toy_available (toy_from_nano 12)) = true.
Proof.
  destruct (select_inputs_conserves _ Release toy_available (toy_from_nano 12)) as [H1 H2]. split.
  - destruct (H1 (take 1 toy_available ++ [(toy_dbc Byte.x0c 10, toy_key Byte.x0c)]) (toy_from_nano 3))
      as (-> & _); [by_compute|]. by_compute.
  - assert (in_u64 (nanos (spendable toy_available))) as Hr by by_compute. specialize (H2 Hr).
    rewrite decide_True in H2 by by_compute. exact H2.
Defined.

Lemma create_transfer_balanced_witness :
  ∃ out, create_transfer Debug toy_available [(toy_from_nano 15, Byte.x02, [Byte.x30])] Byte.x01 [] [Byte.x31]
         = Ok out ∧
         tx_in (to_tx out) = (tx_out (to_tx out) + as_nano (fee_token (tx_fee (to_tx out))))%Z.
Proof.
  destruct (is_ok_true (create_transfer Debug toy_available [(toy_from_nano 15, Byte.x02, [Byte.x30])]
              Byte.x01 [] [Byte.x31])) as [out E]; [by_compute|].
  exists out. split; [exact E|].
  exact (proj1 (create_transfer_balanced _ _ Debug toy_available _ Byte.x01 [] [Byte.x31] out E)).
Defined.

Lemma storage_payment_fee_witness :
  ∃ out, create_storage_payment_transfer Debug toy_available Byte.x01 (toy_from_nano 12) [Byte.x77] [] [Byte.x31]
         = Ok out ∧ fee_token (tx_fee (to_tx out)) = toy_from_nano 12.
Proof.
  destruct (is_ok_true (create_storage_payment_transfer Debug toy_available Byte.x01 (toy_from_nano 12)
              [Byte.x77] [] [Byte.x31])) as [out E]; [by_compute|].
  exists out. split; [exact E|].
  rewrite (proj2 (storage_payment_fee _ _ Debug toy_available Byte.x01 (toy_from_nano 12) [Byte.x77] []
                    [Byte.x31] out E)). reflexivity.
Defined.

Lemma genesis_dbc_shape_witness :
  ∃ d, create_first_dbc_from_key (DC:=toy_dbc_crate) Byte.x01 = Ok d ∧ dbc_token d = Some (from_nano GENESIS_DBC_AMOUNT).
Proof.
  destruct (is_ok_true (create_first_dbc_from_key (DC:=toy_dbc_crate) Byte.x01)) as [d E]; [by_compute|].
  exists d. split; [done|]. apply (genesis_dbc_shape (DC:=toy_dbc_crate) _ Byte.x01 d E).
Defined.
