(* ===== verification/RecordStore.v ===== *)
(** * sn_networking: the record store of a node

    - [CircularVec_new], [CircularVec_push], [CircularVec_contains]:
      src/sn_networking/src/circular_vec.rs;
    - [DiskBackedRecordStore] and its operations:
      src/sn_networking/src/record_store.rs.

    The store spawns every file operation and every event as a task that runs
    later, in any order and possibly failing.  Writing a file opens it, which
    empties it, and then writes its bytes in pieces: what is read in between, or
    after a failure, is a part of the value, and two writes of one file can mix.
    The state is therefore a [World]: the store, the files of its directory, the
    spawned tasks and the events delivered.  Reading a file is one step.  The
    iteration order of the [HashSet] of keys is an argument [order] wherever the
    result could depend on it.

    The main theorems: the store never exceeds its capacity, keeps the closest
    records and refines a bounded map when tasks run in the order they were
    spawned; in every order it only ever returns values that were put under
    the key asked for, or the remains of an interrupted write of one. *)

From S2P Require Import Prelude Deps ToyCrates Transfers.
From stdpp Require Import base tactics list gmap strings.
From Stdlib Require Import ZArith NArith Strings.Byte Lia.

(** ** circular_vec.rs *)

Inductive CircularVecError := CircularVecPopFrontError.

(** A [VecDeque] with the capacity it was allocated with. *)
Record CircularVec (T : Type) := { cv_inner : list T; cv_capacity : nat }.
Arguments cv_inner {T}.
Arguments cv_capacity {T}.

Definition CircularVec_new {T : Type} (capacity : nat) : CircularVec T :=
  {| cv_inner := []; cv_capacity := capacity |}.

Definition CircularVec_push {T : Type} (item : T) : StM (CircularVec T) CircularVecError unit := λ v,
  (_ ← (λ v : CircularVec T,
      if decide (length (cv_inner v) = cv_capacity v) then
        match cv_inner v with
        | [] => (v, Err CircularVecPopFrontError)
        | _ :: inner => ({| cv_inner := inner; cv_capacity := cv_capacity v |}, Ok tt)
        end
      else (v, Ok tt));
   modify (λ v, {| cv_inner := cv_inner v ++ [item]; cv_capacity := cv_capacity v |})) v.

Definition CircularVec_contains {T : Type} `{EqDecision T} (item : T) (v : CircularVec T) : bool :=
  bool_decide (item ∈ cv_inner v).

(** ** record_store.rs *)

Definition MAX_RECORDS_COUNT : nat := 2048.
Definition PUTS_PER_PRICE_STEP : nat := 100.

(** [format!("{:02x}", byte)]. *)
Definition hex_digit (n : N) : Ascii.ascii :=
  Ascii.ascii_of_N (if (n <? 10)%N then 48 + n else 87 + n)%N.

Fixpoint key_to_hex (key : RecordKey) : string :=
  match key with
  | [] => EmptyString
  | b :: key' =>
      String (hex_digit (Byte.to_N b / 16)) (String (hex_digit (Byte.to_N b mod 16)) (key_to_hex key'))
  end.

Inductive StoreError := MaxRecords | ValueTooLarge.

#[global] Instance StoreError_eq_dec : EqDecision StoreError.
Proof. solve_decision. Defined.

Record DiskBackedRecordStoreConfig := { max_records : nat; max_value_bytes : nat }.

Definition DiskBackedRecordStoreConfig_default : DiskBackedRecordStoreConfig :=
  {| max_records := MAX_RECORDS_COUNT; max_value_bytes := 65 * 1024 |}.

(** What the code spawns: [fs::write], [fs::remove_file], and sending an
    [UnverifiedRecord] event.  [Writing] is an [fs::write] that has opened its
    file and written the first bytes. *)
Inductive Task :=
| WriteFile (filename : string) (value : bytes)
| Writing (filename : string) (value : bytes) (written : nat)
| RemoveFile (filename : string)
| SendUnverified (r : KRecord).

Section Store.
Context `{KD : KadCrate}.

Record DiskBackedRecordStore := {
  local_key : PeerId;
  config : DiskBackedRecordStoreConfig;
  records : gset RecordKey;
  event_sender : bool;
  distance_range : option N;
}.

(** [torn] are the files with the remains of a write that failed half-way or
    overlapped with another one; the program does not see this. *)
Record World := {
  store : DiskBackedRecordStore;
  files : gmap string bytes;
  spawned : list Task;
  events : list KRecord;
  torn : gset string;
}.

Definition with_config (local_id : PeerId) (config : DiskBackedRecordStoreConfig)
    (event_sender : bool) : DiskBackedRecordStore :=
  {| local_key := local_id; config := config; records := ∅;
     event_sender := event_sender; distance_range := None |}.

Definition set_records (X : gset RecordKey) (w : World) : World :=
  {| store := {| local_key := local_key (store w); config := config (store w); records := X;
                 event_sender := event_sender (store w); distance_range := distance_range (store w) |};
     files := files w; spawned := spawned w; events := events w; torn := torn w |}.

Definition spawn (t : Task) (w : World) : World :=
  {| store := store w; files := files w; spawned := spawned w ++ [t]; events := events w; torn := torn w |}.

(** Distance from the node's own key to a record key. *)
Definition record_distance (s : DiskBackedRecordStore) (k : RecordKey) : N :=
  kad_distance (peer_to_bytes (local_key s)) k.

Definition contains (s : DiskBackedRecordStore) (k : RecordKey) : bool := bool_decide (k ∈ records s).

Definition read_from_disk (fs : gmap string bytes) (key : RecordKey) : option KRecord :=
  value ← fs !! key_to_hex key; Some {| r_key := key; r_value := value |}.

Definition remove (k : RecordKey) (w : World) : World :=
  spawn (RemoveFile (key_to_hex k)) (set_records (records (store w) ∖ {[ k ]}) w).

Definition prune_storage_if_needed_for_record (order : list RecordKey) (r : RecordKey)
    : StM World StoreError unit := λ w,
  let num_records := size (records (store w)) in
  if decide (num_records < max_records (config (store w))) then (w, Ok tt)
  else
    let sorted := sort_by_key (record_distance (store w)) order in
    match last_of sorted with
    | Some furthest_record =>
        if decide (record_distance (store w) r < record_distance (store w) furthest_record)%N
        then (remove furthest_record w, Ok tt)
        else (w, Err MaxRecords)
    | None => (w, Ok tt)
    end.

Definition put_verified (order : list RecordKey) (r : KRecord) : StM World StoreError unit :=
  _ ← prune_storage_if_needed_for_record order (r_key r);
  let filename := key_to_hex (r_key r) in
  _ ← modify (λ w, set_records ({[ r_key r ]} ∪ records (store w)) w);
  modify (spawn (WriteFile filename (r_value r))).

(** [RecordStore::get], [put] of the kad trait. *)
Definition store_get (k : RecordKey) (w : World) : option KRecord :=
  if contains (store w) k then read_from_disk (files w) k else None.

Definition store_put (record : KRecord) : StM World StoreError unit := λ w,
  if decide (max_value_bytes (config (store w)) ≤ length (r_value record)) then (w, Err ValueTooLarge)
  else if event_sender (store w) then (spawn (SendUnverified record) w, Ok tt)
  else (w, Ok tt).

(** [RecordsIterator]: the records that can be read, in iteration order. *)
Definition records_iter (order : list RecordKey) (w : World) : list KRecord :=
  omap (read_from_disk (files w)) order.

Definition set_distance_range (d : N) (w : World) : World :=
  {| store := {| local_key := local_key (store w); config := config (store w);
                 records := records (store w); event_sender := event_sender (store w);
                 distance_range := Some d |};
     files := files w; spawned := spawned w; events := events w; torn := torn w |}.

(** ** The file system *)

(** Bytes written at an offset; a hole before it reads as zeros. *)
Definition write_at (offset : nat) (data old : bytes) : bytes :=
  take offset (old ++ replicate (offset - length old) Byte.x00) ++ data ++ drop (offset + length data) old.

Definition writing (f : string) (t : Task) : bool :=
  match t with Writing g _ _ => bool_decide (g = f) | _ => false end.

Definition set_spawned (l : list Task) (w : World) : World :=
  {| store := store w; files := files w; spawned := l; events := events w; torn := torn w |}.

Definition set_files (fs : gmap string bytes) (w : World) : World :=
  {| store := store w; files := fs; spawned := spawned w; events := events w; torn := torn w |}.

Definition tear (f : string) (w : World) : World :=
  {| store := store w; files := files w; spawned := spawned w; events := events w; torn := {[ f ]} ∪ torn w |}.

Definition mend (f : string) (w : World) : World :=
  {| store := store w; files := files w; spawned := spawned w; events := events w; torn := torn w ∖ {[ f ]} |}.

(** A write empties its file: what was there is gone, unless another write of
    the file is under way. *)
Definition opened (f : string) (w : World) : World := if existsb (writing f) (spawned w) then tear f w else mend f w.

(** A spawned task runs, or goes on, to its end.  A file that is removed while
    it is written has no name any more, and nothing reads it. *)
Definition run_task (t : Task) (w : World) : World :=
  match t with
  | WriteFile f v => opened f (set_files (<[f := v]> (files w)) w)
  | Writing f v o => set_files (alter (write_at o (drop o v)) f (files w)) w
  | RemoveFile f => mend f (set_spawned (List.filter (λ t, negb (writing f t)) (spawned w)) (set_files (delete f (files w)) w))
  | SendUnverified r => {| store := store w; files := files w; spawned := spawned w; events := events w ++ [r]; torn := torn w |}
  end.

(** What becomes of a task in a step: it runs to its end, fails, opens its file,
    or writes some of its bytes. *)
Inductive FileOutcome := FileDone | FileFails | FileOpens | FileWrites (n : nat).

Definition file_task (outcome : FileOutcome) (j : nat) (w : World) : option World :=
  t ← spawned w !! j;
  let rest := set_spawned (delete j (spawned w)) w in
  match outcome, t with
  | FileDone, _ => Some (run_task t rest)
  | FileFails, Writing f _ _ => Some (tear f rest)
  | FileFails, _ => Some rest
  | FileOpens, WriteFile f v =>
      Some (set_spawned (<[j := Writing f v 0]> (spawned w)) (opened f (set_files (<[f := []]> (files w)) w)))
  | FileWrites n, Writing f v o =>
      let data := take n (drop o v) in
      Some (set_spawned (<[j := Writing f v (o + length data)]> (spawned w)) (set_files (alter (write_at o data) f (files w)) w))
  | _, _ => None
  end.

Context `{TK : TokenCrate}.

(** [10.0f64.powf(2048.0 / 100.0 - 2.0) as u64]; floating-point powers are
    accurate only up to the platform, so the factor is an argument. *)
Definition store_cost (factor : Z) (s : DiskBackedRecordStore) : Token :=
  let cost := (TOTAL_SUPPLY / factor)%Z in
  let relevant_records_len :=
    match distance_range s with
    | Some d => size (filter (λ k, (record_distance s k ≤ d)%N) (records s))
    | None => MAX_RECORDS_COUNT
    end in
  let current_step := relevant_records_len / PUTS_PER_PRICE_STEP + 1 in
  from_nano (Nat.iter current_step (λ c, u64_saturating_add c c) cost).

End Store.

(** ** File names determine keys *)

Definition unhex_digit (a : Ascii.ascii) : N :=
  let n := Ascii.N_of_ascii a in if (n <? 58)%N then (n - 48)%N else (n - 87)%N.

Fixpoint unhex (s : string) : bytes :=
  match s with
  | String c1 (String c2 s') =>
      match Byte.of_N (16 * unhex_digit c1 + unhex_digit c2) with
      | Some b => b :: unhex s'
      | None => []
      end
  | _ => []
  end.

Lemma unhex_key_to_hex k : unhex (key_to_hex k) = k.
Proof. induction k as [|b k IH]; [done|]. destruct b; cbn in *; by rewrite IH. Qed.

#[global] Instance key_to_hex_inj : Inj (=) (=) key_to_hex.
Proof. intros k1 k2 H. by rewrite <- (unhex_key_to_hex k1), H, unhex_key_to_hex. Qed.

(** ** Lemmas on the store *)

Section StoreLemmas.
Context `{KD : KadCrate}.

Definition file_effect (t : Task) (fs : gmap string bytes) : gmap string bytes :=
  match t with
  | WriteFile f v => <[f := v]> fs
  | Writing f v o => alter (write_at o (drop o v)) f fs
  | RemoveFile f => delete f fs
  | SendUnverified _ => fs
  end.

Lemma run_task_files t w : files (run_task t w) = file_effect t (files w).
Proof. destruct t; try done. cbn. unfold opened. by destruct (existsb _ _). Qed.

Lemma run_task_store t w : store (run_task t w) = store w.
Proof. destruct t; try done. cbn. unfold opened. by destruct (existsb _ _). Qed.

Lemma file_task_store o j w w' : file_task o j w = Some w' → store w' = store w.
Proof.
  unfold file_task. intros (t & Ht & H)%bind_Some.
  destruct o, t; simplify_eq; try done; try (by rewrite run_task_store); cbn; unfold opened; by destruct (existsb _ _).
Qed.

(** The files once every spawned task has run, in the order of spawning. *)
Definition settled_files (w : World) : gmap string bytes :=
  foldl (λ fs t, file_effect t fs) (files w) (spawned w).

Definition settle (w : World) : World :=
  foldl (λ w t, run_task t w) (set_spawned [] w) (spawned w).

(** The abstract store: what each key maps to. *)
Definition view (w : World) (k : RecordKey) : option bytes :=
  if decide (k ∈ records (store w)) then settled_files w !! key_to_hex k else None.

(** [f] is a stored key at the largest distance. *)
Definition furthest (s : DiskBackedRecordStore) (f : RecordKey) : Prop :=
  f ∈ records s ∧ ∀ k, k ∈ records s → (record_distance s k ≤ record_distance s f)%N.

Lemma run_tasks_files l w :
  files (foldl (λ w t, run_task t w) w l) = foldl (λ fs t, file_effect t fs) (files w) l.
Proof. revert w. induction l as [|t l IH]; intros w; cbn; [done|]. by rewrite IH, run_task_files. Qed.

Lemma run_tasks_store l w : store (foldl (λ w t, run_task t w) w l) = store w.
Proof. revert w. induction l as [|t l IH]; intros w; cbn; [done|]. by rewrite IH, run_task_store. Qed.

Lemma settle_get w k :
  store_get k (settle w) = (λ v, {| r_key := k; r_value := v |}) <$> view w k.
Proof.
  unfold store_get, settle, contains, view. rewrite run_tasks_store, run_tasks_files. cbn.
  case_bool_decide as Hk; [rewrite decide_True by done|by rewrite decide_False].
  unfold read_from_disk, settled_files.
  by destruct (_ !! _).
Qed.

Lemma settled_spawn t w : settled_files (spawn t w) = file_effect t (settled_files w).
Proof. unfold settled_files. cbn. by rewrite foldl_app. Qed.

Lemma settled_set_records X w : settled_files (set_records X w) = settled_files w.
Proof. done. Qed.

Lemma view_put r w k :
  view (spawn (WriteFile (key_to_hex (r_key r)) (r_value r))
          (set_records ({[ r_key r ]} ∪ records (store w)) w)) k
  = if decide (k = r_key r) then Some (r_value r) else view w k.
Proof.
  unfold view. rewrite settled_spawn, settled_set_records. cbn [spawn set_records store records file_effect].
  case_decide as Hk; case_decide as Hr.
  - subst k. by rewrite lookup_insert_eq.
  - rewrite lookup_insert_ne by (intros ?%(inj key_to_hex); congruence).
    rewrite decide_True by set_solver. done.
  - set_solver.
  - rewrite decide_False by set_solver. done.
Qed.

Lemma view_remove f w k : view (remove f w) k = if decide (k = f) then None else view w k.
Proof.
  unfold view, remove. rewrite settled_spawn, settled_set_records.
  cbn [spawn set_records store records file_effect].
  case_decide as Hk; case_decide as Hr.
  - set_solver.
  - rewrite lookup_delete_ne by (intros ?%(inj key_to_hex); congruence).
    rewrite decide_True by set_solver. done.
  - done.
  - rewrite decide_False by set_solver. done.
Qed.

(** The outcome of pruning, by cases. *)
Lemma prune_spec order r w :
  order ≡ₚ elements (records (store w)) →
  let res := prune_storage_if_needed_for_record order r w in
  (res = (w, Ok tt) ∧ (size (records (store w)) < max_records (config (store w)) ∨ records (store w) = ∅)) ∨
  (max_records (config (store w)) ≤ size (records (store w)) ∧ ∃ f, furthest (store w) f ∧
    ((res = (remove f w, Ok tt) ∧ (record_distance (store w) r < record_distance (store w) f)%N) ∨
     (res = (w, Err MaxRecords) ∧ (record_distance (store w) f ≤ record_distance (store w) r)%N))).
Proof.
  intros Hord. cbn zeta. unfold prune_storage_if_needed_for_record, last_of.
  case_decide as Hfull; [left; auto|].
  destruct (last (sort_by_key _ order)) as [f|] eqn:Hlast.
  - right. split; [lia|]. exists f. apply sort_by_key_last in Hlast as [Hin Hmax].
    split.
    + split; [by rewrite Hord, elem_of_elements in Hin|].
      intros k Hk. apply Hmax. by rewrite Hord, elem_of_elements.
    + case_decide; [by left|right]. split; [done|lia].
  - left. split; [done|right]. apply last_None in Hlast.
    pose proof (sort_by_key_perm (record_distance (store w)) order) as Hp. rewrite Hlast, Hord in Hp.
    symmetry in Hp. apply Permutation_nil_r in Hp. apply elements_empty_inv in Hp. by fold_leibniz.
Qed.

Lemma put_verified_eq order r w :
  put_verified order r w =
  match prune_storage_if_needed_for_record order (r_key r) w with
  | (w', Ok _) => (spawn (WriteFile (key_to_hex (r_key r)) (r_value r))
                     (set_records ({[ r_key r ]} ∪ records (store w')) w'), Ok tt)
  | (w', Err e) => (w', Err e)
  | (w', Panic p) => (w', Panic p)
  end.
Proof.
  unfold put_verified, mbind, StM_bind.
  by destruct (prune_storage_if_needed_for_record _ _ _) as [w' []].
Qed.

(** ** Interleavings: operations, and spawned tasks in any order and in pieces *)

Inductive world_step : list KRecord → World → World → Prop :=
| step_put_verified order r w :
    order ≡ₚ elements (records (store w)) →
    world_step (if is_ok (put_verified order r w).2 then [r] else []) w (put_verified order r w).1
| step_remove k w : world_step [] w (remove k w)
| step_put r w : world_step [] w (store_put r w).1
| step_range d w : world_step [] w (set_distance_range d w)
| step_file_task outcome j w w' : file_task outcome j w = Some w' → world_step [] w w'.

(** [world_reachable cfg fs0 puts w]: a store started over a directory with
    files [fs0] is at [w], having accepted the records [puts]. *)
Inductive world_reachable (id : PeerId) (cfg : DiskBackedRecordStoreConfig) (es : bool)
    (fs0 : gmap string bytes) : list KRecord → World → Prop :=
| world_start : world_reachable id cfg es fs0 []
    {| store := with_config id cfg es; files := fs0; spawned := []; events := []; torn := ∅ |}
| world_next puts l w w' :
    world_reachable id cfg es fs0 puts w → world_step l w w' → world_reachable id cfg es fs0 (l ++ puts) w'.

Lemma world_next_put id cfg es fs0 puts w order r :
  world_reachable id cfg es fs0 puts w → order ≡ₚ elements (records (store w)) →
  is_ok (put_verified order r w).2 = true →
  world_reachable id cfg es fs0 (r :: puts) (put_verified order r w).1.
Proof.
  intros Hw Ho Hok. apply (world_next _ _ _ _ puts [r] w); [done|].
  pose proof (step_put_verified order r w Ho) as Hs. by rewrite Hok in Hs.
Qed.

Definition within_capacity (cfg : DiskBackedRecordStoreConfig) (w : World) : Prop :=
  config (store w) = cfg ∧ size (records (store w)) ≤ Nat.max 1 (max_records cfg).

Lemma put_verified_capacity order r w cfg :
  order ≡ₚ elements (records (store w)) →
  within_capacity cfg w → within_capacity cfg (put_verified order r w).1.
Proof.
  intros Hord [Hc Hs]. rewrite put_verified_eq.
  assert (∀ X : gset RecordKey, size ({[ r_key r ]} ∪ X) ≤ S (size X)) as Hadd.
  { intros X. rewrite size_union_alt, size_singleton.
    assert (size (X ∖ {[ r_key r ]}) ≤ size X); [apply subseteq_size; set_solver|lia]. }
  destruct (prune_spec order (r_key r) w Hord) as [[-> H]|(Hfull & f & [Hf _] & [[-> _]|[-> _]])]; cbn.
  - split; [done|]. cbn. destruct H as [H| ->].
    + specialize (Hadd (records (store w))). rewrite Hc in H. lia.
    + specialize (Hadd ∅). rewrite size_empty in Hadd. lia.
  - split; [done|]. cbn. specialize (Hadd (records (store w) ∖ {[ f ]})).
    rewrite (size_difference (records (store w)) {[f]}), size_singleton in Hadd by set_solver.
    assert (size (records (store w)) ≠ 0); [|lia]. intros H0%size_empty_inv. set_solver.
  - done.
Qed.

Lemma world_step_capacity l w w' cfg : world_step l w w' → within_capacity cfg w → within_capacity cfg w'.
Proof.
  intros Hstep Hw. destruct Hstep as [order r w Hord|k w|r w|d w|o j w w' Hf].
  - by apply put_verified_capacity.
  - destruct Hw as [Hc Hs]. split; [done|]. cbn. etrans; [apply subseteq_size|exact Hs]. set_solver.
  - unfold store_put. case_decide; [done|]. by destruct (event_sender (store w)).
  - done.
  - unfold within_capacity. by rewrite (file_task_store _ _ _ _ Hf).
Qed.

Lemma world_reachable_capacity id cfg es fs0 puts w :
  world_reachable id cfg es fs0 puts w → within_capacity cfg w.
Proof.
  induction 1 as [|puts l w w' _ IH Hs]; [|by eapply world_step_capacity].
  split; [done|]. cbn. rewrite size_empty. lia.
Qed.

(** A value that was put under the key of a file, or was in it at the start. *)
Definition file_origin (fs0 : gmap string bytes) (puts : list KRecord) (f : string) (v : bytes) : Prop :=
  fs0 !! f = Some v ∨ ∃ r, r ∈ puts ∧ key_to_hex (r_key r) = f ∧ r_value r = v.

(** Each byte is that of such a value at its place, or a zero. *)
Definition bytes_origin (fs0 : gmap string bytes) (puts : list KRecord) (f : string) (c : bytes) : Prop :=
  ∀ i b, c !! i = Some b → b = Byte.x00 ∨ ∃ v, file_origin fs0 puts f v ∧ v !! i = Some b.

(** The writes of a file that are under way. *)
Definition open_writes (f : string) (l : list Task) : list (bytes * nat) :=
  omap (λ t, match t with Writing g v o => if decide (g = f) then Some (v, o) else None | _ => None end) l.

#[local] Arguments open_writes : simpl never.

(** What is in a file that is not torn. *)
Definition whole_file (fs0 : gmap string bytes) (puts : list KRecord) (w : World) (f : string) : Prop :=
  match open_writes f (spawned w) with
  | [] => ∀ v, files w !! f = Some v → file_origin fs0 puts f v
  | [(v, o)] => files w !! f = Some (take o v) ∧ o ≤ length v
  | _ => False
  end.

Record origins (fs0 : gmap string bytes) (puts : list KRecord) (w : World) : Prop := {
  or_bytes : ∀ f c, files w !! f = Some c → bytes_origin fs0 puts f c;
  or_writes : ∀ f v, WriteFile f v ∈ spawned w → file_origin fs0 puts f v;
  or_writing : ∀ f v o, Writing f v o ∈ spawned w → file_origin fs0 puts f v;
  or_whole : ∀ f, f ∉ torn w → whole_file fs0 puts w f;
}.

Lemma file_origin_mono fs0 puts l f v : file_origin fs0 puts f v → file_origin fs0 (l ++ puts) f v.
Proof.
  intros [H|(r & Hr & H)]; [by left|right]. exists r. split; [|done]. apply elem_of_app. by right.
Qed.

Lemma bytes_origin_whole fs0 puts f v : file_origin fs0 puts f v → bytes_origin fs0 puts f v.
Proof. intros H i b Hb. right. by exists v. Qed.

(** *** Writing at an offset *)

Lemma write_at_lookup o data old i b :
  write_at o data old !! i = Some b → old !! i = Some b ∨ b = Byte.x00 ∨ ∃ j, i = o + j ∧ data !! j = Some b.
Proof.
  unfold write_at. intros [H|[Hl [H|[Hd H]]%lookup_app_Some]]%lookup_app_Some.
  - apply lookup_take_Some in H as [[H|[Hn H]]%lookup_app_Some _]; [by left|]. apply lookup_replicate in H as [-> _]. right. by left.
  - assert (length (take o (old ++ replicate (o - length old) Byte.x00)) = o) as Ho
      by (rewrite length_take, length_app, length_replicate; lia).
    rewrite Ho in *. right. right. exists (i - o). split; [lia|done].
  - assert (length (take o (old ++ replicate (o - length old) Byte.x00)) = o) as Ho
      by (rewrite length_take, length_app, length_replicate; lia).
    rewrite Ho in *. left. rewrite lookup_drop in H. rewrite <- H. f_equal. lia.
Qed.

Lemma write_at_take o n (v : bytes) :
  o ≤ length v → write_at o (take n (drop o v)) (take o v) = take (o + length (take n (drop o v))) v.
Proof.
  intros Ho. unfold write_at. rewrite length_take, (Nat.min_l o) by done. rewrite Nat.sub_diag. cbn [replicate].
  rewrite app_nil_r, take_take, Nat.min_id, (drop_ge (take o v)), app_nil_r by (rewrite length_take; lia).
  rewrite <- (take_drop o v) at 4. rewrite take_app_add' by (rewrite length_take; lia). f_equal.
  rewrite length_take. destruct (decide (n ≤ length (drop o v))).
  - by rewrite Nat.min_l.
  - by rewrite Nat.min_r, !take_ge by lia.
Qed.

Lemma write_at_rest o (v : bytes) : o ≤ length v → write_at o (drop o v) (take o v) = v.
Proof.
  intros Ho. pose proof (write_at_take o (length v) v Ho) as H. rewrite (take_ge (drop o v)) in H by (rewrite length_drop; lia).
  rewrite H, length_drop, take_ge; [done|lia].
Qed.

Lemma write_at_bytes fs0 puts f v o data c :
  file_origin fs0 puts f v → (∀ j b, data !! j = Some b → v !! (o + j) = Some b) →
  bytes_origin fs0 puts f c → bytes_origin fs0 puts f (write_at o data c).
Proof.
  intros Hv Hd Hc i b [H|[->|(j & -> & H)]]%write_at_lookup; [by apply Hc|by left|].
  right. exists v. split; [done|by apply Hd].
Qed.

(** *** The writes under way *)

Lemma writers_app f l1 l2 : open_writes f (l1 ++ l2) = open_writes f l1 ++ open_writes f l2.
Proof. apply omap_app. Qed.
Lemma writers_cons f t l : open_writes f (t :: l) = open_writes f [t] ++ open_writes f l.
Proof. apply (writers_app f [t]). Qed.

Lemma not_writing f l : existsb (writing f) l = false → open_writes f l = [].
Proof.
  induction l as [|t l IH]; cbn; [done|]. intros [Ht Hl]%orb_false_iff. unfold open_writes in *. cbn. rewrite IH by done.
  destruct t as [|g v o| |]; cbn in *; try done. apply bool_decide_eq_false in Ht. by rewrite decide_False.
Qed.

Lemma writers_removed f g l :
  open_writes g (List.filter (λ t, negb (writing f t)) l) = if decide (g = f) then [] else open_writes g l.
Proof.
  unfold open_writes. induction l as [|t l IH]; cbn; [by case_decide|].
  destruct t as [|h v o| |]; cbn; try exact IH. case_bool_decide as Hh; cbn; rewrite IH.
  - subst h. repeat case_decide; congruence.
  - repeat case_decide; congruence.
Qed.

Lemma spawned_split (l : list Task) j t : l !! j = Some t → ∃ l1 l2, l = l1 ++ t :: l2 ∧ delete j l = l1 ++ l2 ∧ ∀ t', <[j := t']> l = l1 ++ t' :: l2.
Proof.
  intros Hj. pose proof (take_drop_middle _ _ _ Hj) as Hl. exists (take j l), (drop (S j) l). split_and!; [done|apply delete_take_drop|].
  intros t'. apply lookup_lt_Some in Hj. by rewrite insert_take_drop.
Qed.

(** *** Where the contents of the files come from *)

Lemma origins_mono fs0 puts l w : origins fs0 puts w → origins fs0 (l ++ puts) w.
Proof.
  intros [H1 H2 H3 H4]. split; try by intros; eapply file_origin_mono; eauto.
  - intros f c Hc i b Hb. destruct (H1 f c Hc i b Hb) as [?|(v & Hv & ?)]; [by left|right]. exists v. split; [by apply file_origin_mono|done].
  - intros f Hf. specialize (H4 f Hf). unfold whole_file in *. destruct (open_writes _ _) as [|[v o] [|]]; [|done..].
    intros v Hv. by apply file_origin_mono, H4.
Qed.

(** A step that leaves the files alone and does not add to the writes under way. *)
Lemma origins_spawn fs0 puts w t :
  (∀ f v, t = WriteFile f v → file_origin fs0 puts f v) → (∀ f, open_writes f [t] = []) →
  origins fs0 puts w → origins fs0 puts (spawn t w).
Proof.
  intros Ht Hn [H1 H2 H3 H4]. split; cbn; [done| | |].
  - intros f v [H|H%list_elem_of_singleton]%elem_of_app; eauto.
  - intros f v o [H|H%list_elem_of_singleton]%elem_of_app; [eauto|]. specialize (Hn f). rewrite <- H in Hn. unfold open_writes in Hn. cbn in Hn. by rewrite decide_True in Hn.
  - intros f Hf. specialize (H4 f Hf). unfold whole_file in *. cbn. by rewrite writers_app, Hn, app_nil_r.
Qed.

(** Without the order of the keys: what is put is accepted or nothing is written. *)
Lemma put_verified_origins fs0 puts order r w :
  origins fs0 puts w → origins fs0 (r :: puts) (put_verified order r w).1.
Proof.
  intros Hw%(origins_mono _ _ [r]). rewrite put_verified_eq. unfold prune_storage_if_needed_for_record.
  assert (∀ w', origins fs0 (r :: puts) w' →
    origins fs0 (r :: puts) (spawn (WriteFile (key_to_hex (r_key r)) (r_value r)) (set_records ({[ r_key r ]} ∪ records (store w')) w'))) as Hs.
  { intros w' [H1 H2 H3 H4]. apply origins_spawn; [|done|by split]. intros ? ? [= <- <-]. right. exists r. split; [by left|done]. }
  case_decide; [by apply Hs|]. destruct (last_of _) as [f|]; [|by apply Hs].
  case_decide; [|done]. apply (Hs (remove f w)). destruct Hw. by apply origins_spawn.
Qed.

Lemma put_verified_Err_origins fs0 puts order r w :
  is_ok (put_verified order r w).2 = false → origins fs0 puts w → origins fs0 puts (put_verified order r w).1.
Proof.
  rewrite put_verified_eq. unfold prune_storage_if_needed_for_record.
  case_decide; [done|]. destruct (last_of _) as [f|]; [|done]. by case_decide.
Qed.

End StoreLemmas.

(** *** A step of a file task *)

#[local] Arguments open_writes : simpl never.

Section FileTasks.
Context `{KD : KadCrate}.
Context (fs0 : gmap string bytes) (puts : list KRecord).
Notation ok := (origins fs0 puts).

Lemma elem_of_removed (l1 : list Task) t l2 u : u ∈ l1 ++ l2 → u ∈ l1 ++ t :: l2.
Proof. set_solver. Qed.

(** A task that is no write under way leaves the list. *)
Lemma origins_drop w l1 t l2 :
  spawned w = l1 ++ t :: l2 → (∀ f, open_writes f [t] = []) → ok w → ok (set_spawned (l1 ++ l2) w).
Proof.
  intros Hl Hn [H1 H2 H3 H4]. rewrite Hl in *. split; cbn; [done|eauto using elem_of_removed..|].
  intros f Hf. specialize (H4 f Hf). unfold whole_file in *. cbn. rewrite Hl, writers_app, (writers_cons f _ l2), Hn in H4.
  by rewrite writers_app.
Qed.

Lemma opened_torn f g w : g ∉ torn (opened f w) → (g = f → existsb (writing f) (spawned w) = false) ∧ (g ≠ f → g ∉ torn w).
Proof. unfold opened. destruct (existsb _ _); cbn; set_solver. Qed.

Lemma opened_files f w : files (opened f w) = files w ∧ spawned (opened f w) = spawned w.
Proof. unfold opened. by destruct (existsb _ _). Qed.

(** A file gets new contents, and the list of tasks changes by writes of it. *)
Lemma origins_written w w' f c :
  ok w → files w' = <[f := c]> (files w) → bytes_origin fs0 puts f c →
  (∀ g v, WriteFile g v ∈ spawned w' → file_origin fs0 puts g v) → (∀ g v o, Writing g v o ∈ spawned w' → file_origin fs0 puts g v) →
  (∀ g, g ≠ f → open_writes g (spawned w') = open_writes g (spawned w)) → (∀ g, g ≠ f → g ∉ torn w' → g ∉ torn w) →
  (f ∉ torn w' → whole_file fs0 puts w' f) → ok w'.
Proof.
  intros [H1 _ _ H4] Hf Hc Hw1 Hw2 Hg Ht Hwf. split; [|done|done|].
  - intros g c' Hg'. rewrite Hf in Hg'. apply lookup_insert_Some in Hg' as [[<- <-]|[_ Hg']]; [done|by apply H1].
  - intros g Hgt. destruct (decide (g = f)) as [->|Hne]; [by apply Hwf|]. specialize (H4 g (Ht g Hne Hgt)).
    unfold whole_file in *. by rewrite Hg, Hf, lookup_insert_ne.
Qed.

Lemma writers_other g f v o : g ≠ f → open_writes g [Writing f v o] = [].
Proof. intros Hne. unfold open_writes. cbn. by rewrite decide_False. Qed.
Lemma writers_self f v o : open_writes f [Writing f v o] = [(v, o)].
Proof. unfold open_writes. cbn. by rewrite decide_True. Qed.

(** The write under way of a file that is not torn is the only one. *)
Lemma whole_writer w f v o l1 l2 :
  spawned w = l1 ++ Writing f v o :: l2 → whole_file fs0 puts w f →
  open_writes f l1 = [] ∧ open_writes f l2 = [] ∧ files w !! f = Some (take o v) ∧ o ≤ length v.
Proof.
  intros Hl. unfold whole_file. rewrite Hl, writers_app, (writers_cons f _ l2), writers_self.
  destruct (open_writes f l1) as [|[v1 o1] [|]], (open_writes f l2); cbn; naive_solver.
Qed.

Lemma alter_present (g : bytes → bytes) f c (fs : gmap string bytes) : fs !! f = Some c → alter g f fs = <[f := g c]> fs.
Proof.
  intros Hf. apply map_eq. intros f'. destruct (decide (f = f')) as [<-|Hne].
  - by rewrite lookup_alter_eq, Hf, lookup_insert_eq.
  - by rewrite lookup_alter_ne, lookup_insert_ne.
Qed.

(** Some bytes of a write under way, after which it is [t']. *)
Lemma origins_writes w w' f v o data l1 l2 new :
  ok w → spawned w = l1 ++ Writing f v o :: l2 → (∀ j b, data !! j = Some b → v !! (o + j) = Some b) →
  files w' = alter (write_at o data) f (files w) → spawned w' = l1 ++ new ++ l2 → torn w' = torn w →
  (new = [] ∧ data = drop o v ∨ ∃ n, data = take n (drop o v) ∧ new = [Writing f v (o + length data)]) → ok w'.
Proof.
  intros Hok Hl Hd Hf Hs Ht Hnew. pose proof (or_writing _ _ _ Hok f v o) as Hv. rewrite Hl in Hv.
  specialize (Hv ltac:(set_solver)).
  assert (∀ g, g ≠ f → open_writes g (spawned w') = open_writes g (spawned w)) as Hg.
  { intros g Hne. rewrite Hs, Hl, !writers_app, (writers_cons g _ l2), writers_other by done.
    destruct Hnew as [[-> _]|(n & _ & ->)]; [done|by rewrite writers_other]. }
  assert (∀ g u, WriteFile g u ∈ spawned w' → file_origin fs0 puts g u) as Hw1.
  { intros g u Hin. apply (or_writes _ _ _ Hok). rewrite Hl. rewrite Hs in Hin. destruct Hnew as [[-> _]|(n & _ & ->)]; set_solver. }
  assert (∀ g u k, Writing g u k ∈ spawned w' → file_origin fs0 puts g u) as Hw2.
  { intros g u k Hin. rewrite Hs in Hin. destruct Hnew as [[-> _]|(n & _ & ->)].
    - apply (or_writing _ _ _ Hok g u k). rewrite Hl. set_solver.
    - rewrite !elem_of_app, list_elem_of_singleton in Hin. destruct Hin as [Hin|[[= -> -> _]|Hin]]; [|done|];
        apply (or_writing _ _ _ Hok g u k); rewrite Hl; set_solver. }
  destruct (files w !! f) as [c|] eqn:Hc.
  - rewrite (alter_present _ _ _ _ Hc) in Hf. eapply (origins_written w w' f); try done.
    + eapply write_at_bytes; [done|done|by eapply or_bytes].
    + intros g _. by rewrite Ht.
    + rewrite Ht. intros Hnt. destruct (whole_writer _ _ _ _ _ _ Hl (or_whole _ _ _ Hok f Hnt)) as (Hn1 & Hn2 & Hc' & Hle).
      assert (c = take o v) as -> by congruence. unfold whole_file. rewrite Hs, !writers_app, Hn1, Hn2, app_nil_r, Hf, lookup_insert_eq.
      destruct Hnew as [[-> ->]|(n & -> & ->)]; cbn [app open_writes].
      * intros ? [= <-]. by rewrite write_at_rest.
      * rewrite writers_self, write_at_take by done. split; [done|]. rewrite length_take, length_drop. lia.
  - assert (files w' = files w) as Hf'.
    { rewrite Hf. apply map_eq. intros g. destruct (decide (f = g)) as [<-|]; [by rewrite lookup_alter_eq, Hc|by rewrite lookup_alter_ne]. }
    split; [by rewrite Hf'; apply Hok|done|done|]. rewrite Ht. intros g Hnt. destruct (decide (g = f)) as [->|Hne].
    + by destruct (whole_writer _ _ _ _ _ _ Hl (or_whole _ _ _ Hok f Hnt)) as (_ & _ & Hc' & _); rewrite Hc in Hc'.
    + pose proof (or_whole _ _ _ Hok g Hnt) as H. unfold whole_file in *. by rewrite Hg, Hf'.
Qed.

Lemma run_task_origins t l1 l2 w : ok w → spawned w = l1 ++ t :: l2 → ok (run_task t (set_spawned (l1 ++ l2) w)).
Proof.
  intros Hok Hl. destruct t as [f v|f v o|f|r]; cbn [run_task].
  - assert (file_origin fs0 puts f v) as Hv by (apply Hok; rewrite Hl; set_solver).
    pose proof (origins_drop _ _ _ _ Hl (λ _, eq_refl) Hok) as Hd. set (w1 := set_spawned (l1 ++ l2) w) in *.
    destruct (opened_files f (set_files (<[f := v]> (files w1)) w1)) as [Hf Hs].
    eapply (origins_written w1 _ f v); [done|by rewrite Hf|by apply bytes_origin_whole| | | | |]; rewrite ?Hs; try apply Hd.
    + done.
    + intros g Hne [_ Hg]%opened_torn. by apply Hg.
    + intros [Hnw _]%opened_torn. specialize (Hnw eq_refl). apply not_writing in Hnw. unfold whole_file. rewrite Hs, Hnw, Hf. cbn.
      rewrite lookup_insert_eq. by intros ? [= <-].
  - eapply (origins_writes w _ f v o (drop o v) l1 l2 []); try done; [|by left]. intros j b. by rewrite lookup_drop.
  - pose proof (origins_drop _ _ _ _ Hl (λ _, eq_refl) Hok) as [H1 H2 H3 H4]. cbn in H2, H3.
    assert (∀ u, u ∈ List.filter (λ t, negb (writing f t)) (l1 ++ l2) → u ∈ l1 ++ l2) as Hin
      by (intros u [? _]%list_elem_of_In%filter_In; by apply list_elem_of_In).
    split; cbn; eauto.
    + intros g c [_ Hg]%lookup_delete_Some. by apply H1.
    + intros g Hg. unfold whole_file. cbn. rewrite writers_removed. case_decide as Hgf.
      * subst g. by rewrite lookup_delete_eq.
      * rewrite lookup_delete_ne by done. apply H4. cbn. set_solver.
  - pose proof (origins_drop _ _ _ _ Hl (λ _, eq_refl) Hok) as [H1 H2 H3 H4]. by split.
Qed.

Lemma file_task_origins o j w w' : ok w → file_task o j w = Some w' → ok w'.
Proof.
  intros Hok (t & Hj & H)%bind_Some. destruct (spawned_split _ _ _ Hj) as (l1 & l2 & Hl & Hdel & Hins).
  rewrite Hdel in H. cbn zeta in H. destruct o as [| | |n].
  - pose proof (run_task_origins t l1 l2 w Hok Hl) as Hr. by destruct t; injection H as <-.
  - destruct t as [f v|f v n|f|r]; injection H as <-; try by apply (origins_drop _ _ _ _ Hl).
    destruct Hok as [H1 H2 H3 H4]. rewrite Hl in *. split; cbn; [done|eauto using elem_of_removed..|].
    intros g Hg. specialize (H4 g ltac:(set_solver)). unfold whole_file in *. cbn.
    rewrite Hl, writers_app, (writers_cons g _ l2), writers_other in H4 by set_solver. by rewrite writers_app.
  - destruct t as [f v| | |]; try done. rewrite Hins in H. injection H as <-.
    assert (file_origin fs0 puts f v) as Hv by (apply Hok; rewrite Hl; set_solver).
    destruct (opened_files f (set_files (<[f := []]> (files w)) w)) as [Hf Hs].
    eapply (origins_written w _ f []); [done|exact Hf|by intros i b Hb| | | | |]; cbn.
    + intros g u Hin. apply Hok. rewrite Hl. set_solver.
    + intros g u k [Hin|[[= -> -> _]|Hin]%elem_of_cons]%elem_of_app; [|done|]; apply (or_writing _ _ _ Hok g u k); rewrite Hl; set_solver.
    + intros g Hne. by rewrite Hl, !writers_app, !(writers_cons g _ l2), !writers_other.
    + intros g Hne [_ Hg]%opened_torn. by apply Hg.
    + intros [Hnw _]%opened_torn. specialize (Hnw eq_refl). cbn in Hnw. apply not_writing in Hnw.
      rewrite Hl, writers_app, (writers_cons f _ l2) in Hnw.
      change (open_writes f [WriteFile f v]) with (@nil (bytes * nat)) in Hnw. cbn [app] in Hnw. apply app_eq_nil in Hnw as [Hn1 Hn2].
      unfold whole_file. cbn. rewrite writers_app, (writers_cons f _ l2), Hn1, Hn2, writers_self, Hf. cbn.
      rewrite lookup_insert_eq. split; [by rewrite take_0|lia].
  - destruct t as [|f v k| |]; try done. rewrite Hins in H. injection H as <-.
    eapply (origins_writes w _ f v k (take n (drop k v)) l1 l2 [_]); try done.
    + intros i b [Hb _]%lookup_take_Some. by rewrite lookup_drop in Hb.
    + right. by exists n.
Qed.

End FileTasks.

Section WorldOrigins.
Context `{KD : KadCrate}.

Lemma world_step_origins fs0 puts l w w' :
  world_step l w w' → origins fs0 puts w → origins fs0 (l ++ puts) w'.
Proof.
  intros Hstep Hw. destruct Hstep as [order r w Hord|k w|r w|d w|o j w w' Hf].
  - destruct (is_ok _) eqn:Hok; [by apply put_verified_origins|by apply put_verified_Err_origins].
  - apply origins_spawn; [done|done|]. by destruct Hw.
  - unfold store_put. case_decide; [done|]. destruct (event_sender (store w)); [|done].
    by apply origins_spawn.
  - by destruct Hw.
  - by eapply file_task_origins.
Qed.

Lemma origins_start fs0 s : origins fs0 [] {| store := s; files := fs0; spawned := []; events := []; torn := ∅ |}.
Proof.
  split; cbn; [|by intros ? ? ?%elem_of_nil|by intros ? ? ? ?%elem_of_nil|].
  - intros f c Hc. apply bytes_origin_whole. by left.
  - intros f _ v Hv. by left.
Qed.

Lemma world_reachable_origins id cfg es fs0 puts w :
  world_reachable id cfg es fs0 puts w → origins fs0 puts w.
Proof. induction 1 as [|puts l w w' _ IH Hs]; [apply origins_start|by eapply world_step_origins]. Qed.

(** What is in a file: a value put there, the beginning of one that is being
    written, or, where a write failed or two writes met, bytes of such values,
    each at its place. *)
Lemma file_contents fs0 puts w f c :
  origins fs0 puts w → files w !! f = Some c →
  file_origin fs0 puts f c ∨
  (∃ v o, Writing f v o ∈ spawned w ∧ file_origin fs0 puts f v ∧ c = take o v) ∨
  (f ∈ torn w ∧ bytes_origin fs0 puts f c).
Proof.
  intros [H1 H2 H3 H4] Hc. destruct (decide (f ∈ torn w)) as [Ht|Ht]; [right; right; split; [done|by eapply H1]|].
  specialize (H4 f Ht). unfold whole_file in H4. destruct (open_writes f (spawned w)) as [|[v o] [|]] eqn:Hw; [left; by apply H4| |done].
  right. left. destruct H4 as [Hf _]. assert (c = take o v) as -> by congruence.
  assert ((v, o) ∈ open_writes f (spawned w)) as Hin by (rewrite Hw; by left). apply list_elem_of_omap in Hin as ([|g v' o'| |] & Hin & He); try done.
  case_decide; [|done]. simplify_eq. exists v, o. split_and!; [done|by eapply H3|done].
Qed.

End WorldOrigins.

(** ** Lemmas on the price *)

Section Price.
Context `{KD : KadCrate, TK : TokenCrate}.

(** The factor is within a thousandth of the real 10^18.48 = 10^(462/25). *)
Definition factor_accurate (factor : Z) : Prop :=
  (0 < factor ∧ 999 ^ 25 * 10 ^ 462 ≤ (1000 * factor) ^ 25 ≤ 1001 ^ 25 * 10 ^ 462)%Z.

#[global] Instance factor_accurate_dec f : Decision (factor_accurate f).
Proof. unfold factor_accurate. apply _. Defined.

(** The number of records the price counts. *)
Definition relevant_records (s : DiskBackedRecordStore) : nat :=
  match distance_range s with
  | Some d => size (filter (λ k, (record_distance s k ≤ d)%N) (records s))
  | None => MAX_RECORDS_COUNT
  end.

Lemma starting_cost factor : factor_accurate factor → (TOTAL_SUPPLY / factor = 1)%Z.
Proof.
  intros (Hpos & Hlo & Hhi). symmetry. apply (Z.div_unique _ _ _ (TOTAL_SUPPLY - factor)); [|lia].
  left. split.
  - destruct (Z.le_gt_cases factor TOTAL_SUPPLY) as [|Hgt]; [lia|exfalso].
    assert ((1000 * TOTAL_SUPPLY) ^ 25 ≤ (1000 * factor) ^ 25)%Z as Hm by (apply Z.pow_le_mono_l; unfold TOTAL_SUPPLY in *; lia).
    assert (1001 ^ 25 * 10 ^ 462 < (1000 * TOTAL_SUPPLY) ^ 25)%Z by by_compute. lia.
  - destruct (Z.le_gt_cases (2 * factor) TOTAL_SUPPLY) as [Hle|]; [exfalso|lia].
    assert ((1000 * factor) ^ 25 ≤ (500 * TOTAL_SUPPLY) ^ 25)%Z as Hm by (apply Z.pow_le_mono_l; unfold TOTAL_SUPPLY in *; lia).
    assert ((500 * TOTAL_SUPPLY) ^ 25 < 999 ^ 25 * 10 ^ 462)%Z by by_compute. lia.
Qed.

Lemma doubling n :
  Nat.iter n (λ c, u64_saturating_add c c) 1%Z = Z.min (2 ^ Z.of_nat n) (two64 - 1).
Proof.
  induction n as [|n IH]; [done|].
  change (u64_saturating_add (Nat.iter n (λ c, u64_saturating_add c c) 1%Z)
            (Nat.iter n (λ c, u64_saturating_add c c) 1%Z) = Z.min (2 ^ Z.of_nat (S n)) (two64 - 1)).
  rewrite IH, Nat2Z.inj_succ, Z.pow_succ_r by lia. unfold u64_saturating_add, two64. lia.
Qed.

Lemma store_cost_eq `{!TokenLaws} factor s :
  factor_accurate factor →
  as_nano (store_cost factor s)
  = Z.min (2 ^ Z.of_nat (relevant_records s / PUTS_PER_PRICE_STEP + 1)) (two64 - 1).
Proof.
  intros Hf. unfold store_cost. rewrite starting_cost by done.
  fold (relevant_records s). rewrite doubling, as_from_nano; [done|].
  unfold in_u64, two64. assert (0 < 2 ^ Z.of_nat (relevant_records s / PUTS_PER_PRICE_STEP + 1))%Z by lia. lia.
Qed.

Lemma relevant_records_mono s s' :
  local_key s = local_key s' → distance_range s = distance_range s' → records s ⊆ records s' →
  relevant_records s ≤ relevant_records s'.
Proof.
  intros Hl Hd Hr. unfold relevant_records, record_distance. rewrite <- Hd, <- Hl.
  destruct (distance_range s) as [d|]; [|done]. apply subseteq_size. set_solver.
Qed.

End Price.

(** ** Lemmas on [CircularVec] *)

Section CircularVecLemmas.
Context {T : Type}.

Definition push_all (v : CircularVec T) (l : list T) : CircularVec T :=
  foldl (λ v x, (CircularVec_push x v).1) v l.

Lemma CircularVec_push_eq (x : T) v :
  CircularVec_push x v =
  if decide (length (cv_inner v) = cv_capacity v) then
    match cv_inner v with
    | [] => (v, Err CircularVecPopFrontError)
    | _ :: inner => ({| cv_inner := inner ++ [x]; cv_capacity := cv_capacity v |}, Ok tt)
    end
  else ({| cv_inner := cv_inner v ++ [x]; cv_capacity := cv_capacity v |}, Ok tt).
Proof.
  unfold CircularVec_push, mbind, StM_bind. case_decide; [|done]. by destruct (cv_inner v).
Qed.

Lemma push_window (v : CircularVec T) (l : list T) x :
  0 < cv_capacity v → cv_inner v = drop (length l - cv_capacity v) l →
  CircularVec_push x v =
  ({| cv_inner := drop (length (l ++ [x]) - cv_capacity v) (l ++ [x]); cv_capacity := cv_capacity v |}, Ok tt).
Proof.
  intros Hc Hv. rewrite CircularVec_push_eq, Hv, length_drop, length_app. cbn [length].
  case_decide as Hfull.
  - destruct (drop (length l - cv_capacity v) l) as [|y inner] eqn:Hd.
    { apply (f_equal length) in Hd. rewrite length_drop in Hd. cbn in Hd. lia. }
    do 2 f_equal. f_equal. rewrite drop_app_le by lia. f_equal.
    replace (length l + 1 - cv_capacity v) with (S (length l - cv_capacity v)) by lia.
    rewrite <- Nat.add_1_r, <- drop_drop, Hd. done.
  - do 2 f_equal. rewrite !(proj2 (Nat.sub_0_le _ _)) by lia. by rewrite !drop_0.
Qed.

End CircularVecLemmas.

(** ** Properties *)

Section Properties.
Context `{KD : KadCrate}.

(** C11: with tasks run in the order they were spawned, the store implements a
    bounded map: [put_verified] adds the record, evicting a furthest record
    exactly when the store is full and the new key is closer, and otherwise
    refuses and changes nothing; [remove] deletes; the kad [put] changes no
    entry; and a read of the settled store gives the entry of the map. *)
Theorem record_store_refines_map (order : list RecordKey) (r : KRecord) (w : World) :
  order ≡ₚ elements (records (store w)) →
  let w' := (put_verified order r w).1 in
  match (put_verified order r w).2 with
  | Ok _ => ∃ evicted : option RecordKey,
      (∀ k, view w' k = if decide (k = r_key r) then Some (r_value r)
                        else if decide (evicted = Some k) then None else view w k) ∧
      match evicted with
      | None => size (records (store w)) < max_records (config (store w)) ∨ records (store w) = ∅
      | Some f => max_records (config (store w)) ≤ size (records (store w)) ∧ furthest (store w) f ∧
                  (record_distance (store w) (r_key r) < record_distance (store w) f)%N
      end
  | Err e => e = MaxRecords ∧ w' = w ∧ max_records (config (store w)) ≤ size (records (store w)) ∧
             ∃ f, furthest (store w) f ∧
                  (record_distance (store w) f ≤ record_distance (store w) (r_key r))%N
  | Panic _ => False
  end ∧
  (∀ k k', view (remove k w) k' = if decide (k' = k) then None else view w k') ∧
  (∀ u k, view (store_put u w).1 k = view w k) ∧
  (∀ k, store_get k (settle w) = (λ v, {| r_key := k; r_value := v |}) <$> view w k).
Proof.
  intros Hord. cbn zeta. split; [|split_and!].
  - rewrite put_verified_eq.
    destruct (prune_spec order (r_key r) w Hord) as [[-> H]|(Hfull & f & Hf & [[-> Hd]|[-> Hd]])];
      cbn [fst snd].
    + exists None. split; [|exact H]. intros k. rewrite view_put. by repeat case_decide.
    + exists (Some f). split; [|done]. intros k. rewrite view_put, view_remove.
      repeat case_decide; naive_solver.
    + split_and!; [done|done|done|]. by exists f.
  - intros k k'. apply view_remove.
  - intros u k. unfold store_put. case_decide; [done|]. destruct (event_sender (store w)); [|done].
    cbn. unfold view. by rewrite settled_spawn.
  - intros k. apply settle_get.
Qed.

(** in every interleaving of operations and pieces of the spawned tasks,
    failures of the file system included, the number of stored keys stays within
    the capacity, and reading a key gives a value that was accepted under that
    very key, or the one the directory had for it when the store was started;
    or the beginning of one that is being written; or, where a write failed
    half-way or two writes of the file met, bytes of such values, each at its
    place, and zeros. *)
Theorem record_store_reachable_safe id cfg es fs0 puts w :
  world_reachable id cfg es fs0 puts w →
  size (records (store w)) ≤ Nat.max 1 (max_records cfg) ∧
  (∀ k r, store_get k w = Some r →
     let accounted v := fs0 !! key_to_hex k = Some v ∨ {| r_key := k; r_value := v |} ∈ puts in
     r_key r = k ∧
     (accounted (r_value r) ∨
      (∃ v o, Writing (key_to_hex k) v o ∈ spawned w ∧ accounted v ∧ r_value r = take o v) ∨
      (key_to_hex k ∈ torn w ∧
       ∀ i b, r_value r !! i = Some b → b = Byte.x00 ∨ ∃ v, accounted v ∧ v !! i = Some b))).
Proof.
  intros H. split; [by apply world_reachable_capacity in H as [_ ?]|].
  intros k r. unfold store_get. destruct (contains _ _); [|done]. unfold read_from_disk.
  destruct (files w !! key_to_hex k) as [c|] eqn:Hc; [|done]. intros [= <-]. cbn. split; [done|].
  assert (∀ v, file_origin fs0 puts (key_to_hex k) v → fs0 !! key_to_hex k = Some v ∨ {| r_key := k; r_value := v |} ∈ puts) as Ha.
  { intros v [Hv|([k' v'] & Hr & Hk & Hval)]; [by left|right]. cbn in *. apply (inj key_to_hex) in Hk as ->. by subst v'. }
  destruct (file_contents _ _ _ _ _ (world_reachable_origins _ _ _ _ _ _ H) Hc) as [Ho|[(v & o & Hin & Ho & ->)|[Ht Hb]]].
  - left. by apply Ha.
  - right. left. exists v, o. auto.
  - right. right. split; [done|]. intros i b Hi. destruct (Hb i b Hi) as [?|(v & Ho & ?)]; [by left|right]. exists v. auto.
Qed.

(** when the store is full, storing a new version of a record it already
    holds either evicts another record (so that the store shrinks) or, if no
    stored record is further away, fails and keeps the old version. *)
Theorem update_when_full_evicts (order : list RecordKey) (r : KRecord) (w : World) :
  order ≡ₚ elements (records (store w)) → r_key r ∈ records (store w) →
  max_records (config (store w)) ≤ size (records (store w)) →
  (∃ f, f ≠ r_key r ∧ furthest (store w) f ∧ (put_verified order r w).2 = Ok tt ∧
        records (store (put_verified order r w).1) = records (store w) ∖ {[ f ]}) ∨
  (furthest (store w) (r_key r) ∧ put_verified order r w = (w, Err MaxRecords)).
Proof.
  intros Hord Hin Hfull. rewrite put_verified_eq.
  destruct (prune_spec order (r_key r) w Hord) as [[-> [H|H]]|(_ & f & [Hf Hmax] & [[-> Hd]|[-> Hd]])].
  - lia.
  - rewrite H in Hin. set_solver.
  - left. exists f. assert (f ≠ r_key r) as Hne by (intros ->; lia). split_and!; [done|done|done|].
    cbn. set_solver.
  - right. split; [|done]. split; [done|]. intros k Hk. specialize (Hmax k Hk). lia.
Qed.

(** the store price: one nano, doubled once and once more for every full
    hundred of records in range (2048 are assumed while the range is unknown),
    so at most 2^21 nanos for a store within its limit, and never lowered by
    holding more records. *)
Theorem store_cost_price {TK : TokenCrate} (HT : TokenLaws) (factor : Z) (s s' : DiskBackedRecordStore) :
  factor_accurate factor → size (records s) ≤ MAX_RECORDS_COUNT →
  as_nano (store_cost factor s) = (2 ^ Z.of_nat (relevant_records s / 100 + 1))%Z ∧
  (2 ≤ as_nano (store_cost factor s) ≤ 2 ^ 21)%Z ∧
  (local_key s = local_key s' → distance_range s = distance_range s' → records s ⊆ records s' →
   (as_nano (store_cost factor s) ≤ as_nano (store_cost factor s'))%Z).
Proof.
  intros Hf Hs.
  assert (relevant_records s ≤ 2048) as Hle.
  { unfold relevant_records. destruct (distance_range s) as [d|]; [|done].
    etrans; [apply subseteq_size|exact Hs]. set_solver. }
  assert (relevant_records s / 100 ≤ 20) as Hstep by (apply (Nat.Div0.div_le_mono _ 2048 100 Hle)).
  assert (as_nano (store_cost factor s) = 2 ^ Z.of_nat (relevant_records s / 100 + 1))%Z as Heq.
  { rewrite store_cost_eq by done. apply Z.min_l.
    etrans; [apply (Z.pow_le_mono_r 2 _ 21); lia|]. by_compute. }
  rewrite Heq. split_and!; [done| | |].
  - change 2%Z with (2 ^ 1)%Z at 1. apply Z.pow_le_mono_r; lia.
  - apply Z.pow_le_mono_r; lia.
  - intros Hl Hd Hr. rewrite <- Heq, !store_cost_eq by done.
    apply Z.min_le_compat_r, Z.pow_le_mono_r; [lia|].
    apply Nat2Z.inj_le, Nat.add_le_mono_r, Nat.Div0.div_le_mono. by apply relevant_records_mono.
Qed.

(** A circular buffer of positive capacity accepts every push and holds
    exactly the most recent items, as many as fit; of capacity zero it refuses
    every push. *)
Theorem circular_vec_window {T : Type} `{EqDecision T} (cap : nat) (l : list T) (x : T) :
  (0 < cap →
     cv_inner (push_all (CircularVec_new cap) l) = drop (length l - cap) l ∧
     (CircularVec_push x (push_all (CircularVec_new cap) l)).2 = Ok tt ∧
     CircularVec_contains x (push_all (CircularVec_new cap) l) = bool_decide (x ∈ drop (length l - cap) l)) ∧
  CircularVec_push x (CircularVec_new 0) = (CircularVec_new 0, Err CircularVecPopFrontError).
Proof.
  split; [|done]. intros Hc.
  assert (∀ l : list T, cv_capacity (push_all (CircularVec_new cap) l) = cap ∧
     cv_inner (push_all (CircularVec_new cap) l) = drop (length l - cap) l) as Hw.
  { clear l. intros l. induction l as [|y l [IH1 IH2]] using rev_ind; [done|].
    unfold push_all. rewrite foldl_app. cbn [foldl]. fold (push_all (CircularVec_new cap) l).
    rewrite (push_window _ l) by (rewrite IH1; done || lia). cbn. by rewrite IH1. }
  destruct (Hw l) as [H1 H2]. split_and!; [done| |].
  - rewrite (push_window _ l); [done|lia|by rewrite H1].
  - unfold CircularVec_contains. by rewrite H2.
Qed.

End Properties.

(** ** The properties at concrete values *)

Definition toy_rec (k v : byte) : KRecord := {| r_key := [k]; r_value := [v] |}.

Definition toy_world (cap : nat) : World :=
  {| store := with_config (Byte.x00 : PeerId) {| max_records := cap; max_value_bytes := 64 |} true;
     files := ∅; spawned := []; events := []; torn := ∅ |}.

(** Two records in a store of capacity two. *)
Definition toy_full : World :=
  (put_verified [[Byte.x01]] (toy_rec Byte.x02 Byte.xbb)
     (put_verified [] (toy_rec Byte.x01 Byte.xaa) (toy_world 2)).1).1.

Lemma record_store_refines_map_witness :
  (put_verified [[Byte.x01]; [Byte.x02]] (toy_rec Byte.x03 Byte.xcc) toy_full).2 = Err MaxRecords ∧
  (put_verified [[Byte.x01]; [Byte.x02]] (toy_rec Byte.x03 Byte.xcc) toy_full).1 = toy_full.
Proof.
  assert ((put_verified [[Byte.x01]; [Byte.x02]] (toy_rec Byte.x03 Byte.xcc) toy_full).2 = Err MaxRecords)
    as E by by_compute.
  pose proof (record_store_refines_map [[Byte.x01]; [Byte.x02]] (toy_rec Byte.x03 Byte.xcc) toy_full) as H.
  cbn zeta in H. rewrite E in H. split; [exact E|].
  destruct H as [(_ & H & _) _]; [|exact H]. by_compute.
Defined.

(** Steps of the file tasks. *)
Fixpoint file_tasks (l : list (FileOutcome * nat)) (w : World) : World :=
  match l with [] => w | (o, j) :: l => match file_task o j w with Some w' => file_tasks l w' | None => w end end.

Lemma file_tasks_reachable id cfg es fs0 puts l w :
  world_reachable id cfg es fs0 puts w → world_reachable id cfg es fs0 puts (file_tasks l w).
Proof.
  revert w. induction l as [|[o j] l IH]; intros w Hw; cbn; [done|]. destruct (file_task o j w) as [w'|] eqn:Hf; [|done].
  apply IH. apply (world_next _ _ _ _ _ [] _ _ Hw). by eapply step_file_task.
Qed.

(** Two versions of a record. *)
Definition toy_versions : World :=
  (put_verified [[Byte.x01]] (toy_rec Byte.x01 Byte.xbb) (put_verified [] (toy_rec Byte.x01 Byte.xaa) (toy_world 2)).1).1.

Lemma toy_versions_reachable :
  world_reachable (Byte.x00 : PeerId) {| max_records := 2; max_value_bytes := 64 |} true ∅
    [toy_rec Byte.x01 Byte.xbb; toy_rec Byte.x01 Byte.xaa] toy_versions.
Proof. apply world_next_put; [apply world_next_put|by_compute|by_compute]; [|by_compute|by_compute]. constructor. Qed.

(** A later write of the same key that runs before an earlier one is lost. *)
Definition toy_raced : World := file_tasks [(FileDone, 1); (FileDone, 0)] toy_versions.

Lemma toy_raced_reachable :
  world_reachable (Byte.x00 : PeerId) {| max_records := 2; max_value_bytes := 64 |} true ∅
    [toy_rec Byte.x01 Byte.xbb; toy_rec Byte.x01 Byte.xaa] toy_raced.
Proof. apply file_tasks_reachable, toy_versions_reachable. Qed.

(** A longer version, whose write opened the file before the other one and ends
    after it: both writes succeed, and what is read is neither version. *)
Definition toy_long : KRecord := {| r_key := [Byte.x01]; r_value := [Byte.xcc; Byte.xdd] |}.
Definition toy_mixed : World :=
  file_tasks [(FileOpens, 0); (FileOpens, 1); (FileDone, 1); (FileDone, 0)]
    (put_verified [[Byte.x01]] toy_long (put_verified [] (toy_rec Byte.x01 Byte.xaa) (toy_world 2)).1).1.

Example mixed_versions_served : store_get [Byte.x01] toy_mixed = Some {| r_key := [Byte.x01]; r_value := [Byte.xaa; Byte.xdd] |}.
Proof. by_compute. Qed.

(** A write that fails after its first byte. *)
Definition toy_cut : World :=
  file_tasks [(FileOpens, 0); (FileWrites 1, 0); (FileFails, 0)] (put_verified [] toy_long (toy_world 2)).1.

Example cut_record_served : store_get [Byte.x01] toy_cut = Some {| r_key := [Byte.x01]; r_value := [Byte.xcc] |}.
Proof. by_compute. Qed.

(** accepted versions of a record can be read back out of order: there is
    an execution in which a node accepts a first and then a second version of
    a record, every spawned write completes successfully, and the node serves
    the first version. *)
Theorem stale_version_served :
  ∃ (w : World) (first second : KRecord),
    world_reachable (Byte.x00 : PeerId) {| max_records := 2; max_value_bytes := 64 |} true ∅ [second; first] w ∧
    r_key first = r_key second ∧ first ≠ second ∧ spawned w = [] ∧ store_get (r_key second) w = Some first.
Proof.
  exists toy_raced, (toy_rec Byte.x01 Byte.xaa), (toy_rec Byte.x01 Byte.xbb).
  split_and!; [apply toy_raced_reachable|done|done|reflexivity|by_compute].
Qed.

Lemma record_store_reachable_safe_witness :
  size (records (store toy_raced)) ≤ 2.
Proof. apply (record_store_reachable_safe _ _ _ _ _ _ toy_raced_reachable). Defined.

Lemma update_when_full_evicts_witness :
  (∃ f, f ≠ [Byte.x01] ∧ furthest (store toy_full) f ∧
        (put_verified [[Byte.x01]; [Byte.x02]] (toy_rec Byte.x01 Byte.xcc) toy_full).2 = Ok tt ∧
        records (store (put_verified [[Byte.x01]; [Byte.x02]] (toy_rec Byte.x01 Byte.xcc) toy_full).1)
        = records (store toy_full) ∖ {[ f ]}) ∨
  (furthest (store toy_full) [Byte.x01] ∧
   put_verified [[Byte.x01]; [Byte.x02]] (toy_rec Byte.x01 Byte.xcc) toy_full = (toy_full, Err MaxRecords)).
Proof.
  apply (update_when_full_evicts [[Byte.x01]; [Byte.x02]] (toy_rec Byte.x01 Byte.xcc) toy_full); by_compute.
Defined.

Lemma store_cost_price_witness :
  as_nano (store_cost 3019951720402019328 (store toy_full)) = (2 ^ 21)%Z.
Proof.
  destruct (store_cost_price _ 3019951720402019328 (store toy_full) (store toy_full)) as [H _];
    [by_compute|by_compute|]. rewrite H. by_compute.
Defined.

Lemma circular_vec_window_witness :
  cv_inner (push_all (CircularVec_new 2) [1; 2; 3]) = [2; 3].
Proof. apply (circular_vec_window 2 [1; 2; 3] 4). lia. Defined.
