(* ===== verification/ReplicationFetcher.v ===== *)
(** * sn_networking: the replication fetcher

    [ReplicationFetcher] of src/sn_networking/src/replication_fetcher.rs: the
    keys a node was told about and does not hold, with the holders each can be
    fetched from, the status of each fetch and the count of fetches on the way.

    Every reading of [Instant::now()] is a value of the clock argument: in one
    pass the code reads it once per key ([clk k None]) and once per holder
    ([clk k (Some p)]).  The shuffled order of the keys is the argument
    [order].  Times are in seconds.

    The main theorems: the counter never exceeds its limit, so the subtraction
    of the code never underflows; a key is fetched from at most one peer at a
    time, from a holder not tried before; and the counter drifts from the number
    of fetches on the way, which can stop the fetcher for good. *)

From S2P Require Import Prelude Deps ToyCrates Registers Protocol.
From stdpp Require Import base tactics list gmap strings.
From Stdlib Require Import ZArith NArith Strings.Byte Lia.

Definition MAX_PARALLEL_FETCH : nat := 8.
Definition FETCH_TIMEOUT : Z := 15.
Definition MAX_RETRIES_PER_PEER : nat := 1.
Definition PEERS_TRIED_BEFORE_NETWORK_FETCH : nat := 3.

Inductive HolderStatus := Pending | OnGoing.

#[global] Instance HolderStatus_eq_dec : EqDecision HolderStatus.
Proof. solve_decision. Defined.

(** The triple (request time, status, failed attempts). *)
Record Holder := { req_time : Z; status : HolderStatus; failed_attempts : nat }.

#[global] Instance Holder_eq_dec : EqDecision Holder.
Proof. solve_decision. Defined.

Section Fetcher.
Context `{BLS : BlsCrate, XN : XorNameCrate, KD : KadCrate}.

Record ReplicationFetcher := {
  to_be_fetched : gmap RecordKey (gmap PeerId Holder);
  on_going_fetches : nat;
}.

Definition ReplicationFetcher_default : ReplicationFetcher :=
  {| to_be_fetched := ∅; on_going_fetches := 0 |}.

Definition Clock : Type := RecordKey → option PeerId → Z.

Definition retain_keys (existing_keys : gset RecordKey) (f : ReplicationFetcher) : ReplicationFetcher :=
  {| to_be_fetched := filter (λ kv, kv.1 ∉ existing_keys) (to_be_fetched f);
     on_going_fetches := on_going_fetches f |}.

Definition add_holder_pey_key (now : Z) (key : RecordKey) (peer_id : PeerId)
    (f : ReplicationFetcher) : ReplicationFetcher :=
  let holders := default ∅ (to_be_fetched f !! key) in
  let holders :=
    match holders !! peer_id with
    | Some _ => holders
    | None => <[peer_id := {| req_time := now; status := Pending; failed_attempts := 0 |}]> holders
    end in
  {| to_be_fetched := <[key := holders]> (to_be_fetched f); on_going_fetches := on_going_fetches f |}.

(** [Instant::now() > *replication_req_time + FETCH_TIMEOUT]. *)
Definition timed_out (now : Z) (h : Holder) : bool := bool_decide (req_time h + FETCH_TIMEOUT < now)%Z.

(** The loop over the holders of one key, in [BTreeMap] order.  [ongoing] is
    [fetch_for_key_is_ongoing]; the loop threads the counter, the keys to
    fetch and whether the key was added, and updates each holder. *)
Section HoldersLoop.
Context (clk : Clock) (no_more_fetches_left : bool) (fetches_left : nat).
Context (key : RecordKey) (ongoing : option bool).

Definition skip_pending (h : Holder) (keys_to_fetch : gmap RecordKey (option PeerId)) (added : bool) : bool :=
  let fetch_will_end_now := default false ongoing in
  no_more_fetches_left
  || added
  || bool_decide (fetches_left ≤ size keys_to_fetch)
  || bool_decide (MAX_RETRIES_PER_PEER ≤ failed_attempts h)
  || (bool_decide (is_Some ongoing) && negb fetch_will_end_now).

Fixpoint holders_loop (l : list (PeerId * Holder)) (og : nat)
    (keys_to_fetch : gmap RecordKey (option PeerId)) (added : bool)
    : list (PeerId * Holder) * nat * gmap RecordKey (option PeerId) * bool :=
  match l with
  | [] => ([], og, keys_to_fetch, added)
  | (peer_id, h) :: rest =>
      let '(h', og', keys', added') :=
        match status h with
        | Pending =>
            if skip_pending h keys_to_fetch added then (h, og, keys_to_fetch, added)
            else ({| req_time := clk key (Some peer_id); status := OnGoing;
                     failed_attempts := failed_attempts h |},
                  S og, <[key := Some peer_id]> keys_to_fetch, true)
        | OnGoing =>
            if timed_out (clk key (Some peer_id)) h
            then ({| req_time := req_time h; status := Pending;
                     failed_attempts := S (failed_attempts h) |}, og - 1, keys_to_fetch, added)
            else (h, og, keys_to_fetch, added)
        end in
      let '(rest', og'', keys'', added'') := holders_loop rest og' keys' added' in
      ((peer_id, h') :: rest', og'', keys'', added'')
  end.

End HoldersLoop.

(** What the loop over the keys threads. *)
Record PassState := {
  ps_fetched : gmap RecordKey (gmap PeerId Holder);
  ps_on_going : nat;
  ps_keys : gmap RecordKey (option PeerId);
  ps_removed : list RecordKey;
}.

Definition process_key (clk : Clock) (no_more_fetches_left : bool) (fetches_left : nat)
    (st : PassState) (key : RecordKey) : PassState :=
  match ps_fetched st !! key with
  | None => st
  | Some holders =>
      let values := bmap_iter holders in
      let ongoing :=
        (λ ph : PeerId * Holder, timed_out (clk key None) ph.2)
          <$> head (filter (λ ph : PeerId * Holder, status ph.2 = OnGoing) values) in
      let '(values', og, keys, _) :=
        holders_loop clk no_more_fetches_left fetches_left key ongoing values
          (ps_on_going st) (ps_keys st) false in
      let failed_holders_count :=
        length (filter (λ ph : PeerId * Holder, MAX_RETRIES_PER_PEER ≤ failed_attempts ph.2) values') in
      let fetched := <[key := list_to_map values']> (ps_fetched st) in
      if bool_decide (failed_holders_count = length values')
         || bool_decide (PEERS_TRIED_BEFORE_NETWORK_FETCH ≤ failed_holders_count)
      then {| ps_fetched := fetched; ps_on_going := og - 1; ps_keys := <[key := None]> keys;
              ps_removed := ps_removed st ++ [key] |}
      else {| ps_fetched := fetched; ps_on_going := og; ps_keys := keys; ps_removed := ps_removed st |}
  end.

(** [MAX_PARALLEL_FETCH - self.on_going_fetches] is a [usize] subtraction. *)
Definition next_keys_to_fetch (bld : Build) (clk : Clock) (order : list RecordKey)
    (f : ReplicationFetcher) : ReplicationFetcher * Res Empty_set (list (RecordKey * option PeerId)) :=
  let no_more_fetches_left := bool_decide (MAX_PARALLEL_FETCH ≤ on_going_fetches f) in
  match u64_sub bld (Z.of_nat MAX_PARALLEL_FETCH) (Z.of_nat (on_going_fetches f)) with
  | Ok fetches_left =>
      let st := foldl (process_key clk no_more_fetches_left (Z.to_nat fetches_left))
                  {| ps_fetched := to_be_fetched f; ps_on_going := on_going_fetches f;
                     ps_keys := ∅; ps_removed := [] |} order in
      ({| to_be_fetched := foldl (λ m k, delete k m) (ps_fetched st) (ps_removed st);
          on_going_fetches := ps_on_going st |},
       Ok (map_to_list (ps_keys st)))
  | Err e => (f, Err e)
  | Panic w => (f, Panic w)
  end.

(** The first part of [add_keys]: drop what is held, add the unknown keys. *)
Definition add_incoming (now : Z) (peer_id : PeerId) (incoming_keys : list NetworkAddress)
    (locally_stored_keys : gset RecordKey) (f : ReplicationFetcher) : ReplicationFetcher :=
  let f := retain_keys locally_stored_keys f in
  let fresh := filter (λ k, k ∉ locally_stored_keys) (omap as_record_key incoming_keys) in
  foldl (λ f k, add_holder_pey_key now k peer_id f) f fresh.

Definition add_keys (bld : Build) (clk : Clock) (now : Z) (order : list RecordKey) (peer_id : PeerId)
    (incoming_keys : list NetworkAddress) (locally_stored_keys : gset RecordKey)
    : ReplicationFetcher → ReplicationFetcher * Res Empty_set (list (RecordKey * option PeerId)) := λ f,
  next_keys_to_fetch bld clk order (add_incoming now peer_id incoming_keys locally_stored_keys f).

(** The counter update of [notify_about_new_put], then the removal. *)
Definition drop_put_key (new_put : RecordKey) (f : ReplicationFetcher) : ReplicationFetcher :=
  let og :=
    match to_be_fetched f !! new_put with
    | Some holders =>
        if existsb (λ h : Holder, bool_decide (status h = OnGoing)) (bmap_values holders)
        then on_going_fetches f - 1 else on_going_fetches f
    | None => on_going_fetches f
    end in
  {| to_be_fetched := delete new_put (to_be_fetched f); on_going_fetches := og |}.

Definition notify_about_new_put (bld : Build) (clk : Clock) (order : list RecordKey) (new_put : RecordKey)
    : ReplicationFetcher → ReplicationFetcher * Res Empty_set (list (RecordKey * option PeerId)) := λ f,
  next_keys_to_fetch bld clk order (drop_put_key new_put f).

End Fetcher.

(** ** The loop over the holders of a key *)

Section HoldersLoopLemmas.
Context `{BLS : BlsCrate, XN : XorNameCrate, KD : KadCrate}.
Context (clk : Clock) (nml : bool) (fl : nat) (key : RecordKey) (ongoing : option bool).

Definition holder_ok (h : Holder) : Prop :=
  failed_attempts h ≤ 1 ∧ (status h = OnGoing → failed_attempts h = 0).

(** A holder that may be asked: not on the way and never tried. *)
Definition untried (h : Holder) : Prop := status h = Pending ∧ failed_attempts h = 0.

(** What the loop adds to the keys to fetch. *)
Inductive loop_adds (l l' : list (PeerId * Holder)) (keys : gmap RecordKey (option PeerId)) :
    gmap RecordKey (option PeerId) → bool → nat → Prop :=
| adds_nothing : loop_adds l l' keys keys false 0
| adds_holder p h h' :
    (p, h) ∈ l → untried h → (p, h') ∈ l' → status h' = OnGoing → nml = false →
    size keys < fl → ongoing ≠ Some false →
    loop_adds l l' keys (<[key := Some p]> keys) true 1.

Lemma skip_pending_false h keys added :
  skip_pending nml fl ongoing h keys added = false →
  nml = false ∧ added = false ∧ size keys < fl ∧ failed_attempts h = 0 ∧ ongoing ≠ Some false.
Proof.
  unfold skip_pending, MAX_RETRIES_PER_PEER. rewrite !orb_false_iff, !bool_decide_eq_false.
  intros [[[[-> ->] Hs] Hf] Ho]. split_and!; [done|done|lia|lia|]. intros ->.
  by rewrite bool_decide_eq_true_2 in Ho by done.
Qed.

(** Once the key is added nothing more is. *)
Lemma holders_loop_added l og keys l' og' keys' added' :
  holders_loop clk nml fl key ongoing l og keys true = (l', og', keys', added') →
  keys' = keys ∧ added' = true ∧ og' ≤ og.
Proof.
  revert og l' og' keys' added'.
  induction l as [|[p h] l IH]; intros og l' og' keys' added'; cbn [holders_loop].
  { by intros [= <- <- <- <-]. }
  destruct (status h).
  - assert (skip_pending nml fl ongoing h keys true = true) as ->.
    { destruct (skip_pending _ _ _ _ _ _) eqn:E; [done|]. by apply skip_pending_false in E as (_ & ? & _). }
    destruct (holders_loop _ _ _ _ _ l og keys true) as [[[l1 og1] keys1] added1] eqn:E.
    intros [= <- <- <- <-]. by apply IH in E.
  - destruct (timed_out _ _);
      destruct (holders_loop _ _ _ _ _ l _ keys true) as [[[l1 og1] keys1] added1] eqn:E;
      intros [= <- <- <- <-]; apply IH in E as (-> & -> & ?); split_and!; done || lia.
Qed.

Lemma holders_loop_spec l og keys l' og' keys' added' :
  holders_loop clk nml fl key ongoing l og keys false = (l', og', keys', added') →
  ∃ n, loop_adds l l' keys keys' added' n ∧ og' ≤ og + n.
Proof.
  revert og l' og' keys' added'.
  induction l as [|[p h] l IH]; intros og l' og' keys' added'; cbn [holders_loop].
  { intros [= <- <- <- <-]. exists 0. split; [constructor|lia]. }
  assert (∀ og0 h0 l1 og1 keys1 added1,
    og0 ≤ og → holders_loop clk nml fl key ongoing l og0 keys false = (l1, og1, keys1, added1) →
    ∃ n, loop_adds ((p, h) :: l) ((p, h0) :: l1) keys keys1 added1 n ∧ og1 ≤ og + n) as Hrec.
  { intros og0 h0 l1 og1 keys1 added1 Hog E. apply IH in E as (n & Hadd & Hn).
    exists n. split; [|lia]. inversion Hadd as [|q hq hq' ?? Hin]; subst; [constructor|].
    eapply (adds_holder _ _ _ q hq hq'); try done; by right. }
  destruct (status h) eqn:Hst.
  - destruct (skip_pending _ _ _ _ _ _) eqn:Hskip.
    + destruct (holders_loop _ _ _ _ _ l og keys false) as [[[l1 og1] keys1] added1] eqn:E.
      intros [= <- <- <- <-]. eapply Hrec; [|exact E]. lia.
    + destruct (holders_loop _ _ _ _ _ l (S og) _ true) as [[[l1 og1] keys1] added1] eqn:E.
      intros [= <- <- <- <-]. apply holders_loop_added in E as (-> & -> & Hog).
      apply skip_pending_false in Hskip as (Hn & _ & Hsz & Hf & Ho). exists 1. split; [|lia].
      by apply (adds_holder _ _ _ p h _ (list_elem_of_here _ _) (conj Hst Hf) (list_elem_of_here _ _)).
  - destruct (timed_out _ _);
      destruct (holders_loop _ _ _ _ _ l _ keys false) as [[[l1 og1] keys1] added1] eqn:E;
      intros [= <- <- <- <-]; (eapply Hrec; [|exact E]; lia).
Qed.

Lemma holders_loop_fst l og keys added :
  (holders_loop clk nml fl key ongoing l og keys added).1.1.1.*1 = l.*1.
Proof.
  revert og keys added. induction l as [|[p h] l IH]; intros og keys added; cbn [holders_loop]; [done|].
  destruct (status h).
  - destruct (skip_pending _ _ _ _ _ _).
    + specialize (IH og keys added). destruct (holders_loop _ _ _ _ _ l _ _ _) as [[[? ?] ?] ?].
      cbn in *. by rewrite IH.
    + specialize (IH (S og) (<[key:=Some p]> keys) true).
      destruct (holders_loop _ _ _ _ _ l _ _ _) as [[[? ?] ?] ?]. cbn in *. by rewrite IH.
  - destruct (timed_out _ _); [specialize (IH (og - 1) keys added)|specialize (IH og keys added)];
      destruct (holders_loop _ _ _ _ _ l _ _ _) as [[[? ?] ?] ?]; cbn in *; by rewrite IH.
Qed.

Lemma holders_loop_ok l og keys added :
  Forall (holder_ok ∘ snd) l →
  Forall (holder_ok ∘ snd) (holders_loop clk nml fl key ongoing l og keys added).1.1.1.
Proof.
  intros H. revert og keys added. induction H as [|[p h] l [Hh Ho] Hl IH]; intros og keys added;
    cbn [holders_loop]; [constructor|]. cbn in Hh, Ho.
  destruct (status h) eqn:Hst.
  - destruct (skip_pending _ _ _ _ _ _) eqn:Hskip.
    + specialize (IH og keys added). destruct (holders_loop _ _ _ _ _ l _ _ _) as [[[? ?] ?] ?].
      constructor; [|exact IH]. split; cbn; [done|by rewrite Hst].
    + specialize (IH (S og) (<[key:=Some p]> keys) true).
      destruct (holders_loop _ _ _ _ _ l _ _ _) as [[[? ?] ?] ?].
      constructor; [|exact IH]. apply skip_pending_false in Hskip as (_ & _ & _ & Hf & _).
      split; cbn; [lia|done].
  - specialize (Ho eq_refl). destruct (timed_out _ _);
      [specialize (IH (og - 1) keys added)|specialize (IH og keys added)];
      destruct (holders_loop _ _ _ _ _ l _ _ _) as [[[? ?] ?] ?]; (constructor; [|exact IH]);
      split; cbn; lia || done.
Qed.

Definition ongoing_count (l : list (PeerId * Holder)) : nat :=
  length (filter (λ ph : PeerId * Holder, status ph.2 = OnGoing) l).

Lemma ongoing_count_cons p h l :
  ongoing_count ((p, h) :: l) = (if decide (status h = OnGoing) then 1 else 0) + ongoing_count l.
Proof. unfold ongoing_count. rewrite filter_cons. cbn. by case_decide. Qed.

(** If the key was on the way and has not timed out, no holder is started. *)
Lemma holders_loop_waiting l og keys added :
  ongoing = Some false →
  ongoing_count (holders_loop clk nml fl key ongoing l og keys added).1.1.1 ≤ ongoing_count l.
Proof.
  intros Ho. revert og keys added. induction l as [|[p h] l IH]; intros og keys added; cbn [holders_loop]; [done|].
  destruct (status h) eqn:Hst.
  - destruct (skip_pending _ _ _ _ _ _) eqn:Hskip;
      [|apply skip_pending_false in Hskip as (_ & _ & _ & _ & ?); congruence].
    specialize (IH og keys added). destruct (holders_loop _ _ _ _ _ l _ _ _) as [[[? ?] ?] ?].
    cbn [fst] in *. rewrite !ongoing_count_cons. lia.
  - destruct (timed_out _ _); [specialize (IH (og - 1) keys added)|specialize (IH og keys added)];
      destruct (holders_loop _ _ _ _ _ l _ _ _) as [[[? ?] ?] ?]; cbn [fst] in *;
      rewrite !ongoing_count_cons; cbn [status]; rewrite ?Hst;
      repeat case_decide; try done; lia.
Qed.

(** If everything on the way has timed out, at most the holder added is left. *)
Lemma holders_loop_expired l og keys added :
  (∀ p h, (p, h) ∈ l → status h = OnGoing → timed_out (clk key (Some p)) h = true) →
  ongoing_count (holders_loop clk nml fl key ongoing l og keys added).1.1.1 ≤ (if added then 0 else 1).
Proof.
  revert og keys added. induction l as [|[p h] l IH]; intros og keys added Hexp; cbn [holders_loop].
  { cbn. lia. }
  assert (∀ p h, (p, h) ∈ l → status h = OnGoing → timed_out (clk key (Some p)) h = true) as Hexp'
    by (intros q hq Hq; apply Hexp; by right).
  destruct (status h) eqn:Hst.
  - destruct (skip_pending _ _ _ _ _ _) eqn:Hskip.
    + specialize (IH og keys added Hexp'). destruct (holders_loop _ _ _ _ _ l _ _ _) as [[[? ?] ?] ?].
      cbn [fst] in *. rewrite ongoing_count_cons, Hst. case_decide; [done|lia].
    + specialize (IH (S og) (<[key:=Some p]> keys) true Hexp').
      destruct (holders_loop _ _ _ _ _ l _ _ _) as [[[? ?] ?] ?].
      cbn [fst] in *. rewrite ongoing_count_cons. cbn [status].
      apply skip_pending_false in Hskip as (_ & -> & _). case_decide; lia.
  - rewrite (Hexp p h) by (done || by left). specialize (IH (og - 1) keys added Hexp').
    destruct (holders_loop _ _ _ _ _ l _ _ _) as [[[? ?] ?] ?]. cbn [fst] in *.
    rewrite ongoing_count_cons. cbn [status]. case_decide; [done|lia].
Qed.

(** The holder has failed by the end of the pass. *)
Definition fails (ph : PeerId * Holder) : Prop :=
  MAX_RETRIES_PER_PEER ≤ failed_attempts ph.2 ∨
  (status ph.2 = OnGoing ∧ timed_out (clk key (Some ph.1)) ph.2 = true).

#[global] Instance fails_dec ph : Decision (fails ph).
Proof. unfold fails. apply _. Defined.

Lemma holders_loop_failed l og keys added :
  length (filter (λ ph : PeerId * Holder, MAX_RETRIES_PER_PEER ≤ failed_attempts ph.2)
            (holders_loop clk nml fl key ongoing l og keys added).1.1.1)
  = length (filter fails l).
Proof.
  assert (∀ p h h' (l1 l2 : list (PeerId * Holder)),
    (MAX_RETRIES_PER_PEER ≤ failed_attempts h' ↔ fails (p, h)) →
    length (filter (λ ph : PeerId * Holder, MAX_RETRIES_PER_PEER ≤ failed_attempts ph.2) l1) = length (filter fails l2) →
    length (filter (λ ph : PeerId * Holder, MAX_RETRIES_PER_PEER ≤ failed_attempts ph.2) ((p, h') :: l1))
    = length (filter fails ((p, h) :: l2))) as Hcons.
  { intros p h h' l1 l2 Hiff Hl. rewrite !filter_cons. cbn [snd].
    destruct (decide (fails (p, h))); [rewrite decide_True by tauto|rewrite decide_False by tauto];
      cbn; by rewrite Hl. }
  revert og keys added. induction l as [|[p h] l IH]; intros og keys added; cbn [holders_loop]; [done|].
  destruct (status h) eqn:Hst.
  - destruct (skip_pending _ _ _ _ _ _).
    + specialize (IH og keys added). destruct (holders_loop _ _ _ _ _ l _ _ _) as [[[? ?] ?] ?].
      apply Hcons; [|exact IH]. unfold fails. cbn. rewrite Hst. intuition congruence.
    + specialize (IH (S og) (<[key:=Some p]> keys) true).
      destruct (holders_loop _ _ _ _ _ l _ _ _) as [[[? ?] ?] ?].
      apply Hcons; [|exact IH]. unfold fails. cbn. rewrite Hst. intuition congruence.
  - destruct (timed_out _ _) eqn:Ht;
      [specialize (IH (og - 1) keys added)|specialize (IH og keys added)];
      destruct (holders_loop _ _ _ _ _ l _ _ _) as [[[? ?] ?] ?]; (apply Hcons; [|exact IH]);
      unfold fails, MAX_RETRIES_PER_PEER; cbn; rewrite Ht; intuition (lia || congruence).
Qed.

End HoldersLoopLemmas.

(** ** One key, and a whole pass *)

Section PassLemmas.
Context `{BLS : BlsCrate, XN : XorNameCrate, KD : KadCrate}.

Definition clock_monotone (clk : Clock) : Prop := ∀ k p, (clk k None ≤ clk k (Some p))%Z.

(** Each holder is in order and at most one is being asked. *)
Definition holders_inv (m : gmap PeerId Holder) : Prop :=
  Forall (holder_ok ∘ snd) (map_to_list m) ∧ ongoing_count (map_to_list m) ≤ 1.

(** By the end of a pass every holder of the key failed, or three did. *)
Definition tried_out (clk : Clock) (key : RecordKey) (m : gmap PeerId Holder) : Prop :=
  length (filter (fails clk key) (map_to_list m)) = size m ∨
  PEERS_TRIED_BEFORE_NETWORK_FETCH ≤ length (filter (fails clk key) (map_to_list m)).

#[global] Instance tried_out_dec clk key m : Decision (tried_out clk key m).
Proof. unfold tried_out. apply _. Defined.

(** [p] is asked for the key: it was never tried and is now being asked. *)
Definition asks (holders holders' : gmap PeerId Holder) (p : PeerId) : Prop :=
  ∃ h h', holders !! p = Some h ∧ untried h ∧ holders' !! p = Some h' ∧ status h' = OnGoing.

#[global] Instance ongoing_count_proper : Proper ((≡ₚ) ==> (=)) ongoing_count.
Proof. intros l1 l2 H. unfold ongoing_count. by rewrite H. Qed.

Lemma first_ongoing (l : list (PeerId * Holder)) :
  ongoing_count l ≤ 1 →
  match head (filter (λ ph : PeerId * Holder, status ph.2 = OnGoing) l) with
  | Some ph => ∀ p h, (p, h) ∈ l → status h = OnGoing → (p, h) = ph
  | None => ∀ p h, (p, h) ∈ l → status h ≠ OnGoing
  end.
Proof.
  unfold ongoing_count. destruct (filter _ l) as [|x [|y r]] eqn:E; cbn; [| |lia].
  - intros _ p h Hin Hst. assert ((p, h) ∈ filter (λ ph : PeerId * Holder, status ph.2 = OnGoing) l) as H
      by by apply list_elem_of_filter. rewrite E in H. by apply elem_of_nil in H.
  - intros _ p h Hin Hst. assert ((p, h) ∈ filter (λ ph : PeerId * Holder, status ph.2 = OnGoing) l) as H
      by by apply list_elem_of_filter. rewrite E in H. by apply list_elem_of_singleton in H.
Qed.

Lemma process_key_spec clk nml fl st key holders :
  ps_fetched st !! key = Some holders →
  ∃ holders' keys1 og1 n,
    (clock_monotone clk → holders_inv holders → holders_inv holders') ∧
    ((keys1 = ps_keys st ∧ n = 0) ∨
     (∃ p, asks holders holders' p ∧ size (ps_keys st) < fl ∧ keys1 = <[key := Some p]> (ps_keys st) ∧ n = 1)) ∧
    og1 ≤ ps_on_going st + n ∧
    process_key clk nml fl st key =
      if decide (tried_out clk key holders)
      then {| ps_fetched := <[key := holders']> (ps_fetched st); ps_on_going := og1 - 1;
              ps_keys := <[key := None]> keys1; ps_removed := ps_removed st ++ [key] |}
      else {| ps_fetched := <[key := holders']> (ps_fetched st); ps_on_going := og1;
              ps_keys := keys1; ps_removed := ps_removed st |}.
Proof.
  intros Hh. unfold process_key. rewrite Hh.
  set (vals := bmap_iter holders).
  set (ongoing := _ <$> head _).
  pose proof (holders_loop_fst clk nml fl key ongoing vals (ps_on_going st) (ps_keys st) false) as Hfst.
  pose proof (holders_loop_ok clk nml fl key ongoing vals (ps_on_going st) (ps_keys st) false) as Hok.
  pose proof (holders_loop_waiting clk nml fl key ongoing vals (ps_on_going st) (ps_keys st) false) as Hwait.
  pose proof (holders_loop_expired clk nml fl key ongoing vals (ps_on_going st) (ps_keys st) false) as Hexp.
  pose proof (holders_loop_failed clk nml fl key ongoing vals (ps_on_going st) (ps_keys st) false) as Hfail.
  destruct (holders_loop _ _ _ _ _ _ _ _ _) as [[[l' og1] keys1] added'] eqn:E. cbn [fst] in *.
  apply holders_loop_spec in E as (n & Hadds & Hog).
  assert (NoDup l'.*1) as Hnd by (rewrite Hfst; apply NoDup_bmap_iter_keys).
  pose proof (map_to_list_to_map (M:=gmap PeerId) l' Hnd) as Hperm.
  exists (list_to_map l'), keys1, og1, n. split_and!.
  - intros Hclk [Hi1 Hi2]. unfold vals in *. rewrite <- bmap_iter_perm in Hi1, Hi2.
    split; rewrite Hperm; [by apply Hok|].
    pose proof (first_ongoing _ Hi2) as Hf. subst ongoing.
    destruct (head _) as [[p h]|]; cbn in *.
    + destruct (timed_out (clk key None) h) eqn:Ht; [|by etrans; [apply Hwait|]].
      apply Hexp. intros q hq Hq Hs. specialize (Hf q hq Hq Hs) as [= -> ->].
      unfold timed_out in *. rewrite bool_decide_eq_true in *. specialize (Hclk key p). lia.
    + apply Hexp. intros q hq Hq Hs. by destruct (Hf q hq Hq).
  - inversion Hadds as [|p h h' ?? Hin Hu Hin' Hs]; subst; [by left|right].
    exists p. split_and!; [|done|done|done]. exists h, h'. split_and!; [|done| |done].
    + by apply elem_of_bmap_iter.
    + by apply elem_of_list_to_map_1.
  - done.
  - assert (length l' = size holders) as Hlen.
    { rewrite <- (length_fmap fst), Hfst, length_fmap. apply length_bmap_iter. }
    assert (length (filter (fails clk key) vals) = length (filter (fails clk key) (map_to_list holders))) as Hfc
      by (unfold vals; by rewrite bmap_iter_perm).
    rewrite Hfc in Hfail. rewrite Hfail, Hlen. rewrite <- bool_decide_or.
    case_bool_decide as Hx; [by rewrite decide_True|by rewrite decide_False].
Qed.

(** The invariant of the loop over the keys, after processing [l]. *)
Record pass_inv (clk : Clock) (fl og0 : nat) (fetched0 : gmap RecordKey (gmap PeerId Holder))
    (l : list RecordKey) (st : PassState) : Prop := {
  pi_keys_done : ∀ k r, ps_keys st !! k = Some r → k ∈ l;
  pi_untouched : ∀ k, k ∉ l → ps_fetched st !! k = fetched0 !! k;
  pi_on_going : ps_on_going st ≤ og0 + size (ps_keys st) ∧ ps_on_going st ≤ og0 + fl;
  pi_peer_fetches : size (filter (λ kv : RecordKey * option PeerId, is_Some kv.2) (ps_keys st)) ≤ fl;
  pi_holders : ∀ k m', ps_fetched st !! k = Some m' → ∃ m, fetched0 !! k = Some m ∧
    (clock_monotone clk → holders_inv m → holders_inv m');
  pi_dom : ∀ k, is_Some (fetched0 !! k) → is_Some (ps_fetched st !! k);
  pi_removed : ∀ k, k ∈ ps_removed st ↔ ps_keys st !! k = Some None;
  pi_result : ∀ k r, ps_keys st !! k = Some r → ∃ m m',
    fetched0 !! k = Some m ∧ ps_fetched st !! k = Some m' ∧
    match r with Some p => asks m m' p | None => True end;
  pi_network : ∀ k m, k ∈ l → fetched0 !! k = Some m → ps_keys st !! k = Some None ↔ tried_out clk k m;
}.

Lemma pass_step clk nml fl og0 fetched0 l st key :
  key ∉ l → pass_inv clk fl og0 fetched0 l st →
  pass_inv clk fl og0 fetched0 (l ++ [key]) (process_key clk nml fl st key).
Proof.
  intros Hnew [Hkd Hun [Hog1 Hog2] Hpf Hho Hdom Hrem Hres Hnet].
  assert (ps_keys st !! key = None) as Hnone.
  { destruct (ps_keys st !! key) eqn:E; [|done]. by apply Hkd in E. }
  destruct (ps_fetched st !! key) as [m|] eqn:Hm.
  2:{ unfold process_key. rewrite Hm. split; try done.
      - intros k r Hk. apply elem_of_app. left. by eapply Hkd.
      - intros k Hk. apply Hun. intros ?. apply Hk, elem_of_app. by left.
      - intros k m [Hk| ->%list_elem_of_singleton]%elem_of_app Hm0; [by apply Hnet|].
        rewrite <- Hun in Hm0 by done. congruence. }
  assert (fetched0 !! key = Some m) as Hm0 by (by rewrite <- Hun).
  destruct (process_key_spec clk nml fl st key m Hm) as (m' & keys1 & og1 & n & Hinv & Hk1 & Hog & ->).
  assert (∀ k, k ≠ key → keys1 !! k = ps_keys st !! k) as Hne.
  { intros k Hk. destruct Hk1 as [[-> _]|(p & _ & _ & -> & _)]; [done|by rewrite lookup_insert_ne]. }
  assert (og1 ≤ og0 + size keys1 ∧ og1 ≤ og0 + fl) as [Hb1 Hb2].
  { destruct Hk1 as [[-> ->]|(p & _ & Hsz & -> & ->)]; [lia|].
    rewrite (map_size_insert_None _ _ _ Hnone). lia. }
  assert (size (filter (λ kv : RecordKey * option PeerId, is_Some kv.2) keys1) ≤ fl) as Hpf1.
  { destruct Hk1 as [[-> _]|(p & _ & Hsz & -> & _)]; [done|].
    etrans; [apply map_size_filter|]. rewrite (map_size_insert_None _ _ _ Hnone). lia. }
  assert (∀ k, k ∈ l ++ [key] ↔ k ∈ l ∨ k = key) as Hin by (intros k; set_solver).
  assert (∀ keys2 og2 rem,
    (∀ k, k ≠ key → keys2 !! k = ps_keys st !! k) →
    og2 ≤ og0 + size keys2 → og2 ≤ og0 + fl →
    size (filter (λ kv : RecordKey * option PeerId, is_Some kv.2) keys2) ≤ fl →
    (∀ k, k ∈ rem ↔ k ∈ ps_removed st ∧ k ≠ key ∨ k = key ∧ keys2 !! k = Some None) →
    (∀ r, keys2 !! key = Some r → match r with Some p => asks m m' p | None => True end) →
    (keys2 !! key = Some None ↔ tried_out clk key m) →
    pass_inv clk fl og0 fetched0 (l ++ [key])
      {| ps_fetched := <[key := m']> (ps_fetched st); ps_on_going := og2; ps_keys := keys2; ps_removed := rem |})
    as Hmk.
  { intros keys2 og2 rem Hk2 H1 H2 H3 H4 H5 H6. split; cbn [ps_fetched ps_on_going ps_keys ps_removed].
    - intros k r Hk. apply Hin. destruct (decide (k = key)) as [->|Hkk]; [by right|left].
      rewrite Hk2 in Hk by done. by eapply Hkd.
    - intros k Hk. rewrite Hin in Hk. rewrite lookup_insert_ne by naive_solver. apply Hun. naive_solver.
    - done.
    - done.
    - intros k mk [[<- <-]|[_ Hk]]%lookup_insert_Some; [by exists m|by apply Hho].
    - intros k Hk. apply lookup_insert_is_Some. destruct (decide (key = k)); [by left|right].
      split; [done|by apply Hdom].
    - intros k. rewrite H4, Hrem. destruct (decide (k = key)) as [->|Hkk]; [naive_solver|].
      rewrite Hk2 by done. naive_solver.
    - intros k r Hk. destruct (decide (k = key)) as [->|Hkk].
      + exists m, m'. rewrite lookup_insert_eq. split_and!; [done|done|by apply H5].
      + rewrite Hk2 in Hk by done. rewrite lookup_insert_ne by done. by apply Hres.
    - intros k mk Hk Hmk. destruct (decide (k = key)) as [->|Hkk].
      + rewrite Hm0 in Hmk. by injection Hmk as <-.
      + rewrite Hk2 by done. apply Hnet; [|done]. apply Hin in Hk. naive_solver. }
  assert (key ∉ ps_removed st) as Hnr by (rewrite Hrem; congruence).
  case_decide as Hex; apply Hmk; clear Hmk.
  - intros k Hk. by rewrite lookup_insert_ne, Hne.
  - etrans; [|apply Nat.add_le_mono_l, map_size_insert_ge]. lia.
  - lia.
  - rewrite map_filter_insert_False by (by intros [? ?]). rewrite map_filter_delete.
    etrans; [apply map_subseteq_size, delete_subseteq|done].
  - intros k. rewrite elem_of_app, list_elem_of_singleton. split.
    + intros [Hk|Hk].
      * left. split; [done|congruence].
      * right. subst k. by rewrite lookup_insert_eq.
    + intros [[Hk _]|[Hk _]]; [by left|by right].
  - intros r. rewrite lookup_insert_eq. by intros [= <-].
  - by rewrite lookup_insert_eq.
  - done.
  - done.
  - done.
  - done.
  - intros k. split.
    + intros Hk. left. split; [done|congruence].
    + intros [[Hk _]|[-> Hk]]; [done|].
      destruct Hk1 as [[-> _]|(p & _ & _ & -> & _)]; [congruence|]. by rewrite lookup_insert_eq in Hk.
  - intros r Hr. destruct Hk1 as [[-> _]|(p & Hp & _ & -> & _)]; [congruence|].
    rewrite lookup_insert_eq in Hr. by injection Hr as <-.
  - split; [|done]. destruct Hk1 as [[-> _]|(p & _ & _ & -> & _)]; [congruence|].
    by rewrite lookup_insert_eq.
Qed.

Lemma pass_spec clk nml fl og0 fetched0 order :
  NoDup order →
  pass_inv clk fl og0 fetched0 order
    (foldl (process_key clk nml fl)
       {| ps_fetched := fetched0; ps_on_going := og0; ps_keys := ∅; ps_removed := [] |} order).
Proof.
  induction order as [|k l IH] using rev_ind; intros Hnd.
  - split; cbn; try done.
    + lia.
    + rewrite map_filter_empty, map_size_empty. lia.
    + intros k m' Hm. by exists m'.
    + intros k. split; [by intros ?%elem_of_nil|done].
    + by intros k m ?%elem_of_nil.
  - apply NoDup_app in Hnd as (Hl & Hk & _). rewrite foldl_app. cbn [foldl].
    apply pass_step; [|by apply IH]. intros Hin. apply (Hk k Hin). by left.
Qed.

Lemma delete_all_lookup {V} (l : list RecordKey) (m : gmap RecordKey V) k :
  foldl (λ m k, delete k m) m l !! k = if decide (k ∈ l) then None else m !! k.
Proof.
  revert m. induction l as [|x l IH]; intros m; cbn [foldl].
  { rewrite decide_False; [done|by apply not_elem_of_nil]. }
  rewrite IH. destruct (decide (k ∈ l)).
  - by rewrite decide_True by (by right).
  - destruct (decide (k = x)) as [->|Hne].
    + rewrite decide_True by by left. by rewrite lookup_delete_eq.
    + rewrite lookup_delete_ne by done. rewrite decide_False; [done|]. by rewrite elem_of_cons; naive_solver.
Qed.

(** What one pass does to the fate of a key with holders [m]. *)
Definition key_outcome (clk : Clock) (k : RecordKey) (m : gmap PeerId Holder)
    (answer : option (option PeerId)) (after : option (gmap PeerId Holder)) : Prop :=
  if decide (tried_out clk k m) then answer = Some None ∧ after = None
  else ∃ m', after = Some m' ∧ (clock_monotone clk → holders_inv m → holders_inv m') ∧
             (answer = None ∨ ∃ p, answer = Some (Some p) ∧ asks m m' p).

Lemma next_keys_spec bld clk order f :
  on_going_fetches f ≤ MAX_PARALLEL_FETCH → order ≡ₚ elements (dom (to_be_fetched f)) →
  ∃ f' keys,
    next_keys_to_fetch bld clk order f = (f', Ok (map_to_list keys)) ∧
    on_going_fetches f' ≤ MAX_PARALLEL_FETCH ∧
    size (filter (λ kv : RecordKey * option PeerId, is_Some kv.2) keys) + on_going_fetches f
      ≤ MAX_PARALLEL_FETCH ∧
    (∀ k, to_be_fetched f !! k = None → keys !! k = None ∧ to_be_fetched f' !! k = None) ∧
    (∀ k m, to_be_fetched f !! k = Some m → key_outcome clk k m (keys !! k) (to_be_fetched f' !! k)).
Proof.
  intros Hog Hord. unfold next_keys_to_fetch, u64_sub, MAX_PARALLEL_FETCH in *.
  rewrite u64_of_in_range by (unfold in_u64, two64; lia).
  replace (Z.to_nat (Z.of_nat 8 - Z.of_nat (on_going_fetches f))) with (8 - on_going_fetches f) by lia.
  set (nml := bool_decide _).
  assert (NoDup order) as Hnd by (rewrite Hord; apply NoDup_elements).
  assert (∀ k, k ∈ order ↔ is_Some (to_be_fetched f !! k)) as Hdom
    by (intros k; by rewrite Hord, elem_of_elements, elem_of_dom).
  pose proof (pass_spec clk nml (8 - on_going_fetches f) (on_going_fetches f) (to_be_fetched f) order Hnd) as Hp.
  destruct Hp as [Hkd Hun [_ Hb] Hpf Hho Hfd Hrem Hres Hnet].
  eexists _, _. split; [reflexivity|]. cbn [on_going_fetches to_be_fetched].
  split_and!; [lia|lia| |].
  - intros k Hk. rewrite delete_all_lookup.
    assert (k ∉ order) as Hno by (rewrite Hdom; intros [? ?]; congruence).
    split; [|case_decide; [done|by rewrite Hun]].
    destruct (ps_keys _ !! k) eqn:E; [|done]. by apply Hkd in E.
  - intros k m Hm. rewrite delete_all_lookup. unfold key_outcome.
    assert (k ∈ order) as Hin by (apply Hdom; by exists m).
    specialize (Hnet k m Hin Hm). case_decide as Ht.
    + apply Hnet in Ht. split; [done|]. rewrite decide_True; [done|]. by apply Hrem.
    + destruct (Hfd k) as [m' Hm']; [by exists m|]. exists m'.
      rewrite decide_False by (rewrite Hrem; tauto). split; [done|]. split.
      * destruct (Hho k m' Hm') as (m0 & Hm0 & H). rewrite Hm in Hm0. by injection Hm0 as <-.
      * destruct (ps_keys _ !! k) as [[p|]|] eqn:E; [|tauto|by left].
        right. exists p. split; [done|]. destruct (Hres k _ E) as (m0 & m1 & Hm0 & Hm1 & Ha). congruence.
Qed.

(** ** Reachable fetchers *)

Definition fetcher_inv (f : ReplicationFetcher) : Prop :=
  on_going_fetches f ≤ MAX_PARALLEL_FETCH ∧ map_Forall (λ _, holders_inv) (to_be_fetched f).

Inductive fetcher_step : ReplicationFetcher → ReplicationFetcher → Prop :=
| step_add_keys bld clk now order peer incoming local f :
    clock_monotone clk →
    order ≡ₚ elements (dom (to_be_fetched (add_incoming now peer incoming local f))) →
    fetcher_step f (add_keys bld clk now order peer incoming local f).1
| step_new_put bld clk order key f :
    clock_monotone clk → order ≡ₚ elements (dom (to_be_fetched (drop_put_key key f))) →
    fetcher_step f (notify_about_new_put bld clk order key f).1.

Inductive fetcher_reachable : ReplicationFetcher → Prop :=
| fetcher_start : fetcher_reachable ReplicationFetcher_default
| fetcher_next f f' : fetcher_reachable f → fetcher_step f f' → fetcher_reachable f'.

Lemma holders_inv_empty : holders_inv ∅.
Proof. unfold holders_inv. rewrite map_to_list_empty. split; [constructor|]. unfold ongoing_count. cbn. lia. Qed.

Lemma holders_inv_insert now m p :
  holders_inv m → m !! p = None →
  holders_inv (<[p := {| req_time := now; status := Pending; failed_attempts := 0 |}]> m).
Proof.
  intros [H1 H2] Hp. unfold holders_inv. rewrite map_to_list_insert by done. split.
  - constructor; [|exact H1]. split; cbn; [lia|done].
  - rewrite ongoing_count_cons. cbn [status]. case_decide; [done|lia].
Qed.

Lemma add_holder_inv now k p f : fetcher_inv f → fetcher_inv (add_holder_pey_key now k p f).
Proof.
  intros [H1 H2]. split; [exact H1|]. cbn. apply map_Forall_insert_2; [|exact H2].
  assert (holders_inv (default ∅ (to_be_fetched f !! k))) as Hd.
  { destruct (to_be_fetched f !! k) eqn:E; [by apply (H2 k)|apply holders_inv_empty]. }
  destruct (default ∅ (to_be_fetched f !! k) !! p) eqn:E; [done|]. by apply holders_inv_insert.
Qed.

Lemma add_incoming_inv now p inc local f : fetcher_inv f → fetcher_inv (add_incoming now p inc local f).
Proof.
  intros Hf. unfold add_incoming.
  assert (fetcher_inv (retain_keys local f)) as Hr.
  { destruct Hf as [H1 H2]. split; [exact H1|]. cbn. intros k m [Hk _]%map_lookup_filter_Some. by apply (H2 k). }
  revert Hr. generalize (retain_keys local f). clear Hf.
  induction (filter _ _) as [|k l IH]; intros g Hg; cbn; [done|]. by apply IH, add_holder_inv.
Qed.

Lemma drop_put_key_inv k f : fetcher_inv f → fetcher_inv (drop_put_key k f).
Proof.
  intros [H1 H2]. split; cbn.
  - destruct (to_be_fetched f !! k); [|done]. destruct (existsb _ _); lia.
  - by apply map_Forall_delete.
Qed.

Lemma next_keys_inv bld clk order f :
  clock_monotone clk → order ≡ₚ elements (dom (to_be_fetched f)) →
  fetcher_inv f → fetcher_inv (next_keys_to_fetch bld clk order f).1.
Proof.
  intros Hc Ho [H1 H2]. destruct (next_keys_spec bld clk order f H1 Ho) as (f' & keys & -> & Hb & _ & Hn & Hs).
  cbn. split; [done|]. intros k m' Hm'. destruct (to_be_fetched f !! k) as [m|] eqn:Hm.
  - specialize (Hs k m Hm). unfold key_outcome in Hs. case_decide; [destruct Hs; congruence|].
    destruct Hs as (m1 & Hm1 & Hinv & _). rewrite Hm' in Hm1. injection Hm1 as <-.
    apply Hinv; [done|]. by apply (H2 k).
  - destruct (Hn k Hm). congruence.
Qed.

Lemma fetcher_step_inv f f' : fetcher_step f f' → fetcher_inv f → fetcher_inv f'.
Proof.
  intros [] Hf; apply next_keys_inv; try done; [by apply add_incoming_inv|by apply drop_put_key_inv].
Qed.

Lemma fetcher_reachable_inv f : fetcher_reachable f → fetcher_inv f.
Proof.
  induction 1 as [|f f' _ IH Hs]; [|by eapply fetcher_step_inv].
  split; [cbn; lia|]. cbn. apply map_Forall_empty.
Qed.

(** *** A fetcher that is blocked

    The counter is at its limit, and no holder of any key was ever asked. *)










(** The number of fetches really on the way. *)
Definition in_flight (f : ReplicationFetcher) : nat :=
  sum_list (ongoing_count ∘ map_to_list ∘ snd <$> map_to_list (to_be_fetched f)).




End PassLemmas.

(** ** Properties *)

Section Properties.
Context `{BLS : BlsCrate, XN : XorNameCrate, KD : KadCrate}.

(** C26: in every reachable fetcher the counter is at most 8 (so the limit minus
    the counter never underflows and the next pass returns, in both builds), no
    holder has more than one failed attempt, and at most one holder of a key is
    being asked. *)
Theorem fetcher_reachable_bounded f :
  fetcher_reachable f →
  on_going_fetches f ≤ MAX_PARALLEL_FETCH ∧
  (∀ k m p h, to_be_fetched f !! k = Some m → m !! p = Some h →
     failed_attempts h ≤ 1 ∧ (status h = OnGoing → failed_attempts h = 0)) ∧
  (∀ k m, to_be_fetched f !! k = Some m → ongoing_count (map_to_list m) ≤ 1) ∧
  (∀ bld clk order, order ≡ₚ elements (dom (to_be_fetched f)) →
     is_ok (next_keys_to_fetch bld clk order f).2 = true).
Proof.
  intros [H1 H2]%fetcher_reachable_inv. split_and!; [done| | |].
  - intros k m p h Hm Hh. destruct (H2 k m Hm) as [Ha _]. rewrite Forall_forall in Ha.
    by apply (Ha (p, h)), elem_of_map_to_list.
  - intros k m Hm. by apply (H2 k m Hm).
  - intros bld clk order Ho. by destruct (next_keys_spec bld clk order f H1 Ho) as (f' & keys & -> & _).
Qed.

(** C24: one pass: a key goes to the network, and leaves the fetcher, exactly
    when all of its holders or three of them have failed by now; every other
    key stays; a peer is only asked for a key it holds, if it was never tried
    for that key; and the peers asked fit in the free places. *)
Theorem next_keys_exact bld clk order f :
  on_going_fetches f ≤ MAX_PARALLEL_FETCH → order ≡ₚ elements (dom (to_be_fetched f)) →
  ∃ f' keys,
    next_keys_to_fetch bld clk order f = (f', Ok (map_to_list keys)) ∧
    size (filter (λ kv : RecordKey * option PeerId, is_Some kv.2) keys) + on_going_fetches f
      ≤ MAX_PARALLEL_FETCH ∧
    (∀ k, to_be_fetched f !! k = None → keys !! k = None ∧ to_be_fetched f' !! k = None) ∧
    (∀ k m, to_be_fetched f !! k = Some m →
       if decide (tried_out clk k m) then keys !! k = Some None ∧ to_be_fetched f' !! k = None
       else ∃ m', to_be_fetched f' !! k = Some m' ∧
                  (keys !! k = None ∨ ∃ p, keys !! k = Some (Some p) ∧ asks m m' p)).
Proof.
  intros H1 Ho. destruct (next_keys_spec bld clk order f H1 Ho) as (f' & keys & He & _ & Hs & Hn & Hk).
  exists f', keys. split_and!; [done|done|done|]. intros k m Hm. specialize (Hk k m Hm).
  unfold key_outcome in Hk. case_decide; [done|]. destruct Hk as (m' & ? & _ & ?). by exists m'.
Qed.


End Properties.

(** ** The properties at concrete values *)

Definition toy_keys (l : list byte) : list NetworkAddress := (λ b, NA_RecordKey [b]) <$> l.

Definition toy_clock (t : Z) : Clock := λ _ _, t.

Lemma toy_clock_monotone t : clock_monotone (toy_clock t).
Proof. intros k p. unfold toy_clock. lia. Qed.

Definition toy_add (t : Z) (p : PeerId) (incoming : list byte) (local : gset RecordKey)
    (f : ReplicationFetcher) : ReplicationFetcher :=
  (add_keys Debug (toy_clock t) t
     (elements (dom (to_be_fetched (add_incoming t p (toy_keys incoming) local f))))
     p (toy_keys incoming) local f).1.

Definition toy_new_put (t : Z) (k : RecordKey) (f : ReplicationFetcher) : ReplicationFetcher :=
  (notify_about_new_put Debug (toy_clock t) (elements (dom (to_be_fetched (drop_put_key k f)))) k f).1.

Lemma toy_add_reachable t p inc local f : fetcher_reachable f → fetcher_reachable (toy_add t p inc local f).
Proof. intros H. eapply fetcher_next; [exact H|]. by apply step_add_keys; [apply toy_clock_monotone|]. Qed.

Lemma toy_new_put_reachable t k f : fetcher_reachable f → fetcher_reachable (toy_new_put t k f).
Proof. intros H. eapply fetcher_next; [exact H|]. by apply step_new_put; [apply toy_clock_monotone|]. Qed.

(** One key fetched at time 0 and seven at time 10: eight on the way. *)
Definition toy_busy : ReplicationFetcher :=
  toy_add 10 (Byte.x01 : PeerId) [Byte.x02; Byte.x03; Byte.x04; Byte.x05; Byte.x06; Byte.x07; Byte.x08] ∅
    (toy_add 0 (Byte.x01 : PeerId) [Byte.x01] ∅ ReplicationFetcher_default).

(** The first times out and two more keys come in. *)
Definition toy_overbooked : ReplicationFetcher :=
  toy_new_put 16 [Byte.xff] (toy_add 16 (Byte.x01 : PeerId) [Byte.x09; Byte.x0a] ∅ toy_busy).


Lemma toy_busy_reachable : fetcher_reachable toy_busy.
Proof. apply toy_add_reachable, toy_add_reachable, fetcher_start. Qed.

(** So nine fetches can be on the way with the counter at its limit of eight. *)
Example nine_in_flight : fetcher_reachable toy_overbooked ∧ on_going_fetches toy_overbooked = 8 ∧ in_flight toy_overbooked = 9.
Proof. split_and!; [|by_compute|by_compute]. apply toy_new_put_reachable, toy_add_reachable, toy_busy_reachable. Qed.



Lemma fetcher_reachable_bounded_witness :
  on_going_fetches toy_busy ≤ MAX_PARALLEL_FETCH.
Proof. exact (proj1 (fetcher_reachable_bounded toy_busy toy_busy_reachable)). Defined.

Lemma next_keys_exact_witness :
  ∃ f' keys, next_keys_to_fetch Release (toy_clock 30) (elements (dom (to_be_fetched toy_busy))) toy_busy
             = (f', Ok (map_to_list keys)) ∧ keys !! [Byte.x01] = Some None.
Proof.
  destruct (next_keys_exact Release (toy_clock 30) (elements (dom (to_be_fetched toy_busy))) toy_busy)
    as (f' & keys & He & _ & _ & Hk); [by_compute|by_compute|].
  exists f', keys. split; [exact He|].
  assert (is_Some (to_be_fetched toy_busy !! [Byte.x01])) as [m Hm] by by_compute.
  specialize (Hk [Byte.x01] m Hm). rewrite decide_True in Hk; [apply Hk|].
  assert (default False (tried_out (toy_clock 30) [Byte.x01] <$> to_be_fetched toy_busy !! [Byte.x01])) as Ht
    by (vm_compute; left; reflexivity).
  rewrite Hm in Ht. exact Ht.
Defined.
