(* ===== verification/Payments.v ===== *)
(** * Storage payments: Merkle proofs and the fee checks of a node

    - [build_payment_proofs], [validate_payment_proof], [leaf_index]:
      src/sn_transfers/src/payment_proof/mod.rs;
    - [verify_fee_output_id], [verify_fee_output_and_proof]:
      src/sn_node/src/put_validation.rs.

    The merkletree crate is the class [MerkleCrate] with its laws in
    [MerkleLaws].  The leaf index and the expected fee are [usize]/[u64]
    values, kept at their width.  The main theorems: the proofs a client builds
    are accepted and give back the index of the address, an honest payment is
    accepted by a node with a lower price, and the multiplication of the fee
    check can overflow. *)

From S2P Require Import Prelude Deps ToyCrates Registers Protocol Transfers.
From stdpp Require Import base tactics list gmap strings.
From Stdlib Require Import ZArith NArith Strings.Byte Lia.

(** ** merkletree, binary trees over 32-byte nodes hashed with [Sha256Hasher] *)

Class MerkleCrate := {
  leaf_hash : Hash32 → Hash32;
  next_pow2 : nat → nat;
  MerkleTree : Type;
  mt_new : list Hash32 → option MerkleTree;
  mt_root : MerkleTree → Hash32;
  MerkleProof : Type;
  mt_gen_proof : MerkleTree → nat → option MerkleProof;
  mp_new : list Hash32 → list Z → option MerkleProof;
  mp_lemma : MerkleProof → list Hash32;
  mp_path : MerkleProof → list Z;
  mp_item : MerkleProof → Hash32;
  mp_root : MerkleProof → Hash32;
  mp_validate : MerkleProof → option bool;
}.

(** The path to leaf [i] of a tree of depth [d]: the bits of [i], from the leaf up. *)
Fixpoint path_bits (d i : nat) : list Z :=
  match d with
  | 0 => []
  | S d' => Z.of_nat (i mod 2) :: path_bits d' (i / 2)
  end.

(** A tree over a power of two of leaves can be built; the proof generated for
    a leaf carries the hash of the leaf, the root, and the path to the leaf,
    and is valid; a proof is its lemma and path. *)
Class MerkleLaws `{MerkleCrate} : Prop := {
  next_pow2_ge : ∀ n, n ≤ next_pow2 n;
  next_pow2_lt : ∀ n, 0 < n → next_pow2 n < 2 * n;
  next_pow2_pow : ∀ n, ∃ d, next_pow2 n = 2 ^ d;
  mt_new_pow2 : ∀ l d, length l = 2 ^ S d → is_Some (mt_new l);
  mt_gen_proof_ok : ∀ l t d i x, mt_new l = Some t → length l = 2 ^ d → l !! i = Some x →
    ∃ p, mt_gen_proof t i = Some p ∧ mp_item p = leaf_hash x ∧ mp_root p = mt_root t ∧
         mp_validate p = Some true ∧ mp_path p = path_bits d i ∧
         mp_new (mp_lemma p) (mp_path p) = Some p;
}.

(** ** payment_proof/mod.rs *)

Inductive ProofError :=
| ProofTree
| GenAuditTrail (index : nat)
| InvalidAuditTrail
| AuditTrailSelfValidation
| AuditTrailItemMismatch (x : XorName)
| RootHashMismatch (h : Hash32).

#[global] Instance ProofError_eq_dec : EqDecision ProofError.
Proof. solve_decision. Defined.

Section PaymentProofs.
Context `{MK : MerkleCrate}.

Definition build_payment_proofs (content_addrs : list XorName)
    : Res ProofError (Hash32 * gmap XorName (list Hash32 * list Z)) :=
  let addrs := content_addrs in
  if decide (addrs = []) then Err ProofTree
  else
    let num_of_leaves := Nat.max 2 (next_pow2 (length addrs)) in
    let num_of_addrs := length addrs in
    let addrs := addrs ++ replicate (num_of_leaves - num_of_addrs) (replicate 32 Byte.x00) in
    merkletree ← ok_or (mt_new addrs) ProofTree;
    let root_hash := mt_root merkletree in
    payment_proofs ← try_fold (λ (m : gmap XorName (list Hash32 * list Z)) (ia : nat * XorName),
        proof ← ok_or (mt_gen_proof merkletree ia.1) (GenAuditTrail ia.1);
        Ok (<[ia.2 := (mp_lemma proof, mp_path proof)]> m))
      ∅ (imap pair (take num_of_addrs addrs));
    Ok (root_hash, payment_proofs).

(** [leaf_index = (leaf_index << 1) + p]: the shift drops the top bit, the
    addition is checked in debug builds. *)
Definition leaf_index (bld : Build) (path : list Z) : Res ProofError Z :=
  try_fold (λ acc p, u64_add bld ((Z.shiftl acc 1) mod two64) p) 0%Z (reverse path).

Definition validate_payment_proof (bld : Build) (addr_name : XorName) (root_hash : Hash32)
    (audit_trail : list Hash32) (path : list Z) : Res ProofError Z :=
  proof ← ok_or (mp_new audit_trail path) InvalidAuditTrail;
  let leaf_to_validate := leaf_hash addr_name in
  if decide (leaf_to_validate ≠ mp_item proof) then Err (AuditTrailItemMismatch addr_name)
  else if decide (root_hash ≠ mp_root proof) then Err (RootHashMismatch root_hash)
  else
    valid ← ok_or (mp_validate proof) AuditTrailSelfValidation;
    if negb valid then Err AuditTrailSelfValidation
    else leaf_index bld path.

End PaymentProofs.

(** ** put_validation.rs: the fee checks *)

Section FeeChecks.
Context `{MK : MerkleCrate, BLS : BlsCrate, TK : TokenCrate, DI : DbcIdCrate, SD : !SnDbcCrate}.

Definition verify_fee_output_id (tx : DbcTransaction) (required : bool) : Res ProtocolError unit :=
  let fee := tx_fee tx in
  if fee_is_free fee then
    if required then Err (PaymentProofInvalidFeeOutput (fee_id fee)) else Ok tt
  else
    let fee_id_bytes :=
      foldl (λ acc input, acc ++ dbc_id_to_bytes (input_dbc_id input)) (fee_root_hash fee) (tx_inputs tx) in
    if decide (fee_id fee ≠ dbc_hash fee_id_bytes) then Err (PaymentProofInvalidFeeOutput (fee_id fee))
    else Ok tt.

Definition verify_fee_output_and_proof (bld : Build) (addr_name : XorName) (acceptable_fee : Token)
    (tx : DbcTransaction) (audit_trail : list Hash32) (path : list Z) : Res ProtocolError unit :=
  _ ← verify_fee_output_id tx true;
  leaf_index ← map_err (λ _, InvalidPaymentProof addr_name)
    (validate_payment_proof bld addr_name (fee_root_hash (tx_fee tx)) audit_trail path);
  let paid := fee_token (tx_fee tx) in
  next ← u64_add bld leaf_index 1;
  n ← u64_mul bld (as_nano acceptable_fee) next;
  let expected := from_nano n in
  if decide (token_lt paid expected) then Err (PaymentProofInsufficientAmount paid expected) else Ok tt.

End FeeChecks.

(** ** Lemmas *)

Section ProofLemmas.

Lemma two_pow_pos d : 0 < 2 ^ d.
Proof. induction d; cbn; lia. Qed.

Lemma depth_fits d n : 2 ^ d ≤ 2 * n → (Z.of_nat n < 2 ^ 58)%Z → d ≤ 64.
Proof.
  intros Hub Hn. destruct (Nat.le_gt_cases d 64) as [|Hgt]; [done|exfalso].
  assert (2 ^ 64 ≤ Z.of_nat (2 ^ d))%Z; [|lia]. rewrite Nat2Z.inj_pow. apply Z.pow_le_mono_r; lia.
Qed.

(** Reading a path back gives the index, for any depth up to the word size. *)
Lemma leaf_index_bits bld d i :
  d ≤ 64 → i < 2 ^ d → leaf_index bld (path_bits d i) = Ok (Z.of_nat i).
Proof.
  unfold leaf_index. revert i. induction d as [|d IH]; intros i Hd Hi.
  { cbn in *. by replace i with 0 by lia. }
  cbn [path_bits]. rewrite reverse_cons.
  assert (i / 2 < 2 ^ d) as Hi2 by (apply Nat.Div0.div_lt_upper_bound; cbn in Hi; lia).
  specialize (IH (i / 2) ltac:(lia) Hi2).
  assert (∀ (f : Z → Z → Res ProofError Z) a l b x,
    try_fold f a l = Ok b → try_fold f a (l ++ [x]) = f b x) as Happ.
  { intros f a l b x. revert a. induction l as [|y l IHl]; intros a; cbn.
    - intros [= <-]. by destruct (f a x).
    - destruct (f a y); [apply IHl|done|done]. }
  rewrite (Happ _ _ _ _ _ IH).
  assert (Z.of_nat (2 ^ d) ≤ 2 ^ 63)%Z as Hp.
  { rewrite Nat2Z.inj_pow. apply Z.pow_le_mono_r; lia. }
  rewrite Z.shiftl_mul_pow2 by lia. change (2 ^ 1)%Z with 2%Z.
  pose proof (Nat.div_mod_eq i 2) as Hdm. pose proof (Nat.mod_upper_bound i 2 ltac:(lia)).
  rewrite Z.mod_small by (unfold two64; lia).
  unfold u64_add. replace (Z.of_nat (i / 2) * 2 + Z.of_nat (i mod 2))%Z with (Z.of_nat i) by lia.
  apply u64_of_in_range. unfold in_u64, two64. cbn in Hi. lia.
Qed.

Context `{MK : MerkleCrate, MKL : !MerkleLaws}.

(** The number of leaves is a power of two, at least two and enough. *)
Lemma num_leaves_pow n :
  0 < n → ∃ d, Nat.max 2 (next_pow2 n) = 2 ^ S d ∧ n ≤ 2 ^ S d ∧ 2 ^ S d ≤ 2 * n.
Proof.
  intros Hpos. pose proof (next_pow2_lt n Hpos).
  destruct (next_pow2_pow n) as [d Hd]. pose proof (next_pow2_ge n) as Hge. rewrite Hd in *.
  destruct d as [|d].
  - exists 0. cbn in *. lia.
  - exists d. rewrite Nat.max_r; [split_and!; [done|done|lia]|]. pose proof (two_pow_pos d). cbn in *. lia.
Qed.

(** What one entry of the proof map must be. *)
Definition proof_entry (t : MerkleTree) (d i : nat) (x : XorName) (e : list Hash32 * list Z) : Prop :=
  ∃ p, mp_new e.1 e.2 = Some p ∧ mp_item p = leaf_hash x ∧ mp_root p = mt_root t ∧
       mp_validate p = Some true ∧ e.2 = path_bits d i.

Definition proofs_loop (t : MerkleTree) (m : gmap XorName (list Hash32 * list Z)) (ia : nat * XorName)
    : Res ProofError (gmap XorName (list Hash32 * list Z)) :=
  proof ← ok_or (mt_gen_proof t ia.1) (GenAuditTrail ia.1);
  Ok (<[ia.2 := (mp_lemma proof, mp_path proof)]> m).

(** The loop returns, covers every address, and each entry is a proof of an
    index at which the address is found. *)
Lemma proofs_loop_spec t d (leaves : list XorName) (ias : list (nat * XorName)) m :
  mt_new leaves = Some t → length leaves = 2 ^ d →
  (∀ ia, ia ∈ ias → leaves !! ia.1 = Some ia.2) →
  ∃ m', try_fold (proofs_loop t) m ias = Ok m' ∧
    (∀ x e, m' !! x = Some e →
       m !! x = Some e ∨ ∃ i, (i, x) ∈ ias ∧ proof_entry t d i x e) ∧
    (∀ x, is_Some (m !! x) ∨ x ∈ ias.*2 → is_Some (m' !! x)).
Proof.
  intros Ht Hlen. revert m. induction ias as [|[i x] ias IH]; intros m Hin; cbn [try_fold].
  { exists m. split_and!; [done|by left|]. intros x [H|H%elem_of_nil]; done. }
  destruct (mt_gen_proof_ok leaves t d i x Ht Hlen) as (p & Hg & Hi & Hr & Hv & Hp & Hn);
    [by apply (Hin (i, x)); left|].
  assert (proofs_loop t m (i, x) = Ok (<[x := (mp_lemma p, mp_path p)]> m)) as ->
    by (unfold proofs_loop; cbn [fst snd]; by rewrite Hg).
  destruct (IH (<[x := (mp_lemma p, mp_path p)]> m)) as (m' & Hf & He & Hc).
  { intros ia Hia. apply Hin. by right. }
  exists m'. split_and!; [done| |].
  - intros y e Hy. apply He in Hy as [[[<- <-]|[_ Hy]]%lookup_insert_Some|(j & Hj & Hj')].
    + right. exists i. split; [by left|]. by exists p.
    + by left.
    + right. exists j. split; [by right|done].
  - intros y Hy. apply Hc. cbn in Hy. rewrite elem_of_cons in Hy.
    destruct (decide (y = x)) as [->|Hne]; [left; by rewrite lookup_insert_eq|].
    rewrite lookup_insert_ne by done. naive_solver.
Qed.

Lemma imap_pair_lookup (l : list XorName) ia : ia ∈ imap pair l → l !! ia.1 = Some ia.2.
Proof. intros (i & x & -> & H)%elem_of_lookup_imap. done. Qed.

Lemma imap_pair_snd (l : list XorName) : (imap pair l).*2 = l.
Proof.
  apply list_eq. intros i. rewrite list_lookup_fmap, list_lookup_imap. by destruct (l !! i).
Qed.

Lemma build_payment_proofs_spec addrs :
  addrs ≠ [] →
  ∃ root m t d, build_payment_proofs addrs = Ok (root, m) ∧ root = mt_root t ∧
    length addrs ≤ 2 ^ d ∧ 2 ^ d ≤ 2 * length addrs ∧
    (∀ x e, m !! x = Some e → ∃ i, addrs !! i = Some x ∧ proof_entry t d i x e) ∧
    (∀ x, x ∈ addrs → is_Some (m !! x)).
Proof.
  intros Hne. unfold build_payment_proofs. rewrite decide_False by done.
  destruct (num_leaves_pow (length addrs)) as (d & Hd & Hle & Hub).
  { destruct addrs; [done|cbn; lia]. }
  set (leaves := addrs ++ _).
  assert (length leaves = 2 ^ S d) as Hlen.
  { unfold leaves. rewrite length_app, length_replicate. lia. }
  destruct (mt_new_pow2 leaves d Hlen) as [t Ht]. rewrite Ht. cbn.
  assert (take (length addrs) leaves = addrs) as Htake by (unfold leaves; by rewrite take_app_length).
  rewrite Htake.
  destruct (proofs_loop_spec t (S d) leaves (imap pair addrs) ∅ Ht Hlen) as (m & Hf & He & Hc).
  { intros ia Hia%imap_pair_lookup. unfold leaves. by apply lookup_app_l_Some. }
  unfold proofs_loop in Hf. rewrite Hf. exists (mt_root t), m, t, (S d). split_and!; [done|done|done|done| |].
  - intros x e Hx. apply He in Hx as [Hx|(i & Hi%imap_pair_lookup & Hp)]; [done|]. by exists i.
  - intros x Hx. apply Hc. right. by rewrite imap_pair_snd.
Qed.

Lemma proof_entry_valid bld t d i x e :
  d ≤ 64 → i < 2 ^ d → proof_entry t d i x e →
  validate_payment_proof bld x (mt_root t) e.1 e.2 = Ok (Z.of_nat i).
Proof.
  intros Hd Hi (p & Hn & Hit & Hr & Hv & Hp). unfold validate_payment_proof. rewrite Hn. cbn.
  rewrite decide_False by (rewrite Hit; tauto). rewrite decide_False by (rewrite Hr; tauto).
  rewrite Hv. cbn. rewrite Hp. by apply leaf_index_bits.
Qed.

End ProofLemmas.

Section FeeLemmas.
Context `{MK : MerkleCrate, BLS : BlsCrate, TK : TokenCrate, DI : DbcIdCrate, SD : !SnDbcCrate}.

Lemma fee_bytes_fold root (l : list DbcInput) :
  foldl (λ acc input, acc ++ dbc_id_to_bytes (input_dbc_id input)) root l
  = root ++ concat (dbc_id_to_bytes ∘ input_dbc_id <$> l).
Proof.
  revert root. induction l as [|p l IH]; intros root; cbn; [by rewrite app_nil_r|].
  rewrite IH, <- app_assoc. done.
Qed.

(** The fee id is the hash of the root and the inputs. *)
Definition fee_id_correct (tx : DbcTransaction) : Prop :=
  fee_id (tx_fee tx) = dbc_hash (fee_preimage (fee_root_hash (tx_fee tx)) tx).

Lemma verify_fee_output_id_iff tx required :
  verify_fee_output_id tx required = Ok tt ↔
  if fee_is_free (tx_fee tx) then required = false else fee_id_correct tx.
Proof.
  unfold verify_fee_output_id, fee_id_correct, fee_preimage. rewrite fee_bytes_fold.
  destruct (fee_is_free _), required; try (case_decide); naive_solver.
Qed.

Lemma verify_fee_output_id_unit tx required x :
  verify_fee_output_id tx required = Ok x ↔ verify_fee_output_id tx required = Ok tt.
Proof. by destruct x. Qed.

End FeeLemmas.

(** ** Properties *)

Section Properties.
Context `{MK : MerkleCrate, BLS : BlsCrate, TK : TokenCrate, DI : DbcIdCrate, SD : !SnDbcCrate}.

(** payment proofs round trip: for every non-empty list of addresses (of a
    length that fits in memory) the proofs are built, there is one for each
    address, each is accepted against the root, and it gives back an index at
    which the address is in the list, in both builds. *)
Theorem payment_proofs_roundtrip (HM : MerkleLaws) (bld : Build) (addrs : list XorName) :
  addrs ≠ [] → (Z.of_nat (length addrs) < 2 ^ 58)%Z →
  ∃ root m, build_payment_proofs addrs = Ok (root, m) ∧
    (∀ x, is_Some (m !! x) ↔ x ∈ addrs) ∧
    (∀ x trail path, m !! x = Some (trail, path) →
       ∃ i, addrs !! i = Some x ∧ validate_payment_proof bld x root trail path = Ok (Z.of_nat i)).
Proof.
  intros Hne Hlen. destruct (build_payment_proofs_spec addrs Hne) as (root & m & t & d & Hb & -> & Hlo & Hub & He & Hc).
  assert (d ≤ 64) as Hd by (by eapply depth_fits).
  exists (mt_root t), m. split_and!; [done| |].
  - intros x. split; [|apply Hc]. intros [e Hx]. apply He in Hx as (i & Hi & _). by eapply list_elem_of_lookup_2.
  - intros x trail path Hx. apply He in Hx as (i & Hi & Hp). exists i. split; [done|].
    apply (proof_entry_valid bld t d i x (trail, path)); [done| |done]. apply lookup_lt_Some in Hi. lia.
Qed.

(** C15: what an accepted payment guarantees: the fee output is not free and its
    id commits to the payment root and to the inputs of the transaction, the
    address is proven under that root at some leaf index, and the amount paid
    covers the acceptable fee for all leaves up to that index, unless that
    amount does not fit in 64 bits and overflow checks are off. *)
Theorem fee_check_sound (HT : TokenLaws) (HS : SnDbcLaws) (bld : Build) addr fee tx trail path :
  verify_fee_output_and_proof bld addr fee tx trail path = Ok tt →
  as_nano (fee_token (tx_fee tx)) ≠ 0%Z ∧ fee_id_correct tx ∧
  ∃ i, validate_payment_proof bld addr (fee_root_hash (tx_fee tx)) trail path = Ok i ∧
       (bld = Debug ∨ (in_u64 (i + 1) ∧ in_u64 (as_nano fee * (i + 1))) →
        as_nano fee * (i + 1) ≤ as_nano (fee_token (tx_fee tx)))%Z.
Proof.
  unfold verify_fee_output_and_proof. intros (u & Hid%verify_fee_output_id_unit & H)%bind_Ok_iff.
  apply verify_fee_output_id_iff in Hid. rewrite fee_is_free_spec in Hid.
  case_bool_decide as Hfree; [done|]. split_and!; [done|done|].
  apply bind_Ok_iff in H as (i & Hi%map_err_Ok_iff & H). exists i. split; [done|].
  apply bind_Ok_iff in H as (nx & Hnx & H). apply bind_Ok_iff in H as (n & Hn & H).
  intros Hno.
  assert (nx = i + 1 ∧ n = as_nano fee * (i + 1) ∧ in_u64 n)%Z as (-> & -> & Hr).
  { destruct Hno as [-> | [Hr1 Hr2]].
    - apply u64_of_debug_exact in Hnx as [-> _]. apply u64_of_debug_exact in Hn as [-> ?]. done.
    - unfold u64_add in Hnx. rewrite u64_of_in_range in Hnx by done. injection Hnx as <-.
      unfold u64_mul in Hn. rewrite u64_of_in_range in Hn by done. by injection Hn as <-. }
  case_decide as Hlt; [done|]. unfold token_lt in Hlt. rewrite as_from_nano in Hlt by done. lia.
Qed.

(** the expected fee is the acceptable fee times the leaf index plus one, in
    64 bits.  At the highest price, 2^21 nanos, and leaf index 2^43 - 1 it
    wraps to zero in release builds, so that any non-zero payment with a
    correct fee id is accepted; in debug builds the node panics. *)
Theorem fee_check_overflow (HT : TokenLaws) (HS : SnDbcLaws) addr fee tx trail path :
  as_nano fee = (2 ^ 21)%Z →
  as_nano (fee_token (tx_fee tx)) ≠ 0%Z → fee_id_correct tx →
  (∀ bld, validate_payment_proof bld addr (fee_root_hash (tx_fee tx)) trail path = Ok (2 ^ 43 - 1)%Z) →
  verify_fee_output_and_proof Release addr fee tx trail path = Ok tt ∧
  panics (verify_fee_output_and_proof Debug addr fee tx trail path).
Proof.
  intros Hfee Hnz Hid Hp. unfold verify_fee_output_and_proof.
  assert (verify_fee_output_id tx true = Ok tt) as ->.
  { apply verify_fee_output_id_iff. rewrite fee_is_free_spec. by rewrite bool_decide_eq_false_2. }
  cbn [mbind Res_bind]. rewrite !Hp. cbn [map_err]. unfold mbind, Res_bind, u64_add, u64_mul.
  rewrite !(u64_of_in_range _ (2 ^ 43 - 1 + 1)) by by_compute. rewrite Hfee. split.
  - change (u64_of Release (2 ^ 21 * (2 ^ 43 - 1 + 1))) with (Ok (E:=ProtocolError) 0%Z).
    cbn [mbind Res_bind]. rewrite decide_False; [done|]. unfold token_lt.
    rewrite as_from_nano by by_compute. pose proof (as_nano_range (fee_token (tx_fee tx))) as [? _]. lia.
  - exists ArithmeticOverflow. reflexivity.
Qed.

(** a storage payment built by the client for a list of addresses, of a
    price per address times their number, is accepted for each of them by
    every node whose price is not higher, in both builds. *)
Theorem honest_payment_accepted {DC : DbcCrate}
    (HT : TokenLaws) (HS : SnDbcLaws) (HD : DbcLaws) (HM : MerkleLaws) (bld bld' : Build)
    (addrs : list XorName) root m x trail path avail change_to payment reason rnd out (cost : Z) fee :
  addrs ≠ [] → (Z.of_nat (length addrs) < 2 ^ 58)%Z →
  build_payment_proofs addrs = Ok (root, m) → m !! x = Some (trail, path) →
  (0 < cost)%Z → as_nano payment = (cost * Z.of_nat (length addrs))%Z →
  create_storage_payment_transfer bld avail change_to payment root reason rnd = Ok out →
  (as_nano fee ≤ cost)%Z →
  verify_fee_output_and_proof bld' x fee (to_tx out) trail path = Ok tt.
Proof.
  intros Hne Hlen Hb Hx Hcost Hpay Hout Hfee.
  destruct (build_payment_proofs_spec addrs Hne) as (root' & m' & t & d & Hb' & -> & Hlo & Hub & He & _).
  rewrite Hb in Hb'. injection Hb' as -> ->.
  apply He in Hx as (i & Hi & Hp). apply lookup_lt_Some in Hi.
  assert (d ≤ 64) as Hd by (by eapply depth_fits).
  apply storage_payment_Ok in Hout as [_ Hf].
  unfold verify_fee_output_and_proof.
  assert (verify_fee_output_id (to_tx out) true = Ok tt) as ->.
  { apply verify_fee_output_id_iff. unfold fee_id_correct. rewrite fee_is_free_spec, Hf. cbn [fee_token].
    rewrite bool_decide_eq_false_2; [done|]. rewrite Hpay. nia. }
  rewrite Hf. cbn [mbind Res_bind fee_root_hash fee_token].
  assert (i < 2 ^ d) as Hid by lia.
  pose proof (proof_entry_valid bld' t d i x (trail, path) Hd Hid Hp) as Hval. cbn [fst snd] in Hval.
  rewrite Hval.
  cbn [map_err mbind Res_bind]. unfold mbind, Res_bind, u64_add, u64_mul.
  pose proof (as_nano_range payment) as Hpr. pose proof (as_nano_range fee) as Hfr. unfold in_u64 in *.
  rewrite u64_of_in_range by (unfold in_u64, two64; lia).
  rewrite u64_of_in_range by (unfold in_u64; nia).
  rewrite decide_False; [done|]. unfold token_lt. rewrite as_from_nano by (unfold in_u64; nia). nia.
Qed.

End Properties.

(** ** The properties at concrete values

    A toy Merkle tree: the root of a tree is the concatenation of its leaves
    and a proof carries all of them. *)

Record ToyProof := { tp_item : bytes; tp_root : bytes; tp_leaves : list bytes; tp_path : list Z }.

Definition toy_pow2 (n : nat) : nat := 2 ^ Nat.log2_up n.

#[global] Instance toy_merkle : MerkleCrate := {|
  leaf_hash := λ x, x;
  next_pow2 := toy_pow2;
  MerkleTree := list bytes;
  mt_new := λ l, Some l;
  mt_root := λ t, concat t;
  MerkleProof := ToyProof;
  mt_gen_proof := λ t i,
    (λ x, {| tp_item := x; tp_root := concat t; tp_leaves := t; tp_path := path_bits (Nat.log2 (length t)) i |})
      <$> t !! i;
  mp_new := λ l path,
    match l with
    | item :: root :: leaves => Some {| tp_item := item; tp_root := root; tp_leaves := leaves; tp_path := path |}
    | _ => None
    end;
  mp_lemma := λ p, tp_item p :: tp_root p :: tp_leaves p;
  mp_path := tp_path;
  mp_item := tp_item;
  mp_root := tp_root;
  mp_validate := λ p, Some (bool_decide (tp_item p ∈ tp_leaves p) && bool_decide (concat (tp_leaves p) = tp_root p));
|}.

#[global] Instance toy_merkle_laws : MerkleLaws.
Proof.
  constructor; cbn.
  - intros n. unfold toy_pow2. destruct n as [|[|n]]; [lia|cbn; lia|]. apply Nat.log2_up_spec. lia.
  - intros n Hn. unfold toy_pow2. destruct (decide (n = 1)) as [->|Hn1]; [cbn; lia|].
    pose proof (Nat.log2_up_spec n ltac:(lia)) as [Hlt _].
    assert (Nat.log2_up n = S (Nat.pred (Nat.log2_up n))) as Hs.
    { pose proof (Nat.log2_up_pos n ltac:(lia)). lia. }
    rewrite Hs. cbn. lia.
  - intros n. by exists (Nat.log2_up n).
  - by eexists.
  - intros l t d i x [= ->] Hlen Hx. rewrite Hx. cbn. eexists. split_and!; [done|done|done| | |].
    + cbn. rewrite !bool_decide_eq_true_2; [done|done|]. by eapply list_elem_of_lookup_2.
    + cbn. by rewrite Hlen, Nat.log2_pow2 by lia.
    + done.
Qed.

Definition toy_addrs : list XorName := [[Byte.x0a]; [Byte.x0b]; [Byte.x0c]].

Lemma payment_proofs_roundtrip_witness :
  ∃ root m, build_payment_proofs toy_addrs = Ok (root, m) ∧ is_Some (m !! [Byte.x0b]).
Proof.
  destruct (payment_proofs_roundtrip _ Release toy_addrs) as (root & m & Hb & Hd & _); [done|by_compute|].
  exists root, m. split; [exact Hb|]. apply Hd. by_compute.
Defined.

(** A payment of one nano whose Merkle path has 43 ones. *)
Definition toy_cheap_tx : DbcTransaction :=
  {| tx_inputs := []; tx_outputs := [];
     tx_fee := {| fee_id := [Byte.x0a]; fee_token := toy_tok 1; fee_root_hash := [Byte.x0a] |} |}.

Lemma fee_check_overflow_witness :
  verify_fee_output_and_proof Release [Byte.x0a] (toy_tok (2 ^ 21)) toy_cheap_tx
    [[Byte.x0a]; [Byte.x0a]; [Byte.x0a]] (replicate 43 1%Z) = Ok tt.
Proof.
  apply (fee_check_overflow _ _ [Byte.x0a] (toy_tok (2 ^ 21)) toy_cheap_tx
           [[Byte.x0a]; [Byte.x0a]; [Byte.x0a]] (replicate 43 1%Z)).
  - by_compute.
  - by_compute.
  - unfold fee_id_correct. by_compute.
  - intros bld. destruct bld; by_compute.
Defined.

Lemma fee_check_sound_witness :
  (as_nano (toy_tok 5) * 2 ≤ as_nano (toy_tok 12))%Z.
Proof.
  destruct (fee_check_sound _ _ Debug [Byte.x0b] (toy_tok 5)
    {| tx_inputs := []; tx_outputs := [];
       tx_fee := {| fee_id := [Byte.x0b]; fee_token := toy_tok 12; fee_root_hash := [Byte.x0b] |} |}
    [[Byte.x0b]; [Byte.x0b]; [Byte.x0b]] [1%Z]) as (_ & _ & i & Hi & Hle); [by_compute|].
  assert (i = 1%Z) as -> by (apply (f_equal (res_ok)) in Hi; vm_compute in Hi; by injection Hi as <-).
  apply Hle. by left.
Defined.

Lemma honest_payment_accepted_witness :
  ∃ root m trail path out,
    build_payment_proofs toy_addrs = Ok (root, m) ∧ m !! [Byte.x0b] = Some (trail, path) ∧
    create_storage_payment_transfer Debug toy_available Byte.x01 (toy_tok 12) root [] [Byte.x31] = Ok out ∧
    verify_fee_output_and_proof Release [Byte.x0b] (toy_tok 4) (to_tx out) trail path = Ok tt.
Proof.
  destruct (is_ok_true (build_payment_proofs toy_addrs)) as [[root m] Hb]; [by_compute|].
  assert (is_Some (m !! [Byte.x0b])) as [[trail path] Hm].
  { assert (default false ((λ p : Hash32 * gmap XorName (list Hash32 * list Z), bool_decide (is_Some (p.2 !! [Byte.x0b])))
              <$> res_ok (build_payment_proofs toy_addrs)) = true) as H by by_compute.
    rewrite Hb in H. by apply bool_decide_eq_true in H. }
  destruct (is_ok_true (create_storage_payment_transfer Debug toy_available Byte.x01 (toy_tok 12) root []
              [Byte.x31])) as [out Ho].
  { assert (default [] (fst <$> res_ok (build_payment_proofs toy_addrs)) = root) as <- by by rewrite Hb.
    by_compute. }
  exists root, m, trail, path, out. split_and!; [exact Hb|exact Hm|exact Ho|].
  apply (honest_payment_accepted _ _ _ _ Debug Release toy_addrs root m [Byte.x0b] trail path toy_available
           Byte.x01 (toy_tok 12) [] [Byte.x31] out 4 (toy_tok 4)); try done; by_compute.
Defined.
