(* ===== verification/Effects.v ===== *)
(** * Programs that talk to their environment

    Async code of the node and the client sends commands over channels and
    awaits the answers.  Such code is a [Prog]: a finite tree of operations,
    each continuing with its answer.  The environment (other tasks, the
    network) chooses every answer, so a property of a program is stated over
    all its executions ([exec]): the trace of operations with their answers,
    and the result.

    [always I Q p] is the proof device: along every execution each operation
    satisfies [I] with the trace so far, and the result satisfies [Q]. *)

From S2P Require Import Prelude.
From stdpp Require Import base tactics list.

Section Prog.
Context {Op : Type} {Ans : Op → Type}.

Inductive Prog (E A : Type) : Type :=
| Done (r : Res E A)
| Vis (op : Op) (k : Ans op → Prog E A).

#[global] Arguments Done {E A} r.
#[global] Arguments Vis {E A} op k.

Definition Event : Type := {op : Op & Ans op}.

#[global] Instance Prog_ret (E : Type) : MRet (Prog E) := λ A a, Done (Ok a).

Fixpoint prog_bind {E A B : Type} (k : A → Prog E B) (p : Prog E A) : Prog E B :=
  match p with
  | Done (Ok a) => k a
  | Done (Err e) => Done (Err e)
  | Done (Panic w) => Done (Panic w)
  | Vis op c => Vis op (λ x, prog_bind k (c x))
  end.

#[global] Instance Prog_bind (E : Type) : MBind (Prog E) := λ A B k p, prog_bind k p.

(** Perform one operation. *)
Definition call {E : Type} (op : Op) : Prog E (Ans op) := Vis op (λ a, Done (Ok a)).

(** [?] on a pure result. *)
Definition lift {E A : Type} (r : Res E A) : Prog E A := Done r.

(** [.map_err(f)] on an awaited result. *)
Fixpoint prog_map_err {E F A : Type} (f : E → F) (p : Prog E A) : Prog F A :=
  match p with
  | Done r => Done (map_err f r)
  | Vis op c => Vis op (λ x, prog_map_err f (c x))
  end.

(** Await a call and keep its [Result] as a value. *)
Fixpoint attempt {E F A : Type} (p : Prog E A) : Prog F (Res E A) :=
  match p with
  | Done (Panic w) => Done (Panic w)
  | Done r => Done (Ok r)
  | Vis op c => Vis op (λ x, attempt (c x))
  end.

(** [Result::expect] on an awaited result. *)
Fixpoint expect {E F A : Type} (p : Prog E A) : Prog F A :=
  match p with
  | Done (Ok a) => Done (Ok a)
  | Done (Err _) => Done (Panic ExplicitPanic)
  | Done (Panic w) => Done (Panic w)
  | Vis op c => Vis op (λ x, expect (c x))
  end.

(** Await a spawned task: a panic of the task is a [JoinError] for the caller. *)
Fixpoint join_task {E F A : Type} (p : Prog E A) : Prog F (Res E A) :=
  match p with
  | Done r => Done (Ok r)
  | Vis op c => Vis op (λ x, join_task (c x))
  end.

(** A [for] loop with [?] in its body, threading a state. *)
Fixpoint prog_fold {E S A : Type} (f : S → A → Prog E S) (s : S) (l : list A) : Prog E S :=
  match l with
  | [] => Done (Ok s)
  | x :: l' => s' ← f s x; prog_fold f s' l'
  end.

(** [futures::join_all]: the futures of a list run interleaved on one task.
    [sched] says which future makes the next step; what is left when it is used
    up runs in order, so every interleaving is that of some schedule.  A future
    that panics takes the task with it. *)
Definition panicked {E A : Type} (ps : list (Prog E A)) : option panic_reason :=
  head (omap (λ p, match p with Done (Panic w) => Some w | _ => None end) ps).

Fixpoint run_all {E F A : Type} (ps : list (Prog E A)) : Prog F (list (Res E A)) :=
  match ps with
  | [] => Done (Ok [])
  | p :: ps => r ← attempt p; rs ← run_all ps; Done (Ok (r :: rs))
  end.

Fixpoint join_all {E F A : Type} (sched : list nat) (ps : list (Prog E A)) : Prog F (list (Res E A)) :=
  match panicked ps with
  | Some w => Done (Panic w)
  | None =>
      match sched with
      | [] => run_all ps
      | i :: sched =>
          match ps !! i with
          | Some (Vis op k) => Vis op (λ a, join_all sched (<[i := k a]> ps))
          | _ => join_all sched ps
          end
      end
  end.

(** An async [&mut self] method: the state survives an error, not a panic. *)
Definition StP (S E A : Type) : Type := S → Prog Empty_set (S * Res E A).

#[global] Instance StP_ret (S E : Type) : MRet (StP S E) := λ A a s, Done (Ok (s, Ok a)).

#[global] Instance StP_bind (S E : Type) : MBind (StP S E) := λ A B k m s,
  x ← m s;
  match x with
  | (s', Ok a) => k a s'
  | (s', Err e) => Done (Ok (s', Err e))
  | (_, Panic w) => Done (Panic w)
  end.

(** An awaited call that does not touch the state. *)
Definition st_prog {S E A : Type} (p : Prog E A) : StP S E A := λ s, r ← attempt p; Done (Ok (s, r)).

(** A call that does not await. *)
Definition st_lift {S E A : Type} (m : StM S E A) : StP S E A := λ s,
  match m s with
  | (s', Ok a) => Done (Ok (s', Ok a))
  | (s', Err e) => Done (Ok (s', Err e))
  | (_, Panic w) => Done (Panic w)
  end.

(** Executions: the operations with the answers they got, and the result. *)
Inductive exec {E A : Type} : Prog E A → list Event → Res E A → Prop :=
| exec_done r : exec (Done r) [] r
| exec_vis op k a tr r : exec (k a) tr r → exec (Vis op k) (existT op a :: tr) r.

Lemma exec_inv {E A} (p : Prog E A) tr r :
  exec p tr r →
  match p with
  | Done r0 => tr = [] ∧ r = r0
  | Vis op k => ∃ a tr', tr = existT op a :: tr' ∧ exec (k a) tr' r
  end.
Proof. intros []; eauto. Qed.

Lemma exec_done_inv {E A} (r0 : Res E A) tr r : exec (Done r0) tr r → tr = [] ∧ r = r0.
Proof. intros H. exact (exec_inv _ _ _ H). Qed.

Lemma exec_vis_inv {E A} op (k : Ans op → Prog E A) tr r :
  exec (Vis op k) tr r → ∃ a tr', tr = existT op a :: tr' ∧ exec (k a) tr' r.
Proof. intros H. exact (exec_inv _ _ _ H). Qed.

Lemma exec_call_inv {E A} op (k : Ans op → Prog E A) tr r :
  exec (x ← call op; k x) tr r → ∃ a tr', tr = existT op a :: tr' ∧ exec (k a) tr' r.
Proof. apply exec_vis_inv. Qed.

Lemma exec_bind_inv {E A B} (p : Prog E A) (k : A → Prog E B) tr r :
  exec (x ← p; k x) tr r →
  (∃ a tr1 tr2, tr = tr1 ++ tr2 ∧ exec p tr1 (Ok a) ∧ exec (k a) tr2 r) ∨
  (∃ e, r = Err e ∧ exec p tr (Err e)) ∨ (∃ w, r = Panic w ∧ exec p tr (Panic w)).
Proof.
  unfold mbind, Prog_bind. revert tr. induction p as [[a|e|w]|op c IH]; intros tr; cbn.
  - intros H. left. exists a, [], tr. split_and!; [done|constructor|done].
  - intros [-> ->]%exec_done_inv. right. left. exists e. split; [done|constructor].
  - intros [-> ->]%exec_done_inv. right. right. exists w. split; [done|constructor].
  - intros (a & tr' & -> & H)%exec_vis_inv. apply IH in H as [(b & t1 & t2 & -> & H1 & H2)|[(e & -> & H)|(w & -> & H)]].
    + left. exists b, (existT op a :: t1), t2. split_and!; [done|by constructor|done].
    + right. left. exists e. split; [done|by constructor].
    + right. right. exists w. split; [done|by constructor].
Qed.

Lemma exec_map_err_inv {E F A} (f : E → F) (p : Prog E A) tr r :
  exec (prog_map_err f p) tr r → ∃ r0, exec p tr r0 ∧ r = map_err f r0.
Proof.
  revert tr. induction p as [r0|op c IH]; intros tr; cbn.
  - intros [-> ->]%exec_done_inv. eexists. split; [constructor|done].
  - intros (a & tr' & -> & H)%exec_vis_inv. apply IH in H as (r0 & H & ->). exists r0. split; [by constructor|done].
Qed.

Lemma exec_attempt_inv {E F A} (p : Prog E A) tr (r : Res F (Res E A)) :
  exec (attempt p) tr r → ∃ r0, exec p tr r0 ∧ r = match r0 with Panic w => Panic w | _ => Ok r0 end.
Proof.
  revert tr. induction p as [[a|e|w]|op c IH]; intros tr; cbn.
  1-3: intros [-> ->]%exec_done_inv; eexists; split; [constructor|done].
  intros (a & tr' & -> & H)%exec_vis_inv. apply IH in H as (r0 & H & ->). exists r0. split; [by constructor|done].
Qed.

Lemma exec_join_inv {E F A} (p : Prog E A) tr (r : Res F (Res E A)) :
  exec (join_task p) tr r → ∃ r0, exec p tr r0 ∧ r = Ok r0.
Proof.
  revert tr. induction p as [r0|op c IH]; intros tr; cbn.
  - intros [-> ->]%exec_done_inv. eexists. split; [constructor|done].
  - intros (a & tr' & -> & H)%exec_vis_inv. apply IH in H as (r0 & H & ->). exists r0. split; [by constructor|done].
Qed.

(** Building executions. *)
Lemma exec_bind {E A B} (p : Prog E A) (k : A → Prog E B) tr1 tr2 a r :
  exec p tr1 (Ok a) → exec (k a) tr2 r → exec (x ← p; k x) (tr1 ++ tr2) r.
Proof.
  unfold mbind, Prog_bind. revert tr1. induction p as [r0|op c IH]; intros tr1 H1 H2; cbn.
  - apply exec_done_inv in H1 as [-> <-]. done.
  - apply exec_vis_inv in H1 as (x & t & -> & H1). cbn. constructor. by apply IH.
Qed.

Lemma exec_bind_Panic {E A B} (p : Prog E A) (k : A → Prog E B) tr w :
  exec p tr (Panic w) → exec (x ← p; k x) tr (Panic w).
Proof.
  unfold mbind, Prog_bind. revert tr. induction p as [r0|op c IH]; intros tr H; cbn.
  - apply exec_done_inv in H as [-> <-]. constructor.
  - apply exec_vis_inv in H as (x & t & -> & H). constructor. by apply IH.
Qed.

Lemma exec_bind_Err {E A B} (p : Prog E A) (k : A → Prog E B) tr e :
  exec p tr (Err e) → exec (x ← p; k x) tr (Err e).
Proof.
  unfold mbind, Prog_bind. revert tr. induction p as [r0|op c IH]; intros tr H; cbn.
  - apply exec_done_inv in H as [-> <-]. constructor.
  - apply exec_vis_inv in H as (x & t & -> & H). constructor. by apply IH.
Qed.

Lemma exec_attempt {E F A} (p : Prog E A) tr r :
  exec p tr r → ¬ panics r → exec (attempt (F:=F) p) tr (Ok r).
Proof.
  revert tr. induction p as [r0|op c IH]; intros tr H Hn; cbn.
  - apply exec_done_inv in H as [-> ->]. destruct r0; try constructor. destruct Hn. by eexists.
  - apply exec_vis_inv in H as (x & t & -> & H). constructor. by apply IH.
Qed.

Lemma exec_map_err {E F A} (f : E → F) (p : Prog E A) tr r :
  exec p tr r → exec (prog_map_err f p) tr (map_err f r).
Proof. intros He. induction He as [r|op k a tr r He IH]; cbn; by constructor. Qed.

(** The executions that return: one step each. *)
Lemma exec_bind_Ok {E A B} (p : Prog E A) (k : A → Prog E B) tr b :
  exec (x ← p; k x) tr (Ok b) → ∃ a tr1 tr2, tr = tr1 ++ tr2 ∧ exec p tr1 (Ok a) ∧ exec (k a) tr2 (Ok b).
Proof. intros [H|[(e & ? & _)|(w & ? & _)]]%exec_bind_inv; [done|done|done]. Qed.

Lemma exec_lift_inv {E A} (r0 : Res E A) tr r : exec (lift r0) tr r → tr = [] ∧ r = r0.
Proof. apply exec_done_inv. Qed.

Lemma exec_map_err_Ok {E F A} (f : E → F) (p : Prog E A) tr a :
  exec (prog_map_err f p) tr (Ok a) → exec p tr (Ok a).
Proof. intros (r0 & H & Hr)%exec_map_err_inv. destruct r0; [|done|done]. by injection Hr as ->. Qed.

Lemma exec_attempt_Ok {E F A} (p : Prog E A) tr r :
  exec (attempt (F:=F) p) tr (Ok r) → exec p tr r ∧ ¬ panics r.
Proof.
  intros (r0 & H & Hr)%exec_attempt_inv. destruct r0; try done; injection Hr as ->; (split; [done|]); by intros [w Hw].
Qed.

Lemma exec_expect_Ok {E F A} (p : Prog E A) tr a : exec (expect (F:=F) p) tr (Ok a) → exec p tr (Ok a).
Proof.
  revert tr. induction p as [[| |]|op c IH]; intros tr; cbn.
  - intros [-> [= <-]]%exec_done_inv. constructor.
  - by intros [_ ?]%exec_done_inv.
  - by intros [_ ?]%exec_done_inv.
  - intros (x & t & -> & H)%exec_vis_inv. constructor. by apply IH.
Qed.

Lemma exec_expect_Err {E F A} (p : Prog E A) tr (e : F) : ¬ exec (expect p) tr (Err e).
Proof.
  revert tr. induction p as [[| |]|op c IH]; intros tr; cbn; [by intros [_ ?]%exec_done_inv..|].
  intros (x & t & -> & H)%exec_vis_inv. by apply IH in H.
Qed.

(** A loop that returned: its body keeps [J] on the elements done so far. *)
Lemma exec_fold_Ok {E S A} (J : list A → list Event → S → Prop) (f : S → A → Prog E S) l s tr s' :
  (∀ done t s x t' s', J done t s → x ∈ l → exec (f s x) t' (Ok s') → J (done ++ [x]) (t ++ t') s') →
  J [] [] s → exec (prog_fold f s l) tr (Ok s') → J l tr s'.
Proof.
  intros Hf HJ He.
  cut (∀ todo done t s tr, done ++ todo = l → J done t s → exec (prog_fold f s todo) tr (Ok s') → J l (t ++ tr) s').
  { intros H. by apply (H l [] [] s tr). }
  clear HJ He s tr. induction todo as [|x todo IH]; intros done t s tr Hl HJ; cbn.
  - intros [-> [= ->]]%exec_done_inv. rewrite app_nil_r in *. by subst.
  - intros (s1 & t1 & t2 & -> & H1 & H2)%exec_bind_Ok. rewrite app_assoc.
    apply (IH (done ++ [x]) _ s1); [by rewrite <- app_assoc| |done].
    eapply Hf; [done| |done]. rewrite <- Hl. apply elem_of_app. right. by left.
Qed.

(** The tasks of a [join_all], each with its own execution. *)
Lemma exec_run_all_inv {E F A} (ps : list (Prog E A)) tr (r : Res F (list (Res E A))) :
  exec (run_all ps) tr r →
  match r with
  | Ok rs => ∃ runs : list (list Event * Res E A),
      Forall2 (λ p x, exec p x.1 x.2) ps runs ∧ rs = runs.*2 ∧ tr = concat runs.*1
  | Err _ => False
  | Panic w => ∃ p tr0, p ∈ ps ∧ exec p tr0 (Panic w)
  end.
Proof.
  revert tr r. induction ps as [|p ps IH]; intros tr r; cbn.
  { intros [-> ->]%exec_done_inv. exists []. by split_and!. }
  intros [(x & t1 & t2 & -> & H1 & H2)|[(e & -> & H)|(w & -> & H)]]%exec_bind_inv.
  - apply exec_attempt_inv in H1 as (r0 & H1 & Hr0).
    assert (x = r0) as -> by (by destruct r0; simplify_eq). clear Hr0.
    apply exec_bind_inv in H2 as [(rs & t3 & t4 & -> & H2 & [-> ->]%exec_done_inv)|[(e & -> & H)|(w & -> & H)]].
    + apply IH in H2 as (runs & Hall & -> & ->). exists ((t1, r0) :: runs). rewrite app_nil_r.
      split_and!; [by constructor|done|done].
    + by apply IH in H.
    + apply IH in H as (q & t & Hq & H). exists q, t. split; [by right|done].
  - apply exec_attempt_inv in H as (r0 & _ & Hr0). by destruct r0.
  - apply exec_attempt_inv in H as (r0 & H & Hr0). destruct r0 as [| |w']; [done|done|].
    exists p, tr. split; [by left|]. by injection Hr0 as ->.
Qed.

Lemma panicked_Some {E A} (ps : list (Prog E A)) w : panicked ps = Some w → Done (Panic w) ∈ ps.
Proof.
  unfold panicked. induction ps as [|p ps IH]; cbn; [done|].
  destruct p as [[| |w']|]; cbn; try (intros H; right; by apply IH). intros [= ->]. by left.
Qed.

Lemma exec_join_all_inv {E F A} sched (ps : list (Prog E A)) tr (r : Res F (list (Res E A))) :
  exec (join_all sched ps) tr r →
  match r with
  | Ok rs => ∃ runs : list (list Event * Res E A),
      Forall2 (λ p x, exec p x.1 x.2) ps runs ∧ rs = runs.*2 ∧
      tr ≡ₚ concat runs.*1 ∧ Forall (λ x, x.1 `sublist_of` tr) runs
  | Err _ => False
  | Panic w => ∃ p tr0, p ∈ ps ∧ exec p tr0 (Panic w)
  end.
Proof.
  revert ps tr. induction sched as [|i sched IH]; intros ps tr; cbn;
    (destruct (panicked ps) as [w|] eqn:Hw;
     [intros [-> ->]%exec_done_inv; exists (Done (Panic w)), []; split; [by apply panicked_Some|constructor]|]).
  { intros H%exec_run_all_inv. destruct r as [rs| |]; [|done|done].
    destruct H as (runs & Hall & -> & ->). exists runs. split_and!; try done.
    apply Forall_forall. intros x Hx. apply list_elem_of_split in Hx as (l1 & l2 & ->).
    rewrite fmap_app, concat_app. cbn. apply sublist_inserts_l, sublist_inserts_r. done. }
  destruct (ps !! i) as [[r0|op k]|] eqn:Hi; [by apply IH| |by apply IH].
  intros (a & tr' & -> & H)%exec_vis_inv. apply IH in H. destruct r as [rs|e|w]; [|done|].
  - destruct H as (runs & Hall & -> & Hp & Hsub).
    assert (i < length ps) as Hlt by (by eapply lookup_lt_Some).
    destruct (Forall2_lookup_l _ _ _ _ _ Hall (list_lookup_insert_eq _ _ _ Hlt)) as ([t x] & Hx & He). cbn in He.
    exists (<[i := (existT op a :: t, x)]> runs). split_and!.
    + rewrite <- (list_insert_id ps i (Vis op k)) by done. rewrite <- (list_insert_insert_eq ps i (Vis op k) (k a)).
      apply Forall2_insert; [done|]. by constructor.
    + rewrite list_fmap_insert. cbn. rewrite list_insert_id; [done|]. by rewrite list_lookup_fmap, Hx.
    + rewrite list_fmap_insert. cbn. rewrite Hp. clear -Hx.
      revert i Hx. induction runs as [|y runs IH]; intros [|i] Hx; cbn in *; [done|done|by injection Hx as ->|].
      rewrite <- IH by done. by rewrite Permutation_middle.
    + apply Forall_insert; [eapply Forall_impl; [exact Hsub|]; intros y Hy; by apply sublist_cons|].
      cbn. apply sublist_skip. by apply (Forall_lookup_1 _ _ _ _ Hsub Hx).
  - destruct H as (p & t & [j Hj]%list_elem_of_lookup & H). destruct (decide (i = j)) as [<-|Hne].
    + rewrite list_lookup_insert_eq in Hj by (by eapply lookup_lt_Some). injection Hj as <-.
      exists (Vis op k), (existT op a :: t). split; [by eapply list_elem_of_lookup_2|by constructor].
    + rewrite list_lookup_insert_ne in Hj by done. exists p, t. split; [by eapply list_elem_of_lookup_2|done].
Qed.

Lemma exec_st_bind_inv {S E A B} (m : StP S E A) (k : A → StP S E B) s tr r :
  exec ((x ← m; k x) s) tr r →
  (∃ s' a tr1 tr2, tr = tr1 ++ tr2 ∧ exec (m s) tr1 (Ok (s', Ok a)) ∧ exec (k a s') tr2 r) ∨
  (∃ s' e, r = Ok (s', Err e) ∧ exec (m s) tr (Ok (s', Err e))) ∨
  (∃ w, r = Panic w ∧ (exec (m s) tr (Panic w) ∨ ∃ s', exec (m s) tr (Ok (s', Panic w)))).
Proof.
  unfold mbind at 1, StP_bind.
  intros [([s' [a|e|w]] & t1 & t2 & -> & H1 & H2)|[([] & _)|(w & -> & H)]]%exec_bind_inv.
  - left. by exists s', a, t1, t2.
  - apply exec_done_inv in H2 as [-> ->]. rewrite app_nil_r. right. left. by exists s', e.
  - apply exec_done_inv in H2 as [-> ->]. rewrite app_nil_r. right. right. exists w. eauto.
  - right. right. exists w. auto.
Qed.

Lemma exec_st_prog_inv {S E A} (p : Prog E A) (s : S) tr r :
  exec (st_prog p s) tr r →
  ∃ r0, exec p tr r0 ∧ r = match r0 with Panic w => Panic w | _ => Ok (s, r0) end.
Proof.
  unfold st_prog. intros [(x & t1 & t2 & -> & H1 & [-> ->]%exec_done_inv)|[([] & _)|(w & -> & H)]]%exec_bind_inv.
  - apply exec_attempt_inv in H1 as (r0 & H1 & Hr). exists r0. rewrite app_nil_r. split; [done|].
    by destruct r0; simplify_eq.
  - apply exec_attempt_inv in H as (r0 & H & Hr). exists r0. split; [done|]. by destruct r0; simplify_eq.
Qed.

Lemma exec_st_lift_inv {S E A} (m : StM S E A) (s : S) tr r :
  exec (st_lift m s) tr r →
  tr = [] ∧ r = match m s with (_, Panic w) => Panic w | x => Ok x end.
Proof. unfold st_lift. destruct (m s) as [s' [a|e|w]]; apply exec_done_inv. Qed.

Lemma exec_st_bind_Ok {S E A B} (m : StP S E A) (k : A → StP S E B) s tr s' b :
  exec ((x ← m; k x) s) tr (Ok (s', Ok b)) →
  ∃ s1 a tr1 tr2, tr = tr1 ++ tr2 ∧ exec (m s) tr1 (Ok (s1, Ok a)) ∧ exec (k a s1) tr2 (Ok (s', Ok b)).
Proof. intros [H|[(s1 & e & ? & _)|(w & ? & _)]]%exec_st_bind_inv; [done|done|done]. Qed.

Lemma exec_st_prog_Ok {S E A} (p : Prog E A) (s s' : S) tr a :
  exec (st_prog p s) tr (Ok (s', Ok a)) → s' = s ∧ exec p tr (Ok a).
Proof. intros (r0 & H & Hr)%exec_st_prog_inv. by destruct r0; simplify_eq. Qed.

Lemma exec_st_lift_Ok {S E A} (m : StM S E A) (s s' : S) tr a :
  exec (st_lift m s) tr (Ok (s', Ok a)) → tr = [] ∧ m s = (s', Ok a).
Proof. intros [-> Hr]%exec_st_lift_inv. split; [done|]. destruct (m s) as [s1 [x|e|w]]; by simplify_eq. Qed.

(** Run against an environment that answers from a state. *)
Fixpoint run {E A S : Type} (answer : S → ∀ op : Op, S * Ans op) (s : S) (p : Prog E A)
    : list Event * Res E A :=
  match p with
  | Done r => ([], r)
  | Vis op k =>
      let '(s', a) := answer s op in
      let '(tr, r) := run answer s' (k a) in (existT op a :: tr, r)
  end.

Lemma run_exec {E A S} (answer : S → ∀ op : Op, S * Ans op) s (p : Prog E A) :
  exec p (run answer s p).1 (run answer s p).2.
Proof.
  revert s. induction p as [r|op k IH]; intros s; cbn; [constructor|].
  destruct (answer s op) as [s' a]. specialize (IH a s').
  destruct (run answer s' (k a)) as [tr r]. by constructor.
Qed.

(** Every event of a run has an answer of the environment. *)
Lemma run_answers {E A S} (answer : S → ∀ op : Op, S * Ans op) (P : ∀ op, Ans op → Prop) s (p : Prog E A) :
  (∀ s op, P op (answer s op).2) → Forall (λ ev : Event, P (projT1 ev) (projT2 ev)) (run answer s p).1.
Proof.
  intros HP. revert s. induction p as [r|op k IH]; intros s; cbn; [constructor|].
  specialize (HP s op). destruct (answer s op) as [s' a]. specialize (IH a s').
  destruct (run answer s' (k a)) as [tr r]. by constructor.
Qed.

Fixpoint always {E A : Type} (I : list Event → Op → Prop) (Q : list Event → Res E A → Prop)
    (h : list Event) (p : Prog E A) : Prop :=
  match p with
  | Done r => Q h r
  | Vis op k => I h op ∧ ∀ a, always I Q (h ++ [existT op a]) (k a)
  end.

Lemma always_exec {E A} I Q (p : Prog E A) h tr r :
  always I Q h p → exec p tr r →
  Q (h ++ tr) r ∧ ∀ tr1 op a tr2, tr = tr1 ++ existT op a :: tr2 → I (h ++ tr1) op.
Proof.
  intros Ha He. revert h Ha. induction He as [r|op k a tr r He IH]; intros h Ha.
  - cbn in Ha. rewrite app_nil_r. split; [done|]. by intros [|] ? ? ?.
  - destruct Ha as [HI Ha]. destruct (IH _ (Ha a)) as [HQ Hops]. rewrite <- app_assoc in HQ. split; [done|].
    intros [|ev tr1] op' a' tr2 Htr; cbn in Htr.
    + injection Htr as Hop _ _. subst op'. by rewrite app_nil_r.
    + injection Htr as <- Htr. specialize (Hops tr1 op' a' tr2 Htr). by rewrite <- app_assoc in Hops.
Qed.

Lemma always_mono {E A} (I I' : list Event → Op → Prop) (Q Q' : list Event → Res E A → Prop) (p : Prog E A) h :
  (∀ h op, I h op → I' h op) → (∀ h r, Q h r → Q' h r) → always I Q h p → always I' Q' h p.
Proof.
  intros HI HQ. revert h. induction p as [r|op k IH]; intros h; cbn; [apply HQ|].
  intros [H1 H2]. split; [by apply HI|]. intros a. by apply IH.
Qed.

(** Sequencing. *)
Lemma always_bind {E A B} I (Q : list Event → Res E B → Prop) (p : Prog E A) (k : A → Prog E B) h :
  always I (λ h r, match r with
                   | Ok a => always I Q h (k a)
                   | Err e => Q h (Err e)
                   | Panic w => Q h (Panic w)
                   end) h p →
  always I Q h (x ← p; k x).
Proof.
  unfold mbind, Prog_bind. revert h. induction p as [[a|e|w]|op c IH]; intros h; cbn; try done.
  intros [H1 H2]. split; [done|]. intros a. by apply IH.
Qed.

Lemma always_map_err {E F A} I (Q : list Event → Res F A → Prop) (f : E → F) (p : Prog E A) h :
  always I (λ h r, Q h (map_err f r)) h p → always I Q h (prog_map_err f p).
Proof.
  revert h. induction p as [r|op c IH]; intros h; cbn; [done|].
  intros [H1 H2]. split; [done|]. intros a. by apply IH.
Qed.

Lemma always_attempt {E F A} I (Q : list Event → Res F (Res E A) → Prop) (p : Prog E A) h :
  always I (λ h r, match r with Panic w => Q h (Panic w) | _ => Q h (Ok r) end) h p →
  always I Q h (attempt p).
Proof.
  revert h. induction p as [[a|e|w]|op c IH]; intros h; cbn; try done.
  intros [H1 H2]. split; [done|]. intros a. by apply IH.
Qed.

Lemma always_join {E F A} I (Q : list Event → Res F (Res E A) → Prop) (p : Prog E A) h :
  always I (λ h r, Q h (Ok r)) h p → always I Q h (join_task p).
Proof.
  revert h. induction p as [r|op c IH]; intros h; cbn; [done|].
  intros [H1 H2]. split; [done|]. intros a. by apply IH.
Qed.

(** Both postconditions hold if each does. *)
Lemma always_and {E A} I I' (Q Q' : list Event → Res E A → Prop) (p : Prog E A) h :
  always I Q h p → always I' Q' h p → always (λ h op, I h op ∧ I' h op) (λ h r, Q h r ∧ Q' h r) h p.
Proof.
  revert h. induction p as [r|op k IH]; intros h; cbn; [done|].
  intros [H1 H2] [H3 H4]. split; [done|]. intros a. by apply IH.
Qed.

(** The trace only grows. *)
Lemma always_prefix {E A} I (Q : list Event → Res E A → Prop) (p : Prog E A) h :
  always I Q h p → always I (λ h' r, h `prefix_of` h' ∧ Q h' r) h p.
Proof.
  revert h. induction p as [r|op k IH]; intros h; cbn; [done|].
  intros [H1 H2]. split; [done|]. intros a. eapply always_mono; [by intros ? ? ?| |apply IH, H2].
  intros h' r [Hp HQ]. split; [|done]. etrans; [by apply prefix_app_r|exact Hp].
Qed.

(** A loop whose body keeps an invariant on the elements done so far. *)
Lemma always_fold {E S A} I (J : list A → list Event → S → Prop) (Q : list Event → Res E S → Prop)
    (f : S → A → Prog E S) l s h :
  (∀ done h s x, J done h s →
     always I (λ h r, match r with
                      | Ok s' => J (done ++ [x]) h s'
                      | Err e => Q h (Err e)
                      | Panic w => Q h (Panic w)
                      end) h (f s x)) →
  (∀ h s, J l h s → Q h (Ok s)) →
  J [] h s → always I Q h (prog_fold f s l).
Proof.
  intros Hf HQ HJ.
  assert (∀ todo done h s, done ++ todo = l → J done h s → always I Q h (prog_fold f s todo)) as Hgen;
    [|by apply (Hgen l [])].
  clear h s HJ. induction todo as [|x todo IH]; intros done h s Hl HJ; cbn.
  { rewrite app_nil_r in Hl. subst. by apply HQ. }
  apply always_bind. eapply always_mono; [by intros ? ? ?| |by apply Hf].
  intros h' [s'|e|w] H; [|done|done]. apply (IH (done ++ [x])); [|done]. by rewrite <- app_assoc.
Qed.

(** [given P Q h p]: along every execution whose answers satisfy [P] the trace
    and the result satisfy [Q].  It is the dual of [always], for what a program
    achieves in an environment that cooperates. *)
Fixpoint given {E A : Type} (P : ∀ op : Op, Ans op → Prop) (Q : list Event → Res E A → Prop)
    (h : list Event) (p : Prog E A) : Prop :=
  match p with
  | Done r => Q h r
  | Vis op k => ∀ a, P op a → given P Q (h ++ [existT op a]) (k a)
  end.

Lemma given_exec {E A} P Q (p : Prog E A) h tr r :
  given P Q h p → exec p tr r → Forall (λ ev : Event, P (projT1 ev) (projT2 ev)) tr → Q (h ++ tr) r.
Proof.
  intros Hg He. revert h Hg. induction He as [r|op k a tr r He IH]; intros h Hg Hall.
  - by rewrite app_nil_r.
  - apply Forall_cons in Hall as [Ha Hall]. specialize (IH _ (Hg a Ha) Hall). by rewrite <- app_assoc in IH.
Qed.

Lemma given_mono {E A} P (Q Q' : list Event → Res E A → Prop) (p : Prog E A) h :
  (∀ h r, Q h r → Q' h r) → given P Q h p → given P Q' h p.
Proof.
  intros HQ. revert h. induction p as [r|op k IH]; intros h; cbn; [apply HQ|].
  intros Hg a Ha. by apply IH, Hg.
Qed.

Lemma given_call {E A} P Q (op : Op) (k : Ans op → Prog E A) h :
  (∀ a, P op a → given P Q (h ++ [existT op a]) (k a)) → given P Q h (a ← call op; k a).
Proof. done. Qed.

Lemma given_bind {E A B} P Q (p : Prog E A) (k : A → Prog E B) (a : A) h :
  given P (λ _ r, r = Ok a) h p → (∀ h', given P Q h' (k a)) → given P Q h (x ← p; k x).
Proof.
  intros Hp Hk. unfold mbind, Prog_bind. revert h Hp. induction p as [r|op c IH]; intros h; cbn.
  - intros ->. apply Hk.
  - intros Hp x Hx. by apply IH, Hp.
Qed.

Lemma given_map_err {E F A} P (f : E → F) (p : Prog E A) (a : A) h :
  given P (λ _ r, r = Ok a) h p → given P (λ _ r, r = Ok a) h (prog_map_err f p).
Proof.
  revert h. induction p as [r|op c IH]; intros h; cbn; [by intros ->|]. intros Hp x Hx. by apply IH, Hp.
Qed.

Lemma given_join {E F A} P (p : Prog E A) (a : A) h :
  given P (λ _ r, r = Ok a) h p → given P (λ _ r, r = Ok (E:=F) (Ok (E:=E) a)) h (join_task p).
Proof.
  revert h. induction p as [r|op c IH]; intros h; cbn; [by intros ->|]. intros Hp x Hx. by apply IH, Hp.
Qed.

(** Every operation of every execution satisfies [P]. *)
Definition all_ops (P : Op → Prop) {E A} (p : Prog E A) : Prop :=
  ∀ tr r, exec p tr r → ∀ op a, existT op a ∈ tr → P op.

Section AllOps.
Context (P : Op → Prop).

Lemma all_ops_done {E A} (r : Res E A) : all_ops P (Done r).
Proof. intros tr r' [-> _]%exec_done_inv op a H. by apply elem_of_nil in H. Qed.

Lemma all_ops_lift {E A} (r : Res E A) : all_ops P (lift r).
Proof. apply all_ops_done. Qed.

Lemma all_ops_call {E} op : P op → all_ops P (E:=E) (call op).
Proof.
  intros Hop tr r (a & t & -> & [-> _]%exec_done_inv)%exec_vis_inv op' a' H%list_elem_of_singleton.
  injection H as H _. by subst op'.
Qed.

Lemma all_ops_bind {E A B} (p : Prog E A) (k : A → Prog E B) :
  all_ops P p → (∀ a, all_ops P (k a)) → all_ops P (p ≫= k).
Proof.
  intros Hp Hk tr r [(a & t1 & t2 & -> & H1 & H2)|[(e & _ & H)|(w & _ & H)]]%exec_bind_inv; [|by eapply Hp..].
  intros op b [H|H]%elem_of_app; [by eapply Hp|by eapply Hk].
Qed.

Lemma all_ops_fold {E S A} (f : S → A → Prog E S) s l : (∀ s x, all_ops P (f s x)) → all_ops P (prog_fold f s l).
Proof.
  intros Hf. revert s. induction l as [|x l IH]; intros s; cbn; [apply all_ops_done|]. by apply all_ops_bind.
Qed.

Lemma all_ops_map_err {E F A} (f : E → F) (p : Prog E A) : all_ops P p → all_ops P (prog_map_err f p).
Proof. intros Hp tr r (r0 & H & _)%exec_map_err_inv. by eapply Hp. Qed.

Lemma all_ops_attempt {E F A} (p : Prog E A) : all_ops P p → all_ops P (attempt (F:=F) p).
Proof. intros Hp tr r (r0 & H & _)%exec_attempt_inv. by eapply Hp. Qed.

End AllOps.

End Prog.

Arguments Prog {Op} Ans E A.
Arguments StP {Op} Ans S E A.
Arguments Event {Op} Ans.

(** Take apart an execution that returned, from its first step on. *)
Ltac exec_ok_step :=
  match goal with
  | H : exec (mbind _ _) ?t (Ok _) |- _ =>
      let a := fresh "a" in let t1 := fresh "t" in let t2 := fresh "t" in let E := fresh "Et" in let H1 := fresh "He" in
      apply exec_bind_Ok in H; destruct H as (a & t1 & t2 & E & H1 & H); try subst t
  | H : exec (lift _) ?t _ |- _ =>
      let E := fresh "Et" in let Er := fresh "Hr" in apply exec_lift_inv in H; destruct H as [E Er]; try subst t
  | H : exec (Done _) ?t _ |- _ =>
      let E := fresh "Et" in let Er := fresh "Hr" in apply exec_done_inv in H; destruct H as [E Er]; try subst t
  | H : exec (prog_map_err _ _) _ (Ok _) |- _ => apply exec_map_err_Ok in H
  | H : exec (expect _) _ (Ok _) |- _ => apply exec_expect_Ok in H
  | H : exec (attempt _) _ (Ok _) |- _ =>
      let N := fresh "Hn" in apply exec_attempt_Ok in H; destruct H as [H N]
  | H : Ok _ = Ok _ |- _ => injection H as H; try subst
  | H : Ok _ = map_err _ _ |- _ => symmetry in H; apply map_err_Ok_iff in H
  | H : map_err _ _ = Ok _ |- _ => apply map_err_Ok_iff in H
  | H : Ok _ = Err _ |- _ => discriminate H
  | H : Ok _ = Panic _ |- _ => discriminate H
  | H : exec (if ?b then _ else _) _ (Ok _) |- _ => destruct b eqn:?
  end.
Ltac exec_ok := repeat exec_ok_step.

(** Splits a program at its binds for [all_ops]; the operations are left. *)
Ltac all_ops_step :=
  match goal with
  | |- all_ops _ (_ ≫= _) => apply all_ops_bind; [|intros ?]
  | |- all_ops _ (lift _) => apply all_ops_lift
  | |- all_ops _ (Done _) => apply all_ops_done
  | |- @all_ops _ ?Ans ?P _ _ (call ?op) => apply (all_ops_call (Ans:=Ans) P op)
  | |- all_ops _ (prog_fold _ _ _) => apply all_ops_fold; intros ? ?
  | |- all_ops _ (prog_map_err _ _) => apply all_ops_map_err
  | |- all_ops _ (attempt _) => apply all_ops_attempt
  | |- all_ops _ (if ?b then _ else _) => destruct b
  | |- all_ops _ (let '(_, _) := ?x in _) => destruct x
  | |- all_ops _ (match ?x with _ => _ end) => destruct x
  end.
Ltac all_ops_tac := cbv zeta; repeat all_ops_step.

(** ** Two signatures

    A program that uses two kinds of operation runs the programs of each. *)
Section Sum.
Context {Op1 Op2 : Type} {Ans1 : Op1 → Type} {Ans2 : Op2 → Type}.

Definition SumAns (op : Op1 + Op2) : Type := match op with inl o => Ans1 o | inr o => Ans2 o end.

Fixpoint on_left {E A : Type} (p : Prog Ans1 E A) : Prog SumAns E A :=
  match p with
  | Done r => Done r
  | Vis op k => Vis (Ans:=SumAns) (inl op) (λ a, on_left (k a))
  end.

Fixpoint on_right {E A : Type} (p : Prog Ans2 E A) : Prog SumAns E A :=
  match p with
  | Done r => Done r
  | Vis op k => Vis (Ans:=SumAns) (inr op) (λ a, on_right (k a))
  end.

(** The events of one kind, in their order. *)
Definition left_event (ev : Event SumAns) : option (Event Ans1) :=
  match ev with existT op a => match op return SumAns op → option (Event Ans1) with
                               | inl o => λ a, Some (existT o a) | inr _ => λ _, None end a end.
Definition right_event (ev : Event SumAns) : option (Event Ans2) :=
  match ev with existT op a => match op return SumAns op → option (Event Ans2) with
                               | inl _ => λ _, None | inr o => λ a, Some (existT o a) end a end.
Definition left_events (tr : list (Event SumAns)) : list (Event Ans1) := omap left_event tr.
Definition right_events (tr : list (Event SumAns)) : list (Event Ans2) := omap right_event tr.

Lemma left_events_app t1 t2 : left_events (t1 ++ t2) = left_events t1 ++ left_events t2.
Proof. apply omap_app. Qed.
Lemma right_events_app t1 t2 : right_events (t1 ++ t2) = right_events t1 ++ right_events t2.
Proof. apply omap_app. Qed.

Lemma exec_on_left {E A} (p : Prog Ans1 E A) tr r :
  exec (on_left p) tr r → exec p (left_events tr) r ∧ right_events tr = [].
Proof.
  revert tr. induction p as [r0|op k IH]; intros tr; cbn.
  - intros [-> ->]%exec_done_inv. split; [constructor|done].
  - intros (a & t & -> & H)%exec_vis_inv. apply IH in H as [H1 H2]. split; [by constructor|done].
Qed.

Lemma exec_on_right {E A} (p : Prog Ans2 E A) tr r :
  exec (on_right p) tr r → exec p (right_events tr) r ∧ left_events tr = [].
Proof.
  revert tr. induction p as [r0|op k IH]; intros tr; cbn.
  - intros [-> ->]%exec_done_inv. split; [constructor|done].
  - intros (a & t & -> & H)%exec_vis_inv. apply IH in H as [H1 H2]. split; [by constructor|done].
Qed.

End Sum.
