(* ===== verification/Network.v ===== *)
(** * sn_networking: the [Network] handle

    The API node and client code use (src/sn_networking/src/lib.rs): sorting
    peers by distance, store cost quotes, and getting and putting records with
    retries.  [SwarmCmd] of src/sn_networking/src/cmd.rs is the operation type
    [NetOp]; the answer of a command is what its oneshot channel delivers, or
    that the command channel was full ([NoCapacity]) or the oneshot dropped
    ([Dropped]).  Sleeping and what a node does beside the network (events it
    broadcasts, tasks it spawns) are operations too.

    The main theorems: the fee is the upper median of the quotes, the close
    group is the closest peers, a record is returned only as the network
    answered it, the attempts are bounded, and a verified put was read back. *)

From S2P Require Import Prelude Deps ToyCrates Registers Protocol RecordStore Effects.
From stdpp Require Import base tactics list gmap sorting strings.
From Stdlib Require Import ZArith NArith Strings.Byte Lia.

Definition CLOSE_GROUP_SIZE : nat := 8.
Definition close_group_majority : nat := CLOSE_GROUP_SIZE / 2 + 1.
Definition VERIFICATION_ATTEMPTS : nat := 30.
Definition PUT_RECORD_RETRIES : nat := 3.
Definition REVERIFICATION_WAIT_TIME_S : nat := 3.

(** ** Addresses *)

Section Multiaddr.
Context `{KD : KadCrate}.

(** The components of a [Multiaddr] that the code looks at. *)
Inductive Protocol :=
| Ip4 (a b c d : Z)
| Tcp (port : Z)
| P2p (p : PeerId)
| OtherProtocol (b : bytes).

#[global] Instance Protocol_eq_dec : EqDecision Protocol.
Proof. solve_decision. Defined.

Definition Multiaddr : Type := list Protocol.

(** The predicates of [Ipv4Addr]. *)
Definition ip4_not_global (a b c d : Z) : bool :=
  let is_unspecified := bool_decide (a = 0 ∧ b = 0 ∧ c = 0 ∧ d = 0)%Z in
  let is_private := bool_decide (a = 10)%Z || bool_decide (a = 172 ∧ 16 ≤ b ≤ 31)%Z || bool_decide (a = 192 ∧ b = 168)%Z in
  let is_loopback := bool_decide (a = 127)%Z in
  let is_link_local := bool_decide (a = 169 ∧ b = 254)%Z in
  let is_documentation := bool_decide (a = 192 ∧ b = 0 ∧ c = 2)%Z || bool_decide (a = 198 ∧ b = 51 ∧ c = 100)%Z
                          || bool_decide (a = 203 ∧ b = 0 ∧ c = 113)%Z in
  let is_broadcast := bool_decide (a = 255 ∧ b = 255 ∧ c = 255 ∧ d = 255)%Z in
  is_unspecified || is_private || is_loopback || is_link_local || is_documentation || is_broadcast.

Definition multiaddr_is_global (multiaddr : Multiaddr) : bool :=
  negb (existsb (λ addr, match addr with Ip4 a b c d => ip4_not_global a b c d | _ => false end) multiaddr).

(** Returns the shortened address with the peer. *)
Definition multiaddr_pop_p2p (multiaddr : Multiaddr) : Multiaddr * option PeerId :=
  match last multiaddr with
  | Some (P2p peer_id) => (take (length multiaddr - 1) multiaddr, Some peer_id)
  | _ => (multiaddr, None)
  end.

Definition multiaddr_strip_p2p (multiaddr : Multiaddr) : Multiaddr :=
  List.filter (λ p, match p with P2p _ => false | _ => true end) multiaddr.

(** [Itertools::unique]: the first of equal elements stays. *)
Definition unique (l : list Multiaddr) : list Multiaddr :=
  foldl (λ acc a, if decide (a ∈ acc) then acc else acc ++ [a]) [] l.

End Multiaddr.

Section Network.
Context `{BLS : BlsCrate, XN : XorNameCrate, KD : KadCrate, CR : CrdtsCrate}.
Context `{TK : TokenCrate, DI : DbcIdCrate, SD : !SnDbcCrate}.

(** Values of third-party error types are left out. *)
Inductive NetworkError :=
| NotEnoughCostQuotes
| NoStoreCostReturned
| InvalidCloseGroupSize
| InternalMsgChannelDropped
| ReceivedResponseDropped (id : nat)
| OutgoingResponseDropped (r : Response)
| FailedToVerifyRecordWasStored (k : RecordKey)
| ReturnedRecordDoesNotMatch (k : RecordKey)
| FailedToCreateRecordStoreDir
| Io
| TransportError
| DialError
| AlreadyDialingPeer (p : PeerId)
| OutboundError
| KademliaStoreError (e : StoreError)
| NetworkEventReceiverDropped
| ReceivedKademliaEventDropped
| SwarmCmdReceiverDropped
| SenderDropped
| NotEnoughPeers (found required : nat)
| RecordNotFound
| RecordNotEnoughCopies (r : KRecord)
| PutRecordError
| NoSwarmCmdChannelCapacity
| SigningFailed
| CircularVecPopFrontError.

#[global] Instance NetworkError_eq_dec : EqDecision NetworkError.
Proof. solve_decision. Defined.

(** What comes back from a command with a oneshot channel. *)
Inductive Reply (A : Type) :=
| NoCapacity
| Dropped
| Answer (a : A).
#[global] Arguments NoCapacity {A}.
#[global] Arguments Dropped {A}.
#[global] Arguments Answer {A} a.

Inductive NodeEvent :=
| ConnectedToNetwork
| ChunkStored (a : ChunkAddress)
| RegisterCreated (a : RegisterAddress)
| RegisterEdited (a : RegisterAddress)
| SpendStored (id : DbcId)
| ChannelClosed
| BehindNat.

(** [SwarmLocalState] of cmd.rs. *)
Record SwarmLocalState := { sls_connected_peers : list PeerId; sls_listeners : list Multiaddr }.

Inductive NetOp :=
| StartListening (addr : Multiaddr)
| Dial (addr : Multiaddr)
| GetSwarmLocalState
| GetClosestPeers (key : NetworkAddress)
| GetClosestLocalPeers (key : NetworkAddress)
| GetAllLocalPeers
| GetOurCloseGroup
| SendRequest (req : Request) (peer : PeerId)
| SendRequestIgnoreReply (req : Request) (peer : PeerId)
| SendResponse (resp : Response)
| RecordStoreHasKey (key : RecordKey)
| GetAllLocalRecordAddresses
| GetNetworkRecord (key : RecordKey)
| GetLocalStoreCost
| GetLocalRecord (key : RecordKey)
| PutRecord (record : KRecord)
| PutLocalRecord (record : KRecord)
| AddKeysToReplicationFetcher (peer : PeerId) (keys : list NetworkAddress)
| Sleep (secs : nat)
| SleepMillis (millis : nat)
| Broadcast (e : NodeEvent)
| SpawnNetworkFetch (key : RecordKey)
| SpawnDial (addrs : list Multiaddr).

(** Commands without a oneshot answer only whether there was capacity. *)
Definition NetAns (op : NetOp) : Type :=
  match op with
  | StartListening _ | Dial _ => Reply (NetworkError + unit)
  | GetSwarmLocalState => Reply SwarmLocalState
  | GetClosestPeers _ => Reply (list PeerId)
  | GetClosestLocalPeers _ | GetAllLocalPeers | GetOurCloseGroup => Reply (list PeerId)
  | SendRequest _ _ => Reply (NetworkError + Response)
  | SendRequestIgnoreReply _ _ | SendResponse _ | PutLocalRecord _ | AddKeysToReplicationFetcher _ _ => bool
  | RecordStoreHasKey _ => Reply bool
  | GetAllLocalRecordAddresses => Reply (list NetworkAddress)
  | GetNetworkRecord _ => Reply (NetworkError + KRecord)
  | GetLocalStoreCost => Reply Token
  | GetLocalRecord _ => Reply (option KRecord)
  | PutRecord _ => Reply (NetworkError + unit)
  | Sleep _ | SleepMillis _ | Broadcast _ | SpawnNetworkFetch _ | SpawnDial _ => unit
  end.

Notation NetProg := (Prog NetAns).

(** Sending the command fails without capacity; a dropped oneshot is [d]. *)
Definition await_reply {A : Type} (d : NetworkError) (r : Reply A) : Res NetworkError A :=
  match r with
  | NoCapacity => Err NoSwarmCmdChannelCapacity
  | Dropped => Err d
  | Answer a => Ok a
  end.

Definition sent (ok : bool) : Res NetworkError unit :=
  if ok then Ok tt else Err NoSwarmCmdChannelCapacity.

(** ** Sorting peers *)

(** The peers are sorted by distance to the key (a stable sort), and cut. *)
Definition sort_peers_by_key (peers : list PeerId) (key : bytes) (expected_entries : nat)
    : Res NetworkError (list PeerId) :=
  let peers := sort_by_key (λ p, kad_distance key (as_bytes (from_peer p))) peers in
  let peers := take expected_entries peers in
  if decide (length peers < CLOSE_GROUP_SIZE) then Err (NotEnoughPeers (length peers) CLOSE_GROUP_SIZE)
  else Ok peers.

Definition sort_peers_by_address (peers : list PeerId) (address : NetworkAddress) (expected_entries : nat)
    : Res NetworkError (list PeerId) :=
  sort_peers_by_key peers (as_bytes address) expected_entries.

Definition is_in_close_range (self_peer_id : PeerId) (target : NetworkAddress) (all_peers : list PeerId) : bool :=
  if decide (length all_peers ≤ CLOSE_GROUP_SIZE + 2) then true
  else match sort_peers_by_address all_peers target (CLOSE_GROUP_SIZE + 2) with
       | Ok close_group => bool_decide (self_peer_id ∈ close_group)
       | _ => true
       end.

(** ** Store cost quotes *)

Definition get_fee_from_store_cost_quotes (all_costs : list Token) (any_cost_will_do : bool)
    : Res NetworkError Token :=
  let target_cost_index := CLOSE_GROUP_SIZE / 2 in
  let all_costs := merge_sort token_le all_costs in
  if any_cost_will_do then
    match all_costs !! target_cost_index with
    | Some fee => Ok fee
    | None => ok_or (last all_costs) NotEnoughCostQuotes
    end
  else ok_or (all_costs !! target_cost_index) NotEnoughCostQuotes.

(** ** Closest peers and requests *)

Definition get_closest_peers (self_id : PeerId) (key : NetworkAddress) (client : bool)
    : NetProg NetworkError (list PeerId) :=
  r ← call (GetClosestPeers key);
  k_bucket_peers ← lift (await_reply SenderDropped r);
  let closest_peers := if client then k_bucket_peers else k_bucket_peers ++ [self_id] in
  lift (sort_peers_by_address closest_peers key CLOSE_GROUP_SIZE).

Definition send_request (req : Request) (peer : PeerId) : NetProg NetworkError Response :=
  r ← call (SendRequest req peer);
  res ← lift (await_reply SenderDropped r);
  lift (of_sum res).

(** The requests run concurrently; [peers] lists them in the order in which
    they complete.  Requests abandoned after the first success are left out of
    the trace. *)
Fixpoint send_and_get_responses (peers : list PeerId) (req : Request) (get_all_responses : bool)
    (responses : list (Res NetworkError Response)) : NetProg NetworkError (list (Res NetworkError Response)) :=
  match peers with
  | [] => Done (Ok responses)
  | peer :: rest =>
      res ← attempt (send_request req peer);
      if negb get_all_responses && is_ok res then Done (Ok [res])
      else send_and_get_responses rest req get_all_responses (responses ++ [res])
  end.

Definition cost_of (r : Res NetworkError Response) : option Token :=
  match r with Ok (Response_Query (QR_GetStoreCost (inr cost))) => Some cost | _ => None end.

(** [order] is the order in which the responses of the close nodes arrive. *)
Definition get_store_cost_from_network (order : list PeerId → list PeerId)
    (record_address : NetworkAddress) (any_cost_will_do : bool) : NetProg NetworkError Token :=
  r ← call (GetClosestPeers record_address);
  close_nodes ← lift (await_reply InternalMsgChannelDropped r);
  responses ← send_and_get_responses (order close_nodes)
                (Request_Query (Query_GetStoreCost record_address)) true [];
  lift (get_fee_from_store_cost_quotes (omap cost_of responses) any_cost_will_do).

(** ** Records *)

Definition target_matches (target_record : option KRecord) (returned : KRecord) : bool :=
  match target_record with None => true | Some t => bool_decide (t = returned) end.

(** The [while] loop, with the attempts left; at [S more] this is the
    last one exactly when [more = 0]. *)
Fixpoint get_record_loop (key : RecordKey) (target_record : option KRecord) (attempts_left : nat)
    : NetProg NetworkError KRecord :=
  match attempts_left with
  | 0 => Done (Err RecordNotFound)
  | S more =>
      r ← call (GetNetworkRecord key);
      res ← lift (await_reply InternalMsgChannelDropped r);
      let again := (_ ← call (Sleep REVERIFICATION_WAIT_TIME_S); get_record_loop key target_record more) in
      match res with
      | inr returned_record =>
          if target_matches target_record returned_record then Done (Ok returned_record)
          else if decide (more = 0) then Done (Err (ReturnedRecordDoesNotMatch (r_key returned_record)))
          else again
      | inl (RecordNotEnoughCopies returned_record) =>
          if decide (more = 0) then
            if target_matches target_record returned_record then Done (Ok returned_record)
            else Done (Err (ReturnedRecordDoesNotMatch (r_key returned_record)))
          else again
      | inl _ => if decide (more = 0) then Done (Err RecordNotFound) else again
      end
  end.

Definition total_attempts (re_attempt : bool) : nat := if re_attempt then VERIFICATION_ATTEMPTS else 1.

Definition get_record_from_network (key : RecordKey) (target_record : option KRecord) (re_attempt : bool)
    : NetProg NetworkError KRecord :=
  get_record_loop key target_record (total_attempts re_attempt).

Definition put_record_once (record : KRecord) (verify_store : bool) : NetProg NetworkError unit :=
  r ← call (PutRecord record);
  response ← lift (await_reply SenderDropped r);
  _ ← (if verify_store then
         _ ← prog_map_err (λ _, FailedToVerifyRecordWasStored (r_key record))
               (get_record_from_network (r_key record) (Some record) true);
         Done (Ok tt)
       else Done (Ok tt));
  lift (of_sum response).

Fixpoint put_record_retry (record : KRecord) (retries_left : nat) : NetProg NetworkError unit :=
  match retries_left with
  | 0 => Done (Err (FailedToVerifyRecordWasStored (r_key record)))
  | S more =>
      res ← attempt (put_record_once record true);
      match res with
      | Err (FailedToVerifyRecordWasStored _) => put_record_retry record more
      | _ => lift res
      end
  end.

Definition put_record_with_retries (record : KRecord) : NetProg NetworkError unit :=
  put_record_retry record PUT_RECORD_RETRIES.

Definition put_record (record : KRecord) (verify_store : bool) : NetProg NetworkError unit :=
  if verify_store then put_record_with_retries record else put_record_once record false.

(** The remaining handles send one command and await its answer. *)
Definition get_local_storecost : NetProg NetworkError Token :=
  r ← call GetLocalStoreCost; lift (await_reply InternalMsgChannelDropped r).
Definition get_local_record (key : RecordKey) : NetProg NetworkError (option KRecord) :=
  r ← call (GetLocalRecord key); lift (await_reply InternalMsgChannelDropped r).
Definition is_key_present_locally (key : RecordKey) : NetProg NetworkError bool :=
  r ← call (RecordStoreHasKey key); lift (await_reply InternalMsgChannelDropped r).
Definition get_all_local_record_addresses : NetProg NetworkError (list NetworkAddress) :=
  r ← call GetAllLocalRecordAddresses; lift (await_reply InternalMsgChannelDropped r).
Definition get_all_local_peers : NetProg NetworkError (list PeerId) :=
  r ← call GetAllLocalPeers; lift (await_reply InternalMsgChannelDropped r).
Definition put_local_record (record : KRecord) : NetProg NetworkError unit :=
  ok ← call (PutLocalRecord record); lift (sent ok).
Definition send_req_ignore_reply (req : Request) (peer : PeerId) : NetProg NetworkError unit :=
  ok ← call (SendRequestIgnoreReply req peer); lift (sent ok).
Definition send_response (resp : Response) : NetProg NetworkError unit :=
  ok ← call (SendResponse resp); lift (sent ok).
Definition add_keys_to_replication_fetcher (peer : PeerId) (keys : list NetworkAddress) : NetProg NetworkError unit :=
  ok ← call (AddKeysToReplicationFetcher peer keys); lift (sent ok).
Definition get_closest_local_peers (key : NetworkAddress) : NetProg NetworkError (list PeerId) :=
  r ← call (GetClosestLocalPeers key); lift (await_reply InternalMsgChannelDropped r).
Definition get_our_close_group : NetProg NetworkError (list PeerId) :=
  r ← call GetOurCloseGroup; lift (await_reply InternalMsgChannelDropped r).
Definition get_swarm_local_state : NetProg NetworkError SwarmLocalState :=
  r ← call GetSwarmLocalState; lift (await_reply SenderDropped r).
Definition start_listening (addr : Multiaddr) : NetProg NetworkError unit :=
  r ← call (StartListening addr); res ← lift (await_reply SenderDropped r); lift (of_sum res).
Definition dial_peer (addr : Multiaddr) : NetProg NetworkError unit :=
  r ← call (Dial addr); res ← lift (await_reply SenderDropped r); lift (of_sum res).

(** Sending to the close group of the destination. *)
Definition client_get_closest_peers (self_id : PeerId) (key : NetworkAddress) := get_closest_peers self_id key true.
Definition node_get_closest_peers (self_id : PeerId) (key : NetworkAddress) := get_closest_peers self_id key false.

Definition node_send_to_closest (order : list PeerId → list PeerId) (self_id : PeerId) (request : Request)
    : NetProg NetworkError (list (Res NetworkError Response)) :=
  closest_peers ← node_get_closest_peers self_id (Request_dst request);
  send_and_get_responses (order closest_peers) request true [].

Definition client_send_to_closest (order : list PeerId → list PeerId) (self_id : PeerId) (request : Request)
    (expect_all_responses : bool) : NetProg NetworkError (list (Res NetworkError Response)) :=
  closest_peers ← client_get_closest_peers self_id (Request_dst request);
  send_and_get_responses (order closest_peers) request expect_all_responses [].

Definition send_req_no_reply_to_closest (self_id : PeerId) (request : Request) : NetProg NetworkError unit :=
  closest_peers ← node_get_closest_peers self_id (Request_dst request);
  prog_fold (λ _ peer, send_req_ignore_reply request peer) tt closest_peers.

Definition send_req_no_reply_to_self_closest (self_id : PeerId) (request : Request) : NetProg NetworkError unit :=
  closest_peers ← client_get_closest_peers self_id (Request_dst request);
  prog_fold (λ _ peer, send_req_ignore_reply request peer) tt closest_peers.

End Network.

Notation NetProg := (Prog NetAns).

#[global] Arguments get_record_from_network : simpl never.
#[global] Arguments put_record_with_retries : simpl never.
#[global] Arguments VERIFICATION_ATTEMPTS : simpl never.

(** ** Lemmas *)

(** The first operation of an execution, with its answer and the rest. *)
Ltac exec_call H a tr :=
  match type of H with
  | exec (mbind _ (call ?op)) ?t _ =>
      let E := fresh in
      apply (exec_call_inv (Ans:=NetAns) op) in H; destruct H as (a & tr & E & H); subst t
  end.

Section NetworkLemmas.
Context `{BLS : BlsCrate, XN : XorNameCrate, KD : KadCrate, CR : CrdtsCrate}.
Context `{TK : TokenCrate, DI : DbcIdCrate, SD : !SnDbcCrate}.

(** The network answered a request for [key] with this record. *)
Definition network_answered (key : RecordKey) (rec : KRecord) (tr : list (Event NetAns)) : Prop :=
  existT (GetNetworkRecord key) (Answer (inr rec)) ∈ tr ∨
  existT (GetNetworkRecord key) (Answer (inl (RecordNotEnoughCopies rec))) ∈ tr.

Lemma network_answered_mono key rec tr tr' :
  (∀ ev, ev ∈ tr → ev ∈ tr') → network_answered key rec tr → network_answered key rec tr'.
Proof. intros H [?|?]; [left|right]; by apply H. Qed.

Definition is_network_get (op : NetOp) : bool := match op with GetNetworkRecord _ => true | _ => false end.
Definition is_put (op : NetOp) : bool := match op with PutRecord _ => true | _ => false end.

Definition count_ops (P : NetOp → bool) (tr : list (Event NetAns)) : nat :=
  length (List.filter (λ ev : Event NetAns, P (projT1 ev)) tr).

Lemma count_ops_app (P : NetOp → bool) tr1 tr2 :
  count_ops P (tr1 ++ tr2) = count_ops P tr1 + count_ops P tr2.
Proof. unfold count_ops. by rewrite List.filter_app, length_app. Qed.

(** What a call of [get_record_loop] with [n] attempts guarantees. *)
Definition got_record (key : RecordKey) (target : option KRecord) (n : nat)
    (tr : list (Event NetAns)) (r : Res NetworkError KRecord) : Prop :=
  count_ops is_network_get tr ≤ n ∧ count_ops is_put tr = 0 ∧
  match r with
  | Ok rec => network_answered key rec tr ∧ target_matches target rec = true
  | Err _ => True
  | Panic _ => False
  end.

Lemma got_record_again key target n op (a : NetAns op) secs tr r :
  op = GetNetworkRecord key → got_record key target n tr r →
  got_record key target (S n) (existT op a :: existT (Sleep secs) tt :: tr) r.
Proof.
  intros -> (Hn & Hp & Hr). unfold got_record, count_ops in *. cbn. split_and!; [lia|done|].
  destruct r as [rec| |]; [|done|done]. destruct Hr as [Ha Ht]. split; [|done].
  eapply network_answered_mono; [|exact Ha]. intros ev Hev. by do 2 right.
Qed.

Lemma got_record_stop key target n (a : NetAns (GetNetworkRecord key)) r :
  match r with
  | Ok rec => (a = Answer (inr rec) ∨ a = Answer (inl (RecordNotEnoughCopies rec))) ∧ target_matches target rec = true
  | Err _ => True
  | Panic _ => False
  end → got_record key target (S n) [existT (GetNetworkRecord key) a] r.
Proof.
  intros Hr. unfold got_record, count_ops. cbn. split_and!; [lia|done|].
  destruct r as [rec| |]; [|done|done]. destruct Hr as [[->| ->] Ht]; (split; [|done]).
  - left. by left.
  - right. by left.
Qed.

Lemma get_record_loop_spec key target n tr r :
  exec (get_record_loop key target n) tr r → got_record key target n tr r.
Proof.
  revert tr. induction n as [|n IH]; intros tr He; cbn [get_record_loop] in He.
  { apply exec_done_inv in He as [-> ->]. unfold got_record, count_ops. cbn. split_and!; [lia|done|done]. }
  exec_call He a tr1.
  assert (∀ tr, exec (_ ← call (Sleep REVERIFICATION_WAIT_TIME_S); get_record_loop key target n) tr r →
     got_record key target (S n) (existT (GetNetworkRecord key) a :: tr) r) as Hagain.
  { intros tr2 H. exec_call H u tr3. destruct u. apply got_record_again; [done|]. by apply IH. }
  destruct a as [| |res]; cbn in He.
  1,2: apply exec_done_inv in He as [-> ->]; by apply got_record_stop.
  assert (∀ r0, exec (Done r0) tr1 r →
    match r0 with
    | Ok rec => (res = inr rec ∨ res = inl (RecordNotEnoughCopies rec)) ∧ target_matches target rec = true
    | Err _ => True | Panic _ => False end →
    got_record key target (S n) (existT (GetNetworkRecord key) (Answer res) :: tr1) r) as Hstop.
  { intros r0 [-> ->]%exec_done_inv Hr0. apply got_record_stop. destruct r0; [|done|done].
    destruct Hr0 as [[->| ->] ?]; auto. }
  destruct res as [e|rec].
  - destruct e; try (case_decide; [by eapply Hstop|by apply Hagain]).
    case_decide; [|by apply Hagain].
    destruct (target_matches target _) eqn:Ht; (eapply Hstop; [exact He|]); cbn; auto.
  - destruct (target_matches target rec) eqn:Ht; [eapply Hstop; [exact He|]; cbn; auto|].
    case_decide; [by eapply Hstop|by apply Hagain].
Qed.

Lemma get_record_from_network_spec key target re tr r :
  exec (get_record_from_network key target re) tr r → got_record key target (total_attempts re) tr r.
Proof. unfold get_record_from_network. apply get_record_loop_spec. Qed.

Lemma count_ops_cons (P : NetOp → bool) op (a : NetAns op) tr :
  count_ops P (existT op a :: tr) = (if P op then 1 else 0) + count_ops P tr.
Proof. unfold count_ops. cbn. by destruct (P op). Qed.

(** A put that was verified: sent, then read back. *)
Definition put_verified_in (rec : KRecord) (tr : list (Event NetAns)) : Prop :=
  ∃ tr1 tr2, tr = tr1 ++ tr2 ∧ existT (PutRecord rec) (Answer (inr tt)) ∈ tr1 ∧ network_answered (r_key rec) rec tr2.

Lemma put_record_once_spec rec verify tr r :
  exec (put_record_once rec verify) tr r →
  count_ops is_put tr = 1 ∧ count_ops is_network_get tr ≤ (if verify then VERIFICATION_ATTEMPTS else 0) ∧
  match r with
  | Ok _ => existT (PutRecord rec) (Answer (inr tt)) ∈ tr ∧ (verify = true → put_verified_in rec tr)
  | Err _ => True
  | Panic _ => False
  end.
Proof.
  unfold put_record_once. intros He. exec_call He a tr1.
  destruct a as [| |resp]; cbn in He.
  1,2: apply exec_done_inv in He as [-> ->]; cbn; split_and!; [done|lia|done].
  destruct verify.
  - apply exec_bind_inv in He as [(u & t1 & t2 & -> & H1 & [-> ->]%exec_done_inv)|[(e & -> & H)|(w & -> & H)]].
    + apply exec_bind_inv in H1 as [(x & t3 & t4 & -> & H1 & [-> _]%exec_done_inv)|[(e & ? & _)|(w & ? & _)]];
        [|done|done].
      apply exec_map_err_inv in H1 as (r0 & H1 & Hr0). destruct r0 as [x0| |]; [|done|done].
      apply get_record_from_network_spec in H1 as (Hn & Hp & Ha & Ht). rewrite !app_nil_r.
      assert (x0 = rec) as -> by (cbn in Ht; by apply bool_decide_eq_true in Ht).
      rewrite !count_ops_cons. cbn [is_put is_network_get].
      split_and!; [lia|done|]. destruct resp as [e|[]]; cbn; [done|]. split; [by left|]. intros _.
      exists [existT (PutRecord rec) (Answer (inr tt))], t3. split_and!; [done|by left|done].
    + apply exec_bind_inv in H as [(x & t3 & t4 & -> & _ & [_ ?]%exec_done_inv)|[(e' & _ & H)|(w & ? & _)]];
        [done| |done].
      apply exec_map_err_inv in H as (r0 & H & _). apply get_record_from_network_spec in H as (Hn & Hp & _).
      rewrite !count_ops_cons. cbn [is_put is_network_get].
      split_and!; [lia|done|done].
    + apply exec_bind_inv in H as [(x & t3 & t4 & -> & _ & [_ ?]%exec_done_inv)|[(e' & ? & _)|(w' & _ & H)]];
        [done|done|].
      apply exec_map_err_inv in H as (r0 & H & Hr0). apply get_record_from_network_spec in H as (_ & _ & Hr).
      by destruct r0.
  - cbn in He. apply exec_done_inv in He as [-> ->]. split_and!; [done|cbn; lia|].
    destruct resp as [e|[]]; cbn; [done|]. split; [by left|done].
Qed.

Lemma put_record_retry_spec rec n tr r :
  exec (put_record_retry rec n) tr r →
  count_ops is_put tr ≤ n ∧ count_ops is_network_get tr ≤ n * VERIFICATION_ATTEMPTS ∧
  match r with Ok _ => ∃ tr0, put_verified_in rec tr0 ∧ tr0 `suffix_of` tr | Err _ => True | Panic _ => False end.
Proof.
  revert tr. induction n as [|n IH]; intros tr He; cbn [put_record_retry] in He.
  { apply exec_done_inv in He as [-> ->]. cbn. split_and!; [lia|lia|done]. }
  apply exec_bind_inv in He as [(res & t1 & t2 & -> & H1 & H2)|[(e & -> & H)|(w & -> & H)]].
  - apply exec_attempt_inv in H1 as (r0 & H1 & Hr0). apply put_record_once_spec in H1 as (Hp & Hg & Hok).
    rewrite !count_ops_app. destruct r0 as [[]|e|]; [| |done]; injection Hr0 as ->.
    + apply exec_done_inv in H2 as [-> ->]. cbn. split_and!; [lia|lia|].
      exists t1. rewrite app_nil_r. split; [by apply Hok|done].
    + assert (count_ops is_put t2 ≤ n ∧ count_ops is_network_get t2 ≤ n * VERIFICATION_ATTEMPTS ∧
        match r with Ok _ => ∃ tr0, put_verified_in rec tr0 ∧ tr0 `suffix_of` t2 | Err _ => True | Panic _ => False end)
        as (Hp2 & Hg2 & Hr2).
      { destruct e; try (apply exec_done_inv in H2 as [-> ->]; cbn; split_and!; [lia|lia|done]). by apply IH. }
      split_and!; [lia|lia|]. destruct r; [|done|done]. destruct Hr2 as (tr0 & Hv & Hs).
      exists tr0. split; [done|]. by apply suffix_app_r.
  - by apply exec_attempt_inv in H as ([] & _ & ?).
  - apply exec_attempt_inv in H as (r0 & H & Hr0). apply put_record_once_spec in H as (_ & _ & Hok).
    by destruct r0.
Qed.

Lemma put_verified_in_mono rec tr tr' :
  tr `sublist_of` tr' → put_verified_in rec tr → put_verified_in rec tr'.
Proof.
  intros Hs (t1 & t2 & -> & Hp & Ha). apply sublist_app_l in Hs as (k1 & k2 & -> & H1 & H2).
  exists k1, k2. split_and!; [done|by eapply elem_of_sublist|].
  eapply network_answered_mono; [|exact Ha]. intros ev Hev. by eapply elem_of_sublist.
Qed.

(** What a caller of [put_record] knows when it returns. *)
Definition record_put (rec : KRecord) (verify : bool) (tr : list (Event NetAns)) : Prop :=
  existT (PutRecord rec) (Answer (inr tt)) ∈ tr ∧ (verify = true → put_verified_in rec tr).

Lemma record_put_mono rec verify tr tr' :
  tr `sublist_of` tr' → record_put rec verify tr → record_put rec verify tr'.
Proof.
  intros Hs [Hp Hv]. split; [by eapply elem_of_sublist|].
  intros H. eapply put_verified_in_mono; [done|by apply Hv].
Qed.

Lemma put_record_outcome rec verify tr r :
  exec (put_record rec verify) tr r →
  match r with Ok _ => record_put rec verify tr | Err _ => True | Panic _ => False end.
Proof.
  unfold put_record, put_record_with_retries. destruct verify; intros He.
  - apply put_record_retry_spec in He as (_ & _ & Hr). destruct r as [[]| |]; [|done|done].
    destruct Hr as (tr0 & Hv & [t ->]).
    assert (put_verified_in rec (t ++ tr0)) as Hv' by (eapply put_verified_in_mono; [|done]; by apply sublist_inserts_l).
    split; [|done]. destruct Hv' as (t1 & t2 & -> & Hp & _). apply elem_of_app. by left.
  - apply put_record_once_spec in He as (_ & _ & Hr). destruct r as [[]| |]; [|done|done]. by destruct Hr.
Qed.

Lemma put_record_Ok rec verify tr u : exec (put_record rec verify) tr (Ok u) → record_put rec verify tr.
Proof. apply put_record_outcome. Qed.

End NetworkLemmas.

(** ** Lemmas on sorted lists *)

Section SortedLemmas.
Context `{BLS : BlsCrate, XN : XorNameCrate, KD : KadCrate, CR : CrdtsCrate}.
Context `{TK : TokenCrate, DI : DbcIdCrate, SD : !SnDbcCrate}.

Lemma filter_all_length {A} (P : A → Prop) `{∀ x, Decision (P x)} (l1 l2 : list A) :
  Forall P l1 → length l1 ≤ length (filter P (l1 ++ l2)).
Proof.
  intros Hl. rewrite filter_app, length_app.
  assert (filter P l1 = l1) as -> by (induction Hl; [done|]; rewrite filter_cons_True by done; by f_equal). lia.
Qed.

Lemma sorted_split {A} (R : relation A) (l : list A) i x :
  (∀ y, R y y) → StronglySorted R l → l !! i = Some x →
  Forall (λ y, R y x) (take (S i) l) ∧ Forall (λ y, R x y) (drop i l).
Proof.
  intros Hrefl Hs. revert i. induction Hs as [|y l Hs IH Hy]; intros i Hi; [done|].
  destruct i as [|i]; cbn in Hi.
  - injection Hi as ->. split; [by repeat constructor|]. by constructor.
  - destruct (IH i Hi) as [H1 H2]. split; [|done]. change (take (S (S i)) (y :: l)) with (y :: take (S i) l).
    constructor; [|done]. rewrite Forall_forall in Hy. apply Hy. by eapply list_elem_of_lookup_2.
Qed.

Definition quotes_at_most (fee : Token) (l : list Token) : nat := length (filter (λ q, token_le q fee) l).
Definition quotes_at_least (fee : Token) (l : list Token) : nat := length (filter (λ q, token_le fee q) l).

Lemma nth_quote (l : list Token) i fee :
  merge_sort token_le l !! i = Some fee →
  fee ∈ l ∧ S i ≤ quotes_at_most fee l ∧ length l - i ≤ quotes_at_least fee l.
Proof.
  intros Hi. pose proof (merge_sort_Permutation token_le l) as Hp.
  assert (∀ y : Token, token_le y y) as Hrefl by (intros y; unfold token_le; lia).
  destruct (sorted_split token_le _ i fee Hrefl (StronglySorted_merge_sort token_le l) Hi) as [H1 H2].
  unfold quotes_at_most, quotes_at_least. split_and!.
  - rewrite <- Hp. by eapply list_elem_of_lookup_2.
  - rewrite <- Hp, <- (take_drop (S i) (merge_sort token_le l)).
    etrans; [|apply filter_all_length; exact H1]. apply lookup_lt_Some in Hi. rewrite length_take. lia.
  - rewrite <- Hp, <- (take_drop i (merge_sort token_le l)), Permutation_app_comm.
    etrans; [|apply filter_all_length; exact H2]. rewrite length_app, length_take, !length_drop. lia.
Qed.

End SortedLemmas.

(** ** Properties *)

Section Properties.
Context `{BLS : BlsCrate, XN : XorNameCrate, KD : KadCrate, CR : CrdtsCrate}.
Context `{TK : TokenCrate, DI : DbcIdCrate, SD : !SnDbcCrate}.

(** the fee is the fifth lowest quote: at least five of the nodes that
    answered ask no more than it, and all but four ask no less; with fewer than
    five quotes there is an error, unless any cost will do, when the highest
    quote is taken and only an empty list of quotes is an error. *)
Theorem fee_is_majority_quote (l : list Token) :
  match get_fee_from_store_cost_quotes l false with
  | Ok fee => fee ∈ l ∧ 5 ≤ quotes_at_most fee l ∧ length l - 4 ≤ quotes_at_least fee l
  | Err e => e = NotEnoughCostQuotes ∧ length l < 5
  | Panic _ => False
  end ∧
  match get_fee_from_store_cost_quotes l true with
  | Ok fee => fee ∈ l ∧ Nat.min 5 (length l) ≤ quotes_at_most fee l
  | Err e => e = NotEnoughCostQuotes ∧ l = []
  | Panic _ => False
  end.
Proof.
  pose proof (Permutation_length (merge_sort_Permutation token_le l)) as Hlen.
  unfold get_fee_from_store_cost_quotes. change (CLOSE_GROUP_SIZE / 2) with 4.
  destruct (merge_sort token_le l !! 4) as [fee|] eqn:Hi; cbn [ok_or].
  - destruct (nth_quote l 4 fee Hi) as (Hin & H1 & H2). split_and!; try done. lia.
  - apply lookup_ge_None in Hi. split; [split; [done|lia]|].
    destruct (last (merge_sort token_le l)) as [fee|] eqn:Hl; cbn [ok_or].
    + rewrite last_lookup in Hl. destruct (nth_quote l _ fee Hl) as (Hin & H1 & _).
      split; [done|]. rewrite Hlen in H1. lia.
    + split; [done|]. apply last_None in Hl. rewrite Hl in Hlen. by destruct l.
Qed.

(** sorting peers gives the closest ones: the result is the requested
    number of them (fewer if there are fewer), every other peer is at least as
    far from the key, and fewer than a close group is an error; and a node
    leaves a record to others only if at least ten known peers are at least as
    close to it. *)
Theorem closest_peers_exact (peers : list PeerId) (key : bytes) (n : nat) :
  match sort_peers_by_key peers key n with
  | Ok res => CLOSE_GROUP_SIZE ≤ length res ∧ length res = Nat.min n (length peers) ∧
      ∃ rest, peers ≡ₚ res ++ rest ∧
        ∀ p q, p ∈ res → q ∈ rest →
          (kad_distance key (peer_to_bytes p) ≤ kad_distance key (peer_to_bytes q))%N
  | Err e => e = NotEnoughPeers (Nat.min n (length peers)) CLOSE_GROUP_SIZE ∧
             Nat.min n (length peers) < CLOSE_GROUP_SIZE
  | Panic _ => False
  end ∧
  (∀ self target, self ∈ peers → is_in_close_range self target peers = false →
     10 ≤ length (filter (λ p, (kad_distance (as_bytes target) (peer_to_bytes p)
                                 ≤ kad_distance (as_bytes target) (peer_to_bytes self))%N) peers)).
Proof.
  assert (∀ k (f : PeerId → N), length (take k (sort_by_key f peers)) = Nat.min k (length peers)) as Hlen.
  { intros k f. by rewrite length_take, sort_by_key_perm. }
  assert (∀ k (f : PeerId → N), peers ≡ₚ take k (sort_by_key f peers) ++ drop k (sort_by_key f peers)) as Hperm.
  { intros k f. by rewrite take_drop, sort_by_key_perm. }
  split.
  - unfold sort_peers_by_key. rewrite Hlen. case_decide as Hd; [done|]. split_and!; [rewrite Hlen; lia|by rewrite Hlen|].
    eexists. split; [apply Hperm|]. intros p q Hp Hq. exact (sort_by_key_take_drop _ _ _ _ _ Hp Hq).
  - intros self target Hself. unfold is_in_close_range, sort_peers_by_address, sort_peers_by_key.
    case_decide as Hmany; [done|]. rewrite Hlen, decide_False by (unfold CLOSE_GROUP_SIZE in *; lia).
    intros Hout%bool_decide_eq_false.
    set (f := λ p : PeerId, kad_distance (as_bytes target) (peer_to_bytes p)).
    change (λ p : PeerId, kad_distance (as_bytes target) (as_bytes (from_peer p))) with f in Hout.
    pose proof (Hperm (CLOSE_GROUP_SIZE + 2) f) as Hp. rewrite Hp in Hself |- *.
    apply elem_of_app in Hself as [Hin|Hin]; [done|].
    etrans; [|apply filter_all_length].
    + rewrite Hlen. unfold CLOSE_GROUP_SIZE in *. lia.
    + apply Forall_forall. intros q Hq. exact (sort_by_key_take_drop f _ _ _ _ Hq Hin).
Qed.

(** getting a record asks the network at most 30 times (once without
    re-attempts), never writes, and returns only a record with which the
    network answered for this key and which equals the target, if one was
    given. *)
Theorem get_record_sound key target re_attempt tr r :
  exec (get_record_from_network key target re_attempt) tr r →
  count_ops is_network_get tr ≤ (if re_attempt then 30 else 1) ∧ count_ops is_put tr = 0 ∧
  match r with
  | Ok rec => network_answered key rec tr ∧ (∀ t, target = Some t → rec = t)
  | Err _ => True
  | Panic _ => False
  end.
Proof.
  intros (Hn & Hp & Hr)%get_record_from_network_spec. split_and!; [by destruct re_attempt|done|].
  destruct r as [rec| |]; [|done|done]. destruct Hr as [Ha Ht]. split; [done|].
  intros t ->. cbn in Ht. by apply bool_decide_eq_true in Ht.
Qed.

(** C25: a put with verification makes at most three attempts of at most 30
    reads each, and when it succeeds the network accepted the record and then
    answered a read of its key with exactly that record. *)
Theorem put_record_verified rec tr r :
  exec (put_record rec true) tr r →
  count_ops is_put tr ≤ 3 ∧ count_ops is_network_get tr ≤ 90 ∧
  match r with
  | Ok _ => ∃ tr0 tr1 tr2, tr = tr0 ++ tr1 ++ tr2 ∧
      existT (PutRecord rec) (Answer (inr tt)) ∈ tr1 ∧ network_answered (r_key rec) rec tr2
  | Err _ => True
  | Panic _ => False
  end.
Proof.
  unfold put_record, put_record_with_retries. intros (Hp & Hg & Hr)%put_record_retry_spec.
  split_and!; [done|done|]. destruct r as [u| |]; [|done|done].
  destruct Hr as (tr' & (tr1 & tr2 & -> & H1 & H2) & [tr0 ->]). by exists tr0, tr1, tr2.
Qed.

End Properties.

(** ** The properties at concrete values *)

(** An environment that finds a record at the second request. *)
Definition toy_network (rec : KRecord) (n : nat) (op : NetOp) : nat * NetAns op :=
  (match op with GetNetworkRecord _ => S n | _ => n end,
   match op return NetAns op with
   | GetNetworkRecord k => if decide (n = 0) then Answer (inl RecordNotFound) else Answer (inr rec)
   | PutRecord _ => Answer (inr tt)
   | GetClosestPeers _ | GetClosestLocalPeers _ | GetAllLocalPeers | GetOurCloseGroup => Dropped
   | SendRequest _ _ => Dropped
   | SendRequestIgnoreReply _ _ | SendResponse _ | PutLocalRecord _ | AddKeysToReplicationFetcher _ _ => true
   | RecordStoreHasKey _ => Answer false
   | GetAllLocalRecordAddresses => Dropped
   | GetLocalStoreCost => Answer (toy_tok 2)
   | GetLocalRecord _ => Answer None
   | Sleep _ | SleepMillis _ | Broadcast _ | SpawnNetworkFetch _ | SpawnDial _ => tt
   | StartListening _ | Dial _ => Answer (inr tt)
   | GetSwarmLocalState => Dropped
   end).

Definition toy_put_run : list (Event NetAns) * Res NetworkError unit :=
  run (toy_network (toy_rec Byte.x01 Byte.xaa)) 0 (put_record (toy_rec Byte.x01 Byte.xaa) true).

Definition toy_get_run : list (Event NetAns) * Res NetworkError KRecord :=
  run (toy_network (toy_rec Byte.x01 Byte.xaa)) 0 (get_record_from_network [Byte.x01] None true).

Lemma get_record_sound_witness :
  network_answered [Byte.x01] (toy_rec Byte.x01 Byte.xaa) toy_get_run.1.
Proof.
  assert (toy_get_run.2 = Ok (toy_rec Byte.x01 Byte.xaa)) as E by by_compute.
  destruct (get_record_sound [Byte.x01] None true toy_get_run.1 toy_get_run.2) as (_ & _ & H);
    [apply run_exec|]. rewrite E in H. exact (proj1 H).
Defined.

Lemma put_record_verified_witness :
  count_ops is_put toy_put_run.1 ≤ 3.
Proof.
  exact (proj1 (put_record_verified (toy_rec Byte.x01 Byte.xaa) toy_put_run.1 toy_put_run.2
                  (run_exec _ _ _))).
Defined.

Definition toy_peers : list PeerId :=
  [Byte.x01; Byte.x02; Byte.x03; Byte.x04; Byte.x05; Byte.x06; Byte.x07; Byte.x08; Byte.x09; Byte.x0a; Byte.x0b].

Definition toy_far : PeerId := Byte.x0b.

Lemma closest_peers_exact_witness :
  10 ≤ length (filter (λ p, (kad_distance (as_bytes (NA_RecordKey [Byte.x00])) (peer_to_bytes p)
                 ≤ kad_distance (as_bytes (NA_RecordKey [Byte.x00])) (peer_to_bytes toy_far))%N)
               toy_peers).
Proof.
  destruct (closest_peers_exact toy_peers [] 8) as [_ H].
  apply (H toy_far (NA_RecordKey [Byte.x00])); by_compute.
Defined.
