(* ===== verification/NodeValidation.v ===== *)
(** * sn_node: validating and storing records

    - [aggregate_spends], [check_parent_spends], [validate_parent_spends]:
      src/sn_node/src/spends.rs;
    - [get_spend_from_network], [current_storecost], [get_replicated_data]:
      src/sn_node/src/get_validation.rs;
    - [validate_and_store_record] and what it calls:
      src/sn_node/src/put_validation.rs.

    These are programs over the network operations of [Network]; the
    environment chooses every answer.  The result order of the tasks of a
    [JoinSet] and the iteration order of a [HashSet] are arguments.  The
    genesis DBC is the argument [genesis], the value of the lazily built static
    ([Transfers.GENESIS_DBC]).

    The main theorems: whatever the network answers, a record is only stored
    under the key of its own content after the checks of its kind; a node never
    replaces a register by one that lacks operations it had; and the two ways
    in which the parent check of a spend is skipped. *)

From S2P Require Import Prelude Deps ToyCrates Registers Protocol Transfers RecordStore Payments Effects Network.
From stdpp Require Import base tactics list gmap sorting strings.
From Stdlib Require Import ZArith NArith Strings.Byte Lia.

Section Spends.
Context `{BLS : BlsCrate, TK : TokenCrate, DI : DbcIdCrate, SD : !SnDbcCrate, DC : !DbcCrate}.
Context (genesis : Dbc).

(** ** spends.rs *)

(** The id is the expected one and the signature is valid. *)
Definition spend_valid (valid_dbc_id : DbcId) (s : SignedSpend) : Prop :=
  spend_dbc_id s = valid_dbc_id ∧ spend_verify s (spent_tx_hash s) = true.

#[global] Instance spend_valid_dec id s : Decision (spend_valid id s).
Proof. unfold spend_valid. apply _. Defined.

Definition aggregate_spends (spends : list SignedSpend) (valid_dbc_id : DbcId) : list SignedSpend :=
  let spends := elements (list_to_set spends : gset SignedSpend) in
  take 2 (merge_sort ord_le (filter (spend_valid valid_dbc_id) spends)).

(** [is_genesis_parent_tx(..) && signed_spend.dbc_id() == &GENESIS_DBC.id]. *)
Definition is_genesis_spend (s : SignedSpend) : bool :=
  bool_decide (dbc_creation_tx s = dbc_src_tx genesis) && bool_decide (spend_dbc_id s = dbc_id_of genesis).

Definition validate_parent_spends (s : SignedSpend) (parent_spends : gset SignedSpend) : Res ProtocolError unit :=
  _ ← try_for_each (λ parent_spend,
        if decide (dbc_creation_tx_hash s ≠ spent_tx_hash parent_spend) then Err SpendParentTxInvalid else Ok tt)
      (btree_iter parent_spends);
  if verify_against_inputs_spent (dbc_creation_tx s) parent_spends then Ok tt else Err SpendParentTxInvalid.

Definition check_parent_spends (parent_spends : gset SignedSpend) (s : SignedSpend) : Res ProtocolError unit :=
  if is_genesis_spend s then Ok tt
  else if negb (existsb (λ o, bool_decide (output_dbc_id o = spend_dbc_id s)) (tx_outputs (dbc_creation_tx s)))
  then Err SpendParentTxInvalid
  else validate_parent_spends s parent_spends.

End Spends.

Section Node.
Context `{BLS : BlsCrate, XN : XorNameCrate, KD : KadCrate, CR : CrdtsCrate, MK : MerkleCrate}.
Context `{TK : TokenCrate, DI : DbcIdCrate, SD : !SnDbcCrate, DC : !DbcCrate, RP : !RegisterParams}.
Context `{RH : RmpHeader, RC : Rmp (bytes * PaymentProof), RS : Rmp (list SignedSpend), RR : Rmp SignedRegister}.
Context (bld : Build) (genesis : Dbc) (self_peer_id : PeerId).
(** The order in which the tasks of a [JoinSet] complete, and that of a [HashSet]. *)
Context (join_order : list DbcId → list DbcId) (hash_order : gset SignedSpend → list SignedSpend).

(** ** get_validation.rs *)

Definition current_storecost : NetProg ProtocolError Token :=
  prog_map_err (λ _, GetStoreCostFailed) get_local_storecost.

Definition get_spend_from_network (address : DbcAddress) (re_attempt : bool) : NetProg ProtocolError SignedSpend :=
  let key := to_record_key (from_dbc_address address) in
  record ← prog_map_err (λ _, SpendNotFound address) (get_record_from_network key None re_attempt);
  header ← lift (map_err (λ _, SpendNotFound address) (RecordHeader_from_record record));
  match rh_kind header with
  | RK_DbcSpend =>
      spends ← lift (map_err (λ _, SpendNotFound address) (try_deserialize_record (T:=list SignedSpend) record));
      match spends with
      | one :: two :: _ => lift (Err (DoubleSpendAttempt one two))
      | [one] => lift (Ok one)
      | [] => lift (Err (SpendNotFound address))
      end
  | _ => lift (Err (RecordKindMismatch RK_DbcSpend))
  end.

Definition get_replicated_data (address : NetworkAddress) : NetProg ProtocolError ReplicatedData :=
  let error := ReplicatedDataNotFound (from_peer self_peer_id) address in
  record_key ← lift (ok_or (as_record_key address) error);
  record ← prog_map_err (λ _, error) (get_record_from_network record_key None false);
  header ← lift (map_err (λ _, error) (RecordHeader_from_record record));
  match rh_kind header with
  | RK_Chunk =>
      c ← lift (map_err (λ _, error) (try_deserialize_record (T:=ChunkWithPayment) record));
      lift (Ok (RD_Chunk c))
  | RK_DbcSpend =>
      spends ← lift (map_err (λ _, error) (try_deserialize_record (T:=list SignedSpend) record));
      lift (Ok (RD_DbcSpend spends))
  | RK_Register =>
      register ← lift (map_err (λ _, error) (try_deserialize_record (T:=SignedRegister) record));
      lift (Ok (RD_Register register))
  end.

(** ** put_validation.rs *)

(** One completed task of the loop over the results. *)
Definition payment_task (addr_name : XorName) (payment_tx : option DbcTransaction) (dbc_id : DbcId)
    : NetProg ProtocolError (option DbcTransaction) :=
  result ← join_task (signed_spend ← get_spend_from_network (DbcAddress_from_dbc_id dbc_id) true;
                      lift (Ok (spent_tx signed_spend)));
  match result with
  | Panic _ => lift (Err (ChunkNotStored addr_name))
  | Err e => lift (Err e)
  | Ok tx =>
      match payment_tx with
      | Some tx0 => if decide (tx ≠ tx0) then lift (Err (PaymentProofTxMismatch addr_name))
                    else lift (Ok payment_tx)
      | None => lift (Ok (Some tx))
      end
  end.

Definition chunk_payment_validation (c : ChunkWithPayment) (validate_payment_amount : bool)
    : NetProg ProtocolError unit :=
  let payment := cwp_payment c in
  let addr_name := chunk_name (cwp_chunk c) in
  payment_tx ← prog_fold (payment_task addr_name) None (join_order (spent_ids payment));
  match payment_tx with
  | Some tx =>
      acceptable_fee ← prog_map_err (λ _, ChunkNotStored addr_name) get_local_storecost;
      match verify_fee_output_and_proof bld addr_name acceptable_fee tx (audit_trail payment) (proof_path payment) with
      | Ok _ => lift (Ok tt)
      | Err (PaymentProofInsufficientAmount paid expected) =>
          if validate_payment_amount then lift (Err (PaymentProofInsufficientAmount paid expected))
          else lift (Ok tt)
      | Err error => lift (Err error)
      | Panic w => lift (Panic w)
      end
  | None => lift (Err (PaymentProofWithoutInputs addr_name))
  end.

Definition validate_and_store_chunk (c : ChunkWithPayment) (validate_payment_amount : bool)
    : NetProg ProtocolError CmdOk :=
  let chunk_addr := chunk_address (cwp_chunk c) in
  let name := chunk_name (cwp_chunk c) in
  let key := to_record_key (from_chunk_address chunk_addr) in
  present_locally ← prog_map_err (λ _, ChunkNotStored name) (is_key_present_locally key);
  if present_locally : bool then lift (Ok DataAlreadyPresent)
  else
    _ ← chunk_payment_validation c validate_payment_amount;
    value ← lift (try_serialize_record c RK_Chunk);
    _ ← prog_map_err (λ _, ChunkNotStored name) (put_local_record {| r_key := key; r_value := value |});
    _ ← call (Broadcast (ChunkStored chunk_addr));
    lift (Ok StoredSuccessfully).

Definition register_validation (register : SignedRegister) (present_locally : bool)
    : NetProg ProtocolError (option SignedRegister) :=
  let reg_addr := SignedRegister_address register in
  match SignedRegister_verify register with
  | Err _ => lift (Err (RegisterInvalid reg_addr))
  | Panic w => lift (Panic w)
  | Ok _ =>
      if negb present_locally then lift (Ok (Some register))
      else
        let key := to_record_key (from_register_address reg_addr) in
        maybe_record ← prog_map_err (λ _, RegisterNotStored reg_addr) (get_local_record key);
        match maybe_record with
        | None => lift (Err (RegisterNotStored reg_addr))
        | Some record =>
            local_register ← lift (try_deserialize_record (T:=SignedRegister) record);
            let '(merged_register, res) := verified_merge register local_register in
            _ ← lift (map_err RegisterError res);
            if decide (merged_register = local_register) then lift (Ok None)
            else lift (Ok (Some merged_register))
        end
  end.

Definition validate_and_store_register (register : SignedRegister) : NetProg ProtocolError CmdOk :=
  let reg_addr := SignedRegister_address register in
  let key := to_record_key (from_register_address reg_addr) in
  present_locally ← prog_map_err (λ _, RegisterNotStored reg_addr) (is_key_present_locally key);
  updated ← register_validation register present_locally;
  match updated with
  | None => lift (Ok DataAlreadyPresent)
  | Some updated_register =>
      value ← lift (try_serialize_record updated_register RK_Register);
      _ ← prog_map_err (λ _, RegisterNotStored reg_addr) (put_local_record {| r_key := key; r_value := value |});
      lift (Ok StoredSuccessfully)
  end.

(** The spends to validate when a record is held already: [None] when there is
    nothing new. *)
Definition merge_with_local (signed_spends : list SignedSpend) (dbc_id : DbcId)
    : NetProg ProtocolError (option (list SignedSpend)) :=
  let dbc_addr := DbcAddress_from_dbc_id dbc_id in
  let record_key := to_record_key (from_dbc_address dbc_addr) in
  local_record ← prog_map_err (λ _, SpendNotStored) (get_local_record record_key);
  match local_record with
  | None => lift (Err (SpendNotFound dbc_addr))
  | Some local_record =>
      local_header ← lift (RecordHeader_from_record local_record);
      if decide (rh_kind local_header ≠ RK_DbcSpend) then lift (Err (RecordKindMismatch RK_DbcSpend))
      else
        local_signed_spends ← lift (try_deserialize_record (T:=list SignedSpend) local_record);
        let newly_seen_spends : gset SignedSpend :=
          list_to_set (filter (λ s, s ∉ local_signed_spends) signed_spends) in
        if decide (newly_seen_spends = ∅) then lift (Ok None)
        else lift (Ok (Some (local_signed_spends ++ hash_order newly_seen_spends)))
  end.

(** The parents of a spend, fetched from the network one after the other. *)
Definition fetch_parents (s : SignedSpend) : NetProg ProtocolError (gset SignedSpend) :=
  if is_genesis_spend genesis s then lift (Ok ∅)
  else prog_fold (λ (parents : gset SignedSpend) input,
         p ← get_spend_from_network (DbcAddress_from_dbc_id (input_dbc_id input)) true;
         lift (Ok ({[ p ]} ∪ parents)))
       ∅ (tx_inputs (dbc_creation_tx s)).

(** The checks on a single spend, then aggregation with what the network holds. *)
Definition validate_single_spend (s : SignedSpend) (dbc_id : DbcId) : NetProg ProtocolError (list SignedSpend) :=
  if negb (spend_verify s (spent_tx_hash s)) then lift (Err SpendSignatureInvalid)
  else
    _ ← lift (verify_fee_output_id (spent_tx s) false);
    parent_spends ← fetch_parents s;
    _ ← lift (check_parent_spends genesis parent_spends s);
    network_spend ← attempt (get_spend_from_network (DbcAddress_from_dbc_id dbc_id) false);
    let spends := match network_spend with Ok spend => [spend] | _ => [] end in
    lift (Ok (aggregate_spends (spends ++ [s]) dbc_id)).

Definition signed_spend_validation (signed_spends : list SignedSpend) (dbc_id : DbcId) (present_locally : bool)
    : NetProg ProtocolError (option (list SignedSpend)) :=
  to_check ← (if present_locally then merge_with_local signed_spends dbc_id else lift (Ok (Some signed_spends)));
  match to_check with
  | None => lift (Ok None)
  | Some [] => lift (Err SpendNotStored)
  | Some [s] => spends ← validate_single_spend s dbc_id; lift (Ok (Some spends))
  | Some spends => lift (Ok (Some (aggregate_spends spends dbc_id)))
  end.

Definition validate_and_store_spends (signed_spends : list SignedSpend) : NetProg ProtocolError CmdOk :=
  match signed_spends with
  | [] => lift (Err SpendNotStored)
  | first :: elements =>
      let dbc_id := spend_dbc_id first in
      if negb (forallb (λ s, bool_decide (spend_dbc_id s = dbc_id)) elements) then lift (Err SpendNotStored)
      else
        let dbc_addr := DbcAddress_from_dbc_id dbc_id in
        let key := to_record_key (from_dbc_address dbc_addr) in
        present_locally ← prog_map_err (λ _, SpendNotStored) (is_key_present_locally key);
        validated ← signed_spend_validation signed_spends dbc_id present_locally;
        match validated with
        | None => lift (Ok DataAlreadyPresent)
        | Some validated_spends =>
            value ← lift (try_serialize_record validated_spends RK_DbcSpend);
            _ ← prog_map_err (λ _, SpendNotStored) (put_local_record {| r_key := key; r_value := value |});
            match validated_spends with
            | spend_one :: spend_two :: _ => lift (Err (DoubleSpendAttempt spend_one spend_two))
            | _ => lift (Ok StoredSuccessfully)
            end
        end
  end.

Definition validate_and_store_record (record : KRecord) (validate_payment : bool) : NetProg ProtocolError CmdOk :=
  record_header ← lift (RecordHeader_from_record record);
  match rh_kind record_header with
  | RK_Chunk =>
      c ← lift (try_deserialize_record (T:=ChunkWithPayment) record);
      let key := to_record_key (from_chunk_address (chunk_address (cwp_chunk c))) in
      if decide (r_key record ≠ key) then lift (Err RecordKeyMismatch)
      else validate_and_store_chunk c validate_payment
  | RK_DbcSpend =>
      signed_spends ← lift (try_deserialize_record (T:=list SignedSpend) record);
      if negb (forallb (λ s, bool_decide
            (r_key record = to_record_key (from_dbc_address (DbcAddress_from_dbc_id (spend_dbc_id s))))) signed_spends)
      then lift (Err RecordKeyMismatch)
      else validate_and_store_spends signed_spends
  | RK_Register =>
      register ← lift (try_deserialize_record (T:=SignedRegister) record);
      let key := to_record_key (from_register_address (SignedRegister_address register)) in
      if decide (r_key record ≠ key) then lift (Err RecordKeyMismatch)
      else validate_and_store_register register
  end.

End Node.

(** ** Lemmas on spends *)

Section SpendLemmas.
Context `{BLS : BlsCrate, TK : TokenCrate, DI : DbcIdCrate, SD : !SnDbcCrate, DC : !DbcCrate}.

(** The valid spends of a list, once each and in order. *)
Definition valid_spends (spends : list SignedSpend) (id : DbcId) : list SignedSpend :=
  merge_sort ord_le (filter (spend_valid id) (elements (list_to_set spends : gset SignedSpend))).

Lemma elem_of_valid_spends spends id s :
  s ∈ valid_spends spends id ↔ s ∈ spends ∧ spend_valid id s.
Proof.
  unfold valid_spends. rewrite merge_sort_Permutation, list_elem_of_filter, elem_of_elements, elem_of_list_to_set.
  tauto.
Qed.

Lemma NoDup_valid_spends spends id : NoDup (valid_spends spends id).
Proof. unfold valid_spends. rewrite merge_sort_Permutation. apply NoDup_filter, NoDup_elements. Qed.

Lemma aggregate_eq spends id : aggregate_spends spends id = take 2 (valid_spends spends id).
Proof. done. Qed.

Lemma elem_of_aggregate spends id s : s ∈ aggregate_spends spends id → s ∈ spends ∧ spend_valid id s.
Proof.
  rewrite aggregate_eq. intros Hs. apply elem_of_valid_spends.
  rewrite <- (take_drop 2 (valid_spends spends id)). apply elem_of_app. by left.
Qed.

(** A list that holds one spend, any number of times, aggregates to that spend. *)
Lemma aggregate_single spends id s :
  s ∈ spends → (∀ x, x ∈ spends → x = s) → spend_valid id s → aggregate_spends spends id = [s].
Proof.
  intros Hin Hall Hv. rewrite aggregate_eq.
  assert (valid_spends spends id ≡ₚ [s]) as Hp.
  { apply NoDup_Permutation; [apply NoDup_valid_spends|apply NoDup_singleton|].
    intros x. rewrite elem_of_valid_spends, list_elem_of_singleton. split; [|by intros ->].
    intros [Hx _]. by apply Hall. }
  symmetry in Hp. apply Permutation_singleton_l in Hp. by rewrite <- Hp.
Qed.

End SpendLemmas.

(** ** Lemmas on the node's programs *)

Section NodeLemmas.
Context `{BLS : BlsCrate, XN : XorNameCrate, KD : KadCrate, CR : CrdtsCrate, MK : MerkleCrate}.
Context `{TK : TokenCrate, DI : DbcIdCrate, SD : !SnDbcCrate, DC : !DbcCrate, RP : !RegisterParams}.
Context `{RH : RmpHeader, RC : Rmp (bytes * PaymentProof), RS : Rmp (list SignedSpend), RR : Rmp SignedRegister}.

Notation Trace := (list (Event NetAns)).

(** An invariant on what is stored; nothing else is constrained. *)
Definition stores (P : Trace → KRecord → Prop) : Trace → NetOp → Prop := λ h op,
  match op with PutLocalRecord r => P h r | _ => True end.

Definition spend_key (id : DbcId) : RecordKey := to_record_key (from_dbc_address (DbcAddress_from_dbc_id id)).

(** The network answered a request for [key] with a record that holds exactly [s]. *)
Definition answered_spend (key : RecordKey) (s : SignedSpend) (h : Trace) : Prop :=
  ∃ rec, network_answered key rec h ∧ try_deserialize_record rec = Ok [s].

Lemma prefix_elem (h h' : Trace) ev : h `prefix_of` h' → ev ∈ h → ev ∈ h'.
Proof. intros [k ->] H. apply elem_of_app. by left. Qed.

Lemma answered_spend_mono key s h h' : h `prefix_of` h' → answered_spend key s h → answered_spend key s h'.
Proof.
  intros Hp (rec & Ha & Hd). exists rec. split; [|done].
  eapply network_answered_mono; [|exact Ha]. intros ev. by apply prefix_elem.
Qed.

(** One awaited command. *)
Lemma always_reply {A E} (op : NetOp) (f : NetAns op → Res E A) P (Q : Trace → Res E A → Prop) h :
  stores P h op → (∀ a, Q (h ++ [existT op a]) (f a)) →
  always (stores P) Q h (r ← call op; lift (f r)).
Proof. intros HI HQ. cbn. split; [exact HI|]. exact HQ. Qed.

Lemma get_record_loop_always P key target n h :
  always (stores P) (λ h' r, match r with Ok rec => network_answered key rec h' | Err _ => True | Panic _ => False end)
    h (get_record_loop key target n).
Proof.
  revert h. induction n as [|n IH]; intros h; cbn [get_record_loop]; [done|].
  apply always_bind. cbn. split; [done|]. intros a.
  assert (∀ h', always (stores P) (λ h' r, match r with Ok rec => network_answered key rec h' | Err _ => True | Panic _ => False end)
     h' (_ ← call (Sleep REVERIFICATION_WAIT_TIME_S); get_record_loop key target n)) as Hagain.
  { intros h'. cbn. split; [done|]. intros u. apply IH. }
  destruct a as [| |[e|rec]]; cbn; try done.
  - destruct e; cbn; try (case_decide; [done|apply Hagain]).
    case_decide; [|apply Hagain]. destruct (target_matches _ _); [|done]. cbn.
    right. apply elem_of_app. right. by left.
  - destruct (target_matches _ _); [cbn; left; apply elem_of_app; right; by left|].
    case_decide; [done|apply Hagain].
Qed.

Lemma get_record_always P key target re h :
  always (stores P) (λ h' r, match r with Ok rec => network_answered key rec h' | Err _ => True | Panic _ => False end)
    h (get_record_from_network key target re).
Proof. unfold get_record_from_network. apply get_record_loop_always. Qed.

Lemma get_spend_always P addr re h :
  always (stores P) (λ h' r, match r with
                             | Ok s => answered_spend (to_record_key (from_dbc_address addr)) s h'
                             | _ => True end)
    h (get_spend_from_network addr re).
Proof.
  unfold get_spend_from_network. apply always_bind, always_map_err.
  eapply always_mono; [by intros ? ? ?| |apply get_record_always].
  intros h' [rec|e|w] Hr; cbn; [|done|done].
  destruct (RecordHeader_from_record rec) as [hd| |]; cbn; try done.
  destruct (rh_kind hd); cbn; try done.
  destruct (try_deserialize_record rec) as [[|s [|s2 l]]| |] eqn:Hd; cbn; try done.
  by exists rec.
Qed.

(** *** Chunks *)

(** Every input done so far is spent in the transaction found. *)
Definition payment_inv (done : list DbcId) (h : Trace) (s : option DbcTransaction) : Prop :=
  match s with
  | None => done = []
  | Some tx => done ≠ [] ∧ ∀ id, id ∈ done → ∃ sp, answered_spend (spend_key id) sp h ∧ spent_tx sp = tx
  end.

Lemma payment_task_always P name done h s id :
  payment_inv done h s →
  always (stores P) (λ h' r, match r with Ok s' => payment_inv (done ++ [id]) h' s' | _ => True end)
    h (payment_task name s id).
Proof.
  intros HJ. unfold payment_task. apply always_bind, always_join, always_bind.
  eapply always_mono; [by intros ? ? ?| |apply always_prefix, get_spend_always].
  intros h' [sp|e|w] [Hpre Hsp]; cbn; try done.
  assert (∀ i, i ∈ done ++ [id] ↔ i ∈ done ∨ i = id) as Hin by (intros i; set_solver).
  destruct s as [tx0|]; cbn in HJ |- *.
  - case_decide as Htx; cbn; [done|]. destruct HJ as [Hne Hall]. split; [by destruct done|].
    intros i [Hi| ->]%Hin.
    + destruct (Hall i Hi) as (sp' & Ha & Ht). exists sp'. split; [|done]. by eapply answered_spend_mono.
    + exists sp. split; [done|]. destruct (decide (spent_tx sp = tx0)); [done|tauto].
  - subst done. split; [done|]. intros i [Hi%elem_of_nil| ->]%Hin; [done|]. by exists sp.
Qed.

(** The payment of a chunk was checked: all its inputs are spent, as the
    network answered, in one transaction whose fee covers the chunk at the
    store cost, or falls short when the amount is not to be checked. *)
Definition chunk_paid (bld : Build) (c : ChunkWithPayment) (check_amount : bool) (h : Trace) : Prop :=
  spent_ids (cwp_payment c) ≠ [] ∧ ∃ tx fee,
    (∀ id, id ∈ spent_ids (cwp_payment c) → ∃ sp, answered_spend (spend_key id) sp h ∧ spent_tx sp = tx) ∧
    existT GetLocalStoreCost (Answer fee) ∈ h ∧
    let check := verify_fee_output_and_proof bld (chunk_name (cwp_chunk c)) fee tx
                   (audit_trail (cwp_payment c)) (proof_path (cwp_payment c)) in
    (check = Ok tt ∨ (check_amount = false ∧ ∃ paid expected, check = Err (PaymentProofInsufficientAmount paid expected))).

Section Chunks.
Context (bld : Build) (join_order : list DbcId → list DbcId).
Context (Hjoin : ∀ l, join_order l ≡ₚ l).

Lemma chunk_payment_always P c check_amount h :
  always (stores P) (λ h' r, match r with Ok _ => chunk_paid bld c check_amount h' | _ => True end)
    h (chunk_payment_validation bld join_order c check_amount).
Proof.
  unfold chunk_payment_validation. apply always_bind.
  apply (always_fold _ payment_inv); [| |done].
  { intros done h' s id HJ. eapply always_mono; [by intros ? ? ?| |by apply payment_task_always].
    by intros h2 [|e|w] ?. }
  intros h' [tx|] HJ; cbn in HJ |- *; [|done]. destruct HJ as [Hne Hall].
  split; [done|]. intros [| |fee]; cbn; try done.
  assert (let check := verify_fee_output_and_proof bld (chunk_name (cwp_chunk c)) fee tx
                         (audit_trail (cwp_payment c)) (proof_path (cwp_payment c)) in
    (check = Ok tt ∨ (check_amount = false ∧ ∃ paid expected, check = Err (PaymentProofInsufficientAmount paid expected))) →
    chunk_paid bld c check_amount (h' ++ [existT GetLocalStoreCost (Answer fee)])) as Hpaid.
  { cbn zeta. intros Hc. split.
    - intros H0. apply Hne. pose proof (Hjoin (spent_ids (cwp_payment c))) as Hp. rewrite H0 in *.
      by apply Permutation_nil_r in Hp.
    - exists tx, fee. split_and!; [|apply elem_of_app; right; by left|exact Hc].
      intros id Hid. rewrite <- (Hjoin (spent_ids (cwp_payment c))) in Hid.
      destruct (Hall id Hid) as (sp & Ha & Ht). exists sp. split; [|done].
      eapply answered_spend_mono; [|exact Ha]. by apply prefix_app_r. }
  destruct (verify_fee_output_and_proof _ _ _ _ _ _) as [[]|e|w]; cbn.
  - apply Hpaid. by left.
  - destruct e; try done. destruct check_amount; [done|]. apply Hpaid. right. eauto.
  - done.
Qed.

Definition chunk_stored (c : ChunkWithPayment) (check_amount : bool) (h : Trace) (rec : KRecord) : Prop :=
  r_key rec = chunk_name (cwp_chunk c) ∧ try_serialize_record c RK_Chunk = Ok (r_value rec) ∧
  chunk_paid bld c check_amount h.

Lemma store_chunk_always c check_amount h :
  always (stores (chunk_stored c check_amount)) (λ _ _, True) h
    (validate_and_store_chunk bld join_order c check_amount).
Proof.
  unfold validate_and_store_chunk. apply always_bind, always_map_err, always_reply; [done|].
  intros [| |[]]; cbn [await_reply map_err]; try done.
  apply always_bind. eapply always_mono; [by intros ? ? ?| |apply chunk_payment_always].
  intros h' [u|e|w] Hpaid; [|done|done].
  destruct (try_serialize_record c RK_Chunk) as [value|e|w] eqn:Hs; cbn; try done.
  split; [done|]. intros []; cbn; done.
Qed.

End Chunks.

(** *** Registers *)

(** What is stored for an incoming register: it verifies, and the stored one
    extends it, and the local one when there is one. *)
Definition register_stored (register : SignedRegister) (h : Trace) (rec : KRecord) : Prop :=
  let key := RegisterAddress_xorname (SignedRegister_address register) in
  r_key rec = key ∧ SignedRegister_verify register = Ok tt ∧
  ∃ reg', try_serialize_record reg' RK_Register = Ok (r_value rec) ∧
    (reg' = register ∨
     ∃ local lrec, existT (GetLocalRecord key) (Answer (Some lrec)) ∈ h ∧
       try_deserialize_record lrec = Ok local ∧ base_register local = base_register register ∧
       reg' = with_ops local (sr_ops local ∪ sr_ops register)).

Lemma register_validation_always P register present h :
  always (stores P) (λ h' r, match r with
    | Ok (Some reg') => SignedRegister_verify register = Ok tt ∧
       ((present = false ∧ reg' = register) ∨
        ∃ local lrec, existT (GetLocalRecord (RegisterAddress_xorname (SignedRegister_address register)))
                        (Answer (Some lrec)) ∈ h' ∧
          try_deserialize_record lrec = Ok local ∧ base_register local = base_register register ∧
          reg' = with_ops local (sr_ops local ∪ sr_ops register))
    | _ => True end) h (register_validation register present).
Proof.
  unfold register_validation. destruct (SignedRegister_verify register) as [[]|e|w] eqn:Hv; [|done|done].
  destruct present; cbn [negb]; [|by cbn; auto].
  apply always_bind, always_map_err, always_reply; [done|].
  intros [| |[lrec|]]; cbn [await_reply map_err]; try done.
  destruct (try_deserialize_record lrec) as [local|e|w] eqn:Hd; [|done|done]. cbn.
  destruct (verified_merge_spec register local) as [(x & -> & Hb & Ha)|(e & -> & _)]; cbn; [|done].
  case_decide; [done|]. split; [done|]. right. exists local, lrec. split_and!; [|done|done|done].
  apply elem_of_app. right. by left.
Qed.

Lemma store_register_always register h :
  always (stores (register_stored register)) (λ _ _, True) h (validate_and_store_register register).
Proof.
  unfold validate_and_store_register. apply always_bind, always_map_err, always_reply; [done|].
  intros [| |present]; cbn [await_reply map_err]; try done.
  apply always_bind. eapply always_mono; [by intros ? ? ?| |apply register_validation_always].
  intros h' [[reg'|]|e|w] Hr; try done. destruct Hr as [Hv Hr].
  destruct (try_serialize_record reg' RK_Register) as [value|e|w] eqn:Hs; cbn; try done.
  split; [|by intros []]. split_and!; [done|done|]. exists reg'. split; [done|].
  destruct Hr as [[_ Hr]|Hr]; [by left|by right].
Qed.

(** *** Spends *)

Context (genesis : Dbc) (hash_order : gset SignedSpend → list SignedSpend).

(** The parents of a spend were fetched, one per input of the transaction that
    created it, and passed the parent check; or the spend is genesis. *)
Definition parents_checked (s : SignedSpend) (h : Trace) : Prop :=
  is_genesis_spend genesis s = true ∨
  ∃ parents : gset SignedSpend,
    (∀ input, input ∈ tx_inputs (dbc_creation_tx s) →
       ∃ p, p ∈ parents ∧ answered_spend (spend_key (input_dbc_id input)) p h) ∧
    check_parent_spends genesis parents s = Ok tt.

Definition parents_inv (done : list DbcInput) (h : Trace) (parents : gset SignedSpend) : Prop :=
  ∀ input, input ∈ done → ∃ p, p ∈ parents ∧ answered_spend (spend_key (input_dbc_id input)) p h.

Lemma fetch_parents_always P s h :
  always (stores P) (λ h' r, match r with
    | Ok parents => is_genesis_spend genesis s = true ∨ parents_inv (tx_inputs (dbc_creation_tx s)) h' parents
    | _ => True end) h (fetch_parents genesis s).
Proof.
  unfold fetch_parents. destruct (is_genesis_spend genesis s); [by left|].
  apply (always_fold _ parents_inv); [|by right|by intros ? ?%elem_of_nil].
  intros done h1 parents input HJ. apply always_bind.
  eapply always_mono; [by intros ? ? ?| |apply always_prefix, get_spend_always].
  intros h2 [p|e|w] [Hpre Ha]; cbn; [|done|done].
  intros i [Hi| ->%list_elem_of_singleton]%elem_of_app.
  - destruct (HJ i Hi) as (q & Hq & Hqa). exists q. split; [set_solver|]. by eapply answered_spend_mono.
  - exists p. split; [set_solver|done].
Qed.

(** The two ways a list of spends is validated. *)
Inductive validated_by (id : DbcId) (h : Trace) : list SignedSpend → list SignedSpend → Prop :=
| validated_single s net :
    spend_verify s (spent_tx_hash s) = true → verify_fee_output_id (spent_tx s) false = Ok tt →
    parents_checked s h → validated_by id h [s] (aggregate_spends (net ++ [s]) id)
| validated_several cands :
    2 ≤ length cands → validated_by id h cands (aggregate_spends cands id).

Lemma parents_checked_mono s h h' : h `prefix_of` h' → parents_checked s h → parents_checked s h'.
Proof.
  intros Hp [Hg|(parents & Hall & Hc)]; [by left|right]. exists parents. split; [|done].
  intros i Hi. destruct (Hall i Hi) as (p & Hin & Ha). exists p. split; [done|]. by eapply answered_spend_mono.
Qed.

Lemma validate_single_always P s id h :
  always (stores P) (λ h' r, match r with Ok l => validated_by id h' [s] l | _ => True end)
    h (validate_single_spend genesis s id).
Proof.
  unfold validate_single_spend. destruct (spend_verify s (spent_tx_hash s)) eqn:Hv; [|done]. cbn [negb].
  destruct (verify_fee_output_id (spent_tx s) false) as [[]| |] eqn:Hf; [|done|done].
  change (lift (Ok ()) ≫= ?k) with (k ()). cbn beta. apply always_bind.
  eapply always_mono; [by intros ? ? ?| |apply fetch_parents_always].
  intros h1 [parents|e|w] Hpar; [|done|done].
  destruct (check_parent_spends genesis parents s) as [[]| |] eqn:Hc; [|done|done].
  change (lift (Ok ()) ≫= ?k) with (k ()). cbn beta. apply always_bind, always_attempt.
  eapply always_mono; [by intros ? ? ?| |apply always_prefix, get_spend_always].
  assert (parents_checked s h1) as Hpc by (destruct Hpar as [Hg|Hp]; [by left|right; by exists parents]).
  intros h2 [sp|e|w] [Hpre _]; cbn; [| |done].
  - apply (validated_single _ _ s [sp] Hv Hf). by eapply parents_checked_mono.
  - apply (validated_single _ _ s [] Hv Hf). by eapply parents_checked_mono.
Qed.

(** The spends considered: the incoming ones, or the local ones with the new. *)
Definition candidates (spends : list SignedSpend) (id : DbcId) (h : Trace) (cands : list SignedSpend) : Prop :=
  cands = spends ∨
  ∃ lrec local, existT (GetLocalRecord (spend_key id)) (Answer (Some lrec)) ∈ h ∧
    try_deserialize_record lrec = Ok local ∧
    cands = local ++ hash_order (list_to_set (filter (λ s, s ∉ local) spends)).

Lemma candidates_mono spends id h h' cands :
  h `prefix_of` h' → candidates spends id h cands → candidates spends id h' cands.
Proof.
  intros Hp [->|(lrec & local & Hin & H)]; [by left|right]. exists lrec, local. split; [|done].
  by eapply prefix_elem.
Qed.

Lemma merge_with_local_always P spends id h :
  always (stores P) (λ h' r, match r with Ok (Some cands) => candidates spends id h' cands | _ => True end)
    h (merge_with_local hash_order spends id).
Proof.
  unfold merge_with_local. apply always_bind, always_map_err, always_reply; [done|].
  intros [| |[lrec|]]; cbn [await_reply map_err]; try done.
  destruct (RecordHeader_from_record lrec) as [hd| |]; [|done|done].
  change (lift (Ok hd) ≫= ?k) with (k hd). cbn beta. case_decide; [done|].
  destruct (try_deserialize_record lrec) as [local| |] eqn:Hd; [|done|done].
  change (lift (Ok local) ≫= ?k) with (k local). cbn beta. cbn zeta. case_decide; [done|]. cbn.
  right. exists lrec, local. split_and!; [|done|done]. apply elem_of_app. right. by left.
Qed.

Lemma spend_validation_always P spends id present h :
  always (stores P) (λ h' r, match r with
    | Ok (Some l) => ∃ cands, candidates spends id h' cands ∧ validated_by id h' cands l
    | _ => True end) h (signed_spend_validation genesis hash_order spends id present).
Proof.
  unfold signed_spend_validation. apply always_bind.
  eapply (always_mono (stores P) _ (λ h' r, match r with Ok (Some cands) => candidates spends id h' cands | _ => True end));
    [by intros ? ? ?| |].
  2:{ destruct present; [apply merge_with_local_always|]. cbn. by left. }
  intros h1 [[[|s [|s2 l]]|]|e|w] Hc; try done.
  - apply always_bind. eapply always_mono; [by intros ? ? ?| |apply always_prefix, validate_single_always].
    intros h2 [l|e|w] [Hpre Hv]; cbn; [|done|done]. exists [s]. split; [by eapply candidates_mono|done].
  - cbn. exists (s :: s2 :: l). split; [done|]. apply validated_several. cbn. lia.
Qed.

Definition spends_stored (spends : list SignedSpend) (h : Trace) (rec : KRecord) : Prop :=
  ∃ id cands l, (∀ s, s ∈ spends → spend_dbc_id s = id) ∧ r_key rec = spend_key id ∧
    try_serialize_record l RK_DbcSpend = Ok (r_value rec) ∧
    candidates spends id h cands ∧ validated_by id h cands l.

Lemma store_spends_always spends h :
  always (stores (spends_stored spends)) (λ _ _, True) h (validate_and_store_spends genesis hash_order spends).
Proof.
  unfold validate_and_store_spends. destruct spends as [|first rest]; [done|].
  destruct (forallb _ rest) eqn:Hids; [|done]. cbn [negb].
  apply always_bind, always_map_err, always_reply; [done|].
  intros [| |present]; cbn [await_reply map_err]; try done.
  apply always_bind. eapply always_mono; [by intros ? ? ?| |apply spend_validation_always].
  intros h1 [[l|]|e|w] Hv; try done. destruct Hv as (cands & Hc & Hv).
  destruct (try_serialize_record l RK_DbcSpend) as [value|e|w] eqn:Hs; [|done|done].
  change (lift (Ok value) ≫= ?k) with (k value). cbn beta. cbn. split.
  - exists (spend_dbc_id first), cands, l. split_and!; try done.
    intros s [->|Hs']%elem_of_cons; [done|].
    rewrite List.forallb_forall in Hids. specialize (Hids s (proj1 (list_elem_of_In _ _) Hs')).
    by apply bool_decide_eq_true in Hids.
  - intros []; cbn; [|done]. by destruct l as [|? [|? ?]].
Qed.

End NodeLemmas.

(** ** Properties *)

Section Properties.
Context `{BLS : BlsCrate, XN : XorNameCrate, KD : KadCrate, CR : CrdtsCrate, MK : MerkleCrate}.
Context `{TK : TokenCrate, DI : DbcIdCrate, SD : !SnDbcCrate, DC : !DbcCrate, RP : !RegisterParams}.
Context `{RH : RmpHeader, RC : Rmp (bytes * PaymentProof), RS : Rmp (list SignedSpend), RR : Rmp SignedRegister}.
Context (bld : Build) (genesis : Dbc).
Context (join_order : list DbcId → list DbcId) (hash_order : gset SignedSpend → list SignedSpend).

(** C5: whatever the network and the local store answer, a record that
    [validate_and_store_record] stores has the key of the incoming record and
    passed the checks of its kind before it was stored: a chunk is stored as it
    came, under its content hash, with a payment that was checked; a register
    verified, and is stored as it came or merged into the local one; spends
    share one id that gives the key and went through the single-spend checks
    or, when there are several, through aggregation. *)
Theorem stored_record_validated (Hjoin : ∀ l, join_order l ≡ₚ l) record check_amount tr1 rec a tr2 r :
  exec (validate_and_store_record bld genesis join_order hash_order record check_amount)
    (tr1 ++ existT (PutLocalRecord rec) a :: tr2) r →
  r_key rec = r_key record ∧
  ((∃ c, try_deserialize_record record = Ok c ∧ chunk_stored bld c check_amount tr1 rec ∧
         r_key rec = from_content (chunk_value (cwp_chunk c))) ∨
   (∃ spends, try_deserialize_record record = Ok spends ∧ spends_stored genesis hash_order spends tr1 rec) ∨
   (∃ reg, try_deserialize_record record = Ok reg ∧ register_stored reg tr1 rec)).
Proof.
  unfold validate_and_store_record. intros He.
  destruct (RecordHeader_from_record record) as [hd| |]; cbn in He;
    [|by apply exec_done_inv in He as [? _]; destruct tr1|by apply exec_done_inv in He as [? _]; destruct tr1].
  destruct (rh_kind hd); cbn in He.
  - destruct (try_deserialize_record record) as [c| |] eqn:Hd; cbn in He;
      [|by apply exec_done_inv in He as [? _]; destruct tr1|by apply exec_done_inv in He as [? _]; destruct tr1].
    case_decide as Hk; [by apply exec_done_inv in He as [? _]; destruct tr1|].
    destruct (always_exec _ _ _ [] _ _ (store_chunk_always bld join_order Hjoin c check_amount []) He) as [_ H].
    specialize (H tr1 (PutLocalRecord rec) a tr2 eq_refl). cbn in H.
    pose proof (chunk_from_record record c Hd) as Hcn. split.
    + destruct H as (Hkey & _). unfold chunk_name in *.
      destruct (decide (r_key record = chunk_xorname (chunk_address (cwp_chunk c)))); [congruence|tauto].
    + left. exists c. split_and!; [done|exact H|]. destruct H as (-> & _). exact Hcn.
  - destruct (try_deserialize_record record) as [spends| |] eqn:Hd; cbn in He;
      [|by apply exec_done_inv in He as [? _]; destruct tr1|by apply exec_done_inv in He as [? _]; destruct tr1].
    destruct (forallb _ spends) eqn:Hk; [|by apply exec_done_inv in He as [? _]; destruct tr1]. cbn in He.
    destruct (always_exec _ _ _ [] _ _ (store_spends_always genesis hash_order spends []) He) as [_ H].
    specialize (H tr1 (PutLocalRecord rec) a tr2 eq_refl). cbn in H. split; [|right; left; by exists spends].
    destruct spends as [|s spends]; [by apply exec_done_inv in He as [? _]; destruct tr1|].
    destruct H as (id & cands & l & Hid & -> & _). cbn in Hk. apply andb_true_iff in Hk as [Hk _].
    apply bool_decide_eq_true in Hk. rewrite Hk. by rewrite (Hid s) by by left.
  - destruct (try_deserialize_record record) as [reg| |] eqn:Hd; cbn in He;
      [|by apply exec_done_inv in He as [? _]; destruct tr1|by apply exec_done_inv in He as [? _]; destruct tr1].
    case_decide as Hk; [by apply exec_done_inv in He as [? _]; destruct tr1|].
    destruct (always_exec _ _ _ [] _ _ (store_register_always reg []) He) as [_ H].
    specialize (H tr1 (PutLocalRecord rec) a tr2 eq_refl). cbn in H. split; [|right; right; by exists reg].
    destruct H as (-> & _). destruct (decide (r_key record = RegisterAddress_xorname (SignedRegister_address reg)));
      [congruence|tauto].
Qed.

(** spend aggregation: at most two spends come out, each of the given id,
    with a valid signature, and from the input; which ones does not depend on
    the order or multiplicity of the input; and a valid spend of the input is
    missing only if two others came out. *)
Theorem aggregate_spends_exact (spends spends' : list SignedSpend) (id : DbcId) :
  let out := aggregate_spends spends id in
  length out ≤ 2 ∧ NoDup out ∧ (∀ s, s ∈ out → s ∈ spends ∧ spend_valid id s) ∧
  (∀ s, s ∈ spends → spend_valid id s → s ∈ out ∨ length out = 2) ∧
  ((∀ s, s ∈ spends ↔ s ∈ spends') → aggregate_spends spends' id = out).
Proof.
  cbn zeta. split_and!.
  - rewrite aggregate_eq, length_take. lia.
  - rewrite aggregate_eq. eapply sublist_NoDup; [apply NoDup_valid_spends|apply sublist_take].
  - intros s. apply elem_of_aggregate.
  - intros s Hs Hv. rewrite aggregate_eq.
    assert (s ∈ valid_spends spends id) as Hin by by apply elem_of_valid_spends.
    destruct (decide (length (valid_spends spends id) ≤ 2)) as [Hl|Hl]; [left; by rewrite take_ge|right].
    rewrite length_take. lia.
  - intros Hset. unfold aggregate_spends. do 4 f_equal. apply set_eq. intros s.
    by rewrite !elem_of_list_to_set, Hset.
Qed.

(** sending the same spend twice skips its parent check.  The two copies
    count as several spends, which are only aggregated, so a spend with a valid
    signature is stored as the sole spend of its DBC after one local lookup:
    its parents are not fetched, nor is the network asked for other spends. *)
Theorem duplicated_spend_skips_parent_check (s : SignedSpend) (value : bytes) :
  spend_verify s (spent_tx_hash s) = true → try_serialize_record [s] RK_DbcSpend = Ok value →
  exec (validate_and_store_spends genesis hash_order [s; s])
    [existT (RecordStoreHasKey (spend_key (spend_dbc_id s))) (Answer false);
     existT (PutLocalRecord {| r_key := spend_key (spend_dbc_id s); r_value := value |}) true]
    (Ok StoredSuccessfully).
Proof.
  intros Hv Hs. unfold validate_and_store_spends. cbn [forallb].
  rewrite bool_decide_eq_true_2 by done. cbn. apply exec_vis. cbn.
  rewrite (aggregate_single [s; s] (spend_dbc_id s) s); [|by left|set_solver|by split].
  rewrite Hs. cbn. apply (exec_vis (PutLocalRecord _)). cbn. apply exec_done.
Qed.

(** when the network already holds two conflicting spends of a DBC, the
    answer to the node's query is an error that is dropped, and the incoming
    spend (here of the genesis DBC, which has no parents) is stored as the sole
    spend of the DBC, with success. *)
Theorem network_double_spend_ignored (s one two : SignedSpend) (more : list SignedSpend) (rec : KRecord) (value : bytes) :
  is_genesis_spend genesis s = true → spend_verify s (spent_tx_hash s) = true →
  verify_fee_output_id (spent_tx s) false = Ok tt →
  RecordHeader_from_record rec = Ok {| rh_kind := RK_DbcSpend |} →
  try_deserialize_record rec = Ok (one :: two :: more) →
  try_serialize_record [s] RK_DbcSpend = Ok value →
  exec (validate_and_store_spends genesis hash_order [s])
    [existT (RecordStoreHasKey (spend_key (spend_dbc_id s))) (Answer false);
     existT (GetNetworkRecord (spend_key (spend_dbc_id s))) (Answer (inr rec));
     existT (PutLocalRecord {| r_key := spend_key (spend_dbc_id s); r_value := value |}) true]
    (Ok StoredSuccessfully).
Proof.
  intros Hg Hv Hf Hh Hd Hs. unfold validate_and_store_spends. cbn.
  apply (exec_vis (RecordStoreHasKey _)). cbn. unfold validate_single_spend. rewrite Hv. cbn.
  rewrite Hf. cbn. unfold fetch_parents. rewrite Hg. cbn. unfold check_parent_spends. rewrite Hg. cbn.
  apply (exec_vis (GetNetworkRecord _)). cbn. rewrite Hh. cbn. rewrite Hd. cbn.
  rewrite (aggregate_single [s] (spend_dbc_id s) s); [|by left|set_solver|by split].
  rewrite Hs. cbn. apply (exec_vis (PutLocalRecord _)). cbn. apply exec_done.
Qed.

End Properties.

(** ** The properties at concrete values *)

(** A chunk, a transaction that pays 12 nanos for it, and its payment. *)
Definition toy_chunk : Chunk := Chunk_new [Byte.x0b].
Definition toy_paid_tx : DbcTransaction :=
  {| tx_inputs := []; tx_outputs := [];
     tx_fee := {| fee_id := chunk_name toy_chunk; fee_token := toy_tok 12; fee_root_hash := chunk_name toy_chunk |} |}.
Definition toy_cwp : ChunkWithPayment :=
  {| cwp_chunk := toy_chunk;
     cwp_payment := {| spent_ids := [Byte.x21 : DbcId];
       audit_trail := [chunk_name toy_chunk; chunk_name toy_chunk; chunk_name toy_chunk]; proof_path := [0%Z] |} |}.

Definition toy_free_tx : DbcTransaction := empty_tx.
Definition toy_genesis : Dbc :=
  {| td_id := Byte.x21; td_owner := Byte.x01; td_index := []; td_token := None; td_src := toy_free_tx |}.

(** A spend of the genesis DBC's id in a given transaction. *)
Definition toy_spend (tx : DbcTransaction) : SignedSpend :=
  {| ts_id := Byte.x21; ts_spent := tx; ts_creation := toy_free_tx; ts_good := true |}.

(** The network holds the spend that pays for the chunk; nothing is held locally. *)
Definition toy_spend_rec : KRecord :=
  toy_record_of (T:=list SignedSpend) (spend_key (Byte.x21 : DbcId)) [toy_spend toy_paid_tx] RK_DbcSpend.
Definition toy_chunk_rec : KRecord := toy_record_of (T:=ChunkWithPayment) (chunk_name toy_chunk) toy_cwp RK_Chunk.

Definition toy_store_run : list (Event NetAns) * Res ProtocolError CmdOk :=
  run (toy_network toy_spend_rec) 1
    (validate_and_store_record Release toy_genesis id elements toy_chunk_rec true).

(** The record stored by the [n]-th operation of a run. *)
Definition put_at (tr : list (Event NetAns)) (n : nat) : option KRecord :=
  match tr !! n with Some (existT (PutLocalRecord rec) _) => Some rec | _ => None end.

Lemma put_at_split tr n rec :
  put_at tr n = Some rec → ∃ a, tr = take n tr ++ existT (PutLocalRecord rec) a :: drop (S n) tr.
Proof.
  unfold put_at. destruct (tr !! n) as [[[] a]|] eqn:E; intros H; try discriminate. injection H as <-.
  exists a. by rewrite take_drop_middle.
Qed.

Lemma stored_record_validated_witness :
  put_at toy_store_run.1 3 = Some toy_chunk_rec ∧
  let tr1 := take 3 toy_store_run.1 in
  ((∃ c, try_deserialize_record toy_chunk_rec = Ok c ∧ chunk_stored Release c true tr1 toy_chunk_rec ∧
         r_key toy_chunk_rec = from_content (chunk_value (cwp_chunk c))) ∨
   (∃ spends, try_deserialize_record toy_chunk_rec = Ok spends ∧
              spends_stored toy_genesis elements spends tr1 toy_chunk_rec) ∨
   (∃ reg, try_deserialize_record toy_chunk_rec = Ok reg ∧ register_stored reg tr1 toy_chunk_rec)).
Proof.
  assert (put_at toy_store_run.1 3 = Some toy_chunk_rec) as Hput by by_compute.
  split; [exact Hput|]. destruct (put_at_split _ _ _ Hput) as [a E].
  pose proof (run_exec (toy_network toy_spend_rec) 1
    (validate_and_store_record Release toy_genesis id elements toy_chunk_rec true)) as He.
  fold toy_store_run in He. rewrite E in He.
  exact (proj2 (stored_record_validated Release toy_genesis id elements (λ l, Permutation_refl l) _ _ _ _ _ _ _ He)).
Defined.

Lemma aggregate_spends_exact_witness :
  aggregate_spends [toy_spend toy_paid_tx; toy_spend toy_free_tx] Byte.x21
  = aggregate_spends [toy_spend toy_free_tx; toy_spend toy_paid_tx; toy_spend toy_free_tx] Byte.x21.
Proof.
  destruct (aggregate_spends_exact
              [toy_spend toy_free_tx; toy_spend toy_paid_tx; toy_spend toy_free_tx]
              [toy_spend toy_paid_tx; toy_spend toy_free_tx] Byte.x21) as (_ & _ & _ & _ & H).
  apply H. intros s. set_solver.
Defined.

Lemma duplicated_spend_witness :
  let s := toy_spend toy_free_tx in
  exec (validate_and_store_spends toy_genesis elements [s; s])
    [existT (RecordStoreHasKey (spend_key (Byte.x21 : DbcId))) (Answer false);
     existT (PutLocalRecord (toy_record_of (T:=list SignedSpend) (spend_key (Byte.x21 : DbcId)) [s] RK_DbcSpend)) true]
    (Ok StoredSuccessfully).
Proof.
  apply (duplicated_spend_skips_parent_check toy_genesis elements (toy_spend toy_free_tx)); by_compute.
Defined.

Lemma network_double_spend_witness :
  let s := toy_spend toy_free_tx in
  let held := toy_record_of (T:=list SignedSpend) (spend_key (Byte.x21 : DbcId)) [s; toy_spend toy_paid_tx] RK_DbcSpend in
  exec (validate_and_store_spends toy_genesis elements [s])
    [existT (RecordStoreHasKey (spend_key (Byte.x21 : DbcId))) (Answer false);
     existT (GetNetworkRecord (spend_key (Byte.x21 : DbcId))) (Answer (inr held));
     existT (PutLocalRecord (toy_record_of (T:=list SignedSpend) (spend_key (Byte.x21 : DbcId)) [s] RK_DbcSpend)) true]
    (Ok StoredSuccessfully).
Proof.
  apply (network_double_spend_ignored toy_genesis elements (toy_spend toy_free_tx) (toy_spend toy_free_tx)
           (toy_spend toy_paid_tx) []); by_compute.
Defined.
