(* ===== verification/NodeStore.v ===== *)
(** * Tasks of a node over its record store

    A node validates what it receives in tasks that ask the store for what it
    holds and then write to it, each step a command to the driver
    ([handle_cmd], src/sn_networking/src/cmd.rs; [send_swarm_cmd],
    src/sn_networking/src/lib.rs).  [Node::run] (src/sn_node/src/api.rs) spawns a
    task for each event, so they run interleaved.

    [NodeStore] is the record store of RecordStore.v with the puts that are
    still in the channel of commands.  [node_step] is a step of a node whose
    tasks use it: a task gets an answer, or none because the channel is full or
    the reply was dropped; the driver takes some put from the channel, and the
    store takes it, evicting another record if it is full, or refuses it; a file
    task runs or fails; kad or another task changes something.  A file is
    written in one step here, or not at all.  [calm_step] are those of its steps
    in which nothing is lost: every put finds room and every file is written.

    [tasks_keep] gives the invariants of tasks among others.  [alone_settles]
    and [interleaved_puts] are what the theorems of NodeRegisters.v and
    NodeSpends.v on tasks in turn and on lost updates share. *)

From S2P Require Import Prelude Deps ToyCrates Registers Protocol Transfers RecordStore Payments Effects Network NodeValidation.
From stdpp Require Import base tactics list gmap sorting strings relations.
From Stdlib Require Import ZArith NArith Strings.Byte Lia.

(** ** The store behind the commands *)

Section Store.
Context `{BLS : BlsCrate, XN : XorNameCrate, KD : KadCrate, CR : CrdtsCrate}.
Context `{TK : TokenCrate, DI : DbcIdCrate, SD : !SnDbcCrate}.

Record NodeStore := { ns_world : World; ns_commands : list KRecord }.

Definition send_put (rec : KRecord) (c : NodeStore) : NodeStore :=
  {| ns_world := ns_world c; ns_commands := ns_commands c ++ [rec] |}.
Definition set_world (w : World) (c : NodeStore) : NodeStore := {| ns_world := w; ns_commands := ns_commands c |}.

(** How the driver answers the commands on the store: a put is only sent.  The
    other operations do not touch the store and have any answer. *)
Definition store_step (c : NodeStore) (op : NetOp) : NetAns op → NodeStore → Prop :=
  match op return NetAns op → NodeStore → Prop with
  | RecordStoreHasKey key => λ a c', a = Answer (contains (store (ns_world c)) key) ∧ c' = c
  | GetLocalRecord key => λ a c', a = Answer (store_get key (ns_world c)) ∧ c' = c
  | PutLocalRecord rec => λ a c', a = true ∧ c' = send_put rec c
  | _ => λ _ c', c' = c
  end.

(** The answers when the command or its reply is dropped. *)
Definition lost_answer (op : NetOp) : NetAns op → Prop :=
  match op return NetAns op → Prop with
  | RecordStoreHasKey _ => λ a, a = NoCapacity ∨ a = Dropped
  | GetLocalRecord _ => λ a, a = NoCapacity ∨ a = Dropped
  | PutLocalRecord _ => λ a, a = false
  | _ => λ _, False
  end.

(** The driver takes a put out of the channel. *)
Definition take_put (order : list RecordKey) (rec : KRecord) (rest : list KRecord) (c : NodeStore) : NodeStore :=
  {| ns_world := (put_verified order rec (ns_world c)).1; ns_commands := rest |}.

(** What the store does besides answering.  [other] are the records that the
    rest of the node may put: its other tasks, and the winners of split votes. *)
Inductive store_move (other : KRecord → Prop) (c : NodeStore) : NodeStore → Prop :=
| move_command l1 rec l2 order :
    ns_commands c = l1 ++ rec :: l2 → order ≡ₚ elements (records (store (ns_world c))) →
    store_move other c (take_put order rec (l1 ++ l2) c)
| move_other rec order :
    other rec → order ≡ₚ elements (records (store (ns_world c))) →
    store_move other c (take_put order rec (ns_commands c) c)
| move_kad_remove key : store_move other c (set_world (RecordStore.remove key (ns_world c)) c)
| move_kad_put rec : store_move other c (set_world (store_put rec (ns_world c)).1 c)
| move_range d : store_move other c (set_world (set_distance_range d (ns_world c)) c)
| move_file o j w : file_task o j (ns_world c) = Some w → o ≠ FileOpens → store_move other c (set_world w c).

(** Nothing is on the way to the disk. *)
Definition idle (c : NodeStore) : Prop := ns_commands c = [] ∧ spawned (ns_world c) = [].

Definition has_room (w : World) : Prop := size (records (store w)) < max_records (config (store w)).

Section Tasks.
Context {E A : Type}.
Notation Prog := (NetProg E A).

(** Tasks that run interleaved over one store. *)
Inductive node_step (other : KRecord → Prop) : NodeStore * list Prog → NodeStore * list Prog → Prop :=
| node_op c ps i op k a c' :
    ps !! i = Some (Vis op k) → store_step c op a c' → node_step other (c, ps) (c', <[i := k a]> ps)
| node_op_lost c ps i op k a :
    ps !! i = Some (Vis op k) → lost_answer op a → node_step other (c, ps) (c, <[i := k a]> ps)
| node_store c ps c' : store_move other c c' → node_step other (c, ps) (c', ps).

(** The steps in which nothing is lost. *)
Inductive calm_step : NodeStore * list Prog → NodeStore * list Prog → Prop :=
| calm_op c ps i op k a c' :
    ps !! i = Some (Vis op k) → store_step c op a c' → calm_step (c, ps) (c', <[i := k a]> ps)
| calm_command c ps l1 rec l2 order :
    ns_commands c = l1 ++ rec :: l2 → order ≡ₚ elements (records (store (ns_world c))) → has_room (ns_world c) →
    calm_step (c, ps) (take_put order rec (l1 ++ l2) c, ps)
| calm_file c ps j w : file_task FileDone j (ns_world c) = Some w → calm_step (c, ps) (set_world w c, ps).

Lemma calm_node_step other x y : calm_step x y → node_step other x y.
Proof.
  intros []; [by eapply node_op|apply node_store; by eapply move_command|].
  apply node_store. by eapply move_file.
Qed.

(** ** Invariants of tasks *)

(** Each operation of a program keeps [I], whatever happened before it. *)
Fixpoint keeps (I : NodeStore → Prop) (p : Prog) : Prop :=
  match p with
  | Done _ => True
  | Vis op k =>
      (∀ c a c', I c → store_step c op a c' → I c' ∧ keeps I (k a)) ∧ (∀ a, lost_answer op a → keeps I (k a))
  end.

(** What the store and the tasks keep is kept in every run whose states
    satisfy [K]. *)
Lemma tasks_keep other (K I : NodeStore → Prop) x y :
  (∀ c c', store_move other c c' → K c' → I c → I c') →
  rtc (λ x y, node_step other x y ∧ K y.1) x y → Forall (keeps I) x.2 → I x.1 → I y.1.
Proof.
  intros Hmove. induction 1 as [|x x1 y [Hstep HK] _ IH]; [done|]. intros Hall HI.
  destruct Hstep as [c ps i op k a c' Hp Hs|c ps i op k a Hp Hs|c ps c' Hm]; cbn in *.
  - destruct (Forall_lookup_1 _ _ _ _ Hall Hp) as [Hk _]. destruct (Hk c a c' HI Hs) as [HI' Hka].
    apply IH; [by apply Forall_insert|done].
  - destruct (Forall_lookup_1 _ _ _ _ Hall Hp) as [_ Hk]. apply IH; [apply Forall_insert; [done|exact (Hk a Hs)]|done].
  - apply IH; [done|]. by eapply Hmove.
Qed.

(** ** A put that finds room *)

(** The world once the record is on the disk. *)
Definition stored (rec : KRecord) (w : World) : World :=
  run_task (WriteFile (key_to_hex (r_key rec)) (r_value rec)) (set_records ({[ r_key rec ]} ∪ records (store w)) w).

#[local] Arguments stored : simpl never.

Lemma stored_store rec w :
  store (stored rec w) = store (set_records ({[ r_key rec ]} ∪ records (store w)) w) ∧ spawned (stored rec w) = spawned w.
Proof. unfold stored. cbn. unfold opened. by destruct (existsb _ _). Qed.

Lemma stored_contains rec w k : contains (store (stored rec w)) k = bool_decide (k = r_key rec) || contains (store w) k.
Proof.
  unfold contains. destruct (stored_store rec w) as [-> _]. cbn. rewrite <- bool_decide_or. apply bool_decide_ext. set_solver.
Qed.

Lemma stored_get rec w k : store_get k (stored rec w) = if decide (k = r_key rec) then Some rec else store_get k w.
Proof.
  unfold store_get. rewrite stored_contains. unfold read_from_disk.
  assert (files (stored rec w) = <[key_to_hex (r_key rec) := r_value rec]> (files w)) as -> by (unfold stored; by rewrite run_task_files).
  case_decide as Hk.
  - subst k. rewrite bool_decide_eq_true_2, lookup_insert_eq by done. by destruct rec.
  - rewrite bool_decide_eq_false_2, lookup_insert_ne by (done || by intros ?%(inj key_to_hex)). done.
Qed.

Lemma stored_room rec w : has_room w → r_key rec ∈ records (store w) → has_room (stored rec w).
Proof.
  unfold has_room. intros H Hin. destruct (stored_store rec w) as [-> _]. cbn.
  by replace ({[r_key rec]} ∪ records (store w)) with (records (store w)) by set_solver.
Qed.

Lemma put_verified_room order rec w :
  has_room w → (put_verified order rec w).1 =
    spawn (WriteFile (key_to_hex (r_key rec)) (r_value rec)) (set_records ({[ r_key rec ]} ∪ records (store w)) w).
Proof. intros H. rewrite put_verified_eq. unfold prune_storage_if_needed_for_record. by rewrite decide_True. Qed.

Lemma put_then_write rec w :
  spawned w = [] → let w1 := spawn (WriteFile (key_to_hex (r_key rec)) (r_value rec)) (set_records ({[ r_key rec ]} ∪ records (store w)) w) in
  spawned w1 = [WriteFile (key_to_hex (r_key rec)) (r_value rec)] ∧
  ∀ o j w', file_task o j w1 = Some w' → o = FileDone → w' = stored rec w.
Proof.
  intros Hs. destruct w as [s f sp e t]. cbn in Hs. subst sp. cbn. split; [done|].
  intros o j w' (task & Ht & H)%bind_Some ->. destruct j as [|j]; [|done].
  cbn in Ht. injection Ht as <-. by injection H as <-.
Qed.

(** A put at the head of the channel reaches the disk. *)
Lemma put_reaches_disk w rec cmds (ps : list Prog) :
  spawned w = [] → has_room w →
  rtc calm_step ({| ns_world := w; ns_commands := rec :: cmds |}, ps) ({| ns_world := stored rec w; ns_commands := cmds |}, ps).
Proof.
  intros Hs Hroom. eapply rtc_l.
  { by apply (calm_command _ ps [] rec cmds (elements (records (store w)))). }
  unfold take_put. cbn [ns_world app]. rewrite put_verified_room by done.
  destruct (put_then_write rec w Hs) as [Hsp Hw]. set (w1 := spawn _ _) in *. eapply rtc_l; [|apply rtc_refl].
  assert (∃ w', file_task FileDone 0 w1 = Some w') as [w' Hw'] by (unfold file_task; rewrite Hsp; by eexists).
  rewrite <- (Hw _ _ _ Hw' eq_refl). by apply (calm_file {| ns_world := w1; ns_commands := cmds |} ps 0).
Qed.

(** ** A task that runs alone *)

(** The program reads the store, and puts at most one record, as the last thing
    it does; [Q] is the outcome once the record is on the disk. *)
Fixpoint settles (Q : World → Res E A → Prop) (w : World) (p : Prog) : Prop :=
  match p with
  | Done r => Q w r
  | Vis op k =>
      match op return (NetAns op → Prog) → Prop with
      | RecordStoreHasKey key => λ k, settles Q w (k (Answer (contains (store w) key)))
      | GetLocalRecord key => λ k, settles Q w (k (Answer (store_get key w)))
      | PutLocalRecord rec => λ k, ∃ r, k true = Done r ∧ Q (stored rec w) r
      | _ => λ k, ∀ a, settles Q w (k a)
      end k
  end.

(** The states of such a run. *)
Inductive settling (Q : World → Res E A → Prop) (w : World) : NodeStore * list Prog → Prop :=
| settling_runs p : settles Q w p → settling Q w ({| ns_world := w; ns_commands := [] |}, [p])
| settling_sent rec r : Q (stored rec w) r → settling Q w ({| ns_world := w; ns_commands := [rec] |}, [Done r])
| settling_taken rec r : Q (stored rec w) r →
    settling Q w ({| ns_world := spawn (WriteFile (key_to_hex (r_key rec)) (r_value rec)) (set_records ({[ r_key rec ]} ∪ records (store w)) w);
                     ns_commands := [] |}, [Done r])
| settling_written rec r : Q (stored rec w) r → settling Q w ({| ns_world := stored rec w; ns_commands := [] |}, [Done r]).

Lemma settling_step Q w x y : spawned w = [] → settling Q w x → calm_step x y → settling Q w y.
Proof.
  intros Hs Hx Hstep. destruct Hstep as [c ps i op k a c' Hp Hop|c ps l1 rec l2 order Hc Ho Hroom|c ps j w1 Hf].
  - inversion Hx as [p Hp'|rec r H|rec r H|rec r H]; subst; destruct i as [|i]; simplify_eq/=.
    destruct op; cbn in Hop, Hp'; destruct_and?; simplify_eq/=; try (apply settling_runs; by auto).
    destruct Hp' as (r & -> & HQ). by apply settling_sent.
  - inversion Hx as [p Hp'|rec' r H|rec' r H|rec' r H]; subst; cbn in Hc; try by destruct l1.
    destruct l1 as [|? [|]]; simplify_eq/=. unfold take_put. cbn in Hroom |- *. rewrite put_verified_room by done. by apply settling_taken.
  - inversion Hx as [p Hp'|rec' r H|rec' r H|rec' r H]; subst; cbn in Hf |- *.
    1-2: apply bind_Some in Hf as (t & Ht & _); by rewrite Hs in Ht.
    + destruct (put_then_write rec' w Hs) as [_ Hw]. rewrite (Hw _ _ _ Hf eq_refl). by apply settling_written.
    + apply bind_Some in Hf as (t & Ht & _). destruct (stored_store rec' w) as [_ Hsp]. by rewrite Hsp, Hs in Ht.
Qed.

Lemma alone_settles Q (c c' : NodeStore) (p : Prog) r :
  idle c → settles Q (ns_world c) p → rtc calm_step (c, [p]) (c', [Done r]) → idle c' → Q (ns_world c') r.
Proof.
  destruct c as [w cmds]. intros [Hc Hs] Hp Hrun [Hc' Hs']. cbn in *. subst cmds.
  assert (settling Q w (c', [Done r])) as H.
  { remember ({| ns_world := w; ns_commands := [] |}, [p]) as x eqn:Hx. assert (settling Q w x) as H by (subst x; by apply settling_runs).
    clear Hx. induction Hrun as [|x y z Hstep _ IH]; [done|]. apply IH. by eapply settling_step. }
  inversion H as [q Hq|rec r' HQ|rec r' HQ|rec r' HQ]; subst; try done.
  cbn in Hs'. by destruct (spawned w).
Qed.

(** ** Tasks that read first and write at the end *)

(** The events of [tr] read [c] and leave it. *)
Definition reads (c : NodeStore) (tr : list (Effects.Event NetAns)) : Prop :=
  Forall (λ ev, store_step c (projT1 ev) (projT2 ev) c) tr.

(** The next task to step runs up to where its reading ends. *)
Lemma tasks_read c (ps : list Prog) i p t1 t2 r :
  ps !! i = Some p → exec p (t1 ++ t2) r → reads c t1 →
  ∃ p', rtc calm_step (c, ps) (c, <[i := p']> ps) ∧ exec p' t2 r.
Proof.
  intros Hi He. remember (t1 ++ t2) as tr eqn:Htr. revert ps t1 Hi Htr.
  induction He as [r|op k a tr r He IH]; intros ps t1 Hi Htr Hr.
  - destruct t1 as [|? ?]; [|done]. cbn in Htr. subst t2. exists (Done r).
    split; [by rewrite list_insert_id|constructor].
  - destruct t1 as [|ev t1]; cbn in Htr.
    + subst t2. exists (Vis op k). split; [by rewrite list_insert_id|by constructor].
    + injection Htr as Hev Htr. apply Forall_cons in Hr as [Hop Hr]. rewrite <- Hev in Hop.
      destruct (IH (<[i := k a]> ps) t1) as (p' & Hrun & He'); [|done|done|].
      { apply list_lookup_insert_eq. by eapply lookup_lt_Some. }
      exists p'. split; [|exact He']. rewrite list_insert_insert_eq in Hrun.
      eapply rtc_l; [|exact Hrun]. by eapply calm_op.
Qed.

(** A task that has only one record left to write. *)
Lemma task_put c (ps : list Prog) i p rec r :
  ps !! i = Some p → exec p [existT (PutLocalRecord rec) true] r → calm_step (c, ps) (send_put rec c, <[i := Done r]> ps).
Proof.
  intros Hi He. remember (existT (PutLocalRecord rec) true : Effects.Event NetAns) as ev eqn:Hput.
  apply exec_inv in He. destruct p as [r0|op k]; [by destruct He|].
  destruct He as (a & tr & Hev & He). injection Hev as Hev <-.
  assert (k a = Done r) as <- by (apply exec_inv in He; destruct (k a); naive_solver).
  apply (calm_op c ps i op k a _ Hi).
  assert (∀ e1 e2 : Effects.Event NetAns, e1 = e2 → store_step c (projT1 e2) (projT2 e2) (send_put rec c) →
    store_step c (projT1 e1) (projT2 e1) (send_put rec c)) as Hsame by by intros ? ? ->.
  apply (Hsame (existT op a) ev); [done|]. by subst ev.
Qed.

(** A task alone, whose put finds room. *)
Lemma alone_put c (p : Prog) tp rp x :
  idle c → has_room (ns_world c) → exec p (tp ++ [existT (PutLocalRecord rp) true]) x → reads c tp →
  let c' := {| ns_world := stored rp (ns_world c); ns_commands := [] |} in
  idle c' ∧ rtc calm_step (c, [p]) (c', [Done x]).
Proof.
  destruct c as [w cmds]. intros [Hc Hs] Hroom Hp Hrp. cbn in Hc, Hs, Hroom |- *. subst cmds.
  destruct (stored_store rp w) as [_ Hsp]. rewrite Hs in Hsp. split; [done|].
  destruct (tasks_read _ [p] 0 p _ _ _ eq_refl Hp Hrp) as (p' & Hrun & Hp').
  etrans; [exact Hrun|]. eapply rtc_l; [by apply (task_put _ [p'] 0 p' rp x)|]. by apply put_reaches_disk.
Qed.

(** A task alone that only reads. *)
Lemma alone_reads c (p : Prog) tp x : exec p tp x → reads c tp → rtc calm_step (c, [p]) (c, [Done x]).
Proof.
  intros Hp Hr. rewrite <- (app_nil_r tp) in Hp.
  destruct (tasks_read c [p] 0 p _ _ _ eq_refl Hp Hr) as (p' & Hrun & Hp').
  apply exec_inv in Hp'. destruct p' as [r|op k]; [destruct Hp' as [_ ->]; exact Hrun|].
  by destruct Hp' as (a & tr & ? & _).
Qed.

(** Two tasks that both read before either writes: both puts reach the disk, and
    the second record written under a key is what stays. *)
Lemma interleaved_puts c (p q : Prog) tp tq rp rq x y :
  idle c → has_room (ns_world c) → has_room (stored rp (ns_world c)) →
  exec p (tp ++ [existT (PutLocalRecord rp) true]) x → reads c tp →
  exec q (tq ++ [existT (PutLocalRecord rq) true]) y → reads c tq →
  let c' := {| ns_world := stored rq (stored rp (ns_world c)); ns_commands := [] |} in
  idle c' ∧ rtc calm_step (c, [p; q]) (c', [Done x; Done y]).
Proof.
  destruct c as [w cmds]. intros [Hc Hs] Hroom Hroom' Hp Hrp Hq Hrq. cbn in Hc, Hs, Hroom, Hroom' |- *. subst cmds.
  destruct (stored_store rp w) as [_ Hsp]. rewrite Hs in Hsp. split.
  { split; [done|]. cbn [ns_world]. destruct (stored_store rq (stored rp w)) as [_ ->]. exact Hsp. }
  destruct (tasks_read _ [p; q] 0 p _ _ _ eq_refl Hp Hrp) as (p' & Hrun1 & Hp').
  destruct (tasks_read _ [p'; q] 1 q _ _ _ eq_refl Hq Hrq) as (q' & Hrun2 & Hq').
  etrans; [exact Hrun1|]. etrans; [exact Hrun2|].
  eapply rtc_l; [by apply (task_put _ [p'; q'] 0 p' rp x)|].
  eapply rtc_l; [by apply (task_put _ [Done x; q'] 1 q' rq y)|]. cbn.
  etrans; [by apply put_reaches_disk|]. by apply put_reaches_disk.
Qed.

End Tasks.

(** ** What is stored under a key *)

Section Stored.
Context (key : RecordKey) (good : bytes → Prop).

(** Every value under the key, on the disk or on the way to it, is good. *)
Record stored_ok (c : NodeStore) : Prop := {
  so_file : ∀ v, files (ns_world c) !! key_to_hex key = Some v → good v;
  so_write : ∀ v, WriteFile (key_to_hex key) v ∈ spawned (ns_world c) → good v;
  so_whole : ∀ f v o, Writing f v o ∉ spawned (ns_world c);
  so_command : ∀ rec, rec ∈ ns_commands c → r_key rec = key → good (r_value rec);
}.

Lemma stored_ok_read c rec : stored_ok c → store_get key (ns_world c) = Some rec → r_key rec = key ∧ good (r_value rec).
Proof.
  intros Hc. unfold store_get. destruct (contains _ _); [|done]. intros (v & Hv & [= <-])%bind_Some. split; [done|]. by apply (so_file c Hc).
Qed.

Lemma stored_ok_send c rec : stored_ok c → (r_key rec = key → good (r_value rec)) → stored_ok (send_put rec c).
Proof.
  intros [H1 H2 H3 H4] Hg. split; cbn; [done..|]. intros r [Hr|Hr%list_elem_of_singleton]%elem_of_app; [by apply H4|by subst r].
Qed.

Lemma stored_ok_spawn c t w cmds :
  stored_ok c → files w = files (ns_world c) → spawned w = spawned (ns_world c) ++ t →
  (∀ v, WriteFile (key_to_hex key) v ∈ t → good v) → (∀ f v o, Writing f v o ∉ t) →
  (∀ rec, rec ∈ cmds → r_key rec = key → good (r_value rec)) → stored_ok {| ns_world := w; ns_commands := cmds |}.
Proof.
  intros [H1 H2 H3 H4] Hf Hs Ht1 Ht2 Hc. split; cbn; rewrite ?Hf, ?Hs; [done| | |done].
  - intros v [?|?]%elem_of_app; auto.
  - intros f v o [?|?]%elem_of_app; [by eapply H3|by eapply Ht2].
Qed.

(** What a put adds to the tasks. *)
Lemma put_verified_spawns order rec w :
  files (put_verified order rec w).1 = files w ∧
  ∃ t, spawned (put_verified order rec w).1 = spawned w ++ t ∧
    ∀ u, u ∈ t → u = WriteFile (key_to_hex (r_key rec)) (r_value rec) ∨ ∃ k, u = RemoveFile (key_to_hex k).
Proof.
  rewrite put_verified_eq. unfold prune_storage_if_needed_for_record.
  case_decide; [|destruct (last_of _) as [f|]; [case_decide|]]; cbn; (split; [done|]).
  - eexists. split; [done|]. intros u ->%list_elem_of_singleton. by left.
  - eexists. split; [by rewrite <- app_assoc|]. intros u [->|Hu%list_elem_of_singleton]%elem_of_cons; [|subst u]; [right; by eexists|by left].
  - exists []. split; [by rewrite app_nil_r|]. by intros u ?%elem_of_nil.
  - eexists. split; [done|]. intros u ->%list_elem_of_singleton. by left.
Qed.

Lemma stored_ok_put order rec cmds c :
  stored_ok c → (r_key rec = key → good (r_value rec)) → (∀ rec', rec' ∈ cmds → r_key rec' = key → good (r_value rec')) →
  stored_ok (take_put order rec cmds c).
Proof.
  intros Hc Hg Hcmds. destruct (put_verified_spawns order rec (ns_world c)) as (Hf & t & Hs & Ht).
  apply (stored_ok_spawn c t); [done|done|done| | |done].
  - intros v Hv. destruct (Ht _ Hv) as [[= Hk ->]|[k [=]]]. apply Hg. by apply (inj key_to_hex).
  - intros f v o Hv. by destruct (Ht _ Hv) as [[=]|[k [=]]].
Qed.

(** Without a write under way, a file task that opens none has its effect or none. *)
Lemma whole_file_task o j w w' :
  (∀ f v o, Writing f v o ∉ spawned w) → file_task o j w = Some w' → o ≠ FileOpens →
  (∀ u, u ∈ spawned w' → u ∈ spawned w) ∧
  (files w' = files w ∨ ∃ t, t ∈ spawned w ∧ files w' = file_effect t (files w)).
Proof.
  intros Hw (t & Ht & Hf)%bind_Some Ho.
  assert (t ∈ spawned w) as Hin by by eapply list_elem_of_lookup_2.
  assert (∀ u, u ∈ delete j (spawned w) → u ∈ spawned w) as Hsub
    by (intros u Hu; by eapply elem_of_sublist; [|apply sublist_delete]).
  destruct o as [| | |n].
  - injection Hf as <-. split; [|right; exists t; by rewrite run_task_files].
    intros u Hu. apply Hsub. destruct t as [f v|f v k|f|r]; cbn in Hu; try done.
    + unfold opened in Hu. by destruct (existsb _ _).
    + apply list_elem_of_In, filter_In in Hu as [Hu _]. by apply list_elem_of_In.
  - destruct t; injection Hf as <-; (split; [exact Hsub|by left]).
  - done.
  - destruct t; try done. by apply Hw in Hin.
Qed.

Lemma stored_ok_file o j w c : stored_ok c → file_task o j (ns_world c) = Some w → o ≠ FileOpens → stored_ok (set_world w c).
Proof.
  intros [H1 H2 H3 H4] Hf Ho. destruct (whole_file_task _ _ _ _ H3 Hf Ho) as [Hsub Hfiles]. split; cbn; [| | |done].
  2: { intros v Hv. by apply H2, Hsub. }
  2: { intros f v k Hv. by eapply H3, Hsub. }
  destruct Hfiles as [->|(t & Ht & ->)]; [done|]. destruct t as [f v|f v k|f|r]; cbn; [| |intros v [_ Hv]%lookup_delete_Some; by apply H1|done].
  - intros u [[Hk <-]|[_ Hu]]%lookup_insert_Some; [subst f; by apply H2|by apply H1].
  - by apply H3 in Ht.
Qed.

Lemma stored_ok_move other c c' :
  (∀ rec, other rec → r_key rec ≠ key) → store_move other c c' → stored_ok c → stored_ok c'.
Proof.
  intros Hother Hm Hc. pose proof Hc as [H1 H2 H3 H4]. destruct Hm as [l1 rec l2 order Hcmd _|rec order Ho _|k|rec|d|o j w Hf Ho].
  - assert (∀ r, r ∈ rec :: l1 ++ l2 → r ∈ ns_commands c) as Hin by (rewrite Hcmd; set_solver).
    apply stored_ok_put; [done| |].
    + apply H4, Hin. by left.
    + intros r Hr. apply H4, Hin. by right.
  - apply stored_ok_put; [done| |done]. intros Hk. by apply Hother in Ho.
  - apply (stored_ok_spawn c [RemoveFile (key_to_hex k)]); try done; [by intros v ?%list_elem_of_singleton|by intros ? ? ? ?%list_elem_of_singleton].
  - unfold store_put. case_decide; [by split|]. destruct (event_sender _); [|by split].
    apply (stored_ok_spawn c [SendUnverified rec]); try done; [by intros v ?%list_elem_of_singleton|by intros ? ? ? ?%list_elem_of_singleton].
  - by split.
  - by eapply stored_ok_file.
Qed.

(** The key is held, with its file, and nothing is about to remove it. *)
Record held (c : NodeStore) : Prop := {
  held_key : contains (store (ns_world c)) key = true;
  held_file : is_Some (files (ns_world c) !! key_to_hex key);
  held_kept : RemoveFile (key_to_hex key) ∉ spawned (ns_world c);
}.

Lemma held_read c : held c → is_Some (store_get key (ns_world c)).
Proof. intros [H1 [v Hv] _]. unfold store_get, read_from_disk. rewrite H1, Hv. by eexists. Qed.

Lemma held_put order rec cmds c :
  order ≡ₚ elements (records (store (ns_world c))) → held c → contains (store (ns_world (take_put order rec cmds c))) key = true →
  held (take_put order rec cmds c).
Proof.
  intros Ho [H1 H2 H3] Hk. split; [done| |]; unfold take_put in *; cbn in Hk |- *.
  - by destruct (put_verified_spawns order rec (ns_world c)) as [-> _].
  - revert Hk. rewrite put_verified_eq. destruct (prune_spec order (r_key rec) (ns_world c) Ho) as [[-> _]|(_ & f & _ & [[-> Hd]|[-> _]])]; cbn.
    + intros _. rewrite elem_of_app, list_elem_of_singleton. by intros [?|[=]].
    + unfold contains. cbn. intros Hk%bool_decide_eq_true. rewrite !elem_of_app, !list_elem_of_singleton.
      intros [[?|[= Hf%(inj key_to_hex)]]|[=]]; [done|]. subst f. apply elem_of_union in Hk as [Hk|Hk]; [|set_solver].
      apply elem_of_singleton in Hk. rewrite <- Hk in Hd. lia.
    + done.
Qed.

Lemma held_file_task o j w c : stored_ok c → held c → file_task o j (ns_world c) = Some w → o ≠ FileOpens → held (set_world w c).
Proof.
  intros [_ _ Hw _] [H1 H2 H3] Hf Ho. destruct (whole_file_task _ _ _ _ Hw Hf Ho) as [Hsub Hfiles].
  split; cbn; [by rewrite (file_task_store _ _ _ _ Hf)| |auto].
  destruct Hfiles as [->|(t & Ht & ->)]; [done|]. destruct t as [f v|f v k|f|r]; cbn; [| | |done].
  - apply lookup_insert_is_Some'. by right.
  - by apply Hw in Ht.
  - apply lookup_delete_is_Some. split; [|done]. by intros ->.
Qed.

Lemma held_move other c c' :
  store_move other c c' → contains (store (ns_world c')) key = true → stored_ok c → held c → held c'.
Proof.
  intros Hm Hk Hok Hc. pose proof Hc as [H1 H2 H3]. destruct Hm as [l1 rec l2 order _ Ho|rec order _ Ho|k|rec|d|o j w Hf Ho].
  - by apply held_put.
  - by apply held_put.
  - split; [done..|]. cbn. rewrite elem_of_app, list_elem_of_singleton. intros [?|[= Heq%(inj key_to_hex)]]; [done|].
    subst k. unfold contains in Hk. cbn in Hk. apply bool_decide_eq_true in Hk. set_solver.
  - unfold store_put in *. case_decide; [done|]. destruct (event_sender _); [|done]. split; [done..|]. cbn.
    rewrite elem_of_app, list_elem_of_singleton. by intros [?|[=]].
  - done.
  - by eapply held_file_task.
Qed.

(** An idle store that holds a good value. *)
Lemma stored_ok_idle c rec :
  idle c → store_get key (ns_world c) = Some rec → good (r_value rec) → stored_ok c ∧ held c.
Proof.
  intros [Hc Hs] Hg Hv. unfold store_get in Hg. destruct (contains _ _) eqn:Hk; [|done]. apply bind_Some in Hg as (v & Hf & [= <-]). cbn in Hv.
  split; split; rewrite ?Hc, ?Hs; try done; try by intros; apply elem_of_nil.
  - intros v' Hv'. by rewrite Hf in Hv'; injection Hv' as <-.
  - by intros v' ?%elem_of_nil.
  - by intros ? ? ? ?%elem_of_nil.
  - by intros r ?%elem_of_nil.
  - by intros ?%elem_of_nil.
Qed.

End Stored.

End Store.

(** ** Records validated one after the other *)

Section Handled.
Context `{BLS : BlsCrate, XN : XorNameCrate, KD : KadCrate, CR : CrdtsCrate, MK : MerkleCrate}.
Context `{TK : TokenCrate, DI : DbcIdCrate, SD : !SnDbcCrate, DC : !DbcCrate, RP : !RegisterParams}.
Context `{RH : RmpHeader, RC : Rmp (bytes * PaymentProof), RS : Rmp (list SignedSpend), RR : Rmp SignedRegister}.
Context (bld : Build) (genesis : Dbc).
Context (join_order : list DbcId → list DbcId) (hash_order : gset SignedSpend → list SignedSpend).

(** Nothing is lost, and each task starts when what the one before it put is on
    the disk. *)
Fixpoint handled_in_turn (check : bool) (c : NodeStore) (recs : list KRecord) (c' : NodeStore) : Prop :=
  match recs with
  | [] => c' = c
  | rec :: recs =>
      ∃ r c1, rtc calm_step (c, [validate_and_store_record bld genesis join_order hash_order rec check]) (c1, [Done r]) ∧ idle c1 ∧
        handled_in_turn check c1 recs c'
  end.

End Handled.

(** ** Concrete stores *)

(** An idle store with room for a thousand records, which holds these. *)
Definition toy_node_store (recs : list KRecord) : NodeStore :=
  {| ns_world := {| store := {| local_key := (Byte.x00 : PeerId); config := {| max_records := 1000; max_value_bytes := 64 |};
                                records := list_to_set (r_key <$> recs); event_sender := true; distance_range := None |};
                    files := list_to_map ((λ rec, (key_to_hex (r_key rec), r_value rec)) <$> recs);
                    spawned := []; events := []; torn := ∅ |};
     ns_commands := [] |}.

Lemma toy_node_store_idle recs : idle (toy_node_store recs).
Proof. done. Qed.
