(* ===== verification/NodeRegisters.v ===== *)
(** * The registers a node stores

    A node merges the registers it receives into the one it holds
    ([validate_and_store_register], src/sn_node/src/put_validation.rs): it asks
    its store for the local record, merges and writes back, each step a command
    to the driver.  Here the node's store is that of NodeStore.v, with its
    channel of commands and its files, and the node's tasks run over it.

    - [register_settles] says what one such task does when it runs alone and
      nothing is lost.
    - [handled_in_turn] (NodeStore.v): records validated one after the other.
    - [register_task_keeps]: what the tasks of several records keep when they
      run interleaved, and when commands or writes are lost.

    The main theorems: nodes that hold the same register and handle the same
    records one after the other, in any order, end with the same register, whose
    operations are those of all replicas that verify; interleaved, whatever is
    read back verifies and has only operations that came with a register that
    verifies, and while its key is not evicted it loses none of those it had at
    the start; but it can miss the operations of a task that reported success. *)

From S2P Require Import Prelude Deps ToyCrates Registers Protocol Transfers RecordStore Payments Effects Network NodeValidation NodeStore.
From stdpp Require Import base tactics list gmap sorting strings relations.
From Stdlib Require Import ZArith NArith Strings.Byte Lia.

(** ** Validating a register over a store *)

Section NodeRegisters.
Context `{BLS : BlsCrate, XN : XorNameCrate, KD : KadCrate, CR : CrdtsCrate, MK : MerkleCrate}.
Context `{TK : TokenCrate, DI : DbcIdCrate, SD : !SnDbcCrate, DC : !DbcCrate, RP : !RegisterParams}.
Context `{RH : RmpHeader, RC : Rmp (bytes * PaymentProof), RS : Rmp (list SignedSpend), RR : Rmp SignedRegister}.

Definition register_key (sr : SignedRegister) : RecordKey :=
  to_record_key (from_register_address (SignedRegister_address sr)).
#[local] Arguments register_key : simpl never.

(** The record of a register. *)
Definition record_of_register (sr : SignedRegister) : KRecord :=
  {| r_key := register_key sr; r_value := default [] (res_ok (try_serialize_record sr RK_Register)) |}.
#[local] Arguments record_of_register : simpl never.
#[local] Arguments stored : simpl never.

(** The register that is read back under a key. *)
Definition register_of (w : World) (key : RecordKey) : option SignedRegister :=
  rec ← store_get key w; res_ok (try_deserialize_record (T:=SignedRegister) rec).

Lemma register_of_held w key sr :
  register_of w key = Some sr →
  ∃ rec, store_get key w = Some rec ∧ contains (store w) key = true ∧ try_deserialize_record rec = Ok sr.
Proof.
  unfold register_of. intros (rec & Hg & Hd)%bind_Some. exists rec. split_and!; [done| |].
  - unfold store_get in Hg. by destruct (contains _ _).
  - destruct (try_deserialize_record rec); try done. by injection Hd as ->.
Qed.

Context {RHL : RmpHeaderLaws} {RRL : RmpLaws SignedRegister}.
(** Every register has an encoding, and not of zero bytes. *)
Context (Hr0 : ∀ x : SignedRegister, ∃ b, rmp_to_vec x = Some b ∧ b ≠ []).

Lemma record_of_register_value sr :
  try_serialize_record sr RK_Register = Ok (r_value (record_of_register sr)).
Proof.
  destruct (Hr0 sr) as (b & Hb & Hne).
  destruct (record_written_read sr RK_Register (register_key sr) b Hb Hne) as (v & Hv & _).
  unfold record_of_register. cbn. by rewrite Hv.
Qed.

Lemma record_of_register_read sr :
  RecordHeader_from_record (record_of_register sr) = Ok {| rh_kind := RK_Register |} ∧
  try_deserialize_record (record_of_register sr) = Ok sr.
Proof.
  apply serialized_read_back; [|by apply record_of_register_value].
  destruct (Hr0 sr) as (b & -> & Hne). by intros [= ->].
Qed.

Lemma register_of_stored sr w key :
  register_of (stored (record_of_register sr) w) key = if decide (key = register_key sr) then Some sr else register_of w key.
Proof.
  unfold register_of. rewrite stored_get. change (r_key (record_of_register sr)) with (register_key sr).
  case_decide; [|done]. cbn. by rewrite (proj2 (record_of_register_read sr)).
Qed.

Lemma merged_key (o local : SignedRegister) :
  base_register local = base_register o → register_key (with_ops local (sr_ops local ∪ sr_ops o)) = register_key o.
Proof. unfold register_key, SignedRegister_address. cbn. by intros ->. Qed.

Lemma with_ops_key sr ops : register_key (with_ops sr ops) = register_key sr.
Proof. done. Qed.

Lemma acceptable_key sr o : acceptable sr o → register_key o = register_key sr.
Proof. intros [Hb _]. unfold register_key, SignedRegister_address. by rewrite Hb. Qed.

(** The record under which a merged register is written is that of the register. *)
Lemma merged_record (o local : SignedRegister) :
  base_register local = base_register o → let merged := with_ops local (sr_ops local ∪ sr_ops o) in
  {| r_key := register_key o; r_value := r_value (record_of_register merged) |} = record_of_register merged.
Proof. intros Hb. cbn zeta. unfold record_of_register. cbn [r_value]. f_equal. symmetry. by apply merged_key. Qed.

(** A validation that runs alone: a register that is held absorbs the one that
    arrives, and no other is touched. *)
Lemma register_settles w o key sr :
  register_of w key = Some sr → register_key sr = key →
  settles (λ w' _, register_of w' key = Some (verified_merge o sr).1) w (validate_and_store_register o).
Proof.
  intros Hs Hk. rewrite verified_merge_fst.
  assert (¬ acceptable sr o → register_of w key =
    Some (with_ops sr (sr_ops sr ∪ (if decide (acceptable sr o) then sr_ops o else ∅)))) as Hsame.
  { intros Ha. by rewrite (decide_False (P:=acceptable sr o)), union_empty_r_L, with_ops_self by done. }
  assert (∀ m, register_key o ≠ key → register_key m = register_key o →
    register_of (stored (record_of_register m) w) key =
      Some (with_ops sr (sr_ops sr ∪ (if decide (acceptable sr o) then sr_ops o else ∅)))) as Hother.
  { intros m Hne Hm. rewrite register_of_stored, decide_False by congruence. apply Hsame. intros Ha. apply Hne. rewrite <- Hk. by apply acceptable_key. }
  unfold validate_and_store_register, register_validation. cbn.
  change (RegisterAddress_xorname (SignedRegister_address o)) with (register_key o).
  destruct (SignedRegister_verify_total o) as [Hv|[e Hv]]; rewrite Hv; cbn.
  2:{ apply Hsame. intros [_ Ha%SignedRegister_verify_iff]. congruence. }
  apply SignedRegister_verify_iff in Hv. destruct (contains (store w) (register_key o)) eqn:Hc; cbn.
  - destruct (store_get (register_key o) w) as [rec|] eqn:Hg; cbn.
    2:{ apply Hsame. intros Ha%acceptable_key. unfold register_of in Hs. by rewrite <- Hk, <- Ha, Hg in Hs. }
    destruct (try_deserialize_record rec) as [local|e|e] eqn:Hd; cbn.
    2-3: apply Hsame; intros Ha%acceptable_key; unfold register_of in Hs; rewrite <- Hk, <- Ha, Hg in Hs; cbn in Hs; by rewrite Hd in Hs.
    assert (register_key o = key → local = sr) as Hlocal.
    { intros Hok. unfold register_of in Hs. rewrite <- Hok, Hg in Hs. cbn in Hs. rewrite Hd in Hs. by injection Hs. }
    destruct (verified_merge_spec o local) as [(x & -> & Hb & _)|(e & -> & Hn)]; cbn.
    + destruct (decide (with_ops local (sr_ops local ∪ sr_ops o) = local)) as [Hm|Hm]; cbn; [|rewrite record_of_register_value; cbn; eexists; split; [done|]; rewrite (merged_record o local Hb)].
      * destruct (decide (acceptable sr o)) as [Ha|Ha]; [|by rewrite union_empty_r_L, with_ops_self].
        rewrite <- (Hlocal ltac:(rewrite <- Hk; by apply acceptable_key)) in Hs |- *. rewrite Hm. exact Hs.
      * destruct (decide (register_key o = key)) as [Hok|Hok]; [|apply Hother; [done|by apply merged_key]].
        rewrite register_of_stored, decide_True by (rewrite merged_key; congruence).
        rewrite (Hlocal Hok) in *. by rewrite decide_True.
    + apply Hsame. intros Ha. pose proof (acceptable_key _ _ Ha) as Hok. rewrite Hk in Hok. rewrite (Hlocal Hok) in Hn.
      destruct Ha. naive_solver.
  - rewrite record_of_register_value. cbn. eexists. split; [done|]. apply (Hother o); [|done].
    destruct (register_of_held _ _ _ Hs) as (_ & _ & Hkey & _). congruence.
Qed.

(** ** Records of registers *)

Section Handled.
Context (bld : Build) (genesis : Dbc).
Context (join_order : list DbcId → list DbcId) (hash_order : gset SignedSpend → list SignedSpend).
Notation validate := (validate_and_store_record bld genesis join_order hash_order).

(** The record of a register is validated as the register. *)
Lemma validate_register_record o check : validate (record_of_register o) check = validate_and_store_register o.
Proof.
  unfold validate_and_store_record. destruct (record_of_register_read o) as [-> Hd]. rewrite Hd.
  transitivity (if decide (r_key (record_of_register o) ≠ register_key o)
                then lift (Err RecordKeyMismatch) else validate_and_store_register o); [done|].
  by rewrite decide_False by (intros Hne; by apply Hne).
Qed.

Lemma handled_registers check c l c' key sr :
  idle c → register_of (ns_world c) key = Some sr → register_key sr = key →
  handled_in_turn bld genesis join_order hash_order check c (record_of_register <$> l) c' →
  register_of (ns_world c') key = Some (absorb sr l).
Proof.
  revert c sr. induction l as [|o l IH]; intros c sr Hc Hs Hk; cbn [fmap list_fmap handled_in_turn foldl]; [by intros ->|].
  intros (r & c1 & Hrun & Hc1 & H). rewrite validate_register_record in Hrun.
  pose proof (alone_settles _ _ _ _ _ Hc (register_settles _ o _ _ Hs Hk) Hrun Hc1) as Hs1. cbn in Hs1.
  apply (IH c1 _ Hc1 Hs1); [|exact H]. rewrite verified_merge_fst. exact Hk.
Qed.

(** The operations of a task that finds a register to merge with. *)
Lemma register_task_exec c o sr :
  acceptable sr o → register_of (ns_world c) (register_key sr) = Some sr →
  ∃ tr, reads c tr ∧
    if decide (sr_ops o ⊆ sr_ops sr) then exec (validate_and_store_register o) tr (Ok DataAlreadyPresent)
    else exec (validate_and_store_register o)
      (tr ++ [existT (PutLocalRecord (record_of_register (with_ops sr (sr_ops sr ∪ sr_ops o)))) true])
      (Ok StoredSuccessfully).
Proof.
  intros Hacc (rec & Hg & Hc & Hd)%register_of_held. rewrite <- (acceptable_key _ _ Hacc) in *. destruct Hacc as [Hbase Ha].
  apply SignedRegister_verify_iff in Ha.
  exists [existT (RecordStoreHasKey (register_key o)) (Answer true);
          existT (GetLocalRecord (register_key o)) (Answer (Some rec))]. split.
  - repeat constructor; cbn; by rewrite ?Hc, ?Hg.
  - case_decide as Hnew.
    all: apply (exec_vis (RecordStoreHasKey _)); unfold register_validation; cbn; rewrite Ha; cbn;
      apply (exec_vis (GetLocalRecord _)); cbn; rewrite Hd; cbn;
      unfold verified_merge; rewrite decide_False by (intros Hne; by apply Hne); rewrite Ha; cbn.
    + rewrite decide_True by (rewrite (comm_L (∪)), (subseteq_union_1_L _ _ Hnew); apply with_ops_self). constructor.
    + rewrite decide_False by (intros Heq; apply (f_equal sr_ops) in Heq; cbn in Heq; set_solver).
      cbn. rewrite record_of_register_value. cbn.
      change (RegisterAddress_xorname (SignedRegister_address o)) with (register_key o).
      rewrite (merged_record o sr Hbase). apply (exec_vis (PutLocalRecord _)). constructor.
Qed.

Lemma register_held_stored w sr m :
  has_room w → register_of w (register_key sr) = Some sr → register_key m = register_key sr →
  has_room (stored (record_of_register m) w).
Proof.
  intros Hroom (_ & _ & Hk & _)%register_of_held Hm. apply stored_room; [done|].
  change (r_key (record_of_register m)) with (register_key m). rewrite Hm. by apply bool_decide_eq_true in Hk.
Qed.

(** At a store with room, replicas can be handled one after the other with
    nothing lost. *)
Lemma registers_can_be_handled check c l sr :
  idle c → has_room (ns_world c) → register_of (ns_world c) (register_key sr) = Some sr → Forall (acceptable sr) l →
  ∃ c', handled_in_turn bld genesis join_order hash_order check c (record_of_register <$> l) c'.
Proof.
  revert c sr. induction l as [|o l IH]; intros c sr Hc Hroom Hs Hl; cbn [fmap list_fmap handled_in_turn]; [by exists c|].
  apply Forall_cons in Hl as [Ho Hl]. destruct (register_task_exec c o sr Ho Hs) as (tr & Htr & He).
  rewrite validate_register_record. case_decide as Hnew.
  - destruct (IH c sr Hc Hroom Hs Hl) as [c' H]. exists c', (Ok DataAlreadyPresent), c. split_and!; [by eapply alone_reads|done|done].
  - set (merged := with_ops sr (sr_ops sr ∪ sr_ops o)) in He.
    destruct (alone_put _ _ _ _ _ Hc Hroom He Htr) as [Hc1 Hrun]. set (c1 := {| ns_world := _; ns_commands := _ |}) in *.
    destruct (IH c1 merged Hc1) as [c' H].
    + by apply (register_held_stored _ sr).
    + cbn. rewrite register_of_stored. by rewrite decide_True.
    + exact Hl.
    + by exists c', (Ok StoredSuccessfully), c1.
Qed.

(** ** Interleaved tasks *)

(** A value that reads back as a register with the property. *)
Definition register_value (key : RecordKey) (G : SignedRegister → Prop) (v : bytes) : Prop :=
  ∃ sr, try_deserialize_record {| r_key := key; r_value := v |} = Ok sr ∧ G sr.

Lemma register_value_of key (G : SignedRegister → Prop) sr : G sr → register_value key G (r_value (record_of_register sr)).
Proof. intros HG. exists sr. split; [|done]. by destruct (record_of_register_read sr) as [_ <-]. Qed.

(** [G] is what the registers under the key satisfy, and [H] what lets a task
    that finds none store one of its own. *)
Lemma register_task_keeps key (G : SignedRegister → Prop) (H : NodeStore → Prop) o :
  (∀ c rec, H c → H (send_put rec c)) →
  (∀ c, H c → contains (store (ns_world c)) key = false → sr_authentic o → register_key o = key → G o) →
  (∀ sr, G sr → acceptable sr o → G (with_ops sr (sr_ops sr ∪ sr_ops o))) →
  keeps (λ c, stored_ok key (register_value key G) c ∧ H c) (validate_and_store_register o).
Proof.
  intros Hsend Hnew Hmerge. set (I := λ c, stored_ok key (register_value key G) c ∧ H c).
  assert (∀ c m, I c → (register_key m = key → G m) → I (send_put (record_of_register m) c)) as Hput.
  { intros c m [Hok HH] HG. split; [|by apply Hsend]. apply stored_ok_send; [done|]. intros Hm. by apply register_value_of, HG. }
  unfold validate_and_store_register, register_validation. cbn.
  change (RegisterAddress_xorname (SignedRegister_address o)) with (register_key o).
  split; [|by intros a [->| ->]]. intros c a c1 Hc [-> ->]. split; [done|]. cbn.
  destruct (SignedRegister_verify_total o) as [Hv|[e Hv]]; rewrite Hv; cbn; [|done].
  apply SignedRegister_verify_iff in Hv. destruct (contains (store (ns_world c)) (register_key o)) eqn:Hheld; cbn.
  - clear c Hc Hheld. split; [|by intros a [->| ->]]. intros c a c1 [Hok HH] [-> ->]. split; [done|]. cbn.
    destruct (store_get (register_key o) (ns_world c)) as [rec|] eqn:Hg; cbn; [|done].
    destruct (try_deserialize_record rec) as [local|e|w] eqn:Hd; cbn; [|done|done].
    destruct (verified_merge_spec o local) as [(x & -> & Hbase & _)|(e & -> & _)]; cbn; [|done].
    case_decide; cbn; [done|]. rewrite record_of_register_value. cbn. rewrite (merged_record o local Hbase).
    split; [|by intros a ->]. intros c2 a c3 Hc2 [-> ->]. split; [|done]. apply Hput; [done|]. intros Hk.
    rewrite merged_key in Hk by done. rewrite Hk in Hg. destruct (stored_ok_read _ _ _ _ Hok Hg) as [Hrk (sr & Hsr & HG)].
    destruct rec as [k v]. cbn in Hrk, Hsr. subst k. rewrite Hd in Hsr. injection Hsr as <-. apply Hmerge; [done|]. by split.
  - rewrite record_of_register_value. cbn. split; [|by intros a ->]. intros c2 a c3 Hc2 [-> ->]. split; [|done].
    change {| r_key := register_key o; r_value := _ |} with (record_of_register o).
    apply Hput; [done|]. intros Hk. destruct Hc as [_ HH]. rewrite Hk in Hheld. by eapply Hnew.
Qed.

(** The tasks of [l] and what the rest of the node does, over a store that
    holds a register with [G]. *)
Lemma registers_interleaved check (K H : NodeStore → Prop) (G : SignedRegister → Prop) key l c sr0 x :
  idle c → register_of (ns_world c) key = Some sr0 → G sr0 → (held key c → H c) →
  (∀ c rec, H c → H (send_put rec c)) →
  (∀ c c', store_move (λ rec, r_key rec ≠ key) c c' → K c' → stored_ok key (register_value key G) c → H c → H c') →
  (∀ c o, o ∈ l → H c → contains (store (ns_world c)) key = false → sr_authentic o → register_key o = key → G o) →
  (∀ sr o, o ∈ l → G sr → acceptable sr o → G (with_ops sr (sr_ops sr ∪ sr_ops o))) →
  rtc (λ x y, node_step (λ rec, r_key rec ≠ key) x y ∧ K y.1) (c, (λ o, validate (record_of_register o) check) <$> l) x →
  stored_ok key (register_value key G) x.1 ∧ H x.1.
Proof.
  intros Hc (rec & Hg & _ & Hd)%register_of_held HG Hheld Hsend Hmove Hnew Hmerge Hrun.
  destruct (stored_ok_idle key (register_value key G) c rec Hc Hg) as [Hok Hh].
  { exists sr0. split; [|done]. by destruct rec. }
  refine (tasks_keep _ K (λ c, stored_ok key (register_value key G) c ∧ H c) _ _ _ Hrun _ (conj Hok (Hheld Hh))).
  - intros c1 c2 Hm HK [Hok1 HH]. split; [|by eapply Hmove].
    exact (stored_ok_move _ _ _ _ _ (λ _ Hne, Hne) Hm Hok1).
  - apply Forall_fmap, Forall_forall. intros o Ho. unfold compose. rewrite validate_register_record.
    apply register_task_keeps; [done|intros; by eapply Hnew|intros; by apply Hmerge].
Qed.

End Handled.

End NodeRegisters.

(** ** Where the operations of a register come from *)

Section Brought.
Context `{BLS : BlsCrate, XN : XorNameCrate, KD : KadCrate, CR : CrdtsCrate, RP : !RegisterParams}.

(** A register of the key that verifies, with the base of some register of [l]
    that verifies, each of whose operations came with such a one. *)
Definition brought (key : RecordKey) (l : list SignedRegister) (sr : SignedRegister) : Prop :=
  register_key sr = key ∧ sr_authentic sr ∧ (∃ o, o ∈ l ∧ acceptable sr o) ∧
  ∀ op, op ∈ sr_ops sr → ∃ o, o ∈ l ∧ acceptable sr o ∧ op ∈ sr_ops o.

Lemma brought_new key l o : o ∈ l → sr_authentic o → register_key o = key → brought key l o.
Proof. intros Ho Ha Hk. split_and!; [done|done|by exists o|]. intros op Hop. by exists o. Qed.

Lemma brought_merge key l sr o :
  o ∈ l → brought key l sr → acceptable sr o → brought key l (with_ops sr (sr_ops sr ∪ sr_ops o)).
Proof.
  intros Ho (Hk & [Hs Ha] & Hb & Hops) Hacc. pose proof Hacc as (Hbase & _ & Hao). split_and!; [done| |done|].
  - split; [exact Hs|]. cbn. rewrite Hbase in *. intros op [Hop|Hop]%elem_of_union; [by apply Ha|by apply Hao].
  - cbn. intros op [Hop|Hop]%elem_of_union; [by apply Hops|by exists o].
Qed.

End Brought.

(** ** Properties *)

Section Properties.
Context `{BLS : BlsCrate, XN : XorNameCrate, KD : KadCrate, CR : CrdtsCrate, MK : MerkleCrate}.
Context `{TK : TokenCrate, DI : DbcIdCrate, SD : !SnDbcCrate, DC : !DbcCrate, RP : !RegisterParams}.
Context `{RH : RmpHeader, RC : Rmp (bytes * PaymentProof), RS : Rmp (list SignedSpend), RR : Rmp SignedRegister}.
Context (bld : Build) (genesis : Dbc).
Context (join_order : list DbcId → list DbcId) (hash_order : gset SignedSpend → list SignedSpend).
Notation validate := (validate_and_store_record bld genesis join_order hash_order).

(** C8: nodes that hold the same register and validate the same register
    records one after the other, each in its own order, hold the same register
    afterwards: its operations are those it had and those of exactly the
    registers among the records that verify and have the same base.  This is so
    when nothing is lost on the way to the disk: no command is dropped, no write
    of a file fails, the store has room at each put, so that it neither evicts
    nor refuses a record, and each task starts once the file that the one before
    it wrote is on the disk. *)
Theorem node_registers_converge (RHL : RmpHeaderLaws) (RRL : RmpLaws SignedRegister)
    (Hr0 : ∀ x : SignedRegister, ∃ b, rmp_to_vec x = Some b ∧ b ≠ []) check1 check2 sr0 c1 c2 l1 l2 c1' c2' :
  idle c1 → idle c2 → register_of (ns_world c1) (register_key sr0) = Some sr0 →
  register_of (ns_world c2) (register_key sr0) = Some sr0 → l1 ≡ₚ l2 →
  handled_in_turn bld genesis join_order hash_order check1 c1 (record_of_register <$> l1) c1' →
  handled_in_turn bld genesis join_order hash_order check2 c2 (record_of_register <$> l2) c2' →
  register_of (ns_world c1') (register_key sr0) = register_of (ns_world c2') (register_key sr0) ∧
  ∃ sr, register_of (ns_world c1') (register_key sr0) = Some sr ∧ base_register sr = base_register sr0 ∧
    ∀ op, op ∈ sr_ops sr ↔ op ∈ sr_ops sr0 ∨ ∃ o, o ∈ l1 ∧ acceptable sr0 o ∧ op ∈ sr_ops o.
Proof.
  intros Hc1 Hc2 H1 H2 Hp Hh1 Hh2.
  rewrite (handled_registers Hr0 _ _ _ _ _ _ _ _ _ _ Hc1 H1 eq_refl Hh1), (handled_registers Hr0 _ _ _ _ _ _ _ _ _ _ Hc2 H2 eq_refl Hh2).
  split; [by rewrite (absorb_perm _ _ _ Hp)|].
  exists (absorb sr0 l1). split_and!; [done|by rewrite absorb_spec|]. intros op. apply elem_of_absorb.
Qed.

(** C9: the register a node holds stays well formed while any number of
    validations of registers run interleaved on it, whatever else the node does.
    At every moment, also when commands are dropped, writes fail or are still to
    come, or the store evicts the register or refuses it, a record that is read
    back under the key holds a register of that key that verifies, and each of
    its operations came with a register that verifies and has the same base.  In
    a run in which the key is never evicted or removed, the register is read
    back at every moment, with the base and all operations it had at the start.
    The files are written in one step or not at all, and no record is put under
    the key but by these validations. *)
Theorem interleaved_register_well_formed (RHL : RmpHeaderLaws) (RRL : RmpLaws SignedRegister)
    (Hr0 : ∀ x : SignedRegister, ∃ b, rmp_to_vec x = Some b ∧ b ≠ []) check sr0 c l :
  let key := register_key sr0 in
  let step := node_step (λ rec, r_key rec ≠ key) in
  let start := (c, (λ o, validate (record_of_register o) check) <$> l) in
  idle c → register_of (ns_world c) key = Some sr0 → SignedRegister_verify sr0 = Ok tt →
  (∀ c' ps rec, rtc step start (c', ps) → store_get key (ns_world c') = Some rec →
     ∃ sr, try_deserialize_record rec = Ok sr ∧ register_key sr = key ∧ SignedRegister_verify sr = Ok tt ∧
       (∃ o, o ∈ sr0 :: l ∧ acceptable sr o) ∧
       ∀ op, op ∈ sr_ops sr → ∃ o, o ∈ sr0 :: l ∧ acceptable sr o ∧ op ∈ sr_ops o) ∧
  (∀ c' ps, rtc (λ x y, step x y ∧ contains (store (ns_world y.1)) key = true) start (c', ps) →
     ∃ sr, register_of (ns_world c') key = Some sr ∧ base_register sr = base_register sr0 ∧ sr_ops sr0 ⊆ sr_ops sr).
Proof.
  intros key step start Hc Hs Hv%SignedRegister_verify_iff.
  assert (G1_start : brought key (sr0 :: l) sr0) by by (apply brought_new; [by left|done|done]).
  split.
  - intros c' ps rec Hrun Hg.
    assert (rtc (λ x y, step x y ∧ True) start (c', ps)) as Hrun' by (eapply rtc_subrel; [|exact Hrun]; by split).
    destruct (registers_interleaved Hr0 bld genesis join_order hash_order check (λ _, True) (λ _, True) (brought key (sr0 :: l)) key l c sr0 (c', ps) Hc Hs G1_start)
      as [Hok _]; [done..| | |exact Hrun'|].
    + intros c1 o Ho _ _ Ha Hk. apply brought_new; [by right|done|done].
    + intros sr o Ho HG Hacc. apply brought_merge; [by right|done|done].
    + destruct (stored_ok_read _ _ _ _ Hok Hg) as [Hk (sr & Hd & HG)]. exists sr. destruct rec as [k v]. cbn in Hk. subst k.
      split; [exact Hd|]. destruct HG as (Hkey & Ha & Ho & Hops). by split_and!; [|apply SignedRegister_verify_iff| |].
  - intros c' ps Hrun.
    destruct (registers_interleaved Hr0 bld genesis join_order hash_order check (λ c, contains (store (ns_world c)) key = true) (held key)
      (λ sr, base_register sr = base_register sr0 ∧ sr_ops sr0 ⊆ sr_ops sr) key l c sr0 (c', ps) Hc Hs (conj eq_refl (reflexivity _)))
      as [Hok Hh]; [done|by intros ? ? []| | | |exact Hrun|].
    + intros c1 c2 Hm HK Hok. by eapply held_move.
    + intros c1 o _ [Hk _ _] Hk'. congruence.
    + intros sr o _ [Hb Hops] _. split; [done|]. cbn. set_solver.
    + destruct (held_read _ _ Hh) as [rec Hg]. destruct (stored_ok_read _ _ _ _ Hok Hg) as [Hk (sr & Hd & HG)].
      exists sr. split; [|exact HG]. change (store_get key (ns_world c') = Some rec) in Hg. unfold register_of. rewrite Hg.
      cbn. replace rec with {| r_key := key; r_value := r_value rec |} by (rewrite <- Hk; by destruct rec). by rewrite Hd.
Qed.

(** C20: two updates of a register that a node validates at the same time can
    lose one of them.  Whatever the two registers add to the one held, at a store
    with room there is an interleaving of the two tasks with the writes of the
    store, in which no command and no write is lost, after which both tasks have
    returned success, everything is on the disk, and the operations that only the
    first one brought are not in the register that is read back. *)
Theorem interleaved_update_lost (RHL : RmpHeaderLaws) (RRL : RmpLaws SignedRegister)
    (Hr0 : ∀ x : SignedRegister, ∃ b, rmp_to_vec x = Some b ∧ b ≠ []) check sr0 a b c :
  idle c → has_room (ns_world c) →
  register_of (ns_world c) (register_key sr0) = Some sr0 → acceptable sr0 a → acceptable sr0 b →
  ¬ sr_ops a ⊆ sr_ops sr0 → ¬ sr_ops b ⊆ sr_ops sr0 →
  ∃ c', rtc calm_step (c, [validate (record_of_register a) check; validate (record_of_register b) check])
          (c', [Done (Ok StoredSuccessfully); Done (Ok StoredSuccessfully)]) ∧ idle c' ∧
    ∃ sr, register_of (ns_world c') (register_key sr0) = Some sr ∧
      ∀ op, op ∈ sr_ops a → op ∉ sr_ops sr0 → op ∉ sr_ops b → op ∉ sr_ops sr.
Proof.
  intros Hc Hroom Hs Ha Hb Hna Hnb. rewrite !validate_register_record by done.
  destruct (register_task_exec Hr0 c a sr0 Ha Hs) as (ta & Hta & Hea).
  destruct (register_task_exec Hr0 c b sr0 Hb Hs) as (tb & Htb & Heb). rewrite decide_False in Hea by done. rewrite decide_False in Heb by done.
  pose proof (register_held_stored _ sr0 (with_ops sr0 (sr_ops sr0 ∪ sr_ops a)) Hroom Hs eq_refl) as Hroom'.
  destruct (interleaved_puts _ _ _ _ _ _ _ _ _ Hc Hroom Hroom' Hea Hta Heb Htb) as [Hc' Hrun].
  eexists. split; [exact Hrun|]. split; [exact Hc'|]. exists (with_ops sr0 (sr_ops sr0 ∪ sr_ops b)). split.
  - cbn [ns_world]. rewrite (register_of_stored Hr0). by rewrite decide_True.
  - intros op Hop H0 H1 Hin. cbn in Hin. by apply elem_of_union in Hin as [?|?].
Qed.

End Properties.
(** ** The properties at concrete values *)

Lemma toy_register_encoded (x : SignedRegister) : ∃ b, rmp_to_vec x = Some b ∧ b ≠ [].
Proof. exists (toy_enc (encode x)). split; [done|]. by destruct (encode x). Qed.

(** A store that holds a register, and two replicas with an operation each. *)
Definition toy_held_registers : NodeStore := toy_node_store [record_of_register toy_sr].

Definition toy_entry (e : Byte.byte) : RegisterOp :=
  let op := RegisterOp_new (Register_address toy_reg) {| node_children := ∅; node_value := [e] |} (Key toy_owner) None in
  add_signature op toy_owner (bls_sign toy_owner (bytes_for_signing op)).
Definition toy_replica (e : Byte.byte) : SignedRegister := (add_op (toy_entry e) toy_sr).1.
Definition toy_a : SignedRegister := toy_replica Byte.x07.
Definition toy_b : SignedRegister := toy_replica Byte.x08.

Lemma toy_registers_held : register_of (ns_world toy_held_registers) (register_key toy_sr) = Some toy_sr.
Proof. by_compute. Qed.
Lemma toy_registers_idle : idle toy_held_registers.
Proof. apply toy_node_store_idle. Qed.
Lemma toy_registers_room : has_room (ns_world toy_held_registers).
Proof. unfold has_room. by_compute. Qed.

Lemma toy_replica_acceptable e : sr_authentic (toy_replica e) → acceptable toy_sr (toy_replica e).
Proof. intros H. split; [|exact H]. unfold toy_replica. by destruct (add_op_spec (toy_entry e) toy_sr) as [[-> _]|(? & -> & _)]. Qed.

Lemma toy_a_acceptable : acceptable toy_sr toy_a.
Proof. apply toy_replica_acceptable, SignedRegister_verify_iff. by_compute. Qed.
Lemma toy_b_acceptable : acceptable toy_sr toy_b.
Proof. apply toy_replica_acceptable, SignedRegister_verify_iff. by_compute. Qed.

Lemma node_registers_converge_witness :
  ∃ c1 c2, register_of (ns_world c1) (register_key toy_sr) = register_of (ns_world c2) (register_key toy_sr) ∧
    ∃ sr, register_of (ns_world c1) (register_key toy_sr) = Some sr ∧ toy_entry Byte.x07 ∈ sr_ops sr ∧ toy_entry Byte.x08 ∈ sr_ops sr.
Proof.
  destruct (registers_can_be_handled (RRL:=toy_rmp_laws) toy_register_encoded Release toy_genesis id elements true
    toy_held_registers [toy_a; toy_b] toy_sr toy_registers_idle toy_registers_room toy_registers_held) as [c1 H1];
    [apply Forall_cons; split; [exact toy_a_acceptable|apply Forall_singleton, toy_b_acceptable]|].
  destruct (registers_can_be_handled (RRL:=toy_rmp_laws) toy_register_encoded Release toy_genesis id elements false
    toy_held_registers [toy_b; toy_a] toy_sr toy_registers_idle toy_registers_room toy_registers_held) as [c2 H2];
    [apply Forall_cons; split; [exact toy_b_acceptable|apply Forall_singleton, toy_a_acceptable]|].
  exists c1, c2.
  destruct (node_registers_converge Release toy_genesis id elements _ toy_rmp_laws toy_register_encoded true false toy_sr
    toy_held_registers toy_held_registers [toy_a; toy_b] [toy_b; toy_a] c1 c2 toy_registers_idle toy_registers_idle
    toy_registers_held toy_registers_held (perm_swap _ _ _) H1 H2) as (Heq & sr & Hsr & _ & Hops).
  split; [exact Heq|]. exists sr. split_and!; [exact Hsr| |]; apply Hops; right.
  - exists toy_a. split_and!; [by left|exact toy_a_acceptable|by_compute].
  - exists toy_b. split_and!; [by right; left|exact toy_b_acceptable|by_compute].
Defined.

Lemma toy_new_op e : toy_entry e ∈ sr_ops (toy_replica e) → toy_entry e ∉ sr_ops toy_sr → ¬ sr_ops (toy_replica e) ⊆ sr_ops toy_sr.
Proof. set_solver. Qed.

(** The two tasks, run from one store so that both report success. *)
Lemma toy_updates_run check :
  ∃ c' sr, rtc calm_step (toy_held_registers,
      (λ o, validate_and_store_record Release toy_genesis id elements (record_of_register o) check) <$> [toy_a; toy_b])
      (c', [Done (Ok StoredSuccessfully); Done (Ok StoredSuccessfully)]) ∧
    store_get (register_key toy_sr) (ns_world c') = Some (record_of_register sr).
Proof.
  destruct (register_task_exec (RRL:=toy_rmp_laws) toy_register_encoded toy_held_registers toy_a toy_sr toy_a_acceptable
    toy_registers_held) as (ta & Hta & Hea). rewrite decide_False in Hea by (apply toy_new_op; by_compute).
  destruct (register_task_exec (RRL:=toy_rmp_laws) toy_register_encoded toy_held_registers toy_b toy_sr toy_b_acceptable
    toy_registers_held) as (tb & Htb & Heb). rewrite decide_False in Heb by (apply toy_new_op; by_compute).
  rewrite <- (validate_register_record (RRL:=toy_rmp_laws) toy_register_encoded Release toy_genesis id elements _ check) in Hea.
  rewrite <- (validate_register_record (RRL:=toy_rmp_laws) toy_register_encoded Release toy_genesis id elements _ check) in Heb.
  pose proof (register_held_stored _ toy_sr (with_ops toy_sr (sr_ops toy_sr ∪ sr_ops toy_a)) toy_registers_room toy_registers_held
    (with_ops_key _ _)) as Hroom.
  destruct (interleaved_puts _ _ _ _ _ _ _ _ _ toy_registers_idle toy_registers_room Hroom Hea Hta Heb Htb) as [_ Hrun].
  eexists _, (with_ops toy_sr (sr_ops toy_sr ∪ sr_ops toy_b)). split; [exact Hrun|].
  cbn [ns_world]. rewrite stored_get. by rewrite decide_True.
Qed.

Lemma interleaved_register_well_formed_witness :
  ∃ c ps sr, rtc (node_step (λ rec, r_key rec ≠ register_key toy_sr))
      (toy_held_registers, (λ o, validate_and_store_record Release toy_genesis id elements (record_of_register o) true) <$> [toy_a; toy_b])
      (c, ps) ∧ store_get (register_key toy_sr) (ns_world c) = Some (record_of_register sr) ∧ SignedRegister_verify sr = Ok tt.
Proof.
  destruct (toy_updates_run true) as (c & sr & Hrun & Hg).
  destruct (interleaved_register_well_formed Release toy_genesis id elements _ toy_rmp_laws toy_register_encoded true toy_sr
    toy_held_registers [toy_a; toy_b] toy_registers_idle toy_registers_held (proj2 (SignedRegister_verify_iff _) toy_sr_authentic))
    as [H _].
  assert (rtc (node_step (λ rec, r_key rec ≠ register_key toy_sr))
    (toy_held_registers, (λ o, validate_and_store_record Release toy_genesis id elements (record_of_register o) true) <$> [toy_a; toy_b])
    (c, [Done (Ok StoredSuccessfully); Done (Ok StoredSuccessfully)])) as Hrun'.
  { eapply rtc_subrel; [|exact Hrun]. apply calm_node_step. }
  destruct (H _ _ _ Hrun' Hg) as (sr' & Hd & _ & Hv & _).
  rewrite (proj2 (record_of_register_read (RRL:=toy_rmp_laws) toy_register_encoded sr)) in Hd. injection Hd as ->.
  eexists _, _, _. split_and!; [exact Hrun'|exact Hg|exact Hv].
Defined.

Lemma interleaved_update_lost_witness :
  ∃ c' sr, register_of (ns_world c') (register_key toy_sr) = Some sr ∧ toy_entry Byte.x07 ∈ sr_ops toy_a ∧ toy_entry Byte.x07 ∉ sr_ops sr.
Proof.
  destruct (interleaved_update_lost Release toy_genesis id elements _ toy_rmp_laws toy_register_encoded true toy_sr toy_a toy_b
    toy_held_registers toy_registers_idle toy_registers_room toy_registers_held toy_a_acceptable toy_b_acceptable)
    as (c' & _ & _ & sr & Hsr & Hlost).
  - apply toy_new_op; by_compute.
  - apply toy_new_op; by_compute.
  - exists c', sr. split_and!; [exact Hsr|by_compute|]. apply Hlost; by_compute.
Defined.
