(* ===== verification/NodeSpends.v ===== *)
(** * Conflicting spends at one node

    What becomes of two spends of the same DBC that reach a node as records of
    their own ([validate_and_store_spends], src/sn_node/src/put_validation.rs),
    over the store of NodeStore.v.  Validated one after the other, both are kept
    and the second validation reports them; interleaved, the node can keep one
    of them and report success for both. *)

From S2P Require Import Prelude Deps ToyCrates Registers Protocol Transfers RecordStore Payments Effects Network NodeValidation NodeStore.
From stdpp Require Import base tactics list gmap sorting strings relations.
From Stdlib Require Import ZArith NArith Strings.Byte Lia.

#[local] Arguments stored : simpl never.

Section NodeSpends.
Context `{BLS : BlsCrate, XN : XorNameCrate, KD : KadCrate, CR : CrdtsCrate, MK : MerkleCrate}.
Context `{TK : TokenCrate, DI : DbcIdCrate, SD : !SnDbcCrate, DC : !DbcCrate, RP : !RegisterParams}.
Context `{RH : RmpHeader, RC : Rmp (bytes * PaymentProof), RS : Rmp (list SignedSpend), RR : Rmp SignedRegister}.
Context (genesis : Dbc) (hash_order : gset SignedSpend → list SignedSpend).

(** Spends as the record under the key of an id. *)
Definition spends_record (id : DbcId) (spends : list SignedSpend) (rec : KRecord) : Prop :=
  r_key rec = spend_key id ∧ try_serialize_record spends RK_DbcSpend = Ok (r_value rec).

(** Two valid spends are both kept. *)
Lemma aggregate_pair id a b :
  a ≠ b → spend_valid id a → spend_valid id b → ∃ x y, aggregate_spends [a; b] id = [x; y] ∧ [x; y] ≡ₚ [a; b].
Proof.
  intros Hne Ha Hb. rewrite aggregate_eq.
  assert (valid_spends [a; b] id ≡ₚ [a; b]) as Hp.
  { apply NoDup_Permutation; [apply NoDup_valid_spends| |].
    - apply NoDup_cons. split; [by rewrite list_elem_of_singleton|apply NoDup_singleton].
    - intros x. rewrite elem_of_valid_spends. set_solver. }
  pose proof (Permutation_length Hp) as Hl. destruct (valid_spends [a; b] id) as [|x [|y [|z l]]]; try done.
  by exists x, y.
Qed.

Context {RHL : RmpHeaderLaws} {RSL : RmpLaws (list SignedSpend)}.
Context (Hs0 : ∀ x : list SignedSpend, ∃ b, rmp_to_vec x = Some b ∧ b ≠ []).

Lemma spends_record_read id spends rec :
  spends_record id spends rec →
  RecordHeader_from_record rec = Ok {| rh_kind := RK_DbcSpend |} ∧ try_deserialize_record rec = Ok spends.
Proof.
  intros [_ Hv]. destruct rec as [key value]. apply serialized_read_back; [|exact Hv].
  destruct (Hs0 spends) as (b & -> & Hne). by intros [= ->].
Qed.

Lemma spends_serialize (spends : list SignedSpend) : ∃ v, try_serialize_record spends RK_DbcSpend = Ok v.
Proof.
  destruct (Hs0 spends) as (b & Hb & Hne).
  destruct (record_written_read spends RK_DbcSpend [] b Hb Hne) as (v & Hv & _). by exists v.
Qed.

(** A second spend of a DBC whose spend is held: both are written, and reported. *)
Lemma second_spend_detected (Hho : ∀ X, hash_order X ≡ₚ elements X) id a b rec w :
  a ≠ b → spend_valid id a → spend_valid id b →
  store_get (spend_key id) w = Some rec → spends_record id [a] rec →
  settles (λ w' r, ∃ x y rec', [x; y] ≡ₚ [a; b] ∧ r = Err (DoubleSpendAttempt x y) ∧
             spends_record id [x; y] rec' ∧ store_get (spend_key id) w' = Some rec')
    w (validate_and_store_spends genesis hash_order [b]).
Proof.
  intros Hne Ha Hb Hs Hrec. destruct (aggregate_pair id a b Hne Ha Hb) as (x & y & Hagg & Hp).
  destruct (spends_record_read _ _ _ Hrec) as [Hh Hd]. pose proof Hb as [Hid _].
  assert (hash_order {[ b ]} = [b]) as Hob.
  { apply Permutation_singleton_r. by rewrite Hho, elements_singleton. }
  assert (store_get (dbc_xorname (DbcAddress_from_dbc_id id)) w = Some rec) as Hs' by exact Hs.
  assert (contains (store w) (dbc_xorname (DbcAddress_from_dbc_id id)) = true) as Hc.
  { unfold store_get in Hs'. by destruct (contains _ _). }
  unfold validate_and_store_spends. cbn [forallb negb]. rewrite Hid. cbn in Hc, Hs' |- *.
  rewrite Hc. cbn. rewrite Hs'. cbn. rewrite Hh. cbn. rewrite Hd. cbn.
  rewrite (decide_False (P:=RK_DbcSpend ≠ RK_DbcSpend)) by tauto.
  rewrite (decide_True (P:=b ∉ [a])) by (rewrite list_elem_of_singleton; congruence). cbn.
  rewrite !(right_id_L ∅ (∪)). rewrite decide_False by set_solver. cbn. rewrite Hob. cbn. rewrite Hagg.
  destruct (spends_serialize [x; y]) as [v Hv]. rewrite Hv. cbn. eexists. split; [done|].
  exists x, y. eexists. split_and!; [done|done| |rewrite stored_get; by rewrite decide_True]. by split.
Qed.

(** A spend of the genesis DBC that the network does not know, where none is held. *)
Lemma genesis_spend_stored id a rec c :
  spend_valid id a → is_genesis_spend genesis a = true → verify_fee_output_id (spent_tx a) false = Ok tt →
  spends_record id [a] rec → contains (store (ns_world c)) (spend_key id) = false →
  ∃ tr, reads c tr ∧
    exec (validate_and_store_spends genesis hash_order [a]) (tr ++ [existT (PutLocalRecord rec) true]) (Ok StoredSuccessfully).
Proof.
  intros [Hid Hv] Hg Hf [Hk Hr] Hs.
  exists [existT (RecordStoreHasKey (spend_key id)) (Answer false);
          existT (GetNetworkRecord (spend_key id)) (Answer (inl RecordNotFound))]. split.
  - apply Forall_cons. split; [split; [|done]; by rewrite Hs|]. by apply Forall_singleton.
  - unfold validate_and_store_spends. cbn. rewrite Hid. apply (exec_vis (RecordStoreHasKey _)). cbn.
    unfold validate_single_spend. rewrite Hv. cbn. rewrite Hf. cbn. unfold fetch_parents. rewrite Hg. cbn.
    unfold check_parent_spends. rewrite Hg. cbn. apply (exec_vis (GetNetworkRecord _)). cbn.
    rewrite (decide_True (P:=0 = 0)) by done. cbn.
    rewrite (aggregate_single [a] id a); [|by left|set_solver|by split]. rewrite Hr. cbn.
    destruct rec as [key value]. cbn in Hk |- *. subst key. apply (exec_vis (PutLocalRecord _)). constructor.
Qed.

End NodeSpends.

(** ** Properties *)

Section Properties.
Context `{BLS : BlsCrate, XN : XorNameCrate, KD : KadCrate, CR : CrdtsCrate, MK : MerkleCrate}.
Context `{TK : TokenCrate, DI : DbcIdCrate, SD : !SnDbcCrate, DC : !DbcCrate, RP : !RegisterParams}.
Context `{RH : RmpHeader, RC : Rmp (bytes * PaymentProof), RS : Rmp (list SignedSpend), RR : Rmp SignedRegister}.
Context (genesis : Dbc) (hash_order : gset SignedSpend → list SignedSpend).

(** C19: a double spend that reaches a node is detected when the node validates
    the two spends in turn: once the record of the first is what the store reads
    back, the second validation, run alone with no command and no write lost,
    leaves a record of both and returns [DoubleSpendAttempt] with the two of
    them.  When the two validations are interleaved at a store with room, with
    each spend one that is stored alone when it comes alone, both can return
    success, again with no command and no write lost; the node then holds the
    second spend only, and nothing is left of the first. *)
Theorem interleaved_double_spend_hidden (RHL : RmpHeaderLaws) (RSL : RmpLaws (list SignedSpend))
    (Hs0 : ∀ x : list SignedSpend, ∃ b, rmp_to_vec x = Some b ∧ b ≠ []) (Hho : ∀ X, hash_order X ≡ₚ elements X)
    id a b ra rb ta tb c :
  a ≠ b → spend_valid id a → spend_valid id b → spends_record id [a] ra → spends_record id [b] rb →
  idle c → has_room (ns_world c) → has_room (stored ra (ns_world c)) →
  let validate spend := validate_and_store_spends genesis hash_order [spend] in
  exec (validate a) (ta ++ [existT (PutLocalRecord ra) true]) (Ok StoredSuccessfully) → reads c ta →
  exec (validate b) (tb ++ [existT (PutLocalRecord rb) true]) (Ok StoredSuccessfully) → reads c tb →
  (∀ c1 r c2, idle c1 → store_get (spend_key id) (ns_world c1) = Some ra →
     rtc calm_step (c1, [validate b]) (c2, [Done r]) → idle c2 →
     ∃ x y rec, [x; y] ≡ₚ [a; b] ∧ r = Err (DoubleSpendAttempt x y) ∧
       store_get (spend_key id) (ns_world c2) = Some rec ∧ try_deserialize_record rec = Ok [x; y]) ∧
  ∃ c' rec, rtc calm_step (c, [validate a; validate b]) (c', [Done (Ok StoredSuccessfully); Done (Ok StoredSuccessfully)]) ∧
    idle c' ∧ store_get (spend_key id) (ns_world c') = Some rec ∧ try_deserialize_record rec = Ok [b] ∧
    ∀ key, key ≠ spend_key id → store_get key (ns_world c') = store_get key (ns_world c).
Proof.
  intros Hne Ha Hb Hra Hrb Hc Hroom Hroom' validate Hea Hta Heb Htb. split.
  - intros c1 r c2 Hc1 Hg Hrun Hc2.
    destruct (alone_settles _ _ _ _ _ Hc1 (second_spend_detected genesis hash_order Hs0 Hho id a b ra _ Hne Ha Hb Hg Hra) Hrun Hc2)
      as (x & y & rec & Hp & -> & Hrec & Hg').
    exists x, y, rec. split_and!; [done|done|done|]. by apply (spends_record_read Hs0 _ _ _ Hrec).
  - destruct (interleaved_puts _ _ _ _ _ _ _ _ _ Hc Hroom Hroom' Hea Hta Heb Htb) as [Hc' Hrun].
    eexists _, rb. split; [exact Hrun|]. split; [exact Hc'|]. cbn [ns_world]. pose proof (spends_record_read Hs0 _ _ _ Hrb) as [_ Hd].
    destruct Hra as [Hka _], Hrb as [Hkb _]. split_and!.
    + rewrite stored_get. by rewrite decide_True.
    + exact Hd.
    + intros key Hk. rewrite !stored_get. by rewrite !decide_False by congruence.
Qed.

End Properties.

(** ** The property at concrete values *)

Definition toy_other_tx : DbcTransaction :=
  {| tx_inputs := []; tx_outputs := [{| output_dbc_id := (Byte.x05 : DbcId); output_token := toy_tok 3 |}]; tx_fee := fee_default |}.

Definition toy_record_of_spend (spend : SignedSpend) : KRecord :=
  toy_record_of (T:=list SignedSpend) (spend_key (Byte.x21 : DbcId)) [spend] RK_DbcSpend.

Lemma toy_spends_encoded (x : list SignedSpend) : ∃ b, rmp_to_vec x = Some b ∧ b ≠ [].
Proof. exists (toy_enc (encode (x : list ToySpend))). split; [done|]. by destruct (encode _). Qed.

(** Two spends of the genesis DBC, at a node that holds nothing. *)
Lemma interleaved_double_spend_hidden_witness :
  let a := toy_spend toy_free_tx in let b := toy_spend toy_other_tx in
  let validate spend := validate_and_store_spends toy_genesis elements [spend] in
  ∃ c' rec, rtc calm_step (toy_node_store [], [validate a; validate b]) (c', [Done (Ok StoredSuccessfully); Done (Ok StoredSuccessfully)]) ∧
    store_get (spend_key (Byte.x21 : DbcId)) (ns_world c') = Some rec ∧ try_deserialize_record rec = Ok [b].
Proof.
  intros a b validate. set (c := toy_node_store []).
  assert (spends_record Byte.x21 [a] (toy_record_of_spend a)) as Hra by (split; by_compute).
  assert (spends_record Byte.x21 [b] (toy_record_of_spend b)) as Hrb by (split; by_compute).
  assert (spend_valid Byte.x21 a) as Ha by by_compute. assert (spend_valid Byte.x21 b) as Hb by by_compute.
  assert (has_room (ns_world c)) as Hroom by (unfold has_room; by_compute).
  assert (has_room (stored (toy_record_of_spend a) (ns_world c))) as Hroom' by (unfold has_room; by_compute).
  destruct (genesis_spend_stored (RSL:=toy_rmp_laws) toy_genesis elements toy_spends_encoded Byte.x21 a (toy_record_of_spend a) c Ha) as (ta & Hta & Hea);
    [by_compute|by_compute|exact Hra|by_compute|].
  destruct (genesis_spend_stored (RSL:=toy_rmp_laws) toy_genesis elements toy_spends_encoded Byte.x21 b (toy_record_of_spend b) c Hb) as (tb & Htb & Heb);
    [by_compute|by_compute|exact Hrb|by_compute|].
  destruct (interleaved_double_spend_hidden toy_genesis elements _ toy_rmp_laws toy_spends_encoded (λ X, Permutation_refl _)
    Byte.x21 a b _ _ ta tb c ltac:(by_compute) Ha Hb Hra Hrb (toy_node_store_idle _) Hroom Hroom' Hea Hta Heb Htb)
    as (_ & c' & rec & Hrun & _ & Hs & Hd & _).
  exists c', rec. split_and!; [exact Hrun|exact Hs|exact Hd].
Defined.
