(* ===== verification/SwarmDriver.v ===== *)
(** * sn_networking: the [SwarmDriver]

    - [handle_cmd], [dial]: src/sn_networking/src/cmd.rs;
    - [handle_msg]: src/sn_networking/src/msg/mod.rs;
    - [handle_swarm_events], [handle_kad_event], [accumulate_get_record_ok],
      [try_update_self_for_split_record], the close group:
      src/sn_networking/src/event.rs;
    - the driver's state, [send_event], the main loop and the address helpers:
      src/sn_networking/src/lib.rs.

    The driver owns the record store and the replication fetcher, the maps of
    pending queries and requests, and the libp2p swarm.  libp2p is not part of
    the program: what a call of it returns is a field of the environment [Env]
    of the step, and that it was called is an entry of the driver's output log,
    beside the answers sent through oneshot channels and the events sent to the
    upper layer.  A channel is a number, and [alive] says whether its receiver
    still exists.

    The main theorems: a record is only reported as found with the votes of a
    majority of distinct peers; every terminating event of a record query
    answers the caller; and how split votes are resolved. *)

From S2P Require Import Prelude Deps ToyCrates Registers Protocol RecordStore ReplicationFetcher Effects Network.
From stdpp Require Import base tactics list gmap sorting strings.
From Stdlib Require Import ZArith NArith Strings.Byte Lia.

Definition MAX_PACKET_SIZE : nat := 1024 * 1024 * 2.
Definition IDENTIFY_AGENT_STR : string := "safe/node/".

(** ** Messages and state *)

(** Copies of a record by content hash, with the peers that sent them. *)
Notation GetRecordResultMap := (gmap XorName (KRecord * gset PeerId)).

Section Driver.
Context `{BLS : BlsCrate, XN : XorNameCrate, KD : KadCrate, CR : CrdtsCrate}.
Context `{TK : TokenCrate, DI : DbcIdCrate, SD : !SnDbcCrate}.

(** Ids of oneshot channels, of response channels to peers, of kad queries and
    of requests. *)
Definition Chan : Type := nat.
Definition PeerChan : Type := nat.
Definition QueryId : Type := nat.
Definition RequestId : Type := nat.

Inductive MsgResponder :=
| FromSelf (channel : option Chan)
| FromPeer (channel : PeerChan).

Inductive NatStatus := Public (a : Multiaddr) | Private | NatUnknown.

Inductive NetworkEvent :=
| RequestReceived (req : Request) (channel : MsgResponder)
| ResponseReceived (res : Response)
| PeerAdded (p : PeerId)
| PeerRemoved (p : PeerId)
| KeysForReplication (keys : list (RecordKey * option PeerId))
| NewListenAddr (a : Multiaddr)
| NatStatusChanged (s : NatStatus)
| UnverifiedRecord (r : KRecord).

Inductive SwarmCmd :=
| SC_StartListening (addr : Multiaddr) (sender : Chan)
| SC_Dial (addr : Multiaddr) (sender : Chan)
| SC_GetClosestPeers (key : NetworkAddress) (sender : Chan)
| SC_GetClosestLocalPeers (key : NetworkAddress) (sender : Chan)
| SC_GetAllLocalPeers (sender : Chan)
| SC_GetOurCloseGroup (sender : Chan)
| SC_GetSwarmLocalState (sender : Chan)
| SC_SendRequest (req : Request) (peer : PeerId) (sender : option Chan)
| SC_SendResponse (resp : Response) (channel : MsgResponder)
| SC_RecordStoreHasKey (key : RecordKey) (sender : Chan)
| SC_GetAllLocalRecordAddresses (sender : Chan)
| SC_GetNetworkRecord (key : RecordKey) (sender : Chan)
| SC_GetLocalStoreCost (sender : Chan)
| SC_GetLocalRecord (key : RecordKey) (sender : Chan)
| SC_PutRecord (record : KRecord) (sender : Chan)
| SC_PutLocalRecord (record : KRecord)
| SC_AddKeysToReplicationFetcher (peer : PeerId) (keys : list NetworkAddress).

(** What is sent through a oneshot channel. *)
Inductive Payload :=
| P_Unit (r : NetworkError + unit)
| P_PeerSet (s : gset PeerId)
| P_PeerList (l : list PeerId)
| P_LocalState (connected : list PeerId) (listeners : list Multiaddr)
| P_Response (r : NetworkError + Response)
| P_Bool (b : bool)
| P_Addresses (l : list NetworkAddress)
| P_Record (r : NetworkError + KRecord)
| P_Token (t : Token)
| P_LocalRecord (r : option KRecord).

(** What the driver does to the outside. *)
Inductive Output :=
| Sent (c : Chan) (p : Payload)
| Event (ev : NetworkEvent)
| ListenOn (a : Multiaddr)
| DialOut (peer : option PeerId) (a : Multiaddr)
| AddExternalAddress (a : Multiaddr)
| KadGetRecord (id : QueryId) (key : RecordKey)
| KadGetClosestPeers (id : QueryId) (key : bytes)
| KadPutRecord (r : KRecord)
| KadBootstrap
| KadAddAddress (p : PeerId) (a : Multiaddr)
| KadRemovePeer (p : PeerId)
| AutonatAddServer (p : PeerId) (a : Multiaddr)
| OutRequest (id : RequestId) (peer : PeerId) (req : Request)
| OutResponse (c : PeerChan) (resp : Response).

Record SwarmDriver := MkDriver {
  self_peer_id : PeerId;
  pending_get_closest_peers : gmap QueryId (Chan * gset PeerId);
  pending_requests : gmap RequestId (option Chan);
  pending_get_record : gmap QueryId (Chan * GetRecordResultMap);
  replication_fetcher : ReplicationFetcher;
  local : bool;
  dialed_peers : CircularVec PeerId;
  close_group : list PeerId;
  bootstrap_done : bool;
  is_client : bool;
  record_store : World;
  outputs : list Output;
}.

(** What the swarm, the clock and the other sides of the channels answer
    during one step. *)
Record Env := {
  env_build : Build;
  alive : Chan → bool;
  has_capacity : NetworkEvent → bool;
  kbuckets : list (list PeerId);
  fresh_query : QueryId;
  fresh_request : RequestId;
  put_started : NetworkError + unit;
  listening : NetworkError + unit;
  dialing : NetworkError + unit;
  response_sent : bool;
  closest_local_peers : list PeerId;
  removed_peer : option PeerId;
  connected_peers : list PeerId;
  listeners : list Multiaddr;
  has_autonat : bool;
  result_order : GetRecordResultMap → list (XorName * (KRecord * gset PeerId));
  store_order : list RecordKey;
  fetch_order : list RecordKey;
  fetch_clock : Clock;
  fetch_now : Z;
  cost_factor : Z;
}.

Notation D := (StM SwarmDriver NetworkError).

Definition set_pending_get_closest_peers m (d : SwarmDriver) : SwarmDriver :=
  MkDriver (self_peer_id d) m (pending_requests d) (pending_get_record d) (replication_fetcher d) (local d)
    (dialed_peers d) (close_group d) (bootstrap_done d) (is_client d) (record_store d) (outputs d).
Definition set_pending_requests m (d : SwarmDriver) : SwarmDriver :=
  MkDriver (self_peer_id d) (pending_get_closest_peers d) m (pending_get_record d) (replication_fetcher d) (local d)
    (dialed_peers d) (close_group d) (bootstrap_done d) (is_client d) (record_store d) (outputs d).
Definition set_pending_get_record m (d : SwarmDriver) : SwarmDriver :=
  MkDriver (self_peer_id d) (pending_get_closest_peers d) (pending_requests d) m (replication_fetcher d) (local d)
    (dialed_peers d) (close_group d) (bootstrap_done d) (is_client d) (record_store d) (outputs d).
Definition set_replication_fetcher f (d : SwarmDriver) : SwarmDriver :=
  MkDriver (self_peer_id d) (pending_get_closest_peers d) (pending_requests d) (pending_get_record d) f (local d)
    (dialed_peers d) (close_group d) (bootstrap_done d) (is_client d) (record_store d) (outputs d).
Definition set_dialed_peers v (d : SwarmDriver) : SwarmDriver :=
  MkDriver (self_peer_id d) (pending_get_closest_peers d) (pending_requests d) (pending_get_record d)
    (replication_fetcher d) (local d) v (close_group d) (bootstrap_done d) (is_client d) (record_store d) (outputs d).
Definition set_close_group g (d : SwarmDriver) : SwarmDriver :=
  MkDriver (self_peer_id d) (pending_get_closest_peers d) (pending_requests d) (pending_get_record d)
    (replication_fetcher d) (local d) (dialed_peers d) g (bootstrap_done d) (is_client d) (record_store d) (outputs d).
Definition set_bootstrap_done b (d : SwarmDriver) : SwarmDriver :=
  MkDriver (self_peer_id d) (pending_get_closest_peers d) (pending_requests d) (pending_get_record d)
    (replication_fetcher d) (local d) (dialed_peers d) (close_group d) b (is_client d) (record_store d) (outputs d).
Definition set_record_store w (d : SwarmDriver) : SwarmDriver :=
  MkDriver (self_peer_id d) (pending_get_closest_peers d) (pending_requests d) (pending_get_record d)
    (replication_fetcher d) (local d) (dialed_peers d) (close_group d) (bootstrap_done d) (is_client d) w (outputs d).
Definition add_output o (d : SwarmDriver) : SwarmDriver :=
  MkDriver (self_peer_id d) (pending_get_closest_peers d) (pending_requests d) (pending_get_record d)
    (replication_fetcher d) (local d) (dialed_peers d) (close_group d) (bootstrap_done d) (is_client d)
    (record_store d) (outputs d ++ [o]).

(** The driver that [SwarmDriver::with] builds for a peer whose record
    directory holds [files]. *)
Definition driver_with (peer_id : PeerId) (local is_client : bool) (files : gmap string bytes) : SwarmDriver :=
  let store_cfg := {| max_records := max_records DiskBackedRecordStoreConfig_default;
                      max_value_bytes := MAX_PACKET_SIZE |} in
  {| self_peer_id := peer_id;
     pending_get_closest_peers := ∅;
     pending_requests := ∅;
     pending_get_record := ∅;
     replication_fetcher := ReplicationFetcher_default;
     local := local;
     dialed_peers := CircularVec_new 63;
     close_group := [];
     bootstrap_done := false;
     is_client := is_client;
     record_store := {| store := with_config peer_id store_cfg true; files := files; spawned := []; events := []; torn := ∅ |};
     outputs := [] |}.

(** ** Effects *)

Section Step.
Context (K_VALUE : nat) (env : Env).

Definition emit (o : Output) : D unit := modify (add_output o).

Definition send_event (event : NetworkEvent) : D unit :=
  if has_capacity env event then emit (Event event) else mret tt.

(** [sender.send(..)], whose result is ignored. *)
Definition send (c : Chan) (p : Payload) : D unit := emit (Sent c p).

(** [sender.send(..).map_err(|_| Error::InternalMsgChannelDropped)?]. *)
Definition send_checked (c : Chan) (p : Payload) : D unit :=
  _ ← emit (Sent c p);
  if alive env c then mret tt else throw InternalMsgChannelDropped.

(** A method of the record store, and one of the replication fetcher. *)
Definition on_store {A : Type} (m : StM World StoreError A) : D A := λ d,
  let '(w, r) := m (record_store d) in (set_record_store w d, map_err KademliaStoreError r).

Definition on_fetcher {A : Type} (m : StM ReplicationFetcher Empty_set A) : D A := λ d,
  let '(f, r) := m (replication_fetcher d) in
  (set_replication_fetcher f d, map_err (λ e : Empty_set, match e with end) r).

(** [let _ = self...]: an error is dropped. *)
Definition ignore_err {A : Type} (m : D A) : D unit := λ d,
  match m d with
  | (d', Ok _) | (d', Err _) => (d', Ok tt)
  | (d', Panic w) => (d', Panic w)
  end.

(** ** The routing table and the close group *)

Definition all_local_peers : D (list PeerId) := gets (λ d, concat (kbuckets env) ++ [self_peer_id d]).

Definition update_record_distance_range : D (option unit) :=
  our_address ← gets (λ d, from_peer (self_peer_id d));
  group ← gets close_group;
  match last group with
  | Some peer =>
      _ ← on_store (modify (set_distance_range (na_distance (from_peer peer) our_address)));
      mret (Some tt)
  | None => mret None
  end.

Definition check_for_change_in_our_close_group : D (option (list PeerId)) :=
  all_peers ← all_local_peers;
  me ← gets self_peer_id;
  match sort_peers_by_address all_peers (from_peer me) CLOSE_GROUP_SIZE with
  | Ok new_closest_peers =>
      old ← gets close_group;
      let new_members := filter (λ p, p ∉ old) new_closest_peers in
      if decide (new_members ≠ []) then
        _ ← modify (set_close_group new_closest_peers);
        _ ← update_record_distance_range;
        mret (Some new_members)
      else mret None
  | _ => mret None
  end.

(** ** cmd.rs *)

Definition dial (addr : Multiaddr) : D (NetworkError + unit) :=
  let '(addr, peer_id) := multiaddr_pop_p2p addr in
  _ ← emit (DialOut peer_id addr);
  mret (dialing env).

Definition handle_cmd (cmd : SwarmCmd) : D unit :=
  match cmd with
  | SC_AddKeysToReplicationFetcher peer keys =>
      all_peers ← all_local_peers;
      me ← gets self_peer_id;
      let keys_to_store := List.filter (λ key, is_in_close_range me key all_peers) keys in
      all_keys ← gets (λ d, records (store (record_store d)));
      keys_to_fetch ← on_fetcher (add_keys (env_build env) (fetch_clock env) (fetch_now env) (fetch_order env)
                                    peer keys_to_store all_keys);
      if decide (keys_to_fetch ≠ []) then send_event (KeysForReplication keys_to_fetch) else mret tt
  | SC_GetNetworkRecord key sender =>
      let query_id := fresh_query env in
      _ ← emit (KadGetRecord query_id key);
      modify (λ d, set_pending_get_record (<[query_id := (sender, ∅)]> (pending_get_record d)) d)
  | SC_GetLocalStoreCost sender =>
      cost ← gets (λ d, store_cost (cost_factor env) (store (record_store d)));
      send sender (P_Token cost)
  | SC_GetLocalRecord key sender =>
      record ← gets (λ d, store_get key (record_store d));
      send sender (P_LocalRecord record)
  | SC_PutRecord record sender =>
      _ ← emit (KadPutRecord record);
      send sender (P_Unit (put_started env))
  | SC_PutLocalRecord record =>
      let key := r_key record in
      _ ← on_store (put_verified (store_order env) record);
      new_keys_to_fetch ← on_fetcher (notify_about_new_put (env_build env) (fetch_clock env) (fetch_order env) key);
      if decide (new_keys_to_fetch ≠ []) then send_event (KeysForReplication new_keys_to_fetch) else mret tt
  | SC_RecordStoreHasKey key sender =>
      has_key ← gets (λ d, contains (store (record_store d)) key);
      send sender (P_Bool has_key)
  | SC_GetAllLocalRecordAddresses sender =>
      addresses ← gets (λ d, from_record_key <$> elements (records (store (record_store d))));
      send sender (P_Addresses addresses)
  | SC_StartListening addr sender =>
      _ ← emit (ListenOn addr);
      send sender (P_Unit (listening env))
  | SC_Dial addr sender =>
      r ← dial addr;
      send sender (P_Unit r)
  | SC_GetClosestPeers key sender =>
      let query_id := fresh_query env in
      _ ← emit (KadGetClosestPeers query_id (as_bytes key));
      modify (λ d, set_pending_get_closest_peers
                     (<[query_id := (sender, ∅)]> (pending_get_closest_peers d)) d)
  | SC_GetClosestLocalPeers key sender =>
      send sender (P_PeerList (take CLOSE_GROUP_SIZE (closest_local_peers env)))
  | SC_GetAllLocalPeers sender =>
      all_peers ← all_local_peers;
      send sender (P_PeerList all_peers)
  | SC_GetOurCloseGroup sender =>
      group ← gets close_group;
      send sender (P_PeerList group)
  | SC_SendRequest req peer sender =>
      me ← gets self_peer_id;
      if decide (peer = me) then send_event (RequestReceived req (FromSelf sender))
      else
        let request_id := fresh_request env in
        _ ← emit (OutRequest request_id peer req);
        modify (λ d, set_pending_requests (<[request_id := sender]> (pending_requests d)) d)
  | SC_SendResponse resp channel =>
      match channel with
      | FromSelf (Some channel) => send_checked channel (P_Response (inr resp))
      | FromSelf None => send_event (ResponseReceived resp)
      | FromPeer channel =>
          if response_sent env then emit (OutResponse channel resp) else throw (OutgoingResponseDropped resp)
      end
  | SC_GetSwarmLocalState sender =>
      send_checked sender (P_LocalState (connected_peers env) (listeners env))
  end.

(** ** msg/mod.rs *)

(** The request-response events. *)
Inductive MsgEvent :=
| Message_Request (peer : PeerId) (request : Request) (channel : PeerChan)
| Message_Response (peer : PeerId) (request_id : RequestId) (response : Response)
| OutboundFailure (peer : PeerId) (request_id : RequestId)
| InboundFailure
| ResponseSent.

(** [self.pending_requests.remove(&request_id)]. *)
Definition remove_pending_request (request_id : RequestId) : D (option (option Chan)) := λ d,
  (set_pending_requests (delete request_id (pending_requests d)) d, Ok (pending_requests d !! request_id)).

Definition handle_msg (event : MsgEvent) : D unit :=
  match event with
  | Message_Request _ request channel => send_event (RequestReceived request (FromPeer channel))
  | Message_Response _ request_id response =>
      sender ← remove_pending_request request_id;
      match sender with
      | Some (Some sender) => send_checked sender (P_Response (inr response))
      | Some None => send_event (ResponseReceived response)
      | None => mret tt
      end
  | OutboundFailure _ request_id =>
      sender ← remove_pending_request request_id;
      match sender with
      | Some (Some sender) => send_checked sender (P_Response (inl OutboundError))
      | Some None | None => throw (ReceivedResponseDropped request_id)
      end
  | InboundFailure | ResponseSent => mret tt
  end.

(** ** event.rs: kad queries *)

Inductive KademliaEvent :=
| GetClosestPeersOk (id : QueryId) (peers : list PeerId) (last : bool)
| GetClosestPeersErr (id : QueryId)
| FoundRecord (id : QueryId) (peer : option PeerId) (record : KRecord) (count : nat)
| FinishedWithNoAdditionalRecord (id : QueryId)
| GetRecordErr (id : QueryId)
| BootstrapProgressed
| RoutingUpdated (peer : PeerId) (is_new_peer : bool) (old_peer : option PeerId)
| InboundRequest
| OtherKadEvent.

(** One entry of the loop over the votes: the highest number of votes so far,
    and the copies that have it. *)
Definition split_step (acc : nat * GetRecordResultMap) (entry : XorName * (KRecord * gset PeerId))
    : nat * GetRecordResultMap :=
  let '(highest_count, highest_records) := acc in
  let '(xor_name, (record, peer_list)) := entry in
  let highest_records := if decide (highest_count < size peer_list) then ∅ else highest_records in
  if decide (highest_count ≤ size peer_list)
  then (size peer_list, <[xor_name := (record, peer_list)]> highest_records)
  else (highest_count, highest_records).

Definition try_update_self_for_split_record (result_map : GetRecordResultMap) : D unit :=
  if decide (size result_map = 1) then mret tt
  else
    let highest_records := (foldl split_step (0, ∅) (result_order env result_map)).2 in
    match head (bmap_iter highest_records) with
    | Some (_, (record, peer_list)) =>
        me ← gets self_peer_id;
        if decide (me ∉ peer_list) then ignore_err (on_store (put_verified (store_order env) record)) else mret tt
    | None => mret tt
    end.

(** [self.pending_get_record.remove(&id)], and the same for closest peers. *)
Definition remove_pending_get_record (id : QueryId) : D (option (Chan * GetRecordResultMap)) := λ d,
  (set_pending_get_record (delete id (pending_get_record d)) d, Ok (pending_get_record d !! id)).

Definition remove_pending_get_closest_peers (id : QueryId) : D (option (Chan * gset PeerId)) := λ d,
  (set_pending_get_closest_peers (delete id (pending_get_closest_peers d)) d,
   Ok (pending_get_closest_peers d !! id)).

(** The votes after one more copy; returns also the peers of its content. *)
Definition add_vote (peer_id : PeerId) (record : KRecord) (result_map : GetRecordResultMap)
    : GetRecordResultMap * gset PeerId :=
  let record_content_hash := from_content (r_value record) in
  let peer_list :=
    match result_map !! record_content_hash with
    | Some (_, peer_list) => {[ peer_id ]} ∪ peer_list
    | None => {[ peer_id ]}
    end in
  (<[record_content_hash := (record, peer_list)]> (delete record_content_hash result_map), peer_list).

Definition accumulate_get_record_ok (query_id : QueryId) (peer : option PeerId) (record : KRecord) (count : nat)
    : D unit :=
  me ← gets self_peer_id;
  let peer_id := default me peer in
  pending ← remove_pending_get_record query_id;
  match pending with
  | Some (sender, result_map) =>
      let '(result_map, peer_list) := add_vote peer_id record result_map in
      let result :=
        if decide (close_group_majority ≤ size peer_list) then Some (inr record)
        else if decide (CLOSE_GROUP_SIZE ≤ count) then Some (inl RecordNotFound)
        else None in
      match result with
      | Some result =>
          _ ← send sender (P_Record result);
          try_update_self_for_split_record result_map
      | None =>
          modify (λ d, set_pending_get_record (<[query_id := (sender, result_map)]> (pending_get_record d)) d)
      end
  | None => mret tt
  end.

Definition handle_kad_event (kad_event : KademliaEvent) : D unit :=
  match kad_event with
  | GetClosestPeersOk id peers last =>
      pending ← remove_pending_get_closest_peers id;
      p ← lift_res (ok_or pending ReceivedKademliaEventDropped);
      let '(sender, current_closest) := p in
      let current_closest : gset PeerId := current_closest ∪ list_to_set peers in
      if decide (K_VALUE ≤ size current_closest ∨ last = true)
      then send_checked sender (P_PeerSet current_closest)
      else modify (λ d, set_pending_get_closest_peers
                          (<[id := (sender, current_closest)]> (pending_get_closest_peers d)) d)
  | FoundRecord id peer record count => accumulate_get_record_ok id peer record count
  | FinishedWithNoAdditionalRecord id =>
      pending ← remove_pending_get_record id;
      match pending with
      | Some (sender, result_map) =>
          match head (result_order env result_map) with
          | Some (_, (record, _)) => send_checked sender (P_Record (inl (RecordNotEnoughCopies record)))
          | None => send_checked sender (P_Record (inl RecordNotFound))
          end
      | None => mret tt
      end
  | GetRecordErr id =>
      pending ← remove_pending_get_record id;
      match pending with
      | Some (sender, _) => send_checked sender (P_Record (inl RecordNotFound))
      | None => mret tt
      end
  | RoutingUpdated peer is_new_peer old_peer =>
      _ ← (if is_new_peer then
             _ ← send_event (PeerAdded peer);
             started ← gets bootstrap_done;
             if negb started then
               _ ← emit KadBootstrap;
               modify (set_bootstrap_done true)
             else mret tt
           else mret tt);
      _ ← (if decide (is_Some old_peer) then send_event (PeerRemoved peer) else mret tt);
      _ ← check_for_change_in_our_close_group;
      mret tt
  | GetClosestPeersErr _ | BootstrapProgressed | InboundRequest | OtherKadEvent => mret tt
  end.

(** ** event.rs: swarm events *)

Record IdentifyInfo := {
  agent_version : string;
  listen_addrs : list Multiaddr;
  protocols : list string;
}.

Inductive SwarmEvent :=
| SE_MsgReceived (ev : MsgEvent)
| SE_Kademlia (ev : KademliaEvent)
| SE_IdentifyReceived (peer_id : PeerId) (info : IdentifyInfo)
| SE_IdentifyOther
| SE_MdnsDiscovered (list : list (PeerId * Multiaddr))
| SE_MdnsExpired
| SE_NewListenAddr (address : Multiaddr)
| SE_ConnectionEstablished (peer_id : PeerId) (is_dialer : bool)
| SE_ConnectionClosed
| SE_OutgoingConnectionError (failed_peer_id : option PeerId)
| SE_AutonatStatusChanged (new : NatStatus)
| SE_AutonatProbe
| SE_Other.

(** A loop of calls. *)
Fixpoint for_each {A : Type} (l : list A) (f : A → D unit) : D unit :=
  match l with [] => mret tt | x :: l => _ ← f x; for_each l f end.

Definition handle_identify (peer_id : PeerId) (info : IdentifyInfo) : D unit :=
  is_local ← gets local;
  dialed ← gets dialed_peers;
  if (is_local || CircularVec_contains peer_id dialed) && String.prefix IDENTIFY_AGENT_STR (agent_version info) then
    let addrs := if is_local then listen_addrs info else List.filter multiaddr_is_global (listen_addrs info) in
    let addrs := unique (multiaddr_strip_p2p <$> addrs) in
    _ ← for_each addrs (λ a, emit (KadAddAddress peer_id a));
    if existsb (String.prefix "/libp2p/autonat/") (protocols info) then
      if has_autonat env then for_each addrs (λ a, emit (AutonatAddServer peer_id a)) else mret tt
    else mret tt
  else mret tt.

Definition handle_swarm_events (event : SwarmEvent) : D unit :=
  match event with
  | SE_MsgReceived event => ignore_err (handle_msg event)
  | SE_Kademlia kad_event => handle_kad_event kad_event
  | SE_IdentifyReceived peer_id info => handle_identify peer_id info
  | SE_IdentifyOther => mret tt
  | SE_MdnsDiscovered list =>
      is_local ← gets local;
      if is_local : bool
      then for_each list (λ pa : PeerId * Multiaddr, _ ← dial (pa.2 ++ [P2p pa.1]); mret tt)
      else mret tt
  | SE_MdnsExpired => mret tt
  | SE_NewListenAddr address =>
      me ← gets self_peer_id;
      let address := address ++ [P2p me] in
      client ← gets is_client;
      is_local ← gets local;
      _ ← (if negb client && (is_local || multiaddr_is_global address)
           then emit (AddExternalAddress address) else mret tt);
      send_event (NewListenAddr address)
  | SE_ConnectionEstablished peer_id is_dialer =>
      if is_dialer then
        λ d, let '(v, r) := CircularVec_push peer_id (dialed_peers d) in
             (set_dialed_peers v d, map_err (λ _, Network.CircularVecPopFrontError) r)
      else mret tt
  | SE_ConnectionClosed => mret tt
  | SE_OutgoingConnectionError (Some failed_peer_id) =>
      _ ← emit (KadRemovePeer failed_peer_id);
      match removed_peer env with
      | Some dead_peer =>
          _ ← send_event (PeerRemoved dead_peer);
          _ ← check_for_change_in_our_close_group;
          mret tt
      | None => mret tt
      end
  | SE_AutonatStatusChanged new => send_event (NatStatusChanged new)
  | SE_OutgoingConnectionError None | SE_AutonatProbe | SE_Other => mret tt
  end.

(** ** The main loop *)

Inductive Input := InCmd (cmd : SwarmCmd) | InEvent (event : SwarmEvent).

(** One round of [run]: an error is logged; [None] when the driver panics. *)
Definition run_round (input : Input) (d : SwarmDriver) : option SwarmDriver :=
  match (match input with InCmd cmd => handle_cmd cmd d | InEvent event => handle_swarm_events event d end) with
  | (d', Ok _) | (d', Err _) => Some d'
  | (_, Panic _) => None
  end.

End Step.

End Driver.

(** ** Reachable drivers *)

Section Reachable.
Context `{BLS : BlsCrate, XN : XorNameCrate, KD : KadCrate, CR : CrdtsCrate}.
Context `{TK : TokenCrate, DI : DbcIdCrate, SD : !SnDbcCrate}.
Context (K_VALUE : nat).

Notation D := (StM SwarmDriver NetworkError).
Notation History := (list (Env * Input)).

(** From a new driver, by rounds of the main loop and by what else happens to
    the record store: the calls of kad and the spawned file tasks. *)
Inductive driver_reachable : History → SwarmDriver → Prop :=
| reachable_new peer local client fs : driver_reachable [] (driver_with peer local client fs)
| reachable_round h d env input d' :
    driver_reachable h d → run_round K_VALUE env input d = Some d' → driver_reachable (h ++ [(env, input)]) d'
| reachable_store h d l w :
    driver_reachable h d → world_step l (record_store d) w → driver_reachable h (set_record_store w d).

(** A peer sent a copy with the content hash [n] for the query [id]. *)
Definition voted (h : History) (me : PeerId) (id : QueryId) (p : PeerId) (n : XorName) : Prop :=
  ∃ env peer rec count, (env, InEvent (SE_Kademlia (FoundRecord id peer rec count))) ∈ h ∧
    default me peer = p ∧ from_content (r_value rec) = n.

(** The query [id] was started for the caller behind [c]. *)
Definition asked (h : History) (id : QueryId) (c : Chan) : Prop :=
  ∃ env key, (env, InCmd (SC_GetNetworkRecord key c)) ∈ h ∧ fresh_query env = id.

(** A majority of distinct peers stands behind a record. *)
Definition majority_for (h : History) (me : PeerId) (c : Chan) (rec : KRecord) : Prop :=
  ∃ id (voters : gset PeerId), asked h id c ∧ close_group_majority ≤ size voters ∧
    (∀ p, p ∈ voters → voted h me id p (from_content (r_value rec))) ∧
    ∃ env peer count, (env, InEvent (SE_Kademlia (FoundRecord id peer rec count))) ∈ h.

Definition votes_ok (h : History) (me : PeerId) (id : QueryId) (rm : GetRecordResultMap) : Prop :=
  ∀ n rec peers, rm !! n = Some (rec, peers) → ∀ p, p ∈ peers → voted h me id p n.

Record driver_inv (h : History) (d : SwarmDriver) : Prop := {
  inv_pending : ∀ id c rm, pending_get_record d !! id = Some (c, rm) →
    asked h id c ∧ votes_ok h (self_peer_id d) id rm;
  inv_found : ∀ c rec, Sent c (P_Record (inr rec)) ∈ outputs d → majority_for h (self_peer_id d) c rec;
}.

(** What most handlers keep: they start no record query and report no record. *)
Record quiet (d d' : SwarmDriver) : Prop := {
  quiet_self : self_peer_id d' = self_peer_id d;
  quiet_pending : pending_get_record d' ⊆ pending_get_record d;
  quiet_outputs : ∀ c rec, Sent c (P_Record (inr rec)) ∈ outputs d' → Sent c (P_Record (inr rec)) ∈ outputs d;
}.

#[global] Instance quiet_preorder : PreOrder quiet.
Proof.
  split; [by intros d; split|]. intros d1 d2 d3 [S1 P1 O1] [S2 P2 O2].
  split; [by rewrite S2, S1|by etrans|eauto].
Qed.

Definition found_output (o : Output) : Prop := match o with Sent _ (P_Record (inr _)) => True | _ => False end.

Lemma quiet_emit o : ¬ found_output o → frame quiet (emit o).
Proof.
  intros Ho d. split; [done|done|]. intros c rec. cbn. rewrite elem_of_app, list_elem_of_singleton.
  intros [?| <-]; [done|]. by destruct Ho.
Qed.

Lemma quiet_send_event env ev : frame quiet (send_event env ev).
Proof. unfold send_event. destruct (has_capacity env ev); [apply quiet_emit; by intros []|apply (frame_ret _)]. Qed.

Lemma quiet_send_checked env c p : ¬ found_output (Sent c p) → frame quiet (send_checked env c p).
Proof.
  intros Hp. apply (frame_bind _); [by apply quiet_emit|]. intros _.
  destruct (alive env c); [apply (frame_ret _)|apply (frame_throw _)].
Qed.

Lemma quiet_on_store {A} (m : StM World StoreError A) : frame quiet (on_store m).
Proof. intros d. unfold on_store. by destruct (m (record_store d)); split. Qed.

Lemma quiet_on_fetcher {A} (m : StM ReplicationFetcher Empty_set A) : frame quiet (on_fetcher m).
Proof. intros d. unfold on_fetcher. by destruct (m (replication_fetcher d)); split. Qed.

Lemma frame_ignore_err {A} (m : D A) : frame quiet m → frame quiet (ignore_err m).
Proof. intros Hm d. specialize (Hm d). unfold ignore_err. by destruct (m d) as [d' [|e|w]]. Qed.

Lemma quiet_for_each {A} (l : list A) (f : A → D unit) :
  (∀ x, frame quiet (f x)) → frame quiet (for_each l f).
Proof.
  intros Hf. induction l as [|x l IH]; cbn; [apply (frame_ret _)|]. apply (frame_bind _); [apply Hf|intros _; exact IH].
Qed.

#[local] Hint Resolve quiet_send_event quiet_on_store quiet_on_fetcher frame_ignore_err : safe_net.

(** Splits a handler at its binds and closes the parts that are quiet. *)
Ltac quiet_step :=
  match goal with
  | |- frame _ (_ ≫= _) => apply (frame_bind _); [|intros ?]
  | |- frame _ (emit _) => apply quiet_emit; by intros []
  | |- frame _ (send _ _) => apply quiet_emit; by intros []
  | |- frame _ (send_checked _ _ _) => apply quiet_send_checked; by intros []
  | |- frame _ (modify _) => apply (frame_modify _); intros ?; by split
  | |- frame _ (if ?b then _ else _) => destruct b
  | |- frame _ (match ?x with _ => _ end) => destruct x
  | |- frame _ (for_each _ _) => apply quiet_for_each; intros ?
  | |- frame _ (mret _) => apply (frame_ret _)
  | |- frame _ (gets _) => apply (frame_gets _)
  | |- frame _ (lift_res _) => apply (frame_lift _)
  | |- frame _ (throw _) => apply (frame_throw _)
  | |- frame _ _ => solve [eauto with safe_net]
  end.

Ltac quiet_tac := repeat quiet_step.

Lemma quiet_close_group env : frame quiet (check_for_change_in_our_close_group env).
Proof. unfold check_for_change_in_our_close_group, all_local_peers, update_record_distance_range. quiet_tac. Qed.

Lemma quiet_cmd env cmd :
  (∀ key c, cmd ≠ SC_GetNetworkRecord key c) → frame quiet (handle_cmd env cmd).
Proof.
  intros Hne. destruct cmd; cbn [handle_cmd]; unfold all_local_peers, dial; try by edestruct Hne.
  all: quiet_tac.
Qed.

Lemma quiet_remove_request id : frame quiet (remove_pending_request id).
Proof. intros d. by split. Qed.

Lemma quiet_remove_closest id : frame quiet (remove_pending_get_closest_peers id).
Proof. intros d. by split. Qed.

Lemma quiet_remove_get_record id : frame quiet (remove_pending_get_record id).
Proof. intros d. split; [done|apply delete_subseteq|done]. Qed.

#[local] Hint Resolve quiet_close_group quiet_remove_request quiet_remove_closest quiet_remove_get_record : safe_net.

Lemma quiet_msg env ev : frame quiet (handle_msg env ev).
Proof. destruct ev; cbn [handle_msg]; quiet_tac. Qed.

Definition is_found_record (ev : KademliaEvent) : bool :=
  match ev with FoundRecord _ _ _ _ => true | _ => false end.

Lemma quiet_kad env ev : is_found_record ev = false → frame quiet (handle_kad_event K_VALUE env ev).
Proof. intros Hne. destruct ev; try discriminate Hne; cbn [handle_kad_event]; quiet_tac. Qed.

Lemma quiet_dial_push p : frame quiet (λ d : SwarmDriver,
  let '(v, r) := CircularVec_push p (dialed_peers d) in
  (set_dialed_peers v d, map_err (λ _, Network.CircularVecPopFrontError) r)).
Proof. intros d. by destruct (CircularVec_push p (dialed_peers d)); split. Qed.

Lemma quiet_swarm env ev :
  match ev with SE_Kademlia kev => is_found_record kev = false | _ => True end →
  frame quiet (handle_swarm_events K_VALUE env ev).
Proof.
  intros Hne. destruct ev; cbn [handle_swarm_events]; unfold handle_identify, dial; try by apply quiet_kad.
  all: try apply frame_ignore_err, quiet_msg; quiet_tac. apply quiet_dial_push.
Qed.

Lemma quiet_split env rm : frame quiet (try_update_self_for_split_record env rm).
Proof. unfold try_update_self_for_split_record. quiet_tac. Qed.

(** *** The invariant along the rounds *)

Lemma voted_mono h h' me id p n : h `prefix_of` h' → voted h me id p n → voted h' me id p n.
Proof.
  intros [k ->] (env & peer & rec & count & Hin & H). exists env, peer, rec, count.
  split; [apply elem_of_app; by left|done].
Qed.

Lemma majority_mono h h' me c rec : h `prefix_of` h' → majority_for h me c rec → majority_for h' me c rec.
Proof.
  intros Hp (id & voters & (env & key & Ha & Hq) & Hs & Hv & (env2 & peer & count & Hr)).
  pose proof Hp as [k ->]. exists id, voters. split_and!; [|done| |].
  - exists env, key. split; [apply elem_of_app; by left|done].
  - intros p Hin. eapply voted_mono; [exact Hp|by apply Hv].
  - exists env2, peer, count. apply elem_of_app. by left.
Qed.

Lemma inv_mono h h' d : h `prefix_of` h' → driver_inv h d → driver_inv h' d.
Proof.
  intros Hp [Hpend Hfound]. split; [|intros c rec Hc; by eapply majority_mono, Hfound].
  intros id c rm Hl. destruct (Hpend id c rm Hl) as [(env & key & Ha & Hq) Hv]. split.
  - exists env, key. split; [|done]. destruct Hp as [k ->]. apply elem_of_app. by left.
  - intros n rec peers Hn p Hin. eapply voted_mono; [exact Hp|by eapply Hv].
Qed.

Lemma inv_quiet h d d' : quiet d d' → driver_inv h d → driver_inv h d'.
Proof.
  intros [HS HP HO] [Hpend Hfound]. split; rewrite HS.
  - intros id c rm Hl. apply Hpend. by eapply lookup_weaken.
  - intros c rec Hc. by apply Hfound, HO.
Qed.

Lemma add_vote_ok h me id peer_id rec rm rm' peers :
  add_vote peer_id rec rm = (rm', peers) → votes_ok h me id rm →
  voted h me id peer_id (from_content (r_value rec)) →
  votes_ok h me id rm' ∧ (∀ p, p ∈ peers → voted h me id p (from_content (r_value rec))).
Proof.
  unfold add_vote. intros [= <- <-] Hrm Hv. set (n := from_content (r_value rec)) in *.
  assert (∀ p, p ∈ match rm !! n with Some (_, peer_list) => {[ peer_id ]} ∪ peer_list | None => {[ peer_id ]} end →
             voted h me id p n) as Hall.
  { intros p. destruct (rm !! n) as [[r ps]|] eqn:E; [|by intros ->%elem_of_singleton].
    intros [->%elem_of_singleton|Hp]%elem_of_union; [done|]. by eapply Hrm. }
  split; [|done]. intros n' rec' ps Hl p Hp.
  apply lookup_insert_Some in Hl as [(<- & [= <- <-])|[Hne Hl]]; [by apply Hall|].
  apply lookup_delete_Some in Hl as [_ Hl]. by eapply Hrm.
Qed.

(** What a copy decides: the answer, if any. *)
Definition vote_result (rec : KRecord) (count : nat) (peers : gset PeerId) : option (NetworkError + KRecord) :=
  if decide (close_group_majority ≤ size peers) then Some (inr rec)
  else if decide (CLOSE_GROUP_SIZE ≤ count) then Some (inl RecordNotFound) else None.

Lemma accumulate_eq env id peer rec count d :
  accumulate_get_record_ok env id peer rec count d =
  match pending_get_record d !! id with
  | None => (set_pending_get_record (delete id (pending_get_record d)) d, Ok tt)
  | Some (c, rm) =>
      let '(rm', peers) := add_vote (default (self_peer_id d) peer) rec rm in
      match vote_result rec count peers with
      | Some result =>
          try_update_self_for_split_record env rm'
            (add_output (Sent c (P_Record result)) (set_pending_get_record (delete id (pending_get_record d)) d))
      | None =>
          (set_pending_get_record (<[id := (c, rm')]> (delete id (pending_get_record d))) d, Ok tt)
      end
  end.
Proof.
  unfold accumulate_get_record_ok, remove_pending_get_record, mbind, StM_bind. cbn -[add_vote vote_result close_group_majority].
  destruct (pending_get_record d !! id) as [[c rm]|]; [|done].
  destruct (add_vote _ _ _) as [rm' peers]. unfold vote_result.
  case_decide; [done|]. by case_decide.
Qed.

Lemma inv_add_output h d o :
  driver_inv h d →
  (∀ c rec, o = Sent c (P_Record (inr rec)) → majority_for h (self_peer_id d) c rec) →
  driver_inv h (add_output o d).
Proof.
  intros [Hpend Hfound] Ho. split; cbn; [done|]. intros c rec.
  rewrite elem_of_app, list_elem_of_singleton. intros [Hc|Hc]; [by apply Hfound|]. by apply Ho.
Qed.

Lemma inv_accumulate h env env' id peer rec count d :
  driver_inv h d → (env, InEvent (SE_Kademlia (FoundRecord id peer rec count))) ∈ h →
  driver_inv h (accumulate_get_record_ok env' id peer rec count d).1.
Proof.
  intros Hinv Hev. rewrite accumulate_eq.
  assert (driver_inv h (set_pending_get_record (delete id (pending_get_record d)) d)) as Hdel
    by (eapply inv_quiet; [|exact Hinv]; apply (quiet_remove_get_record id)).
  destruct (pending_get_record d !! id) as [[c rm]|] eqn:Hp; [|done].
  destruct (inv_pending _ _ Hinv id c rm Hp) as [Hask Hvotes].
  destruct (add_vote _ rec rm) as [rm' peers] eqn:Hadd.
  eapply add_vote_ok in Hadd as [Hrm' Hpeers]; [|exact Hvotes|by exists env, peer, rec, count].
  destruct (vote_result rec count peers) as [result|] eqn:Hres.
  - eapply inv_quiet; [apply quiet_split|]. apply inv_add_output; [done|]. intros c' rec' [= <- ->].
    unfold vote_result in Hres. repeat case_decide; try done. injection Hres as <-.
    exists id, peers. split_and!; [done|done|done|]. by exists env, peer, count.
  - cbn. split; cbn; [|apply (inv_found _ _ Hinv)]. intros id' c' rmx Hl.
    apply lookup_insert_Some in Hl as [(<- & [= <- <-])|[Hne Hl]]; [done|].
    apply lookup_delete_Some in Hl as [_ Hl]. by apply (inv_pending _ _ Hinv).
Qed.

Lemma inv_get_network_record h env key c d :
  driver_inv h d → (env, InCmd (SC_GetNetworkRecord key c)) ∈ h →
  driver_inv h (handle_cmd env (SC_GetNetworkRecord key c) d).1.
Proof.
  intros Hinv Hin. cbn [handle_cmd]. unfold mbind, StM_bind. cbn. split; cbn.
  - intros id c' rm Hl. apply lookup_insert_Some in Hl as [(<- & [= <- <-])|[Hne Hl]].
    + split; [by exists env, key|]. intros n rec peers Hn. by rewrite lookup_empty in Hn.
    + by apply (inv_pending _ _ Hinv).
  - intros c' rec. rewrite elem_of_app, list_elem_of_singleton. intros [Hc|Hc]; [|done].
    by apply (inv_found _ _ Hinv).
Qed.

Lemma inv_round h env input d d' :
  driver_inv h d → run_round K_VALUE env input d = Some d' → driver_inv (h ++ [(env, input)]) d'.
Proof.
  intros Hinv Hr.
  assert (driver_inv (h ++ [(env, input)]) d) as Hinv' by (eapply inv_mono; [by apply prefix_app_r|done]).
  assert ((env, input) ∈ h ++ [(env, input)]) as Hin by (apply elem_of_app; right; by left).
  unfold run_round in Hr.
  assert (d' = match input with
               | InCmd cmd => (handle_cmd env cmd d).1
               | InEvent ev => (handle_swarm_events K_VALUE env ev d).1 end) as ->.
  { by destruct input; [destruct (handle_cmd _ _ _) as [? []]|destruct (handle_swarm_events _ _ _ _) as [? []]];
      simplify_eq/=. }
  destruct input as [cmd|ev].
  - destruct cmd; try (eapply inv_quiet; [by apply quiet_cmd|done]). by apply inv_get_network_record.
  - destruct ev as [|kev| | | | | | | | | | |]; try (eapply inv_quiet; [by apply quiet_swarm|done]).
    destruct kev; try (eapply inv_quiet; [by apply quiet_swarm|done]). by eapply inv_accumulate.
Qed.

Lemma reachable_inv h d : driver_reachable h d → driver_inv h d.
Proof.
  induction 1 as [peer local client fs|h d env input d' _ IH Hr|h d l w _ IH Hw].
  - split; cbn; [intros id c rm Hl; by rewrite lookup_empty in Hl|by intros c rec ?%elem_of_nil].
  - by eapply inv_round.
  - eapply inv_quiet; [|exact IH]. by split.
Qed.

(** *** Split votes *)

(** The copy with the most votes, and the lowest name among those. *)
Definition winner (rm : GetRecordResultMap) (n : XorName) (rec : KRecord) (peers : gset PeerId) : Prop :=
  rm !! n = Some (rec, peers) ∧
  ∀ n' rec' peers', rm !! n' = Some (rec', peers') →
    size peers' ≤ size peers ∧ (size peers' = size peers → ord_le n n').

Lemma split_fold (l : list (XorName * (KRecord * gset PeerId))) hc hr :
  NoDup l.*1 → foldl split_step (0, ∅) l = (hc, hr) →
  (∀ n c, (n, c) ∈ l → size c.2 ≤ hc) ∧ (∀ n c, hr !! n = Some c ↔ (n, c) ∈ l ∧ size c.2 = hc) ∧
  (l = [] ∧ hc = 0 ∨ ∃ n c, (n, c) ∈ l ∧ size c.2 = hc).
Proof.
  revert hc hr. induction l as [|[n [rec ps]] l IH] using rev_ind; intros hc hr Hnd Hf.
  { injection Hf as <- <-. split_and!; [by intros n c ?%elem_of_nil| |by left].
    intros n c. rewrite lookup_empty. split; [done|]. by intros [?%elem_of_nil _]. }
  rewrite foldl_app in Hf. cbn in Hf. destruct (foldl split_step (0, ∅) l) as [hc0 hr0] eqn:E.
  rewrite fmap_app in Hnd. apply NoDup_app in Hnd as (Hnd & Hfresh & _).
  destruct (IH hc0 hr0 Hnd eq_refl) as (Hmax & Hhr & Hatt).
  assert (∀ c, (n, c) ∉ l) as Hn.
  { intros c Hc. apply (Hfresh n); [|by left]. apply (list_elem_of_fmap_2 fst _ _ Hc). }
  assert (∀ m c, (m, c) ∈ l ++ [(n, (rec, ps))] ↔ (m, c) ∈ l ∨ m = n ∧ c = (rec, ps)) as Hin.
  { intros m c. rewrite elem_of_app, list_elem_of_singleton. split; (intros [?|?]; [by left|right]); [naive_solver|].
    by destruct_and!; subst. }
  destruct (decide (hc0 < size ps)) as [Hlt|Hge]; [|destruct (decide (hc0 ≤ size ps)) as [Heq|Hgt]].
  all: unfold split_step in Hf; repeat (case_decide; try lia); injection Hf as <- <-; split_and!.
  all: try (right; exists n, (rec, ps); split; [apply Hin; by right|done]).
  all: try (intros m c; rewrite ?Hin, ?lookup_insert_Some, ?lookup_empty, ?Hhr).
  - intros [Hc|[-> ->]]; [specialize (Hmax _ _ Hc); lia|done].
  - split; [intros [[-> <-]|[_ ?]]; [tauto|done]|].
    intros [[Hc|[-> ->]] Hs]; [specialize (Hmax _ _ Hc); lia|by left].
  - intros [Hc|[-> ->]]; [specialize (Hmax _ _ Hc); lia|done].
  - split; [intros [[-> <-]|[? [? Hs]]]; [tauto|split; [tauto|lia]]|].
    intros [[Hc|[-> ->]] Hs]; [|by left]. right. split; [|split; [done|lia]]. intros ->. by eapply Hn.
  - intros [Hc|[-> ->]]; [by eapply Hmax|cbn; lia].
  - split; [tauto|]. intros [[Hc|[-> ->]] Hs]; [done|cbn in Hs; lia].
  - right. destruct Hatt as [[_ ->]|(m & c & Hc & Hs)]; [lia|]. exists m, c. split; [apply Hin; by left|done].
Qed.

Lemma split_winner env rm n rec peers :
  result_order env rm ≡ₚ map_to_list rm → winner rm n rec peers →
  head (bmap_iter (foldl split_step (0, ∅) (result_order env rm)).2) = Some (n, (rec, peers)).
Proof.
  intros Hperm [Hw Hall]. destruct (foldl split_step _ _) as [hc hr] eqn:E.
  apply split_fold in E as (Hmax & Hhr & Hatt); [|rewrite Hperm; apply NoDup_fst_map_to_list].
  assert (∀ m c, (m, c) ∈ result_order env rm ↔ rm !! m = Some c) as Hin
    by (intros m c; rewrite Hperm; apply elem_of_map_to_list).
  setoid_rewrite Hin in Hmax. setoid_rewrite Hin in Hhr. cbn [snd].
  assert (size peers = hc) as Hhc.
  { destruct Hatt as [[Hnil _]|(m & [r ps] & Hm & <-)].
    - apply Hin in Hw. rewrite Hnil in Hw. by apply elem_of_nil in Hw.
    - apply Hin in Hm. pose proof (proj1 (Hall _ _ _ Hm)). specialize (Hmax _ _ Hw). cbn in *. lia. }
  apply bmap_iter_head.
  - apply Hhr. done.
  - intros n' [rec' peers'] [Hn' Hs]%Hhr. apply (Hall _ _ _ Hn'). cbn in Hs. lia.
Qed.

(** *** Answers to record queries *)

(** Nothing is sent and the record queries stay. *)
Definition same_queries (d d' : SwarmDriver) : Prop :=
  outputs d' = outputs d ∧ pending_get_record d' = pending_get_record d.

#[global] Instance same_queries_preorder : PreOrder same_queries.
Proof. split; [done|]. intros d1 d2 d3 [O1 P1] [O2 P2]. split; congruence. Qed.

Lemma same_queries_split env rm : frame same_queries (try_update_self_for_split_record env rm).
Proof.
  intros d. unfold try_update_self_for_split_record. case_decide; [done|].
  destruct (head _) as [[n [rec peers]]|]; [|done]. unfold mbind, StM_bind. cbn. case_decide; [|done].
  unfold ignore_err, on_store. by destruct (put_verified _ _ _) as [w [| |]].
Qed.

Lemma close_group_outputs env d : outputs (check_for_change_in_our_close_group env d).1 = outputs d.
Proof.
  unfold check_for_change_in_our_close_group, update_record_distance_range, all_local_peers, mbind, StM_bind. cbn.
  destruct (sort_peers_by_address _ _ _); cbn; try done. case_decide; [|done]. cbn.
  by destruct (last _).
Qed.

(** The query is closed and its caller gets [r], nothing else happens to callers. *)
Definition answered (d d' : SwarmDriver) (id : QueryId) (c : Chan) (r : NetworkError + KRecord) : Prop :=
  outputs d' = outputs d ++ [Sent c (P_Record r)] ∧ pending_get_record d' = delete id (pending_get_record d).

End Reachable.

(** ** Properties *)

Section Properties.
Context `{BLS : BlsCrate, XN : XorNameCrate, KD : KadCrate, CR : CrdtsCrate}.
Context `{TK : TokenCrate, DI : DbcIdCrate, SD : !SnDbcCrate}.
Context (K_VALUE : nat).

(** C10: in every reachable state of the driver, a record that was reported as
    found to a caller had been asked for by that caller, was received for that
    query, and at least five distinct peers (the majority of a close group of
    eight; the node itself may be one) sent copies with its content hash. *)
Theorem found_record_has_majority h d c rec :
  driver_reachable K_VALUE h d → Sent c (P_Record (inr rec)) ∈ outputs d →
  5 ≤ close_group_majority ∧ majority_for h (self_peer_id d) c rec.
Proof. intros Hd Hc. split; [by vm_compute; lia|]. by apply (inv_found _ _ (reachable_inv _ _ _ Hd)). Qed.

(** C22: the life of a record query.  A copy either completes it (with that
    copy when its content has a majority of votes, with [RecordNotFound] when
    enough copies came without one) or is counted; the end of the query or an
    error completes it; completing sends the caller exactly one answer and
    forgets the query. *)
Theorem get_record_query_answered env id c rm d :
  pending_get_record d !! id = Some (c, rm) → result_order env rm ≡ₚ map_to_list rm →
  let after ev := (handle_kad_event K_VALUE env ev d).1 in
  (∀ peer rec count,
     let '(rm', peers) := add_vote (default (self_peer_id d) peer) rec rm in
     match vote_result rec count peers with
     | Some r => answered d (after (FoundRecord id peer rec count)) id c r
     | None => outputs (after (FoundRecord id peer rec count)) = outputs d ∧
               pending_get_record (after (FoundRecord id peer rec count)) = <[id := (c, rm')]> (pending_get_record d)
     end) ∧
  ((rm = ∅ ∧ answered d (after (FinishedWithNoAdditionalRecord id)) id c (inl RecordNotFound)) ∨
   ∃ n rec peers, rm !! n = Some (rec, peers) ∧
     answered d (after (FinishedWithNoAdditionalRecord id)) id c (inl (RecordNotEnoughCopies rec))) ∧
  answered d (after (GetRecordErr id)) id c (inl RecordNotFound).
Proof.
  intros Hp Hord. cbn zeta. split_and!.
  - intros peer rec count. cbn [handle_kad_event]. rewrite accumulate_eq, Hp.
    destruct (add_vote _ rec rm) as [rm' peers]. destruct (vote_result rec count peers) as [r|]; cbn.
    + unfold answered. destruct (same_queries_split env rm'
        (add_output (Sent c (P_Record r)) (set_pending_get_record (delete id (pending_get_record d)) d))) as [HO HP].
      by rewrite HO, HP.
    + by rewrite insert_delete_eq.
  - cbn [handle_kad_event]. unfold mbind, StM_bind, remove_pending_get_record. cbn. rewrite Hp.
    destruct (head (result_order env rm)) as [[n [rec peers]]|] eqn:Hh.
    + right. exists n, rec, peers. split.
      * apply elem_of_map_to_list. rewrite <- Hord. by apply head_Some_elem_of in Hh.
      * unfold send_checked, mbind, StM_bind. cbn. by destruct (alive env c).
    + left. apply head_None in Hh. rewrite Hh in Hord. symmetry in Hord. apply Permutation_nil_r in Hord.
      apply map_to_list_empty_iff in Hord. split; [done|]. unfold send_checked, mbind, StM_bind. cbn.
      by destruct (alive env c).
  - cbn [handle_kad_event]. unfold mbind, StM_bind, remove_pending_get_record. cbn. rewrite Hp.
    unfold send_checked, mbind, StM_bind. cbn. by destruct (alive env c).
Qed.

(** votes that are split over several contents are resolved to the copy
    with the most votes and, among equals, the lowest content hash, whatever
    order the map of votes is iterated in.  Unless the node itself sent that
    copy, it puts it into its own store, unvalidated, whether or not it sent
    any copy at all. *)
Theorem split_record_resolution env rm n rec peers d :
  (∀ m, result_order env m ≡ₚ map_to_list m) → size rm ≠ 1 → winner rm n rec peers →
  try_update_self_for_split_record env rm d
  = (if decide (self_peer_id d ∈ peers) then d
     else set_record_store (put_verified (store_order env) rec (record_store d)).1 d, Ok tt).
Proof.
  intros Hord Hsz Hw. unfold try_update_self_for_split_record. rewrite decide_False by done.
  rewrite (split_winner env rm n rec peers (Hord rm) Hw). unfold mbind, StM_bind. cbn.
  destruct (decide (self_peer_id d ∈ peers)) as [Hin|Hin]; [by rewrite decide_False by tauto|].
  rewrite decide_True by done. unfold ignore_err, on_store.
  destruct (put_verified _ _ _) as [w [u|e|p]] eqn:E; cbn; try done.
  exfalso. revert E. rewrite put_verified_eq. unfold prune_storage_if_needed_for_record.
  case_decide; [done|]. destruct (last_of _); [|done]. by case_decide.
Qed.

(** when kad evicts a peer from a bucket to make room for a new one, the
    upper layer is told that the new peer was removed, and not that the
    evicted one was. *)
Theorem eviction_reports_new_peer env d peer old is_new :
  (∀ ev, has_capacity env ev = true) → old ≠ peer →
  let d' := (handle_kad_event K_VALUE env (RoutingUpdated peer is_new (Some old)) d).1 in
  Event (PeerRemoved peer) ∈ outputs d' ∧
  (Event (PeerRemoved old) ∈ outputs d' → Event (PeerRemoved old) ∈ outputs d).
Proof.
  intros Hcap Hne. cbn [handle_kad_event]. cbn zeta. rewrite decide_True by (by exists old).
  unfold send_event. rewrite !Hcap. unfold mbind, StM_bind.
  destruct is_new; [destruct (bootstrap_done d) eqn:Hb|]; cbn; rewrite ?Hb; cbn.
  all: match goal with |- context [check_for_change_in_our_close_group ?e ?x] =>
         pose proof (close_group_outputs e x) as Ho; destruct (check_for_change_in_our_close_group e x) as [d2 []]
       end; cbn in Ho |- *; rewrite Ho.
  all: rewrite !elem_of_app, !list_elem_of_singleton; naive_solver.
Qed.

End Properties.

(** ** The properties at concrete values *)

Section Rounds.
Context `{BLS : BlsCrate, XN : XorNameCrate, KD : KadCrate, CR : CrdtsCrate}.
Context `{TK : TokenCrate, DI : DbcIdCrate, SD : !SnDbcCrate}.

Fixpoint run_rounds (K_VALUE : nat) (rounds : list (Env * Input)) (d : SwarmDriver) : option SwarmDriver :=
  match rounds with
  | [] => Some d
  | (env, input) :: rest => d' ← run_round K_VALUE env input d; run_rounds K_VALUE rest d'
  end.

Lemma run_rounds_reachable K rounds h d d' :
  driver_reachable K h d → run_rounds K rounds d = Some d' → driver_reachable K (h ++ rounds) d'.
Proof.
  revert h d. induction rounds as [|[env input] rounds IH]; intros h d Hd.
  - intros [= <-]. by rewrite app_nil_r.
  - cbn. destruct (run_round K env input d) as [d1|] eqn:E; cbn; [|done]. intros H.
    rewrite (cons_middle _ h rounds), app_assoc. eapply IH; [|exact H]. by eapply reachable_round.
Qed.

(** The records reported as found, with their callers. *)
Definition found_records (d : SwarmDriver) : list (Chan * KRecord) :=
  omap (λ o, match o with Sent c (P_Record (inr rec)) => Some (c, rec) | _ => None end) (outputs d).

Lemma elem_of_found_records d c rec : (c, rec) ∈ found_records d → Sent c (P_Record (inr rec)) ∈ outputs d.
Proof.
  unfold found_records. rewrite list_elem_of_omap. intros (o & Ho & E).
  destruct o as [c' [| | | | | | |[|]| |]| | | | | | | | | | | | |]; simplify_eq. done.
Qed.

End Rounds.

Definition toy_env : Env := {|
  env_build := Debug; alive := λ _, true; has_capacity := λ _, true; kbuckets := [];
  fresh_query := 0; fresh_request := 0; put_started := inr tt; listening := inr tt; dialing := inr tt;
  response_sent := true; closest_local_peers := []; removed_peer := None; connected_peers := []; listeners := [];
  has_autonat := false; result_order := map_to_list; store_order := []; fetch_order := [];
  fetch_clock := λ _ _, 0%Z; fetch_now := 0%Z; cost_factor := 1%Z |}.

Definition toy_self : PeerId := Byte.x01.
Definition toy_driver : SwarmDriver := driver_with toy_self false false ∅.
Definition toy_vote (p v : Byte.byte) : Env * Input :=
  (toy_env, InEvent (SE_Kademlia (FoundRecord 0 (Some (p : PeerId)) (toy_rec Byte.x0a v) 1))).

(** The caller 7 asks; one peer sends another content, five send the record. *)
Definition toy_rounds : list (Env * Input) :=
  (toy_env, InCmd (SC_GetNetworkRecord [Byte.x0a] 7)) :: toy_vote Byte.x09 Byte.xbb ::
  ((λ p, toy_vote p Byte.xaa) <$> [Byte.x02; Byte.x03; Byte.x04; Byte.x05; Byte.x06]).

Definition toy_final : SwarmDriver := default toy_driver (run_rounds 20 toy_rounds toy_driver).

Lemma found_record_has_majority_witness :
  majority_for toy_rounds (self_peer_id toy_final) 7 (toy_rec Byte.x0a Byte.xaa).
Proof.
  assert (is_Some (run_rounds 20 toy_rounds toy_driver)) as [d Hd] by by_compute.
  assert (toy_final = d) as Hf by (unfold toy_final; by rewrite Hd).
  apply (found_record_has_majority 20 toy_rounds toy_final).
  - rewrite Hf. apply (run_rounds_reachable 20 toy_rounds [] toy_driver d); [apply reachable_new|exact Hd].
  - apply elem_of_found_records. by_compute.
Defined.

Definition toy_waiting : SwarmDriver := set_pending_get_record {[ 0 := (7, ∅) ]} toy_driver.

Lemma get_record_query_answered_witness :
  answered toy_waiting (handle_kad_event 20 toy_env (GetRecordErr 0) toy_waiting).1 0 7 (inl RecordNotFound).
Proof.
  destruct (get_record_query_answered 20 toy_env 0 7 ∅ toy_waiting) as (_ & _ & H);
    [apply lookup_singleton_eq|done|exact H].
Defined.

Definition toy_p2 : PeerId := Byte.x02.
Definition toy_p3 : PeerId := Byte.x03.
Definition toy_p4 : PeerId := Byte.x04.

Definition toy_split : GetRecordResultMap :=
  <[[Byte.x05] := (toy_rec Byte.x0a Byte.xaa, {[ toy_p2; toy_p3 ]})]>
    {[ [Byte.x04] := (toy_rec Byte.x0a Byte.xbb, {[ toy_p4 ]}) ]}.

Lemma split_record_resolution_witness :
  (try_update_self_for_split_record toy_env toy_split toy_driver).1
  = set_record_store (put_verified [] (toy_rec Byte.x0a Byte.xaa) (record_store toy_driver)).1 toy_driver.
Proof.
  rewrite (split_record_resolution toy_env toy_split [Byte.x05] (toy_rec Byte.x0a Byte.xaa)
             {[ toy_p2; toy_p3 ]} toy_driver).
  - rewrite decide_False; [done|]. by_compute.
  - done.
  - by_compute.
  - split; [apply lookup_insert_eq|]. intros n' rec' peers'. unfold toy_split.
    rewrite lookup_insert_Some, lookup_singleton_Some.
    intros [[<- [= <- <-]]|[_ [<- [= <- <-]]]]; split; by_compute.
Defined.

Lemma eviction_reports_new_peer_witness :
  Event (PeerRemoved toy_p2)
  ∈ outputs (handle_kad_event 20 toy_env (RoutingUpdated toy_p2 true (Some toy_p3)) toy_driver).1.
Proof.
  apply (eviction_reports_new_peer 20 toy_env toy_driver toy_p2 toy_p3 true); [done|by_compute].
Defined.
