(* ===== verification/NodeApi.v ===== *)
(** * sn_node: handling network events, and replication

    - [handle_network_event], [handle_request], [handle_query],
      [handle_node_cmd], [handle_response]: src/sn_node/src/api.rs;
    - [try_trigger_replication] and the fetching of replication keys:
      src/sn_node/src/replication.rs.

    A node has no state of its own beside its network handle: every event is
    handled by a task of its own, a program over the network operations.  The
    tasks that a handler spawns are operations ([SpawnNetworkFetch],
    [SpawnDial]) whose programs are [fetch_from_network] and
    [dial_initial_peers].  A response goes to the channel of its request.

    The main theorems: whatever event a node handles, it stores only validated
    records; and a newly added peer is sent, in batches of at most 500, exactly
    the keys of the records whose close group it joined. *)

From S2P Require Import Prelude Deps ToyCrates Registers Protocol Transfers RecordStore ReplicationFetcher Payments.
From S2P Require Import Effects Network NodeValidation SwarmDriver.
From stdpp Require Import base tactics list gmap sorting strings.
From Stdlib Require Import ZArith NArith Strings.Byte Lia.

Definition MAX_REPLICATION_KEYS_PER_REQUEST : nat := 500.

Section Node.
Context `{BLS : BlsCrate, XN : XorNameCrate, KD : KadCrate, CR : CrdtsCrate, MK : MerkleCrate}.
Context `{TK : TokenCrate, DI : DbcIdCrate, SD : !SnDbcCrate, DC : !DbcCrate, RP : !RegisterParams}.
Context `{RH : RmpHeader, RC : Rmp (bytes * PaymentProof), RS : Rmp (list SignedSpend), RR : Rmp SignedRegister}.
Context (bld : Build) (genesis : Dbc) (K_VALUE : nat).
Context (join_order : list DbcId → list DbcId) (hash_order : gset SignedSpend → list SignedSpend).

Inductive NodeError :=
| NE_Network (e : NetworkError)
| NE_Protocol (e : ProtocolError)
| NE_Genesis (e : GenesisError)
| NE_NodeEventParsingFailed.

Record Node := {
  peer_id : PeerId;
  initial_peers : list Multiaddr;
  local_discovery : bool;
}.

Notation NodeProg := (NetProg NodeError).

(** [?] on an error of the network or the protocol. *)
Definition net {A : Type} (p : NetProg NetworkError A) : NodeProg A := prog_map_err NE_Network p.
Definition proto {A : Type} (p : NetProg ProtocolError A) : NodeProg A := prog_map_err NE_Protocol p.

(** [if let Err(err) = ... { error!(..) }]. *)
Definition log_err {E A : Type} (p : NetProg E A) : NodeProg unit := _ ← attempt p; lift (Ok tt).

(** ** replication.rs *)

(** The peer a record is replicated to, if any. *)
Definition replication_target (all_peers : list PeerId) (peer : PeerId) (is_removal : bool) (key : NetworkAddress)
    : Res NetworkError (option PeerId) :=
  sorted_based_on_key ← sort_peers_by_address all_peers key (CLOSE_GROUP_SIZE + 1);
  if decide (peer ∈ sorted_based_on_key) then
    if is_removal then
      match last sorted_based_on_key with
      | Some farthest_peer => if decide (farthest_peer ≠ peer) then Ok (Some farthest_peer) else Ok None
      | None => Ok None
      end
    else if decide (Some peer ≠ last sorted_based_on_key) then Ok (Some peer) else Ok None
  else Ok None.

(** The loop over the records. *)
Fixpoint replication_list (all_peers : list PeerId) (peer : PeerId) (is_removal : bool)
    (all_records : list NetworkAddress) (replicate_to : gmap PeerId (list NetworkAddress))
    : Res NetworkError (gmap PeerId (list NetworkAddress)) :=
  match all_records with
  | [] => Ok replicate_to
  | key :: rest =>
      target ← replication_target all_peers peer is_removal key;
      replication_list all_peers peer is_removal rest
        match target with
        | Some t => <[t := default [] (replicate_to !! t) ++ [key]]> replicate_to
        | None => replicate_to
        end
  end.

(** The [while] loop that splits the keys; [fuel] is at least their number. *)
Fixpoint batches (fuel : nat) (remaining_keys : list NetworkAddress) : list (list NetworkAddress) :=
  match fuel with
  | 0 => [remaining_keys]
  | S fuel =>
      if decide (MAX_REPLICATION_KEYS_PER_REQUEST < length remaining_keys)
      then take MAX_REPLICATION_KEYS_PER_REQUEST remaining_keys
           :: batches fuel (drop MAX_REPLICATION_KEYS_PER_REQUEST remaining_keys)
      else [remaining_keys]
  end.

Definition send_replicate_cmd_without_wait (our_address : NetworkAddress) (peer : PeerId) (keys : list NetworkAddress)
    : NodeProg unit :=
  net (send_req_ignore_reply (Request_Cmd (Cmd_Replicate our_address keys)) peer).

Definition try_trigger_replication (n : Node) (peer : PeerId) (is_removal : bool) : NodeProg unit :=
  all_peers ← net get_all_local_peers;
  if decide (length all_peers < K_VALUE) then lift (Ok tt)
  else
    let our_address := from_peer (peer_id n) in
    all_records ← net get_all_local_record_addresses;
    let all_peers := if is_removal then all_peers ++ [peer] else all_peers in
    replicate_to ← lift (map_err NE_Network (replication_list all_peers peer is_removal all_records ∅));
    prog_fold (λ (_ : unit) (pk : PeerId * list NetworkAddress),
        prog_fold (λ _ batch, send_replicate_cmd_without_wait our_address pk.1 batch) tt
          (batches (length pk.2) pk.2))
      tt (bmap_iter replicate_to).

Definition node_add_keys_to_replication_fetcher (peer : NetworkAddress) (keys : list NetworkAddress) : NodeProg unit :=
  match as_peer_id peer with
  | Some p => net (add_keys_to_replication_fetcher p keys)
  | None => lift (Ok tt)
  end.

(** The task that [fetch_replication_keys_without_wait] spawns. *)
Definition fetch_from_network (key : RecordKey) : NodeProg unit :=
  record ← net (get_record_from_network key None false);
  _ ← proto (validate_and_store_record bld genesis join_order hash_order record false);
  lift (Ok tt).

Definition fetch_replication_keys_without_wait (n : Node) (keys_to_fetch : list (RecordKey * option PeerId))
    : NodeProg unit :=
  prog_fold (λ (_ : unit) (kp : RecordKey * option PeerId),
      match kp.2 with
      | Some peer =>
          net (send_req_ignore_reply (Request_Query (Query_GetReplicatedData (from_peer (peer_id n))
                                                       (from_record_key kp.1))) peer)
      | None => call (SpawnNetworkFetch kp.1)
      end) tt keys_to_fetch.

(** ** api.rs *)

Definition handle_response (response : Response) : NodeProg unit :=
  match response with
  | Response_Query (QR_GetReplicatedData (inr (_holder, replicated_data))) =>
      match replicated_data with
      | RD_Chunk chunk_with_payment =>
          _ ← proto (validate_and_store_chunk bld join_order chunk_with_payment false); lift (Ok tt)
      | RD_DbcSpend signed_spend =>
          match signed_spend with
          | _ :: _ => _ ← proto (validate_and_store_spends genesis hash_order signed_spend); lift (Ok tt)
          | [] => lift (Ok tt)
          end
      | RD_Register register => _ ← proto (validate_and_store_register register); lift (Ok tt)
      end
  | _ => lift (Ok tt)
  end.

(** A [Result] becomes part of the answer. *)
Definition to_sum {E A : Type} (r : Res E A) (d : E) : E + A :=
  match r with Ok a => inr a | Err e => inl e | Panic _ => inl d end.

Definition handle_query (n : Node) (query : Query) : NodeProg Response :=
  match query with
  | Query_GetStoreCost _ =>
      result ← attempt current_storecost;
      lift (Ok (Response_Query (QR_GetStoreCost (to_sum result GetStoreCostFailed))))
  | Query_GetReplicatedData _ address =>
      result ← attempt (replicated_data ← get_replicated_data (peer_id n) address;
                        lift (Ok (from_peer (peer_id n), replicated_data)));
      lift (Ok (Response_Query (QR_GetReplicatedData
                  (to_sum result (ReplicatedDataNotFound (from_peer (peer_id n)) address)))))
  end.

Definition handle_node_cmd (cmd : Cmd) : NodeProg Response :=
  match cmd with
  | Cmd_Replicate holder keys =>
      _ ← attempt (F:=NodeError) (node_add_keys_to_replication_fetcher holder keys);
      lift (Ok (Response_Cmd (CR_Replicate (inr tt))))
  end.

Definition node_send_response (resp : Response) : NodeProg unit := log_err (send_response resp).

Definition handle_request (n : Node) (request : Request) : NodeProg unit :=
  response ← (match request with
              | Request_Cmd cmd => handle_node_cmd cmd
              | Request_Query query => handle_query n query
              end);
  node_send_response response.

(** The task spawned for [NewListenAddr]. *)
Definition dial_initial_peers (peers : list Multiaddr) : NodeProg unit :=
  prog_fold (λ _ addr, log_err (dial_peer addr)) tt peers.

Definition handle_network_event (n : Node) (event : NetworkEvent) : NodeProg unit :=
  match event with
  | RequestReceived req _channel => handle_request n req
  | ResponseReceived res => log_err (handle_response res)
  | PeerAdded peer => log_err (try_trigger_replication n peer false)
  | PeerRemoved peer => log_err (try_trigger_replication n peer true)
  | KeysForReplication keys => log_err (fetch_replication_keys_without_wait n keys)
  | NewListenAddr _ =>
      if negb (local_discovery n) then call (SpawnDial (initial_peers n)) else lift (Ok tt)
  | NatStatusChanged status =>
      match status with Private => call (Broadcast BehindNat) | _ => lift (Ok tt) end
  | UnverifiedRecord record =>
      log_err (validate_and_store_record bld genesis join_order hash_order record true)
  end.

End Node.

(** ** What the tasks of a node store *)

Section Stores.
Context `{BLS : BlsCrate, XN : XorNameCrate, KD : KadCrate, CR : CrdtsCrate, MK : MerkleCrate}.
Context `{TK : TokenCrate, DI : DbcIdCrate, SD : !SnDbcCrate, DC : !DbcCrate, RP : !RegisterParams}.
Context `{RH : RmpHeader, RC : Rmp (bytes * PaymentProof), RS : Rmp (list SignedSpend), RR : Rmp SignedRegister}.

Notation Trace := (list (Effects.Event NetAns)).

(** Whatever a program stores, and whenever, satisfies [P]. *)
Definition safe (P : Trace → KRecord → Prop) {E A : Type} (p : NetProg E A) : Prop :=
  ∀ h, always (stores P) (λ _ _, True) h p.

Context (P : Trace → KRecord → Prop).

Lemma safe_lift {E A} (r : Res E A) : safe P (lift r).
Proof. by intros h. Qed.

Lemma safe_call {E} (op : NetOp) :
  match op with PutLocalRecord _ => False | _ => True end → safe P (E:=E) (call op).
Proof. intros Hop h. by destruct op. Qed.

Lemma safe_bind {E A B} (p : NetProg E A) (k : A → NetProg E B) :
  safe P p → (∀ a, safe P (k a)) → safe P (p ≫= k).
Proof.
  intros Hp Hk h. apply always_bind. eapply always_mono; [by intros ? ? ?| |apply Hp].
  intros h' [a|e|w] _; [apply Hk|done|done].
Qed.

Lemma safe_map_err {E F A} (f : E → F) (p : NetProg E A) : safe P p → safe P (prog_map_err f p).
Proof. intros Hp h. apply always_map_err. eapply always_mono; [by intros ? ? ?| |apply Hp]. done. Qed.

Lemma safe_attempt {E F A} (p : NetProg E A) : safe P p → safe P (attempt (F:=F) p).
Proof. intros Hp h. apply always_attempt. eapply always_mono; [by intros ? ? ?| |apply Hp]. by intros h' [| |]. Qed.

Lemma safe_fold {E S A} (f : S → A → NetProg E S) s l : (∀ s x, safe P (f s x)) → safe P (prog_fold f s l).
Proof.
  intros Hf. revert s. induction l as [|x l IH]; intros s; cbn; [by intros h|]. by apply safe_bind.
Qed.

Lemma safe_mono Q {E A} (p : NetProg E A) : (∀ h r, Q h r → P h r) → safe Q p → safe P p.
Proof.
  intros HQ Hp h. eapply always_mono; [|by intros ? ? ?|apply Hp].
  intros h' op. destruct op; cbn; auto.
Qed.

Lemma safe_get_record key target re : safe P (get_record_from_network key target re).
Proof. intros h. eapply always_mono; [by intros ? ? ?| |apply get_record_always]. done. Qed.

End Stores.

#[export] Hint Resolve safe_lift safe_attempt safe_map_err safe_get_record : safe_net.

Ltac safe_step :=
  match goal with
  | |- safe _ (_ ≫= _) => apply safe_bind; [|intros ?]
  | |- safe _ (call ?op) => by apply (safe_call _ op)
  | |- safe _ (prog_fold _ _ _) => apply safe_fold; intros ? ?
  | |- safe _ (prog_map_err _ _) => apply safe_map_err
  | |- safe _ (attempt _) => apply safe_attempt
  | |- safe _ (if ?b then _ else _) => destruct b
  | |- safe _ (match ?x with _ => _ end) => destruct x
  | |- safe _ _ => solve [eauto with safe_net]
  end.

(** Splits a program at its binds and closes the parts that store nothing. *)
Ltac safe_tac := repeat safe_step.

Section NodeStores.
Context `{BLS : BlsCrate, XN : XorNameCrate, KD : KadCrate, CR : CrdtsCrate, MK : MerkleCrate}.
Context `{TK : TokenCrate, DI : DbcIdCrate, SD : !SnDbcCrate, DC : !DbcCrate, RP : !RegisterParams}.
Context `{RH : RmpHeader, RC : Rmp (bytes * PaymentProof), RS : Rmp (list SignedSpend), RR : Rmp SignedRegister}.
Context (bld : Build) (genesis : Dbc) (K_VALUE : nat).
Context (join_order : list DbcId → list DbcId) (hash_order : gset SignedSpend → list SignedSpend).

Notation Trace := (list (Effects.Event NetAns)).

(** A record that passed the checks of its kind, given what was answered. *)
Definition validated_store (check_amount : bool) (h : Trace) (rec : KRecord) : Prop :=
  (∃ c, chunk_stored bld c check_amount h rec) ∨ (∃ spends, spends_stored genesis hash_order spends h rec) ∨
  (∃ reg, register_stored reg h rec).

(** The programs a node runs: the handler of an event and the spawned ones. *)
Inductive NodeTask := HandleEvent (ev : NetworkEvent) | NetworkFetch (key : RecordKey) | DialPeers (l : list Multiaddr).

Definition run_node_task (n : Node) (t : NodeTask) : NetProg NodeError unit :=
  match t with
  | HandleEvent ev => handle_network_event bld genesis K_VALUE join_order hash_order n ev
  | NetworkFetch key => fetch_from_network bld genesis join_order hash_order key
  | DialPeers l => dial_initial_peers l
  end.

(** The amount of a payment is checked only for records that are put directly. *)
Definition checks_amount (t : NodeTask) : bool :=
  match t with HandleEvent (UnverifiedRecord _) => true | _ => false end.

Context (Hjoin : ∀ l, join_order l ≡ₚ l).

Lemma safe_store_chunk c check : safe (validated_store check) (validate_and_store_chunk bld join_order c check).
Proof.
  eapply safe_mono; [|intros h; by apply (store_chunk_always bld join_order Hjoin c check h)]. left. by exists c.
Qed.

Lemma safe_store_spends check l : safe (validated_store check) (validate_and_store_spends genesis hash_order l).
Proof.
  eapply safe_mono; [|intros h; apply (store_spends_always genesis hash_order l h)]. right. left. by exists l.
Qed.

Lemma safe_store_register check reg : safe (validated_store check) (validate_and_store_register reg).
Proof. eapply safe_mono; [|intros h; apply (store_register_always reg h)]. right. right. by exists reg. Qed.

#[local] Hint Resolve safe_store_chunk safe_store_spends safe_store_register : safe_net.

Lemma safe_store_record check record :
  safe (validated_store check) (validate_and_store_record bld genesis join_order hash_order record check).
Proof. unfold validate_and_store_record. safe_tac. Qed.

#[local] Hint Resolve safe_store_record : safe_net.

Lemma safe_replication check n peer is_removal :
  safe (validated_store check) (try_trigger_replication K_VALUE n peer is_removal).
Proof.
  unfold try_trigger_replication, net, get_all_local_peers, get_all_local_record_addresses,
    send_replicate_cmd_without_wait, net, send_req_ignore_reply. safe_tac.
Qed.

Lemma safe_request check n req : safe (validated_store check) (handle_request n req).
Proof.
  unfold handle_request, handle_query, handle_node_cmd, node_send_response, log_err, send_response,
    node_add_keys_to_replication_fetcher, net, add_keys_to_replication_fetcher, current_storecost,
    get_local_storecost, get_replicated_data. safe_tac.
Qed.

Lemma safe_response res :
  safe (validated_store false) (handle_response bld genesis join_order hash_order res).
Proof. unfold handle_response, proto. safe_tac. Qed.

Lemma safe_fetch check n keys : safe (validated_store check) (fetch_replication_keys_without_wait n keys).
Proof. unfold fetch_replication_keys_without_wait, net, send_req_ignore_reply. safe_tac. Qed.

#[local] Hint Resolve safe_replication safe_request safe_response safe_fetch : safe_net.

Lemma safe_node_task n t : safe (validated_store (checks_amount t)) (run_node_task n t).
Proof.
  destruct t as [ev|key|l]; cbn [run_node_task checks_amount].
  - destruct ev; cbn [handle_network_event]; unfold log_err; safe_tac.
  - unfold fetch_from_network, net, proto. safe_tac.
  - unfold dial_initial_peers, log_err, dial_peer. safe_tac.
Qed.

End NodeStores.

(** ** Replication *)

Section Replication.
Context `{BLS : BlsCrate, XN : XorNameCrate, KD : KadCrate, CR : CrdtsCrate}.
Context `{TK : TokenCrate, DI : DbcIdCrate, SD : !SnDbcCrate, DC : !DbcCrate}.
Context (K_VALUE : nat).

Notation Trace := (list (Effects.Event NetAns)).

(** The peer is one of the eight closest to the key. *)
Definition in_close_group (peers : list PeerId) (peer : PeerId) (key : NetworkAddress) : bool :=
  match sort_peers_by_address peers key CLOSE_GROUP_SIZE with Ok g => bool_decide (peer ∈ g) | _ => false end.

Lemma sort_peers_enough peers key n :
  CLOSE_GROUP_SIZE ≤ n → n ≤ length peers →
  sort_peers_by_address peers key n
  = Ok (take n (sort_by_key (λ p, kad_distance (as_bytes key) (as_bytes (from_peer p))) peers)).
Proof.
  intros Hn Hlen. unfold sort_peers_by_address, sort_peers_by_key. rewrite decide_False; [done|].
  rewrite length_take, sort_by_key_perm. unfold CLOSE_GROUP_SIZE in *. lia.
Qed.

(** An added peer is the target exactly when it is in the close group. *)
Lemma added_target peers peer key :
  NoDup peers → 9 ≤ length peers →
  replication_target peers peer false key = Ok (if in_close_group peers peer key then Some peer else None).
Proof.
  intros Hnd Hlen. unfold replication_target, in_close_group.
  rewrite !sort_peers_enough by (unfold CLOSE_GROUP_SIZE; lia). cbn [mbind Res_bind].
  set (S := sort_by_key _ peers). assert (S ≡ₚ peers) as HS by apply sort_by_key_perm.
  assert (NoDup S) as HndS by by rewrite HS.
  destruct (lookup_lt_is_Some_2 S 8) as [x Hx]; [rewrite HS; lia|].
  change (CLOSE_GROUP_SIZE + 1) with 9. change CLOSE_GROUP_SIZE with 8. rewrite (take_S_r S 8 x Hx), last_snoc.
  assert (x ∉ take 8 S) as Hxn.
  { intros (i & Hi & Hlt)%elem_of_take. assert (i = 8) by by eapply NoDup_lookup. lia. }
  destruct (decide (peer ∈ take 8 S)) as [Hin|Hin].
  - rewrite bool_decide_eq_true_2 by done. rewrite decide_True by (apply elem_of_app; by left).
    rewrite decide_True; [done|]. by intros [= ->].
  - rewrite bool_decide_eq_false_2 by done. case_decide as Hin'; [|done].
    apply elem_of_app in Hin' as [?| ->%list_elem_of_singleton]; [done|]. rewrite decide_False; [done|]. tauto.
Qed.

Lemma added_list peers peer records m m' :
  NoDup peers → 9 ≤ length peers → replication_list peers peer false records m = Ok m' →
  (∀ t, default [] (m' !! t)
        = default [] (m !! t) ++ if decide (t = peer) then List.filter (in_close_group peers peer) records else []) ∧
  ((∀ t l, m !! t = Some l → l ≠ []) → ∀ t l, m' !! t = Some l → l ≠ []).
Proof.
  intros Hnd Hlen. revert m. induction records as [|key records IH]; intros m; cbn [replication_list List.filter].
  - intros [= <-]. split; [|done]. intros t. by destruct (decide _); rewrite app_nil_r.
  - rewrite added_target by done. cbn [mbind Res_bind].
    destruct (in_close_group peers peer key); intros H; apply IH in H as [Hd Hne]; [|done].
    split.
    + intros t. rewrite Hd. destruct (decide (t = peer)) as [->|Ht].
      * rewrite lookup_insert_eq. cbn. by rewrite <- app_assoc.
      * by rewrite lookup_insert_ne.
    + intros Hm. apply Hne. intros t l [[_ <-]|[_ ?]]%lookup_insert_Some; [by destruct (default _ _)|by eapply Hm].
Qed.

Lemma batches_spec fuel keys :
  length keys ≤ fuel → keys ≠ [] →
  concat (batches fuel keys) = keys ∧
  Forall (λ b, 0 < length b ≤ MAX_REPLICATION_KEYS_PER_REQUEST) (batches fuel keys).
Proof.
  revert keys. induction fuel as [|fuel IH]; intros keys Hle Hne.
  { destruct keys; [done|cbn in Hle; lia]. }
  cbn [batches]. case_decide as Hlt.
  - assert (drop MAX_REPLICATION_KEYS_PER_REQUEST keys ≠ []) as Hd.
    { intros Hd. apply (f_equal length) in Hd. rewrite length_drop in Hd. cbn in Hd. lia. }
    destruct (IH (drop MAX_REPLICATION_KEYS_PER_REQUEST keys)) as [Hc Hf]; [|done|].
    { rewrite length_drop. unfold MAX_REPLICATION_KEYS_PER_REQUEST in *. lia. }
    split; [cbn [concat]; by rewrite Hc, take_drop|]. constructor; [|done].
    rewrite length_take. unfold MAX_REPLICATION_KEYS_PER_REQUEST in *. lia.
  - split; [cbn; by rewrite app_nil_r|]. constructor; [|done]. destruct keys; [done|cbn in *; lia].
Qed.

(** A loop that succeeds and whose body leaves a known trace. *)
Lemma exec_fold_trace {E A} (f : unit → A → NetProg E unit) (g : A → Trace) l tr u :
  (∀ x tr u, exec (f tt x) tr (Ok u) → tr = g x) →
  exec (prog_fold f tt l) tr (Ok u) → tr = concat (g <$> l).
Proof.
  intros Hf. revert tr. induction l as [|x l IH]; intros tr; cbn [prog_fold].
  - by intros [-> _]%exec_done_inv.
  - intros [([] & t1 & t2 & -> & H1 & H2)|[(e & [=] & _)|(w & [=] & _)]]%exec_bind_inv.
    cbn. f_equal; [by eapply Hf|by apply IH].
Qed.

Definition replicate_event (our : NetworkAddress) (peer : PeerId) (batch : list NetworkAddress) : Effects.Event NetAns :=
  existT (SendRequestIgnoreReply (Request_Cmd (Cmd_Replicate our batch)) peer) true.

Lemma exec_send_replicate our peer batch tr u :
  exec (send_replicate_cmd_without_wait our peer batch) tr (Ok u) → tr = [replicate_event our peer batch].
Proof.
  unfold send_replicate_cmd_without_wait, net, send_req_ignore_reply.
  intros (r0 & H & Hr)%exec_map_err_inv. apply exec_call_inv in H as (ok & tr' & -> & H).
  apply exec_done_inv in H as [-> ->]. by destruct ok.
Qed.

(** The keys sent to a peer, in order. *)
Definition keys_of (t : PeerId) (ev : Effects.Event NetAns) : list NetworkAddress :=
  match ev with
  | existT (SendRequestIgnoreReply (Request_Cmd (Cmd_Replicate _ keys)) p) _ => if decide (p = t) then keys else []
  | _ => []
  end.

Definition replicated_to (t : PeerId) (tr : Trace) : list NetworkAddress := concat (keys_of t <$> tr).

Lemma replicated_to_app t tr1 tr2 : replicated_to t (tr1 ++ tr2) = replicated_to t tr1 ++ replicated_to t tr2.
Proof. unfold replicated_to. by rewrite fmap_app, concat_app. Qed.

Lemma replicated_to_batches t our peer bs :
  replicated_to t (replicate_event our peer <$> bs) = if decide (peer = t) then concat bs else [].
Proof.
  unfold replicated_to. rewrite <- list_fmap_compose. induction bs as [|b bs IH]; cbn; [by case_decide|].
  cbn in IH. rewrite IH. by case_decide.
Qed.

Definition batch_events (our : NetworkAddress) (pk : PeerId * list NetworkAddress) : Trace :=
  replicate_event our pk.1 <$> batches (length pk.2) pk.2.

Lemma replicated_to_all t our (l : list (PeerId * list NetworkAddress)) :
  Forall (λ pk, pk.2 ≠ []) l →
  replicated_to t (concat (batch_events our <$> l)) = concat ((λ pk, if decide (pk.1 = t) then pk.2 else []) <$> l).
Proof.
  induction 1 as [|[p keys] l Hne _ IH]; [done|]. cbn [fmap list_fmap concat]. rewrite replicated_to_app, IH.
  f_equal. unfold batch_events. rewrite replicated_to_batches. cbn [fst snd].
  case_decide; [|done]. by apply batches_spec.
Qed.

Lemma concat_lookup (m : gmap PeerId (list NetworkAddress)) t :
  concat ((λ pk, if decide (pk.1 = t) then pk.2 else []) <$> bmap_iter m) = default [] (m !! t).
Proof.
  assert (∀ l : list (PeerId * list NetworkAddress), t ∉ l.*1 →
    concat ((λ pk, if decide (pk.1 = t) then pk.2 else []) <$> l) = []) as Hnone.
  { induction l as [|[p k] l IH]; [done|]. cbn. intros [Hp Hl]%not_elem_of_cons.
    rewrite decide_False by done. by apply IH. }
  destruct (m !! t) as [keys|] eqn:Hm; cbn.
  - apply elem_of_bmap_iter in Hm. pose proof (NoDup_bmap_iter_keys m) as Hnd.
    apply list_elem_of_split in Hm as (l1 & l2 & Hl). rewrite Hl in Hnd |- *.
    rewrite fmap_app, fmap_cons, concat_app. cbn [concat fst snd]. rewrite decide_True by done.
    rewrite fmap_app, fmap_cons in Hnd. cbn in Hnd. apply NoDup_app in Hnd as (_ & H1 & [H2 _]%NoDup_cons).
    rewrite (Hnone l1), (Hnone l2); [by rewrite app_nil_r| done|].
    intros Hin. apply (H1 t Hin). by left.
  - apply Hnone. intros ([p k] & -> & Hin)%list_elem_of_fmap. apply elem_of_bmap_iter in Hin. cbn in Hm. congruence.
Qed.

Lemma elem_of_batch_events our (l : list (PeerId * list NetworkAddress)) holder keys t a :
  Forall (λ pk, pk.2 ≠ []) l →
  existT (SendRequestIgnoreReply (Request_Cmd (Cmd_Replicate holder keys)) t) a ∈ concat (batch_events our <$> l) →
  0 < length keys ≤ MAX_REPLICATION_KEYS_PER_REQUEST ∧ holder = our.
Proof.
  intros Hl (tr & Hin & ([p ks] & -> & Hpk)%list_elem_of_fmap)%elem_of_concat.
  unfold batch_events in Hin. apply list_elem_of_fmap in Hin as (b & Hb & Hin). cbn [fst snd] in *.
  unfold replicate_event in Hb. injection Hb as -> -> -> _.
  rewrite Forall_forall in Hl. specialize (Hl _ Hpk).
  destruct (batches_spec (length ks) ks) as [_ Hf]; [done|done|]. rewrite Forall_forall in Hf. by split; [apply Hf|].
Qed.

Lemma exec_replication_sends our m tr u :
  exec (prog_fold (λ (_ : unit) (pk : PeerId * list NetworkAddress),
          prog_fold (λ _ batch, send_replicate_cmd_without_wait our pk.1 batch) tt (batches (length pk.2) pk.2))
        tt (bmap_iter m)) tr (Ok u) →
  tr = concat (batch_events our <$> bmap_iter m).
Proof.
  apply exec_fold_trace. intros pk tr' u' H. unfold batch_events.
  rewrite (exec_fold_trace _ (λ b, [replicate_event our pk.1 b]) _ _ _ (λ b t v, exec_send_replicate our pk.1 b t v) H).
  by rewrite concat_singletons.
Qed.

End Replication.

(** ** Properties *)

Section Properties.
Context `{BLS : BlsCrate, XN : XorNameCrate, KD : KadCrate, CR : CrdtsCrate, MK : MerkleCrate}.
Context `{TK : TokenCrate, DI : DbcIdCrate, SD : !SnDbcCrate, DC : !DbcCrate, RP : !RegisterParams}.
Context `{RH : RmpHeader, RC : Rmp (bytes * PaymentProof), RS : Rmp (list SignedSpend), RR : Rmp SignedRegister}.
Context (bld : Build) (genesis : Dbc) (K_VALUE : nat).
Context (join_order : list DbcId → list DbcId) (hash_order : gset SignedSpend → list SignedSpend).

(** C2: whatever a node does for an event (a request, a response with
    replicated data, a record put by a peer, ...) or in the tasks it spawns,
    and whatever it is answered, each record it stores was validated as its
    kind demands before; that the payment of a chunk covers the price is
    checked for records put directly, not for replicated ones. *)
Theorem node_stores_only_validated (Hjoin : ∀ l, join_order l ≡ₚ l) n t tr1 rec a tr2 r :
  exec (run_node_task bld genesis K_VALUE join_order hash_order n t)
    (tr1 ++ existT (PutLocalRecord rec) a :: tr2) r →
  validated_store bld genesis hash_order (checks_amount t) tr1 rec.
Proof.
  intros He.
  destruct (always_exec _ _ _ [] _ _ (safe_node_task bld genesis K_VALUE join_order hash_order Hjoin n t []) He)
    as [_ H].
  exact (H tr1 (PutLocalRecord rec) a tr2 eq_refl).
Qed.

(** C23: when a peer is added and enough peers are known, it is sent exactly the
    keys of those records for which it is one of the eight closest peers, in
    the order of the records, and nobody else is sent anything; each request
    names the node as the holder and carries between 1 and 500 keys.  With
    fewer peers than the bucket size nothing is sent. *)
Theorem added_peer_gets_its_keys n peer tr :
  9 ≤ K_VALUE → exec (try_trigger_replication K_VALUE n peer false) tr (Ok tt) →
  ∃ peers, existT GetAllLocalPeers (Answer peers) ∈ tr ∧
  (length peers < K_VALUE → ∀ t, replicated_to t tr = []) ∧
  (K_VALUE ≤ length peers → NoDup peers → ∃ records,
     existT GetAllLocalRecordAddresses (Answer records) ∈ tr ∧
     (∀ t, replicated_to t tr = if decide (t = peer) then List.filter (in_close_group peers peer) records else []) ∧
     (∀ holder keys t a, existT (SendRequestIgnoreReply (Request_Cmd (Cmd_Replicate holder keys)) t) a ∈ tr →
        0 < length keys ≤ 500 ∧ holder = from_peer (peer_id n))).
Proof.
  intros HK. unfold try_trigger_replication, net, get_all_local_peers, get_all_local_record_addresses. cbn.
  intros (rp & tr1 & -> & He)%exec_vis_inv.
  destruct rp as [| |peers]; cbn in He; try by apply exec_done_inv in He as [_ ?].
  exists peers. split; [by left|]. case_decide as Hlen.
  { apply exec_done_inv in He as [-> _]. split; [done|lia]. }
  apply exec_vis_inv in He as (rr & tr2 & -> & He).
  destruct rr as [| |records]; cbn in He; try by apply exec_done_inv in He as [_ ?].
  split; [lia|]. intros _ Hnd. exists records. split; [right; by left|].
  destruct (replication_list peers peer false records ∅) as [m|e|w] eqn:Hm; cbn in He;
    try by apply exec_done_inv in He as [_ ?].
  apply exec_replication_sends in He as ->. apply added_list in Hm as [Hd Hne]; [|done|lia].
  assert (Forall (λ pk : PeerId * list NetworkAddress, pk.2 ≠ []) (bmap_iter m)) as Hall.
  { apply Forall_forall. intros [t l] Hin%elem_of_bmap_iter. eapply Hne; [|exact Hin].
    intros ? ? Hl. by rewrite lookup_empty in Hl. }
  split.
  - intros t. transitivity (replicated_to t (concat (batch_events (from_peer (peer_id n)) <$> bmap_iter m))); [done|].
    rewrite replicated_to_all, concat_lookup, Hd by done. by rewrite lookup_empty.
  - intros holder keys t a [[=]|[[=]|Hin]%elem_of_cons]%elem_of_cons. by eapply elem_of_batch_events.
Qed.

End Properties.

(** ** The properties at concrete values *)

Definition toy_node : Node := {| peer_id := toy_self; initial_peers := []; local_discovery := false |}.

Definition toy_put_task_run : list (Effects.Event NetAns) * Res NodeError unit :=
  run (toy_network toy_spend_rec) 1
    (run_node_task Release toy_genesis 20 id elements toy_node (HandleEvent (UnverifiedRecord toy_chunk_rec))).

Lemma node_stores_only_validated_witness :
  put_at toy_put_task_run.1 3 = Some toy_chunk_rec ∧
  validated_store Release toy_genesis elements true (take 3 toy_put_task_run.1) toy_chunk_rec.
Proof.
  assert (put_at toy_put_task_run.1 3 = Some toy_chunk_rec) as Hput by by_compute.
  split; [exact Hput|]. destruct (put_at_split _ _ _ Hput) as [a E].
  pose proof (run_exec (toy_network toy_spend_rec) 1
    (run_node_task Release toy_genesis 20 id elements toy_node (HandleEvent (UnverifiedRecord toy_chunk_rec)))) as He.
  fold toy_put_task_run in He. rewrite E in He.
  exact (node_stores_only_validated Release toy_genesis 20 id elements (λ l, Permutation_refl l) toy_node
           (HandleEvent (UnverifiedRecord toy_chunk_rec)) _ _ _ _ _ He).
Defined.

(** An environment with eleven known peers and two records. *)
Definition toy_neighbours (rec : KRecord) (n : nat) (op : NetOp) : nat * NetAns op :=
  match op return nat * NetAns op with
  | GetAllLocalPeers => (n, Answer toy_peers)
  | GetAllLocalRecordAddresses => (n, Answer [NA_RecordKey [Byte.x01]; NA_RecordKey [Byte.x0f]])
  | op => toy_network rec n op
  end.

Definition toy_added_run : list (Effects.Event NetAns) * Res NodeError unit :=
  run (toy_neighbours toy_spend_rec) 0 (try_trigger_replication 10 toy_node toy_p2 false).

Lemma added_peer_gets_its_keys_witness :
  ∃ peers, existT GetAllLocalPeers (Answer peers) ∈ toy_added_run.1.
Proof.
  assert (toy_added_run.2 = Ok tt) as E.
  { destruct toy_added_run.2 as [[]| |] eqn:E; [done|exfalso..];
      assert (is_ok toy_added_run.2 = true) as H by by_compute; by rewrite E in H. }
  pose proof (run_exec (toy_neighbours toy_spend_rec) 0 (try_trigger_replication 10 toy_node toy_p2 false)) as He.
  fold toy_added_run in He. rewrite E in He.
  destruct (added_peer_gets_its_keys 10 toy_node toy_p2 toy_added_run.1) as (peers & Hp & _); [lia|exact He|].
  by exists peers.
Defined.
