(* ===== verification/NodeSystem.v ===== *)
(** * A whole node: its tasks, the swarm driver and the record store together

    - [event_loop_round], the tasks and [node_run]: [Node::run] and
      [RunningNode] of src/sn_node/src/api.rs;
    - [cmd_of_op], the commands behind the operations of a task:
      src/sn_networking/src/lib.rs;
    - the broadcast channel: src/sn_node/src/event.rs.

    The other files model the tasks of a node against any answers (NodeApi.v,
    NodeValidation.v) and the driver against any commands (SwarmDriver.v).  Here
    they run against each other: an operation of a task is a command to the
    driver, and its answer is what the driver sends back on the channel of this
    command.  Commands and events are sent by tasks of their own, so neither
    queue keeps its order.  [sys_next] is one step of the node, and the choices
    of the scheduler, the network and the file system are its argument.

    The main theorems: a record that a node serves was validated by one of its
    tasks, was in its directory before, or was the winner of a split vote, or is
    what an unfinished write of such values left; each request for which the
    channel of events had room is handled once; and what a task is told about the
    network has a majority of the peers asked behind it. *)

From S2P Require Import Prelude Deps ToyCrates Registers Protocol Transfers RecordStore ReplicationFetcher Payments Effects Network NodeValidation SwarmDriver NodeApi.
From stdpp Require Import base tactics list gmap sorting strings.
From Stdlib Require Import ZArith NArith Strings.Byte Lia.

Section System.
Context `{BLS : BlsCrate, XN : XorNameCrate, KD : KadCrate, CR : CrdtsCrate, MK : MerkleCrate}.
Context `{TK : TokenCrate, DI : DbcIdCrate, SD : !SnDbcCrate, DC : !DbcCrate, RP : !RegisterParams}.
Context `{RH : RmpHeader, RC : Rmp (bytes * PaymentProof), RS : Rmp (list SignedSpend), RR : Rmp SignedRegister}.
Context (bld : Build) (genesis : Dbc) (K_VALUE : nat).
Context (join_order : list DbcId → list DbcId) (hash_order : gset SignedSpend → list SignedSpend).

Notation Trace := (list (Effects.Event NetAns)).
Notation NodeProg := (NetProg NodeError).

(** ** api.rs: the loop over the network events *)

(** What the loop spawns: the handling of an event, or the query after a time
    without events; the others are spawned by handlers. *)
Inductive RunTask :=
| RT_Task (t : NodeTask)
| RT_Inactivity (random_target : NetworkAddress).

Definition run_task_prog (n : Node) (t : RunTask) : NodeProg unit :=
  match t with
  | RT_Task t => run_node_task bld genesis K_VALUE join_order hash_order n t
  | RT_Inactivity random_target => log_err (node_get_closest_peers (peer_id n) random_target)
  end.

(** What [select!] gives. *)
Inductive Selected :=
| NetEvent (net_event : option NetworkEvent)
| InactivityTimeout (random_peer : PeerId).

(** The tasks spawned, the event broadcast, and whether the loop goes on. *)
Definition event_loop_round (sel : Selected) : list RunTask * list NodeEvent * bool :=
  match sel with
  | NetEvent (Some event) => ([RT_Task (HandleEvent event)], [], true)
  | NetEvent None => ([], [ChannelClosed], false)
  | InactivityTimeout random_peer => ([RT_Inactivity (from_peer random_peer)], [], true)
  end.

(** ** The commands behind the operations *)

(** Where the response of a task goes. *)
Definition responder (t : RunTask) : MsgResponder :=
  match t with RT_Task (HandleEvent (RequestReceived _ channel)) => channel | _ => FromSelf None end.

Definition cmd_of_op (t : RunTask) (op : NetOp) (c : Chan) : option SwarmCmd :=
  match op with
  | StartListening addr => Some (SC_StartListening addr c)
  | Network.Dial addr => Some (SC_Dial addr c)
  | GetSwarmLocalState => Some (SC_GetSwarmLocalState c)
  | GetClosestPeers key => Some (SC_GetClosestPeers key c)
  | GetClosestLocalPeers key => Some (SC_GetClosestLocalPeers key c)
  | GetAllLocalPeers => Some (SC_GetAllLocalPeers c)
  | GetOurCloseGroup => Some (SC_GetOurCloseGroup c)
  | SendRequest req peer => Some (SC_SendRequest req peer (Some c))
  | SendRequestIgnoreReply req peer => Some (SC_SendRequest req peer None)
  | SendResponse resp => Some (SC_SendResponse resp (responder t))
  | RecordStoreHasKey key => Some (SC_RecordStoreHasKey key c)
  | GetAllLocalRecordAddresses => Some (SC_GetAllLocalRecordAddresses c)
  | GetNetworkRecord key => Some (SC_GetNetworkRecord key c)
  | GetLocalStoreCost => Some (SC_GetLocalStoreCost c)
  | GetLocalRecord key => Some (SC_GetLocalRecord key c)
  | PutRecord record => Some (SC_PutRecord record c)
  | PutLocalRecord record => Some (SC_PutLocalRecord record)
  | AddKeysToReplicationFetcher peer keys => Some (SC_AddKeysToReplicationFetcher peer keys)
  | Sleep _ | SleepMillis _ | Broadcast _ | SpawnNetworkFetch _ | SpawnDial _ => None
  end.

(** The answers of [send_swarm_cmd]: without capacity, and with it, when no
    reply is awaited. *)
Definition refused (op : NetOp) : option (NetAns op) :=
  match op with
  | SendRequestIgnoreReply _ _ | SendResponse _ | PutLocalRecord _ | AddKeysToReplicationFetcher _ _ => Some false
  | Sleep _ | SleepMillis _ | Broadcast _ | SpawnNetworkFetch _ | SpawnDial _ => None
  | _ => Some NoCapacity
  end.

Definition accepted (op : NetOp) : option (NetAns op) :=
  match op with
  | SendRequestIgnoreReply _ _ | SendResponse _ | PutLocalRecord _ | AddKeysToReplicationFetcher _ _ => Some true
  | _ => None
  end.

(** The sender of the reply was dropped. *)
Definition dropped (op : NetOp) : option (NetAns op) :=
  match op with
  | SendRequestIgnoreReply _ _ | SendResponse _ | PutLocalRecord _ | AddKeysToReplicationFetcher _ _
  | Sleep _ | SleepMillis _ | Broadcast _ | SpawnNetworkFetch _ | SpawnDial _ => None
  | _ => Some Dropped
  end.

(** Operations that are no commands. *)
Definition performed (op : NetOp) : option (NetAns op) :=
  match op with
  | Sleep _ | SleepMillis _ | Broadcast _ | SpawnNetworkFetch _ | SpawnDial _ => Some tt
  | _ => None
  end.

(** What a payload is to the task that awaits it; a hash set is iterated in
    some [order]. *)
Definition reply_of (order : list PeerId) (op : NetOp) (p : Payload) : option (NetAns op) :=
  match op with
  | StartListening _ | Network.Dial _ | PutRecord _ => match p with P_Unit r => Some (Answer r) | _ => None end
  | GetSwarmLocalState =>
      match p with P_LocalState cs ls => Some (Answer {| sls_connected_peers := cs; sls_listeners := ls |}) | _ => None end
  | GetClosestPeers _ =>
      match p with P_PeerSet s => if decide (order ≡ₚ elements s) then Some (Answer order) else None | _ => None end
  | GetClosestLocalPeers _ | GetAllLocalPeers | GetOurCloseGroup => match p with P_PeerList l => Some (Answer l) | _ => None end
  | SendRequest _ _ => match p with P_Response r => Some (Answer r) | _ => None end
  | RecordStoreHasKey _ => match p with P_Bool b => Some (Answer b) | _ => None end
  | GetAllLocalRecordAddresses => match p with P_Addresses l => Some (Answer l) | _ => None end
  | GetNetworkRecord _ => match p with P_Record r => Some (Answer r) | _ => None end
  | GetLocalStoreCost => match p with P_Token t => Some (Answer t) | _ => None end
  | GetLocalRecord _ => match p with P_LocalRecord r => Some (Answer r) | _ => None end
  | _ => None
  end.

(** The tasks an operation spawns, and the events it broadcasts. *)
Definition spawned_by (op : NetOp) : list RunTask :=
  match op with
  | SpawnNetworkFetch key => [RT_Task (NetworkFetch key)]
  | SpawnDial addrs => [RT_Task (DialPeers addrs)]
  | _ => []
  end.
Definition broadcast_by (op : NetOp) : list NodeEvent := match op with Broadcast e => [e] | _ => [] end.

(** ** The state of a node *)

(** A task: what it did so far, the channel on which it awaits a reply, and
    what it will do. *)
Record Running := {
  rt_task : RunTask;
  rt_trace : Trace;
  rt_wait : option Chan;
  rt_prog : NodeProg unit;
}.

(** [sys_history] is what the driver did; tasks that are done stay in the list. *)
Record NodeSystem := {
  sys_driver : SwarmDriver;
  sys_alive : bool;
  sys_history : list (Env * Input);
  sys_commands : list SwarmCmd;
  sys_events : list NetworkEvent;
  sys_tasks : list Running;
  sys_looping : bool;
  sys_next_chan : Chan;
  sys_broadcasts : list NodeEvent;
}.

Definition start_task (n : Node) (t : RunTask) : Running :=
  {| rt_task := t; rt_trace := []; rt_wait := None; rt_prog := run_task_prog n t |}.

Definition add_tasks (n : Node) (ts : list RunTask) (s : NodeSystem) : NodeSystem :=
  {| sys_driver := sys_driver s; sys_alive := sys_alive s; sys_history := sys_history s; sys_commands := sys_commands s;
     sys_events := sys_events s; sys_tasks := sys_tasks s ++ (start_task n <$> ts); sys_looping := sys_looping s;
     sys_next_chan := sys_next_chan s; sys_broadcasts := sys_broadcasts s |}.

Definition set_task (i : nat) (t : Running) (s : NodeSystem) : NodeSystem :=
  {| sys_driver := sys_driver s; sys_alive := sys_alive s; sys_history := sys_history s; sys_commands := sys_commands s;
     sys_events := sys_events s; sys_tasks := <[i := t]> (sys_tasks s); sys_looping := sys_looping s;
     sys_next_chan := sys_next_chan s; sys_broadcasts := sys_broadcasts s |}.

Definition add_broadcasts (l : list NodeEvent) (s : NodeSystem) : NodeSystem :=
  {| sys_driver := sys_driver s; sys_alive := sys_alive s; sys_history := sys_history s; sys_commands := sys_commands s;
     sys_events := sys_events s; sys_tasks := sys_tasks s; sys_looping := sys_looping s;
     sys_next_chan := sys_next_chan s; sys_broadcasts := sys_broadcasts s ++ l |}.

(** The loop, having taken the event out of the channel. *)
Definition loop_selected (n : Node) (sel : Selected) (rest : list NetworkEvent) (s : NodeSystem) : NodeSystem :=
  let '(ts, bs, go) := event_loop_round sel in
  {| sys_driver := sys_driver s; sys_alive := sys_alive s; sys_history := sys_history s; sys_commands := sys_commands s;
     sys_events := rest; sys_tasks := sys_tasks s ++ (start_task n <$> ts); sys_looping := go;
     sys_next_chan := sys_next_chan s; sys_broadcasts := sys_broadcasts s ++ bs |}.

(** A command enters the channel; the next one has another reply channel. *)
Definition send_command (cmd : SwarmCmd) (s : NodeSystem) : NodeSystem :=
  {| sys_driver := sys_driver s; sys_alive := sys_alive s; sys_history := sys_history s;
     sys_commands := sys_commands s ++ [cmd]; sys_events := sys_events s; sys_tasks := sys_tasks s;
     sys_looping := sys_looping s; sys_next_chan := S (sys_next_chan s); sys_broadcasts := sys_broadcasts s |}.

Definition answered (op : NetOp) (a : NetAns op) (k : NetAns op → NodeProg unit) (t : Running) : Running :=
  {| rt_task := rt_task t; rt_trace := rt_trace t ++ [existT op a]; rt_wait := None; rt_prog := k a |}.
Definition waiting (c : Chan) (t : Running) : Running :=
  {| rt_task := rt_task t; rt_trace := rt_trace t; rt_wait := Some c; rt_prog := rt_prog t |}.

(** The driver made a round: what it sends as events enters the other channel. *)
Definition driver_moved (env : Env) (input : Input) (d : SwarmDriver) (cmds : list SwarmCmd) (s : NodeSystem) : NodeSystem :=
  {| sys_driver := d; sys_alive := sys_alive s; sys_history := sys_history s ++ [(env, input)]; sys_commands := cmds;
     sys_events := sys_events s ++ omap (λ o, match o with SwarmDriver.Event ev => Some ev | _ => None end)
                                        (drop (length (outputs (sys_driver s))) (outputs d));
     sys_tasks := sys_tasks s; sys_looping := sys_looping s; sys_next_chan := sys_next_chan s;
     sys_broadcasts := sys_broadcasts s |}.

Definition driver_panicked (s : NodeSystem) : NodeSystem :=
  {| sys_driver := sys_driver s; sys_alive := false; sys_history := sys_history s; sys_commands := [];
     sys_events := sys_events s; sys_tasks := sys_tasks s; sys_looping := sys_looping s;
     sys_next_chan := sys_next_chan s; sys_broadcasts := sys_broadcasts s |}.

(** The record store was called by kad, or one of its file tasks ran. *)
Definition store_moved (w : World) (s : NodeSystem) : NodeSystem :=
  {| sys_driver := set_record_store w (sys_driver s); sys_alive := sys_alive s; sys_history := sys_history s;
     sys_commands := sys_commands s;
     sys_events := sys_events s ++ (UnverifiedRecord <$> drop (length (events (record_store (sys_driver s)))) (events w));
     sys_tasks := sys_tasks s; sys_looping := sys_looping s; sys_next_chan := sys_next_chan s;
     sys_broadcasts := sys_broadcasts s |}.

(** [Node::run]: the driver and the loop start. *)
Definition node_run (n : Node) (local : bool) (files : gmap string bytes) : NodeSystem :=
  {| sys_driver := driver_with (peer_id n) local false files; sys_alive := true; sys_history := []; sys_commands := [];
     sys_events := []; sys_tasks := []; sys_looping := true; sys_next_chan := 0; sys_broadcasts := [] |}.

(** ** The steps *)

(** Which part moves, and what it is answered from outside. *)
Inductive Choice :=
| TakeEvent (j : nat)
| TakeClosed
| Inactive (random_peer : PeerId)
| SendCommand (i : nat)
| ChannelFull (i : nat)
| Perform (i : nat)
| GetReply (i j : nat) (order : list PeerId)
| ReplyDropped (i : nat)
| RunCommand (j : nat) (env : Env)
| RunSwarmEvent (env : Env) (ev : SwarmEvent)
| FileTask (j : nat) (outcome : FileOutcome)
| KadPut (r : KRecord)
| KadRemove (key : RecordKey).

(** A round of the driver, with the commands that stay in the channel. *)
Definition driver_round (env : Env) (input : Input) (cmds : list SwarmCmd) (s : NodeSystem) : option NodeSystem :=
  if sys_alive s then
    match run_round K_VALUE env input (sys_driver s) with
    | Some d => Some (driver_moved env input d cmds s)
    | None => Some (driver_panicked s)
    end
  else None.

(** A spawned task of the store with a sender of the event channel, which is
    closed when there is none left. *)
Definition holds_sender (t : Task) : bool := match t with SendUnverified _ => true | _ => false end.

(** A task whose next step is an operation. *)
Definition at_op {A : Type} (i : nat) (s : NodeSystem)
    (f : Running → ∀ op : NetOp, (NetAns op → NodeProg unit) → option A) : option A :=
  t ← sys_tasks s !! i; match rt_prog t with Vis op k => f t op k | Done _ => None end.

Definition sys_next (n : Node) (c : Choice) (s : NodeSystem) : option NodeSystem :=
  match c with
  | TakeEvent j =>
      if sys_looping s then ev ← sys_events s !! j; Some (loop_selected n (NetEvent (Some ev)) (delete j (sys_events s)) s)
      else None
  | TakeClosed =>
      if sys_looping s && negb (sys_alive s) && bool_decide (sys_events s = []) && forallb (negb ∘ holds_sender) (spawned (record_store (sys_driver s)))
      then Some (loop_selected n (NetEvent None) [] s) else None
  | Inactive p =>
      if sys_looping s then Some (loop_selected n (InactivityTimeout p) (sys_events s) s) else None
  | SendCommand i =>
      at_op i s (λ t op k,
        match rt_wait t, cmd_of_op (rt_task t) op (sys_next_chan s) with
        | None, Some cmd =>
            let t' := match accepted op with Some a => answered op a k t | None => waiting (sys_next_chan s) t end in
            Some (send_command cmd (set_task i t' s))
        | _, _ => None
        end)
  | ChannelFull i =>
      at_op i s (λ t op k,
        match rt_wait t, refused op with None, Some a => Some (set_task i (answered op a k t) s) | _, _ => None end)
  | Perform i =>
      at_op i s (λ t op k,
        match rt_wait t, performed op with
        | None, Some a => Some (add_broadcasts (broadcast_by op) (add_tasks n (spawned_by op) (set_task i (answered op a k t) s)))
        | _, _ => None
        end)
  | GetReply i j order =>
      at_op i s (λ t op k,
        match rt_wait t, outputs (sys_driver s) !! j with
        | Some c, Some (Sent c' p) =>
            if decide (c = c') then a ← reply_of order op p; Some (set_task i (answered op a k t) s) else None
        | _, _ => None
        end)
  | ReplyDropped i =>
      at_op i s (λ t op k,
        match rt_wait t, dropped op with Some _, Some a => Some (set_task i (answered op a k t) s) | _, _ => None end)
  | RunCommand j env => cmd ← sys_commands s !! j; driver_round env (InCmd cmd) (delete j (sys_commands s)) s
  | RunSwarmEvent env ev => driver_round env (InEvent ev) (sys_commands s) s
  | FileTask j outcome => w ← file_task outcome j (record_store (sys_driver s)); Some (store_moved w s)
  | KadPut r => if sys_alive s then Some (store_moved (store_put r (record_store (sys_driver s))).1 s) else None
  | KadRemove key => if sys_alive s then Some (store_moved (RecordStore.remove key (record_store (sys_driver s))) s) else None
  end.

Fixpoint sys_run (n : Node) (cs : list Choice) (s : NodeSystem) : option NodeSystem :=
  match cs with [] => Some s | c :: cs => s' ← sys_next n c s; sys_run n cs s' end.

(** A map of votes is iterated over its own entries. *)
Definition env_ok (env : Env) : Prop := ∀ rm, result_order env rm ≡ₚ map_to_list rm.
Definition choice_ok (c : Choice) : Prop :=
  match c with RunCommand _ env | RunSwarmEvent env _ => env_ok env | _ => True end.

Inductive sys_reachable (n : Node) (local : bool) (files : gmap string bytes) : NodeSystem → Prop :=
| sys_start : sys_reachable n local files (node_run n local files)
| sys_step s c s' : sys_reachable n local files s → choice_ok c → sys_next n c s = Some s' → sys_reachable n local files s'.

(** ** api.rs: the running node *)

Definition RunningNode_peer_id (n : Node) : PeerId := peer_id n.
Definition RunningNode_get_swarm_local_state : NodeProg SwarmLocalState := net get_swarm_local_state.
Definition RunningNode_get_all_record_addresses : NodeProg (list NetworkAddress) := net get_all_local_record_addresses.



End System.

(** ** What the rounds of the driver keep *)

Section Rounds.
Context `{BLS : BlsCrate, XN : XorNameCrate, KD : KadCrate, CR : CrdtsCrate}.
Context `{TK : TokenCrate, DI : DbcIdCrate, SD : !SnDbcCrate}.
Context (K_VALUE : nat).

Notation D := (StM SwarmDriver NetworkError).
Notation History := (list (Env * Input)).

(** The requests among the events. *)
Definition request_of (o : Output) : option (Request * MsgResponder) :=
  match o with SwarmDriver.Event (RequestReceived req channel) => Some (req, channel) | _ => None end.

(** Only the queries and the peers changed, and what was sent is [ok]. *)
Definition same_store (ok : Output → Prop) (d d' : SwarmDriver) : Prop :=
  self_peer_id d' = self_peer_id d ∧ record_store d' = record_store d ∧
  ∃ l, outputs d' = outputs d ++ l ∧ Forall ok l.

Lemma same_store_silent ok d d' :
  self_peer_id d' = self_peer_id d → record_store d' = record_store d → outputs d' = outputs d → same_store ok d d'.
Proof. intros HS HR HO. split_and!; [done|done|]. exists []. by rewrite HO, app_nil_r. Qed.

Definition stored_by_cmd (cmd : SwarmCmd) : list KRecord := match cmd with SC_PutLocalRecord r => [r] | _ => [] end.

(** The handlers that put no record keep whatever such steps and a change of
    the distance range keep.  Only the two that pass a request on send one. *)
Section Keep.
Context (ok : Output → Prop) (ok_other : ∀ o, request_of o = None → ok o).
Context (R : relation SwarmDriver) `{!PreOrder R}.
Context (R_same : ∀ d d', same_store ok d d' → R d d').
Context (R_range : ∀ dist d, R d (set_record_store (set_distance_range dist (record_store d)) d)).

Lemma keep_on_fetcher {A} (m : StM ReplicationFetcher Empty_set A) : frame R (on_fetcher m).
Proof. intros d. unfold on_fetcher. destruct (m (replication_fetcher d)). by apply R_same, same_store_silent. Qed.

Lemma keep_ignore_err {A} (m : D A) : frame R m → frame R (ignore_err m).
Proof. intros Hm d. specialize (Hm d). unfold ignore_err. by destruct (m d) as [d' [|e|w]]. Qed.

Lemma keep_for_each {A} (l : list A) (f : A → D unit) : (∀ x, frame R (f x)) → frame R (for_each l f).
Proof.
  intros Hf. induction l as [|x l IH]; cbn; [apply (frame_ret _)|]. apply (frame_bind _); [apply Hf|intros _; exact IH].
Qed.

Lemma keep_emit o : ok o → frame R (emit o).
Proof. intros Ho d. apply R_same. split_and!; [done|done|]. exists [o]. by repeat constructor. Qed.

Lemma keep_push p : frame R (λ d : SwarmDriver,
  let '(v, r) := CircularVec_push p (dialed_peers d) in
  (set_dialed_peers v d, map_err (λ _, Network.CircularVecPopFrontError) r)).
Proof. intros d. destruct (CircularVec_push p (dialed_peers d)). by apply R_same, same_store_silent. Qed.

Ltac keep_step :=
  match goal with
  | |- frame _ (_ ≫= _) => apply (frame_bind _); [|intros ?]
  | |- frame _ (emit _) => apply keep_emit; first [by apply ok_other | by eauto]
  | |- frame _ (modify _) => apply (frame_modify _); intros ?; by apply R_same, same_store_silent
  | |- frame _ (if ?b then _ else _) => destruct b
  | |- frame _ (match ?x with _ => _ end) => destruct x
  | |- frame _ (for_each _ _) => apply keep_for_each; intros ?
  | |- frame _ (mret _) => apply (frame_ret _)
  | |- frame _ (gets _) => apply (frame_gets _)
  | |- frame _ (lift_res _) => apply (frame_lift _)
  | |- frame _ (throw _) => apply (frame_throw _)
  | |- frame _ (ignore_err _) => apply keep_ignore_err
  | |- frame _ (on_fetcher _) => apply keep_on_fetcher
  | |- frame _ (on_store _) => intros ?; apply R_range
  | |- frame _ _ => first [apply keep_push | intros ?; by apply R_same, same_store_silent]
  end.
Ltac keep_tac := unfold all_local_peers, dial, send, send_checked, send_event; repeat keep_step.

Lemma keep_close_group env : frame R (check_for_change_in_our_close_group env).
Proof. unfold check_for_change_in_our_close_group, update_record_distance_range. keep_tac. Qed.

Lemma keep_cmd env cmd :
  stored_by_cmd cmd = [] →
  (∀ req peer sender, cmd = SC_SendRequest req peer sender → ok (SwarmDriver.Event (RequestReceived req (FromSelf sender)))) →
  frame R (handle_cmd env cmd).
Proof. intros Hne Hreq. destruct cmd; try discriminate Hne; cbn [handle_cmd]; keep_tac. Qed.

Lemma keep_msg env ev :
  (∀ peer req channel, ev = Message_Request peer req channel → ok (SwarmDriver.Event (RequestReceived req (FromPeer channel)))) →
  frame R (handle_msg env ev).
Proof. intros Hreq. destruct ev; cbn [handle_msg]; keep_tac. Qed.

Lemma keep_swarm env ev :
  match ev with
  | SE_Kademlia kev => is_found_record kev = false
  | SE_MsgReceived (Message_Request _ req channel) => ok (SwarmDriver.Event (RequestReceived req (FromPeer channel)))
  | _ => True
  end →
  frame R (handle_swarm_events K_VALUE env ev).
Proof.
  intros Hne. destruct ev as [mev|kev| | | | | | | | | | |]; cbn [handle_swarm_events]; unfold handle_identify.
  1: apply keep_ignore_err, keep_msg; intros ? ? ? ->; exact Hne.
  1: destruct kev; try discriminate Hne; cbn [handle_kad_event].
  all: keep_tac; apply keep_close_group.
Qed.

(** Whole rounds, where putting a record also keeps it. *)
Context (R_put : ∀ order r, frame R (on_store (put_verified order r))).

Lemma keep_put_local env r : frame R (handle_cmd env (SC_PutLocalRecord r)).
Proof.
  cbn [handle_cmd]. apply (frame_bind _); [apply R_put|]. intros _.
  apply (frame_bind _); [apply keep_on_fetcher|]. intros keys. keep_tac.
Qed.

Lemma keep_split env rm : frame R (try_update_self_for_split_record env rm).
Proof.
  unfold try_update_self_for_split_record. case_decide; [apply (frame_ret _)|].
  destruct (head _) as [[n [r ps]]|]; [|apply (frame_ret _)].
  apply (frame_bind _); [apply (frame_gets _)|]. intros me. case_decide; [|apply (frame_ret _)].
  apply keep_ignore_err, R_put.
Qed.

Lemma keep_found env id peer rec count : frame R (accumulate_get_record_ok env id peer rec count).
Proof.
  intros d. rewrite accumulate_eq. destruct (pending_get_record d !! id) as [[c rm]|]; [|by apply R_same, same_store_silent].
  destruct (add_vote _ _ _) as [rm' peers]. destruct (vote_result _ _ _) as [result|]; [|by apply R_same, same_store_silent].
  set (d1 := add_output _ _). assert (R d d1) as H1; [|etrans; [exact H1|apply keep_split]].
  apply R_same. split_and!; [done|done|]. exists [Sent c (P_Record result)]. repeat constructor. by apply ok_other.
Qed.

Lemma keep_round env input d d' :
  run_round K_VALUE env input d = Some d' →
  match input with
  | InCmd (SC_SendRequest req _ sender) => ok (SwarmDriver.Event (RequestReceived req (FromSelf sender)))
  | InEvent (SE_MsgReceived (Message_Request _ req channel)) => ok (SwarmDriver.Event (RequestReceived req (FromPeer channel)))
  | _ => True
  end → R d d'.
Proof.
  intros Hr Hok. assert (d' = match input with
    | InCmd cmd => (handle_cmd env cmd d).1 | InEvent ev => (handle_swarm_events K_VALUE env ev d).1 end) as ->.
  { unfold run_round in Hr. by destruct input; [destruct (handle_cmd _ _ _) as [? []]|
      destruct (handle_swarm_events _ _ _ _) as [? []]]; simplify_eq/=. }
  destruct input as [cmd|ev].
  - destruct (decide (stored_by_cmd cmd = [])) as [Hs|Hs].
    + apply keep_cmd; [done|]. by intros req peer sender ->.
    + destruct cmd; try by destruct Hs. apply keep_put_local.
  - destruct ev as [mev|kev| | | | | | | | | | |]; try (apply keep_swarm; done).
    destruct kev; try (apply keep_swarm; done). apply keep_found.
Qed.

End Keep.

Notation anything := (λ _ : Output, True).

(** The directory and the file tasks are the same. *)
Definition kept (d d' : SwarmDriver) : Prop :=
  self_peer_id d' = self_peer_id d ∧
  files (record_store d') = files (record_store d) ∧ spawned (record_store d') = spawned (record_store d) ∧
  torn (record_store d') = torn (record_store d).

#[local] Instance kept_preorder : PreOrder kept.
Proof. split; [done|]. intros d1 d2 d3 (S1 & F1 & T1 & Q1) (S2 & F2 & T2 & Q2). unfold kept. by rewrite S2, S1, F2, F1, T2, T1, Q2, Q1. Qed.

Lemma kept_same d d' : same_store anything d d' → kept d d'.
Proof. intros (HS & HR & _). unfold kept. by rewrite HS, HR. Qed.

Lemma kept_cmd env cmd : stored_by_cmd cmd = [] → frame kept (handle_cmd env cmd).
Proof. intros H. by apply (keep_cmd anything (λ _ _, I) kept kept_same). Qed.

Lemma kept_swarm env ev :
  match ev with SE_Kademlia kev => is_found_record kev = false | _ => True end →
  frame kept (handle_swarm_events K_VALUE env ev).
Proof. intros H. apply (keep_swarm anything (λ _ _, I) kept kept_same); [done|]. destruct ev as [[]| | | | | | | | | | | |]; done. Qed.

(** What was sent stays sent, and no record of a peer is announced. *)
Definition only_sends (d d' : SwarmDriver) : Prop :=
  outputs d `prefix_of` outputs d' ∧ events (record_store d') = events (record_store d).

#[local] Instance only_sends_preorder : PreOrder only_sends.
Proof. split; [done|]. intros d1 d2 d3 [O1 E1] [O2 E2]. split; [by etrans|by rewrite E2]. Qed.

Lemma only_sends_same d d' : same_store anything d d' → only_sends d d'.
Proof. intros (_ & HR & l & HO & _). split; [rewrite HO; by apply prefix_app_r|by rewrite HR]. Qed.

Lemma put_verified_events order r w : events (put_verified order r w).1 = events w.
Proof.
  rewrite put_verified_eq. unfold prune_storage_if_needed_for_record.
  case_decide; [done|]. destruct (last_of _); [|done]. by case_decide.
Qed.

Lemma only_sends_put order r : frame only_sends (on_store (put_verified order r)).
Proof.
  intros d. unfold on_store. pose proof (put_verified_events order r (record_store d)) as He. by destruct (put_verified _ _ _).
Qed.

Lemma only_sends_round env input d d' : run_round K_VALUE env input d = Some d' → only_sends d d'.
Proof.
  intros Hr. eapply (keep_round anything (λ _ _, I) only_sends only_sends_same); [done|apply only_sends_put|exact Hr|].
  by repeat case_match.
Qed.

(** *** Requests *)

Definition requests (d : SwarmDriver) : list (Request * MsgResponder) := omap request_of (outputs d).

(** The request that a peer, or the node itself, gives the driver in a round,
    where the channel of events has room for it. *)
Definition received_request (me : PeerId) (ei : Env * Input) : option (Request * MsgResponder) :=
  let given req channel := if has_capacity ei.1 (RequestReceived req channel) then Some (req, channel) else None in
  match ei.2 with
  | InEvent (SE_MsgReceived (Message_Request _ req channel)) => given req (FromPeer channel)
  | InCmd (SC_SendRequest req peer sender) => if decide (peer = me) then given req (FromSelf sender) else None
  | _ => None
  end.

Definition same_requests (d d' : SwarmDriver) : Prop := self_peer_id d' = self_peer_id d ∧ requests d' = requests d.

#[local] Instance same_requests_preorder : PreOrder same_requests.
Proof. split; [done|]. intros d1 d2 d3 [S1 Q1] [S2 Q2]. unfold same_requests. by rewrite S2, S1, Q2, Q1. Qed.

Notation no_request := (λ o : Output, request_of o = None).

Lemma same_requests_same d d' : same_store no_request d d' → same_requests d d'.
Proof.
  intros (HS & _ & l & HO & Hl). split; [done|]. unfold requests. rewrite HO, omap_app.
  assert (omap request_of l = []) as ->; [|by rewrite app_nil_r]. clear HO.
  induction Hl as [|o l Ho _ IH]; [done|]. cbv beta in Ho. cbn [omap list_omap]. rewrite Ho. exact IH.
Qed.

Lemma same_requests_put order r : frame same_requests (on_store (put_verified order r)).
Proof. intros d. unfold on_store. by destruct (put_verified _ _ _). Qed.

Lemma requests_add d o : requests (add_output o d) = requests d ++ option_list (request_of o).
Proof. unfold requests. cbn. rewrite omap_app. cbn. by destruct (request_of o). Qed.

(** A round sends exactly the request it was given. *)
Lemma requests_round env input d d' :
  run_round K_VALUE env input d = Some d' →
  self_peer_id d' = self_peer_id d ∧ requests d' = requests d ++ option_list (received_request (self_peer_id d) (env, input)).
Proof.
  assert (received_request (self_peer_id d) (env, input) = None → same_requests d d' →
    self_peer_id d' = self_peer_id d ∧ requests d' = requests d ++ option_list (received_request (self_peer_id d) (env, input))) as Hsame.
  { intros -> [HS HQ]. by rewrite HQ, app_nil_r. }
  intros Hr. pose proof (keep_round no_request (λ _ H, H) same_requests same_requests_same (λ _ _, conj eq_refl eq_refl)
    same_requests_put env input d d' Hr) as Hk.
  destruct input as [cmd|ev]; [destruct cmd; try by apply Hsame, Hk|destruct ev as [mev| | | | | | | | | | | |]; try by apply Hsame, Hk].
  - unfold run_round in Hr. cbn in Hr |- *. unfold mbind, StM_bind in Hr. cbn in Hr. case_decide.
    + unfold send_event in Hr. destruct (has_capacity _ _); injection Hr as <-; [by rewrite requests_add|by rewrite app_nil_r].
    + injection Hr as <-. split; [done|]. apply requests_add.
  - destruct mev; try by apply Hsame, Hk. unfold run_round in Hr. cbn in Hr |- *. unfold ignore_err, send_event in Hr.
    destruct (has_capacity _ _); injection Hr as <-; [by rewrite requests_add|by rewrite app_nil_r].
Qed.

(** A put from a command: the record, then only the fetcher and events. *)
Lemma put_local_record_store env r d :
  record_store (handle_cmd env (SC_PutLocalRecord r) d).1 = (put_verified (store_order env) r (record_store d)).1 ∧
  self_peer_id (handle_cmd env (SC_PutLocalRecord r) d).1 = self_peer_id d.
Proof.
  cbn [handle_cmd]. unfold mbind, StM_bind, on_store.
  destruct (put_verified _ _ _) as [w [[]|e|p]]; cbn; try done.
  unfold on_fetcher. destruct (notify_about_new_put _ _ _ _ _) as [f [keys|[]|p]]; cbn; try done.
  unfold send_event, emit. by repeat case_match.
Qed.

(** *** The copies of pending queries were received *)

(** A peer sent the record for the query [id]. *)
Definition copied (h : History) (id : QueryId) (rec : KRecord) : Prop :=
  ∃ env peer count, (env, InEvent (SE_Kademlia (FoundRecord id peer rec count))) ∈ h.

(** The record was sent for a query, and so was one with another content. *)
Definition split_copy (h : History) (rec : KRecord) : Prop :=
  ∃ id rec', copied h id rec ∧ copied h id rec' ∧ from_content (r_value rec') ≠ from_content (r_value rec).

Definition votes_copied (h : History) (id : QueryId) (rm : GetRecordResultMap) : Prop :=
  ∀ n rec peers, rm !! n = Some (rec, peers) → copied h id rec ∧ n = from_content (r_value rec).

Definition copies_ok (h : History) (d : SwarmDriver) : Prop :=
  ∀ id c rm, pending_get_record d !! id = Some (c, rm) → votes_copied h id rm.

Lemma copied_mono h h' id rec : copied h id rec → copied (h ++ h') id rec.
Proof. intros (env & peer & count & H). exists env, peer, count. apply elem_of_app. by left. Qed.

Lemma split_copy_mono h h' rec : split_copy h rec → split_copy (h ++ h') rec.
Proof. intros (id & rec' & H1 & H2 & Hne). exists id, rec'. split_and!; [by apply copied_mono..|done]. Qed.

Lemma copies_ok_mono h h' d : copies_ok h d → copies_ok (h ++ h') d.
Proof. intros H id c rm Hl n rec peers Hn. destruct (H id c rm Hl n rec peers Hn). split; [by apply copied_mono|done]. Qed.

Lemma copies_ok_quiet h d d' : quiet d d' → copies_ok h d → copies_ok h d'.
Proof. intros [_ HP _] H id c rm Hl. eapply H, lookup_weaken; [exact Hl|exact HP]. Qed.

Lemma add_vote_copied h id peer_id rec rm :
  votes_copied h id rm → copied h id rec → votes_copied h id (add_vote peer_id rec rm).1.
Proof.
  intros Hrm Hrec n rec' ps Hl. cbn in Hl.
  apply lookup_insert_Some in Hl as [(<- & [= <- <-])|[_ Hl]]; [done|].
  apply lookup_delete_Some in Hl as [_ Hl]. by eapply Hrm.
Qed.

(** A map of votes that is not about a single content has another one. *)
Lemma other_vote (rm : GetRecordResultMap) n c :
  rm !! n = Some c → size rm ≠ 1 → ∃ n' c', n' ≠ n ∧ rm !! n' = Some c'.
Proof.
  intros Hn Hs. destruct (map_choose (delete n rm)) as (n' & c' & Hc').
  - intros He. apply Hs. rewrite <- (insert_delete_id rm n c) by done. rewrite He, insert_empty. apply map_size_singleton.
  - apply lookup_delete_Some in Hc' as [Hne Hc']. by exists n', c'.
Qed.

(** What the winners of a vote are. *)
Lemma split_step_from (l : list (XorName * (KRecord * gset PeerId))) acc :
  (∀ n c, (foldl split_step acc l).2 !! n = Some c → acc.2 !! n = Some c ∨ (n, c) ∈ l).
Proof.
  revert acc. induction l as [|[n0 [rec ps]] l IH]; intros acc n c; cbn [foldl]; [by left|].
  intros [H|H]%IH; [|right; by right]. destruct acc as [hc hr]. unfold split_step in H.
  assert (∀ m, <[n0 := (rec, ps)]> m !! n = Some c → m !! n = Some c ∨ (n, c) ∈ (n0, (rec, ps)) :: l) as Hins
    by (intros m [[<- <-]|[_ ?]]%lookup_insert_Some; [right; by left|by left]).
  repeat case_decide; cbn in H |- *; try lia; [|by apply Hins|by left].
  apply Hins in H as [H|H]; [by rewrite lookup_empty in H|by right].
Qed.

(** Resolving a split vote puts one of the copies, or nothing. *)
Lemma split_store env h id rm d :
  env_ok env → votes_copied h id rm →
  let d' := (try_update_self_for_split_record env rm d).1 in
  self_peer_id d' = self_peer_id d ∧
  (record_store d' = record_store d ∨
   ∃ rec, split_copy h rec ∧ record_store d' = (put_verified (store_order env) rec (record_store d)).1).
Proof.
  intros Henv Hrm. cbn zeta. unfold try_update_self_for_split_record. case_decide as Hsz; [by split; [|left]|].
  destruct (head _) as [[n [rec ps]]|] eqn:Hh; [|by split; [|left]].
  unfold mbind, StM_bind. cbn. destruct (decide (self_peer_id d ∉ ps)); [|by split; [|left]].
  apply head_Some_elem_of, elem_of_bmap_iter, split_step_from in Hh as [Hh|Hh]; [cbn in Hh; by rewrite lookup_empty in Hh|].
  rewrite (Henv rm), elem_of_map_to_list in Hh.
  assert (split_copy h rec) as Hsplit.
  { destruct (other_vote rm n _ Hh Hsz) as (n' & [rec' ps'] & Hne & Hn').
    destruct (Hrm _ _ _ Hh) as [Hc ->]. destruct (Hrm _ _ _ Hn') as [Hc' ->]. by exists id, rec'. }
  unfold ignore_err, on_store.
  destruct (put_verified _ _ _) as [w [u|e|p]] eqn:E; cbn; (split; [done|right; exists rec; split; [done|]]);
    by rewrite E.
Qed.

Lemma accumulate_store env h id peer rec count d :
  env_ok env → copies_ok h d → copied h id rec →
  let d' := (accumulate_get_record_ok env id peer rec count d).1 in
  self_peer_id d' = self_peer_id d ∧ copies_ok h d' ∧
  (record_store d' = record_store d ∨
   ∃ r, split_copy h r ∧ record_store d' = (put_verified (store_order env) r (record_store d)).1).
Proof.
  intros Henv Hd Hrec. cbn zeta. rewrite accumulate_eq.
  assert (copies_ok h (set_pending_get_record (delete id (pending_get_record d)) d)) as Hdel
    by (eapply copies_ok_quiet; [apply (quiet_remove_get_record id)|done]).
  destruct (pending_get_record d !! id) as [[c rm]|] eqn:Hp; [|by split_and!; [| |left]].
  pose proof (add_vote_copied h id (default (self_peer_id d) peer) rec rm (Hd _ _ _ Hp) Hrec) as Hrm.
  destruct (add_vote _ rec rm) as [rm' peers]. cbn in Hrm.
  destruct (vote_result rec count peers) as [result|]; cbn.
  - set (d1 := add_output _ _).
    destruct (split_store env h id rm' d1 Henv Hrm) as [HS HR]. split_and!; [done| |done].
    eapply copies_ok_quiet; [apply quiet_split|]. done.
  - split_and!; [done| |by left]. intros id' c' rmx Hl. cbn in Hl.
    apply lookup_insert_Some in Hl as [(<- & [= <- <-])|[_ Hl]]; [done|by eapply Hdel].
Qed.

Lemma origins_kept fs0 puts d d' :
  kept d d' → origins fs0 puts (record_store d) → origins fs0 puts (record_store d').
Proof.
  intros (_ & Hf & Hs & Ht) [H1 H2 H3 H4]. split; rewrite ?Hf, ?Hs, ?Ht; try done.
  intros f Hn. unfold whole_file. rewrite Hf, Hs. by apply H4.
Qed.

Definition round_stores (h : History) (input : Input) (r : KRecord) : Prop :=
  (∃ cmd, input = InCmd cmd ∧ r ∈ stored_by_cmd cmd) ∨ split_copy h r.

(** What a round may write was in its command, or is a copy of a pending query. *)
Lemma round_origins h env input d d' fs0 puts :
  env_ok env → copies_ok h d → origins fs0 puts (record_store d) → run_round K_VALUE env input d = Some d' →
  let h' := h ++ [(env, input)] in
  self_peer_id d' = self_peer_id d ∧ copies_ok h' d' ∧
  ∃ l, origins fs0 (l ++ puts) (record_store d') ∧ ∀ r, r ∈ l → round_stores h' input r.
Proof.
  intros Henv Hc Ho Hr. cbn zeta. set (h' := h ++ [(env, input)]).
  assert (copies_ok h' d) as Hc' by by apply copies_ok_mono.
  assert (∀ d1, quiet d d1 → kept d d1 → self_peer_id d1 = self_peer_id d ∧ copies_ok h' d1 ∧
    ∃ l, origins fs0 (l ++ puts) (record_store d1) ∧ ∀ r, r ∈ l → round_stores h' input r) as Hquiet.
  { intros d1 Hq Hk. split_and!; [apply Hk|by eapply copies_ok_quiet|]. exists []. split; [by eapply origins_kept|].
    by intros r ?%elem_of_nil. }
  unfold run_round in Hr. destruct input as [cmd|ev].
  - assert (d' = (handle_cmd env cmd d).1) as -> by (by destruct (handle_cmd env cmd d) as [? []]; simplify_eq/=).
    destruct (decide (stored_by_cmd cmd = [])) as [Hs|Hs].
    + pose proof (kept_cmd env cmd Hs d) as Hk.
      destruct cmd; try (apply Hquiet; [by apply quiet_cmd|exact Hk]).
      split_and!; [done| |exists []; split; [exact Ho|by intros r ?%elem_of_nil]].
      intros id c rm Hl. change (<[fresh_query env := (sender, ∅)]> (pending_get_record d) !! id = Some (c, rm)) in Hl.
      apply lookup_insert_Some in Hl as [(_ & [= <- <-])|[_ Hl]]; [|by eapply Hc'].
      intros n rec ps Hn. by rewrite lookup_empty in Hn.
    + destruct cmd as [| | | | | | | | | | | | | | |rec|]; try by destruct Hs.
      destruct (put_local_record_store env rec d) as [-> ->].
      split_and!; [done|eapply copies_ok_quiet; [by apply quiet_cmd|done]|].
      exists [rec]. split; [by apply put_verified_origins|]. intros r ->%list_elem_of_singleton.
      left. eexists. split; [done|]. by left.
  - assert (d' = (handle_swarm_events K_VALUE env ev d).1) as ->
      by (by destruct (handle_swarm_events K_VALUE env ev d) as [? []]; simplify_eq/=).
    destruct ev as [|kev| | | | | | | | | | |]; try (apply Hquiet; [by apply quiet_swarm|by apply kept_swarm]).
    destruct kev as [| |id peer rec count| | | | | |]; try (apply Hquiet; [by apply quiet_swarm|by apply kept_swarm]).
    assert (copied h' id rec) as Hrec by (exists env, peer, count; apply elem_of_app; right; by left).
    destruct (accumulate_store env h' id peer rec count d Henv Hc' Hrec) as (HS & HC & HR).
    split_and!; [exact HS|exact HC|]. destruct HR as [HR|(r & Hr' & HR)]; cbn [handle_swarm_events handle_kad_event]; rewrite HR.
    + exists []. split; [done|by intros ? ?%elem_of_nil].
    + exists [r]. split; [by apply put_verified_origins|]. intros ? ->%list_elem_of_singleton. by right.
Qed.

End Rounds.

(** ** What every reachable node satisfies *)

Section Invariant.
Context `{BLS : BlsCrate, XN : XorNameCrate, KD : KadCrate, CR : CrdtsCrate, MK : MerkleCrate}.
Context `{TK : TokenCrate, DI : DbcIdCrate, SD : !SnDbcCrate, DC : !DbcCrate, RP : !RegisterParams}.
Context `{RH : RmpHeader, RC : Rmp (bytes * PaymentProof), RS : Rmp (list SignedSpend), RR : Rmp SignedRegister}.
Context (bld : Build) (genesis : Dbc) (K_VALUE : nat).
Context (join_order : list DbcId → list DbcId) (hash_order : gset SignedSpend → list SignedSpend).

Notation Trace := (list (Effects.Event NetAns)).
Notation History := (list (Env * Input)).
Notation run_task_prog := (run_task_prog bld genesis K_VALUE join_order hash_order).
Notation start_task := (start_task bld genesis K_VALUE join_order hash_order).
Notation sys_next := (sys_next bld genesis K_VALUE join_order hash_order).
Notation sys_reachable := (sys_reachable bld genesis K_VALUE join_order hash_order).
Notation sys_run := (sys_run bld genesis K_VALUE join_order hash_order).

Lemma sys_run_reachable n local files cs s s' :
  sys_reachable n local files s → Forall choice_ok cs → sys_run n cs s = Some s' → sys_reachable n local files s'.
Proof.
  intros Hs Hcs. revert s Hs. induction Hcs as [|c cs Hc Hcs IH]; intros s Hs; cbn; [by intros [= <-]|].
  destruct (sys_next n c s) as [s1|] eqn:H1; [|done]. apply IH. by eapply sys_step.
Qed.

(** *** Tasks *)

(** What a task has to know before it stores a record. *)
Definition valid_for (t : RunTask) : Trace → KRecord → Prop :=
  match t with
  | RT_Task t => validated_store bld genesis hash_order (checks_amount t)
  | RT_Inactivity _ => λ _ _, False
  end.

(** A task stored the record, having validated it. *)
Definition vouched (ts : list Running) (r : KRecord) : Prop :=
  ∃ t tr1 tr2, t ∈ ts ∧ rt_trace t = tr1 ++ existT (PutLocalRecord r) true :: tr2 ∧ valid_for (rt_task t) tr1 r.

Definition task_ok (t : Running) : Prop :=
  (∀ tr1 op a tr2, rt_trace t = tr1 ++ existT op a :: tr2 → stores (valid_for (rt_task t)) tr1 op) ∧
  always (stores (valid_for (rt_task t))) (λ _ _, True) (rt_trace t) (rt_prog t).

(** The tasks of [ts] went on, and others may have started. *)
Definition grown (ts ts' : list Running) : Prop :=
  ∀ t, t ∈ ts → ∃ t', t' ∈ ts' ∧ rt_task t' = rt_task t ∧ rt_trace t `prefix_of` rt_trace t'.

Lemma grown_refl ts : grown ts ts.
Proof. intros t Ht. by exists t. Qed.

Lemma grown_app ts new : grown ts (ts ++ new).
Proof. intros t Ht. exists t. split; [apply elem_of_app; by left|done]. Qed.

Lemma grown_insert ts (i : nat) t t' :
  ts !! i = Some t → rt_task t' = rt_task t → rt_trace t `prefix_of` rt_trace t' → grown ts (<[i := t']> ts).
Proof.
  intros Hi Ht Hp u [j Hj]%list_elem_of_lookup. destruct (decide (i = j)) as [<-|Hne].
  - assert (u = t) as -> by congruence. exists t'. split; [|done]. apply list_elem_of_lookup. exists i.
    apply list_lookup_insert_eq. by eapply lookup_lt_Some.
  - exists u. split; [|done]. apply list_elem_of_lookup. exists j. by rewrite list_lookup_insert_ne.
Qed.

Lemma elem_of_insert (ts : list Running) (i : nat) (t u : Running) : u ∈ <[i := t]> ts → u = t ∨ u ∈ ts.
Proof.
  intros [j Hj]%list_elem_of_lookup. apply list_lookup_insert_Some in Hj as [(_ & -> & _)|[_ Hj]]; [by left|].
  right. apply list_elem_of_lookup. by exists j.
Qed.

Lemma vouched_mono ts ts' r : grown ts ts' → vouched ts r → vouched ts' r.
Proof.
  intros Hg (t & tr1 & tr2 & Ht & Htr & Hv). destruct (Hg t Ht) as (t' & Ht' & Hk & [l Hl]).
  exists t', tr1, (tr2 ++ l). split_and!; [done| |by rewrite Hk]. by rewrite Hl, Htr, <- app_assoc.
Qed.

Lemma task_ok_answered op a k t : rt_prog t = Vis op k → task_ok t → task_ok (answered op a k t).
Proof.
  intros Hp [Htr Ha]. rewrite Hp in Ha. destruct Ha as [Hop Ha]. split; [|by apply Ha]. cbn.
  intros tr1 op' a' tr2 E. induction tr2 as [|e tr2 _] using rev_ind.
  - apply app_inj_tail in E as [<- E]. injection E as E _. by subst op'.
  - rewrite app_comm_cons, app_assoc in E. apply app_inj_tail in E as [E _]. by eapply Htr.
Qed.

Context (Hjoin : ∀ l, join_order l ≡ₚ l).

Lemma task_ok_start n t : task_ok (start_task n t).
Proof.
  split; [by intros [] ? ? ?|]. cbn [start_task rt_task rt_trace rt_prog]. destruct t as [t|addr]; cbn [run_task_prog].
  - by apply (safe_node_task bld genesis K_VALUE join_order hash_order Hjoin n t).
  - cbn [valid_for].
    assert (safe (λ _ _, False) (log_err (node_get_closest_peers (peer_id n) addr))) as Hs.
    { unfold log_err, node_get_closest_peers, get_closest_peers. safe_tac. }
    exact (Hs []).
Qed.

(** *** What tasks are told *)

(** A query for the key was started by a command, and a majority of distinct
    peers answered it with the content of the record. *)
Definition told (n : Node) (h : History) (key : RecordKey) (rec : KRecord) : Prop :=
  ∃ env c (voters : gset PeerId), (env, InCmd (SC_GetNetworkRecord key c)) ∈ h ∧
    close_group_majority ≤ size voters ∧
    ∀ p, p ∈ voters → voted h (peer_id n) (fresh_query env) p (from_content (r_value rec)).

Definition heard_record (e : Effects.Event NetAns) : option (RecordKey * KRecord) :=
  match e with
  | existT op a =>
      match op return NetAns op → option (RecordKey * KRecord) with
      | GetNetworkRecord key => λ a, match a with Answer (inr rec) => Some (key, rec) | _ => None end
      | _ => λ _, None
      end a
  end.

Definition heard_ok (n : Node) (h : History) (t : Running) : Prop :=
  ∀ e key rec, e ∈ rt_trace t → heard_record e = Some (key, rec) → told n h key rec.

Lemma heard_ok_mono n h h' t : heard_ok n h t → heard_ok n (h ++ h') t.
Proof.
  intros Ht e key rec He Hr. destruct (Ht e key rec He Hr) as (env & c & voters & Ha & Hs & Hv).
  exists env, c, voters. split_and!; [apply elem_of_app; by left|done|].
  intros p Hp. eapply voted_mono; [by apply prefix_app_r|by apply Hv].
Qed.

(** *** Channels *)

Definition sender_of (cmd : SwarmCmd) : option Chan :=
  match cmd with
  | SC_StartListening _ c | SC_Dial _ c | SC_GetClosestPeers _ c | SC_GetClosestLocalPeers _ c | SC_GetAllLocalPeers c
  | SC_GetOurCloseGroup c | SC_GetSwarmLocalState c | SC_RecordStoreHasKey _ c | SC_GetAllLocalRecordAddresses c
  | SC_GetNetworkRecord _ c | SC_GetLocalStoreCost c | SC_GetLocalRecord _ c | SC_PutRecord _ c => Some c
  | SC_SendRequest _ _ sender => sender
  | _ => None
  end.

Lemma cmd_of_op_sender t op c cmd c' : cmd_of_op t op c = Some cmd → sender_of cmd = Some c' → c' = c.
Proof. destruct op; cbn; intros [= <-]; cbn; by intros [= <-]. Qed.

Definition issued (s : NodeSystem) (cmd : SwarmCmd) : Prop :=
  cmd ∈ sys_commands s ∨ ∃ env, (env, InCmd cmd) ∈ sys_history s.

(** The only command with the channel of a waiting task is its own. *)
Definition wait_ok (s : NodeSystem) (t : Running) : Prop :=
  ∀ c, rt_wait t = Some c → c < sys_next_chan s ∧
    ∃ op k, rt_prog t = Vis op k ∧
      ∀ cmd, issued s cmd → sender_of cmd = Some c → cmd_of_op (rt_task t) op c = Some cmd.

(** *** The invariant *)

Record sys_inv (n : Node) (fs0 : gmap string bytes) (s : NodeSystem) : Prop := {
  si_reach : driver_reachable K_VALUE (sys_history s) (sys_driver s);
  si_self : self_peer_id (sys_driver s) = peer_id n;
  si_tasks : ∀ t, t ∈ sys_tasks s → task_ok t ∧ heard_ok n (sys_history s) t ∧ wait_ok s t;
  si_cmds : ∀ cmd r, cmd ∈ sys_commands s → r ∈ stored_by_cmd cmd → vouched (sys_tasks s) r;
  si_copies : copies_ok (sys_history s) (sys_driver s);
  si_store : ∃ puts, origins fs0 puts (record_store (sys_driver s)) ∧
    ∀ r, r ∈ puts → vouched (sys_tasks s) r ∨ split_copy (sys_history s) r;
  si_chans : ∀ cmd c, issued s cmd → sender_of cmd = Some c → c < sys_next_chan s;
}.

(** A step that leaves the driver alone. *)
Lemma inv_local n fs0 s s' :
  sys_inv n fs0 s → sys_driver s' = sys_driver s → sys_history s' = sys_history s →
  grown (sys_tasks s) (sys_tasks s') → sys_next_chan s ≤ sys_next_chan s' →
  (∀ cmd, cmd ∈ sys_commands s' → cmd ∈ sys_commands s ∨
     (∀ r, r ∈ stored_by_cmd cmd → vouched (sys_tasks s') r) ∧
     ∀ c, sender_of cmd = Some c → c = sys_next_chan s ∧ c < sys_next_chan s') →
  (∀ t, t ∈ sys_tasks s' → t ∈ sys_tasks s ∨ (task_ok t ∧ heard_ok n (sys_history s) t ∧ wait_ok s' t)) →
  sys_inv n fs0 s'.
Proof.
  intros [HR HS HT HC HP HW HX] Ed Eh Hg Hn Hcmd Htask.
  assert (∀ cmd, issued s' cmd → issued s cmd ∨ ∀ c, sender_of cmd = Some c → c = sys_next_chan s ∧ c < sys_next_chan s')
    as Hiss.
  { intros cmd [H|H]; [|left; right; by rewrite <- Eh]. destruct (Hcmd cmd H) as [?|[_ ?]]; [left; by left|by right]. }
  split; rewrite ?Ed, ?Eh; try done.
  - intros t [Ht|?]%Htask; [|done]. destruct (HT t Ht) as (H1 & H2 & H3). split_and!; [done..|].
    intros c Hc. destruct (H3 c Hc) as (Hlt & op & k & Hp & Hu). split; [lia|]. exists op, k. split; [done|].
    intros cmd [Hi|Hi]%Hiss Hs; [by apply Hu|]. apply Hi in Hs. lia.
  - intros cmd r Hin Hr. destruct (Hcmd cmd Hin) as [H|[H _]]; [|by apply H]. eapply vouched_mono; [done|by eapply HC].
  - destruct HW as (puts & Ho & Hputs). exists puts. split; [done|]. intros r [H|H]%Hputs; [left|by right].
    by eapply vouched_mono.
  - intros cmd c [Hi|Hi]%Hiss Hs; [apply HX in Hs; [lia|done]|by apply Hi in Hs as [_ ?]].
Qed.

Lemma inv_start n local fs0 : sys_inv n fs0 (node_run n local fs0).
Proof.
  split.
  - apply (reachable_new K_VALUE (peer_id n) local false fs0).
  - reflexivity.
  - by intros t ?%elem_of_nil.
  - by intros cmd r ?%elem_of_nil.
  - intros id c rm H. cbn [node_run sys_driver driver_with pending_get_record] in H. by rewrite lookup_empty in H.
  - exists []. split; [|by intros r ?%elem_of_nil]. apply origins_start.
  - by intros cmd c [?%elem_of_nil|[env ?%elem_of_nil]].
Qed.

(** An operation of a task was answered. *)
Lemma inv_answered n fs0 s i t op k a :
  sys_inv n fs0 s → sys_tasks s !! i = Some t → rt_prog t = Vis op k →
  (∀ key rec, heard_record (existT op a) = Some (key, rec) → told n (sys_history s) key rec) →
  sys_inv n fs0 (set_task i (answered op a k t) s).
Proof.
  intros Hinv Hi Hp Hheard. destruct (si_tasks _ _ _ Hinv t) as (Hok & Hh & _); [by eapply list_elem_of_lookup_2|].
  eapply inv_local; [exact Hinv|done|done| |done|by left|].
  - eapply grown_insert; [done|done|by apply prefix_app_r].
  - intros u [->|?]%elem_of_insert; [right|by left]. split_and!; [by apply task_ok_answered| |done].
    intros e key rec [He|He%list_elem_of_singleton]%elem_of_app Hr; [by eapply Hh|]. subst e. by apply Hheard.
Qed.

Lemma inv_add_tasks n fs0 s ts :
  sys_inv n fs0 s → sys_inv n fs0 (add_tasks bld genesis K_VALUE join_order hash_order n ts s).
Proof.
  intros Hinv. eapply inv_local; [exact Hinv|done|done|apply grown_app|done|by left|].
  intros t [?|Ht]%elem_of_app; [by left|right]. apply list_elem_of_fmap in Ht as (u & -> & _).
  split_and!; [apply task_ok_start|by intros e key rec ?%elem_of_nil|done].
Qed.

(** The loop: tasks start, events are taken and sent. *)
Lemma inv_selected n fs0 s sel rest :
  sys_inv n fs0 s → sys_inv n fs0 (loop_selected bld genesis K_VALUE join_order hash_order n sel rest s).
Proof.
  intros Hinv. unfold loop_selected. destruct (event_loop_round sel) as [[ts bs] go].
  pose proof (inv_add_tasks n fs0 s ts Hinv) as H. by eapply inv_local; [exact H|..]; eauto using grown_refl.
Qed.

(** A command enters the channel: that of a task that now waits, or goes on. *)
Lemma inv_sent n fs0 s i t op k cmd :
  sys_inv n fs0 s → sys_tasks s !! i = Some t → rt_prog t = Vis op k → cmd_of_op (rt_task t) op (sys_next_chan s) = Some cmd →
  let t' := match accepted op with Some a => answered op a k t | None => waiting (sys_next_chan s) t end in
  sys_inv n fs0 (send_command cmd (set_task i t' s)).
Proof.
  intros Hinv Hi Hp Hcmd. cbn zeta. assert (t ∈ sys_tasks s) as Hin by by eapply list_elem_of_lookup_2.
  destruct (si_tasks _ _ _ Hinv t Hin) as (Hok & Hh & _).
  assert (∀ c, sender_of cmd = Some c → c = sys_next_chan s ∧ c < S (sys_next_chan s)) as Hsend
    by (intros c Hc; rewrite (cmd_of_op_sender _ _ _ _ _ Hcmd Hc); lia).
  destruct (accepted op) as [a|] eqn:Hacc.
  - assert (sys_inv n fs0 (set_task i (answered op a k t) s)) as H1.
    { apply inv_answered; try done. destruct op; try discriminate Hacc; cbn in *; by intros ? ?. }
    eapply inv_local; [exact H1|done|done|apply grown_refl|cbn; lia| |by left].
    intros cmd' [?|Hc%list_elem_of_singleton]%elem_of_app; [by left|right]. subst cmd'. split; [|done].
    intros r Hr. destruct op; try discriminate Hacc; cbn in Hcmd, Hacc; simplify_eq; cbn in Hr; try by apply elem_of_nil in Hr.
    apply list_elem_of_singleton in Hr as ->. destruct Hok as [_ Ha]. rewrite Hp in Ha. destruct Ha as [Ha _].
    exists (answered (PutLocalRecord record) true k t), (rt_trace t), []. split_and!; [|done|exact Ha].
    apply list_elem_of_lookup. exists i. apply list_lookup_insert_eq. by eapply lookup_lt_Some.
  - eapply inv_local; [exact Hinv|done|done| |cbn; lia| |].
    + by eapply grown_insert.
    + intros cmd' [?|Hc%list_elem_of_singleton]%elem_of_app; [by left|right]. subst cmd'. split; [|done].
      intros r Hr. by destruct op; try discriminate Hacc; cbn in Hcmd; simplify_eq; apply elem_of_nil in Hr.
    + intros u [->|?]%elem_of_insert; [right|by left]. split_and!; [done..|]. intros c [= <-].
      split; [cbn; lia|]. exists op, k. split; [done|].
      intros cmd' [[Hq|Hq%list_elem_of_singleton]%elem_of_app|Hq] Hs.
      * assert (sys_next_chan s < sys_next_chan s); [|lia]. apply (si_chans _ _ _ Hinv cmd'); [by left|done].
      * by subst cmd'.
      * assert (sys_next_chan s < sys_next_chan s); [|lia]. apply (si_chans _ _ _ Hinv cmd'); [by right|done].
Qed.

(** A round of the driver, on a command of the channel or on an event. *)
Lemma inv_round_moved n fs0 s env input d' cmds :
  sys_inv n fs0 s → env_ok env → run_round K_VALUE env input (sys_driver s) = Some d' →
  (∀ cmd, cmd ∈ cmds → cmd ∈ sys_commands s) → (∀ cmd, input = InCmd cmd → cmd ∈ sys_commands s) →
  sys_inv n fs0 (driver_moved env input d' cmds s).
Proof.
  intros [HR HS HT HC HP HW HX] Henv Hrun Hcmds Hin. destruct HW as (puts & Ho & Hputs).
  destruct (round_origins K_VALUE _ env input _ d' fs0 puts Henv HP Ho Hrun) as (Hself & Hcop & l & Hl & Hstores).
  assert (∀ cmd, issued (driver_moved env input d' cmds s) cmd → issued s cmd) as Hiss.
  { intros cmd [H|[e [H|H%list_elem_of_singleton]%elem_of_app]]; [left; by apply Hcmds|right; by exists e|].
    left. injection H as _ H. by apply Hin. }
  split; cbn; try done.
  - by eapply reachable_round.
  - by rewrite Hself.
  - intros t Ht. destruct (HT t Ht) as (H1 & H2 & H3). split_and!; [done|by apply heard_ok_mono|].
    intros c Hc. destruct (H3 c Hc) as (Hlt & op & k & Hp & Hu). split; [done|]. exists op, k. split; [done|].
    intros cmd H. by apply Hu, Hiss.
  - intros cmd r H. by apply HC, Hcmds.
  - exists (l ++ puts). split; [done|]. intros r [Hr|Hr]%elem_of_app.
    + destruct (Hstores r Hr) as [(cmd & -> & Hs)|?]; [left|by right]. eapply HC; [by apply Hin|done].
    + destruct (Hputs r Hr); [by left|right]. by apply split_copy_mono.
  - intros cmd c H. by apply HX, Hiss.
Qed.

Lemma inv_driver_round n fs0 s s' env input cmds :
  sys_inv n fs0 s → env_ok env → driver_round K_VALUE env input cmds s = Some s' →
  (∀ cmd, cmd ∈ cmds → cmd ∈ sys_commands s) → (∀ cmd, input = InCmd cmd → cmd ∈ sys_commands s) →
  sys_inv n fs0 s'.
Proof.
  intros Hinv Henv Hr Hcmds Hin. unfold driver_round in Hr. destruct (sys_alive s); [|done].
  destruct (run_round _ _ _ _) as [d'|] eqn:Hrun; injection Hr as <-; [by eapply inv_round_moved|].
  eapply inv_local; [exact Hinv|done|done|apply grown_refl|done|by intros cmd ?%elem_of_nil|by left].
Qed.

(** The record store moves by itself. *)
Lemma inv_store_moved n fs0 s w :
  sys_inv n fs0 s → world_step [] (record_store (sys_driver s)) w → sys_inv n fs0 (store_moved w s).
Proof.
  intros [HR HS HT HC HP HW HX] Hw. split; cbn; try done.
  - by eapply reachable_store.
  - destruct HW as (puts & Ho & Hputs). exists puts. split; [by apply (world_step_origins _ _ [] _ _ Hw)|done].
Qed.

Lemma at_op_Some {A} i s (f : Running → ∀ op : NetOp, (NetAns op → NetProg NodeError unit) → option A) x :
  at_op i s f = Some x → ∃ t op k, sys_tasks s !! i = Some t ∧ rt_prog t = Vis op k ∧ f t op k = Some x.
Proof.
  unfold at_op. intros (t & Ht & H)%bind_Some. destruct (rt_prog t) as [|op k] eqn:Hp; [done|]. by exists t, op, k.
Qed.

(** The answer that a waiting task reads. *)
Lemma reply_told n fs0 s t op k c p order a key rec :
  sys_inv n fs0 s → t ∈ sys_tasks s → rt_prog t = Vis op k → rt_wait t = Some c → Sent c p ∈ outputs (sys_driver s) →
  reply_of order op p = Some a → heard_record (existT op a) = Some (key, rec) → told n (sys_history s) key rec.
Proof.
  intros Hinv Ht Hp Hc Hout Ha Hr. destruct op; try discriminate Hr. cbn in Ha. destruct p; try discriminate Ha.
  injection Ha as <-. cbn in Hr. destruct r as [|r]; [done|]. injection Hr as -> ->.
  destruct (inv_found _ _ (reachable_inv _ _ _ (si_reach _ _ _ Hinv)) _ _ Hout)
    as (id & voters & (env & key' & Hask & Hq) & Hsize & Hv & _).
  destruct (si_tasks _ _ _ Hinv t Ht) as (_ & _ & Hw). destruct (Hw c Hc) as (_ & op & k' & Hp' & Hu).
  rewrite Hp in Hp'. injection Hp' as <- _.
  assert (SC_GetNetworkRecord key c = SC_GetNetworkRecord key' c) as [= <-].
  { assert (Some (SC_GetNetworkRecord key c) = Some (SC_GetNetworkRecord key' c)) as [= ->]; [|done].
    apply Hu; [right; by exists env|done]. }
  exists env, c, voters. split_and!; [done|done|]. rewrite Hq, <- (si_self _ _ _ Hinv). exact Hv.
Qed.

Lemma inv_next n fs0 c s s' : sys_inv n fs0 s → choice_ok c → sys_next n c s = Some s' → sys_inv n fs0 s'.
Proof.
  intros Hinv Hok. destruct c as [j| |p|i|i|i|i j order|i|j env|env ev|j outcome|r|key]; cbn [NodeSystem.sys_next choice_ok] in *.
  - destruct (sys_looping s); [|done]. intros (ev & _ & [= <-])%bind_Some. by apply inv_selected.
  - destruct (_ && _); [|done]. intros [= <-]. by apply inv_selected.
  - destruct (sys_looping s); [|done]. intros [= <-]. by apply inv_selected.
  - intros (t & op & k & Hi & Hp & H)%at_op_Some. destruct (rt_wait t); [done|].
    destruct (cmd_of_op _ _ _) as [cmd|] eqn:Hcmd; [|done]. injection H as <-. by apply inv_sent.
  - intros (t & op & k & Hi & Hp & H)%at_op_Some. destruct (rt_wait t); [done|].
    destruct (refused op) as [a|] eqn:Ha; [|done]. injection H as <-. apply inv_answered; try done.
    by destruct op; cbn in *; simplify_eq.
  - intros (t & op & k & Hi & Hp & H)%at_op_Some. destruct (rt_wait t); [done|].
    destruct (performed op) as [a|] eqn:Ha; [|done]. injection H as <-.
    assert (sys_inv n fs0 (set_task i (answered op a k t) s)) as H1
      by (apply inv_answered; try done; by destruct op; cbn in *; simplify_eq).
    apply (inv_add_tasks _ _ _ (spawned_by op)) in H1.
    eapply inv_local; [exact H1|done|done|apply grown_refl|done|by left|by left].
  - intros (t & op & k & Hi & Hp & H)%at_op_Some. destruct (rt_wait t) as [c|] eqn:Hc; [|done].
    destruct (outputs (sys_driver s) !! j) as [o|] eqn:Ho; [|done]. destruct o as [c' p| | | | | | | | | | | | |]; try done.
    destruct (decide (c = c')) as [<-|]; [|done]. apply bind_Some in H as (a & Ha & [= <-]).
    apply inv_answered; try done. intros key rec Hr. eapply reply_told; [exact Hinv| | | | | |exact Hr]; try done.
    + by eapply list_elem_of_lookup_2.
    + by eapply list_elem_of_lookup_2.
  - intros (t & op & k & Hi & Hp & H)%at_op_Some. destruct (rt_wait t) as [c|]; [|done].
    destruct (dropped op) as [a|] eqn:Ha; [|done]. injection H as <-. apply inv_answered; try done.
    by destruct op; cbn in *; simplify_eq.
  - intros (cmd & Hj & H)%bind_Some. eapply inv_driver_round; [done|done|exact H| |].
    + intros cmd' Hin. by eapply elem_of_sublist; [|apply sublist_delete].
    + intros ? [= <-]. by eapply list_elem_of_lookup_2.
  - intros H. by eapply inv_driver_round; [done|done|exact H|..].
  - intros (w & Hj & [= <-])%bind_Some. apply inv_store_moved; [done|by eapply step_file_task].
  - destruct (sys_alive s); [|done]. intros [= <-]. apply inv_store_moved; [done|constructor].
  - destruct (sys_alive s); [|done]. intros [= <-]. apply inv_store_moved; [done|constructor].
Qed.

Lemma reachable_sys_inv n local fs0 s : sys_reachable n local fs0 s → sys_inv n fs0 s.
Proof. induction 1 as [|s c s' _ IH Hc Hs]; [apply inv_start|by eapply inv_next]. Qed.

(** *** The events that were sent are handled *)

(** What the driver and the record store sent to the upper layer. *)
Definition sent_events (d : SwarmDriver) : list NetworkEvent :=
  omap (λ o, match o with SwarmDriver.Event ev => Some ev | _ => None end) (outputs d) ++
  (UnverifiedRecord <$> events (record_store d)).

Definition event_request (ev : NetworkEvent) : option (Request * MsgResponder) :=
  match ev with RequestReceived req channel => Some (req, channel) | _ => None end.

Lemma sent_requests d : omap event_request (sent_events d) = requests d.
Proof.
  unfold sent_events, requests. rewrite omap_app.
  assert (omap event_request (UnverifiedRecord <$> events (record_store d)) = []) as ->.
  { induction (events (record_store d)) as [|r l IH]; [done|exact IH]. }
  rewrite app_nil_r. induction (outputs d) as [|o l IH]; [done|].
  destruct o as [|[]| | | | | | | | | | | |]; first [exact IH|exact (f_equal (cons _) IH)].
Qed.

(** The events for which there is a task. *)
Definition handled_events (ts : list Running) : list NetworkEvent :=
  omap (λ t, match t with RT_Task (HandleEvent ev) => Some ev | _ => None end) (rt_task <$> ts).

Definition events_kept (s : NodeSystem) : Prop :=
  sent_events (sys_driver s) ≡ₚ handled_events (sys_tasks s) ++ sys_events s.

Lemma handled_insert ts (i : nat) t t' :
  ts !! i = Some t → rt_task t' = rt_task t → handled_events (<[i := t']> ts) = handled_events ts.
Proof.
  intros Hi Ht. unfold handled_events. by rewrite list_fmap_insert, Ht, list_insert_id by (by rewrite list_lookup_fmap, Hi).
Qed.

Lemma handled_add n ts new :
  handled_events (ts ++ (start_task n <$> new)) = handled_events ts ++
    omap (λ t, match t with RT_Task (HandleEvent ev) => Some ev | _ => None end) new.
Proof. unfold handled_events. rewrite fmap_app, omap_app. f_equal. by rewrite <- list_fmap_compose, list_fmap_id. Qed.

Lemma file_task_events o j w w' : file_task o j w = Some w' → events w `prefix_of` events w'.
Proof.
  unfold file_task. intros (t & _ & H)%bind_Some.
  destruct o, t; simplify_eq; try done; cbn; unfold opened; try by destruct (existsb _ _). by apply prefix_app_r.
Qed.

Lemma world_step_events l w w' : world_step l w w' → events w `prefix_of` events w'.
Proof.
  intros []; cbn; try done.
  - by rewrite put_verified_events.
  - unfold store_put. repeat case_match; done.
  - eapply file_task_events. eassumption.
Qed.

Lemma kept_set_task s (i : nat) t t' :
  events_kept s → sys_tasks s !! i = Some t → rt_task t' = rt_task t → events_kept (set_task i t' s).
Proof.
  intros Hs Hi Ht. unfold events_kept. cbn [set_task sys_driver sys_tasks sys_events].
  by rewrite (handled_insert _ _ _ _ Hi Ht).
Qed.

Lemma kept_driver_moved env input d' cmds s :
  events_kept s → run_round K_VALUE env input (sys_driver s) = Some d' → events_kept (driver_moved env input d' cmds s).
Proof.
  unfold events_kept, sent_events. intros Hs [[l Hl] He]%only_sends_round. cbn. rewrite He, Hl, drop_app_length, omap_app.
  rewrite (assoc (++)), <- Hs. solve_Permutation.
Qed.

Lemma kept_store_moved w s :
  events_kept s → world_step [] (record_store (sys_driver s)) w → events_kept (store_moved w s).
Proof.
  unfold events_kept, sent_events. intros Hs [l Hl]%world_step_events. cbn. rewrite Hl, drop_app_length, fmap_app.
  by rewrite !(assoc (++)), <- Hs.
Qed.

Lemma kept_driver_round env input cmds s s' :
  events_kept s → driver_round K_VALUE env input cmds s = Some s' → events_kept s'.
Proof.
  unfold driver_round. destruct (sys_alive s); [|done].
  destruct (run_round _ _ _ _) as [d'|] eqn:Hr; intros Hs [= <-]; [by apply kept_driver_moved|done].
Qed.

Lemma kept_next n c s s' : events_kept s → sys_next n c s = Some s' → events_kept s'.
Proof.
  intros Hs. destruct c as [j| |p|i|i|i|i j order|i|j env|env ev|j outcome|r|key]; cbn [NodeSystem.sys_next] in *.
  - destruct (sys_looping s); [|done]. intros (ev & Hj & [= <-])%bind_Some. unfold events_kept in *.
    cbn [loop_selected event_loop_round sys_driver sys_tasks sys_events].
    rewrite (handled_add n _ [RT_Task (HandleEvent ev)]), <- (assoc (++)). cbn [omap list_omap app].
    rewrite Hs. cbn. apply Permutation_app_head. by apply delete_Permutation.
  - destruct (sys_looping s); [|done]. destruct (negb _); [|done]. cbn [andb].
    case_bool_decide as He; [|done]. destruct (forallb _ _); [|done]. intros [= <-]. unfold events_kept in *.
    rewrite He in Hs.
    cbn [loop_selected event_loop_round sys_driver sys_tasks sys_events]. by rewrite (handled_add n _ []), app_nil_r.
  - destruct (sys_looping s); [|done]. intros [= <-]. unfold events_kept in *.
    cbn [loop_selected event_loop_round sys_driver sys_tasks sys_events].
    rewrite (handled_add n _ [RT_Inactivity (from_peer p)]). cbn [omap list_omap]. by rewrite app_nil_r.
  - intros (t & op & k & Hi & Hp & H)%at_op_Some. destruct (rt_wait t); [done|].
    destruct (cmd_of_op _ _ _); [|done]. injection H as <-.
    pose proof (kept_set_task s i t) as Ht. by destruct (accepted op); apply Ht.
  - intros (t & op & k & Hi & Hp & H)%at_op_Some. destruct (rt_wait t); [done|].
    destruct (refused op); [|done]. injection H as <-. by eapply kept_set_task.
  - intros (t & op & k & Hi & Hp & H)%at_op_Some. destruct (rt_wait t); [done|].
    destruct (performed op) as [a|]; [|done]. injection H as <-. unfold events_kept in *.
    cbn [add_broadcasts add_tasks set_task sys_driver sys_tasks sys_events]. rewrite handled_add.
    rewrite (handled_insert _ _ _ _ Hi) by done. rewrite Hs. by destruct op; cbn; rewrite ?app_nil_r.
  - intros (t & op & k & Hi & Hp & H)%at_op_Some. destruct (rt_wait t); [|done].
    destruct (_ !! j) as [[]|]; try done. destruct (decide _); [|done]. apply bind_Some in H as (a & _ & [= <-]).
    by eapply kept_set_task.
  - intros (t & op & k & Hi & Hp & H)%at_op_Some. destruct (rt_wait t); [|done].
    destruct (dropped op); [|done]. injection H as <-. by eapply kept_set_task.
  - intros (cmd & _ & H)%bind_Some. by eapply kept_driver_round.
  - intros H. by eapply kept_driver_round.
  - intros (w & Hj & [= <-])%bind_Some. apply kept_store_moved; [done|by eapply step_file_task].
  - destruct (sys_alive s); [|done]. intros [= <-]. apply kept_store_moved; [done|constructor].
  - destruct (sys_alive s); [|done]. intros [= <-]. apply kept_store_moved; [done|constructor].
Qed.

(** The requests that were given and sent, in order. *)
Definition requests_kept (n : Node) (s : NodeSystem) : Prop :=
  self_peer_id (sys_driver s) = peer_id n ∧ requests (sys_driver s) = omap (received_request (peer_id n)) (sys_history s).

Lemma requests_driver_round n env input cmds s s' :
  requests_kept n s → driver_round K_VALUE env input cmds s = Some s' → requests_kept n s'.
Proof.
  unfold driver_round. destruct (sys_alive s); [|done].
  destruct (run_round _ _ _ _) as [d'|] eqn:Hr; intros [Hs Hq] [= <-]; [|by split].
  apply requests_round in Hr as [HS HQ]. rewrite Hs in *. split; cbn; [done|]. rewrite HQ, Hq, omap_app. f_equal.
Qed.

Lemma requests_next n c s s' : requests_kept n s → sys_next n c s = Some s' → requests_kept n s'.
Proof.
  intros Hk. assert (∀ s1, sys_driver s1 = sys_driver s → sys_history s1 = sys_history s → requests_kept n s1) as Hsame
    by (intros s1 Hd Hh; unfold requests_kept; by rewrite Hd, Hh).
  destruct c as [j| |p|i|i|i|i j order|i|j env|env ev|j outcome|r|key]; cbn [NodeSystem.sys_next] in *; intros H.
  1-3: unfold loop_selected in H; repeat (case_match || apply bind_Some in H as (? & ? & H)); simplify_eq; by apply Hsame.
  1-5: apply at_op_Some in H as (t & op & k & _ & _ & H); repeat (case_match || apply bind_Some in H as (? & ? & H)); simplify_eq; by apply Hsame.
  - apply bind_Some in H as (cmd & _ & H). by eapply requests_driver_round.
  - by eapply requests_driver_round.
  - by apply bind_Some in H as (w & _ & [= <-]).
  - by case_match; simplify_eq.
  - by case_match; simplify_eq.
Qed.

Lemma reachable_requests n local fs0 s : sys_reachable n local fs0 s → requests_kept n s.
Proof. induction 1 as [|s c s' _ IH _ Hs]; [done|by eapply requests_next]. Qed.

Lemma reachable_events_kept n local fs0 s : sys_reachable n local fs0 s → events_kept s.
Proof.
  induction 1 as [|s c s' _ IH _ Hs]; [|by eapply kept_next].
  unfold events_kept, sent_events. cbn [node_run driver_with sys_driver outputs record_store events]. reflexivity.
Qed.

End Invariant.

(** ** Properties *)

Section Properties.
Context `{BLS : BlsCrate, XN : XorNameCrate, KD : KadCrate, CR : CrdtsCrate, MK : MerkleCrate}.
Context `{TK : TokenCrate, DI : DbcIdCrate, SD : !SnDbcCrate, DC : !DbcCrate, RP : !RegisterParams}.
Context `{RH : RmpHeader, RC : Rmp (bytes * PaymentProof), RS : Rmp (list SignedSpend), RR : Rmp SignedRegister}.
Context (bld : Build) (genesis : Dbc) (K_VALUE : nat).
Context (join_order : list DbcId → list DbcId) (hash_order : gset SignedSpend → list SignedSpend).

(** C1: whatever the scheduler, the network, the peers and the file system do
    to a node, a record it can serve is accounted for.  A value is accounted for
    under a key if it was in the directory when the node started, or one of the
    node's tasks stored it after the checks that its kind demands, with the
    answers that this task got, or peers sent it, and a different content, for
    one query (the winner of such a split vote is stored unchecked).  What is
    served is such a value; or the beginning of one that is just being written;
    or, if a write of its file failed half-way or met another one, its bytes are
    those of such values, each at its place, and zeros. *)
Theorem served_records_accounted (Hjoin : ∀ l, join_order l ≡ₚ l) n local files0 s key rec :
  sys_reachable bld genesis K_VALUE join_order hash_order n local files0 s →
  store_get key (record_store (sys_driver s)) = Some rec →
  let w := record_store (sys_driver s) in
  let accounted v :=
    let r := {| r_key := key; r_value := v |} in
    files0 !! key_to_hex key = Some v ∨ vouched bld genesis hash_order (sys_tasks s) r ∨ split_copy (sys_history s) r in
  r_key rec = key ∧
  (accounted (r_value rec) ∨
   (∃ v o, Writing (key_to_hex key) v o ∈ spawned w ∧ accounted v ∧ r_value rec = take o v) ∨
   (key_to_hex key ∈ torn w ∧
    ∀ i b, r_value rec !! i = Some b → b = Byte.x00 ∨ ∃ v, accounted v ∧ v !! i = Some b)).
Proof.
  intros Hs Hget. cbn zeta. unfold store_get in Hget. destruct (contains _ key); [|done].
  apply bind_Some in Hget as (c & Hc & [= <-]). cbn. split; [done|].
  apply reachable_sys_inv in Hs as [_ _ _ _ _ (puts & Ho & Hputs) _]; [|done].
  assert (∀ v, file_origin files0 puts (key_to_hex key) v →
    files0 !! key_to_hex key = Some v ∨ vouched bld genesis hash_order (sys_tasks s) {| r_key := key; r_value := v |} ∨
    split_copy (sys_history s) {| r_key := key; r_value := v |}) as Ha.
  { intros v [Hv|([k' v'] & Hin & Hk & <-)]; [by left|right]. cbn in Hk. apply (inj key_to_hex) in Hk as ->. by apply Hputs. }
  destruct (file_contents _ _ _ _ _ Ho Hc) as [Hv|[(v & o & Hin & Hv & ->)|[Ht Hb]]].
  - left. by apply Ha.
  - right. left. exists v, o. auto.
  - right. right. split; [done|]. intros i b Hi. destruct (Hb i b Hi) as [?|(v & Hv & ?)]; [by left|right]. exists v. auto.
Qed.

(** C18: when a task of a node is told that the network holds a record under a
    key, the driver had started a query for this very key, and at least five
    distinct peers, the node among them at most once, answered that query with
    the content of the record. *)
Theorem told_records_have_majority (Hjoin : ∀ l, join_order l ≡ₚ l) n local files0 s t key rec :
  sys_reachable bld genesis K_VALUE join_order hash_order n local files0 s →
  t ∈ sys_tasks s → existT (GetNetworkRecord key) (Answer (inr rec)) ∈ rt_trace t →
  5 ≤ close_group_majority ∧ told n (sys_history s) key rec.
Proof.
  intros Hs Ht He. split; [by vm_compute; lia|]. apply reachable_sys_inv in Hs as [_ _ Htasks _ _ _ _]; [|done].
  destruct (Htasks t Ht) as (_ & Hh & _). by eapply Hh; [exact He|].
Qed.

(** C21: each request is handled once.  At any time the requests for which the
    loop has started a task, and those whose event still waits, are exactly the
    requests that the driver was given, by peers and by the node itself, when the
    channel of events had room (a request that finds it full is dropped); and of
    all events that the driver and the record store sent, each has one task or
    still waits. *)
Theorem events_handled_once n local files0 s :
  sys_reachable bld genesis K_VALUE join_order hash_order n local files0 s →
  omap event_request (handled_events (sys_tasks s) ++ sys_events s) ≡ₚ omap (received_request (peer_id n)) (sys_history s) ∧
  sent_events (sys_driver s) ≡ₚ handled_events (sys_tasks s) ++ sys_events s.
Proof.
  intros Hs. assert (events_kept s) as He by by eapply reachable_events_kept. split; [|exact He].
  apply reachable_requests in Hs as [_ <-]. unfold events_kept in He. rewrite <- He. by rewrite sent_requests.
Qed.

End Properties.

(** ** The properties at concrete values *)

Definition toy_sys_env : Env := {|
  env_build := Release; alive := λ _, true; has_capacity := λ _, true; kbuckets := [];
  fresh_query := 0; fresh_request := 0; put_started := inr tt; listening := inr tt; dialing := inr tt;
  response_sent := true; closest_local_peers := []; removed_peer := None; connected_peers := []; listeners := [];
  has_autonat := false; result_order := map_to_list; store_order := []; fetch_order := [];
  fetch_clock := λ _ _, 0%Z; fetch_now := 0%Z; cost_factor := 2 ^ 63 |}.

Definition toy_copy (rec : KRecord) (count : nat) (p : Byte.byte) : Choice :=
  RunSwarmEvent toy_sys_env (SE_Kademlia (FoundRecord 0 (Some (p : PeerId)) rec count)).
Definition toy_ask : list Choice := [SendCommand 0; RunCommand 0 toy_sys_env].

(** A peer puts a chunk: until the query for the spend that paid for it. *)
Definition toy_asked : list Choice :=
  [KadPut toy_chunk_rec; FileTask 0 FileDone; TakeEvent 0] ++ toy_ask ++ [GetReply 0 0 []] ++ toy_ask.

(** Five peers send the spend; the chunk is paid for, and stored. *)
Definition toy_upload : list Choice :=
  toy_asked ++ (toy_copy toy_spend_rec 1 <$> [Byte.x02; Byte.x03; Byte.x04; Byte.x05; Byte.x06]) ++ [GetReply 0 2 []] ++
  toy_ask ++ [GetReply 0 3 []] ++ toy_ask ++ [FileTask 0 FileDone; Perform 0].

(** Two peers send different records instead. *)
Definition toy_split_vote : list Choice :=
  toy_asked ++ [toy_copy (toy_rec Byte.x0a Byte.xaa) 1 Byte.x02; toy_copy (toy_rec Byte.x0a Byte.xbb) 8 Byte.x03;
                FileTask 0 FileDone].

Notation toy_reachable := (sys_reachable Release toy_genesis 20 id elements toy_node false ∅).

Definition toy_sys (cs : list Choice) : NodeSystem :=
  default (node_run toy_node false ∅) (sys_run Release toy_genesis 20 id elements toy_node cs (node_run toy_node false ∅)).

Definition choice_env (c : Choice) : option Env :=
  match c with RunCommand _ env | RunSwarmEvent env _ => Some env | _ => None end.

Lemma toy_choices_ok cs : Forall (λ env, env = toy_sys_env) (omap choice_env cs) → Forall choice_ok cs.
Proof.
  induction cs as [|c cs IH]; [constructor|]. intros H. constructor.
  - destruct c; try done; cbn in H; apply Forall_cons in H as [-> _]; by intros ?.
  - apply IH. destruct c; cbn in H; try done; by apply Forall_cons in H as [_ ?].
Qed.

Lemma toy_sys_reachable cs :
  Forall (λ env, env = toy_sys_env) (omap choice_env cs) →
  is_Some (sys_run Release toy_genesis 20 id elements toy_node cs (node_run toy_node false ∅)) → toy_reachable (toy_sys cs).
Proof.
  intros Hok [s Hs]. unfold toy_sys. rewrite Hs. eapply sys_run_reachable; [apply sys_start|by apply toy_choices_ok|exact Hs].
Qed.

Lemma toy_uploaded : toy_reachable (toy_sys toy_upload).
Proof. apply toy_sys_reachable; [by repeat constructor|by_compute]. Qed.

Lemma served_records_accounted_witness :
  store_get (r_key toy_chunk_rec) (record_store (sys_driver (toy_sys toy_upload))) = Some toy_chunk_rec ∧
  (vouched Release toy_genesis elements (sys_tasks (toy_sys toy_upload)) toy_chunk_rec ∨
   split_copy (sys_history (toy_sys toy_upload)) toy_chunk_rec).
Proof.
  assert (store_get (r_key toy_chunk_rec) (record_store (sys_driver (toy_sys toy_upload))) = Some toy_chunk_rec) as Hget
    by by_compute.
  split; [exact Hget|].
  assert (spawned (record_store (sys_driver (toy_sys toy_upload))) = []) as Hsp by by_compute.
  assert (torn (record_store (sys_driver (toy_sys toy_upload))) = ∅) as Htorn by by_compute.
  destruct (served_records_accounted Release toy_genesis 20 id elements (λ l, Permutation_refl l) toy_node false ∅
              (toy_sys toy_upload) _ _ toy_uploaded Hget) as [_ [[H|H]|[(v & o & H & _)|[H _]]]].
  - exfalso. by rewrite lookup_empty in H.
  - exact H.
  - exfalso. rewrite Hsp in H. by apply elem_of_nil in H.
  - exfalso. rewrite Htorn in H. exact (not_elem_of_empty _ H).
Defined.

(** The same upload, with the file of the chunk written in pieces. *)
Definition toy_interrupted : list Choice :=
  take (length toy_upload - 2) toy_upload ++ [FileTask 0 FileOpens; FileTask 0 (FileWrites 2); FileTask 0 FileFails].

(** After the failure the node serves two bytes of the chunk's record. *)
Example part_of_record_served :
  store_get (r_key toy_chunk_rec) (record_store (sys_driver (toy_sys toy_interrupted)))
  = Some {| r_key := r_key toy_chunk_rec; r_value := take 2 (r_value toy_chunk_rec) |}.
Proof. by_compute. Qed.

Lemma heard_record_inv e key rec :
  heard_record e = Some (key, rec) → e = existT (GetNetworkRecord key) (Answer (inr rec)).
Proof. destruct e as [[] a]; try discriminate. destruct a as [| |[|r]]; try discriminate. by intros [= -> ->]. Qed.

(** The first record that a task was told, with the key. *)
Definition first_heard (t : Running) : option (RecordKey * KRecord) := head (omap heard_record (rt_trace t)).

Lemma first_heard_in t key rec :
  first_heard t = Some (key, rec) → existT (GetNetworkRecord key) (Answer (inr rec)) ∈ rt_trace t.
Proof.
  intros (e & He & Hr)%head_Some_elem_of%list_elem_of_omap. apply heard_record_inv in Hr. by subst e.
Qed.

Lemma told_records_have_majority_witness :
  ∃ t, sys_tasks (toy_sys toy_upload) !! 0 = Some t ∧
  told toy_node (sys_history (toy_sys toy_upload)) (spend_key (Byte.x21 : DbcId)) toy_spend_rec.
Proof.
  destruct (sys_tasks (toy_sys toy_upload) !! 0) as [t|] eqn:Ht.
  2: exfalso; assert (is_Some (sys_tasks (toy_sys toy_upload) !! 0)) as [t H] by by_compute; congruence.
  exists t. split; [reflexivity|].
  assert ((sys_tasks (toy_sys toy_upload) !! 0) ≫= first_heard = Some (spend_key (Byte.x21 : DbcId), toy_spend_rec)) as H
    by by_compute.
  rewrite Ht in H. cbn [mbind option_bind] in H.
  exact (proj2 (told_records_have_majority Release toy_genesis 20 id elements (λ l, Permutation_refl l) toy_node false ∅
            (toy_sys toy_upload) t _ _ toy_uploaded (list_elem_of_lookup_2 _ _ _ Ht) (first_heard_in _ _ _ H))).
Defined.

(** A peer asks for the price of storing, twice: the second time there is no
    room for the event. *)
Definition toy_full_env : Env := {|
  env_build := Release; alive := λ _, true; has_capacity := λ _, false; kbuckets := [];
  fresh_query := 0; fresh_request := 0; put_started := inr tt; listening := inr tt; dialing := inr tt;
  response_sent := true; closest_local_peers := []; removed_peer := None; connected_peers := []; listeners := [];
  has_autonat := false; result_order := map_to_list; store_order := []; fetch_order := [];
  fetch_clock := λ _ _, 0%Z; fetch_now := 0%Z; cost_factor := 2 ^ 63 |}.
Definition toy_price_request : Request := Request_Query (Query_GetStoreCost (NA_RecordKey [Byte.x0a])).
Definition toy_ask_price (env : Env) (channel : PeerChan) : Choice :=
  RunSwarmEvent env (SE_MsgReceived (Message_Request (Byte.x02 : PeerId) toy_price_request channel)).
Definition toy_requests : list Choice := [toy_ask_price toy_sys_env 3; toy_ask_price toy_full_env 4; TakeEvent 0].

Lemma toy_requests_reachable : toy_reachable (toy_sys toy_requests).
Proof.
  assert (is_Some (sys_run Release toy_genesis 20 id elements toy_node toy_requests (node_run toy_node false ∅))) as [s Hs] by by_compute.
  unfold toy_sys. rewrite Hs. eapply sys_run_reachable; [apply sys_start| |exact Hs].
  apply Forall_cons. split; [by intros ?|]. apply Forall_cons. split; [by intros ?|]. by apply Forall_singleton.
Qed.

Lemma events_handled_once_witness :
  omap event_request (handled_events (sys_tasks (toy_sys toy_requests)) ++ sys_events (toy_sys toy_requests))
  ≡ₚ [(toy_price_request, FromPeer 3)].
Proof.
  destruct (events_handled_once Release toy_genesis 20 id elements toy_node false ∅ (toy_sys toy_requests) toy_requests_reachable)
    as [H _]. rewrite H. vm_compute. reflexivity.
Defined.

(** A task that stored nothing. *)
Definition stored_nothing (t : Running) : bool :=
  forallb (λ e : Effects.Event NetAns, match e with existT (PutLocalRecord _) _ => false | _ => true end) (rt_trace t).

Lemma stored_nothing_not_vouched ts r :
  forallb stored_nothing ts = true → ¬ vouched Release toy_genesis elements ts r.
Proof.
  intros Hall (t & tr1 & tr2 & Ht & Htr & _). rewrite forallb_forall in Hall.
  specialize (Hall t (proj1 (list_elem_of_In _ _) Ht)). unfold stored_nothing in Hall. rewrite Htr, forallb_app in Hall.
  cbn in Hall. by rewrite andb_false_r in Hall.
Qed.

(** A node serves a record that it never checked: the copy of a split vote. *)
Lemma unchecked_copy_served :
  toy_reachable (toy_sys toy_split_vote) ∧
  store_get [Byte.x0a] (record_store (sys_driver (toy_sys toy_split_vote))) = Some (toy_rec Byte.x0a Byte.xaa) ∧
  ¬ vouched Release toy_genesis elements (sys_tasks (toy_sys toy_split_vote)) (toy_rec Byte.x0a Byte.xaa).
Proof.
  split; [apply toy_sys_reachable; [by repeat constructor|by_compute]|]. split; [by_compute|].
  apply stored_nothing_not_vouched. by_compute.
Qed.
