(* ===== verification/Wallet.v ===== *)
(** * sn_transfers: the local wallet

    [KeyLessWallet] and [LocalWallet] of src/sn_transfers/src/wallet/mod.rs and
    src/sn_transfers/src/wallet/local_store.rs: depositing DBCs, choosing and
    spending them, the payment proofs.  The balance is a [u64] sum, which can
    overflow.  Random derivation indices are arguments.

    The main theorems: a send takes exactly the value sent out of the wallet,
    moves the inputs to the spent DBCs and keeps the change; the wallet never
    offers a DBC that it has spent; and a send without change leaves a stale
    balance. *)

From S2P Require Import Prelude Deps ToyCrates Registers Protocol Transfers Payments.
From stdpp Require Import base tactics list gmap sorting strings.
From Stdlib Require Import ZArith NArith Strings.Byte Lia.

(** A path as its components. *)
Notation Path := (list string).

Section Wallet.
Context `{TK : TokenCrate, DI : DbcIdCrate, SD : !SnDbcCrate, DC : !DbcCrate}.

Inductive WalletError :=
| NoDbcsAvailable
| CreateTransfer (e : TransferError)
| StoragePaymentProof (e : ProofError)
| CouldNotSendTokens
| CouldNotGetStoreCost
| CouldNotVerifyTransfer
| UnconfirmedTxAfterRetries
| FailedToParseBlsKey
| FailedToDecodeHexToKey
| FailedToHexEncodeKey
| DbcError
| BlsError
| BincodeError
| WalletIo.

#[global] Instance WalletError_eq_dec : EqDecision WalletError.
Proof. solve_decision. Defined.

Record KeyLessWallet := {
  balance : Token;
  spent_dbcs : gmap DbcId Dbc;
  available_dbcs : gmap DbcId Dbc;
  dbcs_created_for_others : list Dbc;
  paymet_proofs : gmap XorName PaymentProof;
}.

Record LocalWallet := { key : MainKey; wallet : KeyLessWallet; wallet_dir : Path }.

Definition KeyLessWallet_new : KeyLessWallet :=
  {| balance := token_zero; spent_dbcs := ∅; available_dbcs := ∅; dbcs_created_for_others := []; paymet_proofs := ∅ |}.

Definition LocalWallet_balance (w : LocalWallet) : Token := balance (wallet w).
Definition LocalWallet_address (w : LocalWallet) : PublicAddress := mk_public_address (key w).

(** Collecting pairs into a [BTreeMap]: the last value of a key stays. *)
Definition collect_map {A : Type} (l : list (DbcId * A)) : gmap DbcId A := foldl (λ m p, <[p.1 := p.2]> m) ∅ l.

(** [fold(0, |total, token| total + token.as_nano())]. *)
Fixpoint sum_nanos (bld : Build) (total : Z) (l : list Token) : Res WalletError Z :=
  match l with
  | [] => Ok total
  | t :: l => total ← u64_add bld total (as_nano t); sum_nanos bld total l
  end.

(** The tokens of the DBCs that the key can spend. *)
Definition own_tokens (k : MainKey) (m : gmap DbcId Dbc) : list Token :=
  omap (λ d, match dbc_derived_key d k with Some _ => dbc_token d | None => None end) (bmap_values m).

Definition wallet_deposit (bld : Build) (dbcs : list Dbc) (k : MainKey) : StM KeyLessWallet WalletError unit := λ w,
  match dbcs with
  | [] => (w, Ok tt)
  | _ =>
      let received_dbcs := collect_map (omap (λ d,
        if decide (is_Some (spent_dbcs w !! dbc_id_of d)) then None
        else match dbc_derived_key d k with Some _ => Some (dbc_id_of d, d) | None => None end) dbcs) in
      let available := received_dbcs ∪ available_dbcs w in
      let w' := {| balance := balance w; spent_dbcs := spent_dbcs w; available_dbcs := available;
                   dbcs_created_for_others := dbcs_created_for_others w; paymet_proofs := paymet_proofs w |} in
      match sum_nanos bld 0 (own_tokens k available) with
      | Ok new_balance =>
          ({| balance := from_nano new_balance; spent_dbcs := spent_dbcs w; available_dbcs := available;
              dbcs_created_for_others := dbcs_created_for_others w; paymet_proofs := paymet_proofs w |}, Ok tt)
      | Err e => (w', Err e)
      | Panic p => (w', Panic p)
      end
  end.

(** A method on the wallet of a [LocalWallet]. *)
Definition on_wallet {A : Type} (m : StM KeyLessWallet WalletError A) : StM LocalWallet WalletError A := λ w,
  let '(kw, r) := m (wallet w) in ({| key := key w; wallet := kw; wallet_dir := wallet_dir w |}, r).

Definition deposit (bld : Build) (dbcs : list Dbc) : StM LocalWallet WalletError unit := λ w,
  on_wallet (wallet_deposit bld dbcs (key w)) w.

Definition LocalWallet_available_dbcs (w : LocalWallet) : list (Dbc * DerivedKey) :=
  omap (λ d, (λ dk, (d, dk)) <$> dbc_derived_key d (key w)) (bmap_values (available_dbcs (wallet w))).

(** One round of the loop of [largest_dbc]. *)
Definition largest_step (k : MainKey) (largest : option (Dbc * DerivedKey)) (d : Dbc)
    : Res WalletError (option (Dbc * DerivedKey)) :=
  match dbc_derived_key d k with
  | None => Ok largest
  | Some dk =>
      match largest with
      | None => Ok (Some (d, dk))
      | Some (big_dbc, _) =>
          token ← ok_or (dbc_token d) DbcError;
          big ← ok_or (dbc_token big_dbc) DbcError;
          if decide (token_lt big token) then Ok (Some (d, dk)) else Ok largest
      end
  end.

Fixpoint largest_loop (k : MainKey) (largest : option (Dbc * DerivedKey)) (l : list Dbc)
    : Res WalletError (option (Dbc * DerivedKey)) :=
  match l with [] => Ok largest | d :: l => largest ← largest_step k largest d; largest_loop k largest l end.

Definition largest_dbc (w : LocalWallet) : Res WalletError (Dbc * DerivedKey) :=
  largest ← largest_loop (key w) None (bmap_values (available_dbcs (wallet w)));
  ok_or largest NoDbcsAvailable.

Definition add_payment_proofs (proofs : gmap XorName PaymentProof) (w : LocalWallet) : LocalWallet :=
  {| key := key w;
     wallet := {| balance := balance (wallet w); spent_dbcs := spent_dbcs (wallet w);
                  available_dbcs := available_dbcs (wallet w);
                  dbcs_created_for_others := dbcs_created_for_others (wallet w);
                  paymet_proofs := proofs ∪ paymet_proofs (wallet w) |};
     wallet_dir := wallet_dir w |}.

Definition get_payment_proof (w : LocalWallet) (name : XorName) : option PaymentProof := paymet_proofs (wallet w) !! name.

(** [update_local_wallet]: the spent inputs leave the available DBCs; the change
    is deposited before they are recorded as spent. *)
Definition take_spent (ids : gset DbcId) (w : KeyLessWallet) : KeyLessWallet :=
  {| balance := balance w; spent_dbcs := spent_dbcs w;
     available_dbcs := filter (λ kv, kv.1 ∉ ids) (available_dbcs w);
     dbcs_created_for_others := dbcs_created_for_others w; paymet_proofs := paymet_proofs w |}.

Definition record_spent (spent : gmap DbcId Dbc) (created : list Dbc) (w : KeyLessWallet) : KeyLessWallet :=
  {| balance := balance w; spent_dbcs := spent ∪ spent_dbcs w; available_dbcs := available_dbcs w;
     dbcs_created_for_others := dbcs_created_for_others w ++ created; paymet_proofs := paymet_proofs w |}.

Definition update_local_wallet (bld : Build) (transfer : TransferOutputs) : StM LocalWallet WalletError unit :=
  let spent_dbc_ids : gset DbcId := list_to_set (input_dbc_id <$> tx_inputs (to_tx transfer)) in
  spent ← gets (λ w, filter (λ kv, kv.1 ∈ spent_dbc_ids) (available_dbcs (wallet w)));
  _ ← on_wallet (modify (take_spent spent_dbc_ids));
  _ ← deposit bld (option_list (change_dbc transfer));
  on_wallet (modify (record_spent spent (created_dbcs transfer))).

(** The derivation indices of the outputs ([rnds]) and of the change ([rnd]). *)
Definition local_send (bld : Build) (to : list (Token * PublicAddress)) (reason_hash : Hash32)
    (rnds : list bytes) (rnd : bytes) : StM LocalWallet WalletError TransferOutputs :=
  let to_unique_keys := zip_with (λ p r, (p.1, p.2, r)) to rnds in
  available ← gets LocalWallet_available_dbcs;
  address ← gets LocalWallet_address;
  transfer ← lift_res (map_err CreateTransfer (create_transfer bld available to_unique_keys address reason_hash rnd));
  _ ← update_local_wallet bld transfer;
  mret transfer.

Definition local_send_storage_payment (bld : Build) (storage_payment : Token) (root_hash reason_hash : Hash32)
    (rnd : bytes) : StM LocalWallet WalletError TransferOutputs :=
  available ← gets LocalWallet_available_dbcs;
  address ← gets LocalWallet_address;
  transfer ← lift_res (map_err CreateTransfer
    (create_storage_payment_transfer bld available address storage_payment root_hash reason_hash rnd));
  _ ← update_local_wallet bld transfer;
  mret transfer.

End Wallet.

(** ** The change of a transfer *)

Section Change.
Context `{TK : TokenCrate, DI : DbcIdCrate, SD : !SnDbcCrate, DC : !DbcCrate}.
Context `{TKL : !TokenLaws, DCL : !DbcLaws, DOL : !DbcOwnerLaws}.

Lemma split_change_none cid (l created : list Dbc) cd :
  Forall (λ d, dbc_id_of d ≠ cid) l →
  foldl (λ acc d, if decide (dbc_id_of d = cid) then (acc.1, Some d) else (acc.1 ++ [d], acc.2)) (created, cd) l
  = (created ++ l, cd).
Proof.
  intros Hl. revert created. induction Hl as [|d l Hd _ IH]; intros created; cbn; [by rewrite app_nil_r|].
  rewrite decide_False by done. cbn. by rewrite IH, <- app_assoc.
Qed.

(** When its id is new, the change DBC exists exactly when there is change, and
    it carries the change for its owner. *)
Lemma create_transfer_with_change inp reason fee rnd out :
  create_transfer_with inp reason fee rnd = Ok out →
  let cid := new_dbc_id (change inp).2 rnd in
  (∀ r, r ∈ recipients inp → new_dbc_id r.1.2 r.2 ≠ cid) →
  if decide (as_nano (change inp).1 = 0%Z) then change_dbc out = None
  else ∃ d, change_dbc out = Some d ∧ dbc_id_of d = cid ∧ dbc_token d = Some (change inp).1 ∧
            ∀ k, mk_public_address k = (change inp).2 → is_Some (dbc_derived_key d k).
Proof.
  unfold create_transfer_with. destruct (change inp) as [ch to]. cbn [fst snd]. cbn zeta.
  destruct (collect_inputs _ _ _) as [ins src].
  intros (b & Hb%ok_or_Ok_iff & H)%bind_Ok_iff Hfresh. split_match_in H; [done|].
  apply bind_Ok_iff in H as (reqs & _ & H). apply bind_Ok_iff in H as (built & Hbuilt%ok_or_Ok_iff & H).
  pose proof (db_build_owners _ _ _ _ Hb Hbuilt) as Hown. pose proof (db_build_dbcs b built (or_introl Hbuilt)) as Hd.
  rewrite (tb_build_tx _ _ _ Hb) in Hd. cbn [tx_outputs] in Hd. rewrite <- list_fmap_compose in Hd.
  match type of Hb with tb_build ?tb _ = _ =>
    assert (tb_outs tb = recipients inp ++ if decide (as_nano ch = 0%Z) then [] else [(ch, to, rnd)]) as Houts
  end.
  { destruct fee, (decide (as_nano ch = 0%Z));
      rewrite ?tb_add_outputs_outs, ?tb_set_fee_outs, ?tb_add_outputs_outs, tb_add_inputs_outs, tb_default_outs;
      cbn [app]; by rewrite ?app_nil_r. }
  rewrite Houts in Hown, Hd. rewrite fmap_app in Hd. apply fmap_app_inv in Hd as (l1 & l2 & Hl1 & Hl2 & ->).
  assert (Forall (λ d, dbc_id_of d ≠ new_dbc_id to rnd) (fst <$> l1)) as Hall.
  { apply Forall_forall. intros d ([d' t] & -> & Hin)%list_elem_of_fmap. cbn [fst].
    apply (list_elem_of_fmap_2 (λ p : Dbc * Token, (dbc_id_of p.1, dbc_token p.1, dbc_src_tx p.1))) in Hin.
    rewrite <- Hl1 in Hin. apply list_elem_of_fmap in Hin as (r & Heq & Hr). injection Heq as -> _ _. by apply Hfresh. }
  unfold split_change in H. rewrite fmap_app, foldl_app, split_change_none in H by done.
  destruct (decide (as_nano ch = 0%Z)) as [H0|H0].
  - destruct l2; [|done]. cbn in H. by injection H as <-.
  - destruct l2 as [|[d t] [|]]; try done. cbn in Hl2. injection Hl2 as Hid Htok _.
    cbn in H. rewrite decide_True in H by done. injection H as <-. exists d. split_and!; try done.
    apply Forall2_app_inv_l in Hown as (k1 & k2 & _ & H2 & Heq). intros k Hk.
    assert (length k1 = length l1) as Hlen by (apply (f_equal length) in Heq; apply Forall2_length in H2; rewrite !length_app in Heq; cbn in *; lia).
    apply app_inj_1 in Heq as [-> <-]; [|done]. apply Forall2_cons in H2 as [H2 _]. by apply H2.
Qed.

End Change.

(** ** The value of a wallet *)

Section Value.
Context `{TK : TokenCrate, DI : DbcIdCrate, SD : !SnDbcCrate, DC : !DbcCrate}.

Definition dbc_value (k : MainKey) (d : Dbc) : Z :=
  match dbc_derived_key d k with Some _ => default 0%Z (as_nano <$> dbc_token d) | None => 0%Z end.

(** What the DBCs of a map are worth to the owner of the key. *)
Definition value (k : MainKey) (m : gmap DbcId Dbc) : Z := Zsum (as_nano <$> own_tokens k m).

Lemma value_alt k m : value k m = Zsum (dbc_value k <$> (map_to_list m).*2).
Proof.
  unfold value, own_tokens, bmap_values.
  transitivity (Zsum (dbc_value k <$> (bmap_iter m).*2)); [|by rewrite bmap_iter_perm].
  induction (snd <$> bmap_iter m) as [|d l IH]; [done|]. cbn. unfold dbc_value at 1.
  destruct (dbc_derived_key d k); [destruct (dbc_token d)|]; cbn; unfold Zsum in *; cbn in *; lia.
Qed.

Lemma value_empty k : value k ∅ = 0%Z.
Proof. by rewrite value_alt, map_to_list_empty. Qed.

Lemma value_insert k m id d : m !! id = None → value k (<[id := d]> m) = (dbc_value k d + value k m)%Z.
Proof. intros Hm. rewrite !value_alt, map_to_list_insert by done. done. Qed.

Lemma value_union k m1 m2 : m1 ##ₘ m2 → value k (m1 ∪ m2) = (value k m1 + value k m2)%Z.
Proof.
  revert m1. refine (map_ind _ _ _).
  - intros _. by rewrite (left_id_L ∅ (∪)), value_empty.
  - intros id d m1 Hid IH Hdisj. apply map_disjoint_insert_l in Hdisj as [H2 Hdisj].
    rewrite <- insert_union_l, !value_insert, IH by (done || by apply lookup_union_None). lia.
Qed.

Lemma value_filter_split k m (ids : gset DbcId) :
  value k m = (value k (filter (λ kv, kv.1 ∈ ids) m) + value k (filter (λ kv, kv.1 ∉ ids) m))%Z.
Proof.
  rewrite <- (map_filter_union_complement (λ kv : DbcId * Dbc, kv.1 ∈ ids) m) at 1.
  apply value_union, map_disjoint_filter_complement.
Qed.

Context `{TKL : !TokenLaws}.

Lemma value_nonneg k m : (0 ≤ value k m)%Z.
Proof. apply Zsum_nonneg, Forall_fmap, Forall_true. intros t. apply as_nano_range. Qed.

Lemma sum_nanos_spec bld l total :
  (0 ≤ total)%Z → (total + Zsum (as_nano <$> l) < two64)%Z → sum_nanos bld total l = Ok (total + Zsum (as_nano <$> l))%Z.
Proof.
  revert total. induction l as [|t l IH]; intros total H0 Hlt; cbn; [unfold Zsum; cbn; by rewrite Z.add_0_r|].
  change (Zsum (as_nano <$> t :: l)) with (as_nano t + Zsum (as_nano <$> l))%Z in Hlt.
  pose proof (as_nano_range t) as [Ht _].
  assert (0 ≤ Zsum (as_nano <$> l))%Z by (apply Zsum_nonneg, Forall_fmap, Forall_true; intros; apply as_nano_range).
  unfold u64_add. rewrite u64_of_in_range by (unfold in_u64; lia). cbn. rewrite IH by lia.
  unfold Zsum. cbn. f_equal. lia.
Qed.

(** The entries of a wallet: a DBC is filed under its id, is ours, and is not
    spent while it is available. *)
Record wallet_inv (w : LocalWallet) : Prop := {
  inv_available : ∀ id d, available_dbcs (wallet w) !! id = Some d →
    dbc_id_of d = id ∧ is_Some (dbc_derived_key d (key w));
  inv_spent : ∀ id d, spent_dbcs (wallet w) !! id = Some d → dbc_id_of d = id;
  inv_disjoint : available_dbcs (wallet w) ##ₘ spent_dbcs (wallet w);
}.

Lemma elem_of_available w d dk :
  (d, dk) ∈ LocalWallet_available_dbcs w →
  (∃ id, available_dbcs (wallet w) !! id = Some d) ∧ dbc_derived_key d (key w) = Some dk.
Proof.
  unfold LocalWallet_available_dbcs, bmap_values. intros (d' & Hin & H)%list_elem_of_omap.
  apply fmap_Some in H as (dk' & Hdk & [= -> ->]). split; [|done].
  apply list_elem_of_fmap in Hin as ([id d0] & -> & Hin). exists id. by apply elem_of_bmap_iter.
Qed.

Lemma available_ids_NoDup w : wallet_inv w → NoDup (dbc_id_of ∘ fst <$> LocalWallet_available_dbcs w).
Proof.
  intros Hinv. unfold LocalWallet_available_dbcs, bmap_values.
  assert (∀ l : list (DbcId * Dbc), NoDup l.*1 → (∀ id d, (id, d) ∈ l → dbc_id_of d = id) →
    NoDup (dbc_id_of ∘ fst <$> omap (λ d, (λ dk, (d, dk)) <$> dbc_derived_key d (key w)) l.*2) ∧
    ∀ id, id ∈ dbc_id_of ∘ fst <$> omap (λ d, (λ dk, (d, dk)) <$> dbc_derived_key d (key w)) l.*2 → id ∈ l.*1) as H.
  { induction l as [|[id d] l IH]; intros Hnd Hid; [split; [constructor|done]|].
    apply NoDup_cons in Hnd as [Hni Hnd]. destruct IH as [IH1 IH2]; [done|intros; apply Hid; by right|].
    assert (dbc_id_of d = id) as Hd by (apply Hid; by left). cbn.
    destruct (dbc_derived_key d (key w)); cbn.
    - split; [constructor; [|done]|]; [rewrite Hd; intros ?%IH2; done|].
      intros i [->|Hi]%elem_of_cons; [apply elem_of_cons; left; exact Hd|right; by apply IH2].
    - split; [done|]. intros i Hi. right. by apply IH2. }
  apply H; [apply NoDup_bmap_iter_keys|]. intros id d Hin%elem_of_bmap_iter. by apply (inv_available _ Hinv).
Qed.

(** The DBCs selected for a transfer are worth what is taken out of the map. *)
Lemma value_selected w sel :
  wallet_inv w → sel `prefix_of` spendable (LocalWallet_available_dbcs w) →
  value (key w) (filter (λ kv, kv.1 ∈@{gset DbcId} list_to_set (dbc_id_of ∘ fst <$> sel)) (available_dbcs (wallet w)))
  = nanos sel.
Proof.
  intros Hinv Hpre. rewrite value_alt.
  assert (∀ p, p ∈ sel → p ∈ LocalWallet_available_dbcs w) as Hsel.
  { intros p Hp. destruct Hpre as [l Hl].
    assert (p ∈ spendable (LocalWallet_available_dbcs w)) as [_ ?]%list_elem_of_filter
      by (rewrite Hl; apply elem_of_app; by left). done. }
  assert (NoDup (dbc_id_of ∘ fst <$> sel)) as Hnd.
  { destruct Hpre as [l Hl]. pose proof (available_ids_NoDup w Hinv) as Hnd.
    assert (sublist (dbc_id_of ∘ fst <$> sel) (dbc_id_of ∘ fst <$> LocalWallet_available_dbcs w)) as Hsub.
    { apply fmap_sublist. etrans; [|apply (sublist_filter readable)]. fold (spendable (LocalWallet_available_dbcs w)).
      rewrite Hl. by apply sublist_inserts_r. }
    by eapply sublist_NoDup. }
  assert (map_to_list (filter (λ kv, kv.1 ∈@{gset DbcId} list_to_set (dbc_id_of ∘ fst <$> sel)) (available_dbcs (wallet w)))
          ≡ₚ (λ p : Dbc * DerivedKey, (dbc_id_of p.1, p.1)) <$> sel) as ->.
  { apply NoDup_Permutation; [apply NoDup_map_to_list| |].
    - apply (NoDup_fmap_1 fst). by rewrite <- list_fmap_compose.
    - intros [id d]. rewrite elem_of_map_to_list, map_lookup_filter_Some, list_elem_of_fmap. cbn.
      rewrite elem_of_list_to_set, list_elem_of_fmap. split.
      + intros [Hd ([d' dk] & -> & Hin)]. exists (d', dk). cbn in *. split; [|done].
        destruct (elem_of_available w d' dk (Hsel _ Hin)) as [[id' Hd'] _].
        destruct (inv_available _ Hinv _ _ Hd') as [<- _]. congruence.
      + intros ([d' dk] & [= -> ->] & Hin). cbn. split; [|by exists (d', dk)].
        destruct (elem_of_available w d' dk (Hsel _ Hin)) as [[id' Hd'] _].
        by destruct (inv_available _ Hinv _ _ Hd') as [<- _]. }
  unfold nanos. rewrite <- !list_fmap_compose. f_equal. apply list_fmap_ext. intros i [d dk] Hi. cbn.
  apply list_elem_of_lookup_2 in Hi. destruct (elem_of_available w d dk (Hsel _ Hi)) as [_ Hk].
  unfold dbc_value. by rewrite Hk.
Qed.

End Value.

(** ** Spending *)

Section Spending.
Context `{TK : TokenCrate, DI : DbcIdCrate, SD : !SnDbcCrate, DC : !DbcCrate}.
Context `{TKL : !TokenLaws, DCL : !DbcLaws, DOL : !DbcOwnerLaws}.

Definition input_ids (out : TransferOutputs) : gset DbcId := list_to_set (input_dbc_id <$> tx_inputs (to_tx out)).

Definition change_map (out : TransferOutputs) : gmap DbcId Dbc :=
  match change_dbc out with Some d => {[ dbc_id_of d := d ]} | None => ∅ end.

(** The wallet after a transfer that paid [total] to others: the inputs are
    spent, the change is available, and the balance is recomputed if there is
    change. *)
Record after_spend (w : LocalWallet) (out : TransferOutputs) (total : Z) (w' : LocalWallet) : Prop := {
  as_key : key w' = key w;
  as_available : available_dbcs (wallet w')
    = change_map out ∪ filter (λ kv, kv.1 ∉ input_ids out) (available_dbcs (wallet w));
  as_spent : spent_dbcs (wallet w')
    = filter (λ kv, kv.1 ∈ input_ids out) (available_dbcs (wallet w)) ∪ spent_dbcs (wallet w);
  as_created : dbcs_created_for_others (wallet w') = dbcs_created_for_others (wallet w) ++ created_dbcs out;
  as_value : value (key w) (available_dbcs (wallet w')) = (value (key w) (available_dbcs (wallet w)) - total)%Z;
  as_balance : balance (wallet w')
    = match change_dbc out with
      | Some _ => from_nano (value (key w) (available_dbcs (wallet w')))
      | None => balance (wallet w)
      end;
}.

(** The id of the change was not seen before. *)
Definition fresh_change (w : LocalWallet) (rs : list (Token * PublicAddress * bytes)) (rnd : bytes) : Prop :=
  let cid := new_dbc_id (LocalWallet_address w) rnd in
  available_dbcs (wallet w) !! cid = None ∧ spent_dbcs (wallet w) !! cid = None ∧
  ∀ r, r ∈ rs → new_dbc_id r.1.2 r.2 ≠ cid.

Lemma deposit_one bld k w d :
  spent_dbcs w !! dbc_id_of d = None → is_Some (dbc_derived_key d k) →
  let av := {[ dbc_id_of d := d ]} ∪ available_dbcs w in
  (value k av < two64)%Z →
  wallet_deposit bld [d] k w
  = ({| balance := from_nano (value k av); spent_dbcs := spent_dbcs w; available_dbcs := av;
        dbcs_created_for_others := dbcs_created_for_others w; paymet_proofs := paymet_proofs w |}, Ok tt).
Proof.
  intros Hs [dk Hk] av Hlt. unfold wallet_deposit. cbn [omap list_omap].
  rewrite decide_False by (rewrite Hs; by intros [? ?]). rewrite Hk.
  change (collect_map [(dbc_id_of d, d)]) with ({[ dbc_id_of d := d ]} : gmap DbcId Dbc).
  rewrite (sum_nanos_spec bld); [done|done|exact Hlt].
Qed.

Lemma update_local_wallet_eq bld out w :
  update_local_wallet bld out w =
  let '(kw, r) := wallet_deposit bld (option_list (change_dbc out)) (key w) (take_spent (input_ids out) (wallet w)) in
  match r with
  | Ok _ => ({| key := key w;
                wallet := record_spent (filter (λ kv, kv.1 ∈ input_ids out) (available_dbcs (wallet w)))
                            (created_dbcs out) kw; wallet_dir := wallet_dir w |}, Ok tt)
  | Err e => ({| key := key w; wallet := kw; wallet_dir := wallet_dir w |}, Err e)
  | Panic p => ({| key := key w; wallet := kw; wallet_dir := wallet_dir w |}, Panic p)
  end.
Proof.
  unfold update_local_wallet, deposit, on_wallet, mbind, StM_bind. cbn.
  by destruct (wallet_deposit _ _ _ _) as [kw [| |]].
Qed.

Lemma spend_conserves bld w sel ch rs reason fee rnd out total :
  wallet_inv w → (value (key w) (available_dbcs (wallet w)) < two64)%Z →
  sel `prefix_of` spendable (LocalWallet_available_dbcs w) → nanos sel = (total + as_nano ch)%Z → (0 ≤ total)%Z →
  create_transfer_with {| dbcs_to_spend := sel; recipients := rs; change := (ch, LocalWallet_address w) |}
    reason fee rnd = Ok out →
  fresh_change w rs rnd →
  ∃ w', update_local_wallet bld out w = (w', Ok tt) ∧ after_spend w out total w' ∧ wallet_inv w'.
Proof.
  intros Hinv Hlt Hpre Hsum Htot Hout (Hfa & Hfs & Hfr).
  pose proof (create_transfer_with_change _ _ _ _ _ Hout Hfr) as Hch. cbn [change fst snd] in Hch.
  apply create_transfer_with_Ok in Hout as (Hin & _). cbn [dbcs_to_spend] in Hin.
  rewrite (spendable_prefix sel (LocalWallet_available_dbcs w)) in Hin by done.
  assert (input_ids out = list_to_set (dbc_id_of ∘ fst <$> sel)) as Hids
    by (unfold input_ids; by rewrite Hin, <- list_fmap_compose).
  pose proof (value_selected w sel Hinv Hpre) as Hval. rewrite <- Hids in Hval.
  pose proof (value_filter_split (key w) (available_dbcs (wallet w)) (input_ids out)) as Hsplit.
  set (rest := filter (λ kv, kv.1 ∉ input_ids out) (available_dbcs (wallet w))) in *.
  set (gone := filter (λ kv, kv.1 ∈ input_ids out) (available_dbcs (wallet w))) in *.
  assert (rest ##ₘ gone ∪ spent_dbcs (wallet w)) as Hdisj.
  { apply map_disjoint_union_r. split; [symmetry; apply map_disjoint_filter_complement|].
    eapply map_disjoint_weaken_l; [apply (inv_disjoint _ Hinv)|apply map_filter_subseteq]. }
  assert (∀ id d, (gone ∪ spent_dbcs (wallet w)) !! id = Some d → dbc_id_of d = id) as Hgs.
  { intros id d [Hg|[_ Hg]]%lookup_union_Some_raw; [|by apply (inv_spent _ Hinv)].
    apply map_lookup_filter_Some in Hg as [Hg _]. by apply (inv_available _ Hinv). }
  assert (∀ id d, rest !! id = Some d → dbc_id_of d = id ∧ is_Some (dbc_derived_key d (key w))) as Hrest.
  { intros id d [Hg _]%map_lookup_filter_Some. by apply (inv_available _ Hinv). }
  rewrite update_local_wallet_eq. destruct (decide (as_nano ch = 0%Z)) as [H0|H0].
  - rewrite Hch. cbn. eexists. split; [done|]. split.
    + split; cbn; unfold change_map; rewrite ?Hch, ?(left_id_L ∅ (∪)); try done. fold rest. lia.
    + split; cbn; [exact Hrest|exact Hgs|exact Hdisj].
  - destruct Hch as (d & Hd & Hid & Htok & Hown). rewrite Hd. change (option_list (Some d)) with [d].
    assert (rest !! dbc_id_of d = None) as Hrd by (rewrite Hid; unfold rest; apply map_lookup_filter_None; by left).
    assert (value (key w) ({[ dbc_id_of d := d ]} ∪ rest) = (as_nano ch + value (key w) rest)%Z) as Hnew.
    { rewrite <- insert_union_singleton_l, value_insert by done. unfold dbc_value.
      destruct (Hown (key w) eq_refl) as [dk Hdk]. by rewrite Hdk, Htok. }
    rewrite deposit_one.
    + cbn. eexists. split; [done|]. split.
      * split; cbn; unfold change_map; rewrite ?Hd; try done. fold rest. rewrite Hnew. lia.
      * split; cbn; [|exact Hgs|].
        -- intros id d' [[<- <-]%lookup_singleton_Some|[_ Hr]]%lookup_union_Some_raw; [split; [done|by apply Hown]|].
           by apply Hrest.
        -- apply map_disjoint_union_l. split; [|exact Hdisj]. apply map_disjoint_singleton_l.
           apply lookup_union_None. rewrite Hid. split; [unfold gone; apply map_lookup_filter_None; by left|done].
    + cbn. by rewrite Hid.
    + by apply Hown.
    + cbn. fold rest. rewrite Hnew. lia.
Qed.

End Spending.

(** ** Operations on a wallet *)

Section Operations.
Context `{TK : TokenCrate, DI : DbcIdCrate, SD : !SnDbcCrate, DC : !DbcCrate}.

Definition no_panic {E A : Type} (r : Res E A) : Prop := match r with Panic _ => False | _ => True end.

Lemma no_panic_bind {E A B} (r : Res E A) (f : A → Res E B) :
  no_panic r → (∀ a, no_panic (f a)) → no_panic (r ≫= f).
Proof. destruct r; cbn; auto. Qed.

Lemma no_panic_ok_or {E A} (o : option A) (e : E) : no_panic (ok_or o e).
Proof. by destruct o. Qed.

Lemma no_panic_try_map {E A B} (f : A → Res E B) l : (∀ x, no_panic (f x)) → no_panic (try_map f l).
Proof.
  intros Hf. induction l as [|x l IH]; cbn; [done|].
  apply no_panic_bind; [apply Hf|]. intros y. apply no_panic_bind; [exact IH|done].
Qed.

Lemma create_transfer_with_no_panic inp reason fee rnd : no_panic (create_transfer_with inp reason fee rnd).
Proof.
  unfold create_transfer_with. destruct (change inp), (collect_inputs _ _ _).
  apply no_panic_bind; [apply no_panic_ok_or|]. intros b. destruct (negb _); [done|].
  apply no_panic_bind; [apply no_panic_try_map; intros x; apply no_panic_bind; [apply no_panic_ok_or|done]|].
  intros reqs. apply no_panic_bind; [apply no_panic_ok_or|]. intros built. by destruct (split_change _ _).
Qed.

Lemma collect_map_Some {A} (l : list (DbcId * A)) id a : collect_map l !! id = Some a → (id, a) ∈ l.
Proof.
  unfold collect_map. assert (∀ m : gmap DbcId A, foldl (λ m p, <[p.1 := p.2]> m) m l !! id = Some a → m !! id = Some a ∨ (id, a) ∈ l) as H.
  { induction l as [|[i x] l IH]; cbn; [by left|]. intros m [Hm|Hm]%IH; [|by right; right].
    apply lookup_insert_Some in Hm as [[-> ->]|[_ Hm]]; [right; left|by left]. }
  intros [Hm|Hm]%H; [|done]. by rewrite lookup_empty in Hm.
Qed.

Context `{TKL : !TokenLaws, DCL : !DbcLaws, DOL : !DbcOwnerLaws}.

Lemma deposit_inv bld dbcs w w' r : deposit bld dbcs w = (w', r) → wallet_inv w →
  wallet_inv w' ∧ spent_dbcs (wallet w') = spent_dbcs (wallet w).
Proof.
  unfold deposit, on_wallet, wallet_deposit. destruct dbcs as [|d0 dbcs].
  { intros [= <- <-]. by destruct w. }
  set (received := collect_map _). intros H Hinv.
  assert (∀ id d, received !! id = Some d →
    dbc_id_of d = id ∧ is_Some (dbc_derived_key d (key w)) ∧ spent_dbcs (wallet w) !! id = None) as Hrec.
  { intros id d (d' & _ & Hd)%collect_map_Some%list_elem_of_omap. case_decide as Hs; [done|].
    destruct (dbc_derived_key d' (key w)) eqn:Hk; [|done]. injection Hd as <- <-.
    split_and!; [done|by rewrite Hk|]. by apply eq_None_not_Some. }
  assert (∀ b, wallet_inv {| key := key w; wallet := {| balance := b; spent_dbcs := spent_dbcs (wallet w);
     available_dbcs := received ∪ available_dbcs (wallet w);
     dbcs_created_for_others := dbcs_created_for_others (wallet w); paymet_proofs := paymet_proofs (wallet w) |};
     wallet_dir := wallet_dir w |}) as Hw.
  { intros b. split; cbn; [|apply (inv_spent _ Hinv)|].
    - intros id d [Hd|[_ Hd]]%lookup_union_Some_raw; [|by apply (inv_available _ Hinv)].
      by destruct (Hrec id d Hd) as (? & ? & _).
    - apply map_disjoint_union_l. split; [|apply (inv_disjoint _ Hinv)].
      apply map_disjoint_spec. intros id d1 d2 Hd1 Hd2. destruct (Hrec id d1 Hd1) as (_ & _ & Hn). congruence. }
  destruct (sum_nanos _ _ _); injection H as <- <-; split; cbn; try done; apply Hw.
Qed.

Lemma available_nanos w :
  wallet_inv w → (nanos (spendable (LocalWallet_available_dbcs w)) ≤ value (key w) (available_dbcs (wallet w)))%Z.
Proof.
  intros Hinv. rewrite <- (value_selected w _ Hinv) by done.
  rewrite (value_filter_split (key w) (available_dbcs (wallet w))
             (list_to_set (dbc_id_of ∘ fst <$> spendable (LocalWallet_available_dbcs w)))).
  pose proof (value_nonneg (key w) (filter (λ kv, kv.1 ∉@{gset DbcId}
    list_to_set (dbc_id_of ∘ fst <$> spendable (LocalWallet_available_dbcs w))) (available_dbcs (wallet w)))). lia.
Qed.

Lemma select_inputs_no_panic bld w out :
  wallet_inv w → (value (key w) (available_dbcs (wallet w)) < two64)%Z →
  no_panic (select_inputs bld (LocalWallet_available_dbcs w) out).
Proof.
  intros Hinv Hlt. unfold select_inputs.
  destruct (select_loop_total bld (LocalWallet_available_dbcs w) [] token_zero out) as [[[sel ti] ch] ->].
  - rewrite as_nano_zero. pose proof (available_nanos w Hinv). pose proof (nanos_nonneg (spendable (LocalWallet_available_dbcs w))).
    unfold in_u64. lia.
  - cbn. by case_decide.
Qed.

#[local] Arguments create_transfer_with : simpl never.
#[local] Arguments update_local_wallet : simpl never.
#[local] Arguments select_inputs : simpl never.

(** A transfer that was made from the wallet's own DBCs. *)
Lemma local_send_spec bld to reason rnds rnd w w' r :
  wallet_inv w → (value (key w) (available_dbcs (wallet w)) < two64)%Z → length rnds = length to →
  fresh_change w (zip_with (λ p r, (p.1, p.2, r)) to rnds) rnd →
  local_send bld to reason rnds rnd w = (w', r) →
  match r with
  | Ok out => after_spend w out (Zsum (as_nano ∘ fst <$> to)) w' ∧ wallet_inv w'
  | Err _ => w' = w
  | Panic _ => False
  end.
Proof.
  intros Hinv Hlt Hlen Hfresh. unfold local_send, mbind, StM_bind. cbn.
  set (rs := zip_with _ to rnds) in *. unfold create_transfer.
  destruct (foldl _ _ rs) as [tot|] eqn:Htot; cbn; [|by intros [= <- <-]].
  apply recipients_total in Htot. rewrite as_nano_zero in Htot.
  assert (as_nano ∘ fst ∘ fst <$> rs = as_nano ∘ fst <$> to) as Hrs.
  { unfold rs. clear -Hlen. revert rnds Hlen. induction to as [|p to IH]; intros [|x rnds] Hlen; try done.
    cbn. f_equal. apply IH. by injection Hlen. }
  rewrite Hrs in Htot.
  pose proof (select_inputs_no_panic bld w tot Hinv Hlt) as Hnp.
  destruct (select_inputs _ _ tot) as [[sel ch]|e|p] eqn:Hsel; cbn; [|by intros [= <- <-]|done].
  apply select_inputs_Ok in Hsel as (Hsum & Hpre & _).
  pose proof (create_transfer_with_no_panic {| dbcs_to_spend := sel; recipients := rs; change := (ch, LocalWallet_address w) |}
    reason None rnd) as Hnp2.
  destruct (create_transfer_with _ reason None rnd) as [out|e|p] eqn:Hout; cbn; [|by intros [= <- <-]|done].
  destruct (spend_conserves bld w sel ch rs reason None rnd out (Zsum (as_nano ∘ fst <$> to)))
    as (w1 & -> & Has & Hi); try done.
  - lia.
  - apply Zsum_nonneg, Forall_fmap, Forall_true. intros [t a]. apply as_nano_range.
  - by intros [= <- <-].
Qed.

Lemma local_payment_spec bld payment root reason rnd w w' r :
  wallet_inv w → (value (key w) (available_dbcs (wallet w)) < two64)%Z → fresh_change w [] rnd →
  local_send_storage_payment bld payment root reason rnd w = (w', r) →
  match r with
  | Ok out => after_spend w out (as_nano payment) w' ∧ wallet_inv w'
  | Err _ => w' = w
  | Panic _ => False
  end.
Proof.
  intros Hinv Hlt Hfresh. unfold local_send_storage_payment, create_storage_payment_transfer, mbind, StM_bind. cbn.
  pose proof (select_inputs_no_panic bld w payment Hinv Hlt) as Hnp.
  destruct (select_inputs _ _ payment) as [[sel ch]|e|p] eqn:Hsel; cbn; [|by intros [= <- <-]|done].
  apply select_inputs_Ok in Hsel as (Hsum & Hpre & _).
  match goal with |- context [create_transfer_with ?i reason ?f rnd] =>
    pose proof (create_transfer_with_no_panic i reason f rnd) as Hnp2;
    destruct (create_transfer_with i reason f rnd) as [out|e|p] eqn:Hout end; cbn; [|by intros [= <- <-]|done].
  destruct (spend_conserves bld w sel ch [] reason _ rnd out (as_nano payment) Hinv Hlt Hpre Hsum
              (proj1 (as_nano_range payment)) Hout Hfresh) as (w1 & -> & Has & Hi).
  by intros [= <- <-].
Qed.

End Operations.

(** ** Histories of a wallet *)

Section Histories.
Context `{TK : TokenCrate, DI : DbcIdCrate, SD : !SnDbcCrate, DC : !DbcCrate}.

(** Deposits of any DBCs, sends and payments that succeed or fail, and cached
    proofs; the ids of the change are new. *)
Inductive wallet_step (bld : Build) : LocalWallet → LocalWallet → Prop :=
| step_deposit dbcs w w' : deposit bld dbcs w = (w', Ok tt) → wallet_step bld w w'
| step_send to reason rnds rnd w w' r :
    (value (key w) (available_dbcs (wallet w)) < two64)%Z → length rnds = length to →
    fresh_change w (zip_with (λ p r, (p.1, p.2, r)) to rnds) rnd →
    local_send bld to reason rnds rnd w = (w', r) → wallet_step bld w w'
| step_pay payment root reason rnd w w' r :
    (value (key w) (available_dbcs (wallet w)) < two64)%Z → fresh_change w [] rnd →
    local_send_storage_payment bld payment root reason rnd w = (w', r) → wallet_step bld w w'
| step_proofs proofs w : wallet_step bld w (add_payment_proofs proofs w).

Definition new_wallet (k : MainKey) (dir : Path) : LocalWallet :=
  {| key := k; wallet := KeyLessWallet_new; wallet_dir := dir |}.

Lemma new_wallet_inv k dir : wallet_inv (new_wallet k dir).
Proof. split; cbn; [by intros ? ? ?%lookup_empty_Some..|apply map_disjoint_empty_l]. Qed.

Context `{TKL : !TokenLaws, DCL : !DbcLaws, DOL : !DbcOwnerLaws}.

Lemma after_spend_subseteq w out total w' :
  after_spend w out total w' → wallet_inv w → spent_dbcs (wallet w) ⊆ spent_dbcs (wallet w').
Proof.
  intros Has Hinv. rewrite (as_spent _ _ _ _ Has). apply map_union_subseteq_r.
  eapply map_disjoint_weaken_l; [apply (inv_disjoint _ Hinv)|apply map_filter_subseteq].
Qed.

Lemma step_keeps_spent bld w w' :
  wallet_step bld w w' → wallet_inv w → wallet_inv w' ∧ spent_dbcs (wallet w) ⊆ spent_dbcs (wallet w').
Proof.
  intros Hs Hinv. destruct Hs as [dbcs w w' H|to reason rnds rnd w w' r Hv Hl Hf H|payment root reason rnd w w' r Hv Hf H|].
  - destruct (deposit_inv _ _ _ _ _ H Hinv) as [? ->]. done.
  - apply local_send_spec in H; [|done..]. destruct r as [out|e|p]; [|by subst|done].
    destruct H as [Has Hw]. split; [done|by eapply after_spend_subseteq].
  - apply local_payment_spec in H; [|done..]. destruct r as [out|e|p]; [|by subst|done].
    destruct H as [Has Hw]. split; [done|by eapply after_spend_subseteq].
  - split; [|done]. by destruct Hinv; split.
Qed.

Lemma steps_keep_spent bld w w' :
  rtc (wallet_step bld) w w' → wallet_inv w → wallet_inv w' ∧ spent_dbcs (wallet w) ⊆ spent_dbcs (wallet w').
Proof.
  induction 1 as [w|w1 w2 w3 Hs _ IH]; intros Hinv; [done|].
  destruct (step_keeps_spent bld _ _ Hs Hinv) as [Hinv2 Hsub]. destruct (IH Hinv2) as [Hinv3 Hsub'].
  split; [done|by etrans].
Qed.

End Histories.

(** ** Properties *)

Section Properties.
Context `{TK : TokenCrate, DI : DbcIdCrate, SD : !SnDbcCrate, DC : !DbcCrate}.

(** C12: sending tokens from a wallet.  A successful send takes the inputs of
    its transaction out of the available DBCs and records them as spent, makes
    the change available, and lowers the value of the wallet by exactly the
    amounts sent; the stored balance is recomputed only when there is change
    and is stale otherwise.  A failed send leaves the wallet as it was, and
    sending never panics. *)
Theorem local_send_conserves (HT : TokenLaws) (HD : DbcLaws) (HO : DbcOwnerLaws) bld to reason rnds rnd w w' r :
  wallet_inv w → (value (key w) (available_dbcs (wallet w)) < two64)%Z → length rnds = length to →
  fresh_change w (zip_with (λ p r, (p.1, p.2, r)) to rnds) rnd →
  local_send bld to reason rnds rnd w = (w', r) →
  match r with
  | Ok out => after_spend w out (Zsum (as_nano ∘ fst <$> to)) w' ∧ wallet_inv w'
  | Err _ => w' = w
  | Panic _ => False
  end.
Proof. apply local_send_spec. Qed.

(** C16: whatever sequence of deposits, sends and storage payments a wallet goes
    through, a DBC that it has spent stays recorded as spent and is never
    offered again, not even when it is deposited again; and every DBC on offer
    is filed under its own id with a key that can spend it. *)
Theorem spent_dbc_never_offered (HT : TokenLaws) (HD : DbcLaws) (HO : DbcOwnerLaws) bld k dir w w' :
  rtc (wallet_step bld) (new_wallet k dir) w → rtc (wallet_step bld) w w' →
  (∀ id d, spent_dbcs (wallet w) !! id = Some d →
     spent_dbcs (wallet w') !! id = Some d ∧ ∀ d' dk, (d', dk) ∈ LocalWallet_available_dbcs w' → dbc_id_of d' ≠ id) ∧
  (∀ d dk, (d, dk) ∈ LocalWallet_available_dbcs w' →
     available_dbcs (wallet w') !! dbc_id_of d = Some d ∧ dbc_derived_key d (key w') = Some dk).
Proof.
  intros H1 H2. destruct (steps_keep_spent bld _ _ H1 (new_wallet_inv k dir)) as [Hinv _].
  destruct (steps_keep_spent bld _ _ H2 Hinv) as [Hinv' Hsub].
  assert (∀ d dk, (d, dk) ∈ LocalWallet_available_dbcs w' →
     available_dbcs (wallet w') !! dbc_id_of d = Some d ∧ dbc_derived_key d (key w') = Some dk) as Hav.
  { intros d dk Hin. destruct (elem_of_available _ _ _ Hin) as [[id Hd] Hk].
    by destruct (inv_available _ Hinv' _ _ Hd) as [<- _]. }
  split; [|exact Hav]. intros id d Hd. split; [by eapply lookup_weaken|].
  intros d' dk Hin <-. destruct (Hav _ _ Hin) as [Hl _].
  exact (proj1 (map_disjoint_spec _ _) (inv_disjoint _ Hinv') _ _ _ Hl (lookup_weaken _ _ _ _ Hd Hsub)).
Qed.

End Properties.

(** ** The properties at concrete values *)

Definition toy_mk : MainKey := Byte.x01.

Definition toy_wallet : LocalWallet :=
  (deposit Debug [toy_dbc Byte.x0a 5; toy_dbc Byte.x0c 10] (new_wallet toy_mk [])).1.

Lemma toy_wallet_step : wallet_step Debug (new_wallet toy_mk []) toy_wallet.
Proof.
  apply (step_deposit _ [toy_dbc Byte.x0a 5; toy_dbc Byte.x0c 10]). unfold toy_wallet.
  destruct (deposit _ _ _) as [w r] eqn:E. assert (r = Ok tt) as ->; [|done].
  change r with (w, r).2. rewrite <- E. by_compute.
Defined.

Definition toy_to : list (Token * PublicAddress) := [(toy_tok 12, (Byte.x02 : byte))].

Definition toy_sent : LocalWallet * Res WalletError TransferOutputs :=
  local_send Debug toy_to [] [[Byte.x44]] [Byte.x55] toy_wallet.

Lemma toy_fresh : fresh_change toy_wallet (zip_with (λ p r, (p.1, p.2, r)) toy_to [[Byte.x44]]) [Byte.x55].
Proof.
  split_and!; [by_compute|by_compute|]. intros r Hr. apply list_elem_of_singleton in Hr as ->. by_compute.
Defined.

(** 12 of 15 nanos are sent: the value of the wallet falls to 3. *)
Lemma local_send_conserves_witness :
  value toy_mk (available_dbcs (wallet toy_sent.1)) = 3%Z.
Proof.
  assert (is_ok toy_sent.2 = true) as Hok by by_compute.
  pose proof (local_send_conserves _ _ _ Debug toy_to [] [[Byte.x44]] [Byte.x55] toy_wallet toy_sent.1 toy_sent.2) as H.
  destruct toy_sent.2 as [out|e|p] eqn:E; [|done..].
  destruct H as [Has _].
  - apply (step_keeps_spent Debug _ _ toy_wallet_step), new_wallet_inv.
  - by_compute.
  - done.
  - exact toy_fresh.
  - rewrite <- E. unfold toy_sent. by destruct (local_send _ _ _ _ _ _).
  - transitivity (value (key toy_wallet) (available_dbcs (wallet toy_wallet)) - Zsum (as_nano ∘ fst <$> toy_to))%Z;
      [exact (as_value _ _ _ _ Has)|by_compute].
Defined.

Lemma spent_dbc_never_offered_witness :
  spent_dbcs (wallet toy_sent.1) ≠ ∅ ∧
  (∀ id d, spent_dbcs (wallet toy_sent.1) !! id = Some d →
   ∀ d' dk, (d', dk) ∈ LocalWallet_available_dbcs toy_sent.1 → dbc_id_of d' ≠ id).
Proof.
  destruct (spent_dbc_never_offered _ _ _ Debug toy_mk [] toy_sent.1 toy_sent.1) as [H _].
  - eapply rtc_l; [exact toy_wallet_step|]. apply rtc_once.
    apply (step_send Debug toy_to [] [[Byte.x44]] [Byte.x55] toy_wallet toy_sent.1 toy_sent.2);
      [by_compute|done|exact toy_fresh|]. unfold toy_sent. by destruct (local_send _ _ _ _ _ _).
  - done.
  - split; [by_compute|]. intros id d Hd. by apply (H id d).
Defined.
