(* ===== verification/WalletFiles.v ===== *)
(** * sn_transfers: the wallet directory

    - [store_wallet], [get_wallet], [store_created_dbcs], [load_received_dbcs]:
      src/sn_transfers/src/wallet/wallet_file.rs;
    - [store_new_keypair], [get_main_key] and the parsing of keys:
      src/sn_transfers/src/wallet/keys.rs;
    - [load_from], [LocalWallet_store], [try_load_deposits]:
      src/sn_transfers/src/wallet/local_store.rs;
    - [load_genesis_wallet], [create_faucet_wallet]:
      src/sn_transfers/src/dbc_genesis.rs.

    The code is a program over the operations of the file system ([FsOp]), any
    of which can fail.  [fs_step] says what the operations do to the files: a
    write that fails can leave a part of the contents behind. *)

From S2P Require Import Prelude Deps ToyCrates Registers Protocol Transfers Payments Effects Wallet.
From stdpp Require Import base tactics list gmap sorting strings.
From Stdlib Require Import ZArith NArith Strings.Byte Lia.

(** ** The file system *)

(** [WalkFiles] is the files that [WalkDir] finds, what it cannot read left out;
    [ReceivedDbcsPath] is the environment variable, [DataDir] the data directory
    of the user. *)
Inductive FsOp :=
| IsFile (p : Path)
| ReadFile (p : Path)
| ReadToString (p : Path)
| WriteFile (p : Path) (contents : bytes)
| CreateDirAll (p : Path)
| WalkFiles (p : Path)
| ReceivedDbcsPath
| DataDir.

(** [None] is an I/O error, or a variable or directory that is not there. *)
Definition FsAns (op : FsOp) : Type :=
  match op with
  | IsFile _ => bool
  | ReadFile _ | ReadToString _ => option bytes
  | WriteFile _ _ | CreateDirAll _ => option unit
  | WalkFiles _ => list Path
  | ReceivedDbcsPath | DataDir => option Path
  end.

Notation FsProg := (Prog FsAns).

(** The White_Space characters of Unicode in UTF-8. *)
Definition white_space : list bytes :=
  [[Byte.x09]; [Byte.x0a]; [Byte.x0b]; [Byte.x0c]; [Byte.x0d]; [Byte.x20]; [Byte.xc2; Byte.x85]; [Byte.xc2; Byte.xa0];
   [Byte.xe1; Byte.x9a; Byte.x80]; [Byte.xe2; Byte.x80; Byte.x80]; [Byte.xe2; Byte.x80; Byte.x81];
   [Byte.xe2; Byte.x80; Byte.x82]; [Byte.xe2; Byte.x80; Byte.x83]; [Byte.xe2; Byte.x80; Byte.x84];
   [Byte.xe2; Byte.x80; Byte.x85]; [Byte.xe2; Byte.x80; Byte.x86]; [Byte.xe2; Byte.x80; Byte.x87];
   [Byte.xe2; Byte.x80; Byte.x88]; [Byte.xe2; Byte.x80; Byte.x89]; [Byte.xe2; Byte.x80; Byte.x8a];
   [Byte.xe2; Byte.x80; Byte.xa8]; [Byte.xe2; Byte.x80; Byte.xa9]; [Byte.xe2; Byte.x80; Byte.xaf];
   [Byte.xe2; Byte.x81; Byte.x9f]; [Byte.xe3; Byte.x80; Byte.x80]].

(** Drop characters of a list from the front, as long as there are any. *)
Fixpoint strip_front (chars : list bytes) (fuel : nat) (b : bytes) : bytes :=
  match fuel with
  | 0 => b
  | S fuel =>
      match list_find (λ c, c `prefix_of` b) chars with
      | Some (_, c) => strip_front chars fuel (drop (length c) b)
      | None => b
      end
  end.

(** [str::trim]. *)
Definition trim (b : bytes) : bytes :=
  let front := strip_front white_space (length b) b in
  reverse (strip_front (reverse <$> white_space) (length front) (reverse front)).

(** [?] on an I/O result. *)
Definition io {E A : Type} (e : E) (r : option A) : FsProg E A := lift (ok_or r e).

Section WalletFiles.
Context `{BLS : BlsCrate, XN : XorNameCrate, HX : HexCrate}.
Context `{TK : TokenCrate, DI : DbcIdCrate, SD : !SnDbcCrate, DC : !DbcCrate, DT : !DbcTextCrate}.
Context `{BW : Bincode KeyLessWallet}.
Context (bld : Build).

(** ** keys.rs *)

Definition MAIN_KEY_FILENAME : string := "main_key".
Definition PUBLIC_ADDRESS_FILENAME : string := "public_address".

Definition bls_secret_from_hex (hex : bytes) : Res WalletError SecretKey :=
  b ← ok_or (hex_decode (String.string_of_list_byte hex)) FailedToDecodeHexToKey;
  if decide (length b = SK_SIZE) then ok_or (sk_from_bytes b) BlsError else Err FailedToParseBlsKey.

Definition bls_public_from_hex (hex : bytes) : Res WalletError PublicKey :=
  b ← ok_or (hex_decode (String.string_of_list_byte hex)) FailedToDecodeHexToKey;
  if decide (length b = PK_SIZE) then ok_or (pk_from_bytes b) BlsError else Err FailedToParseBlsKey.

Definition parse_public_address (hex : bytes) : Res WalletError PublicAddress :=
  pk ← bls_public_from_hex hex; Ok (pa_new pk).

(** The bytes of [hex::encode]. *)
Definition hex_text (b : bytes) : bytes := String.list_byte_of_string (hex_encode b).

Definition store_new_keypair (dir : Path) (main_key : MainKey) : FsProg WalletError unit :=
  let secret_key_path := dir ++ [MAIN_KEY_FILENAME] in
  let public_key_path := dir ++ [PUBLIC_ADDRESS_FILENAME] in
  written ← call (WriteFile secret_key_path (hex_text (mk_to_bytes main_key)));
  _ ← io WalletIo written;
  written ← call (WriteFile public_key_path (hex_text (pa_to_bytes (mk_public_address main_key))));
  io FailedToHexEncodeKey written.

Definition get_main_key (dir : Path) : FsProg WalletError (option MainKey) :=
  let path := dir ++ [MAIN_KEY_FILENAME] in
  is_file ← call (IsFile path);
  if negb is_file then lift (Ok None)
  else
    read ← call (ReadFile path);
    secret_hex_bytes ← io WalletIo read;
    secret ← lift (bls_secret_from_hex secret_hex_bytes);
    lift (Ok (Some (mk_new secret))).

(** ** wallet_file.rs *)

Definition WALLET_FILE_NAME : string := "wallet".
Definition CREATED_DBCS_DIR_NAME : string := "created_dbcs".
Definition RECEIVED_DBCS_DIR_NAME : string := "received_dbcs".

Definition create_received_dbcs_dir (dir : Path) : FsProg WalletError unit :=
  created ← call (CreateDirAll (dir ++ [RECEIVED_DBCS_DIR_NAME])); io WalletIo created.

Definition store_wallet (dir : Path) (w : KeyLessWallet) : FsProg WalletError unit :=
  let wallet_path := dir ++ [WALLET_FILE_NAME] in
  b ← io BincodeError (bincode_serialize w);
  written ← call (WriteFile wallet_path b);
  io WalletIo written.

Definition get_wallet (dir : Path) : FsProg WalletError (option KeyLessWallet) :=
  let path := dir ++ [WALLET_FILE_NAME] in
  is_file ← call (IsFile path);
  if negb is_file then lift (Ok None)
  else
    read ← call (ReadFile path);
    b ← io WalletIo read;
    w ← io BincodeError (bincode_deserialize b);
    lift (Ok (Some w)).

Definition public_address_name (a : PublicAddress) : XorName := from_content (pa_to_bytes a).

(** Where a created DBC is stored. *)
Definition created_dbc_dir (dir : Path) (dbc : Dbc) : Path :=
  dir ++ [CREATED_DBCS_DIR_NAME; String.append "public_address_" (hex_encode (public_address_name (dbc_public_address dbc)))].
Definition created_dbc_path (dir : Path) (dbc : Dbc) : Path :=
  created_dbc_dir dir dbc ++ [String.append (hex_encode (dbc_xorname (DbcAddress_from_dbc_id (dbc_id_of dbc)))) ".dbc"].

Definition store_created_dbcs (created_dbcs : list Dbc) (dir : Path) : FsProg WalletError unit :=
  prog_fold (λ _ dbc,
    created ← call (CreateDirAll (created_dbc_dir dir dbc));
    _ ← io WalletIo created;
    hex ← io DbcError (dbc_to_hex dbc);
    written ← call (WriteFile (created_dbc_path dir dbc) (String.list_byte_of_string hex));
    io WalletIo written) tt created_dbcs.

Definition load_received_dbcs (dir : Path) : FsProg WalletError (list Dbc) :=
  from_env ← call ReceivedDbcsPath;
  let received_dbcs_path := default (dir ++ [RECEIVED_DBCS_DIR_NAME]) from_env in
  files ← call (WalkFiles received_dbcs_path);
  prog_fold (λ deposits path,
    read ← call (ReadToString path);
    dbc_data ← io WalletIo read;
    lift (Ok (match dbc_from_hex (String.string_of_list_byte (trim dbc_data)) with
              | Some dbc => deposits ++ [dbc]
              | None => deposits
              end))) [] files.

(** ** local_store.rs *)

Definition WALLET_DIR_NAME : string := "wallet".

(** The two halves of [load_from_path]; [new_key] is the random key. *)
Definition load_or_create_key (new_key : MainKey) (dir : Path) : FsProg WalletError MainKey :=
  found ← get_main_key dir;
  match found with
  | Some k => lift (Ok k)
  | None => _ ← store_new_keypair dir new_key; lift (Ok new_key)
  end.

Definition load_or_create_wallet (dir : Path) : FsProg WalletError KeyLessWallet :=
  stored ← get_wallet dir;
  match stored with
  | Some w => lift (Ok w)
  | None =>
      let w := KeyLessWallet_new in
      _ ← store_wallet dir w;
      _ ← create_received_dbcs_dir dir;
      lift (Ok w)
  end.

Definition load_from_path (new_key : MainKey) (dir : Path) : FsProg WalletError (MainKey * KeyLessWallet) :=
  k ← load_or_create_key new_key dir;
  w ← load_or_create_wallet dir;
  lift (Ok (k, w)).

Definition load_from (new_key : MainKey) (root_dir : Path) : FsProg WalletError LocalWallet :=
  let dir := root_dir ++ [WALLET_DIR_NAME] in
  created ← call (CreateDirAll dir);
  _ ← io WalletIo created;
  '(k, w) ← load_from_path new_key dir;
  lift (Ok {| key := k; wallet := w; wallet_dir := dir |}).

Definition LocalWallet_store (w : LocalWallet) : FsProg WalletError unit := store_wallet (wallet_dir w) (wallet w).

Definition store_created_dbc (dbc : Dbc) (w : LocalWallet) : FsProg WalletError unit :=
  store_created_dbcs [dbc] (wallet_dir w).

Definition try_load_deposits : StP FsAns LocalWallet WalletError unit := λ w,
  deposited ← attempt (load_received_dbcs (wallet_dir w));
  match deposited with
  | Ok dbcs => Done (Ok (deposit bld dbcs w))
  | Err e => Done (Ok (w, Err e))
  | Panic p => Done (Panic p)
  end.

(** ** dbc_genesis.rs: the wallets of the genesis DBC and of the faucet *)

(** A directory of the data directory. *)
Definition get_data_dir (name : string) : FsProg WalletError Path :=
  data ← call DataDir;
  data_dirs ← expect (io WalletIo data);
  let dir := data_dirs ++ ["safe"%string; name] in
  created ← call (CreateDirAll dir);
  _ ← expect (io WalletIo created);
  lift (Ok dir).

Definition get_genesis_dir : FsProg WalletError Path := get_data_dir "test_genesis".
Definition get_faucet_dir : FsProg WalletError Path := get_data_dir "test_faucet".

Context (main_key_from_hex : string → option MainKey).

Definition create_genesis_wallet (new_key : MainKey) : FsProg WalletError LocalWallet :=
  root_dir ← get_genesis_dir;
  let dir := root_dir ++ ["wallet"%string] in
  created ← call (CreateDirAll dir);
  _ ← expect (io WalletIo created);
  main_key ← expect (io BlsError (main_key_from_hex GENESIS_DBC_SK));
  written ← call (WriteFile (dir ++ ["main_key"%string]) (hex_text (mk_to_bytes main_key)));
  _ ← expect (io WalletIo written);
  expect (load_from new_key root_dir).

Definition load_genesis_wallet (new_key : MainKey) : FsProg WalletError LocalWallet :=
  genesis_wallet ← create_genesis_wallet new_key;
  genesis_dbc ← lift (map_err (λ _, DbcError) (GENESIS_DBC main_key_from_hex));
  let '(genesis_wallet, deposited) := deposit bld [genesis_dbc] genesis_wallet in
  _ ← lift deposited;
  _ ← expect (LocalWallet_store genesis_wallet);
  lift (Ok genesis_wallet).

Definition create_faucet_wallet (new_key : MainKey) : FsProg WalletError LocalWallet :=
  root_dir ← get_faucet_dir;
  expect (load_from new_key root_dir).

End WalletFiles.

(** ** What the operations do to the files *)

Inductive FsNode := File (contents : bytes) | Dir.
Notation Fs := (gmap Path FsNode).

Definition is_file (fs : Fs) (p : Path) : bool := match fs !! p with Some (File _) => true | _ => false end.

(** A directory and those above it, where there is nothing yet. *)
Definition make_dirs (p : Path) (fs : Fs) : Fs :=
  fs ∪ list_to_map ((λ n, (take n p, Dir)) <$> seq 0 (S (length p))).

Definition fs_step (fs : Fs) (ev : Event FsAns) (fs' : Fs) : Prop :=
  match ev with
  | existT op a =>
      match op return FsAns op → Prop with
      | IsFile p => λ a, a = is_file fs p ∧ fs' = fs
      | ReadFile p | ReadToString p => λ a, (∀ b, a = Some b → fs !! p = Some (File b)) ∧ fs' = fs
      | WriteFile p b => λ a,
          match a with
          | Some _ => fs !! p ≠ Some Dir ∧ fs' = <[p := File b]> fs
          | None => fs' = fs ∨ (fs !! p ≠ Some Dir ∧ ∃ part, part `prefix_of` b ∧ fs' = <[p := File part]> fs)
          end
      | CreateDirAll p => λ a,
          match a with
          | Some _ => fs' = make_dirs p fs
          | None => ∃ q, q `prefix_of` p ∧ fs' = make_dirs q fs
          end
      | WalkFiles p => λ a, (∀ q, q ∈ a → p `prefix_of` q ∧ is_file fs q = true) ∧ fs' = fs
      | ReceivedDbcsPath | DataDir => λ _, fs' = fs
      end a
  end.

Fixpoint fs_run (fs : Fs) (tr : list (Event FsAns)) (fs' : Fs) : Prop :=
  match tr with
  | [] => fs' = fs
  | ev :: tr => ∃ fs1, fs_step fs ev fs1 ∧ fs_run fs1 tr fs'
  end.

(** An operation that failed. *)
Definition io_failed (ev : Event FsAns) : bool :=
  match ev with
  | existT op a =>
      match op return FsAns op → bool with
      | ReadFile _ | ReadToString _ | WriteFile _ _ | CreateDirAll _ => λ a, bool_decide (a = None)
      | _ => λ _, false
      end a
  end.

(** All the outcomes of a program on a file system: the files, whether an
    operation failed, and the result. *)
Fixpoint wp {E A : Type} (p : FsProg E A) (Q : Fs → bool → Res E A → Prop) (fs : Fs) (failed : bool) : Prop :=
  match p with
  | Done r => Q fs failed r
  | Vis op k => ∀ a fs', fs_step fs (existT op a) fs' → wp (k a) Q fs' (failed || io_failed (existT op a))
  end.

(** ** Lemmas *)

Lemma fs_run_app fs t1 t2 fs' : fs_run fs (t1 ++ t2) fs' ↔ ∃ fs1, fs_run fs t1 fs1 ∧ fs_run fs1 t2 fs'.
Proof.
  revert fs. induction t1 as [|ev t1 IH]; intros fs; cbn.
  - split; [by exists fs|by intros (? & -> & ?)].
  - setoid_rewrite IH. naive_solver.
Qed.

Lemma make_dirs_file p fs q b : make_dirs p fs !! q = Some (File b) ↔ fs !! q = Some (File b).
Proof.
  unfold make_dirs. rewrite lookup_union_Some_raw. split; [|by left].
  intros [H|[_ H]]; [done|]. apply elem_of_list_to_map_2, list_elem_of_fmap in H as (n & [=] & _).
Qed.

Lemma wp_exec {E A} (p : FsProg E A) Q fs failed tr r fs' :
  wp p Q fs failed → exec p tr r → fs_run fs tr fs' → Q fs' (failed || existsb io_failed tr) r.
Proof.
  revert fs failed tr. induction p as [r0|op k IH]; intros fs failed tr Hw; cbn.
  - intros [-> ->]%exec_done_inv. cbn. intros ->. by rewrite orb_false_r.
  - intros (a & t & -> & He)%exec_vis_inv. cbn [fs_run existsb]. intros (fs1 & Hs & Hr). rewrite orb_assoc.
    eapply IH; [|exact He|exact Hr]. by apply Hw.
Qed.

Lemma wp_mono {E A} (p : FsProg E A) (Q Q' : Fs → bool → Res E A → Prop) fs failed :
  wp p Q fs failed → (∀ fs f r, Q fs f r → Q' fs f r) → wp p Q' fs failed.
Proof.
  intros Hw HQ. revert fs failed Hw. induction p as [r|op k IH]; intros fs failed; cbn; [apply HQ|].
  intros Hw a fs' Hs. by apply IH, Hw.
Qed.

Lemma wp_bind {E A B} (p : FsProg E A) (k : A → FsProg E B) Q fs failed :
  wp p (λ fs f r, match r with Ok a => wp (k a) Q fs f | Err e => Q fs f (Err e) | Panic w => Q fs f (Panic w) end) fs failed →
  wp (x ← p; k x) Q fs failed.
Proof.
  unfold mbind, Prog_bind. revert fs failed. induction p as [[| |]|op c IH]; intros fs failed; cbn; try done.
  intros Hw a fs' Hs. by apply IH, Hw.
Qed.

Lemma wp_call {E B} op (k : FsAns op → FsProg E B) Q fs failed :
  (∀ a fs', fs_step fs (existT op a) fs' → wp (k a) Q fs' (failed || io_failed (existT op a))) →
  wp (x ← call op; k x) Q fs failed.
Proof. done. Qed.

Lemma wp_attempt {E F A} (p : FsProg E A) (Q : Fs → bool → Res F (Res E A) → Prop) fs failed :
  wp p (λ fs f r, match r with Panic w => Q fs f (Panic w) | r => Q fs f (Ok r) end) fs failed → wp (attempt p) Q fs failed.
Proof.
  revert fs failed. induction p as [[| |]|op c IH]; intros fs failed; cbn; try done.
  intros Hw a fs' Hs. by apply IH, Hw.
Qed.

Section WalletFilesLemmas.
Context `{BLS : BlsCrate, XN : XorNameCrate, HX : HexCrate}.
Context `{TK : TokenCrate, DI : DbcIdCrate, SD : !SnDbcCrate, DC : !DbcCrate, DT : !DbcTextCrate}.
Context `{BW : Bincode KeyLessWallet}.
Context `{HL : !HexLaws, DTL : !DbcTextLaws, BWL : !BincodeLaws KeyLessWallet}.

(** The key and the wallet that a directory holds. *)
Definition key_on_disk (fs : Fs) (dir : Path) (k : MainKey) : Prop :=
  ∃ b sk, fs !! (dir ++ [MAIN_KEY_FILENAME]) = Some (File b) ∧ bls_secret_from_hex b = Ok sk ∧ mk_new sk = k.
Definition wallet_on_disk (fs : Fs) (dir : Path) (w : KeyLessWallet) : Prop :=
  ∃ b, fs !! (dir ++ [WALLET_FILE_NAME]) = Some (File b) ∧ bincode_deserialize b = Some w.

(** What a directory without a key or a wallet is loaded as. *)
Definition key_loaded (fs : Fs) (dir : Path) (new_key k : MainKey) : Prop :=
  key_on_disk fs dir k ∨ (∀ b, fs !! (dir ++ [MAIN_KEY_FILENAME]) ≠ Some (File b)) ∧ k = new_key.
Definition wallet_loaded (fs : Fs) (dir : Path) (w : KeyLessWallet) : Prop :=
  wallet_on_disk fs dir w ∨ (∀ b, fs !! (dir ++ [WALLET_FILE_NAME]) ≠ Some (File b)) ∧ w = KeyLessWallet_new.

Lemma hex_text_secret k : ∃ sk, bls_secret_from_hex (hex_text (mk_to_bytes k)) = Ok sk ∧ mk_new sk = k.
Proof.
  destruct (mk_bytes k) as [Hl (sk & Hsk & Hk)]. exists sk. split; [|done].
  unfold bls_secret_from_hex, hex_text. rewrite String.string_of_list_byte_of_string, hex_decode_encode. cbn.
  by rewrite decide_True, Hsk.
Qed.

Lemma hex_text_public a : parse_public_address (hex_text (pa_to_bytes a)) = Ok a.
Proof.
  destruct (pa_bytes a) as [Hl (pk & Hpk & Ha)]. unfold parse_public_address, bls_public_from_hex, hex_text.
  rewrite String.string_of_list_byte_of_string, hex_decode_encode. cbn. rewrite decide_True, Hpk by done. cbn. by rewrite Ha.
Qed.

Lemma is_file_true (fs : Fs) p : is_file fs p = true → ∃ b, fs !! p = Some (File b).
Proof. unfold is_file. destruct (fs !! p) as [[b|]|]; [by exists b|done|done]. Qed.
Lemma is_file_false (fs : Fs) p b : is_file fs p = false → fs !! p ≠ Some (File b).
Proof. unfold is_file. intros H Hp. by rewrite Hp in H. Qed.

Lemma get_main_key_wp dir fs failed :
  wp (get_main_key dir) (λ fs' failed' r, fs' = fs ∧
    match r with
    | Ok (Some k) => key_on_disk fs dir k ∧ failed' = failed
    | Ok None => (∀ b, fs !! (dir ++ [MAIN_KEY_FILENAME]) ≠ Some (File b)) ∧ failed' = failed
    | Err e => ∀ k, key_on_disk fs dir k → e = WalletIo ∧ failed' = true
    | Panic _ => False
    end) fs failed.
Proof.
  cbn. intros a fs1 [-> ->]. rewrite orb_false_r. destruct (is_file _ _) eqn:Hf; cbn.
  2: { split; [done|]. split; [|done]. intros b. by apply is_file_false. }
  intros [b|] fs2 [Hb ->]; cbn; [rewrite orb_false_r|by rewrite orb_true_r].
  specialize (Hb b eq_refl). destruct (bls_secret_from_hex b) as [sk|e|w] eqn:Hs; cbn.
  - split; [done|]. split; [|done]. by exists b, sk.
  - split; [done|]. intros k (b' & sk & Hb' & Hs' & _). rewrite Hb in Hb'. injection Hb' as <-. congruence.
  - unfold bls_secret_from_hex in Hs. destruct (hex_decode _) as [l|]; [|done]. cbn in Hs. case_decide; [|done].
    by destruct (sk_from_bytes l).
Qed.

Lemma get_wallet_wp dir fs failed :
  wp (get_wallet dir) (λ fs' failed' r, fs' = fs ∧
    match r with
    | Ok (Some w) => wallet_on_disk fs dir w ∧ failed' = failed
    | Ok None => (∀ b, fs !! (dir ++ [WALLET_FILE_NAME]) ≠ Some (File b)) ∧ failed' = failed
    | Err e => ∀ w, wallet_on_disk fs dir w → e = WalletIo ∧ failed' = true
    | Panic _ => False
    end) fs failed.
Proof.
  cbn. intros a fs1 [-> ->]. rewrite orb_false_r. destruct (is_file _ _) eqn:Hf; cbn.
  2: { split; [done|]. split; [|done]. intros b. by apply is_file_false. }
  intros [b|] fs2 [Hb ->]; cbn; [rewrite orb_false_r|by rewrite orb_true_r].
  specialize (Hb b eq_refl). destruct (bincode_deserialize b) as [w|] eqn:Hs; cbn.
  - split; [done|]. split; [|done]. by exists b.
  - split; [done|]. intros w (b' & Hb' & Hs'). rewrite Hb in Hb'. injection Hb' as <-. congruence.
Qed.

Lemma sibling_ne (dir : Path) x y : x ≠ y → dir ++ [x] ≠ dir ++ [y].
Proof. intros Hne H. apply app_inv_head in H. congruence. Qed.

(** A write, whatever its outcome, touches no other file. *)
Lemma write_step_other (fs fs' : Fs) p b (a : option unit) q :
  fs_step fs (existT (WriteFile p b) a) fs' → q ≠ p → fs' !! q = fs !! q.
Proof.
  cbn. destruct a; intros H Hq.
  - destruct H as [_ ->]. by rewrite lookup_insert_ne.
  - destruct H as [->|(_ & part & _ & ->)]; [done|]. by rewrite lookup_insert_ne.
Qed.

Lemma create_step_files (fs fs' : Fs) p (a : option unit) :
  fs_step fs (existT (CreateDirAll p) a) fs' → ∀ q b, fs' !! q = Some (File b) ↔ fs !! q = Some (File b).
Proof. cbn. destruct a; [intros ->|intros (r & _ & ->)]; intros q b; apply make_dirs_file. Qed.

Lemma store_new_keypair_wp dir k fs failed :
  wp (store_new_keypair dir k) (λ fs' failed' r,
    (∀ q, q ≠ dir ++ [MAIN_KEY_FILENAME] → q ≠ dir ++ [PUBLIC_ADDRESS_FILENAME] → fs' !! q = fs !! q) ∧
    match r with
    | Ok _ => key_on_disk fs' dir k ∧ failed' = failed
    | Err _ => failed' = true
    | Panic _ => False
    end) fs failed.
Proof.
  cbn [wp store_new_keypair call mbind Prog_bind prog_bind]. intros a1 fs1 H1. pose proof (λ q, write_step_other _ _ _ _ _ q H1) as Ho1.
  destruct a1 as [[]|]; cbn; [|by rewrite orb_true_r; auto]. destruct H1 as [_ ->]. rewrite orb_false_r.
  intros a2 fs2 H2. pose proof (λ q, write_step_other _ _ _ _ _ q H2) as Ho2.
  destruct a2 as [[]|]; cbn; rewrite ?orb_true_r, ?orb_false_r.
  2: { split; [|done]. intros q Hq1 Hq2. by rewrite Ho2, Ho1. }
  split; [intros q Hq1 Hq2; by rewrite Ho2, Ho1|]. split; [|done].
  destruct (hex_text_secret k) as (sk & Hs & Hk). eexists _, sk. split_and!; [|exact Hs|exact Hk].
  rewrite Ho2 by (by apply sibling_ne). apply lookup_insert_eq.
Qed.

Lemma store_wallet_wp dir w fs failed :
  wp (store_wallet dir w) (λ fs' failed' r,
    (∀ q, q ≠ dir ++ [WALLET_FILE_NAME] → fs' !! q = fs !! q) ∧
    match r with
    | Ok _ => ∃ b, bincode_serialize w = Some b ∧ fs' = <[dir ++ [WALLET_FILE_NAME] := File b]> fs ∧ failed' = failed
    | Err e => bincode_serialize w = None ∨ failed' = true
    | Panic _ => False
    end) fs failed.
Proof.
  unfold store_wallet, io. destruct (bincode_serialize w) as [b|] eqn:Hb; cbn [ok_or lift mbind Prog_bind prog_bind]; [|cbn; auto].
  cbn [wp call prog_bind]. intros a1 fs1 H1. pose proof (λ q, write_step_other _ _ _ _ _ q H1) as Ho1.
  destruct a1 as [[]|]; cbn; rewrite ?orb_true_r, ?orb_false_r; [|by auto]. destruct H1 as [_ ->]. split; [done|]. by exists b.
Qed.

Lemma key_on_disk_inj fs dir k k' : key_on_disk fs dir k → key_on_disk fs dir k' → k = k'.
Proof. intros (b & sk & Hb & Hs & <-) (b' & sk' & Hb' & Hs' & <-). congruence. Qed.
Lemma wallet_on_disk_inj fs dir w w' : wallet_on_disk fs dir w → wallet_on_disk fs dir w' → w = w'.
Proof. intros (b & Hb & Hs) (b' & Hb' & Hs'). congruence. Qed.

Lemma key_on_disk_files fs fs' dir k :
  (∀ b, fs !! (dir ++ [MAIN_KEY_FILENAME]) = Some (File b) ↔ fs' !! (dir ++ [MAIN_KEY_FILENAME]) = Some (File b)) →
  key_on_disk fs dir k ↔ key_on_disk fs' dir k.
Proof. intros H. unfold key_on_disk. by setoid_rewrite H. Qed.
Lemma wallet_on_disk_files fs fs' dir w :
  (∀ b, fs !! (dir ++ [WALLET_FILE_NAME]) = Some (File b) ↔ fs' !! (dir ++ [WALLET_FILE_NAME]) = Some (File b)) →
  wallet_on_disk fs dir w ↔ wallet_on_disk fs' dir w.
Proof. intros H. unfold wallet_on_disk. by setoid_rewrite H. Qed.

Lemma load_or_create_key_wp nk dir fs failed :
  wp (load_or_create_key nk dir) (λ fs' failed' r,
    (∀ b, fs !! (dir ++ [WALLET_FILE_NAME]) = Some (File b) ↔ fs' !! (dir ++ [WALLET_FILE_NAME]) = Some (File b)) ∧
    match r with
    | Ok k => key_on_disk fs' dir k ∧ key_loaded fs dir nk k ∧ failed' = failed
    | Err e => ∀ k, key_on_disk fs dir k → e = WalletIo ∧ failed' = true
    | Panic _ => False
    end) fs failed.
Proof.
  apply wp_bind. eapply wp_mono; [apply get_main_key_wp|]. intros fs1 f [[k|]|e|w] [-> H]; [| |done|done]; destruct H as [Hk ->].
  - cbn. split_and!; [done|done|by left|done].
  - apply wp_bind. eapply wp_mono; [apply store_new_keypair_wp|]. intros fs2 f r [Ho Hr].
    assert (∀ b, fs !! (dir ++ [WALLET_FILE_NAME]) = Some (File b) ↔ fs2 !! (dir ++ [WALLET_FILE_NAME]) = Some (File b)) as Hw.
    { intros b. by rewrite Ho by (by apply sibling_ne). }
    assert (∀ k, ¬ key_on_disk fs dir k) as Hno by (intros k (b & sk & Hb & _); by apply (Hk b)).
    destruct r as [[]|e|]; cbn; [|split; [done|]; intros k H; by apply Hno in H|done].
    destruct Hr as [Hr ->]. split_and!; [done|done|by right|done].
Qed.

Lemma load_or_create_wallet_wp dir fs failed :
  wp (load_or_create_wallet dir) (λ fs' failed' r,
    (∀ k, key_on_disk fs dir k ↔ key_on_disk fs' dir k) ∧
    match r with
    | Ok w => wallet_on_disk fs' dir w ∧ wallet_loaded fs dir w ∧ failed' = failed
    | Err e => ∀ w, wallet_on_disk fs dir w → e = WalletIo ∧ failed' = true
    | Panic _ => False
    end) fs failed.
Proof.
  apply wp_bind. eapply wp_mono; [apply get_wallet_wp|]. intros fs1 f [[w|]|e|?] [-> H]; [| |done|done]; destruct H as [Hw ->].
  - cbn. split_and!; [done|done|by left|done].
  - assert (∀ w, ¬ wallet_on_disk fs dir w) as Hno by (intros w (b & Hb & _); by apply (Hw b)).
    apply wp_bind. eapply wp_mono; [apply store_wallet_wp|]. intros fs2 f r [Ho Hr].
    assert (∀ k, key_on_disk fs dir k ↔ key_on_disk fs2 dir k) as Hk.
    { intros k. apply key_on_disk_files. intros b. by rewrite Ho by (by apply sibling_ne). }
    destruct r as [[]|e|]; cbn; [|split; [done|]; intros w H; by apply Hno in H|done].
    destruct Hr as (b & Hb & -> & ->). intros a fs3 Hs. pose proof (create_step_files _ _ _ _ Hs) as Hf. clear Hs.
    assert (∀ k, key_on_disk fs dir k ↔ key_on_disk fs3 dir k) as Hk3.
    { intros k. rewrite Hk. apply key_on_disk_files. intros c. by rewrite Hf. }
    destruct a as [[]|]; cbn; [|split; [done|]; intros w H; by apply Hno in H].
    split_and!; [done| |by right|by rewrite orb_false_r].
    exists b. split; [|by apply bincode_round]. by rewrite Hf, lookup_insert_eq.
Qed.

Lemma load_from_wp nk root fs failed :
  let dir := root ++ [WALLET_DIR_NAME] in
  wp (load_from nk root) (λ fs' failed' r,
    match r with
    | Ok w => wallet_dir w = dir ∧ key_on_disk fs' dir (key w) ∧ wallet_on_disk fs' dir (wallet w) ∧
              key_loaded fs dir nk (key w) ∧ wallet_loaded fs dir (wallet w)
    | Err e => ∀ k kw, key_on_disk fs dir k → wallet_on_disk fs dir kw → e = WalletIo ∧ failed' = true
    | Panic _ => False
    end) fs failed.
Proof.
  intros dir. apply wp_call. intros a fs1 Hs.
  pose proof (create_step_files _ _ _ _ Hs) as Hf. clear Hs. destruct a as [[]|]; [|cbn; by rewrite orb_true_r].
  assert (∀ k, key_on_disk fs dir k ↔ key_on_disk fs1 dir k) as Hk1 by (intros k; apply key_on_disk_files; intros b; by rewrite Hf).
  assert (∀ w, wallet_on_disk fs dir w ↔ wallet_on_disk fs1 dir w) as Hw1 by (intros w; apply wallet_on_disk_files; intros b; by rewrite Hf).
  apply wp_bind. apply wp_bind, wp_bind. eapply wp_mono; [apply load_or_create_key_wp|]. intros fs2 f2 [k|e|] [Hwf Hr]; [| |done];
    pose proof (λ w, wallet_on_disk_files _ _ dir w Hwf) as Hw2.
  2: { intros k kw Hk _. apply (Hr k). by apply Hk1. }
  destruct Hr as (Hk & Hkk & ->). apply wp_bind. eapply wp_mono; [apply load_or_create_wallet_wp|].
  intros fs3 f3 [w|e|] [Hk3 Hr]; [| |done].
  2: { intros k' kw _ Hw. apply (Hr kw), Hw2, Hw1. exact Hw. }
  destruct Hr as (Hw & Hww & ->). cbn. split_and!; [done|by apply Hk3|done| |].
  - destruct Hkk as [H|[H ->]]; [left; by apply Hk1|right; split; [|done]]. intros b Hb. by apply (H b), Hf.
  - destruct Hww as [H|[H ->]]; [left; by apply Hw1, Hw2|right; split; [|done]]. intros b Hb. by apply (H b), Hwf, Hf.
Qed.

(** *** The text of DBCs *)

Definition is_hex_byte (x : byte) : bool := is_hex_digit (Ascii.ascii_of_byte x).

Lemma strip_front_hex chars fuel b :
  Forall (λ c, ∃ x r, c = x :: r ∧ is_hex_byte x = false) chars → Forall (λ x, is_hex_byte x = true) b →
  strip_front chars fuel b = b.
Proof.
  intros Hc Hb. destruct fuel as [|fuel]; [done|]. cbn. destruct (list_find _ chars) as [[i c]|] eqn:Hf; [|done].
  apply list_find_Some in Hf as (Hi & Hp & _). rewrite Forall_lookup in Hc. destruct (Hc _ _ Hi) as (x & r & -> & Hx).
  destruct Hp as [b' ->]. apply Forall_cons in Hb as [Hb _]. congruence.
Qed.

Lemma white_space_not_hex : Forall (λ c, ∃ x r, c = x :: r ∧ is_hex_byte x = false) white_space.
Proof. repeat constructor; by eexists _, _. Qed.
Lemma white_space_rev_not_hex : Forall (λ c, ∃ x r, c = x :: r ∧ is_hex_byte x = false) (reverse <$> white_space).
Proof. repeat constructor; by eexists _, _. Qed.

Lemma trim_hex b : Forall (λ x, is_hex_byte x = true) b → trim b = b.
Proof.
  intros Hb. unfold trim. rewrite (strip_front_hex white_space) by (done || apply white_space_not_hex).
  rewrite strip_front_hex; [by rewrite reverse_involutive|apply white_space_rev_not_hex|].
  by rewrite Forall_reverse.
Qed.

Lemma hex_bytes h :
  Forall (λ a, is_hex_digit a = true) (String.list_ascii_of_string h) →
  Forall (λ x, is_hex_byte x = true) (String.list_byte_of_string h).
Proof.
  unfold String.list_byte_of_string. intros H. apply Forall_fmap. eapply Forall_impl; [exact H|].
  intros a. unfold is_hex_byte. cbn. by rewrite Ascii.ascii_of_byte_of_ascii.
Qed.

(** The DBC that the text of a file stands for. *)
Definition dbc_of_text (b : bytes) : option Dbc := dbc_from_hex (String.string_of_list_byte (trim b)).

Lemma dbc_of_written_text d h : dbc_to_hex d = Some h → dbc_of_text (String.list_byte_of_string h) = Some d.
Proof.
  intros [Hf Hx]%dbc_hex. unfold dbc_of_text. rewrite trim_hex by (by apply hex_bytes).
  by rewrite String.string_of_list_byte_of_string.
Qed.

Definition reads (files : list Path) (contents : list bytes) : list (Event FsAns) :=
  zip_with (λ p b, existT (ReadToString p) (Some b)) files contents.

Lemma load_received_Ok dir tr dbcs :
  exec (load_received_dbcs dir) tr (Ok dbcs) →
  ∃ env files contents, length contents = length files ∧ dbcs = omap dbc_of_text contents ∧
    tr = existT ReceivedDbcsPath env :: existT (WalkFiles (default (dir ++ [RECEIVED_DBCS_DIR_NAME]) env)) files
         :: reads files contents.
Proof.
  unfold load_received_dbcs. intros He.
  apply (exec_call_inv (Ans:=FsAns) ReceivedDbcsPath) in He as (env & t1 & -> & He).
  apply (exec_call_inv (Ans:=FsAns) (WalkFiles _)) in He as (files & t2 & -> & He).
  exists env, files. cut (∀ acc, exec (prog_fold (λ deposits path,
    read ← call (ReadToString path); dbc_data ← io WalletIo read;
    lift (Ok (match dbc_of_text dbc_data with Some dbc => deposits ++ [dbc] | None => deposits end))) acc files) t2 (Ok dbcs) →
    ∃ contents, length contents = length files ∧ dbcs = acc ++ omap dbc_of_text contents ∧ t2 = reads files contents).
  { intros H. destruct (H [] He) as (contents & Hl & Hd & ->). by exists contents. }
  clear He. revert t2. induction files as [|p files IH]; intros t2 acc; cbn.
  - intros [-> [= ->]]%exec_done_inv. exists []. by rewrite app_nil_r.
  - intros (a & t3 & -> & He)%exec_vis_inv. destruct a as [b|]; cbn in He; [|by apply exec_done_inv in He as [_ [=]]].
    apply IH in He as (contents & Hl & -> & ->). exists (b :: contents). cbn. rewrite Hl. split_and!; [done| |done].
    destruct (dbc_of_text b); [by rewrite <- app_assoc|done].
Qed.

Definition walked (ev : Event FsAns) : option (list Path) :=
  match ev with
  | existT op a => match op return FsAns op → option (list Path) with WalkFiles _ => λ a, Some a | _ => λ _, None end a
  end.

Lemma walked_once p (found : list Path) p' (files : list Path) env fls contents :
  existT (WalkFiles p) found ∈ existT ReceivedDbcsPath env :: existT (WalkFiles p') files :: reads fls contents → found = files.
Proof.
  rewrite !elem_of_cons, list_elem_of_lookup. intros [H|[H|(i & H)]].
  - by apply (f_equal walked) in H.
  - by apply (f_equal walked) in H as [= ->].
  - unfold reads in H. rewrite lookup_zip_with in H. destruct (fls !! i); [|done]. destruct (contents !! i); [|done].
    cbn in H. by apply (f_equal (λ x, x ≫= walked)) in H.
Qed.

Lemma store_created_dbc_Ok d w tr fs fs' :
  exec (store_created_dbc d w) tr (Ok tt) → fs_run fs tr fs' →
  (∃ h, dbc_to_hex d = Some h ∧ fs' !! created_dbc_path (wallet_dir w) d = Some (File (String.list_byte_of_string h))) ∧
  ∀ q b, q ≠ created_dbc_path (wallet_dir w) d → fs !! q = Some (File b) → fs' !! q = Some (File b).
Proof.
  unfold store_created_dbc, store_created_dbcs. cbn. intros (a & t1 & -> & He)%exec_vis_inv.
  destruct a as [[]|]; cbn in He; [|by apply exec_done_inv in He as [_ [=]]].
  destruct (dbc_to_hex d) as [h|] eqn:Hh; cbn in He; [|by apply exec_done_inv in He as [_ [=]]].
  apply exec_vis_inv in He as (a & t2 & -> & He). destruct a as [[]|]; cbn in He; [|by apply exec_done_inv in He as [_ [=]]].
  apply exec_done_inv in He as [-> _]. intros (fs1 & Hs & fs2 & [_ ->] & ->). split.
  - exists h. split; [done|]. apply lookup_insert_eq.
  - intros q b Hq Hb. rewrite lookup_insert_ne by done. by apply (create_step_files _ _ _ _ Hs).
Qed.

(** Loading and storing, on a run of the file system. *)
Lemma load_from_run nk root fs tr w fs' :
  exec (load_from nk root) tr (Ok w) → fs_run fs tr fs' →
  wallet_dir w = root ++ [WALLET_DIR_NAME] ∧ key_on_disk fs' (wallet_dir w) (key w) ∧ wallet_on_disk fs' (wallet_dir w) (wallet w) ∧
  key_loaded fs (wallet_dir w) nk (key w) ∧ wallet_loaded fs (wallet_dir w) (wallet w).
Proof.
  intros He Hr. pose proof (wp_exec _ _ _ _ _ _ _ (load_from_wp nk root fs false) He Hr) as (Hd & H).
  rewrite Hd. by split.
Qed.

Lemma LocalWallet_store_run w fs tr fs' :
  exec (LocalWallet_store w) tr (Ok tt) → fs_run fs tr fs' →
  wallet_on_disk fs' (wallet_dir w) (wallet w) ∧ ∀ q, q ≠ wallet_dir w ++ [WALLET_FILE_NAME] → fs' !! q = fs !! q.
Proof.
  intros He Hr. pose proof (wp_exec _ _ _ _ _ _ _ (store_wallet_wp _ _ fs false) He Hr) as [Ho (b & Hb & -> & _)].
  split; [|done]. exists b. split; [apply lookup_insert_eq|by apply bincode_round].
Qed.

Lemma reads_run fs files contents fs' :
  length contents = length files → fs_run fs (reads files contents) fs' →
  fs' = fs ∧ Forall2 (λ p b, fs !! p = Some (File b)) files contents.
Proof.
  revert contents. induction files as [|p files IH]; intros [|b contents]; cbn; try done.
  intros [= Hl] (fs1 & [Hb ->] & Hr). destruct (IH _ Hl Hr) as [-> Hall]. split; [done|]. constructor; [by apply Hb|done].
Qed.

Lemma create_genesis_wallet_key main_key_from_hex nk k w fs tr fs' :
  main_key_from_hex GENESIS_DBC_SK = Some k →
  exec (create_genesis_wallet main_key_from_hex nk) tr (Ok w) → fs_run fs tr fs' → key w = k.
Proof.
  intros Hk He Hr. unfold create_genesis_wallet in He. rewrite Hk in He.
  apply exec_bind_Ok in He as (root & t1 & t2 & -> & _ & He). apply fs_run_app in Hr as (fs1 & _ & Hr).
  apply exec_vis_inv in He as (a & t3 & -> & He). destruct Hr as (fs2 & _ & Hr).
  apply exec_bind_Ok in He as ([] & t4 & t5 & -> & H1%exec_expect_Ok%exec_lift_inv & He). destruct H1 as [-> _].
  apply exec_bind_Ok in He as (k' & t6 & t7 & -> & H1%exec_expect_Ok%exec_lift_inv & He). destruct H1 as [-> [= ->]].
  apply exec_vis_inv in He as (b & t8 & -> & He). cbn [app] in Hr. destruct Hr as (fs3 & Hs & Hr).
  apply exec_bind_Ok in He as ([] & t9 & t10 & -> & H1%exec_expect_Ok%exec_lift_inv & He%exec_expect_Ok). destruct H1 as [-> Hb].
  destruct b as [[]|]; [|done]. destruct Hs as [_ ->].
  destruct (load_from_run _ _ _ _ _ _ He Hr) as (Hd & _ & _ & Hl & _). rewrite Hd in Hl.
  destruct (hex_text_secret k) as (sk & Hsk & Hkk).
  assert (key_on_disk (<[(root ++ ["wallet"%string]) ++ ["main_key"%string] := File (hex_text (mk_to_bytes k))]> fs2)
            (root ++ [WALLET_DIR_NAME]) k) as Hkd.
  { exists (hex_text (mk_to_bytes k)), sk. split_and!; [apply lookup_insert_eq|done|done]. }
  destruct Hl as [Hl|[Hno _]]; [by eapply key_on_disk_inj|]. destruct Hkd as (c & ? & Hc & _). by apply Hno in Hc.
Qed.

Lemma collect_map_is_Some {A} (l : list (DbcId * A)) id x : (id, x) ∈ l → is_Some (collect_map l !! id).
Proof.
  unfold collect_map. intros Hin. cut (∀ m : gmap DbcId A, (id, x) ∈ l ∨ is_Some (m !! id) →
    is_Some (foldl (λ m p, <[p.1 := p.2]> m) m l !! id)); [by intros H; apply H; left|]. clear Hin.
  induction l as [|[i y] l IH]; intros m; cbn; [intros [H|H]; [by apply elem_of_nil in H|done]|].
  intros H. apply IH. destruct (decide (i = id)) as [->|Hne]; [right; rewrite lookup_insert_eq; by eexists|].
  destruct H as [H|H]; [|right; by rewrite lookup_insert_ne]. apply elem_of_cons in H as [H|H]; [congruence|by left].
Qed.

Lemma deposited_available bld dbcs w w' d :
  deposit bld dbcs w = (w', Ok tt) → d ∈ dbcs → spent_dbcs (wallet w) !! dbc_id_of d = None →
  is_Some (dbc_derived_key d (key w)) → is_Some (available_dbcs (wallet w') !! dbc_id_of d).
Proof.
  unfold deposit, on_wallet, wallet_deposit. destruct dbcs as [|d0 dbcs]; [by intros _ ?%elem_of_nil|].
  set (received := collect_map _). intros H Hin Hsp [dk Hdk].
  assert (is_Some (received !! dbc_id_of d)) as [d' Hd'].
  { apply (collect_map_is_Some _ _ d), list_elem_of_omap. exists d. split; [done|].
    rewrite decide_False by (rewrite Hsp; by intros [? ?]). by rewrite Hdk. }
  destruct (sum_nanos _ _ _); injection H as <-; cbn; try done. exists d'. by apply lookup_union_Some_l.
Qed.

End WalletFilesLemmas.

(** ** Properties *)

Section Properties.
Context `{BLS : BlsCrate, XN : XorNameCrate, HX : HexCrate}.
Context `{TK : TokenCrate, DI : DbcIdCrate, SD : !SnDbcCrate, DC : !DbcCrate, DT : !DbcTextCrate}.
Context `{BW : Bincode KeyLessWallet}.

(** C29: a wallet reloads as it was stored.  Loading a directory, which creates
    the key and the wallet where there are none, then storing the wallet after
    any changes and loading the directory again gives the wallet stored, with
    its key, unless reading the files fails. *)
Theorem wallet_reloads (HL : HexLaws) (HD : DbcTextLaws) (HB : BincodeLaws KeyLessWallet)
    (new_key new_key' : MainKey) (root : Path) (fs0 fs1 fs2 fs3 : Fs) t0 t1 t2 (w0 w : LocalWallet) r :
  exec (load_from new_key root) t0 (Ok w0) → fs_run fs0 t0 fs1 →
  key w = key w0 → wallet_dir w = wallet_dir w0 →
  exec (LocalWallet_store w) t1 (Ok tt) → fs_run fs1 t1 fs2 →
  exec (load_from new_key' root) t2 r → fs_run fs2 t2 fs3 →
  key_loaded fs0 (root ++ [WALLET_DIR_NAME]) new_key (key w0) ∧
  wallet_loaded fs0 (root ++ [WALLET_DIR_NAME]) (wallet w0) ∧
  (r = Ok w ∨ (r = Err WalletIo ∧ existsb io_failed t2 = true)).
Proof.
  intros H0 R0 Hkey Hdir H1 R1 H2 R2.
  destruct (load_from_run _ _ _ _ _ _ H0 R0) as (Hd & Hk & _ & Hkl & Hwl).
  destruct (LocalWallet_store_run _ _ _ _ H1 R1) as [Hw2 Ho]. rewrite Hdir in Hw2, Ho. rewrite Hd in *.
  split_and!; [done|done|].
  assert (key_on_disk fs2 (root ++ [WALLET_DIR_NAME]) (key w)) as Hk2.
  { rewrite Hkey. eapply key_on_disk_files; [|exact Hk]. intros c. by rewrite Ho by (by apply sibling_ne). }
  apply (wp_exec _ _ _ _ _ _ _ (load_from_wp new_key' root _ false) H2) in R2. destruct r as [w'|e|]; [|right|done].
  - left. f_equal. destruct R2 as (Hd' & _ & _ & Hk' & Hw'). destruct w as [k kw d], w' as [k' kw' d']. cbn in *. f_equal.
    + destruct Hk' as [Hk'|[Hk' _]]; [by eapply key_on_disk_inj|]. destruct Hk2 as (c & ? & Hc & _). by apply Hk' in Hc.
    + destruct Hw' as [Hw'|[Hw' _]]; [by eapply wallet_on_disk_inj|]. destruct Hw2 as (c & Hc & _). by apply Hw' in Hc.
    + congruence.
  - destruct (R2 _ _ Hk2 Hw2) as [-> H]. split; [done|exact H].
Qed.

(** a DBC goes from one wallet to the next as a file.  Storing a created
    DBC leaves a file with its text, and a wallet that loads its deposits after
    a file with this text was put where it looks has the DBC among its
    available ones, if its key owns it and it was not spent. *)
Theorem handed_over_dbc_deposited (HL : HexLaws) (HD : DbcTextLaws) (d : Dbc) (sender : LocalWallet)
    (fs1 fs2 : Fs) t1 :
  exec (store_created_dbc d sender) t1 (Ok tt) → fs_run fs1 t1 fs2 →
  ∃ text, fs2 !! created_dbc_path (wallet_dir sender) d = Some (File text) ∧
    ∀ (bld : Build) (w w' : LocalWallet) (fs fs' : Fs) t2 p files q,
      exec (try_load_deposits bld w) t2 (Ok (w', Ok tt)) → fs_run fs t2 fs' →
      existT (WalkFiles p) files ∈ t2 → q ∈ files → fs !! q = Some (File text) →
      spent_dbcs (wallet w) !! dbc_id_of d = None → is_Some (dbc_derived_key d (key w)) →
      is_Some (available_dbcs (wallet w') !! dbc_id_of d).
Proof.
  intros H1 R1. destruct (store_created_dbc_Ok _ _ _ _ _ H1 R1) as [(h & Hh & Hf) _].
  exists (String.list_byte_of_string h). split; [done|]. intros bld w w' fs fs' t2 p files q H2 R2 Hin Hq Hfile Hsp Hk.
  unfold try_load_deposits in H2. exec_ok. destruct a as [dbcs| |]; exec_ok. rewrite app_nil_r in *.
  apply load_received_Ok in He as (env & fls & contents & Hl & -> & ->).
  eapply deposited_available; [symmetry; exact Hr| |done|done].
  destruct R2 as (fs3 & -> & fs4 & [_ ->] & R2). apply reads_run in R2 as [-> Hall]; [|done].
  apply walked_once in Hin as ->. apply list_elem_of_lookup in Hq as [i Hi].
  destruct (Forall2_lookup_l _ _ _ _ _ Hall Hi) as (text & Ht & Htext). rewrite Hfile in Htext. injection Htext as <-.
  apply list_elem_of_omap. eexists. split; [by eapply list_elem_of_lookup_2|by apply dbc_of_written_text].
Qed.

(** C37: a store that is interrupted can lose the wallet: the file is
    overwritten in place, and when what was written of it does not parse, the
    wallet directory cannot be loaded any more. *)
Theorem interrupted_store_loses_wallet (HL : HexLaws) (HD : DbcTextLaws) (HB : BincodeLaws KeyLessWallet)
    (root : Path) (w : LocalWallet) (b part : bytes) (fs : Fs) :
  let path := root ++ [WALLET_DIR_NAME] ++ [WALLET_FILE_NAME] in
  wallet_dir w = root ++ [WALLET_DIR_NAME] → bincode_serialize (wallet w) = Some b →
  part `prefix_of` b → bincode_deserialize (T:=KeyLessWallet) part = None → fs !! path ≠ Some Dir →
  exec (LocalWallet_store w) [existT (WriteFile path b) None] (Err WalletIo) ∧
  fs_run fs [existT (WriteFile path b) None] (<[path := File part]> fs) ∧
  ∀ new_key t r fs', exec (load_from new_key root) t r → fs_run (<[path := File part]> fs) t fs' → ∃ e, r = Err e.
Proof.
  intros path Hdir Hb Hp Hbad Hd. split_and!.
  - unfold LocalWallet_store, store_wallet. rewrite Hb, Hdir. subst path. rewrite app_assoc. repeat constructor.
  - cbn. eexists. split; [|done]. right. split; [done|]. by exists part.
  - intros nk t r fs' He Hr. apply (wp_exec _ _ _ _ _ _ _ (load_from_wp nk root _ false) He) in Hr.
    destruct r as [w'|e|]; [exfalso|by exists e|done]. destruct Hr as (_ & _ & _ & _ & [(c & Hc & Hw)|[Hno _]]).
    + subst path. rewrite app_assoc, lookup_insert_eq in Hc. congruence.
    + apply (Hno part). subst path. by rewrite app_assoc, lookup_insert_eq.
Qed.

(** The genesis wallet is loaded with the genesis key, whatever key was there
    before, holds the genesis DBC if that was never spent from it, and is on
    disk. *)
Theorem genesis_wallet_loaded (HL : HexLaws) (HD : DbcTextLaws) (HB : BincodeLaws KeyLessWallet)
    (bld : Build) (main_key_from_hex : string → option MainKey) (new_key k : MainKey) (w : LocalWallet) (fs fs' : Fs) tr :
  main_key_from_hex GENESIS_DBC_SK = Some k →
  exec (load_genesis_wallet bld main_key_from_hex new_key) tr (Ok w) → fs_run fs tr fs' →
  key w = k ∧ wallet_on_disk fs' (wallet_dir w) (wallet w) ∧
  ∃ genesis w0, GENESIS_DBC main_key_from_hex = Ok genesis ∧ deposit bld [genesis] w0 = (w, Ok tt) ∧
    (spent_dbcs (wallet w0) !! dbc_id_of genesis = None → is_Some (dbc_derived_key genesis k) →
     is_Some (available_dbcs (wallet w) !! dbc_id_of genesis)).
Proof.
  intros Hk He Hr. unfold load_genesis_wallet in He.
  apply exec_bind_Ok in He as (w0 & t1 & t2 & -> & H0 & He). apply fs_run_app in Hr as (fs1 & R1 & Hr).
  apply exec_bind_Ok in He as (g & t3 & t4 & -> & [-> Hg]%exec_lift_inv & He). symmetry in Hg. apply map_err_Ok_iff in Hg.
  destruct (deposit bld [g] w0) as [w1 dep] eqn:Hdep.
  apply exec_bind_Ok in He as ([] & t5 & t6 & -> & [-> <-]%exec_lift_inv & He).
  apply exec_bind_Ok in He as ([] & t7 & t8 & -> & H1%exec_expect_Ok & [-> [= <-]]%exec_lift_inv). rewrite app_nil_r in Hr.
  destruct (LocalWallet_store_run _ _ _ _ H1 Hr) as [Hw _].
  assert (key w0 = k) as Hkey by (eapply create_genesis_wallet_key; done).
  assert (key w = key w0) as Hkw.
  { unfold deposit, on_wallet in Hdep. destruct (wallet_deposit _ _ _ _). by injection Hdep as <- _. }
  split_and!; [congruence|done|]. exists g, w0. split_and!; [done|done|]. intros Hsp Hd.
  eapply deposited_available; [exact Hdep|by left|done|]. by rewrite Hkey.
Qed.

End Properties.

(** ** The properties at concrete values *)

(** A wallet as lists. *)
Definition ToyWalletText : Type := dsig in_u64 * list (byte * ToyDbc) * list (byte * ToyDbc) * list ToyDbc * list (bytes * PaymentProof).

Definition toy_wallet_text (w : KeyLessWallet) : ToyWalletText :=
  (balance w, map_to_list (spent_dbcs w), map_to_list (available_dbcs w), dbcs_created_for_others w, map_to_list (paymet_proofs w)).

Definition toy_wallet_of (t : ToyWalletText) : KeyLessWallet :=
  {| balance := t.1.1.1.1; spent_dbcs := list_to_map t.1.1.1.2; available_dbcs := list_to_map t.1.1.2;
     dbcs_created_for_others := t.1.2; paymet_proofs := list_to_map t.2 |}.

#[global] Instance toy_wallet_text_eq_dec : EqDecision ToyWalletText := ltac:(unfold ToyWalletText; apply _).
#[global] Instance toy_wallet_text_countable : Countable ToyWalletText := ltac:(unfold ToyWalletText; apply _).

#[global] Instance toy_bincode_wallet : Bincode KeyLessWallet := {|
  bincode_serialize := λ w, Some (toy_enc (encode (toy_wallet_text w)));
  bincode_deserialize := λ b, p ← toy_dec b; toy_wallet_of <$> decode p;
|}.

#[global] Instance toy_bincode_wallet_laws : BincodeLaws KeyLessWallet.
Proof.
  constructor. intros w b [= <-]. cbn. rewrite <- (app_nil_r (toy_enc _)), toy_dec_enc. cbn. rewrite decode_encode. cbn.
  unfold toy_wallet_of, toy_wallet_text. cbn. rewrite !list_to_map_to_list. by destruct w.
Qed.

(** A file system on which everything succeeds. *)
Definition toy_fs (fs : Fs) (op : FsOp) : Fs * FsAns op :=
  match op return Fs * FsAns op with
  | IsFile p => (fs, is_file fs p)
  | ReadFile p | ReadToString p => (fs, match fs !! p with Some (File b) => Some b | _ => None end)
  | WriteFile p b => match fs !! p with Some Dir => (fs, None) | _ => (<[p := File b]> fs, Some tt) end
  | CreateDirAll p => (make_dirs p fs, Some tt)
  | WalkFiles p => (fs, filter (λ q, p `prefix_of` q ∧ is_file fs q = true) (map_to_list fs).*1)
  | ReceivedDbcsPath => (fs, None)
  | DataDir => (fs, Some ["home"%string])
  end.

Lemma toy_fs_step fs op : fs_step fs (existT op (toy_fs fs op).2) (toy_fs fs op).1.
Proof.
  destruct op; cbn; try done.
  - split; [|done]. intros b. by destruct (fs !! p) as [[c|]|]; [intros [= ->]|..].
  - split; [|done]. intros b. by destruct (fs !! p) as [[c|]|]; [intros [= ->]|..].
  - destruct (fs !! p) as [[c|]|] eqn:Hp; cbn; [by split|by left|by split].
  - split; [|done]. by intros q [[H1 H2] _]%list_elem_of_filter.
Qed.

(** The files after a program. *)
Fixpoint toy_fs_end {E A : Type} (fs : Fs) (p : FsProg E A) : Fs :=
  match p with
  | Done _ => fs
  | Vis op k => let '(fs', a) := toy_fs fs op in toy_fs_end fs' (k a)
  end.

Lemma toy_fs_run {E A : Type} fs (p : FsProg E A) : fs_run fs (run toy_fs fs p).1 (toy_fs_end fs p).
Proof.
  revert fs. induction p as [r|op k IH]; intros fs; cbn; [done|].
  pose proof (toy_fs_step fs op) as Hs. destruct (toy_fs fs op) as [fs1 a]. specialize (IH a fs1).
  destruct (run toy_fs fs1 (k a)) as [tr r]. by exists fs1.
Qed.

Definition toy_other_mk : MainKey := Byte.x09.
Definition toy_root : Path := ["home"%string].
Definition toy_dir : Path := ["home"; "wallet"]%string.

Definition toy_first : list (Event FsAns) * Res WalletError LocalWallet := run toy_fs ∅ (load_from toy_mk toy_root).
Definition toy_fs1 : Fs := toy_fs_end ∅ (load_from (BW:=toy_bincode_wallet) toy_mk toy_root).
Definition toy_changed : LocalWallet :=
  (deposit Debug [toy_dbc Byte.x0a 5; toy_dbc Byte.x0c 10] (new_wallet toy_mk toy_dir)).1.
Definition toy_stored : list (Event FsAns) * Res WalletError unit := run toy_fs toy_fs1 (LocalWallet_store toy_changed).
Definition toy_fs2 : Fs := toy_fs_end toy_fs1 (LocalWallet_store (BW:=toy_bincode_wallet) toy_changed).
(** Loaded again, with another random key at hand. *)
Definition toy_second : list (Event FsAns) * Res WalletError LocalWallet := run toy_fs toy_fs2 (load_from toy_other_mk toy_root).

Lemma wallet_reloads_witness :
  toy_second.2 = Ok toy_changed ∧ as_nano (LocalWallet_balance toy_changed) = 15%Z.
Proof.
  split; [|by_compute].
  assert (is_ok toy_first.2 = true) as H1 by by_compute. destruct (is_ok_true _ H1) as [w0 Hw0].
  assert (toy_stored.2 = Ok tt) as H2 by by_compute.
  assert (existsb io_failed toy_second.1 = false) as H3 by by_compute.
  assert (match toy_first.2 with Ok w => bool_decide (key w = toy_mk ∧ wallet_dir w = toy_dir) | _ => false end = true) as H4 by by_compute.
  rewrite Hw0 in H4. apply bool_decide_eq_true in H4 as [Hk Hd].
  destruct (wallet_reloads _ _ _ toy_mk toy_other_mk toy_root ∅ toy_fs1 toy_fs2
    (toy_fs_end toy_fs2 (load_from toy_other_mk toy_root)) toy_first.1 toy_stored.1 toy_second.1
    w0 toy_changed toy_second.2) as (_ & _ & [H|[_ H]]).
  - rewrite <- Hw0. apply run_exec.
  - apply toy_fs_run.
  - by rewrite Hk.
  - by rewrite Hd.
  - rewrite <- H2. apply run_exec.
  - apply toy_fs_run.
  - apply run_exec.
  - apply toy_fs_run.
  - exact H.
  - rewrite H3 in H. discriminate H.
Defined.

(** The DBC is copied into the directory of the receiver, whose key is [toy_guest_mk]. *)
Definition toy_guest_mk : MainKey := Byte.x02.
Definition toy_gift : Dbc := {| td_id := Byte.x0e; td_owner := Byte.x02; td_index := []; td_token := Some (toy_tok 7); td_src := empty_tx |}.
Definition toy_gift_run : list (Event FsAns) * Res WalletError unit := run toy_fs toy_fs2 (store_created_dbc toy_gift toy_changed).
Definition toy_fs3 : Fs := toy_fs_end toy_fs2 (store_created_dbc toy_gift toy_changed).
Definition toy_gift_text : bytes :=
  match toy_fs3 !! created_dbc_path toy_dir toy_gift with Some (File b) => b | _ => [] end.
Definition toy_guest_file : Path := ["guest"; "wallet"; "received_dbcs"; "gift"]%string.
Definition toy_guest_fs : Fs := {[ toy_guest_file := File toy_gift_text ]}.
Definition toy_guest_wallet : LocalWallet := new_wallet toy_guest_mk ["guest"; "wallet"]%string.
Definition toy_receive : FsProg Empty_set (LocalWallet * Res WalletError unit) := try_load_deposits Debug toy_guest_wallet.
Definition toy_receive_run : list (Event FsAns) * Res Empty_set (LocalWallet * Res WalletError unit) := run toy_fs toy_guest_fs toy_receive.

Lemma handed_over_dbc_deposited_witness :
  ∃ w', toy_receive_run.2 = Ok (w', Ok tt) ∧ is_Some (available_dbcs (wallet w') !! dbc_id_of toy_gift).
Proof.
  assert (toy_gift_run.2 = Ok tt) as H1 by by_compute.
  assert (match toy_receive_run.2 with Ok (_, Ok _) => true | _ => false end = true) as H2 by by_compute.
  destruct toy_receive_run.2 as [[w' [[]| |]]| |] eqn:Hr; try discriminate H2. exists w'. split; [reflexivity|].
  destruct (handed_over_dbc_deposited _ _ toy_gift toy_changed toy_fs2 toy_fs3 toy_gift_run.1) as (text & Ht & H).
  - rewrite <- H1. apply run_exec.
  - apply toy_fs_run.
  - assert (walked <$> toy_receive_run.1 !! 1 = Some (Some [toy_guest_file])) as Hw by by_compute.
    destruct (toy_receive_run.1 !! 1) as [[[] a]|] eqn:Hev; try discriminate Hw. cbn in Hw. injection Hw as ->.
    apply (H Debug toy_guest_wallet w' toy_guest_fs (toy_fs_end toy_guest_fs toy_receive) toy_receive_run.1 p [toy_guest_file] toy_guest_file).
    + rewrite <- Hr. apply run_exec.
    + apply toy_fs_run.
    + by eapply list_elem_of_lookup_2.
    + by left.
    + unfold toy_guest_fs, toy_gift_text. rewrite lookup_singleton_eq. change (wallet_dir toy_changed) with toy_dir in Ht. by rewrite Ht.
    + by_compute.
    + by_compute.
Defined.

Lemma interrupted_store_loses_wallet_witness :
  exec (LocalWallet_store toy_changed) [existT (WriteFile (toy_dir ++ ["wallet"%string]) (default [] (bincode_serialize (wallet toy_changed)))) None]
    (Err WalletIo) ∧
  ∀ new_key t r fs', exec (load_from new_key toy_root) t r → fs_run (<[toy_dir ++ ["wallet"%string] := File []]> toy_fs2) t fs' → ∃ e, r = Err e.
Proof.
  destruct (bincode_serialize (wallet toy_changed)) as [b|] eqn:Hb; [|discriminate Hb].
  destruct (interrupted_store_loses_wallet _ _ _ toy_root toy_changed b [] toy_fs2) as (H1 & _ & H2).
  - reflexivity.
  - exact Hb.
  - apply prefix_nil.
  - reflexivity.
  - vm_compute. discriminate.
  - split; [exact H1|exact H2].
Defined.

Definition toy_key_from_hex (_ : string) : option MainKey := Some toy_mk.
Definition toy_genesis_run : list (Event FsAns) * Res WalletError LocalWallet :=
  run toy_fs ∅ (load_genesis_wallet Debug toy_key_from_hex toy_other_mk).

Lemma genesis_wallet_loaded_witness : ∃ w, toy_genesis_run.2 = Ok w ∧ key w = toy_mk.
Proof.
  assert (is_ok toy_genesis_run.2 = true) as Hok by by_compute. destruct (is_ok_true _ Hok) as [w Hw].
  exists w. split; [exact Hw|].
  destruct (genesis_wallet_loaded _ _ _ Debug toy_key_from_hex toy_other_mk toy_mk w ∅
    (toy_fs_end ∅ (load_genesis_wallet Debug toy_key_from_hex toy_other_mk)) toy_genesis_run.1) as [Hk _].
  - reflexivity.
  - rewrite <- Hw. apply run_exec.
  - apply toy_fs_run.
  - exact Hk.
Defined.
