(* ===== verification/Client.v ===== *)
(** * sn_client: the client, its records and its registers

    - [Client], [handle_client_event], [Client_new], [store_chunk], [get_chunk],
      [network_store_spend], [client_get_spend_from_network],
      [get_signed_register_from_network], [get_store_cost_at_address]:
      src/sn_client/src/api.rs, with lib.rs, error.rs and event.rs;
    - [ClientRegister] and its operations: src/sn_client/src/register.rs.

    A client talks to the network through the programs of [Network].  A method
    that takes [&mut self] and awaits is an [StP] computation: what it wrote
    before an error stays written.

    The main theorems: a register fetched from the network verifies and has the
    address asked for; what the owner writes is an operation that every replica
    of the register accepts and that gives the same register there; pushing
    publishes the operations in the order they were made and keeps those that
    were not published; a permitted writer who is not the owner queues an
    operation that no replica accepts; a register created as public is not. *)

From S2P Require Import Prelude Deps ToyCrates Registers Protocol Transfers RecordStore Effects Network SwarmDriver Wallet.
From stdpp Require Import base tactics list gmap sorting strings.
From Stdlib Require Import ZArith NArith Strings.Byte Lia.

Section Client.
Context `{BLS : BlsCrate, XN : XorNameCrate, HX : HexCrate, KD : KadCrate, CR : CrdtsCrate, SE : SelfEncryptionCrate}.
Context `{TK : TokenCrate, DI : DbcIdCrate, SD : !SnDbcCrate, DC : !DbcCrate, RP : !RegisterParams}.
Context `{RH : RmpHeader, RC : Rmp (bytes * PaymentProof), RS : Rmp (list SignedSpend), RR : Rmp SignedRegister}.

(** ** error.rs, chunks/error.rs and event.rs

    Texts and values of third-party error types are left out. *)

Inductive ChunksError :=
| SelfEncryption
| ChunksIo
| Serialisation
| EmptyFileProvided
| SmallFilePaddingNeeded (size : nat)
| TooLargeAsSmallFile (size maximum : nat)
| NotEnoughChunksRetrieved (expected retrieved : nat) (missing_chunks : list XorName)
| NotAllDataWasChunked (expected chunked : nat).

Inductive ClientError :=
| CE_Transfers (e : WalletError)
| CE_Network (e : NetworkError)
| CE_Protocol (e : ProtocolError)
| CE_Register (e : RegError)
| CE_EventsReceiver
| CE_EventsSender
| CE_ResponseTimeout
| CE_CouldNotVerifyTransfer
| CE_Chunks (e : ChunksError)
| CE_BincodeError
| CE_ContentBranchDetected (branches : gset (Hash32 * bytes))
| CE_MissingPaymentProof (a : ChunkAddress)
| CE_CouldNotSendTokens.

#[global] Instance ChunksError_eq_dec : EqDecision ChunksError.
Proof. solve_decision. Defined.
#[global] Instance ClientError_eq_dec : EqDecision ClientError.
Proof. solve_decision. Defined.

Inductive ClientEvent :=
| ClientConnectedToNetwork
| InactiveClient (secs : nat).

#[global] Instance ClientEvent_eq_dec : EqDecision ClientEvent.
Proof. solve_decision. Defined.

(** ** lib.rs and api.rs: the client *)

(** [events_channel] is the log of the events broadcast; [progress] says
    whether the progress bar is still there. *)
Record Client := {
  signer : SecretKey;
  peers_added : nat;
  progress : bool;
  network_store_cost : Z;
  events_channel : list ClientEvent;
}.

Definition INACTIVITY_TIMEOUT : nat := 30.

Definition set_store_cost (cost : Z) (c : Client) : Client :=
  {| signer := signer c; peers_added := peers_added c; progress := progress c;
     network_store_cost := cost; events_channel := events_channel c |}.

Definition set_peers_added (n : nat) (c : Client) : Client :=
  {| signer := signer c; peers_added := n; progress := progress c;
     network_store_cost := network_store_cost c; events_channel := events_channel c |}.

Definition finish_progress (c : Client) : Client :=
  {| signer := signer c; peers_added := peers_added c; progress := false;
     network_store_cost := network_store_cost c; events_channel := events_channel c |}.

(** [ClientEventsChannel::broadcast] fails when nobody is subscribed. *)
Definition broadcast (subscribed : bool) (event : ClientEvent) : StM Client ClientError unit := λ c,
  if subscribed then
    ({| signer := signer c; peers_added := peers_added c; progress := progress c;
        network_store_cost := network_store_cost c; events_channel := events_channel c ++ [event] |}, Ok tt)
  else (c, Err CE_EventsSender).

Definition handle_client_event (subscribed : bool) (event : NetworkEvent) : StM Client ClientError unit :=
  match event with
  | PeerAdded _ =>
      _ ← modify (λ c, set_peers_added (peers_added c + 1) c);
      n ← gets peers_added;
      if decide (CLOSE_GROUP_SIZE ≤ n) then
        _ ← modify finish_progress;
        broadcast subscribed ClientConnectedToNetwork
      else mret tt
  | _ => mret tt
  end.

(** One round of the event task of [Client::new]: a network event, the closed
    channel, or the timeout.  Errors are logged only. *)
Inductive ClientInput := GotEvent (e : NetworkEvent) | ChannelIsClosed | TimedOut.

Definition event_round (subscribed : bool) (i : ClientInput) (c : Client) : Client :=
  match i with
  | GotEvent e => (handle_client_event subscribed e c).1
  | ChannelIsClosed => c
  | TimedOut => (broadcast subscribed (InactiveClient INACTIVITY_TIMEOUT) c).1
  end.

(** The loop that waits for the connection: what [recv] returns each time.
    [None] when the events are used up and the loop still waits. *)
Fixpoint wait_connected (received : list (unit + ClientEvent)) : option (Res ClientError unit) :=
  match received with
  | [] => None
  | inr ClientConnectedToNetwork :: _ => Some (Ok tt)
  | inr (InactiveClient _) :: rest => wait_connected rest
  | inl _ :: _ => Some (Err CE_EventsReceiver)
  end.

Definition Client_new (signer : SecretKey) : Client :=
  {| signer := signer; peers_added := 0; progress := true; network_store_cost := 0; events_channel := [] |}.

(** Whether the swarm is started in local mode. *)
Definition is_local (peers : option (list Multiaddr)) : bool :=
  match peers with Some peers => negb (existsb multiaddr_is_global peers) | None => true end.

(** The task that dials the initial peers; a failed dial is logged only. *)
Definition dial_peers (peers : option (list Multiaddr)) : NetProg ClientError unit :=
  match peers with
  | Some peers => prog_fold (λ _ addr, _ ← attempt (dial_peer addr); lift (Ok tt)) tt peers
  | None => lift (Ok tt)
  end.

Definition Client_sign (c : Client) (data : bytes) : Signature := bls_sign (signer c) data.
Definition signer_pk (c : Client) : PublicKey := public_key (signer c).

(** ** api.rs: records *)

Definition get_signed_register_from_network (address : RegisterAddress) : NetProg ClientError SignedRegister :=
  let key := to_record_key (from_register_address address) in
  let not_found := CE_Protocol (RegisterNotFound address) in
  record ← prog_map_err (λ _, not_found) (get_record_from_network key None false);
  header ← lift (map_err (λ _, not_found) (RecordHeader_from_record record));
  match rh_kind header with
  | RK_Register => lift (map_err (λ _, not_found) (try_deserialize_record (T:=SignedRegister) record))
  | _ => lift (Err (CE_Protocol (RecordKindMismatch RK_Register)))
  end.

Definition store_chunk (chunk : Chunk) (payment : PaymentProof) (verify_store : bool) : NetProg ClientError unit :=
  let key := to_record_key (from_chunk_address (chunk_address chunk)) in
  let chunk_with_payment := {| cwp_chunk := chunk; cwp_payment := payment |} in
  value ← lift (map_err CE_Protocol (try_serialize_record chunk_with_payment RK_Chunk));
  prog_map_err CE_Network (put_record {| r_key := key; r_value := value |} verify_store).

Definition get_chunk (address : ChunkAddress) : NetProg ClientError Chunk :=
  let key := to_record_key (from_chunk_address address) in
  record ← prog_map_err CE_Network (get_record_from_network key None false);
  header ← lift (map_err CE_Protocol (RecordHeader_from_record record));
  match rh_kind header with
  | RK_Chunk =>
      chunk_with_payment ← lift (map_err CE_Protocol (try_deserialize_record (T:=ChunkWithPayment) record));
      lift (Ok (cwp_chunk chunk_with_payment))
  | _ => lift (Err (CE_Protocol (RecordKindMismatch RK_Chunk)))
  end.

(** The array of one spend has the encoding of a vector of one spend. *)
Definition network_store_spend (spend : SpendRequest) (verify_store : bool) : NetProg ClientError unit :=
  let dbc_id := spend_dbc_id (signed_spend spend) in
  let key := to_record_key (from_dbc_address (DbcAddress_from_dbc_id dbc_id)) in
  value ← lift (map_err CE_Protocol (try_serialize_record [signed_spend spend] RK_DbcSpend));
  prog_map_err CE_Network (put_record {| r_key := key; r_value := value |} verify_store).

Definition client_get_spend_from_network (dbc_id : DbcId) : NetProg ClientError SignedSpend :=
  let key := to_record_key (from_dbc_address (DbcAddress_from_dbc_id dbc_id)) in
  let not_verified := CE_CouldNotVerifyTransfer in
  record ← prog_map_err (λ _, not_verified) (get_record_from_network key None true);
  header ← lift (map_err (λ _, not_verified) (RecordHeader_from_record record));
  match rh_kind header with
  | RK_DbcSpend =>
      spends ← lift (map_err (λ _, not_verified) (try_deserialize_record (T:=list SignedSpend) record));
      match spends with
      | _ :: _ :: _ => lift (Err not_verified)
      | [spend] =>
          if decide (dbc_id = spend_dbc_id spend) then
            if spend_verify spend (spent_tx_hash spend) then lift (Ok spend) else lift (Err not_verified)
          else lift (Err not_verified)
      | [] => lift (Err not_verified)
      end
  | _ => lift (Err (CE_Protocol (RecordKindMismatch RK_DbcSpend)))
  end.

(** [order] is the order in which the quotes arrive. *)
Definition get_store_cost_at_address (order : list PeerId → list PeerId) (address : NetworkAddress)
    (only_update_cost_if_higher : bool) : StP NetAns Client ClientError Token :=
  let any_cost_will_do := only_update_cost_if_higher in
  fee ← st_prog (prog_map_err CE_Network (get_store_cost_from_network order address any_cost_will_do));
  let cost := as_nano fee in
  _ ← st_lift (modify (λ c, if decide (network_store_cost c < cost)%Z then set_store_cost cost c else c));
  _ ← st_lift (modify (λ c, if only_update_cost_if_higher then c else set_store_cost cost c));
  mret (from_nano cost).

(** ** register.rs *)

(** The front of the list of operations is its head. *)
Record ClientRegister := {
  cr_client : Client;
  cr_register : Register;
  cr_ops : list RegisterCmd;
}.

Definition set_register (reg : Register) (r : ClientRegister) : ClientRegister :=
  {| cr_client := cr_client r; cr_register := reg; cr_ops := cr_ops r |}.
Definition set_ops (ops : list RegisterCmd) (r : ClientRegister) : ClientRegister :=
  {| cr_client := cr_client r; cr_register := cr_register r; cr_ops := ops |}.

Definition ClientRegister_create_register (client : Client) (meta : XorName) (perms : Permissions) : ClientRegister :=
  {| cr_client := client; cr_register := Register_new (signer_pk client) meta perms; cr_ops := [] |}.

Definition ClientRegister_create (client : Client) (meta : XorName) : ClientRegister :=
  ClientRegister_create_register client meta Permissions_new_owner_only.

Definition get_register_from_network (address : RegisterAddress) : NetProg ClientError Register :=
  reg ← get_signed_register_from_network address;
  _ ← lift (map_err CE_Register (verify_with_address reg address));
  lift (map_err CE_Register (SignedRegister_register reg)).

Definition retrieve (client : Client) (address : RegisterAddress) : NetProg ClientError ClientRegister :=
  register ← get_register_from_network address;
  lift (Ok {| cr_client := client; cr_register := register; cr_ops := [] |}).

Definition cr_address (r : ClientRegister) : RegisterAddress := Register_address (cr_register r).
Definition cr_owner (r : ClientRegister) : PublicKey := Register_owner (cr_register r).
Definition cr_permissions (r : ClientRegister) : Permissions := reg_permissions (cr_register r).
Definition cr_size (r : ClientRegister) : nat := Register_size (cr_register r).
Definition cr_get (r : ClientRegister) (hash : Hash32) : Res ClientError bytes :=
  map_err CE_Register (Register_get (cr_register r) hash).
Definition cr_read (r : ClientRegister) : gset (Hash32 * bytes) := Register_read (cr_register r).

(** A method of the register of a [ClientRegister]. *)
Definition on_register {A : Type} (m : StM Register RegError A) : StM ClientRegister ClientError A := λ r,
  let '(reg, x) := m (cr_register r) in (set_register reg r, map_err CE_Register x).

(** The bytes are signed before [add_signature] sets the source of the op. *)
Definition write_atop (entry : bytes) (children : gset Hash32) : StM ClientRegister ClientError unit :=
  public_key ← gets (λ r, signer_pk (cr_client r));
  register ← gets cr_register;
  _ ← lift_res (map_err CE_Register (check_user_permissions register (Key public_key)));
  written ← on_register (Register_write entry children);
  client ← gets cr_client;
  let op := written.2 in
  let signature := Client_sign client (bytes_for_signing op) in
  let cmd := RC_Edit (add_signature op public_key signature) in
  modify (λ r, set_ops (cmd :: cr_ops r) r).

Definition entry_hashes (branches : gset (Hash32 * bytes)) : gset Hash32 := set_map fst branches.

Definition cr_write (entry : bytes) : StM ClientRegister ClientError unit :=
  children ← gets cr_read;
  if decide (1 < size children) then throw (CE_ContentBranchDetected children)
  else write_atop entry (entry_hashes children).

Definition write_merging_branches (entry : bytes) : StM ClientRegister ClientError unit :=
  children ← gets cr_read;
  write_atop entry (entry_hashes children).

Definition publish_register (cmd : RegisterCmd) (verify_store : bool) : NetProg ClientError unit :=
  network_reg ← attempt (get_signed_register_from_network (RegisterCmd_dst cmd));
  register ← match cmd with
    | RC_Create register signature =>
        match network_reg with
        | Ok existing_reg =>
            if decide (SignedRegister_owner existing_reg ≠ Register_owner register)
            then lift (Err (CE_Protocol (RegisterAlreadyClaimed (SignedRegister_owner existing_reg))))
            else lift (Ok None)
        | _ => lift (Ok (Some (SignedRegister_new register signature)))
        end
    | RC_Edit op =>
        reg ← lift network_reg;
        let '(reg', added) := add_op op reg in
        _ ← lift (map_err CE_Register added);
        lift (Ok (Some reg'))
    end;
  match register with
  | None => lift (Ok tt)
  | Some register =>
      let key := to_record_key (from_register_address (SignedRegister_address register)) in
      value ← lift (map_err CE_Protocol (try_serialize_record register RK_Register));
      prog_map_err CE_Network (put_record {| r_key := key; r_value := value |} verify_store)
  end.

(** The loop of [push], over the operations from the back of the list; returns
    those left, again from the back. *)
Fixpoint push_loop (verify_store : bool) (back_first : list RegisterCmd)
    : NetProg Empty_set (list RegisterCmd * Res ClientError unit) :=
  match back_first with
  | [] => Done (Ok ([], Ok tt))
  | cmd :: rest =>
      result ← attempt (publish_register cmd verify_store);
      match result with
      | Err err => Done (Ok (cmd :: rest, Err err))
      | _ => push_loop verify_store rest
      end
  end.

Definition push (verify_store : bool) : StP NetAns ClientRegister ClientError unit := λ r,
  left ← push_loop verify_store (reverse (cr_ops r));
  Done (Ok (set_ops (reverse left.1) r, left.2)).

(** What [sync] merges: the replica of the network, or our own after it was
    created there. *)
Definition remote_replica (verify_store : bool) (r : ClientRegister) : NetProg ClientError Register :=
  fetched ← attempt (get_register_from_network (cr_address r));
  match fetched with
  | Ok remote => lift (Ok remote)
  | _ =>
      b ← lift (map_err CE_Register (Register_bytes (cr_register r)));
      let cmd := RC_Create (cr_register r) (Client_sign (cr_client r) b) in
      _ ← publish_register cmd verify_store;
      lift (Ok (cr_register r))
  end.

Definition sync (verify_store : bool) : StP NetAns ClientRegister ClientError unit := λ r,
  (remote ← st_prog (remote_replica verify_store r);
   _ ← st_lift (modify (λ r, set_register (Register_merge (cr_register r) remote) r));
   push verify_store) r.

(** A new register that is sent to the network: returned only if that worked. *)
Definition synced (verify_store : bool) (r : ClientRegister) : NetProg ClientError ClientRegister :=
  x ← prog_map_err (λ e : Empty_set, match e with end) (sync verify_store r);
  _ ← lift x.2;
  lift (Ok x.1).

Definition create_public_online (client : Client) (meta : XorName) (verify_store : bool) : NetProg ClientError ClientRegister :=
  synced verify_store (ClientRegister_create_register client meta Permissions_new_owner_only).

Definition create_online (client : Client) (meta : XorName) (verify_store : bool) : NetProg ClientError ClientRegister :=
  synced verify_store (ClientRegister_create_register client meta Permissions_new_owner_only).

(** [Client::get_register] and [Client::create_register]. *)
Definition get_register (c : Client) (address : RegisterAddress) : NetProg ClientError ClientRegister := retrieve c address.
Definition create_register (c : Client) (meta : XorName) (verify_store : bool) : NetProg ClientError ClientRegister :=
  create_online c meta verify_store.

Definition write_online (entry : bytes) (verify_store : bool) : StP NetAns ClientRegister ClientError unit :=
  _ ← st_lift (cr_write entry); push verify_store.
Definition write_merging_branches_online (entry : bytes) (verify_store : bool) : StP NetAns ClientRegister ClientError unit :=
  _ ← st_lift (write_merging_branches entry); push verify_store.
Definition write_atop_online (entry : bytes) (children : gset Hash32) (verify_store : bool)
    : StP NetAns ClientRegister ClientError unit :=
  _ ← st_lift (write_atop entry children); push verify_store.

End Client.

(** ** Lemmas *)

Section ClientLemmas.
Context `{BLS : BlsCrate, XN : XorNameCrate, HX : HexCrate, KD : KadCrate, CR : CrdtsCrate, SE : SelfEncryptionCrate}.
Context `{TK : TokenCrate, DI : DbcIdCrate, SD : !SnDbcCrate, DC : !DbcCrate, RP : !RegisterParams}.
Context `{RH : RmpHeader, RC : Rmp (bytes * PaymentProof), RS : Rmp (list SignedSpend), RR : Rmp SignedRegister}.

Lemma get_signed_register_Ok address tr sr :
  exec (get_signed_register_from_network address) tr (Ok sr) →
  ∃ rec, network_answered (RegisterAddress_xorname address) rec tr ∧ try_deserialize_record rec = Ok sr ∧
         count_ops is_put tr = 0.
Proof.
  unfold get_signed_register_from_network. intros He. exec_ok.
  destruct (rh_kind _); exec_ok. rewrite !app_nil_r.
  match goal with H : exec (get_record_from_network _ _ _) _ _ |- _ =>
    apply get_record_from_network_spec in H as (_ & Hp & Ha & _) end.
  eexists. by split_and!.
Qed.

Lemma get_register_Ok address tr reg :
  exec (get_register_from_network address) tr (Ok reg) →
  ∃ rec sr, network_answered (RegisterAddress_xorname address) rec tr ∧ try_deserialize_record rec = Ok sr ∧
    count_ops is_put tr = 0 ∧ SignedRegister_address sr = address ∧ sr_authentic sr ∧
    SignedRegister_register sr = Ok reg.
Proof.
  unfold get_register_from_network. intros He. exec_ok. rewrite !app_nil_r.
  match goal with H : exec (get_signed_register_from_network _) _ _ |- _ =>
    apply get_signed_register_Ok in H as (rec & Ha & Hd & Hp) end.
  match goal with H : verify_with_address _ _ = _ |- _ => rename H into Hv end.
  unfold verify_with_address in Hv. case_decide as Had; [done|]. apply SignedRegister_verify_unit in Hv.
  eexists rec, _. by split_and!.
Qed.

(** A register was put under the key of its address. *)
Definition register_put (sr : SignedRegister) (verify : bool) (tr : list (Effects.Event NetAns)) : Prop :=
  ∃ value, try_serialize_record sr RK_Register = Ok value ∧
    record_put {| r_key := RegisterAddress_xorname (SignedRegister_address sr); r_value := value |} verify tr.

(** What publishing a command achieved when it returned. *)
Definition published (cmd : RegisterCmd) (verify : bool) (tr : list (Effects.Event NetAns)) : Prop :=
  match cmd with
  | RC_Create register signature =>
      (∃ rec sr, network_answered (RegisterAddress_xorname (Register_address register)) rec tr ∧
                 try_deserialize_record rec = Ok sr ∧ SignedRegister_owner sr = Register_owner register) ∨
      register_put (SignedRegister_new register signature) verify tr
  | RC_Edit op =>
      ∃ rec sr, network_answered (RegisterAddress_xorname (op_address op)) rec tr ∧
        try_deserialize_record rec = Ok sr ∧ op_authorised (base_register sr) op ∧
        register_put (with_ops sr ({[ op ]} ∪ sr_ops sr)) verify tr
  end.

Lemma register_put_suffix sr verify t1 t2 : register_put sr verify t2 → register_put sr verify (t1 ++ t2).
Proof.
  intros (v & Hv & Hp). exists v. split; [done|]. eapply record_put_mono; [|done]. by apply sublist_inserts_l.
Qed.

Lemma network_answered_app_l key rec t1 t2 : network_answered key rec t1 → network_answered key rec (t1 ++ t2).
Proof. apply network_answered_mono. intros ev Hev. apply elem_of_app. by left. Qed.

Lemma register_put_intro sr verify value t u :
  try_serialize_record sr RK_Register = Ok value →
  exec (put_record {| r_key := to_record_key (from_register_address (SignedRegister_address sr)); r_value := value |}
          verify) t (Ok u) →
  register_put sr verify t.
Proof. intros Hv He. exists value. split; [done|]. by eapply put_record_Ok. Qed.

Lemma publish_register_Ok cmd verify tr u : exec (publish_register cmd verify) tr (Ok u) → published cmd verify tr.
Proof.
  unfold publish_register. intros He. exec_ok.
  destruct cmd as [register signature|op]; cbn [RegisterCmd_dst published] in *.
  - destruct a as [sr|e|w].
    + destruct (decide (SignedRegister_owner sr ≠ Register_owner register)) as [Ho|Ho]; exec_ok. left.
      match goal with H : exec (get_signed_register_from_network _) _ _ |- _ =>
        apply get_signed_register_Ok in H as (rec & Ha & Hd & _) end.
      exists rec, sr. rewrite app_nil_r. split_and!; [done|done|]. by destruct (decide (SignedRegister_owner sr = Register_owner register)).
    + exec_ok. right. apply register_put_suffix. by eapply register_put_intro.
    + exfalso. match goal with H : ¬ panics _ |- _ => apply H; by exists w end.
  - exec_ok. match goal with H : context [add_op op ?x] |- _ => rename x into sr end.
    pose proof (add_op_spec op sr) as Hadd. destruct (add_op op sr) as [sr' added] eqn:Heq. exec_ok.
    match goal with H : exec (get_signed_register_from_network _) _ _ |- _ =>
      apply get_signed_register_Ok in H as (rec & Ha & Hd & _) end.
    destruct Hadd as [(Hsr & Hau)|(e & Hsr & _)]; simplify_eq.
    exists rec, sr. split_and!; [by apply network_answered_app_l|done|done|]. apply register_put_suffix.
    by eapply register_put_intro.
Qed.

(** What the loop of [push] did: [sent] was published in order, one after the
    other; it stopped at the first failure. *)
Definition pushed (verify : bool) (todo left : list RegisterCmd) (res : Res ClientError unit)
    (tr : list (Effects.Event NetAns)) : Prop :=
  ∃ sent trs rest, todo = sent ++ left ∧ tr = concat trs ++ rest ∧
    Forall2 (λ cmd t, exec (publish_register cmd verify) t (Ok tt)) sent trs ∧
    match res with
    | Ok _ => left = [] ∧ rest = []
    | Err e => ∃ cmd more, left = cmd :: more ∧ exec (publish_register cmd verify) rest (Err e)
    | Panic _ => False
    end.

Lemma push_loop_spec verify todo tr left res :
  exec (push_loop verify todo) tr (Ok (left, res)) → pushed verify todo left res tr.
Proof.
  revert tr. induction todo as [|cmd todo IH]; intros tr; cbn [push_loop].
  { intros [-> [= -> ->]]%exec_done_inv. by exists [], [], []. }
  intros He. exec_ok. match goal with H : exec (publish_register _ _) _ _ |- _ => rename H into Hp end.
  destruct a as [[]|e|w].
  - apply IH in He as (sent & trs & rest & -> & -> & Hall & Hres).
    exists (cmd :: sent), (t :: trs), rest. cbn. rewrite <- app_assoc. split_and!; [done|done|by constructor|done].
  - exec_ok. simplify_eq. exists [], [], t. rewrite app_nil_r. split_and!; try done. by exists cmd, todo.
  - exfalso. match goal with H : ¬ panics _ |- _ => apply H; by exists w end.
Qed.

(** The steps of a write that succeeded. *)
Lemma write_atop_Ok entry children r r' :
  write_atop entry children r = (r', Ok tt) →
  let reg := cr_register r in
  let node := mreg_write (reg_data reg) entry children in
  let op0 := RegisterOp_new (Register_address reg) node (Key (Register_owner reg)) None in
  let pk := signer_pk (cr_client r) in
  let op := add_signature op0 pk (Client_sign (cr_client r) (bytes_for_signing op0)) in
  check_user_permissions reg (Key pk) = Ok tt ∧
  check_entry_and_reg_sizes reg entry = Ok tt ∧
  r' = {| cr_client := cr_client r; cr_register := with_data reg (mreg_apply (reg_data reg) node);
          cr_ops := RC_Edit op :: cr_ops r |}.
Proof.
  unfold write_atop, on_register, Register_write, mbind, StM_bind, gets, lift_res, modify. cbn.
  destruct (check_user_permissions _ _) as [[]|e|w]; cbn; [|done|done].
  destruct (check_entry_and_reg_sizes _ _) as [[]|e|w]; cbn; [|done|done].
  intros [= <-]. by split_and!.
Qed.

Lemma sync_permissions verify r tr r' res :
  exec (sync verify r) tr (Ok (r', res)) →
  reg_permissions (cr_register r') = reg_permissions (cr_register r) ∧ cr_address r' = cr_address r ∧
  cr_client r' = cr_client r.
Proof.
  unfold sync. intros [(s1 & remote & t1 & t2 & -> & H1 & H2)|[(s1 & e & [= -> ->] & H1)|(w & ? & _)]]%exec_st_bind_inv;
    [| |done].
  - apply exec_st_prog_inv in H1 as (r0 & _ & Hr0).
    assert (s1 = r) as -> by (by destruct r0; simplify_eq).
    apply exec_st_bind_inv in H2 as [(s2 & [] & t3 & t4 & -> & H2 & H3)|[(s2 & e & [= -> ->] & H2)|(w & ? & _)]]; [| |done].
    + apply exec_st_lift_inv in H2 as [-> H2]. cbn in H2. injection H2 as ->.
      unfold push in H3. exec_ok. by simplify_eq.
    + apply exec_st_lift_inv in H2 as [-> H2]. done.
  - apply exec_st_prog_inv in H1 as (r0 & _ & Hr0). by destruct r0; simplify_eq.
Qed.

Lemma owner_only_denies owner meta u :
  u ≠ Key owner →
  check_user_permissions (Register_new owner meta Permissions_new_owner_only) u = Err (AccessDenied u).
Proof.
  intros Hu. unfold check_user_permissions, can_write, everyone_can_write. cbn.
  repeat case_bool_decide; set_solver.
Qed.

Lemma check_user_permissions_ext r r' u :
  reg_permissions r = reg_permissions r' → Register_address r = Register_address r' →
  check_user_permissions r u = check_user_permissions r' u.
Proof. unfold check_user_permissions, Register_owner. by intros -> ->. Qed.

(** Start-up. *)
Definition is_peer_added (i : ClientInput) : Prop :=
  match i with GotEvent (PeerAdded _) => True | _ => False end.

#[global] Instance is_peer_added_dec i : Decision (is_peer_added i).
Proof. unfold is_peer_added. repeat case_match; apply _. Defined.

Lemma wait_connected_app l1 l2 :
  wait_connected (l1 ++ l2) = match wait_connected l1 with Some r => Some r | None => wait_connected l2 end.
Proof. induction l1 as [|[u|[|n]] l1 IH]; cbn; done. Qed.

Definition startup_inv (n : nat) (c : Client) : Prop :=
  peers_added c = n ∧
  wait_connected (inr <$> events_channel c) = if decide (CLOSE_GROUP_SIZE ≤ n) then Some (Ok tt) else None.

Lemma event_round_startup n i c :
  startup_inv n c → startup_inv (if decide (is_peer_added i) then n + 1 else n) (event_round true i c).
Proof.
  intros [<- Hw]. destruct i as [e| |]; cbn [event_round].
  - destruct e; try done. cbn [handle_client_event is_peer_added]. rewrite (decide_True _ _ I).
    unfold mbind, StM_bind, modify, gets, mret, StM_ret. cbn.
    destruct (decide (CLOSE_GROUP_SIZE ≤ peers_added c + 1)) as [Hc|Hc]; (split; [done|]); cbn.
    + rewrite fmap_app, wait_connected_app, Hw, (decide_True _ _ Hc). by case_decide.
    + rewrite Hw, (decide_False _ _ Hc), decide_False; [done|]. lia.
  - by split.
  - change (if decide (is_peer_added TimedOut) then peers_added c + 1 else peers_added c) with (peers_added c).
    split; [done|]. cbn. rewrite fmap_app, wait_connected_app, Hw. by destruct (decide (CLOSE_GROUP_SIZE ≤ peers_added c)).
Qed.

Lemma event_rounds_startup inputs n c :
  startup_inv n c →
  startup_inv (n + length (filter is_peer_added inputs)) (foldl (λ c i, event_round true i c) c inputs).
Proof.
  revert n c. induction inputs as [|i inputs IH]; intros n c Hc; [by rewrite Nat.add_0_r|].
  apply (event_round_startup _ i) in Hc. apply IH in Hc. rewrite filter_cons. cbn [foldl].
  destruct (decide (is_peer_added i)); cbn [length]; [|done]. by rewrite <- Nat.add_assoc in Hc.
Qed.

End ClientLemmas.

(** ** Properties *)

Section Properties.
Context `{BLS : BlsCrate, XN : XorNameCrate, HX : HexCrate, KD : KadCrate, CR : CrdtsCrate, SE : SelfEncryptionCrate}.
Context `{TK : TokenCrate, DI : DbcIdCrate, SD : !SnDbcCrate, DC : !DbcCrate, RP : !RegisterParams}.
Context `{RH : RmpHeader, RC : Rmp (bytes * PaymentProof), RS : Rmp (list SignedSpend), RR : Rmp SignedRegister}.

(** C27: whatever the network answers, a register that a client retrieves is the
    one some peer holds under the address asked for, its owner signed it and
    every operation in it is authorised, and what the client works on is that
    register with its operations applied; nothing is stored on the way. *)
Theorem retrieved_register_verified client address tr r :
  exec (retrieve client address) tr (Ok r) →
  cr_address r = address ∧ cr_ops r = [] ∧ count_ops is_put tr = 0 ∧
  ∃ rec sr, network_answered (RegisterAddress_xorname address) rec tr ∧ try_deserialize_record rec = Ok sr ∧
    SignedRegister_verify sr = Ok tt ∧ SignedRegister_address sr = address ∧
    SignedRegister_register sr = Ok (cr_register r).
Proof.
  unfold retrieve. intros He. exec_ok. rewrite app_nil_r.
  match goal with H : exec _ _ _ |- _ => apply get_register_Ok in H as (rec & sr & Ha & Hd & Hp & Had & Hau & Hr) end.
  split_and!; [|done|done|].
  - unfold cr_address. cbn. rewrite <- Had. by apply (apply_all_address _ _ _ Hr).
  - exists rec, sr. split_and!; try done. by apply SignedRegister_verify_iff.
Qed.

(** C33: an entry the owner writes is queued as an operation that every replica
    of the register accepts, and applying that operation to the register as it
    was gives exactly the register the client now holds. *)
Theorem owner_write_accepted (HB : BlsLaws) (HC : CrdtsLaws) entry children r r' :
  write_atop entry children r = (r', Ok tt) →
  signer_pk (cr_client r) = Register_owner (cr_register r) →
  ∃ op, cr_ops r' = RC_Edit op :: cr_ops r ∧
    Register_apply_op op (cr_register r) = (cr_register r', Ok tt) ∧
    ∀ sr, SignedRegister_owner sr = Register_owner (cr_register r) →
      add_op op sr = (with_ops sr ({[ op ]} ∪ sr_ops sr), Ok tt).
Proof.
  intros (Hperm & Hsize & ->)%write_atop_Ok Hown. cbn zeta in *. eexists. split; [done|].
  match goal with |- Register_apply_op ?x _ = _ ∧ _ => set (op := x) end.
  assert (bytes_for_signing op = bytes_for_signing (RegisterOp_new (Register_address (cr_register r))
     (mreg_write (reg_data (cr_register r)) entry children) (Key (Register_owner (cr_register r))) None)) as Hb
    by (unfold op; rewrite Hown; done).
  assert (∀ reg, Register_owner reg = Register_owner (cr_register r) → op_authorised reg op) as Hau.
  { intros reg Hr. right. exists (signer_pk (cr_client r)), (Client_sign (cr_client r) (bytes_for_signing op)).
    split_and!; [done|left; congruence|by rewrite Hb|]. apply bls_verify_sign. }
  split.
  - destruct (Register_apply_op_spec op (cr_register r)) as [[H _]|(e & _ & H)]; [done|]. exfalso. apply H.
    apply check_sizes_iff in Hsize as [Hs1 Hs2]. split_and!; [|done|by apply Hau|done].
    cbn. by rewrite mreg_write_node.
  - intros sr Hsr. destruct (add_op_spec op sr) as [[H _]|(e & _ & H)]; [done|]. exfalso. by apply H, Hau.
Qed.

(** a push publishes the queued operations in the order in which they were
    made, each with the register the network held at that moment, and stops at
    the first one that fails: the operations published leave the queue, all
    others stay in it in their order, the failed one first in line again. *)
Theorem push_publishes_in_order verify r tr r' res :
  exec (push verify r) tr (Ok (r', res)) →
  cr_register r' = cr_register r ∧ cr_client r' = cr_client r ∧
  ∃ sent trs rest, cr_ops r = cr_ops r' ++ reverse sent ∧ tr = concat trs ++ rest ∧
    Forall2 (λ cmd t, published cmd verify t) sent trs ∧
    match res with
    | Ok _ => cr_ops r' = [] ∧ rest = []
    | Err e => ∃ front cmd, cr_ops r' = front ++ [cmd] ∧ exec (publish_register cmd verify) rest (Err e)
    | Panic _ => False
    end.
Proof.
  unfold push. intros He. exec_ok. simplify_eq. destruct a as [left res]. rewrite app_nil_r.
  match goal with H : exec (push_loop _ _) _ _ |- _ =>
    apply push_loop_spec in H as (sent & trs & rest & Htodo & -> & Hall & Hres) end.
  split_and!; [done|done|]. exists sent, trs, rest. cbn [set_ops cr_ops fst snd]. split_and!; [|done| |].
  - rewrite <- reverse_app, <- Htodo. by rewrite reverse_involutive.
  - eapply Forall2_impl; [exact Hall|]. intros cmd t H. exact (publish_register_Ok _ _ _ _ H).
  - destruct res as [[]|e|]; [by destruct Hres as [-> ->]| |done].
    destruct Hres as (cmd & more & -> & H). exists (reverse more), cmd. by rewrite reverse_cons.
Qed.

(** a user who is not the owner but is permitted to write queues an
    operation that no replica of a register closed to the public accepts: the
    bytes are signed while the operation still names the owner as its source,
    and the source is changed afterwards.  The entry is nevertheless written to
    the local copy.  (Hashing tells the two sources apart, and a signature is
    only valid for the bytes it was made for.) *)
Theorem delegated_write_rejected entry children r r'
    (Hbls : ∀ sk m m', bls_verify (public_key sk) (bls_sign sk m) m' = true → m = m')
    (Hhash : let reg := cr_register r in
             let h := node_hash (mreg_write (reg_data reg) entry children) in
             u64_to_ne_bytes (default_hasher_finish (Register_address reg) h (Key (Register_owner reg)))
             ≠ u64_to_ne_bytes (default_hasher_finish (Register_address reg) h (Key (signer_pk (cr_client r))))) :
  write_atop entry children r = (r', Ok tt) →
  ∃ op, cr_ops r' = RC_Edit op :: cr_ops r ∧ op_source op = Key (signer_pk (cr_client r)) ∧
    reg_data (cr_register r') = mreg_apply (reg_data (cr_register r)) (op_crdt_op op) ∧
    ∀ sr, Anyone ∉ writers (reg_permissions (base_register sr)) → ∃ e, add_op op sr = (sr, Err e).
Proof.
  intros (_ & _ & ->)%write_atop_Ok. cbn zeta. eexists. split_and!; [done|done|done|]. intros sr Hany.
  match goal with |- ∃ e, add_op ?op _ = _ => destruct (add_op_spec op sr) as [[_ Hau]|(e & H & _)]; [exfalso|by exists e] end.
  destruct Hau as [|(pk & sig & Hsrc & _ & Hsig & Hv)]; [done|]. cbn in Hsrc, Hsig.
  injection Hsrc as <-. injection Hsig as <-. apply Hbls in Hv. by apply Hhash.
Qed.

(** a register created through [create_public_online], which is documented
    as a register anybody can write to, denies every user but its owner. *)
Theorem public_register_is_owner_only client meta verify tr r u :
  exec (create_public_online client meta verify) tr (Ok r) → u ≠ Key (signer_pk client) →
  cr_address r = RegisterAddress_new meta (signer_pk client) ∧
  check_user_permissions (cr_register r) u = Err (AccessDenied u).
Proof.
  unfold create_public_online, synced. intros He Hu. exec_ok. destruct a as [r' res].
  match goal with H : exec (sync _ _) _ _ |- _ => apply sync_permissions in H as (Hp & Ha & _) end.
  cbn [fst]. split; [by rewrite Ha|].
  rewrite <- (owner_only_denies (signer_pk client) meta u) by done. by apply check_user_permissions_ext.
Qed.

(** C36: the client reports that it is connected exactly when it has been told
    of as many new peers as a close group has, whatever other events, timeouts
    and closed channels come in between; until then the start-up loop waits. *)
Theorem client_connects_with_close_group sk (inputs : list ClientInput) :
  let peers := length (filter is_peer_added inputs) in
  let client := foldl (λ c i, event_round true i c) (Client_new sk) inputs in
  peers_added client = peers ∧
  wait_connected (inr <$> events_channel client) = if decide (CLOSE_GROUP_SIZE ≤ peers) then Some (Ok tt) else None.
Proof. apply (event_rounds_startup inputs 0). by split. Qed.

End Properties.

(** ** The properties at concrete values *)

(** The network holds the register of [toy_owner]. *)
Definition toy_client : Client := Client_new toy_owner.
Definition toy_reg_address : RegisterAddress := Register_address toy_reg.
Definition toy_reg_rec : KRecord :=
  toy_record_of (T:=SignedRegister) (RegisterAddress_xorname toy_reg_address) toy_sr RK_Register.

Definition toy_retrieve_run : list (Effects.Event NetAns) * Res ClientError ClientRegister :=
  run (toy_network toy_reg_rec) 1 (retrieve toy_client toy_reg_address).

Lemma retrieved_register_verified_witness :
  ∃ r, toy_retrieve_run.2 = Ok r ∧ cr_address r = toy_reg_address ∧ cr_ops r = [].
Proof.
  assert (is_ok toy_retrieve_run.2 = true) as Hok by by_compute.
  destruct (is_ok_true _ Hok) as [r Hr]. exists r. split; [exact Hr|].
  destruct (retrieved_register_verified toy_client toy_reg_address toy_retrieve_run.1 r) as (H1 & H2 & _).
  - rewrite <- Hr. apply run_exec.
  - split; [exact H1|exact H2].
Defined.

Definition toy_cr : ClientRegister := {| cr_client := toy_client; cr_register := toy_reg; cr_ops := [] |}.
Definition toy_written : ClientRegister := (write_atop [Byte.x05] ∅ toy_cr).1.

Lemma owner_write_accepted_witness :
  ∃ op, cr_ops toy_written = [RC_Edit op] ∧ Register_apply_op op toy_reg = (cr_register toy_written, Ok tt) ∧
        (add_op op toy_sr).2 = Ok tt.
Proof.
  destruct (owner_write_accepted _ _ [Byte.x05] ∅ toy_cr toy_written) as (op & H1 & H2 & H3).
  - reflexivity.
  - reflexivity.
  - exists op. split_and!; [exact H1|exact H2|]. by rewrite (H3 toy_sr eq_refl).
Defined.

Definition toy_push_run : list (Effects.Event NetAns) * Res Empty_set (ClientRegister * Res ClientError unit) :=
  run (toy_network toy_reg_rec) 1 (push false toy_written).

Lemma push_publishes_in_order_witness :
  ∃ r', toy_push_run.2 = Ok (r', Ok tt) ∧ cr_ops r' = [] ∧ cr_register r' = cr_register toy_written.
Proof.
  assert (match toy_push_run.2 with Ok (_, Ok _) => true | _ => false end = true) as Hok by by_compute.
  destruct toy_push_run.2 as [[r' [[]| |]]| |] eqn:Hr; try discriminate Hok.
  exists r'. split; [reflexivity|].
  destruct (push_publishes_in_order false toy_written toy_push_run.1 r' (Ok tt)) as (H1 & _ & sent & trs & rest & _ & _ & _ & H2 & _).
  - rewrite <- Hr. apply run_exec.
  - split; [exact H2|exact H1].
Defined.

(** A register that [toy_guest] may write to. *)
Definition toy_guest : SecretKey := Byte.x03.
Definition toy_shared_reg : Register :=
  Register_new toy_owner (replicate 32 Byte.x07) (Permissions_new_with [Key (toy_guest : PublicKey)]).
Definition toy_guest_cr : ClientRegister :=
  {| cr_client := Client_new toy_guest; cr_register := toy_shared_reg; cr_ops := [] |}.

Lemma delegated_write_rejected_witness :
  ∃ op, cr_ops (write_atop [Byte.x05] ∅ toy_guest_cr).1 = [RC_Edit op] ∧
    let sr := SignedRegister_new toy_shared_reg (sr_signature toy_sr) in ∃ e, add_op op sr = (sr, Err e).
Proof.
  destruct (delegated_write_rejected [Byte.x05] ∅ toy_guest_cr (write_atop [Byte.x05] ∅ toy_guest_cr).1)
    as (op & H1 & _ & _ & H2).
  - intros sk m m' H. apply bool_decide_eq_true_1 in H. by injection H.
  - cbn zeta. by_compute.
  - reflexivity.
  - exists op. split; [exact H1|]. apply H2. by_compute.
Defined.

Definition toy_public_run : list (Effects.Event NetAns) * Res ClientError ClientRegister :=
  run (toy_network toy_reg_rec) 1 (create_public_online toy_client (replicate 32 Byte.x07) false).

Lemma public_register_witness :
  ∃ r, toy_public_run.2 = Ok r ∧ check_user_permissions (cr_register r) Anyone = Err (AccessDenied Anyone).
Proof.
  assert (is_ok toy_public_run.2 = true) as Hok by by_compute.
  destruct (is_ok_true _ Hok) as [r Hr]. exists r. split; [exact Hr|].
  apply (public_register_is_owner_only toy_client (replicate 32 Byte.x07) false toy_public_run.1 r Anyone).
  - rewrite <- Hr. apply run_exec.
  - discriminate.
Defined.
