(* ===== verification/ClientWallet.v ===== *)
(** * sn_client: the wallet client

    [WalletClient] and the spend operations of [Client]:
    src/sn_client/src/wallet.rs.  The futures of a [join_all] are interleaved
    by a schedule, an argument; so are the random target of a price quote, the
    order in which quotes arrive and the random derivation indices.

    The main theorems: a transfer is sent when every one of its spends was
    stored; a DBC is verified only if the network answered each of its spends;
    a payment for storage gives, for each address, a proof that every node
    accepts whose price is not above the one paid; a transfer that could not be
    sent is queued; and republishing the queue drops the wrong transfer or
    panics when more than one succeeds. *)

From S2P Require Import Prelude Deps ToyCrates Registers Protocol Transfers RecordStore Payments Effects Network SwarmDriver Wallet Client.
From stdpp Require Import base tactics list gmap sorting strings.
From Stdlib Require Import ZArith NArith Strings.Byte Lia.

Section WalletClient.
Context `{BLS : BlsCrate, XN : XorNameCrate, HX : HexCrate, KD : KadCrate, CR : CrdtsCrate, SE : SelfEncryptionCrate}.
Context `{TK : TokenCrate, DI : DbcIdCrate, SD : !SnDbcCrate, DC : !DbcCrate, RP : !RegisterParams, MK : MerkleCrate}.
Context `{RH : RmpHeader, RC : Rmp (bytes * PaymentProof), RS : Rmp (list SignedSpend), RR : Rmp SignedRegister}.
Context (bld : Build).

(** ** [Client]: sending and verifying spends *)

Definition client_send (sched : list nat) (transfer : TransferOutputs) (verify_store : bool) : NetProg WalletError unit :=
  results ← join_all sched ((λ r, network_store_spend r verify_store) <$> all_spend_requests transfer);
  lift (try_for_each (map_err (λ _ : ClientError, CouldNotSendTokens)) results).

Definition send_without_verify (sched : list nat) (transfer : TransferOutputs) : NetProg WalletError unit :=
  results ← join_all sched ((λ r, network_store_spend r false) <$> all_spend_requests transfer);
  lift (try_for_each (map_err (λ _ : ClientError, CouldNotSendTokens)) results).

Definition client_verify (sched : list nat) (dbc : Dbc) : NetProg WalletError unit :=
  results ← join_all sched ((λ s, client_get_spend_from_network (spend_dbc_id s)) <$> btree_iter (dbc_signed_spends dbc));
  received_spends ← lift (try_fold (λ (received : gset SignedSpend) result,
    spend ← map_err (λ _ : ClientError, CouldNotVerifyTransfer) result; Ok ({[ spend ]} ∪ received)) ∅ results);
  if decide (received_spends = dbc_signed_spends dbc) then lift (Ok tt) else lift (Err CouldNotVerifyTransfer).

(** ** [WalletClient] *)

Record WalletClient := {
  wc_client : Client;
  wc_wallet : LocalWallet;
  unconfirmed_txs : list TransferOutputs;
}.

Definition WalletClient_new (client : Client) (wallet : LocalWallet) : WalletClient :=
  {| wc_client := client; wc_wallet := wallet; unconfirmed_txs := [] |}.

Definition set_client (c : Client) (w : WalletClient) : WalletClient :=
  {| wc_client := c; wc_wallet := wc_wallet w; unconfirmed_txs := unconfirmed_txs w |}.
Definition set_wallet (l : LocalWallet) (w : WalletClient) : WalletClient :=
  {| wc_client := wc_client w; wc_wallet := l; unconfirmed_txs := unconfirmed_txs w |}.
Definition set_unconfirmed (txs : list TransferOutputs) (w : WalletClient) : WalletClient :=
  {| wc_client := wc_client w; wc_wallet := wc_wallet w; unconfirmed_txs := txs |}.

Definition wc_store_cost (w : WalletClient) : Token := from_nano (network_store_cost (wc_client w)).
Definition unconfirmed_txs_exist (w : WalletClient) : bool := negb (bool_decide (unconfirmed_txs w = [])).

(** Methods of the wallet and of the client inside. *)
Definition on_local {A : Type} (m : StM LocalWallet WalletError A) : StM WalletClient WalletError A := λ w,
  let '(l, x) := m (wc_wallet w) in (set_wallet l w, x).
Definition on_client {A : Type} (f : ClientError → WalletError) (m : StP NetAns Client ClientError A)
    : StP NetAns WalletClient WalletError A := λ w,
  x ← m (wc_client w); Done (Ok (set_client x.1 w, map_err f x.2)).

(** [Vec::remove]. *)
Definition vec_remove {A E : Type} (i : nat) (l : list A) : Res E (list A) :=
  if decide (i < length l) then Ok (delete i l) else Panic SliceOutOfBounds.

(** The loop over a copy of the queue, [txs] being the queue itself.
    [sched] gives the schedule of each transfer. *)
Fixpoint resend_loop (sched : nat → list nat) (verify_store : bool) (index : nat) (copy txs : list TransferOutputs)
    : NetProg Empty_set (list TransferOutputs) :=
  match copy with
  | [] => Done (Ok txs)
  | transfer :: copy =>
      result ← attempt (client_send (sched index) transfer verify_store);
      if is_ok result then
        txs ← lift (vec_remove index txs);
        resend_loop sched verify_store (S index) copy txs
      else resend_loop sched verify_store (S index) copy txs
  end.

Definition resend_pending_txs (sched : nat → list nat) (verify_store : bool) : StP NetAns WalletClient WalletError unit := λ w,
  txs ← resend_loop sched verify_store 0 (unconfirmed_txs w) (unconfirmed_txs w);
  Done (Ok (set_unconfirmed txs w, Ok tt)).

(** [Hash::default()]. *)
Definition zero_hash : Hash32 := replicate 32 Byte.x00.

(** Send a transfer; one that fails is queued. *)
Definition send_or_queue (sched : list nat) (transfer : TransferOutputs) (verify_store : bool)
    : StP NetAns WalletClient WalletError (option WalletError) := λ w,
  result ← attempt (client_send sched transfer verify_store);
  match result with
  | Err error => Done (Ok (set_unconfirmed (unconfirmed_txs w ++ [transfer]) w, Ok (Some error)))
  | _ => Done (Ok (w, Ok None))
  end.

Definition wc_send (resend_sched : nat → list nat) (sched : list nat) (rnds : list bytes) (rnd : bytes)
    (amount : Token) (to : PublicAddress) (verify_store : bool) : StP NetAns WalletClient WalletError Dbc :=
  _ ← resend_pending_txs resend_sched verify_store;
  transfer ← st_lift (on_local (local_send bld [(amount, to)] zero_hash rnds rnd));
  _ ← send_or_queue sched transfer verify_store;
  match created_dbcs transfer with
  | info :: _ => mret info
  | [] => st_lift (throw CouldNotSendTokens)
  end.

(** [random_target] is the random name. *)
Definition set_store_cost_from_random_address (order : list PeerId → list PeerId) (random_target : XorName)
    : StP NetAns WalletClient WalletError Token :=
  on_client (λ _, CouldNotSendTokens)
    (get_store_cost_at_address order (NA_ChunkAddress {| chunk_xorname := random_target |}) false).

(** [(2.0f64.powf((n / 100 + 1) as f64)) as u64]: powers of two are exact, and
    the conversion saturates. *)
Definition cost_factor (num_of_addrs : nat) : Z :=
  Z.min (2 ^ (Z.of_nat num_of_addrs / 100 + 1)) (two64 - 1).

Definition proofs_of (spent_ids : list DbcId) (info : gmap XorName (list Hash32 * list Z)) : gmap XorName PaymentProof :=
  (λ e : list Hash32 * list Z, {| spent_ids := spent_ids; audit_trail := e.1; proof_path := e.2 |}) <$> info.

Definition pay_for_storage (order : list PeerId → list PeerId) (random_target : XorName) (sched : list nat) (rnd : bytes)
    (content_addrs : list XorName) (verify_store : bool)
    : StP NetAns WalletClient WalletError (gmap XorName PaymentProof * option Token) :=
  let number_of_records_to_pay := Z.of_nat (length content_addrs) in
  if decide (content_addrs = []) then mret (∅, None)
  else
    built ← st_lift (lift_res (map_err StoragePaymentProof (build_payment_proofs content_addrs)));
    let '(root_hash, audit_trail_info) := built in
    let num_of_addrs := size (audit_trail_info : gmap XorName (list Hash32 * list Z)) in
    _ ← set_store_cost_from_random_address order random_target;
    store_cost ← st_lift (gets wc_store_cost);
    cost ← st_lift (lift_res (u64_mul bld (as_nano store_cost) (cost_factor num_of_addrs)));
    let storage_cost := from_nano cost in
    amount_to_pay ← st_lift (lift_res (u64_mul bld number_of_records_to_pay (as_nano storage_cost)));
    transfer ← st_lift (on_local (local_send_storage_payment bld (from_nano amount_to_pay) root_hash zero_hash rnd));
    failed ← send_or_queue sched transfer verify_store;
    match failed with
    | Some error => st_lift (throw error)
    | None =>
        let spent_ids := input_dbc_id <$> tx_inputs (to_tx transfer) in
        let new_payment_proofs := proofs_of spent_ids audit_trail_info in
        _ ← st_lift (on_local (modify (add_payment_proofs new_payment_proofs)));
        mret (new_payment_proofs ∪ ∅, Some storage_cost)
    end.

End WalletClient.

(** ** Lemmas *)

Section WalletClientLemmas.
Context `{BLS : BlsCrate, XN : XorNameCrate, HX : HexCrate, KD : KadCrate, CR : CrdtsCrate, SE : SelfEncryptionCrate}.
Context `{TK : TokenCrate, DI : DbcIdCrate, SD : !SnDbcCrate, DC : !DbcCrate, RP : !RegisterParams, MK : MerkleCrate}.
Context `{RH : RmpHeader, RC : Rmp (bytes * PaymentProof), RS : Rmp (list SignedSpend), RR : Rmp SignedRegister}.

Definition spend_record_key (id : DbcId) : RecordKey := to_record_key (from_dbc_address (DbcAddress_from_dbc_id id)).

(** The spend of a request was put under the key of its id. *)
Definition spend_put (r : SpendRequest) (verify : bool) (tr : list (Effects.Event NetAns)) : Prop :=
  ∃ value, try_serialize_record [signed_spend r] RK_DbcSpend = Ok value ∧
    record_put {| r_key := spend_record_key (spend_dbc_id (signed_spend r)); r_value := value |} verify tr.

Lemma spend_put_mono r verify tr tr' : tr `sublist_of` tr' → spend_put r verify tr → spend_put r verify tr'.
Proof. intros Hs (v & Hv & Hp). exists v. split; [done|]. by eapply record_put_mono. Qed.

Lemma network_store_spend_outcome r verify tr res :
  exec (network_store_spend r verify) tr res →
  match res with Ok _ => spend_put r verify tr | Err _ => True | Panic _ => False end.
Proof.
  unfold network_store_spend. intros [(v & t1 & t2 & -> & [-> Hv]%exec_lift_inv & H)|[(e & -> & _)|(w & -> & H)]]%exec_bind_inv.
  - apply exec_map_err_inv in H as (r0 & H & ->). apply put_record_outcome in H.
    destruct r0 as [[]| |]; [|done|done]. exists v. split; [|done]. symmetry in Hv. by apply map_err_Ok_iff in Hv.
  - done.
  - apply exec_lift_inv in H as [_ H]. destruct (try_serialize_record _ _) eqn:E; try done. by apply try_serialize_no_panic in E.
Qed.

(** The outcome of sending: all spends were stored, or there is an error. *)
Lemma client_send_outcome sched transfer verify tr res :
  exec (client_send sched transfer verify) tr res →
  match res with
  | Ok _ => ∀ r, r ∈ all_spend_requests transfer → spend_put r verify tr
  | Err e => e = CouldNotSendTokens
  | Panic _ => False
  end.
Proof.
  unfold client_send. intros [(rs & t1 & t2 & -> & H1 & [-> ->]%exec_lift_inv)|[(e & -> & H)|(w & -> & H)]]%exec_bind_inv.
  - rewrite app_nil_r. apply exec_join_all_inv in H1 as (runs & Hall & -> & _ & Hsub).
    apply Forall2_fmap_l in Hall.
    destruct (try_for_each _ _) as [[]|e|w] eqn:Hf.
    + apply try_for_each_Ok_iff in Hf. intros r [i Hr]%list_elem_of_lookup.
      destruct (Forall2_lookup_l _ _ _ _ _ Hall Hr) as ([t x] & Hx & He).
      assert (runs.*2 !! i = Some x) as Hx2 by (by rewrite list_lookup_fmap, Hx).
      apply (Forall_lookup_1 _ _ _ _ Hf) in Hx2. apply map_err_Ok_iff in Hx2 as ->.
      apply network_store_spend_outcome in He.
      eapply spend_put_mono; [|exact He]. by apply (Forall_lookup_1 _ _ _ _ Hsub Hx).
    + apply try_for_each_Err in Hf as (l1 & x & l2 & _ & _ & Hx). destruct x; cbn in Hx; by simplify_eq.
    + eapply (try_for_each_no_panic (map_err (λ _ : ClientError, CouldNotSendTokens)) runs.*2); [|by exists w].
      intros x ([t x'] & -> & [i Hx]%list_elem_of_lookup)%list_elem_of_fmap [w' Hw].
      destruct (Forall2_lookup_r _ _ _ _ _ Hall Hx) as (r & _ & He). apply network_store_spend_outcome in He.
      cbn in *. by destruct x'.
  - by apply exec_join_all_inv in H.
  - apply exec_join_all_inv in H as (p & t & Hp & He). apply list_elem_of_fmap in Hp as (r & -> & _).
    by apply network_store_spend_outcome in He.
Qed.

(** A spend fetched by a client: the only one in a record the network answered
    under its key, and correctly signed. *)
Definition spend_confirmed (s : SignedSpend) (tr : list (Effects.Event NetAns)) : Prop :=
  spend_verify s (spent_tx_hash s) = true ∧
  ∃ rec, network_answered (spend_record_key (spend_dbc_id s)) rec tr ∧
         try_deserialize_record (T:=list SignedSpend) rec = Ok [s].

Lemma client_get_spend_Ok id tr s :
  exec (client_get_spend_from_network id) tr (Ok s) → spend_dbc_id s = id ∧ spend_confirmed s tr.
Proof.
  unfold client_get_spend_from_network. intros He. exec_ok.
  match goal with H : exec (get_record_from_network _ _ _) _ _ |- _ =>
    apply get_record_from_network_spec in H as (_ & _ & Ha & _) end.
  destruct (rh_kind _); exec_ok.
  match goal with H : try_deserialize_record _ = Ok ?l |- _ => rename H into Hd; destruct l as [|s' [|]] end; exec_ok.
  rewrite !app_nil_r. split; [done|]. split; [done|]. by eexists.
Qed.

(** The loop that collects the results of [verify]. *)
Lemma collect_spends (results : list (Res ClientError SignedSpend)) (acc received : gset SignedSpend) :
  try_fold (λ (received : gset SignedSpend) result,
    spend ← map_err (λ _ : ClientError, CouldNotVerifyTransfer) result; Ok ({[ spend ]} ∪ received)) acc results
    = Ok received →
  ∀ s, s ∈ received → s ∈ acc ∨ Ok s ∈ results.
Proof.
  revert acc. induction results as [|x results IH]; intros acc; cbn; [intros [= ->]; by left|].
  intros (acc' & (s0 & H0%map_err_Ok_iff & [= <-])%bind_Ok_iff & H)%bind_Ok_iff s Hs. subst x.
  apply (IH _ H) in Hs as [[->%elem_of_singleton|Hs]%elem_of_union|Hs]; [right; by left|by left|right; by right].
Qed.

Lemma client_verify_Ok sched dbc tr u :
  exec (client_verify sched dbc) tr (Ok u) → ∀ s, s ∈ dbc_signed_spends dbc → spend_confirmed s tr.
Proof.
  unfold client_verify. intros He. exec_ok.
  match goal with H : Ok _ = try_fold _ _ _ |- _ => rename H into Hf; symmetry in Hf end.
  rewrite !app_nil_r. intros s Hs.
  apply (collect_spends _ _ _ Hf) in Hs as [?%elem_of_empty|Hs]; [done|].
  match goal with H : exec (join_all _ _) _ _ |- _ => apply exec_join_all_inv in H as (runs & Hall & -> & _ & Hsub) end.
  apply Forall2_fmap_l in Hall. apply list_elem_of_fmap in Hs as ([t0 x] & Hx & [i Hi]%list_elem_of_lookup). cbn in Hx. subst x.
  destruct (Forall2_lookup_r _ _ _ _ _ Hall Hi) as (s0 & _ & He). apply client_get_spend_Ok in He as (_ & Hv & rec & Ha & Hd).
  split; [done|]. exists rec. split; [|done]. eapply network_answered_mono; [|exact Ha].
  intros ev Hev. eapply elem_of_sublist; [exact Hev|]. exact (Forall_lookup_1 _ _ _ _ Hsub Hi).
Qed.

(** Sending or queueing never fails and changes only the queue. *)
Lemma send_or_queue_Ok sched transfer verify w tr w' failed :
  exec (send_or_queue sched transfer verify w) tr (Ok (w', Ok failed)) →
  match failed with
  | None => w' = w ∧ ∀ r, r ∈ all_spend_requests transfer → spend_put r verify tr
  | Some e => w' = set_unconfirmed (unconfirmed_txs w ++ [transfer]) w
  end.
Proof.
  unfold send_or_queue. intros He. exec_ok.
  match goal with H : exec (client_send _ _ _) _ ?r |- _ => apply client_send_outcome in H as Ho; destruct r end; exec_ok; simplify_eq.
  - rewrite app_nil_r. done.
  - done.
  - done.
Qed.

Lemma resend_keeps sched verify w tr w' x :
  exec (resend_pending_txs sched verify w) tr (Ok (w', x)) →
  x = Ok tt ∧ wc_client w' = wc_client w ∧ wc_wallet w' = wc_wallet w.
Proof. unfold resend_pending_txs. intros He. exec_ok. by simplify_eq. Qed.

Lemma local_storage_payment_Ok bld payment root reason rnd l l' out :
  local_send_storage_payment bld payment root reason rnd l = (l', Ok out) →
  create_storage_payment_transfer bld (LocalWallet_available_dbcs l) (LocalWallet_address l) payment root reason rnd
  = Ok out.
Proof.
  unfold local_send_storage_payment, mbind, StM_bind, gets, lift_res. cbn.
  destruct (create_storage_payment_transfer _ _ _ _ _ _ _) as [o|e|p]; cbn; [|done|done].
  destruct (update_local_wallet bld o l) as [l1 [[]| |]]; [|done|done]. by intros [= _ ->].
Qed.

(** The steps of a payment that succeeded. *)
Lemma pay_for_storage_cases bld order target sched rnd addrs verify w tr w' proofs cost_paid :
  exec (pay_for_storage bld order target sched rnd addrs verify w) tr (Ok (w', Ok (proofs, cost_paid))) →
  (addrs = [] ∧ proofs = ∅ ∧ cost_paid = None) ∨
  addrs ≠ [] ∧ ∃ cost root info amount l l' transfer,
    cost_paid = Some cost ∧ build_payment_proofs addrs = Ok (root, info) ∧
    u64_mul bld (Z.of_nat (length addrs)) (as_nano cost) = Ok (E:=WalletError) amount ∧
    local_send_storage_payment bld (from_nano amount) root zero_hash rnd l = (l', Ok transfer) ∧
    (∀ r, r ∈ all_spend_requests transfer → spend_put r verify tr) ∧
    proofs = proofs_of (input_dbc_id <$> tx_inputs (to_tx transfer)) info ∧
    wc_wallet w' = add_payment_proofs proofs l'.
Proof.
  unfold pay_for_storage. case_decide as Hne; [intros [_ [= -> -> ->]]%exec_done_inv; by left|]. intros H. right. split; [done|].
  apply exec_st_bind_Ok in H as (w1 & [root info] & t1 & t2 & -> & [-> H1]%exec_st_lift_Ok & H).
  injection H1 as <- H1%map_err_Ok_iff.
  apply exec_st_bind_Ok in H as (w2 & q & t3 & t4 & -> & _ & H).
  apply exec_st_bind_Ok in H as (w3 & sc & t5 & t6 & -> & [-> H2]%exec_st_lift_Ok & H). injection H2 as <- <-.
  apply exec_st_bind_Ok in H as (w4 & c & t7 & t8 & -> & [-> H2]%exec_st_lift_Ok & H). injection H2 as <- H2.
  apply exec_st_bind_Ok in H as (w5 & amount & t9 & t10 & -> & [-> H3]%exec_st_lift_Ok & H). injection H3 as <- H3.
  apply exec_st_bind_Ok in H as (w6 & transfer & t11 & t12 & -> & [-> H4]%exec_st_lift_Ok & H).
  unfold on_local in H4. destruct (local_send_storage_payment _ _ _ _ _ _) as [l' x] eqn:Hl. injection H4 as <- ->.
  apply exec_st_bind_Ok in H as (w7 & failed & t13 & t14 & -> & H5%send_or_queue_Ok & H).
  destruct failed as [e|]; [by apply exec_st_lift_Ok in H as [_ ?]|]. destruct H5 as [-> Hput].
  apply exec_st_bind_Ok in H as (w8 & [] & t15 & t16 & -> & [-> H6]%exec_st_lift_Ok & H). injection H6 as <-.
  apply exec_done_inv in H as [-> [= -> -> ->]]. rewrite (right_id_L ∅ (∪)).
  eexists _, root, info, amount, (wc_wallet w2), l', transfer. split_and!; try done.
  intros r Hr. eapply spend_put_mono; [|by apply Hput]. cbn. by apply sublist_inserts_l, sublist_inserts_r.
Qed.

Lemma pay_for_storage_steps bld order target sched rnd addrs verify w tr w' proofs cost :
  exec (pay_for_storage bld order target sched rnd addrs verify w) tr (Ok (w', Ok (proofs, Some cost))) →
  addrs ≠ [] ∧ ∃ root info amount l l' transfer,
    build_payment_proofs addrs = Ok (root, info) ∧
    u64_mul bld (Z.of_nat (length addrs)) (as_nano cost) = Ok (E:=WalletError) amount ∧
    local_send_storage_payment bld (from_nano amount) root zero_hash rnd l = (l', Ok transfer) ∧
    (∀ r, r ∈ all_spend_requests transfer → spend_put r verify tr) ∧
    proofs = proofs_of (input_dbc_id <$> tx_inputs (to_tx transfer)) info ∧
    wc_wallet w' = add_payment_proofs proofs l'.
Proof.
  intros [(_ & _ & [=])|(Hne & c & root & info & amount & l & l' & out & [= <-] & H)]%pay_for_storage_cases.
  split; [done|]. by exists root, info, amount, l, l', out.
Qed.

(** A payment of more than nothing has an input. *)
Lemma storage_payment_inputs (HT : TokenLaws) (HS : SnDbcLaws) (HD : DbcLaws) bld avail change_to payment root reason rnd out :
  create_storage_payment_transfer bld avail change_to payment root reason rnd = Ok out →
  (0 < as_nano payment)%Z → tx_inputs (to_tx out) ≠ [].
Proof.
  intros [Hin _]%storage_payment_Ok Hpos H0. unfold tx_in in Hin. rewrite H0 in Hin. cbn in Hin.
  assert (0 ≤ tx_out (to_tx out))%Z; [|lia].
  apply Zsum_nonneg, Forall_fmap, Forall_true. intros o. apply as_nano_range.
Qed.

(** The addresses that have a proof are those paid for. *)
Lemma pay_for_storage_proofs (HM : MerkleLaws) bld order target sched rnd addrs verify w tr w' proofs cost_paid :
  exec (pay_for_storage bld order target sched rnd addrs verify w) tr (Ok (w', Ok (proofs, cost_paid))) →
  ∀ x, is_Some (proofs !! x) ↔ x ∈ addrs.
Proof.
  intros [(-> & -> & _)|(Hne & c & root & info & amount & l & l' & out & _ & Hb & _ & _ & _ & -> & _)]%pay_for_storage_cases x.
  { rewrite lookup_empty, elem_of_nil. split; [by intros [? ?]|done]. }
  destruct (build_payment_proofs_spec addrs Hne) as (root' & m & t & d & Hb' & _ & _ & _ & He & Hall).
  rewrite Hb in Hb'. injection Hb' as <- <-. unfold proofs_of. rewrite lookup_fmap, fmap_is_Some. split; [|apply Hall].
  intros [e Hx]. apply He in Hx as (i & Hi & _). by eapply list_elem_of_lookup_2.
Qed.

(** One round of the loop that republishes. *)
Lemma resend_step sched verify index transfer copy txs t1 t2 res r :
  exec (client_send (sched index) transfer verify) t1 res →
  match res with
  | Ok _ => ∃ txs', vec_remove index txs = Ok (E:=Empty_set) txs' ∧ exec (resend_loop sched verify (S index) copy txs') t2 r
  | _ => exec (resend_loop sched verify (S index) copy txs) t2 r
  end →
  exec (resend_loop sched verify index (transfer :: copy) txs) (t1 ++ t2) r.
Proof.
  intros H1 H2. pose proof (client_send_outcome _ _ _ _ _ H1) as Ho. cbn [resend_loop].
  eapply exec_bind; [apply exec_attempt; [exact H1|intros [w ->]; done]|].
  destruct res as [[]| |]; [|done|done]. destruct H2 as (txs' & Hv & H2). cbn [is_ok].
  apply (exec_bind _ _ [] t2 txs'); [|done]. rewrite Hv. constructor.
Qed.

Lemma resend_step_panic sched verify index transfer copy txs t1 :
  exec (client_send (sched index) transfer verify) t1 (Ok tt) → length txs ≤ index →
  exec (resend_loop sched verify index (transfer :: copy) txs) t1 (Panic SliceOutOfBounds).
Proof.
  intros H1 Hi. cbn [resend_loop]. rewrite <- (app_nil_r t1).
  eapply exec_bind; [apply exec_attempt; [exact H1|by intros [w ?]]|]. cbn [is_ok].
  apply exec_bind_Panic. unfold vec_remove. rewrite decide_False by lia. constructor.
Qed.

(** The steps of a send that returned. *)
Lemma wc_send_Ok bld rsched sched rnds rnd amount to verify w tr w' dbc :
  exec (wc_send bld rsched sched rnds rnd amount to verify w) tr (Ok (w', Ok dbc)) →
  ∃ transfer queue,
    local_send bld [(amount, to)] zero_hash rnds rnd (wc_wallet w) = (wc_wallet w', Ok transfer) ∧
    head (created_dbcs transfer) = Some dbc ∧
    ((unconfirmed_txs w' = queue ∧ ∀ r, r ∈ all_spend_requests transfer → spend_put r verify tr) ∨
     unconfirmed_txs w' = queue ++ [transfer]) ∧
    ∃ t, exec (resend_loop rsched verify 0 (unconfirmed_txs w) (unconfirmed_txs w)) t (Ok queue).
Proof.
  unfold wc_send. intros H.
  apply exec_st_bind_Ok in H as (w1 & [] & t1 & t2 & -> & H1 & H).
  pose proof (resend_keeps _ _ _ _ _ _ H1) as (_ & _ & Hw).
  assert (exec (resend_loop rsched verify 0 (unconfirmed_txs w) (unconfirmed_txs w)) t1 (Ok (unconfirmed_txs w1))) as Hq.
  { unfold resend_pending_txs in H1. exec_ok. simplify_eq. by rewrite app_nil_r. }
  apply exec_st_bind_Ok in H as (w2 & transfer & t3 & t4 & -> & [-> H2]%exec_st_lift_Ok & H).
  unfold on_local in H2. rewrite Hw in H2. destruct (local_send _ _ _ _ _ _) as [l' x] eqn:Hl. injection H2 as <- ->.
  apply exec_st_bind_Ok in H as (w3 & failed & t5 & t6 & -> & H3%send_or_queue_Ok & H).
  assert (head (created_dbcs transfer) = Some dbc ∧ w3 = w' ∧ t6 = []) as (Hh & -> & ->).
  { destruct (created_dbcs transfer) as [|d l]; [by apply exec_st_lift_Ok in H as [_ ?]|].
    apply exec_done_inv in H as [-> H]. by simplify_eq. }
  exists transfer, (unconfirmed_txs w1). split_and!; [|done| |by exists t1].
  - destruct failed; [by subst w'|by destruct H3 as [-> _]].
  - destruct failed; [right; by subst w'|]. destruct H3 as [-> Hput]. left. split; [done|].
    intros r Hr. eapply spend_put_mono; [|by apply Hput]. cbn. by apply sublist_inserts_l, sublist_inserts_r.
Qed.

End WalletClientLemmas.

(** ** Properties *)

Section Properties.
Context `{BLS : BlsCrate, XN : XorNameCrate, HX : HexCrate, KD : KadCrate, CR : CrdtsCrate, SE : SelfEncryptionCrate}.
Context `{TK : TokenCrate, DI : DbcIdCrate, SD : !SnDbcCrate, DC : !DbcCrate, RP : !RegisterParams, MK : MerkleCrate}.
Context `{RH : RmpHeader, RC : Rmp (bytes * PaymentProof), RS : Rmp (list SignedSpend), RR : Rmp SignedRegister}.

(** C13: a payment for storage that returns gives a proof for exactly the
    addresses paid for; every proof names all inputs of the transaction of the
    payment, at least one, and the spend of each of them, which is of this
    transaction, was stored; every node whose price is not above the cost per
    record accepts the proof on this transaction; the proofs are kept in the
    wallet.  In release builds this needs that the total amount fits in 64 bits. *)
Theorem pay_for_storage_accepted (HT : TokenLaws) (HS : SnDbcLaws) (HD : DbcLaws) (HM : MerkleLaws)
    bld order target sched rnd addrs verify w tr w' proofs cost :
  exec (pay_for_storage bld order target sched rnd addrs verify w) tr (Ok (w', Ok (proofs, Some cost))) →
  (Z.of_nat (length addrs) < 2 ^ 58)%Z → (0 < as_nano cost)%Z →
  (bld = Debug ∨ in_u64 (Z.of_nat (length addrs) * as_nano cost)) →
  ∃ tx, (∀ x, is_Some (proofs !! x) ↔ x ∈ addrs) ∧ tx_inputs tx ≠ [] ∧
    (∀ id, id ∈ input_dbc_id <$> tx_inputs tx →
       ∃ r, spend_dbc_id (signed_spend r) = id ∧ spent_tx (signed_spend r) = tx ∧ spend_put r verify tr) ∧
    (∀ x proof, proofs !! x = Some proof →
       get_payment_proof (wc_wallet w') x = Some proof ∧
       spent_ids proof = input_dbc_id <$> tx_inputs tx ∧
       ∀ bld' fee, token_le fee cost →
         verify_fee_output_and_proof bld' x fee tx (audit_trail proof) (proof_path proof) = Ok tt).
Proof.
  intros Hx Hlen Hc Hov. pose proof (pay_for_storage_proofs HM _ _ _ _ _ _ _ _ _ _ _ _ Hx) as Hdom.
  apply pay_for_storage_steps in Hx as (Hne & root & info & amount & l & l' & out & Hb & Ham & Hl & Hput & -> & Hw).
  apply local_storage_payment_Ok in Hl. exists (to_tx out). split; [exact Hdom|].
  destruct (storage_payment_requests _ _ _ _ _ _ _ _ Hl) as [Htx Hreq].
  apply u64_of_exact in Ham as [-> Hrange]; [|done]. split_and!.
  { apply (storage_payment_inputs HT HS HD _ _ _ _ _ _ _ _ Hl). rewrite as_from_nano by done. destruct addrs; [done|]. cbn [length]. nia. }
  { intros id (i & -> & Hi)%list_elem_of_fmap. destruct (Hreq i Hi) as (r & Hr & Hid).
    exists r. split_and!; [done|by apply Htx|by apply Hput]. }
  intros x proof Hx. pose proof Hx as Hx0. unfold proofs_of in Hx. rewrite lookup_fmap in Hx.
  apply fmap_Some in Hx as ([trail path] & Hx & ->). split_and!.
  + rewrite Hw. unfold get_payment_proof. cbn. by apply lookup_union_Some_l.
  + done.
  + intros bld' fee Hfee. cbn.
    eapply (honest_payment_accepted HT HS HD HM bld bld' addrs root info x trail path); try done.
    rewrite as_from_nano by done. lia.
Qed.

(** whatever the interleaving of the requests, sending a transfer returns
    without error only if every spend of it was stored under the key of its id
    (and read back, when verification is asked for); it never panics, and any
    failure is reported as [CouldNotSendTokens]. *)
Theorem sent_transfer_is_stored sched transfer verify tr res :
  exec (client_send sched transfer verify) tr res →
  match res with
  | Ok _ => ∀ r, r ∈ all_spend_requests transfer → spend_put r verify tr
  | Err e => e = CouldNotSendTokens
  | Panic _ => False
  end.
Proof. apply client_send_outcome. Qed.

(** a DBC is reported as valid only if for each of its spends the network
    answered, under the key of its id, a record that holds exactly that spend,
    and the spend is correctly signed. *)
Theorem verified_dbc_is_confirmed sched dbc tr :
  exec (client_verify sched dbc) tr (Ok tt) → ∀ s, s ∈ dbc_signed_spends dbc → spend_confirmed s tr.
Proof. apply client_verify_Ok. Qed.

(** a send by the wallet that returns made the transfer in the local wallet
    and returns the first DBC created for others; the transfer was either stored
    completely, or it is now the last one of the queue of unconfirmed ones. *)
Theorem send_is_stored_or_queued bld rsched sched rnds rnd amount to verify w tr w' dbc :
  exec (wc_send bld rsched sched rnds rnd amount to verify w) tr (Ok (w', Ok dbc)) →
  ∃ transfer queue,
    local_send bld [(amount, to)] zero_hash rnds rnd (wc_wallet w) = (wc_wallet w', Ok transfer) ∧
    head (created_dbcs transfer) = Some dbc ∧
    ((unconfirmed_txs w' = queue ∧ ∀ r, r ∈ all_spend_requests transfer → spend_put r verify tr) ∨
     unconfirmed_txs w' = queue ++ [transfer]) ∧
    ∃ t, exec (resend_loop rsched verify 0 (unconfirmed_txs w) (unconfirmed_txs w)) t (Ok queue).
Proof. apply wc_send_Ok. Qed.

(** the indices at which republished transfers are removed from the queue
    refer to the queue as it was before the loop.  When the first two of three
    transfers are republished and the third is not, the third one is dropped
    and the second one stays; when two of two are republished, the second
    removal is out of range and the client panics. *)
Theorem resend_removes_wrong_transfer sched verify w a b c ta tb tc e :
  exec (client_send (sched 0) a verify) ta (Ok tt) →
  exec (client_send (sched 1) b verify) tb (Ok tt) →
  exec (client_send (sched 2) c verify) tc (Err e) →
  exec (resend_pending_txs sched verify (set_unconfirmed [a; b; c] w)) (ta ++ tb ++ tc)
    (Ok (set_unconfirmed [b] w, Ok tt)) ∧
  exec (resend_pending_txs sched verify (set_unconfirmed [a; b] w)) (ta ++ tb) (Panic SliceOutOfBounds).
Proof.
  intros Ha Hb Hc. split.
  - unfold resend_pending_txs. rewrite <- (app_nil_r (ta ++ tb ++ tc)). eapply exec_bind; [|constructor].
    cbn [unconfirmed_txs set_unconfirmed].
    eapply resend_step; [exact Ha|]. exists [b; c]. split; [done|].
    eapply resend_step; [exact Hb|]. exists [b]. split; [done|].
    rewrite <- (app_nil_r tc). eapply resend_step; [exact Hc|]. constructor.
  - unfold resend_pending_txs. apply exec_bind_Panic. cbn [unconfirmed_txs set_unconfirmed].
    eapply resend_step; [exact Ha|]. exists [b]. split; [done|]. apply resend_step_panic; [exact Hb|cbn; lia].
Qed.

End Properties.

(** ** The properties at concrete values *)

(** Every peer asks for one nano; the network stores what it is given. *)
Definition toy_quotes (n : nat) (op : NetOp) : nat * NetAns op :=
  match op return nat * NetAns op with
  | GetClosestPeers _ => (n, Answer toy_peers)
  | SendRequest _ _ => (n, Answer (inr (Response_Query (QR_GetStoreCost (inr (toy_tok 1))))))
  | op => toy_network toy_reg_rec n op
  end.

Definition toy_wc : WalletClient := WalletClient_new toy_client toy_wallet.

Definition toy_pay_run
    : list (Effects.Event NetAns) * Res Empty_set (WalletClient * Res WalletError (gmap XorName PaymentProof * option Token)) :=
  run toy_quotes 0 (pay_for_storage Debug id [] [] [Byte.x31] toy_addrs false toy_wc).

Definition paid_cost {A B C} (r : Res Empty_set (A * Res B (C * option Token))) : Z :=
  match r with Ok (_, Ok (_, Some cost)) => as_nano cost | _ => 0%Z end.

(** Three addresses at two nanos each, out of a wallet of fifteen. *)
Lemma pay_for_storage_accepted_witness :
  ∃ w' proofs cost tx proof, toy_pay_run.2 = Ok (w', Ok (proofs, Some cost)) ∧ proofs !! [Byte.x0b] = Some proof ∧
    spent_ids proof = input_dbc_id <$> tx_inputs tx ∧ spent_ids proof ≠ [] ∧
    verify_fee_output_and_proof Release [Byte.x0b] (toy_tok 2) tx (audit_trail proof) (proof_path proof) = Ok tt.
Proof.
  assert (paid_cost toy_pay_run.2 = 2%Z) as Hc by by_compute.
  destruct toy_pay_run.2 as [[w' [[proofs [cost|]]| |]]| |] eqn:Hr; try discriminate Hc. cbn in Hc.
  destruct (pay_for_storage_accepted _ _ _ _ Debug id [] [] [Byte.x31] toy_addrs false toy_wc toy_pay_run.1 w' proofs cost)
    as (tx & Hdom & Hne & _ & Hp).
  - rewrite <- Hr. apply run_exec.
  - by_compute.
  - cbn. by rewrite Hc.
  - by left.
  - assert (is_Some (proofs !! [Byte.x0b])) as [proof Hx] by (apply Hdom; by_compute).
    destruct (Hp _ _ Hx) as (_ & Hids & Hfee).
    exists w', proofs, cost, tx, proof. split; [reflexivity|]. split; [exact Hx|]. split; [exact Hids|].
    split; [intros H0; apply Hne; rewrite H0 in Hids; symmetry in Hids; exact (fmap_nil_inv _ _ Hids)|].
    apply Hfee. unfold token_le. cbn. rewrite Hc. by_compute.
Defined.

Definition toy_sent_transfer : TransferOutputs :=
  match toy_sent.2 with
  | Ok out => out
  | _ => {| to_tx := empty_tx; created_dbcs := []; change_dbc := None; all_spend_requests := [] |}
  end.

Definition toy_send_run : list (Effects.Event NetAns) * Res WalletError unit :=
  run (toy_network toy_reg_rec) 0 (client_send [1; 0] toy_sent_transfer false).

Lemma sent_transfer_is_stored_witness :
  length (all_spend_requests toy_sent_transfer) = 2 ∧
  (∀ r, r ∈ all_spend_requests toy_sent_transfer → spend_put r false toy_send_run.1).
Proof.
  split; [by_compute|].
  assert (is_ok toy_send_run.2 = true) as Hok by by_compute.
  destruct (is_ok_true _ Hok) as [u Hu].
  apply (sent_transfer_is_stored [1; 0] toy_sent_transfer false toy_send_run.1 (Ok u)).
  rewrite <- Hu. apply run_exec.
Defined.

(** A DBC with one spend, which the network holds. *)
Definition toy_one_input : DbcTransaction :=
  {| tx_inputs := [{| input_dbc_id := (Byte.x0a : DbcId); input_token := toy_tok 5 |}]; tx_outputs := [];
     tx_fee := fee_default |}.
Definition toy_held_dbc : Dbc :=
  {| td_id := Byte.x0e; td_owner := Byte.x01; td_index := []; td_token := Some (toy_tok 5); td_src := toy_one_input |}.
Definition toy_held_spend : SignedSpend :=
  {| ts_id := Byte.x0a; ts_spent := toy_one_input; ts_creation := toy_one_input; ts_good := true |}.
Definition toy_held_rec : KRecord :=
  toy_record_of (T:=list SignedSpend) (spend_record_key (Byte.x0a : DbcId)) [toy_held_spend] RK_DbcSpend.

Definition toy_verify_run : list (Effects.Event NetAns) * Res WalletError unit :=
  run (toy_network toy_held_rec) 1 (client_verify [] toy_held_dbc).

Lemma verified_dbc_is_confirmed_witness : spend_confirmed toy_held_spend toy_verify_run.1.
Proof.
  assert (toy_verify_run.2 = Ok tt) as Hok by by_compute.
  apply (verified_dbc_is_confirmed [] toy_held_dbc toy_verify_run.1).
  - rewrite <- Hok. apply run_exec.
  - by_compute.
Defined.

Definition toy_payee : PublicAddress := Byte.x02.

Definition toy_wc_send_run : list (Effects.Event NetAns) * Res Empty_set (WalletClient * Res WalletError Dbc) :=
  run (toy_network toy_reg_rec) 0
    (wc_send Debug (λ _, []) [] [[Byte.x44]] [Byte.x55] (toy_tok 12) toy_payee false toy_wc).

Lemma send_is_stored_or_queued_witness :
  ∃ w' dbc transfer, toy_wc_send_run.2 = Ok (w', Ok dbc) ∧ head (created_dbcs transfer) = Some dbc ∧
    (∀ r, r ∈ all_spend_requests transfer → spend_put r false toy_wc_send_run.1).
Proof.
  assert (match toy_wc_send_run.2 with Ok (w', Ok _) => bool_decide (length (unconfirmed_txs w') = 0) | _ => false end = true)
    as Hok by by_compute.
  destruct toy_wc_send_run.2 as [[w' [dbc| |]]| |] eqn:Hr; try discriminate Hok.
  destruct (send_is_stored_or_queued Debug (λ _, []) [] [[Byte.x44]] [Byte.x55] (toy_tok 12) toy_payee false toy_wc
    toy_wc_send_run.1 w' dbc) as (transfer & queue & _ & Hh & Hst & _).
  - rewrite <- Hr. apply run_exec.
  - exists w', dbc, transfer. split_and!; [done|exact Hh|]. destruct Hst as [[_ Hst]|Hq]; [exact Hst|].
    exfalso. apply bool_decide_eq_true in Hok. rewrite Hq, length_app in Hok. cbn in Hok. lia.
Defined.

(** A network that takes no records. *)
Definition toy_no_puts (n : nat) (op : NetOp) : nat * NetAns op :=
  match op return nat * NetAns op with
  | PutRecord _ => (n, Dropped)
  | op => toy_network toy_reg_rec n op
  end.
Definition toy_fail_run : list (Effects.Event NetAns) * Res WalletError unit :=
  run toy_no_puts 0 (client_send [1; 0] toy_sent_transfer false).

Lemma resend_removes_wrong_transfer_witness :
  let t := toy_sent_transfer in
  exec (resend_pending_txs (λ _, [1; 0]) false (set_unconfirmed [t; t] toy_wc)) (toy_send_run.1 ++ toy_send_run.1)
    (Panic SliceOutOfBounds).
Proof.
  assert (toy_send_run.2 = Ok tt) as Hok by by_compute.
  assert (toy_fail_run.2 = Err CouldNotSendTokens) as Hfail by by_compute.
  apply (resend_removes_wrong_transfer (λ _, [1; 0]) false toy_wc toy_sent_transfer toy_sent_transfer toy_sent_transfer
    toy_send_run.1 toy_send_run.1 toy_fail_run.1 CouldNotSendTokens).
  - rewrite <- Hok. apply run_exec.
  - rewrite <- Hok. apply run_exec.
  - rewrite <- Hfail. apply run_exec.
Defined.
