(* ===== verification/PaidStorage.v ===== *)
(** * Paying and storing, end to end

    The client pays for its chunks ([pay_for_storage], src/sn_client/src/wallet.rs)
    and puts them on the network; a node that receives such a record as an
    unverified one ([handle_network_event], src/sn_node/src/api.rs) validates
    the payment and stores it ([validate_and_store_record],
    src/sn_node/src/put_validation.rs).  NodeValidation.v says what a node never
    stores; this file says what it does store: a chunk that was paid for, when
    the network answers with the spends that the client put.

    [node_answers] is the environment of such a node, and [given] of Effects.v
    the logic for what a program achieves in it. *)

From S2P Require Import Prelude Deps ToyCrates Registers Protocol Transfers RecordStore Payments Effects Network NodeValidation SwarmDriver NodeApi Wallet Client ClientWallet.
From stdpp Require Import base tactics list gmap sorting strings.
From Stdlib Require Import ZArith NArith Strings.Byte Lia.

Section PaidStorage.
Context `{BLS : BlsCrate, XN : XorNameCrate, HX : HexCrate, KD : KadCrate, CR : CrdtsCrate, SE : SelfEncryptionCrate}.
Context `{TK : TokenCrate, DI : DbcIdCrate, SD : !SnDbcCrate, DC : !DbcCrate, RP : !RegisterParams, MK : MerkleCrate}.
Context `{RH : RmpHeader, RC : Rmp (bytes * PaymentProof), RS : Rmp (list SignedSpend), RR : Rmp SignedRegister}.

(** ** The environment of the node *)

(** What the network holds after the client's puts: every record that a put
    was acknowledged for. *)
Definition holds_puts (net : RecordKey → option KRecord) (tr : list (Effects.Event NetAns)) : Prop :=
  ∀ rec, existT (PutRecord rec) (Answer (inr tt)) ∈ tr → net (r_key rec) = Some rec.

(** The network answers with what it holds; the node has room, does not hold
    the record yet, and does not ask for more than [cost]. *)
Definition node_answers (net : RecordKey → option KRecord) (cost : Token) (op : NetOp) : NetAns op → Prop :=
  match op return NetAns op → Prop with
  | GetNetworkRecord key => λ a, match net key with Some rec => a = Answer (inr rec) | None => True end
  | RecordStoreHasKey _ => λ a, a = Answer false
  | GetLocalStoreCost => λ a, ∃ fee, a = Answer fee ∧ token_le fee cost
  | PutLocalRecord _ => λ a, a = true
  | _ => λ _, True
  end.

(** A key under which exactly one spend is held. *)
Definition spend_held (net : RecordKey → option KRecord) (id : DbcId) (sp : SignedSpend) : Prop :=
  ∃ rec, net (spend_record_key id) = Some rec ∧ RecordHeader_from_record rec = Ok {| rh_kind := RK_DbcSpend |} ∧
    try_deserialize_record (T:=list SignedSpend) rec = Ok [sp].

(** ** What a value written is read as *)

Context {RHL : RmpHeaderLaws} {RCL : RmpLaws (bytes * PaymentProof)} {RSL : RmpLaws (list SignedSpend)}.
(** MessagePack has no value of zero bytes. *)
Context (Hc0 : ∀ x : bytes * PaymentProof, rmp_to_vec x ≠ Some []) (Hs0 : ∀ x : list SignedSpend, rmp_to_vec x ≠ Some []).

(** A spend that the client put is held. *)
Lemma put_spend_held net tr r verify :
  holds_puts net tr → spend_put r verify tr → spend_held net (spend_dbc_id (signed_spend r)) (signed_spend r).
Proof.
  intros Hnet (value & Hv & Hput & _). eexists. split; [by apply (Hnet _ Hput)|].
  by apply serialized_read_back.
Qed.

(** ** The node's programs in this environment *)

Context (net : RecordKey → option KRecord) (cost : Token).
Notation good := (node_answers net cost).
Notation result_is r0 := (λ _ r, r = r0).

(** A record that is held is returned by the first attempt. *)
Lemma get_record_given key rec n h :
  net key = Some rec → given good (result_is (Ok rec)) h (get_record_loop key None (S n)).
Proof.
  intros Hnet a Ha. unfold node_answers in Ha.
  rewrite Hnet in Ha. by subst a.
Qed.

Lemma get_spend_given id sp h :
  spend_held net id sp →
  given good (result_is (Ok sp)) h (get_spend_from_network (DbcAddress_from_dbc_id id) true).
Proof.
  intros (rec & Hnet & Hk & Hd). unfold get_spend_from_network.
  apply (given_bind _ _ _ _ rec).
  - apply given_map_err. unfold get_record_from_network. change (total_attempts true) with (S 29).
    apply get_record_given. exact Hnet.
  - intros h'. rewrite Hk. cbn. by rewrite Hd.
Qed.

Lemma payment_task_given name (tx : DbcTransaction) s id sp h :
  spend_held net id sp → spent_tx sp = tx → s = None ∨ s = Some tx →
  given good (result_is (Ok (Some tx))) h (payment_task name s id).
Proof.
  intros Hh Htx Hs. unfold payment_task. apply (given_bind _ _ _ _ (Ok tx)).
  - apply given_join. apply (given_bind _ _ _ _ sp); [by apply get_spend_given|]. intros h'. cbn. by rewrite Htx.
  - intros h'. destruct Hs as [-> | ->]; cbn; [done|]. by rewrite decide_False by auto.
Qed.

(** All inputs of a payment are found spent in one transaction. *)
Lemma payment_tasks_given name tx ids s h :
  (∀ id, id ∈ ids → ∃ sp, spend_held net id sp ∧ spent_tx sp = tx) →
  s = Some tx ∨ s = None ∧ ids ≠ [] →
  given good (result_is (Ok (Some tx))) h (prog_fold (payment_task name) s ids).
Proof.
  revert s h. induction ids as [|id ids IH]; intros s h Hall Hs; cbn [prog_fold].
  - by destruct Hs as [->|[_ ?]].
  - destruct (Hall id) as (sp & Hh & Htx); [by left|].
    apply (given_bind _ _ _ _ (Some tx)).
    + apply (payment_task_given _ _ _ _ sp); [done..|]. destruct Hs as [->|[-> _]]; auto.
    + intros h'. apply IH; [|by left]. intros id' Hid. apply Hall. by right.
Qed.

Context (bld : Build) (join_order : list DbcId → list DbcId).
Context (Hjoin : ∀ l, join_order l ≡ₚ l).

(** A payment for a chunk that every node accepts up to [cost]. *)
Definition accepted_payment (name : XorName) (proof : PaymentProof) : Prop :=
  spent_ids proof ≠ [] ∧ ∃ tx,
    (∀ id, id ∈ spent_ids proof → ∃ sp, spend_held net id sp ∧ spent_tx sp = tx) ∧
    ∀ fee, token_le fee cost →
      verify_fee_output_and_proof bld name fee tx (audit_trail proof) (proof_path proof) = Ok tt.

Lemma chunk_payment_given c check h :
  accepted_payment (chunk_name (cwp_chunk c)) (cwp_payment c) →
  given good (result_is (Ok tt)) h (chunk_payment_validation bld join_order c check).
Proof.
  intros (Hne & tx & Hall & Hfee). unfold chunk_payment_validation. apply (given_bind _ _ _ _ (Some tx)).
  - apply payment_tasks_given.
    + intros id. rewrite (Hjoin (spent_ids (cwp_payment c))). apply Hall.
    + right. split; [done|]. intros H0. pose proof (Hjoin (spent_ids (cwp_payment c))) as Hp.
      rewrite H0 in Hp. by apply Permutation_nil_l in Hp.
  - intros h' a (fee & -> & Hle). cbn. by rewrite Hfee.
Qed.

(** The record is in the store at the end, with the result [r0]. *)
Definition stored_with {E A} (rec : KRecord) (r0 : Res E A) (h : list (Effects.Event NetAns)) (r : Res E A) : Prop :=
  r = r0 ∧ existT (PutLocalRecord rec) true ∈ h.

Lemma store_chunk_given c check value h :
  accepted_payment (chunk_name (cwp_chunk c)) (cwp_payment c) → try_serialize_record c RK_Chunk = Ok value →
  given good (stored_with {| r_key := chunk_name (cwp_chunk c); r_value := value |} (Ok StoredSuccessfully)) h
    (validate_and_store_chunk bld join_order c check).
Proof.
  intros Hpay Hv. unfold validate_and_store_chunk.
  intros a Ha. unfold node_answers in Ha. subst a. cbn.
  apply (given_bind _ _ _ _ tt); [by apply chunk_payment_given|]. intros h'. rewrite Hv. cbn.
  intros a -> [] _. cbn. split; [done|]. set_solver.
Qed.

Context (genesis : Dbc) (hash_order : gset SignedSpend → list SignedSpend).

(** A record written with its payment passes the node's validation. *)
Lemma store_record_given data proof check value h :
  let c := {| cwp_chunk := Chunk_new data; cwp_payment := proof |} in
  let rec := {| r_key := chunk_name (Chunk_new data); r_value := value |} in
  accepted_payment (chunk_name (Chunk_new data)) proof → try_serialize_record c RK_Chunk = Ok value →
  given good (stored_with rec (Ok StoredSuccessfully)) h
    (validate_and_store_record bld genesis join_order hash_order rec check).
Proof.
  intros c rec Hpay Hv. unfold validate_and_store_record.
  pose proof Hv as Hv0. unfold c in Hv0. rewrite chunk_record_written in Hv0.
  destruct (serialized_read_back (RT:=RC) _ _ (chunk_name (Chunk_new data)) _ (Hc0 _) Hv0) as [Hk Hd%chunk_record_read].
  apply (given_bind _ _ _ _ {| rh_kind := RK_Chunk |}); [by unfold rec; rewrite Hk|]. intros h1. cbn [rh_kind].
  apply (given_bind _ _ _ _ c); [by unfold rec; rewrite Hd|]. intros h2. cbn zeta.
  rewrite decide_False by (intros Hne; by apply Hne). by apply (store_chunk_given c).
Qed.

Lemma given_log_err {E A} (Q : list (Effects.Event NetAns) → Prop) (p : NetProg E A) (r0 : A) h :
  given good (λ h r, r = Ok r0 ∧ Q h) h p → given good (λ h r, r = Ok tt ∧ Q h) h (log_err p).
Proof.
  unfold log_err. revert h. induction p as [r|op k IH]; intros h; cbn; [by intros [-> ?]|].
  intros Hp a Ha. by apply IH, Hp.
Qed.

End PaidStorage.

(** ** The client's side *)

Section Paying.
Context `{BLS : BlsCrate, XN : XorNameCrate, HX : HexCrate, KD : KadCrate, CR : CrdtsCrate, SE : SelfEncryptionCrate}.
Context `{TK : TokenCrate, DI : DbcIdCrate, SD : !SnDbcCrate, DC : !DbcCrate, RP : !RegisterParams, MK : MerkleCrate}.
Context `{RH : RmpHeader, RC : Rmp (bytes * PaymentProof), RS : Rmp (list SignedSpend), RR : Rmp SignedRegister}.
Context (HT : TokenLaws) (HS : SnDbcLaws) (HD : DbcLaws) (HM : MerkleLaws).
Context {RHL : RmpHeaderLaws} {RSL : RmpLaws (list SignedSpend)}.
Context (Hs0 : ∀ x : list SignedSpend, rmp_to_vec x ≠ Some []).

(** The proofs of a payment whose spends the network holds. *)
Lemma paid_proof_accepted bld bld' order target sched rnd addrs verify w tr w' proofs cost net x proof :
  exec (pay_for_storage bld order target sched rnd addrs verify w) tr (Ok (w', Ok (proofs, Some cost))) →
  (Z.of_nat (length addrs) < 2 ^ 58)%Z → (0 < as_nano cost)%Z →
  (bld = Debug ∨ in_u64 (Z.of_nat (length addrs) * as_nano cost)) →
  holds_puts net tr → proofs !! x = Some proof → accepted_payment net cost bld' x proof.
Proof.
  intros Hx Hlen Hc Hov Hnet Hp.
  apply pay_for_storage_steps in Hx as (Hne & root & info & amount & l & l' & out & Hb & Ham & Hl & Hput & -> & _).
  apply local_storage_payment_Ok in Hl. destruct (storage_payment_requests _ _ _ _ _ _ _ _ Hl) as [Htx Hreq].
  apply u64_of_exact in Ham as [-> Hrange]; [|done].
  unfold proofs_of in Hp. rewrite lookup_fmap in Hp. apply fmap_Some in Hp as ([trail path] & Hp & ->).
  split; cbn [spent_ids audit_trail proof_path].
  - apply (storage_payment_inputs HT HS HD) in Hl as Hin; [by intros ?%fmap_nil_inv|].
    rewrite as_from_nano by done. destruct addrs; [done|]. cbn [length]. nia.
  - exists (to_tx out). split.
    + intros id (i & -> & Hi)%list_elem_of_fmap. destruct (Hreq i Hi) as (r & Hr & <-).
      exists (signed_spend r). split; [|by apply Htx]. eapply put_spend_held; [done|done|by apply Hput].
    + intros fee Hfee.
      eapply (honest_payment_accepted HT HS HD HM bld bld' addrs root info x trail path); try done.
      rewrite as_from_nano by done. lia.
Qed.

End Paying.

(** ** Properties *)

Section Properties.
Context `{BLS : BlsCrate, XN : XorNameCrate, HX : HexCrate, KD : KadCrate, CR : CrdtsCrate, SE : SelfEncryptionCrate}.
Context `{TK : TokenCrate, DI : DbcIdCrate, SD : !SnDbcCrate, DC : !DbcCrate, RP : !RegisterParams, MK : MerkleCrate}.
Context `{RH : RmpHeader, RC : Rmp (bytes * PaymentProof), RS : Rmp (list SignedSpend), RR : Rmp SignedRegister}.

(** C3: a chunk that was paid for is stored.  When [pay_for_storage] returned
    proofs, and the client's record of one of these chunks with its proof
    reaches a node that does not hold it, whose price is not above the cost
    paid, whose store takes it and which is answered with the spends that the
    client put, then the node's handler of the event puts exactly this record
    in its store, in debug and in release builds, whatever else it is answered
    and in whatever order the tasks that check the inputs complete. *)
Theorem paid_chunk_is_stored (HT : TokenLaws) (HS : SnDbcLaws) (HD : DbcLaws) (HM : MerkleLaws)
    (RHL : RmpHeaderLaws) (RCL : RmpLaws (bytes * PaymentProof)) (RSL : RmpLaws (list SignedSpend))
    (Hc0 : ∀ x : bytes * PaymentProof, rmp_to_vec x ≠ Some []) (Hs0 : ∀ x : list SignedSpend, rmp_to_vec x ≠ Some [])
    bld order target sched rnd addrs verify w tr w' proofs cost net data proof value
    bld' genesis k_value join_order hash_order n node_tr res :
  exec (pay_for_storage bld order target sched rnd addrs verify w) tr (Ok (w', Ok (proofs, Some cost))) →
  (Z.of_nat (length addrs) < 2 ^ 58)%Z → (0 < as_nano cost)%Z →
  (bld = Debug ∨ in_u64 (Z.of_nat (length addrs) * as_nano cost)) →
  holds_puts net tr →
  proofs !! chunk_name (Chunk_new data) = Some proof →
  try_serialize_record {| cwp_chunk := Chunk_new data; cwp_payment := proof |} RK_Chunk = Ok value →
  (∀ l, join_order l ≡ₚ l) →
  let rec := {| r_key := chunk_name (Chunk_new data); r_value := value |} in
  exec (handle_network_event bld' genesis k_value join_order hash_order n (UnverifiedRecord rec)) node_tr res →
  Forall (λ ev, node_answers net cost (projT1 ev) (projT2 ev)) node_tr →
  res = Ok tt ∧ existT (PutLocalRecord rec) true ∈ node_tr.
Proof.
  intros Hx Hlen Hc Hov Hnet Hp Hv Hjoin rec He Hall.
  assert (accepted_payment net cost bld' (chunk_name (Chunk_new data)) proof) as Hpay by by eapply paid_proof_accepted.
  assert (given (node_answers net cost) (λ h r, r = Ok tt ∧ existT (PutLocalRecord rec) true ∈ h) []
    (handle_network_event bld' genesis k_value join_order hash_order n (UnverifiedRecord rec))) as Hg.
  { eapply given_log_err, store_record_given; done. }
  exact (given_exec _ _ _ [] _ _ Hg He Hall).
Qed.

End Properties.

(** ** The property at concrete values *)

(** The records put in a trace, and a network that holds them. *)
Definition acknowledged_put (ev : Effects.Event NetAns) : option KRecord :=
  match ev with
  | existT op a =>
      match op return NetAns op → option KRecord with
      | PutRecord rec => λ a, match a with Answer (inr _) => Some rec | _ => None end
      | _ => λ _, None
      end a
  end.

Definition held_after (tr : list (Effects.Event NetAns)) (key : RecordKey) : option KRecord :=
  head (filter (λ rec, r_key rec = key) (omap acknowledged_put tr)).

Lemma held_after_puts tr :
  forallb (λ rec, bool_decide (held_after tr (r_key rec) = Some rec)) (omap acknowledged_put tr) = true →
  holds_puts (held_after tr) tr.
Proof.
  rewrite List.forallb_forall. intros Hall rec Hrec. apply (proj1 (bool_decide_eq_true _)), Hall, list_elem_of_In.
  apply list_elem_of_omap. by exists (existT (PutRecord rec) (Answer (inr tt))).
Qed.

Lemma toy_rmp_not_empty {T} `{Countable T} (x : T) : rmp_to_vec (Rmp:=toy_rmp) x ≠ Some [].
Proof. cbn. intros H0. injection H0 as H0. by destruct (encode x). Qed.

(** A node in this network whose price is one nano. *)
Definition toy_paid_node (net : RecordKey → option KRecord) (n : nat) (op : NetOp) : nat * NetAns op :=
  match op return nat * NetAns op with
  | GetNetworkRecord key => (n, match net key with Some rec => Answer (inr rec) | None => Dropped end)
  | GetLocalStoreCost => (n, Answer (toy_tok 1))
  | op => toy_network toy_reg_rec n op
  end.

Lemma toy_paid_node_good net cost n op :
  token_le (toy_tok 1) cost → node_answers net cost op (toy_paid_node net n op).2.
Proof. intros Hc. destruct op; cbn; try done; [by destruct (net key)|by eexists]. Qed.

Definition toy_paid_addrs : list XorName := [chunk_name toy_chunk; [Byte.x0c]].

Definition toy_paying_run :=
  run toy_quotes 0 (pay_for_storage Debug id [] [] [Byte.x31] toy_paid_addrs false toy_wc).

Definition toy_paid_record (proof : PaymentProof) : KRecord :=
  toy_record_of (chunk_name toy_chunk) {| cwp_chunk := toy_chunk; cwp_payment := proof |} RK_Chunk.

(** Two addresses are paid for at two nanos each, and a node that asks for one stores the chunk. *)
Lemma paid_chunk_is_stored_witness :
  ∃ w' proofs cost proof, toy_paying_run.2 = Ok (w', Ok (proofs, Some cost)) ∧
    proofs !! chunk_name toy_chunk = Some proof ∧
    let node_run := run (toy_paid_node (held_after toy_paying_run.1)) 0
      (handle_network_event Release toy_genesis 20 (rev (A:=_)) elements toy_node (UnverifiedRecord (toy_paid_record proof))) in
    existT (PutLocalRecord (toy_paid_record proof)) true ∈ node_run.1.
Proof.
  assert (paid_cost toy_paying_run.2 = 2%Z) as Hc by by_compute.
  assert (match toy_paying_run.2 with Ok (_, Ok (proofs, _)) => bool_decide (is_Some (proofs !! chunk_name toy_chunk)) | _ => false end
          = true) as Hin by by_compute.
  destruct toy_paying_run.2 as [[w' [[proofs [cost|]]| |]]| |] eqn:Hr; try discriminate Hc. cbn in Hc.
  apply bool_decide_eq_true in Hin as [proof Hp]. exists w', proofs, cost, proof. split_and!; [done|exact Hp|].
  cbn zeta.
  refine (proj2 (paid_chunk_is_stored _ _ _ _ _ toy_rmp_laws toy_rmp_laws _ _ Debug id [] [] [Byte.x31] toy_paid_addrs
    false toy_wc toy_paying_run.1 w' proofs cost (held_after toy_paying_run.1) [Byte.x0b] proof _
    Release toy_genesis 20 (rev (A:=_)) elements toy_node _ _ _ _ _ _ _ Hp _ _ (run_exec _ _ _) _)).
  - intros x. apply (toy_rmp_not_empty x).
  - intros x. apply (toy_rmp_not_empty x).
  - rewrite <- Hr. apply run_exec.
  - by_compute.
  - cbn. by rewrite Hc.
  - by left.
  - apply held_after_puts. by_compute.
  - reflexivity.
  - intros l. symmetry. apply Permutation_rev.
  - apply run_answers. intros n op. apply toy_paid_node_good. unfold token_le. cbn. rewrite Hc. by_compute.
Defined.
