(* ===== verification/Files.v ===== *)
(** * sn_client: files

    - [DataMapLevel], [pack], [encrypt_large]: src/sn_client/src/chunks/pac_man.rs;
    - [SmallFile_new]: src/sn_client/src/chunks/mod.rs;
    - [chunk_bytes], [upload_bytes], [read_bytes], [read_from] and what they
      call: src/sn_client/src/file_apis.rs.

    A file is self-encrypted into chunks and a data map; a data map that is too
    big for a chunk is packed again, so that there can be several levels.
    [pack] and [unpack_chunk] loop over the levels: they take fuel, and [None]
    is that it ran out.  Tasks that are spawned and joined are interleaved by a
    schedule.

    The main theorems: packing ends; a file that was chunked reads back as it
    was from any network that holds its chunks; an upload that returns stored
    every chunk with its payment proof; and what reading does at the edges: a
    failure to read a level of a large file is taken for a small file, and a
    position beyond the end of a small file panics. *)

From S2P Require Import Prelude Deps ToyCrates Registers Protocol Transfers RecordStore Effects Network SwarmDriver Wallet Client.
From stdpp Require Import base tactics list gmap sorting strings.
From Stdlib Require Import ZArith NArith Strings.Byte Lia.

Inductive DataMapLevel `{SelfEncryptionOps} :=
| First (m : DataMap)
| Additional (m : DataMap).

(** Only the value of a chunk is written. *)
#[global] Instance Chunk_bincode `{XorNameCrate, BB : Bincode bytes} : Bincode Chunk := {|
  bincode_serialize := λ c, bincode_serialize (chunk_value c);
  bincode_deserialize := λ b, Chunk_new <$> bincode_deserialize b;
|}.

Section Pack.
Context `{XN : XorNameCrate, SE : SelfEncryptionCrate, SO : SelfEncryptionOps}.
Context `{BB : Bincode bytes, BD : Bincode DataMapLevel}.

(** ** chunks/pac_man.rs and chunks/mod.rs *)

Definition to_chunk (chunk_content : bytes) : Chunk := Chunk_new chunk_content.

Definition pack_data_map (data_map : DataMapLevel) : Res ChunksError bytes :=
  ok_or (bincode_serialize data_map) Serialisation.

(** The loop of [pack]: the address of the last data map and the chunks of all
    the levels. *)
Fixpoint pack_loop (fuel : nat) (chunks : list Chunk) (chunk_content : bytes)
    : option (Res ChunksError (XorName * list Chunk)) :=
  match fuel with
  | 0 => None
  | S fuel =>
      let chunk := to_chunk chunk_content in
      if decide (chunk_serialised_size chunk ≤ MAX_CHUNK_SIZE) then
        Some (Ok (chunk_name chunk, reverse chunks ++ [chunk]))
      else
        match bincode_serialize chunk with
        | None => Some (Err Serialisation)
        | Some serialized_chunk =>
            match se_encrypt serialized_chunk with
            | None => Some (Err SelfEncryption)
            | Some (data_map, next_encrypted_chunks) =>
                let chunks := (to_chunk ∘ ec_content <$> next_encrypted_chunks) ++ chunks in
                match pack_data_map (Additional data_map) with
                | Ok content => pack_loop fuel chunks content
                | Err e => Some (Err e)
                | Panic w => Some (Panic w)
                end
            end
        end
  end.

Definition pack (fuel : nat) (data_map : DataMap) (encrypted_chunks : list EncryptedChunk)
    : option (Res ChunksError (XorName * list Chunk)) :=
  match pack_data_map (First data_map) with
  | Err e => Some (Err e)
  | Panic w => Some (Panic w)
  | Ok chunk_content =>
      packed ← pack_loop fuel [] chunk_content;
      Some (
        '(address, additional_chunks) ← packed;
        let expected_total := length encrypted_chunks + length additional_chunks in
        let all_chunks := (to_chunk ∘ ec_content <$> encrypted_chunks) ++ additional_chunks in
        if decide (length all_chunks < expected_total)
        then Err (NotAllDataWasChunked expected_total (length all_chunks))
        else Ok (address, all_chunks))
  end.

Definition encrypt_large (fuel : nat) (data : bytes) : option (Res ChunksError (XorName * list Chunk)) :=
  match se_encrypt data with
  | None => Some (Err SelfEncryption)
  | Some (data_map, encrypted_chunks) => pack fuel data_map encrypted_chunks
  end.

(** The content of a small file. *)
Definition SmallFile_new (b : bytes) : Res ChunksError bytes :=
  if decide (MIN_ENCRYPTABLE_BYTES ≤ length b) then Err (TooLargeAsSmallFile (length b) (MIN_ENCRYPTABLE_BYTES - 1))
  else if decide (b = []) then Err EmptyFileProvided
  else Ok b.

Definition package_small (file : bytes) : Res ChunksError Chunk :=
  let chunk := to_chunk file in
  if decide (MIN_ENCRYPTABLE_BYTES ≤ length (chunk_value chunk))
  then Err (SmallFilePaddingNeeded (length (chunk_value chunk)))
  else Ok chunk.

(** ** file_apis.rs: chunking

    Every error is one of [chunks::Error], which the callers wrap. *)

Definition chunk_bytes (fuel : nat) (b : bytes) : option (Res ChunksError (XorName * list Chunk)) :=
  if decide (length b < MIN_ENCRYPTABLE_BYTES) then
    Some (file ← SmallFile_new b;
          chunk ← package_small file;
          Ok (chunk_name chunk, [chunk]))
  else encrypt_large fuel b.

Definition calculate_address (fuel : nat) (b : bytes) : option (Res ChunksError XorName) :=
  r ← chunk_bytes fuel b; Some ('(name, _) ← r; Ok name).

End Pack.

(** ** file_apis.rs: uploading and reading *)

Definition CHUNKS_BATCH_MAX_SIZE : nat := 4.

(** [slice::chunks(n)]. *)
Fixpoint slices {A : Type} (n fuel : nat) (l : list A) : list (list A) :=
  match fuel with
  | 0 => []
  | S fuel => match l with [] => [] | _ => take n l :: slices n fuel (drop n l) end
  end.
Definition slice_chunks {A : Type} (n : nat) (l : list A) : list (list A) := slices n (length l) l.

Section Files.
Context `{BLS : BlsCrate, XN : XorNameCrate, HX : HexCrate, KD : KadCrate, CR : CrdtsCrate, SE : SelfEncryptionCrate}.
Context `{TK : TokenCrate, DI : DbcIdCrate, SD : !SnDbcCrate, DC : !DbcCrate, RP : !RegisterParams}.
Context `{RH : RmpHeader, RC : Rmp (bytes * PaymentProof), RS : Rmp (list SignedSpend), RR : Rmp SignedRegister}.
Context `{SO : SelfEncryptionOps, BB : Bincode bytes, BD : Bincode DataMapLevel}.

(** [join_all(..).await.into_iter().flatten()] keeps the results of the tasks
    that did not panic; a second [flatten] keeps their values. *)
Definition task_result {A : Type} (r : Res ClientError (Res ClientError A)) : option (Res ClientError A) :=
  match r with Ok (Ok u) => Some (Ok u) | Ok (Err e) => Some (Err e) | _ => None end.
Definition task_value {A : Type} (r : Res ClientError (Res ClientError A)) : option A :=
  match r with Ok (Ok u) => Some u | _ => None end.

(** Join spawned tasks.  A task that panicked is a [JoinError], which [flatten]
    swallows; the first error of the others is returned. *)
Definition join_all_tasks (sched : list nat) (tasks : list (NetProg ClientError unit)) : NetProg ClientError unit :=
  results ← join_all sched (join_task (F:=ClientError) <$> tasks);
  lift (try_for_each id (omap (M:=list) task_result results)).

(** [tasks] are those of the batch number [batch].  When a proof is missing, the
    tasks already spawned go on by themselves, each a program of its own. *)
Fixpoint upload_loop (sched : nat → list nat) (payment_proofs : gmap XorName PaymentProof) (verify_store : bool)
    (batch : nat) (tasks : list (NetProg ClientError unit)) (next_batch_size : nat) (chunks : list Chunk)
    : NetProg ClientError unit :=
  match chunks with
  | [] => if decide (0 < next_batch_size) then join_all_tasks (sched batch) tasks else lift (Ok tt)
  | chunk :: chunks =>
      let next_batch_size := next_batch_size + 1 in
      let chunk_addr := chunk_address chunk in
      payment ← lift (ok_or (payment_proofs !! chunk_xorname chunk_addr) (CE_MissingPaymentProof chunk_addr));
      let tasks := tasks ++ [store_chunk chunk payment verify_store] in
      if decide (next_batch_size = CHUNKS_BATCH_MAX_SIZE) then
        _ ← join_all_tasks (sched batch) tasks;
        _ ← (if negb verify_store then call (SleepMillis 500) else lift (Ok tt));
        upload_loop sched payment_proofs verify_store (S batch) [] 0 chunks
      else upload_loop sched payment_proofs verify_store batch tasks next_batch_size chunks
  end.

Definition upload_chunks_in_batches (sched : nat → list nat) (chunks : list Chunk)
    (payment_proofs : gmap XorName PaymentProof) (verify_store : bool) : NetProg ClientError unit :=
  upload_loop sched payment_proofs verify_store 0 [] 0 chunks.

Definition upload_small (small : bytes) (payment_proofs : gmap XorName PaymentProof) (verify_store : bool)
    : NetProg ClientError ChunkAddress :=
  chunk ← lift (map_err CE_Chunks (package_small small));
  let address := chunk_address chunk in
  payment ← lift (ok_or (payment_proofs !! chunk_xorname address) (CE_MissingPaymentProof address));
  _ ← store_chunk chunk payment verify_store;
  lift (Ok address).

Definition upload_bytes (fuel : nat) (sched : nat → list nat) (b : bytes)
    (payment_proofs : gmap XorName PaymentProof) (verify : bool) : NetProg ClientError (option ChunkAddress) :=
  if decide (length b < MIN_ENCRYPTABLE_BYTES) then
    file ← lift (map_err CE_Chunks (SmallFile_new b));
    address ← upload_small file payment_proofs verify;
    lift (Ok (Some address))
  else
    match encrypt_large fuel b with
    | None => lift (Ok None)
    | Some packed =>
        '(head_address, chunks) ← lift (map_err CE_Chunks packed);
        _ ← upload_chunks_in_batches sched chunks payment_proofs verify;
        lift (Ok (Some {| chunk_xorname := head_address |}))
    end.

Definition upload_with_proof (fuel : nat) (sched : nat → list nat) (b : bytes)
    (payment_proofs : gmap XorName PaymentProof) (verify_store : bool) := upload_bytes fuel sched b payment_proofs verify_store.

Definition upload_and_verify (fuel : nat) (sched : nat → list nat) (b : bytes)
    (payment_proofs : gmap XorName PaymentProof) := upload_bytes fuel sched b payment_proofs true.

(** The task that gets one chunk. *)
Definition fetch_encrypted (info : ChunkInfo) : NetProg ClientError EncryptedChunk :=
  chunk ← get_chunk {| chunk_xorname := ci_dst_hash info |};
  lift (Ok {| ec_index := ci_index info; ec_content := chunk_value chunk |}).

(** One batch: what was retrieved, errors swallowed. *)
Definition fetch_batch (sched : list nat) (batch : list ChunkInfo) : NetProg ClientError (list EncryptedChunk) :=
  results ← join_all sched ((λ i, join_task (F:=ClientError) (fetch_encrypted i)) <$> batch);
  lift (Ok (omap (M:=list) task_value results)).

Definition try_get_chunks (sched : nat → list nat) (chunks_info : list ChunkInfo) : NetProg ClientError (list EncryptedChunk) :=
  let expected_count := length chunks_info in
  retrieved_chunks ← prog_fold (λ retrieved (ib : nat * list ChunkInfo),
      got ← fetch_batch (sched ib.1) ib.2; lift (Ok (retrieved ++ got)))
    [] (imap pair (slice_chunks CHUNKS_BATCH_MAX_SIZE chunks_info));
  if decide (length retrieved_chunks < expected_count) then
    let missing_chunks := omap (λ expected_info,
      if existsb (λ c, bool_decide (from_content (ec_content c) = ci_dst_hash expected_info)) retrieved_chunks
      then None else Some (ci_dst_hash expected_info)) chunks_info in
    lift (Err (CE_Chunks (NotEnoughChunksRetrieved expected_count (length retrieved_chunks) missing_chunks)))
  else lift (Ok retrieved_chunks).

Definition read_all (sched : nat → list nat) (data_map : DataMap) : NetProg ClientError bytes :=
  encrypted_chunks ← try_get_chunks sched (dm_infos data_map);
  lift (ok_or (decrypt_full_set data_map encrypted_chunks) (CE_Chunks SelfEncryption)).

(** The schedules of a level are those of the fuel left. *)
Fixpoint unpack_chunk (fuel : nat) (sched : nat → nat → list nat) (chunk : Chunk) : NetProg ClientError (option DataMap) :=
  match fuel with
  | 0 => lift (Ok None)
  | S more =>
      level ← lift (ok_or (bincode_deserialize (chunk_value chunk)) (CE_Chunks Serialisation));
      match level with
      | First data_map => lift (Ok (Some data_map))
      | Additional data_map =>
          serialized_chunk ← read_all (sched fuel) data_map;
          chunk ← lift (ok_or (bincode_deserialize (T:=Chunk) serialized_chunk) (CE_Chunks Serialisation));
          unpack_chunk more sched chunk
      end
  end.

(** [None] is that the levels exceeded the fuel. *)
Definition read_bytes (fuel : nat) (sched : nat → nat → list nat) (address : ChunkAddress) : NetProg ClientError (option bytes) :=
  chunk ← get_chunk address;
  unpacked ← attempt (unpack_chunk fuel sched chunk);
  match unpacked with
  | Ok (Some data_map) => b ← read_all (sched 0) data_map; lift (Ok (Some b))
  | Ok None => lift (Ok None)
  | _ => lift (Ok (Some (chunk_value chunk)))
  end.

Definition seek (sched : nat → list nat) (data_map : DataMap) (pos len : nat) : NetProg ClientError bytes :=
  let info := seek_info (dm_file_size data_map) pos len in
  infos ← lift (try_map (λ i, match dm_infos data_map !! i with Some x => Ok x | None => Panic SliceOutOfBounds end)
                  (seq (si_start info) (si_end info + 1 - si_start info)));
  encrypted_chunks ← try_get_chunks sched infos;
  lift (ok_or (decrypt_range data_map encrypted_chunks (si_relative_pos info) len) (CE_Chunks SelfEncryption)).

(** [Bytes::split_to] panics beyond the end; [truncate] keeps a shorter value. *)
Definition split_and_truncate (b : bytes) (position length_ : nat) : Res ClientError bytes :=
  if decide (length b < position) then Panic SliceOutOfBounds else Ok (take length_ (drop position b)).

Definition read_from (fuel : nat) (sched : nat → nat → list nat) (address : ChunkAddress) (position length_ : nat)
    : NetProg ClientError (option bytes) :=
  chunk ← get_chunk address;
  unpacked ← attempt (unpack_chunk fuel sched chunk);
  match unpacked with
  | Ok (Some data_map) => b ← seek (sched 0) data_map position length_; lift (Ok (Some b))
  | Ok None => lift (Ok None)
  | _ => b ← lift (split_and_truncate (chunk_value chunk) position length_); lift (Ok (Some b))
  end.

End Files.

(** ** Lemmas on packing *)

Section PackLemmas.
Context `{XN : XorNameCrate, SE : SelfEncryptionCrate, SO : SelfEncryptionOps}.
Context `{BB : Bincode bytes, BD : Bincode DataMapLevel}.

(** A data map of a chunk that is too big is smaller than the chunk. *)
Definition data_maps_shrink : Prop := ∀ content b dm ecs b',
  MAX_CHUNK_SIZE < length content → bincode_serialize content = Some b → se_encrypt b = Some (dm, ecs) →
  bincode_serialize (Additional dm) = Some b' → length b' < length content.

Lemma pack_loop_more n m chunks content r :
  pack_loop n chunks content = Some r → n ≤ m → pack_loop m chunks content = Some r.
Proof.
  revert m chunks content. induction n as [|n IH]; intros m chunks content; [done|].
  destruct m as [|m]; [lia|]. cbn. intros H Hle. case_decide; [done|].
  destruct (bincode_serialize content); [|done]. destruct (se_encrypt _) as [[dm ecs]|]; [|done].
  destruct (pack_data_map _); [|done|done]. apply (IH m); [done|lia].
Qed.

Lemma pack_loop_ends (Hs : data_maps_shrink) chunks content : is_Some (pack_loop (S (length content)) chunks content).
Proof.
  remember (length content) as n eqn:Hn. revert chunks content Hn.
  induction (lt_wf n) as [n _ IH]. intros chunks content ->. cbn. unfold chunk_serialised_size. cbn.
  case_decide as Hmax; [by eexists|].
  destruct (bincode_serialize content) as [b|] eqn:Hb; [|by eexists].
  destruct (se_encrypt b) as [[dm ecs]|] eqn:He; [|by eexists].
  unfold pack_data_map. destruct (bincode_serialize (Additional dm)) as [b'|] eqn:Hb'; cbn; [|by eexists].
  assert (length b' < length content) as Hlt by (eapply Hs; eauto; lia).
  destruct (IH _ Hlt ((to_chunk ∘ ec_content <$> ecs) ++ chunks) b' eq_refl) as [r Hr].
  exists r. by eapply pack_loop_more.
Qed.

Lemma pack_loop_incl n chunks content name all :
  pack_loop n chunks content = Some (Ok (name, all)) → ∀ c, c ∈ chunks → c ∈ all.
Proof.
  revert chunks content. induction n as [|n IH]; intros chunks content; [done|]. cbn.
  case_decide.
  - intros [= _ <-] c Hc. apply elem_of_app. left. by apply elem_of_reverse.
  - destruct (bincode_serialize content); [|done]. destruct (se_encrypt _) as [[dm ecs]|]; [|done].
    destruct (pack_data_map _); [|done|done]. intros Hp c Hc. eapply IH; [exact Hp|]. apply elem_of_app. by right.
Qed.

Lemma encrypt_large_Ok fuel data name chunks :
  encrypt_large fuel data = Some (Ok (name, chunks)) →
  ∃ dm ecs content additional, se_encrypt data = Some (dm, ecs) ∧ bincode_serialize (First dm) = Some content ∧
    pack_loop fuel [] content = Some (Ok (name, additional)) ∧
    chunks = (to_chunk ∘ ec_content <$> ecs) ++ additional.
Proof.
  unfold encrypt_large, pack, pack_data_map. destruct (se_encrypt data) as [[dm ecs]|]; [|done].
  destruct (bincode_serialize (First dm)) as [content|] eqn:Hb; cbn; [|done].
  destruct (pack_loop fuel [] content) as [[[a l]|e|w]|] eqn:Hl; cbn; [|done|done|done].
  case_decide; [done|]. intros [= -> <-]. by exists dm, ecs, content, l.
Qed.

Lemma slices_concat {A} n fuel (l : list A) : 0 < n → length l ≤ fuel → concat (slices n fuel l) = l.
Proof.
  intros Hn. revert l. induction fuel as [|fuel IH]; intros l Hl; [by destruct l; cbn in *; [|lia]|].
  destruct l as [|x l]; [done|]. cbn [slices concat]. rewrite IH, take_drop; [done|].
  rewrite length_drop. cbn [length] in *. lia.
Qed.

Lemma slice_chunks_concat {A} n (l : list A) : 0 < n → concat (slice_chunks n l) = l.
Proof. intros Hn. by apply slices_concat. Qed.

End PackLemmas.

(** ** Lemmas on reading *)

Section ReadLemmas.
Context `{BLS : BlsCrate, XN : XorNameCrate, HX : HexCrate, KD : KadCrate, CR : CrdtsCrate, SE : SelfEncryptionCrate}.
Context `{TK : TokenCrate, DI : DbcIdCrate, SD : !SnDbcCrate, DC : !DbcCrate, RP : !RegisterParams}.
Context `{RH : RmpHeader, RC : Rmp (bytes * PaymentProof), RS : Rmp (list SignedSpend), RR : Rmp SignedRegister}.
Context `{SO : SelfEncryptionOps, BB : Bincode bytes, BD : Bincode DataMapLevel}.
Context `{SL : !SelfEncryptionLaws, BBL : !BincodeLaws bytes, BDL : !BincodeLaws DataMapLevel}.

(** The network answers every request for the name of a stored chunk with a
    record of that chunk. *)
Definition holds_chunks (store : XorName → option Chunk) (tr : list (Effects.Event NetAns)) : Prop :=
  ∀ k (a : NetAns (GetNetworkRecord k)) c, existT (GetNetworkRecord k) a ∈ tr → store k = Some c →
    ∃ rec payment, a = Answer (inr rec) ∧ RecordHeader_from_record rec = Ok {| rh_kind := RK_Chunk |} ∧
      try_deserialize_record rec = Ok {| cwp_chunk := c; cwp_payment := payment |}.

Lemma holds_chunks_mono store tr tr' : (∀ ev, ev ∈ tr' → ev ∈ tr) → holds_chunks store tr → holds_chunks store tr'.
Proof. intros Hsub Hh k a c Hin. apply Hh. by apply Hsub. Qed.

Lemma holds_chunks_app store t1 t2 : holds_chunks store (t1 ++ t2) → holds_chunks store t1 ∧ holds_chunks store t2.
Proof. intros Hh. split; (eapply holds_chunks_mono; [|exact Hh]); intros ev Hev; apply elem_of_app; auto. Qed.

Context (store : XorName → option Chunk).

Definition answered_with {key} (a : NetAns (GetNetworkRecord key)) (r : Res NetworkError KRecord) : Prop :=
  match a with Answer (inr rec) => r = Ok rec | _ => True end.

Lemma get_record_answered key tr r :
  exec (get_record_from_network key None false) tr r →
  ∃ a, tr = [existT (GetNetworkRecord key) a] ∧ answered_with a r.
Proof.
  unfold get_record_from_network, total_attempts. cbn [get_record_loop]. intros He. exec_call He a tr1.
  destruct a as [| |[e|rec']]; cbn in He.
  1,2: apply exec_done_inv in He as [-> ->]; by eexists.
  - assert (tr1 = []) as ->; [|by eexists]. destruct e; cbn in He; by apply exec_done_inv in He as [-> _].
  - apply exec_done_inv in He as [-> ->]. by eexists.
Qed.

Lemma get_chunk_stored address c tr r :
  store (chunk_xorname address) = Some c → exec (get_chunk address) tr r → holds_chunks store tr → r = Ok c.
Proof.
  intros Hc He Hh. unfold get_chunk in He.
  apply exec_bind_inv in He as [(x & t1 & t2 & -> & H1 & H2)|[(e & _ & H1)|(w & _ & H1)]];
    apply exec_map_err_inv in H1 as (r0 & H1 & Hr0); apply get_record_answered in H1 as (a & -> & Ha);
    (destruct (Hh _ a c) as (rec & payment & -> & Hhd & Hde); [by (apply elem_of_app; left; left) || by left|done|]);
    cbn in Ha; subst r0; [|done|done].
  injection Hr0 as ->. rewrite Hhd in H2. cbn in H2. rewrite Hde in H2. cbn in H2. by apply exec_done_inv in H2 as [_ ->].
Qed.

(** The encrypted chunk that an info stands for. *)
Definition encrypted_of (info : ChunkInfo) : EncryptedChunk :=
  {| ec_index := ci_index info; ec_content := default [] (chunk_value <$> store (ci_dst_hash info)) |}.

Definition infos_stored (infos : list ChunkInfo) : Prop := ∀ i, i ∈ infos → is_Some (store (ci_dst_hash i)).

Lemma fetch_encrypted_stored info tr r :
  is_Some (store (ci_dst_hash info)) → exec (fetch_encrypted info) tr r → holds_chunks store tr → r = Ok (encrypted_of info).
Proof.
  intros [c Hc] He Hh. unfold fetch_encrypted in He.
  apply exec_bind_inv in He as [(x & t1 & t2 & -> & H1 & H2)|[(e & -> & H1)|(w & -> & H1)]].
  - apply holds_chunks_app in Hh as [Hh _]. apply (get_chunk_stored _ c) in H1; [|done|done]. injection H1 as ->.
    apply exec_done_inv in H2 as [_ ->]. unfold encrypted_of. by rewrite Hc.
  - by apply (get_chunk_stored _ c) in H1.
  - by apply (get_chunk_stored _ c) in H1.
Qed.

Lemma fetch_batch_stored sched batch tr r :
  infos_stored batch → exec (fetch_batch sched batch) tr r → holds_chunks store tr → r = Ok (encrypted_of <$> batch).
Proof.
  intros Hst He Hh. unfold fetch_batch in He.
  apply exec_bind_inv in He as [(rs & t1 & t2 & -> & H1 & [-> ->]%exec_lift_inv)|[(e & -> & H1)|(w & -> & H1)]].
  - apply exec_join_all_inv in H1 as (runs & Hall & -> & _ & Hsub). apply Forall2_fmap_l in Hall.
    rewrite app_nil_r in Hh. f_equal.
    assert (∀ x, x ∈ runs → holds_chunks store x.1) as Hruns.
    { intros x Hx. eapply holds_chunks_mono; [|exact Hh]. intros ev Hev. eapply elem_of_sublist; [exact Hev|].
      rewrite Forall_forall in Hsub. by apply Hsub. }
    clear Hsub Hh. induction Hall as [|i [t x] batch runs He Hall IH]; [done|]. cbn.
    cbn in He. apply exec_join_inv in He as (r0 & He & ->).
    apply fetch_encrypted_stored in He; [|apply Hst; by left|apply (Hruns (t, Ok r0)); by left]. subst r0. cbn.
    f_equal. apply IH; [intros j Hj; apply Hst; by right|intros y Hy; apply Hruns; by right].
  - by apply exec_join_all_inv in H1.
  - apply exec_join_all_inv in H1 as (p & t & Hp & He). apply list_elem_of_fmap in Hp as (i & -> & _).
    by apply exec_join_inv in He as (r0 & _ & ?).
Qed.

Lemma fetch_batches_stored sched (batches : list (nat * list ChunkInfo)) acc tr r :
  infos_stored (concat batches.*2) →
  exec (prog_fold (λ retrieved (ib : nat * list ChunkInfo),
          got ← fetch_batch (sched ib.1) ib.2; lift (Ok (retrieved ++ got))) acc batches) tr r →
  holds_chunks store tr → r = Ok (acc ++ (encrypted_of <$> concat batches.*2)).
Proof.
  revert acc tr. induction batches as [|[i b] batches IH]; intros acc tr Hst He Hh; cbn in *.
  { apply exec_done_inv in He as [_ ->]. by rewrite app_nil_r. }
  assert (infos_stored b) as Hb by (intros x Hx; apply Hst, elem_of_app; by left).
  apply exec_bind_inv in He as [(acc' & t1 & t2 & -> & H1 & H2)|[(e & -> & H1)|(w & -> & H1)]];
    (apply exec_bind_inv in H1 as [(got & t3 & t4 & -> & H1 & [-> Hr]%exec_lift_inv)|[(e' & ? & H1)|(w' & ? & H1)]];
     simplify_eq; apply fetch_batch_stored in H1; [|done|]).
  all: try (repeat (apply holds_chunks_app in Hh as [Hh ?]); done).
  all: simplify_eq.
  rewrite fmap_app, app_assoc. apply IH with t2; [|done|by apply holds_chunks_app in Hh as [_ ?]].
  intros x Hx. apply Hst, elem_of_app. by right.
Qed.

Lemma try_get_chunks_stored sched infos tr r :
  infos_stored infos → exec (try_get_chunks sched infos) tr r → holds_chunks store tr → r = Ok (encrypted_of <$> infos).
Proof.
  intros Hst He Hh. unfold try_get_chunks in He.
  assert (concat (imap pair (slice_chunks CHUNKS_BATCH_MAX_SIZE infos)).*2 = infos) as Hcat.
  { rewrite <- (slice_chunks_concat CHUNKS_BATCH_MAX_SIZE infos) at 2 by (unfold CHUNKS_BATCH_MAX_SIZE; lia). f_equal.
    apply list_eq. intros i. rewrite list_lookup_fmap, list_lookup_imap. by destruct (_ !! i). }
  apply exec_bind_inv in He as [(x & t1 & t2 & -> & H1 & H2)|[(e & -> & H1)|(w & -> & H1)]];
    (apply fetch_batches_stored in H1; [|by rewrite Hcat|]); try (repeat (apply holds_chunks_app in Hh as [Hh ?]); done);
    rewrite Hcat in H1; simplify_eq.
  rewrite decide_False in H2 by (cbn; rewrite length_fmap; lia). by apply exec_done_inv in H2 as [_ ->].
Qed.

(** All the chunks of some data are stored: it can be read from its data map. *)
Lemma read_all_stored sched d dm ecs tr r :
  se_encrypt d = Some (dm, ecs) → (∀ e, e ∈ ecs → store (chunk_name (to_chunk (ec_content e))) = Some (to_chunk (ec_content e))) →
  exec (read_all sched dm) tr r → holds_chunks store tr → r = Ok d.
Proof.
  intros Henc Hst He Hh. pose proof (se_infos _ _ _ Henc) as Hinfos.
  assert (encrypted_of <$> dm_infos dm ≡ₚ ecs) as Hperm.
  { set (g := λ p : nat * XorName, {| ec_index := p.1; ec_content := default [] (chunk_value <$> store p.2) |}).
    apply (fmap_Permutation g) in Hinfos. rewrite <- !list_fmap_compose in Hinfos.
    etrans; [exact Hinfos|]. replace (_ <$> ecs) with ecs; [done|]. symmetry.
    rewrite <- (list_fmap_id ecs) at 2. apply list_fmap_ext. intros i e Hi%list_elem_of_lookup_2. unfold g. cbn.
    change (from_content (ec_content e)) with (chunk_name (to_chunk (ec_content e))). rewrite Hst by done. by destruct e. }
  assert (infos_stored (dm_infos dm)) as Hall.
  { intros i Hi. apply (list_elem_of_fmap_2 (λ i, (ci_index i, ci_dst_hash i))) in Hi. rewrite Hinfos in Hi.
    apply list_elem_of_fmap in Hi as (e & [= _ ->] & He'). eexists. by apply Hst. }
  unfold read_all in He. apply exec_bind_inv in He as [(x & t1 & t2 & -> & H1 & H2)|[(e & -> & H1)|(w & -> & H1)]];
    (apply try_get_chunks_stored in H1; [|done|]); try (repeat (apply holds_chunks_app in Hh as [Hh ?]); done); simplify_eq.
  rewrite (se_decrypt _ _ _ _ Henc Hperm) in H2. by apply exec_done_inv in H2 as [_ ->].
Qed.

(** Unpacking [c] gives [dm] on every execution, from [n] rounds of fuel on. *)
Definition unpacks (n : nat) (c : Chunk) (dm : DataMap) : Prop := ∀ fuel sched tr r,
  n ≤ fuel → exec (unpack_chunk fuel sched c) tr r → holds_chunks store tr → r = Ok (Some dm).

Lemma unpacks_first dm content :
  bincode_serialize (First dm) = Some content → unpacks 1 (to_chunk content) dm.
Proof.
  intros Hb fuel sched tr r Hf He _. destruct fuel as [|fuel]; [lia|]. cbn [unpack_chunk to_chunk Chunk_new chunk_value] in He.
  rewrite (bincode_round _ _ Hb) in He. by apply exec_done_inv in He as [_ ->].
Qed.

Lemma unpacks_additional n dm dm' ecs content b content' :
  unpacks n (to_chunk content) dm →
  bincode_serialize (to_chunk content) = Some b → se_encrypt b = Some (dm', ecs) →
  (∀ e, e ∈ ecs → store (chunk_name (to_chunk (ec_content e))) = Some (to_chunk (ec_content e))) →
  bincode_serialize (Additional dm') = Some content' → unpacks (S n) (to_chunk content') dm.
Proof.
  intros Hu Hb Henc Hst Hb' fuel sched tr r Hf He Hh. destruct fuel as [|fuel]; [lia|]. cbn [unpack_chunk to_chunk Chunk_new chunk_value] in He.
  rewrite (bincode_round _ _ Hb') in He. cbn in He.
  apply exec_bind_inv in He as [(x & t1 & t2 & -> & H1 & H2)|[(e & -> & H1)|(w & -> & H1)]].
  2,3: by eapply read_all_stored in H1.
  apply holds_chunks_app in Hh as [Hh1 Hh2]. eapply read_all_stored in H1; [|done..]. injection H1 as ->.
  cbn in Hb. rewrite (bincode_round _ _ Hb) in H2. cbn in H2. eapply (Hu fuel sched); [lia|exact H2|exact Hh2].
Qed.

Lemma pack_loop_unpacks fuel n chunks content name all dm :
  pack_loop fuel chunks content = Some (Ok (name, all)) →
  (∀ c, c ∈ all → store (chunk_name c) = Some c) → unpacks n (to_chunk content) dm →
  ∃ top, store name = Some top ∧ unpacks (n + fuel - 1) top dm.
Proof.
  revert n chunks content. induction fuel as [|fuel IH]; intros n chunks content; [done|]. cbn [pack_loop].
  case_decide.
  - intros [= <- <-] Hst Hu. exists (to_chunk content). split; [apply Hst, elem_of_app; right; by left|].
    intros f sched tr r Hf. apply Hu. lia.
  - destruct (bincode_serialize _) as [b|] eqn:Hb; [|done]. destruct (se_encrypt b) as [[dm' ecs]|] eqn:Henc; [|done].
    unfold pack_data_map. destruct (bincode_serialize (Additional dm')) as [b'|] eqn:Hb'; cbn; [|done].
    intros Hp Hst Hu. replace (n + S fuel - 1) with (S n + fuel - 1) by (destruct fuel; [done|lia]).
    eapply IH; [exact Hp|done|]. eapply unpacks_additional; [done..| |done].
    intros e He. apply Hst. eapply pack_loop_incl; [exact Hp|]. apply elem_of_app. left. by apply (list_elem_of_fmap_2 (to_chunk ∘ ec_content)).
Qed.

(** ** Lemmas on uploading *)

Definition chunk_put (c : Chunk) (payment : PaymentProof) (verify : bool) (tr : list (Effects.Event NetAns)) : Prop :=
  ∃ value, try_serialize_record {| cwp_chunk := c; cwp_payment := payment |} RK_Chunk = Ok value ∧
    record_put {| r_key := chunk_name c; r_value := value |} verify tr.

Lemma chunk_put_mono c p verify tr tr' : tr `sublist_of` tr' → chunk_put c p verify tr → chunk_put c p verify tr'.
Proof. intros Hs (v & Hv & Hp). exists v. split; [done|]. by eapply record_put_mono. Qed.

Lemma store_chunk_outcome c payment verify tr r :
  exec (store_chunk c payment verify) tr r →
  match r with Ok _ => chunk_put c payment verify tr | Err _ => True | Panic _ => False end.
Proof.
  unfold store_chunk. intros [(v & t1 & t2 & -> & [-> Hv]%exec_lift_inv & H)|[(e & -> & _)|(w & -> & H)]]%exec_bind_inv.
  - apply exec_map_err_inv in H as (r0 & H & ->). apply put_record_outcome in H.
    destruct r0 as [[]| |]; [|done|done]. exists v. split; [|done]. symmetry in Hv. by apply map_err_Ok_iff in Hv.
  - done.
  - apply exec_lift_inv in H as [_ H]. destruct (try_serialize_record _ _) eqn:E; try done. by apply try_serialize_no_panic in E.
Qed.

(** Joining tasks none of which panics returns only if all of them succeeded. *)
Lemma join_all_tasks_Ok sched (tasks : list (NetProg ClientError unit)) tr u :
  (∀ p t w, p ∈ tasks → ¬ exec p t (Panic w)) → exec (join_all_tasks sched tasks) tr (Ok u) →
  ∃ trs, Forall2 (λ p t, exec p t (Ok tt) ∧ t `sublist_of` tr) tasks trs.
Proof.
  intros Hnp He. unfold join_all_tasks in He. exec_ok. rewrite app_nil_r.
  match goal with H : exec (join_all _ _) _ _ |- _ => apply exec_join_all_inv in H as (runs & Hall & -> & _ & Hsub) end.
  match goal with H : Ok _ = try_for_each _ _ |- _ => rename H into Hf; symmetry in Hf; destruct u end.
  apply try_for_each_Ok_iff in Hf. apply Forall2_fmap_l in Hall. exists runs.*1. apply Forall2_fmap_r.
  induction Hall as [|p [tp x] tasks runs He Hall IH]; [constructor|]. cbn in He, Hf.
  apply Forall_cons in Hsub as [Hs Hsub]. apply exec_join_inv in He as (r0 & He & ->).
  destruct r0 as [[]|e|w]; cbn in Hf; [| |by destruct (Hnp p tp w); [left|]].
  - apply Forall_cons in Hf as [_ Hf]. constructor; [done|]. apply IH; [|done|done]. intros q ? ? Hq. apply Hnp. by right.
  - by apply Forall_cons in Hf as [? _].
Qed.

(** The chunks whose tasks are in the batch, with their proofs. *)
Definition batch_tasks (verify : bool) (batch : list (Chunk * PaymentProof)) : list (NetProg ClientError unit) :=
  (λ cp, store_chunk cp.1 cp.2 verify) <$> batch.

Lemma batch_stored sched verify batch tr u :
  exec (join_all_tasks sched (batch_tasks verify batch)) tr (Ok u) →
  ∀ cp, cp ∈ batch → chunk_put cp.1 cp.2 verify tr.
Proof.
  intros He cp [i Hi]%list_elem_of_lookup. apply join_all_tasks_Ok in He as (trs & Hall).
  - apply Forall2_fmap_l in Hall. destruct (Forall2_lookup_l _ _ _ _ _ Hall Hi) as (t & _ & He & Hs).
    apply store_chunk_outcome in He. by eapply chunk_put_mono.
  - intros p t w Hp He'. apply list_elem_of_fmap in Hp as (x & -> & _). by apply store_chunk_outcome in He'.
Qed.

Lemma upload_loop_Ok sched proofs verify b batch chunks tr u :
  exec (upload_loop sched proofs verify b (batch_tasks verify batch) (length batch) chunks) tr (Ok u) →
  (∀ cp, cp ∈ batch → chunk_put cp.1 cp.2 verify tr) ∧
  (∀ c, c ∈ chunks → ∃ p, proofs !! chunk_name c = Some p ∧ chunk_put c p verify tr).
Proof.
  revert b batch tr. induction chunks as [|c chunks IH]; intros b batch tr; cbn [upload_loop].
  - case_decide as Hn.
    + intros He. split; [|by intros ? ?%elem_of_nil]. by eapply batch_stored.
    + intros _. destruct batch; [|cbn in Hn; lia]. split; by intros ? ?%elem_of_nil.
  - intros He. exec_ok_step. exec_ok_step. match goal with H : Ok ?p = ok_or _ _ |- _ => rename p into pay; rename H into Hp end.
    symmetry in Hp. apply ok_or_Ok_iff in Hp.
    assert (batch_tasks verify batch ++ [store_chunk c pay verify] = batch_tasks verify (batch ++ [(c, pay)])) as Hbt
      by (unfold batch_tasks; by rewrite fmap_app).
    assert (length batch + 1 = length (batch ++ [(c, pay)])) as Hl by (by rewrite length_app).
    cbn [app] in *. rewrite Hbt in He.
    assert (∀ t, (∀ cp, cp ∈ batch ++ [(c, pay)] → chunk_put cp.1 cp.2 verify t) →
                 (∀ c0, c0 ∈ chunks → ∃ p, proofs !! chunk_name c0 = Some p ∧ chunk_put c0 p verify t) →
      (∀ cp, cp ∈ batch → chunk_put cp.1 cp.2 verify t) ∧
      (∀ c0, c0 ∈ c :: chunks → ∃ p, proofs !! chunk_name c0 = Some p ∧ chunk_put c0 p verify t)) as Hjoin.
    { intros t H1 H2. split; [intros cp Hcp; apply H1, elem_of_app; by left|].
      intros c0 [->|Hc]%elem_of_cons; [|by apply H2]. exists pay. split; [done|]. apply (H1 (c, pay)), elem_of_app. right. by left. }
    case_decide as Hn.
    + apply exec_bind_Ok in He as (u1 & t1 & t2 & -> & H1 & He).
      apply exec_bind_Ok in He as (u2 & t3 & t4 & -> & H2 & He).
      destruct (IH (S b) [] _ He) as [_ Hrest]. apply Hjoin.
      * intros cp Hcp. eapply chunk_put_mono; [|by eapply batch_stored in H1]. by apply sublist_inserts_r.
      * intros c0 Hc. destruct (Hrest c0 Hc) as (p & Hpr & Hput). exists p. split; [done|].
        eapply chunk_put_mono; [|exact Hput]. by do 2 apply sublist_inserts_l.
    + rewrite Hl in He. destruct (IH b _ _ He) as [H1 H2]. by apply Hjoin.
Qed.

End ReadLemmas.

(** ** Properties *)

Section Properties.
Context `{BLS : BlsCrate, XN : XorNameCrate, HX : HexCrate, KD : KadCrate, CR : CrdtsCrate, SE : SelfEncryptionCrate}.
Context `{TK : TokenCrate, DI : DbcIdCrate, SD : !SnDbcCrate, DC : !DbcCrate, RP : !RegisterParams}.
Context `{RH : RmpHeader, RC : Rmp (bytes * PaymentProof), RS : Rmp (list SignedSpend), RR : Rmp SignedRegister}.
Context `{SO : SelfEncryptionOps, BB : Bincode bytes, BD : Bincode DataMapLevel}.

(** The top chunk of chunked data unpacks to the data map of the data, or is a
    small file itself. *)
Lemma chunked_unpacks (HL : SelfEncryptionLaws) (HB : BincodeLaws bytes) (HD : BincodeLaws DataMapLevel)
    (store : XorName → option Chunk) fuel data name chunks fuel' sched :
  chunk_bytes fuel data = Some (Ok (name, chunks)) →
  (∀ c, c ∈ chunks → store (chunk_name c) = Some c) →
  (length data < MIN_ENCRYPTABLE_BYTES → bincode_deserialize (T:=DataMapLevel) data = None) →
  0 < fuel' → fuel ≤ fuel' →
  ∃ top, store name = Some top ∧
    ∀ t x, exec (attempt (F:=ClientError) (unpack_chunk fuel' sched top)) t x → holds_chunks store t →
      (x = Ok (Err (CE_Chunks Serialisation)) ∧ chunk_value top = data) ∨
      ∃ dm ecs, x = Ok (Ok (Some dm)) ∧ se_encrypt data = Some (dm, ecs) ∧ ∀ e, e ∈ ecs → to_chunk (ec_content e) ∈ chunks.
Proof.
  unfold chunk_bytes. intros Hc Hst Hsmall Hpos Hf.
  case_decide as Hlen.
  - injection Hc as Hc. unfold SmallFile_new in Hc. repeat case_decide; try done. cbn in Hc.
    unfold package_small in Hc. case_decide; [done|]. injection Hc as <- <-.
    exists (to_chunk data). split; [apply (Hst (to_chunk data)); by left|].
    intros t x Hx _. left. split; [|done]. destruct fuel' as [|f]; [lia|].
    apply exec_attempt_inv in Hx as (r0 & Hx & ->). cbn [unpack_chunk to_chunk Chunk_new chunk_value] in Hx.
    rewrite Hsmall in Hx by done. by apply exec_done_inv in Hx as [_ ->].
  - apply encrypt_large_Ok in Hc as (dm & ecs & content & additional & Henc & Hb & Hp & ->).
    destruct (pack_loop_unpacks store fuel 1 [] content name additional dm Hp) as (top & Htop & Hu).
    { intros c Hc. apply Hst, elem_of_app. by right. }
    { by apply unpacks_first. }
    exists top. split; [done|]. intros t x Hx Ht. right. exists dm, ecs.
    apply exec_attempt_inv in Hx as (r0 & Hx & ->). assert (r0 = Ok (Some dm)) as -> by (apply (Hu fuel' sched t); [lia|done|done]). split_and!; [done|done|].
    intros e Hein. apply elem_of_app. left. by apply (list_elem_of_fmap_2 (to_chunk ∘ ec_content)).
Qed.

(** Reading at the address of a chunked file. *)
Lemma read_bytes_stored (HL : SelfEncryptionLaws) (HB : BincodeLaws bytes) (HD : BincodeLaws DataMapLevel)
    fuel data name chunks (store : XorName → option Chunk) fuel' sched tr r :
  chunk_bytes fuel data = Some (Ok (name, chunks)) →
  (∀ c, c ∈ chunks → store (chunk_name c) = Some c) →
  (length data < MIN_ENCRYPTABLE_BYTES → bincode_deserialize (T:=DataMapLevel) data = None) →
  0 < fuel' → fuel ≤ fuel' →
  exec (read_bytes fuel' sched {| chunk_xorname := name |}) tr r → holds_chunks store tr →
  r = Ok (Some data).
Proof.
  intros Hc Hst Hsmall Hpos Hf He Hh.
  destruct (chunked_unpacks _ _ _ store fuel data name chunks fuel' sched Hc Hst Hsmall Hpos Hf) as (top & Htop & Hun).
  unfold read_bytes in He.
  apply exec_bind_inv in He as [(c & t1 & t2 & -> & H1 & H2)|[(e & -> & H1)|(w & -> & H1)]].
  2,3: by apply (get_chunk_stored store _ top) in H1.
  apply holds_chunks_app in Hh as [Hh1 Hh2]. apply (get_chunk_stored store _ top) in H1; [|done|done]. injection H1 as ->.
  apply exec_bind_inv in H2 as [(x & t3 & t4 & -> & H2 & H3)|[(e & -> & H2)|(w & -> & H2)]].
  2,3: apply Hun in H2 as [[? _]|(dm & ecs & ? & _)]; done.
  apply holds_chunks_app in Hh2 as [Hh2 Hh3].
  destruct (Hun _ _ H2 Hh2) as [[[= ->] <-]|(dm & ecs & [= ->] & Henc & Hin)].
  { by apply exec_done_inv in H3 as [_ ->]. }
  apply exec_bind_inv in H3 as [(b & t5 & t6 & -> & H3 & H4)|[(e & -> & H3)|(w & -> & H3)]].
  - apply holds_chunks_app in Hh3 as [Hh3 _]. eapply (read_all_stored store) in H3; [|done|intros e He; by apply Hst, Hin|done].
    injection H3 as ->. by apply exec_done_inv in H4 as [_ ->].
  - eapply (read_all_stored store) in H3; [done|done|intros e' He; by apply Hst, Hin|done].
  - eapply (read_all_stored store) in H3; [done|done|intros e' He; by apply Hst, Hin|done].
Qed.

(** C14: a file of any size, packed into any number of levels, reads back as it
    was: on every execution, in any interleaving of the fetches, against a
    network that answers the names of its chunks with those chunks, reading at
    the address returned gives the bytes (given as many rounds of unpacking as
    packing took).  A small file must not itself parse as a data map. *)
Theorem file_roundtrip (HL : SelfEncryptionLaws) (HB : BincodeLaws bytes) (HD : BincodeLaws DataMapLevel)
    fuel data name chunks (store : XorName → option Chunk) fuel' sched tr r :
  chunk_bytes fuel data = Some (Ok (name, chunks)) →
  (∀ c, c ∈ chunks → store (chunk_name c) = Some c) →
  (length data < MIN_ENCRYPTABLE_BYTES → bincode_deserialize (T:=DataMapLevel) data = None) →
  0 < fuel' → fuel ≤ fuel' →
  exec (read_bytes fuel' sched {| chunk_xorname := name |}) tr r → holds_chunks store tr →
  r = Ok (Some data).
Proof. apply read_bytes_stored; done. Qed.

(** chunking ends: when the data map of an oversized chunk is smaller than
    the chunk, there is a number of rounds from which on [chunk_bytes] gives
    the same result, and it is one more than the size of the first data map. *)
Theorem chunking_terminates (Hshrink : data_maps_shrink) data dm ecs content :
  se_encrypt data = Some (dm, ecs) → bincode_serialize (First dm) = Some content →
  ∃ r, ∀ fuel, length content < fuel → chunk_bytes fuel data = Some r.
Proof.
  intros Henc Hb. unfold chunk_bytes. case_decide; [by eexists|].
  destruct (pack_loop_ends Hshrink [] content) as [r Hr].
  assert (∀ fuel, length content < fuel → pack_loop fuel [] content = Some r) as Hall
    by (intros fuel Hf; eapply pack_loop_more; [exact Hr|lia]).
  unfold encrypt_large, pack, pack_data_map. rewrite Henc, Hb. cbn [ok_or].
  eexists. intros fuel Hf. rewrite (Hall fuel Hf). reflexivity.
Qed.

(** an upload in batches that returns stored every chunk, under its name,
    with the payment proof for it (and read each back, when verifying), in any
    interleaving of the tasks of a batch. *)
Theorem uploaded_chunks_stored sched chunks proofs verify tr :
  exec (upload_chunks_in_batches sched chunks proofs verify) tr (Ok tt) →
  ∀ c, c ∈ chunks → ∃ p, proofs !! chunk_name c = Some p ∧ chunk_put c p verify tr.
Proof. intros He. by apply (upload_loop_Ok sched proofs verify 0 []) in He as [_ H]. Qed.

(** reading at the edges.  When an upper level of a large file cannot be
    read, for instance because a chunk is missing, the bytes of the data map
    are returned as if they were the content of the file; and reading a small
    file from a position beyond its end panics instead of returning nothing. *)
Theorem reading_at_the_edges fuel sched address t0 chunk :
  exec (get_chunk address) t0 (Ok chunk) →
  (∀ dm t1 e, bincode_deserialize (chunk_value chunk) = Some (Additional dm) →
     exec (read_all (sched (S fuel)) dm) t1 (Err e) →
     exec (read_bytes (S fuel) sched address) (t0 ++ t1) (Ok (Some (chunk_value chunk)))) ∧
  (∀ position n, bincode_deserialize (T:=DataMapLevel) (chunk_value chunk) = None →
     exec (read_from (S fuel) sched address position n) t0
       (if decide (length (chunk_value chunk) < position) then Panic SliceOutOfBounds
        else Ok (Some (take n (drop position (chunk_value chunk)))))).
Proof.
  intros Hg. split.
  - intros dm t1 e Hd He. unfold read_bytes. eapply exec_bind; [exact Hg|]. rewrite <- (app_nil_r t1).
    apply (exec_bind _ _ t1 [] (Err e)); [apply exec_attempt|constructor].
    + cbn [unpack_chunk]. rewrite Hd. apply (exec_bind _ _ [] t1 (Additional dm)); [constructor|].
      apply exec_bind_Err. exact He.
    + by intros [w ?].
  - intros position n Hd. unfold read_from. rewrite <- (app_nil_r t0). eapply exec_bind; [exact Hg|].
    cbn [unpack_chunk]. rewrite Hd. cbn. unfold split_and_truncate. case_decide; constructor.
Qed.

End Properties.

(** ** The properties at concrete values *)

(** Data maps are written as a tag, the two names and the size; those of the
    first level are padded, so that a large file has two levels. *)
Definition toy_dm_enc (m : ToyDataMap) (pad : bytes) : option bytes :=
  if decide (length (tdm_low m) = 32 ∧ length (tdm_high m) = 32)
  then Some (tdm_low m ++ tdm_high m ++ toy_enc (Pos.of_succ_nat (tdm_size m)) ++ pad) else None.

Definition toy_dm_dec (b : bytes) : option ToyDataMap :=
  size ← toy_dec (drop 64 b);
  Some {| tdm_low := take 32 b; tdm_high := take 32 (drop 32 b); tdm_size := pred (Pos.to_nat size) |}.

#[global] Instance toy_bincode_level : Bincode DataMapLevel := {|
  bincode_serialize := λ l,
    match l with
    | First m => cons Byte.x00 <$> toy_dm_enc m (replicate 100 Byte.x00)
    | Additional m => cons Byte.x01 <$> toy_dm_enc m []
    end;
  bincode_deserialize := λ b,
    match b with
    | Byte.x00 :: b => First <$> toy_dm_dec b
    | Byte.x01 :: b => Additional <$> toy_dm_dec b
    | _ => None
    end;
|}.

Lemma toy_dm_round m pad b : toy_dm_enc m pad = Some b → toy_dm_dec b = Some m.
Proof.
  unfold toy_dm_enc, toy_dm_dec. case_decide as Hl; [|done]. destruct Hl as [H1 H2]. intros [= <-].
  destruct m as [low high size]. cbn [tdm_low tdm_high tdm_size] in *.
  assert (∀ r, drop 64 (low ++ high ++ r) = r) as ->.
  { intros r. rewrite app_assoc. apply drop_app_length'. rewrite length_app. lia. }
  rewrite toy_dec_enc. cbn [mbind option_bind]. rewrite drop_app_length', !take_app_length' by done. do 2 f_equal. lia.
Qed.

#[global] Instance toy_bincode_level_laws : BincodeLaws DataMapLevel.
Proof.
  constructor. intros [m|m] b; cbn -[replicate]; destruct (toy_dm_enc m _) as [b'|] eqn:E; cbn; try done; intros [= <-];
    by rewrite (toy_dm_round _ _ _ E).
Qed.

Lemma toy_dm_enc_short m b : toy_dm_enc m [] = Some b → 2 * length b ≤ 131 + tdm_size m.
Proof.
  unfold toy_dm_enc. case_decide as Hl; [|done]. destruct Hl as [H1 H2]. intros [= <-].
  rewrite !length_app, H1, H2. cbn [length]. pose proof (toy_enc_short (Pos.of_succ_nat (tdm_size m))). lia.
Qed.

Lemma toy_data_maps_shrink : data_maps_shrink.
Proof.
  intros content b dm ecs b' Hmax. cbn -[take drop Nat.div from_content toy_dm_enc]. intros [= <-]. case_decide; [done|].
  intros [= <- <-]. destruct (toy_dm_enc _ []) as [b|] eqn:E; [|done]. cbn. intros [= <-].
  apply toy_dm_enc_short in E. cbn in E, Hmax |- *. lia.
Qed.

Definition toy_data : bytes := [Byte.x11; Byte.x12; Byte.x13; Byte.x14; Byte.x15; Byte.x16; Byte.x17; Byte.x18; Byte.x19; Byte.x1a].

Definition toy_chunks : XorName * list Chunk :=
  match chunk_bytes 3 toy_data with Some (Ok x) => x | _ => ([], []) end.

Definition toy_store (name : XorName) : option Chunk := snd <$> list_find (λ c, chunk_name c = name) toy_chunks.2.

Definition toy_payment : PaymentProof := {| spent_ids := []; audit_trail := []; proof_path := [] |}.

(** A network that holds the chunks, and takes what is put. *)
Definition toy_chunk_network (n : nat) (op : NetOp) : nat * NetAns op :=
  match op return nat * NetAns op with
  | GetNetworkRecord k =>
      (n, match toy_store k with
          | Some c => Answer (inr (toy_record_of k {| cwp_chunk := c; cwp_payment := toy_payment |} RK_Chunk))
          | None => Answer (inl RecordNotFound)
          end)
  | op => toy_network toy_reg_rec n op
  end.

Lemma toy_chunk_network_holds {E A} n (p : NetProg E A) : holds_chunks toy_store (run toy_chunk_network n p).1.
Proof.
  pose (P := λ op (a : NetAns op), match op return NetAns op → Prop with
    | GetNetworkRecord k => λ a, ∀ c, toy_store k = Some c →
        a = Answer (inr (toy_record_of k {| cwp_chunk := c; cwp_payment := toy_payment |} RK_Chunk))
    | _ => λ _, True end a).
  intros k a c Hin Hc. pose proof (run_answers toy_chunk_network P n p) as Hall.
  assert (a = Answer (inr (toy_record_of k {| cwp_chunk := c; cwp_payment := toy_payment |} RK_Chunk))) as ->.
  { rewrite Forall_forall in Hall. apply (λ H, Hall H _ Hin c Hc). intros s [] ; try exact I. cbn. intros c' Hc'. by rewrite Hc'. }
  assert (c = Chunk_new (chunk_value c)) as ->.
  { assert (Forall (λ c, c = Chunk_new (chunk_value c)) toy_chunks.2) as Hnew by by_compute.
    unfold toy_store in Hc. apply fmap_Some in Hc as ([i c'] & Hf & ->). apply list_find_Some in Hf as (Hi & _).
    rewrite Forall_lookup in Hnew. exact (Hnew _ _ Hi). }
  pose proof (toy_rmp_laws : RmpLaws (H:=toy_rmp_chunk) (bytes * PaymentProof)) as Hlaws.
  destruct (record_written_read (RT:=toy_rmp_chunk) (chunk_value c, toy_payment) RK_Chunk k
    (toy_enc (encode (chunk_value c, toy_payment)))) as (v & Hv & Hh & Hd); [done|by destruct (encode _)|].
  apply chunk_record_read in Hd. eexists _, _. split; [done|].
  unfold toy_record_of. rewrite chunk_record_written; cbn [chunk_value Chunk_new]; rewrite Hv. by split.
Qed.

Definition toy_read_run : list (Effects.Event NetAns) * Res ClientError (option bytes) :=
  run toy_chunk_network 0 (read_bytes 3 (λ _ _, [1; 0; 1]) {| chunk_xorname := toy_chunks.1 |}).

(** Ten bytes make two chunks of data, two of the first data map and the
    second data map. *)
Lemma file_roundtrip_witness : length toy_chunks.2 = 5 ∧ toy_read_run.2 = Ok (Some toy_data).
Proof.
  split; [by_compute|].
  apply (file_roundtrip _ _ _ 3 toy_data toy_chunks.1 toy_chunks.2 toy_store 3 (λ _ _, [1; 0; 1]) toy_read_run.1 toy_read_run.2).
  - by_compute.
  - intros c Hc. assert (Forall (λ c, toy_store (chunk_name c) = Some c) toy_chunks.2) as Hall by by_compute.
    rewrite Forall_forall in Hall. by apply Hall.
  - cbn. lia.
  - lia.
  - lia.
  - apply run_exec.
  - apply toy_chunk_network_holds.
Defined.

Lemma chunking_terminates_witness : ∃ n r, ∀ fuel, n < fuel → chunk_bytes fuel toy_data = Some r.
Proof.
  destruct (se_encrypt toy_data) as [[dm ecs]|] eqn:E; [|done].
  destruct (bincode_serialize (First dm)) as [content|] eqn:B.
  - exists (length content). exact (chunking_terminates toy_data_maps_shrink toy_data dm ecs content E B).
  - cbn in E. injection E as <- <-. vm_compute in B. discriminate B.
Defined.

Definition toy_proofs : gmap XorName PaymentProof := list_to_map ((λ c, (chunk_name c, toy_payment)) <$> toy_chunks.2).
Definition toy_upload_run : list (Effects.Event NetAns) * Res ClientError unit :=
  run toy_chunk_network 0 (upload_chunks_in_batches (λ _, [2; 1; 3]) toy_chunks.2 toy_proofs true).

(** Five chunks go in two batches. *)
Lemma uploaded_chunks_stored_witness :
  ∃ c p, head toy_chunks.2 = Some c ∧ toy_proofs !! chunk_name c = Some p ∧ chunk_put c p true toy_upload_run.1.
Proof.
  assert (toy_upload_run.2 = Ok tt) as Hok by by_compute.
  destruct (head toy_chunks.2) as [c|] eqn:Hc; [|vm_compute in Hc; discriminate Hc].
  destruct (uploaded_chunks_stored (λ _, [2; 1; 3]) toy_chunks.2 toy_proofs true toy_upload_run.1) with (c := c) as (p & Hp & Hput).
  - rewrite <- Hok. apply run_exec.
  - by apply head_Some_elem_of.
  - exists c, p. split_and!; [reflexivity|exact Hp|exact Hput].
Defined.

(** The network has lost the chunks of the data map's lower level. *)
Definition toy_top : Chunk := default (Chunk_new []) (toy_store toy_chunks.1).
Definition toy_lossy_network (n : nat) (op : NetOp) : nat * NetAns op :=
  match op return nat * NetAns op with
  | GetNetworkRecord k => if decide (k = toy_chunks.1) then toy_chunk_network n (GetNetworkRecord k) else (n, Answer (inl RecordNotFound))
  | op => toy_network toy_reg_rec n op
  end.
Definition toy_top_run : list (Effects.Event NetAns) * Res ClientError Chunk :=
  run toy_lossy_network 0 (get_chunk {| chunk_xorname := toy_chunks.1 |}).
Definition toy_lost_map : ToyDataMap :=
  match bincode_deserialize (T:=DataMapLevel) (chunk_value toy_top) with
  | Some (Additional m) => m
  | _ => {| tdm_low := []; tdm_high := []; tdm_size := 0 |}
  end.
Definition toy_lost_run : list (Effects.Event NetAns) * Res ClientError bytes :=
  run toy_lossy_network 0 (read_all (λ _, []) toy_lost_map).

Lemma reading_at_the_edges_witness :
  exec (read_bytes 1 (λ _ _, []) {| chunk_xorname := toy_chunks.1 |}) (toy_top_run.1 ++ toy_lost_run.1)
    (Ok (Some (chunk_value toy_top))).
Proof.
  assert (toy_top_run.2 = Ok toy_top) as Htop by by_compute.
  assert (match toy_lost_run.2 with Err _ => true | _ => false end = true) as Herr by by_compute.
  destruct toy_lost_run.2 as [|e|] eqn:He; try discriminate Herr.
  apply (reading_at_the_edges 0 (λ _ _, []) {| chunk_xorname := toy_chunks.1 |} toy_top_run.1 toy_top) with (dm := toy_lost_map) (e := e).
  - rewrite <- Htop. apply run_exec.
  - vm_compute; reflexivity.
  - rewrite <- He. apply run_exec.
Defined.
