(* ===== verification/Faucet.v ===== *)
(** * sn_client: sending tokens and the faucet

    - [send]: the free function of src/sn_client/src/wallet.rs, which sends from
      a wallet and stores it;
    - [load_faucet_wallet_from_genesis_wallet], [get_tokens_from_faucet]:
      src/sn_client/src/faucet/mod.rs.

    These use the network and the file system: their operations are the sum of
    [NetOp] and [FsOp].  The loop that resends takes fuel; [send_terminates]
    shows that thirteen rounds are enough.

    The main theorems: a send that returns left the wallet without its inputs
    and the new DBC on disk, and when verifying every spend was stored; one that
    gives up has stored nothing on disk. *)

From S2P Require Import Prelude Deps ToyCrates Registers Protocol Transfers RecordStore Payments Effects Network SwarmDriver Wallet WalletFiles Client ClientWallet.
From stdpp Require Import base tactics list gmap sorting strings.
From Stdlib Require Import ZArith NArith Strings.Byte Lia.

(** Programs with the operations of both kinds. *)
Notation AppAns := (SumAns (Ans1:=NetAns) (Ans2:=FsAns)).
Notation AppProg := (Prog AppAns).

Section Send.
Context `{BLS : BlsCrate, XN : XorNameCrate, HX : HexCrate, KD : KadCrate, CR : CrdtsCrate, SE : SelfEncryptionCrate}.
Context `{TK : TokenCrate, DI : DbcIdCrate, SD : !SnDbcCrate, DC : !DbcCrate, RP : !RegisterParams, DT : !DbcTextCrate}.
Context `{RH : RmpHeader, RC : Rmp (bytes * PaymentProof), RS : Rmp (list SignedSpend), RR : Rmp SignedRegister}.
Context `{BW : Bincode KeyLessWallet}.
Context (bld : Build).

(** A program that cannot fail. *)
Definition infallible {E A : Type} (p : NetProg Empty_set A) : NetProg E A := prog_map_err (λ e : Empty_set, match e with end) p.

(** What the random generators and the scheduler choose in a send. *)
Record Choices := {
  ch_rnds : list bytes;
  ch_rnd : bytes;
  ch_resend : nat → list nat;
  ch_send : list nat;
  ch_rounds : nat → nat → list nat;
}.

(** The loop that waits for the transfers to be confirmed. *)
Fixpoint confirm_loop (fuel : nat) (sched : nat → nat → list nat) (verify_store : bool) (attempts : nat) (w : WalletClient)
    : NetProg WalletError (option WalletClient) :=
  match fuel with
  | 0 => lift (Ok None)
  | S fuel =>
      if unconfirmed_txs_exist w then
        _ ← call (Sleep 1);
        x ← infallible (resend_pending_txs (sched attempts) verify_store w);
        if decide (10 < attempts) then lift (Err UnconfirmedTxAfterRetries)
        else confirm_loop fuel sched verify_store (attempts + 1) x.1
      else lift (Ok (Some w))
  end.

(** [None] is that the fuel ran out. *)
Definition send (fuel : nat) (ch : Choices) (from : LocalWallet) (amount : Token) (to : PublicAddress) (client : Client)
    (verify_store : bool) : AppProg WalletError (option Dbc) :=
  if decide (as_nano amount = 0%Z) then Done (Panic ExplicitPanic)
  else
    x ← on_left (infallible (wc_send bld (ch_resend ch) (ch_send ch) (ch_rnds ch) (ch_rnd ch) amount to verify_store
                               (WalletClient_new client from)));
    let '(wallet_client, sent) := x in
    new_dbc ← expect (lift sent);
    confirmed ← (if verify_store then on_left (confirm_loop fuel (ch_rounds ch) verify_store 0 wallet_client)
                 else lift (Ok (Some wallet_client)));
    match confirmed with
    | None => lift (Ok None)
    | Some wallet_client =>
        let w := wc_wallet wallet_client in
        _ ← expect (on_right (LocalWallet_store w));
        _ ← expect (on_right (store_created_dbc new_dbc w));
        lift (Ok (Some new_dbc))
    end.

(** ** faucet/mod.rs *)

Context (main_key_from_hex : string → option MainKey).

(** [keys] are the random keys of wallets that do not exist yet, [sched] the
    schedule of the final verification. *)
Definition load_faucet_wallet_from_genesis_wallet (fuel : nat) (ch : Choices) (keys : MainKey * MainKey) (sched : list nat)
    (client : Client) : AppProg ClientError (option LocalWallet) :=
  faucet_wallet ← prog_map_err CE_Transfers (on_right (create_faucet_wallet keys.1));
  let faucet_balance := LocalWallet_balance faucet_wallet in
  if negb (bool_decide (as_nano faucet_balance = 0%Z)) then lift (Ok (Some faucet_wallet))
  else
    genesis_wallet ← prog_map_err CE_Transfers (on_right (load_genesis_wallet bld main_key_from_hex keys.2));
    let faucet_balance := LocalWallet_balance genesis_wallet in
    sent ← prog_map_err CE_Transfers
             (send fuel ch genesis_wallet faucet_balance (LocalWallet_address faucet_wallet) client true);
    match sent with
    | None => lift (Ok None)
    | Some dbc =>
        let '(faucet_wallet, deposited) := deposit bld [dbc] faucet_wallet in
        _ ← lift (map_err CE_Transfers deposited);
        _ ← expect (on_right (LocalWallet_store faucet_wallet));
        _ ← expect (on_left (client_verify sched dbc));
        lift (Ok (Some faucet_wallet))
    end.

Definition get_tokens_from_faucet (fuel : nat) (ch ch' : Choices) (keys : MainKey * MainKey) (sched : list nat)
    (amount : Token) (to : PublicAddress) (client : Client) : AppProg ClientError (option Dbc) :=
  loaded ← load_faucet_wallet_from_genesis_wallet fuel ch keys sched client;
  match loaded with
  | None => lift (Ok None)
  | Some faucet => prog_map_err CE_Transfers (send fuel ch' faucet amount to client true)
  end.

End Send.

(** ** Lemmas *)

Section SendLemmas.
Context `{BLS : BlsCrate, XN : XorNameCrate, HX : HexCrate, KD : KadCrate, CR : CrdtsCrate, SE : SelfEncryptionCrate}.
Context `{TK : TokenCrate, DI : DbcIdCrate, SD : !SnDbcCrate, DC : !DbcCrate, RP : !RegisterParams, DT : !DbcTextCrate}.
Context `{RH : RmpHeader, RC : Rmp (bytes * PaymentProof), RS : Rmp (list SignedSpend), RR : Rmp SignedRegister}.
Context `{BW : Bincode KeyLessWallet}.

Lemma local_send_dir bld to reason rnds rnd w w' r :
  local_send bld to reason rnds rnd w = (w', r) → wallet_dir w' = wallet_dir w ∧ key w' = key w.
Proof.
  unfold local_send, mbind, StM_bind, gets, lift_res. cbn.
  destruct (create_transfer _ _ _ _ _ _) as [out|e|p]; cbn; [|by intros [= <- _]..].
  rewrite update_local_wallet_eq. destruct (wallet_deposit _ _ _ _) as [kw [| |]]; by intros [= <- _].
Qed.

(** Resending a queue of one transfer. *)
Lemma resend_single sched verify w t tr w' x :
  unconfirmed_txs w = [t] → exec (resend_pending_txs sched verify w) tr (Ok (w', x)) →
  (unconfirmed_txs w' = [] ∧ ∀ r, r ∈ all_spend_requests t → spend_put r verify tr) ∨ unconfirmed_txs w' = [t].
Proof.
  unfold resend_pending_txs. intros -> He. cbn [resend_loop] in He. exec_ok.
  - simplify_eq. left. cbn in *. unfold vec_remove in *. simplify_option_eq. split; [done|]. destruct a0 as [[]| |]; [|done|done].
    match goal with H : exec (client_send _ _ _) _ _ |- _ => apply client_send_outcome in H as Hput end.
    rewrite !app_nil_r. exact Hput.
  - simplify_eq. by right.
Qed.

Lemma confirm_loop_Ok fuel sched verify n w t tr w' :
  unconfirmed_txs w = [t] → exec (confirm_loop fuel sched verify n w) tr (Ok (Some w')) →
  wc_wallet w' = wc_wallet w ∧ ∀ r, r ∈ all_spend_requests t → spend_put r verify tr.
Proof.
  revert n w tr. induction fuel as [|fuel IH]; intros n w tr Hq; cbn; [by intros [_ ?]%exec_done_inv|].
  unfold unconfirmed_txs_exist. rewrite Hq. cbn. intros (a & t1 & -> & He)%exec_vis_inv.
  apply exec_bind_Ok in He as ([w1 x] & t2 & t3 & -> & H1%exec_map_err_Ok & He). cbn in He.
  apply resend_keeps in H1 as Hkeep. destruct Hkeep as (_ & _ & Hw).
  case_decide; [by apply exec_lift_inv in He as [_ ?]|].
  apply resend_single with (t := t) in H1 as [[Hq1 Hput]|Hq1]; [| |done].
  - assert (w' = w1) as ->.
    { destruct fuel; cbn in He; [by apply exec_done_inv in He as [_ ?]|]. unfold unconfirmed_txs_exist in He. rewrite Hq1 in He.
      cbn in He. apply exec_done_inv in He as [_ He]. congruence. }
    split; [done|]. intros r Hr. eapply spend_put_mono; [|by apply Hput]. apply sublist_cons, sublist_inserts_r. done.
  - destruct (IH _ _ _ Hq1 He) as [Hw' Hput]. split; [congruence|].
    intros r Hr. eapply spend_put_mono; [|by apply Hput]. by apply sublist_cons, sublist_inserts_l.
Qed.

Lemma confirm_loop_None fuel sched verify n w tr r :
  exec (confirm_loop fuel sched verify n w) tr r → n ≤ 11 → 12 ≤ fuel + n → r ≠ Ok None.
Proof.
  revert n w tr. induction fuel as [|fuel IH]; intros n w tr He Hn Hf ->; [lia|]. cbn in He.
  destruct (unconfirmed_txs_exist w); [|by apply exec_lift_inv in He as [_ ?]].
  apply exec_vis_inv in He as (a & t1 & -> & He).
  apply exec_bind_Ok in He as (x & t2 & t3 & -> & _ & He). case_decide; [by apply exec_lift_inv in He as [_ ?]|].
  eapply IH; [exact He|lia|lia|done].
Qed.

(** A send that returned: what was done on the network and on disk. *)
Lemma send_Ok bld fuel ch from amount to client verify tr dbc :
  exec (send bld fuel ch from amount to client verify) tr (Ok (Some dbc)) →
  ∃ l transfer tw td,
    local_send bld [(amount, to)] zero_hash (ch_rnds ch) (ch_rnd ch) from = (l, Ok transfer) ∧
    head (created_dbcs transfer) = Some dbc ∧
    exec (LocalWallet_store l) tw (Ok tt) ∧ exec (store_created_dbc dbc l) td (Ok tt) ∧ right_events tr = tw ++ td ∧
    (verify = true → ∀ r, r ∈ all_spend_requests transfer → spend_put r true (left_events tr)).
Proof.
  unfold send. case_decide; [by intros [_ ?]%exec_done_inv|]. intros He.
  apply exec_bind_Ok in He as ([wc sent] & t1 & t2 & -> & [H1 R1]%exec_on_left & He).
  apply exec_map_err_Ok in H1. apply exec_bind_Ok in He as (d & t3 & t4 & -> & [-> Hd]%exec_expect_Ok%exec_lift_inv & He).
  subst sent. apply wc_send_Ok in H1 as (transfer & queue & Hl & Hh & Hq & t0 & Hrl). cbn [wc_wallet unconfirmed_txs WalletClient_new resend_loop] in Hl, Hrl.
  apply exec_done_inv in Hrl as [-> [= ->]].
  apply exec_bind_Ok in He as (confirmed & t5 & t6 & -> & H2 & He). cbn [app].
  assert (∃ wc', confirmed = Some wc' ∧ wc_wallet wc' = wc_wallet wc ∧ right_events t5 = [] ∧
    (verify = true → ∀ r, r ∈ all_spend_requests transfer → spend_put r true (left_events (t1 ++ t5)))) as (wc' & -> & Hw & R5 & Hput).
  { destruct verify; [|apply exec_lift_inv in H2 as [-> [= ->]]; by exists wc].
    apply exec_on_left in H2 as [H2 R5]. destruct confirmed as [wc'|]; [|by apply exec_lift_inv in He as [_ ?]].
    exists wc'. rewrite left_events_app. destruct Hq as [[Hq Hput]|Hq].
    - assert (wc' = wc) as ->.
      { destruct fuel; cbn in H2; [by apply exec_lift_inv in H2 as [_ ?]|]. unfold unconfirmed_txs_exist in H2. rewrite Hq in H2.
        cbn in H2. apply exec_lift_inv in H2 as [_ H2]. congruence. }
      split_and!; [done|done|done|]. intros _ r Hr. eapply spend_put_mono; [|by apply Hput]. by apply sublist_inserts_r.
    - apply (confirm_loop_Ok _ _ _ _ _ transfer) in H2 as [Hw Hput]; [|done]. split_and!; [done|done|done|].
      intros _ r Hr. eapply spend_put_mono; [|by apply Hput]. by apply sublist_inserts_l. }
  apply exec_bind_Ok in He as ([] & t7 & t8 & -> & [H3 L3]%exec_expect_Ok%exec_on_right & He).
  apply exec_bind_Ok in He as ([] & t9 & t10 & -> & [H4 L4]%exec_expect_Ok%exec_on_right & [-> [= <-]]%exec_lift_inv).
  rewrite Hw in H3, H4. exists (wc_wallet wc), transfer, (right_events t7), (right_events t9).
  split_and!; [done|done|done|done| |].
  - rewrite !right_events_app, R1, R5, app_nil_r. done.
  - intros Hv r Hr. eapply spend_put_mono; [|by apply Hput]. rewrite (app_assoc t1), (left_events_app (t1 ++ t5)). by apply sublist_inserts_r.
Qed.

Lemma exec_infallible_Err {E A} (p : NetProg Empty_set A) tr (e : E) : ¬ exec (infallible p) tr (Err e).
Proof. intros ([| []|] & _ & ?)%exec_map_err_inv; done. Qed.

Lemma confirm_loop_Err fuel sched verify n w tr e :
  exec (confirm_loop fuel sched verify n w) tr (Err e) → e = UnconfirmedTxAfterRetries.
Proof.
  revert n w tr. induction fuel as [|fuel IH]; intros n w tr; cbn; [by intros [_ ?]%exec_done_inv|].
  destruct (unconfirmed_txs_exist w); [|by intros [_ ?]%exec_done_inv].
  intros (a & t1 & -> & He)%exec_vis_inv. apply exec_bind_inv in He as [(x & t2 & t3 & -> & _ & He)|[(e' & _ & He)|(? & ? & _)]]; [| |done].
  - case_decide; [by apply exec_lift_inv in He as [_ [= ->]]|]. by eapply IH.
  - by apply exec_infallible_Err in He.
Qed.

(** The only error of a send. *)
Lemma send_Err bld fuel ch from amount to client verify tr e :
  exec (send bld fuel ch from amount to client verify) tr (Err e) →
  e = UnconfirmedTxAfterRetries ∧ verify = true ∧ right_events tr = [].
Proof.
  unfold send. case_decide; [by intros [_ ?]%exec_done_inv|]. intros He.
  apply exec_bind_inv in He as [([wc sent] & t1 & t2 & -> & [H1 R1]%exec_on_left & He)|[(e' & _ & He)|(? & ? & _)]]; [| |done].
  2: { apply exec_on_left in He as [He _]. by apply exec_infallible_Err in He. }
  apply exec_bind_inv in He as [(d & t3 & t4 & -> & H3%exec_expect_Ok%exec_lift_inv & He)|[(e' & _ & He)|(? & ? & _)]]; [| |done].
  2: { by apply exec_expect_Err in He. }
  destruct H3 as [-> _].
  apply exec_bind_inv in He as [([wc'|] & t5 & t6 & -> & _ & He)|[(e' & [= ->] & He)|(? & ? & _)]]; [| | |done].
  - apply exec_bind_inv in He as [([] & ? & ? & _ & _ & He)|[(? & _ & He)|(? & ? & _)]]; [| |done].
    + apply exec_bind_inv in He as [([] & ? & ? & _ & _ & He)|[(? & _ & He)|(? & ? & _)]]; [| |done].
      * by apply exec_lift_inv in He as [_ ?].
      * by apply exec_expect_Err in He.
    + by apply exec_expect_Err in He.
  - by apply exec_lift_inv in He as [_ ?].
  - destruct verify; [|by apply exec_lift_inv in He as [_ ?]]. apply exec_on_left in He as [He R].
    apply confirm_loop_Err in He. cbn [app]. rewrite right_events_app, R1, R. done.
Qed.

End SendLemmas.

(** ** Properties *)

Section Properties.
Context `{BLS : BlsCrate, XN : XorNameCrate, HX : HexCrate, KD : KadCrate, CR : CrdtsCrate, SE : SelfEncryptionCrate}.
Context `{TK : TokenCrate, DI : DbcIdCrate, SD : !SnDbcCrate, DC : !DbcCrate, RP : !RegisterParams, DT : !DbcTextCrate}.
Context `{RH : RmpHeader, RC : Rmp (bytes * PaymentProof), RS : Rmp (list SignedSpend), RR : Rmp SignedRegister}.
Context `{BW : Bincode KeyLessWallet}.

(** C28: when a send returns, the wallet on disk is the one that [local_send]
    left, the DBC returned is the first one that [local_send] made for others and
    lies on disk in a file that reads back as it, and, when verifying, every
    spend of the transfer was stored and read back. *)
Theorem sent_tokens_on_disk (HL : HexLaws) (HD : DbcTextLaws) (HB : BincodeLaws KeyLessWallet)
    (bld : Build) (fuel : nat) (ch : Choices) (from : LocalWallet) (amount : Token) (to : PublicAddress) (client : Client)
    (verify : bool) (fs fs' : Fs) tr dbc :
  exec (send bld fuel ch from amount to client verify) tr (Ok (Some dbc)) → fs_run fs (right_events tr) fs' →
  ∃ w transfer text,
    local_send bld [(amount, to)] zero_hash (ch_rnds ch) (ch_rnd ch) from = (w, Ok transfer) ∧
    head (created_dbcs transfer) = Some dbc ∧ wallet_on_disk fs' (wallet_dir from) (wallet w) ∧
    fs' !! created_dbc_path (wallet_dir from) dbc = Some (File text) ∧ dbc_of_text text = Some dbc ∧
    (verify = true → ∀ r, r ∈ all_spend_requests transfer → spend_put r true (left_events tr)).
Proof.
  intros He Hr. apply send_Ok in He as (w & transfer & tw & td & Hl & Hh & Hw & Hd & Hev & Hput). rewrite Hev in Hr.
  apply fs_run_app in Hr as (fs1 & Rw & Rd). destruct (local_send_dir _ _ _ _ _ _ _ _ Hl) as [Hdir _].
  destruct (LocalWallet_store_run _ _ _ _ Hw Rw) as [(b & Hb & Hde) _].
  destruct (store_created_dbc_Ok _ _ _ _ _ Hd Rd) as [(h & Hh' & Hf) Hkeep]. rewrite Hdir in *.
  exists w, transfer, (String.list_byte_of_string h). split_and!; [done|done| |done|by apply dbc_of_written_text|done].
  exists b. split; [|done]. apply Hkeep; [|done].
  unfold created_dbc_path, created_dbc_dir. rewrite <- app_assoc. intros H%app_inv_head. by apply (f_equal length) in H.
Qed.

(** C38: a send ends within twelve rounds of resending.  The only error it
    returns is that the transfer is still unconfirmed, and then nothing was
    stored on disk: the wallet there is the one before the send, although the
    spends may have reached the network. *)
Theorem send_terminates (bld : Build) (ch : Choices) (from : LocalWallet) (amount : Token) (to : PublicAddress)
    (client : Client) (verify : bool) tr r :
  exec (send bld 12 ch from amount to client verify) tr r →
  r ≠ Ok None ∧ ∀ e, r = Err e → e = UnconfirmedTxAfterRetries ∧ verify = true ∧ right_events tr = [].
Proof.
  intros He. split; [|intros e ->].
  - intros ->. unfold send in He. case_decide; [by apply exec_done_inv in He as [_ ?]|].
    apply exec_bind_Ok in He as ([wc sent] & t1 & t2 & -> & _ & He). apply exec_bind_Ok in He as (d & t3 & t4 & -> & _ & He).
    apply exec_bind_Ok in He as ([wc'|] & t5 & t6 & -> & H2 & He).
    + by apply exec_bind_Ok in He as ([] & ? & ? & -> & _ & ([] & ? & ? & -> & _ & [_ ?]%exec_lift_inv)%exec_bind_Ok).
    + destruct verify; [|by apply exec_lift_inv in H2 as [_ ?]]. apply exec_on_left in H2 as [H2 _].
      apply (confirm_loop_None _ _ _ _ _ _ _ H2); [lia|lia|done].
  - by apply send_Err in He.
Qed.

(** the faucet wallet that is returned is the one on disk in the faucet's
    directory; it has a balance already, or else it got a DBC from the genesis
    wallet each of whose spends the network confirmed. *)
Theorem faucet_loaded (HL : HexLaws) (HD : DbcTextLaws) (HB : BincodeLaws KeyLessWallet)
    (bld : Build) (from_hex : string → option MainKey) (fuel : nat) (ch : Choices) (keys : MainKey * MainKey)
    (sched : list nat) (client : Client) (fs fs' : Fs) tr (w : LocalWallet) :
  exec (load_faucet_wallet_from_genesis_wallet bld from_hex fuel ch keys sched client) tr (Ok (Some w)) →
  fs_run fs (right_events tr) fs' →
  wallet_on_disk fs' (wallet_dir w) (wallet w) ∧
  (as_nano (LocalWallet_balance w) ≠ 0%Z ∨
   ∃ w0 dbc, deposit bld [dbc] w0 = (w, Ok tt) ∧ ∀ s, s ∈ dbc_signed_spends dbc → spend_confirmed s (left_events tr)).
Proof.
  unfold load_faucet_wallet_from_genesis_wallet. intros He Hr.
  apply exec_bind_Ok in He as (w0 & t1 & t2 & -> & [H1 _]%exec_map_err_Ok%exec_on_right & He).
  rewrite right_events_app in Hr. apply fs_run_app in Hr as (fs1 & R1 & Hr).
  case_bool_decide as Hz; cbn [negb] in He.
  2: { apply exec_lift_inv in He as [-> [= ->]]. cbn in Hr. subst fs'. split; [|by left].
       unfold create_faucet_wallet in H1. apply exec_bind_Ok in H1 as (root & t3 & t4 & Ht & _ & H1%exec_expect_Ok).
       rewrite Ht in R1. apply fs_run_app in R1 as (fs2 & _ & R1).
       destruct (load_from_run _ _ _ _ _ _ H1 R1) as (_ & _ & Hw & _). exact Hw. }
  apply exec_bind_Ok in He as (genesis & t3 & t4 & -> & _ & He).
  apply exec_bind_Ok in He as (sent & t5 & t6 & -> & _ & He). destruct sent as [dbc|]; [|by apply exec_lift_inv in He as [_ ?]].
  destruct (deposit bld [dbc] w0) as [w1 dep] eqn:Hdep.
  apply exec_bind_Ok in He as ([] & t7 & t8 & -> & [-> Hd]%exec_lift_inv & He). symmetry in Hd. apply map_err_Ok_iff in Hd as ->.
  apply exec_bind_Ok in He as ([] & t9 & t10 & -> & [H2 _]%exec_expect_Ok%exec_on_right & He).
  apply exec_bind_Ok in He as ([] & t11 & t12 & -> & [H3 R3]%exec_expect_Ok%exec_on_left & [-> [= <-]]%exec_lift_inv).
  rewrite !right_events_app, R3 in Hr. cbn [app right_events omap list_omap] in Hr. rewrite !app_nil_r in Hr.
  apply fs_run_app in Hr as (fs2 & _ & Hr). apply fs_run_app in Hr as (fs3 & _ & Hr).
  destruct (LocalWallet_store_run _ _ _ _ H2 Hr) as [Hw _]. split; [done|]. right. exists w0, dbc. split; [done|].
  intros s Hs. destruct (client_verify_Ok _ _ _ _ H3 s Hs) as [Hv (rec & Ha & Hrec)]. split; [done|]. exists rec. split; [|done].
  eapply network_answered_mono; [|exact Ha]. intros ev Hev. rewrite !left_events_app, !elem_of_app. do 5 right. by left.
Qed.

End Properties.

(** ** The properties at concrete values *)

(** A network that stores what is put, and a file system on which everything
    succeeds. *)
Definition toy_app (s : gmap RecordKey KRecord * Fs) (op : NetOp + FsOp) : (gmap RecordKey KRecord * Fs) * AppAns op :=
  match op return (gmap RecordKey KRecord * Fs) * AppAns op with
  | inl (PutRecord r) => ((<[r_key r := r]> s.1, s.2), Answer (inr tt))
  | inl (GetNetworkRecord k) => (s, match s.1 !! k with Some r => Answer (inr r) | None => Answer (inl RecordNotFound) end)
  | inl op => (s, (toy_network toy_reg_rec 1 op).2)
  | inr op => let '(fs, a) := toy_fs s.2 op in ((s.1, fs), a)
  end.

Fixpoint toy_app_end {E A : Type} (s : gmap RecordKey KRecord * Fs) (p : AppProg E A) : gmap RecordKey KRecord * Fs :=
  match p with
  | Done _ => s
  | Vis op k => let '(s', a) := toy_app s op in toy_app_end s' (k a)
  end.

Lemma toy_app_run {E A : Type} s (p : AppProg E A) : fs_run s.2 (right_events (run toy_app s p).1) (toy_app_end s p).2.
Proof.
  revert s. induction p as [r|op k IH]; intros s; cbn; [done|].
  destruct op as [op|op].
  - assert ((toy_app s (inl op)).1.2 = s.2) as Hs by (by destruct op).
    destruct (toy_app s (inl op)) as [s1 a]. specialize (IH a s1). cbn in Hs. rewrite Hs in IH.
    destruct (run toy_app s1 (k a)) as [tr r]. exact IH.
  - cbn [toy_app]. pose proof (toy_fs_step s.2 op) as Hs. destruct (toy_fs s.2 op) as [fs1 a]. specialize (IH a (s.1, fs1)).
    destruct (run toy_app (s.1, fs1) (k a)) as [tr r]. by exists fs1.
Qed.

Definition toy_choices : Choices :=
  {| ch_rnds := [[Byte.x44]]; ch_rnd := [Byte.x55]; ch_resend := λ _, []; ch_send := [1; 0]; ch_rounds := λ _ _, [] |}.

Definition toy_sending : AppProg WalletError (option Dbc) :=
  send Debug 12 toy_choices toy_changed (toy_tok 12) toy_payee toy_client true.
Definition toy_sending_run : list (Effects.Event AppAns) * Res WalletError (option Dbc) := run toy_app (∅, toy_fs2) toy_sending.

(** 12 of 15 nanos are sent; the wallet on disk has 3 left. *)
Lemma sent_tokens_on_disk_witness :
  ∃ dbc w, toy_sending_run.2 = Ok (Some dbc) ∧ wallet_on_disk (toy_app_end (∅, toy_fs2) toy_sending).2 toy_dir (wallet w) ∧
    as_nano (LocalWallet_balance w) = 3%Z.
Proof.
  assert (match toy_sending_run.2 with Ok (Some _) => true | _ => false end = true) as Hok by by_compute.
  destruct toy_sending_run.2 as [[dbc|]| |] eqn:Hr; try discriminate Hok.
  destruct (sent_tokens_on_disk _ _ _ Debug 12 toy_choices toy_changed (toy_tok 12) toy_payee toy_client true
    toy_fs2 (toy_app_end (∅, toy_fs2) toy_sending).2 toy_sending_run.1 dbc) as (w & transfer & text & Hl & _ & Hw & _).
  - rewrite <- Hr. apply run_exec.
  - apply (toy_app_run (∅, toy_fs2)).
  - exists dbc, w. split_and!; [reflexivity|exact Hw|].
    assert (as_nano (LocalWallet_balance (local_send Debug [(toy_tok 12, toy_payee)] zero_hash [[Byte.x44]] [Byte.x55] toy_changed).1)
      = 3%Z) as Hb by by_compute.
    cbn [toy_choices ch_rnds ch_rnd] in Hl. rewrite Hl in Hb. exact Hb.
Defined.

(** A network that takes no records: the send gives up. *)
Definition toy_deaf (s : gmap RecordKey KRecord * Fs) (op : NetOp + FsOp) : (gmap RecordKey KRecord * Fs) * AppAns op :=
  match op return (gmap RecordKey KRecord * Fs) * AppAns op with
  | inl (PutRecord r) => (s, Dropped)
  | op => toy_app s op
  end.
Definition toy_deaf_run : list (Effects.Event AppAns) * Res WalletError (option Dbc) := run toy_deaf (∅, toy_fs2) toy_sending.

Lemma send_terminates_witness : toy_deaf_run.2 = Err UnconfirmedTxAfterRetries ∧ right_events toy_deaf_run.1 = [].
Proof.
  assert (match toy_deaf_run.2 with Err _ => true | _ => false end = true) as Hok by by_compute.
  destruct toy_deaf_run.2 as [|e|] eqn:Hr; try discriminate Hok.
  destruct (send_terminates Debug toy_choices toy_changed (toy_tok 12) toy_payee toy_client true toy_deaf_run.1 (Err e)) as [_ H].
  - rewrite <- Hr. apply run_exec.
  - destruct (H e eq_refl) as (-> & _ & Hev). split; [reflexivity|exact Hev].
Defined.

Definition toy_faucet_load : AppProg ClientError (option LocalWallet) :=
  load_faucet_wallet_from_genesis_wallet Debug toy_key_from_hex 12 toy_choices (toy_other_mk, toy_other_mk) [] toy_client.
Definition toy_start : gmap RecordKey KRecord * Fs := (∅, ∅).
Definition toy_faucet_run : list (Effects.Event AppAns) * Res ClientError (option LocalWallet) := run toy_app toy_start toy_faucet_load.

Lemma faucet_loaded_witness :
  ∃ w, toy_faucet_run.2 = Ok (Some w) ∧ wallet_on_disk (toy_app_end toy_start toy_faucet_load).2 (wallet_dir w) (wallet w).
Proof.
  assert (match toy_faucet_run.2 with Ok (Some _) => true | _ => false end = true) as Hok by by_compute.
  destruct toy_faucet_run.2 as [[w|]| |] eqn:Hr; try discriminate Hok. exists w. split; [reflexivity|].
  destruct (faucet_loaded _ _ _ Debug toy_key_from_hex 12 toy_choices (toy_other_mk, toy_other_mk) [] toy_client toy_start.2
    (toy_app_end toy_start toy_faucet_load).2 toy_faucet_run.1 w) as [Hw _].
  - rewrite <- Hr. exact (run_exec _ _ toy_faucet_load).
  - exact (toy_app_run toy_start toy_faucet_load).
  - exact Hw.
Defined.
