(* ===== verification/Cli.v ===== *)
(** * sn_cli: the commands of the command line client

    - [cli_address] to [chunk_and_pay_for_storage]:
      src/sn_cli/src/subcommands/wallet.rs;
    - [upload_files], [download_files]: src/sn_cli/src/subcommands/files.rs;
    - [cli_create_register], [edit_register], [get_registers]:
      src/sn_cli/src/subcommands/register.rs;
    - the client's key and directory: src/sn_cli/src/main.rs.

    Programs over the network and the file system.  What is printed is returned
    or left out; what is typed, the time of day and the directory for temporary
    files are arguments.  A file name is one component of a path. *)

From S2P Require Import Prelude Deps ToyCrates Registers Protocol Transfers RecordStore Payments Effects Network SwarmDriver Wallet WalletFiles Client ClientWallet Files Faucet.
From stdpp Require Import base tactics list gmap sorting strings.
From Stdlib Require Import ZArith NArith Strings.Byte Lia.

(** [OsStr::to_str]: whether bytes are UTF-8. *)
Definition in_bytes (lo hi : N) (x : byte) : bool := (lo <=? Byte.to_N x)%N && (Byte.to_N x <=? hi)%N.
Definition continuation (x : byte) : bool := in_bytes 128 191 x.

Fixpoint is_utf8 (b : bytes) : bool :=
  match b with
  | [] => true
  | x :: b1 =>
      if in_bytes 0 127 x then is_utf8 b1
      else
        match b1 with
        | [] => false
        | y :: b2 =>
            if in_bytes 194 223 x then continuation y && is_utf8 b2
            else
              match b2 with
              | [] => false
              | z :: b3 =>
                  if in_bytes 224 239 x then
                    (if in_bytes 224 224 x then in_bytes 160 191 y
                     else if in_bytes 237 237 x then in_bytes 128 159 y else continuation y)
                    && continuation z && is_utf8 b3
                  else
                    match b3 with
                    | [] => false
                    | u :: b4 =>
                        in_bytes 240 244 x
                        && (if in_bytes 240 240 x then in_bytes 144 191 y
                            else if in_bytes 244 244 x then in_bytes 128 143 y else continuation y)
                        && continuation z && continuation u && is_utf8 b4
                    end
              end
        end
  end.

Definition file_name (p : Path) : option string :=
  match last p with
  | Some name => if is_utf8 (String.list_byte_of_string name) then Some name else None
  | None => None
  end.

Section Cli.
Context `{BLS : BlsCrate, XN : XorNameCrate, HX : HexCrate, KD : KadCrate, CR : CrdtsCrate, SE : SelfEncryptionCrate}.
Context `{TK : TokenCrate, DI : DbcIdCrate, SD : !SnDbcCrate, DC : !DbcCrate, RP : !RegisterParams, DT : !DbcTextCrate}.
Context `{MK : MerkleCrate}.
Context `{RH : RmpHeader, RC : Rmp (bytes * PaymentProof), RS : Rmp (list SignedSpend), RR : Rmp SignedRegister}.
Context `{SO : SelfEncryptionOps, BB : Bincode bytes, BD : Bincode DataMapLevel, BW : Bincode KeyLessWallet}.
Context `{BI : Bincode (list (XorName * string))}.
Context (bld : Build) (token_from_str : string → option Token).

(** An [eyre] report.  [CLI_OutOfFuel] is that of a fuelled definition. *)
Inductive CliError :=
| CLI_Client (e : ClientError)
| CLI_Wallet (e : WalletError)
| CLI_Register (e : RegError)
| CLI_Dbc
| CLI_Token
| CLI_Bincode
| CLI_Io
| CLI_Http
| CLI_NoFiles
| CLI_NoPeers
| CLI_NoDataDir
| CLI_OutOfFuel.

Definition fs_call {E : Type} (op : FsOp) : AppProg E (FsAns op) := call (Ans:=AppAns) (inr op).

(** Programs of the client and of the wallet. *)
Definition on_client_api {A : Type} (p : NetProg ClientError A) : AppProg CliError A := prog_map_err CLI_Client (on_left p).
Definition on_wallet_files {A : Type} (p : FsProg WalletError A) : AppProg CliError A := prog_map_err CLI_Wallet (on_right p).

(** ** main.rs *)

Definition CLIENT_KEY : string := "clientkey".

Definition get_client_secret_key (new_key : SecretKey) (root_dir : Path) : FsProg CliError SecretKey :=
  created ← call (CreateDirAll root_dir);
  _ ← io CLI_Io created;
  let key_path := root_dir ++ [CLIENT_KEY] in
  is_file ← call (IsFile key_path);
  if (is_file : bool) then
    read ← call (ReadFile key_path);
    secret_hex_bytes ← io CLI_Io read;
    lift (map_err CLI_Wallet (bls_secret_from_hex secret_hex_bytes))
  else
    written ← call (WriteFile key_path (hex_text (sk_to_bytes new_key)));
    _ ← io CLI_Io written;
    lift (Ok new_key).

Definition get_client_data_dir_path : FsProg CliError Path :=
  data ← call DataDir;
  home_dirs ← expect (io CLI_Io data);
  let dir := home_dirs ++ ["safe"; "client"]%string in
  created ← call (CreateDirAll dir);
  _ ← io CLI_Io created;
  lift (Ok dir).

(** ** wallet.rs *)

Definition cli_address (new_key : MainKey) (root_dir : Path) : FsProg WalletError string :=
  w ← load_from new_key root_dir; lift (Ok (hex_encode (pa_to_bytes (LocalWallet_address w)))).

Definition cli_balance (new_key : MainKey) (root_dir : Path) : FsProg WalletError Token :=
  w ← load_from new_key root_dir; lift (Ok (LocalWallet_balance w)).

(** The two balances that are printed. *)
Definition deposit_from_dbc_hex (new_key : MainKey) (root_dir : Path) (input : bytes) : FsProg CliError (Token * Token) :=
  w ← prog_map_err CLI_Wallet (load_from new_key root_dir);
  dbc ← io CLI_Dbc (dbc_of_text input);
  let old_balance := LocalWallet_balance w in
  let '(w, deposited) := deposit bld [dbc] w in
  _ ← lift (map_err CLI_Wallet deposited);
  let new_balance := LocalWallet_balance w in
  _ ← prog_map_err CLI_Wallet (LocalWallet_store w);
  lift (Ok (old_balance, new_balance)).

(** What is deposited from the received DBCs, as it is printed; a failure to
    store the wallet is only printed too. *)
Definition deposit_received (new_key : MainKey) (root_dir : Path) : FsProg CliError (option Token) :=
  w ← prog_map_err CLI_Wallet (load_from new_key root_dir);
  let previous_balance := LocalWallet_balance w in
  loaded ← prog_map_err (λ e : Empty_set, match e with end) (try_load_deposits bld w);
  let '(w, loaded) := loaded in
  _ ← lift (map_err CLI_Wallet loaded);
  nanos ← lift (u64_sub bld (as_nano (LocalWallet_balance w)) (as_nano previous_balance));
  let deposited := from_nano nanos in
  if decide (as_nano deposited = 0%Z) then lift (Ok None)
  else
    stored ← attempt (LocalWallet_store w);
    lift (Ok (if is_ok stored then Some deposited else None)).

(** [http_get] is the answer to a request: whether the status is one of
    success, and the body; there is none if the address is not a URL or the
    request fails. *)
Definition get_faucet (http_get : string → option (bool * bytes)) (new_key : MainKey) (root_dir : Path) (url : string)
    : FsProg CliError unit :=
  w ← prog_map_err CLI_Wallet (load_from new_key root_dir);
  let address_hex := hex_encode (pa_to_bytes (LocalWallet_address w)) in
  let url := match String.index 0 "://" url with Some _ => url | None => String.append "http://" url end in
  '(is_success, body) ← io CLI_Http (http_get (String.append url (String.append "/" address_hex)));
  if (is_success : bool) then _ ← deposit_from_dbc_hex new_key root_dir body; lift (Ok tt) else lift (Ok tt).

(** [stdin] is the text read there, if it can be read. *)
Definition read_dbc_from_stdin (stdin : option bytes) (new_key : MainKey) (root_dir : Path) : FsProg CliError unit :=
  input ← io CLI_Io stdin;
  _ ← deposit_from_dbc_hex new_key root_dir input;
  lift (Ok tt).

Definition cli_deposit (stdin : option bytes) (new_key : MainKey) (root_dir : Path) (read_from_stdin : bool)
    (dbc : option bytes) : FsProg CliError unit :=
  if read_from_stdin then read_dbc_from_stdin stdin new_key root_dir
  else
    match dbc with
    | Some dbc_hex => _ ← deposit_from_dbc_hex new_key root_dir dbc_hex; lift (Ok tt)
    | None => _ ← deposit_received new_key root_dir; lift (Ok tt)
    end.

Definition cli_send (new_key : MainKey) (ch : Choices) (amount : string) (to : bytes) (client : Client) (root_dir : Path)
    (verify_store : bool) : AppProg CliError unit :=
  address ← lift (map_err CLI_Wallet (parse_public_address to));
  amount ← lift (ok_or (token_from_str amount) CLI_Token);
  if decide (as_nano amount = 0%Z) then lift (Ok tt)
  else
    w ← on_wallet_files (load_from new_key root_dir);
    x ← on_left (infallible (wc_send bld (ch_resend ch) (ch_send ch) (ch_rnds ch) (ch_rnd ch) amount address verify_store
                               (WalletClient_new client w)));
    let '(wallet_client, sent) := x in
    match sent with
    | Ok new_dbc =>
        let w := wc_wallet wallet_client in
        _ ← attempt (on_right (LocalWallet_store w));
        on_wallet_files (store_created_dbc new_dbc w)
    | Err _ => lift (Ok tt)
    | Panic p => lift (Panic p)
    end.

Record ChunkedFile := {
  cf_name : string;
  cf_size : nat;
  cf_chunks : list (XorName * Path);
}.

(** Store the chunks of a file in the directory for temporary files. *)
Definition write_chunks (chunks_dir : Path) (chunks : list Chunk) : AppProg CliError (list (XorName * Path)) :=
  prog_fold (λ chunks_paths c,
    let path := chunks_dir ++ [hex_encode (chunk_name c)] in
    written ← fs_call (WriteFile path (chunk_value c));
    _ ← lift (ok_or written CLI_Io);
    lift (Ok (chunks_paths ++ [(chunk_name c, path)]))) [] chunks.

(** One file of the walk. *)
Definition chunk_file (fuel : nat) (chunks_dir : Path) (chunked_files : gmap XorName ChunkedFile) (path : Path)
    : AppProg CliError (gmap XorName ChunkedFile) :=
  match file_name path with
  | None => lift (Ok chunked_files)
  | Some name =>
      read ← fs_call (ReadFile path);
      data ← lift (ok_or read CLI_Io);
      chunked ← lift (ok_or (chunk_bytes fuel data) CLI_OutOfFuel);
      '(file_addr, chunks) ← lift (map_err (CLI_Client ∘ CE_Chunks) chunked);
      chunks_paths ← write_chunks chunks_dir chunks;
      lift (Ok (<[file_addr := {| cf_name := name; cf_size := length data; cf_chunks := chunks_paths |}]> chunked_files))
  end.

(** What the quotes, the scheduler and the random generators choose in a payment. *)
Record PayChoices := {
  pc_order : list PeerId → list PeerId;
  pc_target : XorName;
  pc_send : list nat;
  pc_rnd : bytes;
}.

Definition chunk_and_pay_for_storage (fuel : nat) (ch : PayChoices) (new_key : MainKey) (chunks_dir : Path)
    (client : Client) (root_dir files_path : Path) (verify_store : bool)
    : AppProg CliError (gmap XorName ChunkedFile * gmap XorName PaymentProof) :=
  w ← on_wallet_files (load_from new_key root_dir);
  files ← fs_call (WalkFiles files_path);
  chunked_files ← prog_fold (chunk_file fuel chunks_dir) (∅ : gmap XorName ChunkedFile) (files : list Path);
  if decide (chunked_files = ∅) then lift (Err CLI_NoFiles)
  else
    let names := concat ((λ cf, (cf_chunks cf).*1) <$> bmap_values chunked_files) in
    x ← on_left (infallible (pay_for_storage bld (pc_order ch) (pc_target ch) (pc_send ch) (pc_rnd ch) names verify_store
                               (WalletClient_new client w)));
    let '(wallet_client, paid) := x in
    '(proofs, cost) ← lift (map_err CLI_Wallet paid);
    _ ← match cost with
        | Some cost => total_cost ← lift (u64_mul bld (Z.of_nat (size (proofs : gmap XorName PaymentProof))) (as_nano cost)); lift (Ok tt)
        | None => lift (Ok tt)
        end;
    _ ← attempt (F:=CliError) (on_right (LocalWallet_store (wc_wallet wallet_client)));
    lift (Ok (chunked_files, proofs)).

(** ** files.rs *)

(** The chunks whose files can be read; an unreadable one is only printed.  The
    iterator reads a chunk when the upload asks for it; here all are read
    first, which makes no difference to what is uploaded. *)
Definition read_chunks (chunks_paths : list (XorName * Path)) : AppProg ClientError (list Chunk) :=
  prog_fold (λ chunks (np : XorName * Path),
    read ← fs_call (ReadFile np.2);
    lift (Ok (match read with
              | Some file => chunks ++ [{| chunk_address := {| chunk_xorname := np.1 |}; chunk_value := file |}]
              | None => chunks
              end))) [] chunks_paths.

Definition upload_chunks (sched : nat → list nat) (chunks_paths : list (XorName * Path))
    (payment_proofs : gmap XorName PaymentProof) (verify_store : bool) : AppProg ClientError unit :=
  chunks_reader ← read_chunks chunks_paths;
  on_left (upload_chunks_in_batches sched chunks_reader payment_proofs verify_store).

(** [date_time] is the time as text.  A file whose chunks could not all be
    stored is only printed. *)
Definition upload_files (fuel : nat) (ch : PayChoices) (scheds : XorName → nat → list nat) (new_key : MainKey)
    (chunks_dir : Path) (date_time : string) (files_path : Path) (client : Client) (root_dir : Path) (verify_store : bool)
    : AppProg CliError unit :=
  let file_names_path := root_dir ++ ["uploaded_files"%string] in
  '(chunks_to_upload, payment_proofs) ← chunk_and_pay_for_storage fuel ch new_key chunks_dir client root_dir files_path true;
  chunks_to_fetch ← prog_fold (λ chunks_to_fetch (file : XorName * ChunkedFile),
      _ ← attempt (upload_chunks (scheds file.1) (cf_chunks file.2) payment_proofs verify_store);
      lift (Ok (chunks_to_fetch ++ [(file.1, cf_name file.2)]))) [] (bmap_iter (chunks_to_upload : gmap XorName ChunkedFile));
  content ← lift (ok_or (bincode_serialize (chunks_to_fetch : list (XorName * string))) CLI_Bincode);
  created ← fs_call (CreateDirAll file_names_path);
  _ ← lift (ok_or created CLI_Io);
  written ← fs_call (WriteFile (file_names_path ++ [String.append "file_names_" date_time]) content);
  lift (ok_or written CLI_Io).

(** A failure to get or to write the file is only printed. *)
Definition download_file (fuel : nat) (sched : nat → nat → list nat) (xorname : XorName) (name : string)
    (download_path : Path) : AppProg CliError unit :=
  got ← attempt (on_left (read_bytes fuel sched {| chunk_xorname := xorname |}));
  match got with
  | Ok (Some data) => _ ← fs_call (WriteFile (download_path ++ [name]) data); lift (Ok tt)
  | Ok None => lift (Err CLI_OutOfFuel)
  | _ => lift (Ok tt)
  end.

Definition download_files (fuel : nat) (sched : nat → nat → list nat) (root_dir : Path) : AppProg CliError unit :=
  let docs_of_uploaded_files_path := root_dir ++ ["uploaded_files"%string] in
  let download_path := root_dir ++ ["downloaded_files"%string] in
  created ← fs_call (CreateDirAll download_path);
  _ ← lift (ok_or created CLI_Io);
  docs ← fs_call (WalkFiles docs_of_uploaded_files_path);
  prog_fold (λ _ path,
    read ← fs_call (ReadFile path);
    index_doc_bytes ← lift (ok_or read CLI_Io);
    files_to_fetch ← lift (ok_or (bincode_deserialize (T:=list (XorName * string)) index_doc_bytes) CLI_Bincode);
    prog_fold (λ _ (file : XorName * string), download_file fuel sched file.1 file.2 download_path) tt files_to_fetch)
    tt (docs : list Path).

(** ** register.rs *)

Definition parse_addr (address_str : string) (use_name : bool) (pk : PublicKey) : Res CliError RegisterAddress :=
  if use_name then
    let user_metadata := from_content (String.list_byte_of_string address_str) in
    Ok (RegisterAddress_new user_metadata pk)
  else map_err CLI_Register (RegisterAddress_from_hex address_str).

Definition cli_create_register (name : string) (client : Client) (verify_store : bool) : NetProg CliError RegisterAddress :=
  let meta := from_content (String.list_byte_of_string name) in
  register ← prog_map_err CLI_Client (create_online client meta verify_store);
  lift (Ok (cr_address register)).

Definition edit_register (address_str : string) (use_name : bool) (entry : string) (client : Client) (verify_store : bool)
    : NetProg CliError unit :=
  address ← lift (parse_addr address_str use_name (signer_pk client));
  register ← prog_map_err CLI_Client (get_register client address);
  x ← infallible (write_online (String.list_byte_of_string entry) verify_store register);
  let '(register, written) := x in
  match written with
  | Ok _ => lift (Ok tt)
  | Err (CE_ContentBranchDetected _) =>
      y ← infallible (write_merging_branches_online (String.list_byte_of_string entry) verify_store register);
      lift (map_err CLI_Client y.2)
  | Err e => lift (Err (CLI_Client e))
  | Panic p => lift (Panic p)
  end.

(** The entries that are printed. *)
Definition get_registers (addresses : list string) (use_name : bool) (client : Client)
    : NetProg CliError (list (gset (Hash32 * bytes))) :=
  prog_fold (λ shown addr,
    address ← lift (parse_addr addr use_name (signer_pk client));
    register ← prog_map_err CLI_Client (get_register client address);
    lift (Ok (shown ++ [cr_read register]))) [] addresses.

(** ** The commands *)

Inductive WalletCmds :=
| WC_Address
| WC_Balance
| WC_Deposit (stdin : bool) (dbc : option bytes)
| WC_GetFaucet (url : string)
| WC_Send (amount : string) (to : bytes)
| WC_Pay (path : Path).

Inductive FilesCmds :=
| FC_Upload (path : Path)
| FC_Download (file_name file_addr : option string).

Inductive RegisterCmds :=
| RC_Create (name : string)
| RC_Edit (address : string) (use_name : bool) (entry : string)
| RC_Get (addresses : list string) (use_name : bool).

(** What a command gets from outside besides the answers to its operations. *)
Record Inputs := {
  in_fuel : nat;
  in_key : MainKey;
  in_send : Choices;
  in_pay : PayChoices;
  in_uploads : XorName → nat → list nat;
  in_downloads : nat → nat → list nat;
  in_stdin : option bytes;
  in_http : string → option (bool * bytes);
  in_temp_dir : Path;
  in_date_time : string;
}.

Definition wallet_cmds (i : Inputs) (cmds : WalletCmds) (client : Client) (root_dir : Path) (verify_store : bool)
    : AppProg CliError unit :=
  match cmds with
  | WC_Address => _ ← on_wallet_files (cli_address (in_key i) root_dir); lift (Ok tt)
  | WC_Balance => _ ← on_wallet_files (cli_balance (in_key i) root_dir); lift (Ok tt)
  | WC_Deposit stdin dbc => on_right (cli_deposit (in_stdin i) (in_key i) root_dir stdin dbc)
  | WC_GetFaucet url => on_right (get_faucet (in_http i) (in_key i) root_dir url)
  | WC_Send amount to => cli_send (in_key i) (in_send i) amount to client root_dir verify_store
  | WC_Pay path =>
      _ ← chunk_and_pay_for_storage (in_fuel i) (in_pay i) (in_key i) (in_temp_dir i) client root_dir path verify_store;
      lift (Ok tt)
  end.

Definition files_cmds (i : Inputs) (cmds : FilesCmds) (client : Client) (root_dir : Path) (verify_store : bool)
    : AppProg CliError unit :=
  match cmds with
  | FC_Upload path =>
      upload_files (in_fuel i) (in_pay i) (in_uploads i) (in_key i) (in_temp_dir i) (in_date_time i) path client root_dir verify_store
  | FC_Download (Some name) (Some address) =>
      b ← lift (match hex_decode address with Some b => Ok b | None => Panic ExplicitPanic end);
      if decide (length b = XOR_NAME_LEN) then download_file (in_fuel i) (in_downloads i) b name root_dir
      else lift (Panic ExplicitPanic)
  | FC_Download _ _ => download_files (in_fuel i) (in_downloads i) root_dir
  end.

Definition register_cmds (cmds : RegisterCmds) (client : Client) (verify_store : bool) : NetProg CliError unit :=
  match cmds with
  | RC_Create name => _ ← cli_create_register name client verify_store; lift (Ok tt)
  | RC_Edit address use_name entry => edit_register address use_name entry client verify_store
  | RC_Get addresses use_name => _ ← get_registers addresses use_name client; lift (Ok tt)
  end.

Inductive SubCmd :=
| SC_Wallet (cmds : WalletCmds)
| SC_Files (cmds : FilesCmds)
| SC_Register (cmds : RegisterCmds).

(** What [main] does with the client. *)
Definition run_command (i : Inputs) (no_verify : bool) (cmd : SubCmd) (client : Client) (client_data_dir_path : Path)
    : AppProg CliError unit :=
  let should_verify_store := negb no_verify in
  match cmd with
  | SC_Wallet cmds => wallet_cmds i cmds client client_data_dir_path should_verify_store
  | SC_Files cmds => files_cmds i cmds client client_data_dir_path should_verify_store
  | SC_Register cmds => on_left (register_cmds cmds client should_verify_store)
  end.

End Cli.


(** ** Lemmas *)

Section CliLemmas.
Context `{BLS : BlsCrate, XN : XorNameCrate, HX : HexCrate, KD : KadCrate, CR : CrdtsCrate, SE : SelfEncryptionCrate}.
Context `{TK : TokenCrate, DI : DbcIdCrate, SD : !SnDbcCrate, DC : !DbcCrate, RP : !RegisterParams, DT : !DbcTextCrate}.
Context `{MK : MerkleCrate}.
Context `{RH : RmpHeader, RC : Rmp (bytes * PaymentProof), RS : Rmp (list SignedSpend), RR : Rmp SignedRegister}.
Context `{SO : SelfEncryptionOps, BB : Bincode bytes, BD : Bincode DataMapLevel, BW : Bincode KeyLessWallet}.
Context `{BI : Bincode (list (XorName * string))}.

Notation AppEvent := (Effects.Event AppAns).

Definition wrote (p : Path) (b : bytes) (tr : list AppEvent) : Prop := existT (WriteFile p b) (Some tt) ∈ right_events tr.
Definition was_read (p : Path) (b : bytes) (tr : list AppEvent) : Prop := existT (ReadFile p) (Some b) ∈ right_events tr.

Lemma wrote_app p b t1 t2 : wrote p b (t1 ++ t2) ↔ wrote p b t1 ∨ wrote p b t2.
Proof. unfold wrote. by rewrite right_events_app, elem_of_app. Qed.
Lemma was_read_app p b t1 t2 : was_read p b (t1 ++ t2) ↔ was_read p b t1 ∨ was_read p b t2.
Proof. unfold was_read. by rewrite right_events_app, elem_of_app. Qed.

Lemma exec_fs_call {E A} op (k : FsAns op → AppProg E A) tr r :
  exec (x ← fs_call op; k x) tr r →
  ∃ (a : FsAns op) t, tr = existT (P:=AppAns) (inr op) a :: t ∧ exec (k a) t r.
Proof. exact (exec_vis_inv (Ans:=AppAns) (inr op) k tr r). Qed.

(** Where a chunk is kept until it is uploaded. *)
Definition chunk_path (dir : Path) (c : Chunk) : Path := dir ++ [hex_encode (chunk_name c)].

Lemma write_chunks_Ok dir chunks tr l :
  exec (write_chunks dir chunks) tr (Ok l) →
  l = (λ c, (chunk_name c, chunk_path dir c)) <$> chunks ∧ ∀ c, c ∈ chunks → wrote (chunk_path dir c) (chunk_value c) tr.
Proof.
  apply (exec_fold_Ok (λ seen t acc,
    acc = (λ c, (chunk_name c, chunk_path dir c)) <$> seen ∧ ∀ c, c ∈ seen → wrote (chunk_path dir c) (chunk_value c) t)).
  - intros seen t s c t' s' [-> Hw] _ (a & t1 & -> & He)%exec_fs_call.
    destruct a as [[]|]; [|by apply exec_done_inv in He as [_ [=]]]. cbn in He. apply exec_done_inv in He as [-> [= ->]].
    split; [by rewrite fmap_app|]. intros c' [H|H%list_elem_of_singleton]%elem_of_app; apply wrote_app; [left; by apply Hw|].
    right. subst c'. by left.
  - split; [done|]. by intros c ?%elem_of_nil.
Qed.

(** [cf] is what was made of a file found at [path]. *)
Definition file_chunked (fuel : nat) (dir : Path) (tr : list AppEvent) (path : Path) (addr : XorName) (cf : ChunkedFile)
    (data : bytes) (chunks : list Chunk) : Prop :=
  file_name path = Some (cf_name cf) ∧ was_read path data tr ∧ chunk_bytes fuel data = Some (Ok (addr, chunks)) ∧
  cf_size cf = length data ∧ cf_chunks cf = (λ c, (chunk_name c, chunk_path dir c)) <$> chunks ∧
  ∀ c, c ∈ chunks → wrote (chunk_path dir c) (chunk_value c) tr.

Lemma file_chunked_app fuel dir t1 t2 t3 path addr cf data chunks :
  file_chunked fuel dir t2 path addr cf data chunks → file_chunked fuel dir (t1 ++ t2 ++ t3) path addr cf data chunks.
Proof.
  intros (H1 & H2 & H3 & H4 & H5 & H6). split_and!; [done| |done|done|done|].
  - rewrite !was_read_app. auto.
  - intros c Hc. rewrite !wrote_app. auto.
Qed.

Lemma chunk_file_Ok fuel dir m path tr m' :
  exec (chunk_file fuel dir m path) tr (Ok m') →
  (file_name path = None ∧ m' = m) ∨
  ∃ addr cf data chunks, m' = <[addr := cf]> m ∧ file_chunked fuel dir tr path addr cf data chunks.
Proof.
  unfold chunk_file. destruct (file_name path) as [name|] eqn:Hn; [|intros [_ [= ->]]%exec_done_inv; by left].
  intros (a & t1 & -> & He)%exec_fs_call. right. destruct a as [data|]; [|by apply exec_done_inv in He as [_ [=]]].
  cbn in He. destruct (chunk_bytes fuel data) as [[[addr chunks]|e|w]|] eqn:Hc; cbn in He;
    [|by apply exec_done_inv in He as [_ [=]]..].
  apply exec_bind_Ok in He as (l & t2 & t3 & -> & [-> Hw]%write_chunks_Ok & [-> [= ->]]%exec_lift_inv).
  eexists addr, _, data, chunks. split; [done|]. split_and!; cbn; [done|by left|done|done|done|].
  intros c Hin. rewrite app_nil_r. apply (wrote_app _ _ [existT (P:=AppAns) (inr (ReadFile path)) (Some data)]). right. by apply Hw.
Qed.

(** The walk: every entry is a file of the walk, and no file is missing that
    has a name. *)
Lemma chunk_files_Ok (fuel : nat) (dir : Path) (files : list Path) (tr : list AppEvent) (m : gmap XorName ChunkedFile) :
  exec (prog_fold (chunk_file fuel dir) ∅ files) tr (Ok m) →
  (∀ addr cf, m !! addr = Some cf → ∃ path data chunks, path ∈ files ∧ file_chunked fuel dir tr path addr cf data chunks) ∧
  (∀ path, path ∈ files → is_Some (file_name path) →
     ∃ addr cf data chunks, is_Some (m !! addr) ∧ file_chunked fuel dir tr path addr cf data chunks).
Proof.
  apply (exec_fold_Ok (λ seen t (m : gmap XorName ChunkedFile),
    (∀ addr cf, m !! addr = Some cf → ∃ path data chunks, path ∈ seen ∧ file_chunked fuel dir t path addr cf data chunks) ∧
    (∀ path, path ∈ seen → is_Some (file_name path) →
       ∃ addr cf data chunks, is_Some (m !! addr) ∧ file_chunked fuel dir t path addr cf data chunks))).
  2: { split; [intros addr cf H; by rewrite lookup_empty in H|by intros path ?%elem_of_nil]. }
  intros seen t m0 path t' m1 [H1 H2] _ He. apply chunk_file_Ok in He.
  assert (∀ p addr cf data chunks, file_chunked fuel dir t p addr cf data chunks → file_chunked fuel dir (t ++ t') p addr cf data chunks) as Hold
    by (intros p addr cf data chunks H; exact (file_chunked_app _ _ [] _ _ _ _ _ _ _ H)).
  destruct He as [[Hn ->]|(addr & cf & data & chunks & -> & Hc)].
  - split.
    + intros a c H. destruct (H1 a c H) as (p & d & l & Hp & Hf). exists p, d, l. rewrite elem_of_app. auto.
    + intros p [Hp|Hp%list_elem_of_singleton]%elem_of_app Hs; [|subst p; rewrite Hn in Hs; by destruct Hs].
      destruct (H2 p Hp Hs) as (a & c & d & l & Hm & Hf). exists a, c, d, l. auto.
  - assert (file_chunked fuel dir (t ++ t') path addr cf data chunks) as Hnew.
    { rewrite <- (app_nil_r t'). by apply file_chunked_app. }
    split.
    + intros a c [[-> ->]|[_ H]]%lookup_insert_Some; [exists path, data, chunks; rewrite elem_of_app, list_elem_of_singleton; auto|].
      destruct (H1 a c H) as (p & d & l & Hp & Hf). exists p, d, l. rewrite elem_of_app. auto.
    + intros p [Hp|Hp%list_elem_of_singleton]%elem_of_app Hs; [|subst p].
      * destruct (H2 p Hp Hs) as (a & c & d & l & Hm & Hf). exists a, c, d, l. split; [|auto].
        apply lookup_insert_is_Some'. by right.
      * exists addr, cf, data, chunks. split; [|done]. apply lookup_insert_is_Some'. by left.
Qed.

(** What a call of [chunk_and_pay_for_storage] that returned did. *)
Lemma chunk_and_pay_Ok (HM : MerkleLaws) bld fuel ch nk (dir : Path) client root files_path verify tr files proofs :
  exec (chunk_and_pay_for_storage bld fuel ch nk dir client root files_path verify) tr (Ok (files, proofs)) →
  ∃ walk t1 t2 t3, tr = t1 ++ t2 ++ t3 ∧
    existT (WalkFiles files_path) walk ∈ right_events tr ∧
    exec (prog_fold (chunk_file fuel dir) ∅ walk) t2 (Ok files) ∧ files ≠ ∅ ∧
    ∀ x, is_Some (proofs !! x) ↔ ∃ addr cf, files !! addr = Some cf ∧ x ∈ (cf_chunks cf).*1.
Proof.
  unfold chunk_and_pay_for_storage. intros (w & t1 & t2 & -> & _ & He)%exec_bind_Ok.
  apply exec_fs_call in He as (walk & t3 & -> & He).
  apply exec_bind_Ok in He as (m & t4 & t5 & -> & Hm & He). case_decide as Hne; [by apply exec_lift_inv in He as [_ [=]]|].
  apply exec_bind_Ok in He as ([wc paid] & t6 & t7 & -> & [Hp _]%exec_on_left & He). apply exec_map_err_Ok in Hp.
  apply exec_bind_Ok in He as ([pr cost] & t8 & t9 & -> & [-> Hpaid]%exec_lift_inv & He).
  symmetry in Hpaid. apply map_err_Ok_iff in Hpaid as ->.
  apply exec_bind_Ok in He as (u & t10 & t11 & -> & _ & He).
  apply exec_bind_Ok in He as (v & t12 & t13 & -> & _ & [-> [= -> ->]]%exec_lift_inv).
  exists walk, (t1 ++ [existT (P:=AppAns) (inr (WalkFiles files_path)) walk]), t4, (t6 ++ [] ++ t10 ++ t12 ++ []).
  split; [by rewrite <- app_assoc|]. split; [rewrite right_events_app; apply elem_of_app; right; by left|].
  split_and!; [done|done|]. intros x. rewrite (pay_for_storage_proofs HM _ _ _ _ _ _ _ _ _ _ _ _ Hp x), elem_of_concat. split.
  - intros (names & Hx & (cf & -> & Hin)%list_elem_of_fmap). apply list_elem_of_fmap in Hin as ([addr cf'] & -> & Hin).
    exists addr, cf'. split; [by apply elem_of_bmap_iter|done].
  - intros (addr & cf & Hf & Hx). exists (cf_chunks cf).*1. split; [done|]. apply (list_elem_of_fmap_2 (λ cf, (cf_chunks cf).*1)).
    apply (list_elem_of_fmap_2 snd _ (addr, cf)). by apply elem_of_bmap_iter.
Qed.

(** The index of an upload. *)
Definition index_path (root : Path) (date_time : string) : Path :=
  root ++ ["uploaded_files"; String.append "file_names_" date_time]%string.

Lemma upload_files_Ok (BIL : BincodeLaws (list (XorName * string))) bld fuel ch scheds nk dir date_time files_path client root verify tr :
  exec (upload_files bld fuel ch scheds nk dir date_time files_path client root verify) tr (Ok tt) →
  ∃ files proofs content t1 t2, tr = t1 ++ t2 ∧
    exec (chunk_and_pay_for_storage bld fuel ch nk dir client root files_path true) t1 (Ok (files, proofs)) ∧
    wrote (index_path root date_time) content tr ∧
    bincode_deserialize content = Some ((λ f : XorName * ChunkedFile, (f.1, cf_name f.2)) <$> bmap_iter files).
Proof.
  unfold upload_files. intros ([files proofs] & t1 & t2 & -> & Hp & He)%exec_bind_Ok.
  apply exec_bind_Ok in He as (index & t3 & t4 & -> & Hi & He).
  apply exec_bind_Ok in He as (content & t5 & t6 & -> & [-> Hc]%exec_lift_inv & He).
  apply exec_fs_call in He as (a & t7 & -> & He). destruct a as [[]|]; [|by apply exec_done_inv in He as [_ [=]]]. cbn in He.
  apply exec_vis_inv in He as (a & t8 & -> & He). cbn in He. apply exec_done_inv in He as [-> He]. destruct a as [[]|]; [|done].
  exists files, proofs, content, t1, (t3 ++ [existT (P:=AppAns) (inr (CreateDirAll (root ++ ["uploaded_files"%string]))) (Some tt);
     existT (P:=AppAns) (inr (WriteFile ((root ++ ["uploaded_files"%string]) ++ [String.append "file_names_" date_time]) content)) (Some tt)]).
  split_and!; [done|done| |].
  - cbn [app]. rewrite !wrote_app. right. right. unfold wrote, index_path. cbn. rewrite <- app_assoc. right. by left.
  - assert (index = (λ f : XorName * ChunkedFile, (f.1, cf_name f.2)) <$> bmap_iter files) as <-.
    { revert Hi. apply (exec_fold_Ok (λ (seen : list (XorName * ChunkedFile)) _ (acc : list (XorName * string)), acc = (λ f : XorName * ChunkedFile, (f.1, cf_name f.2)) <$> seen)); [|done].
      intros seen t acc f t' acc' -> _ (u & ? & ? & -> & _ & [_ [= ->]]%exec_lift_inv)%exec_bind_Ok. by rewrite fmap_app. }
    destruct (bincode_serialize index) as [b|] eqn:Hb; [|done]. injection Hc as ->. by apply bincode_round.
Qed.

(** A download of data that the network holds. *)
Lemma download_file_stored (HL : SelfEncryptionLaws) (HB : BincodeLaws bytes) (HD : BincodeLaws DataMapLevel)
    fuel data addr chunks (store : XorName → option Chunk) fuel' sched name dir tr :
  chunk_bytes fuel data = Some (Ok (addr, chunks)) → (∀ c, c ∈ chunks → store (chunk_name c) = Some c) →
  (length data < MIN_ENCRYPTABLE_BYTES → bincode_deserialize (T:=DataMapLevel) data = None) →
  0 < fuel' → fuel ≤ fuel' →
  exec (download_file fuel' sched addr name dir) tr (Ok tt) → holds_chunks store (left_events tr) →
  ∃ a, existT (WriteFile (dir ++ [name]) data) a ∈ right_events tr.
Proof.
  intros Hc Hst Hsmall Hpos Hf He Hh. unfold download_file in He.
  apply exec_bind_Ok in He as (got & t1 & t2 & -> & [H1 _]%exec_attempt_Ok & He).
  apply exec_on_left in H1 as [H1 _]. rewrite left_events_app in Hh. apply holds_chunks_app in Hh as [Hh _].
  assert (got = Ok (Some data)) as -> by (by eapply (read_bytes_stored HL HB HD fuel data addr chunks store)).
  apply exec_fs_call in He as (a & t3 & -> & _). exists a. rewrite right_events_app. apply elem_of_app. right. by left.
Qed.

(** A download reads no files. *)
Lemma download_file_reads fuel sched addr name dir tr r p b :
  exec (download_file fuel sched addr name dir) tr r → ¬ was_read p b tr.
Proof.
  unfold download_file, was_read. intros [(got & t1 & t2 & -> & H1 & He)|[(e & _ & H1)|(w & _ & H1)]]%exec_bind_inv;
    apply exec_attempt_inv in H1 as (r0 & H1 & _); apply exec_on_left in H1 as [_ Hr]; rewrite ?right_events_app, Hr; [|by intros ?%elem_of_nil..].
  cbn [app]. destruct got as [[data|]| |]; [|by apply exec_done_inv in He as [-> _]; intros ?%elem_of_nil..].
  apply exec_fs_call in He as (a & t3 & -> & [-> _]%exec_done_inv). by intros ?%list_elem_of_singleton.
Qed.

(** Every file of a list was downloaded. *)
Lemma download_list_Ok fuel sched dir (files : list (XorName * string)) (tr : list AppEvent) :
  exec (prog_fold (λ _ (file : XorName * string), download_file fuel sched file.1 file.2 dir) tt files) tr (Ok tt) →
  (∀ p b, ¬ was_read p b tr) ∧
  ∀ f, f ∈ files → ∃ t1 t t2, tr = t1 ++ t ++ t2 ∧ exec (download_file fuel sched f.1 f.2 dir) t (Ok tt).
Proof.
  apply (exec_fold_Ok (λ seen t _, (∀ p b, ¬ was_read p b t) ∧
    ∀ f : XorName * string, f ∈ seen → ∃ t1 t0 t2, t = t1 ++ t0 ++ t2 ∧ exec (download_file fuel sched f.1 f.2 dir) t0 (Ok tt))).
  2: { split; [by intros p b ?%elem_of_nil|by intros f ?%elem_of_nil]. }
  intros seen t [] f t' [] [H1 H2] _ He. split.
  - intros p b [H|H]%was_read_app; [by eapply H1|by eapply download_file_reads].
  - intros f' [H|H%list_elem_of_singleton]%elem_of_app.
    + destruct (H2 f' H) as (t1 & t0 & t2 & -> & Hx). exists t1, t0, (t2 ++ t'). by rewrite <- !app_assoc.
    + subst f'. exists t, t', []. by rewrite app_nil_r.
Qed.

(** The contents that an event reads. *)
Definition content_read (ev : Effects.Event FsAns) : option bytes :=
  match ev with existT op a => match op return FsAns op → option bytes with ReadFile _ => λ a, a | _ => λ _, None end a end.

Lemma content_read_Some ev b : content_read ev = Some b → ∃ p, ev = existT (ReadFile p) (Some b).
Proof. destruct ev as [[] a]; cbn; try done. intros ->. by eexists. Qed.

(** Every index that was read was gone through. *)
Lemma download_files_Ok fuel sched root (tr : list AppEvent) doc content :
  exec (download_files fuel sched root) tr (Ok tt) → was_read doc content tr →
  ∃ index, bincode_deserialize (T:=list (XorName * string)) content = Some index ∧
    ∀ f, f ∈ index → ∃ t1 t t2, tr = t1 ++ t ++ t2 ∧ exec (download_file fuel sched f.1 f.2 (root ++ ["downloaded_files"%string])) t (Ok tt).
Proof.
  unfold download_files. intros (a & t1 & -> & He)%exec_fs_call. destruct a as [[]|]; [|by apply exec_done_inv in He as [_ [=]]].
  cbn in He. apply exec_fs_call in He as (docs & t2 & -> & He). intros Hr.
  assert (was_read doc content t2) as Hr2.
  { unfold was_read in *. cbn in Hr. apply elem_of_cons in Hr as [Hr|Hr]; [done|]. by apply elem_of_cons in Hr as [Hr|Hr]. }
  cut (∃ index, bincode_deserialize (T:=list (XorName * string)) content = Some index ∧
    ∀ f, f ∈ index → ∃ t1 t t3, t2 = t1 ++ t ++ t3 ∧ exec (download_file fuel sched f.1 f.2 (root ++ ["downloaded_files"%string])) t (Ok tt)).
  { intros (index & Hi & Hall). exists index. split; [done|]. intros f Hf. destruct (Hall f Hf) as (u1 & u & u2 & -> & Hx).
    by exists (existT (P:=AppAns) (inr (CreateDirAll (root ++ ["downloaded_files"%string]))) (Some tt)
               :: existT (P:=AppAns) (inr (WalkFiles (root ++ ["uploaded_files"%string]))) docs :: u1), u, u2. }
  clear Hr. revert doc content Hr2. revert He. apply (exec_fold_Ok (λ _ t _, ∀ doc content, was_read doc content t →
    ∃ index, bincode_deserialize (T:=list (XorName * string)) content = Some index ∧
    ∀ f, f ∈ index → ∃ t1 t0 t3, t = t1 ++ t0 ++ t3 ∧ exec (download_file fuel sched f.1 f.2 (root ++ ["downloaded_files"%string])) t0 (Ok tt))).
  2: by intros doc content ?%elem_of_nil.
  intros seen t [] path t' [] HJ _ (a & t3 & -> & He)%exec_fs_call doc content Hr.
  destruct a as [b|]; [|by apply exec_done_inv in He as [_ [=]]]. cbn in He.
  destruct (bincode_deserialize b) as [index|] eqn:Hd; [|by apply exec_done_inv in He as [_ [=]]]. cbn in He.
  apply download_list_Ok in He as [Hno Hall]. apply was_read_app in Hr as [Hr|Hr].
  - destruct (HJ _ _ Hr) as (index' & Hd' & Hall'). exists index'. split; [done|]. intros f Hf.
    destruct (Hall' f Hf) as (u1 & u & u2 & -> & Hx). eexists u1, u, _. by rewrite <- !app_assoc.
  - unfold was_read in Hr. cbn in Hr. apply elem_of_cons in Hr as [Hr|Hr]; [|by apply Hno in Hr].
    apply (f_equal content_read) in Hr as [= ->].
    exists index. split; [done|]. intros f Hf. destruct (Hall f Hf) as (u1 & u & u2 & -> & Hx).
    exists (t ++ existT (P:=AppAns) (inr (ReadFile path)) (Some b) :: u1), u, u2. by rewrite <- !app_assoc.
Qed.

Lemma u64_sub_cases {E} bld x y :
  in_u64 x → in_u64 y →
  ((y ≤ x)%Z → u64_sub bld x y = Ok (E:=E) (x - y)%Z) ∧
  ((x < y)%Z → bld = Release → u64_sub bld x y = Ok (E:=E) ((x - y) mod two64)%Z) ∧
  ((x < y)%Z → bld = Debug → u64_sub bld x y = Panic (E:=E) ArithmeticOverflow).
Proof.
  unfold u64_sub, u64_of, in_u64. intros Hx Hy. split_and!; intros Hle; [by rewrite decide_True by lia|..];
    intros ->; by rewrite decide_False by lia.
Qed.

(** The part of [deposit_received] after the wallet and the DBCs were loaded. *)
Lemma deposit_received_exec bld nk root w w' dbcs t1 t2 t3 r :
  exec (load_from nk root) t1 (Ok w) → exec (load_received_dbcs (wallet_dir w)) t2 (Ok dbcs) →
  deposit bld dbcs w = (w', Ok tt) →
  exec (nanos ← lift (u64_sub bld (as_nano (LocalWallet_balance w')) (as_nano (LocalWallet_balance w)));
        let deposited := from_nano nanos in
        if decide (as_nano deposited = 0%Z) then lift (Ok None)
        else stored ← attempt (LocalWallet_store w'); lift (Ok (if is_ok stored then Some deposited else None))) t3 r →
  exec (deposit_received bld nk root) (t1 ++ t2 ++ t3) r.
Proof.
  intros H1 H2 Hd H3. eapply exec_bind; [exact (exec_map_err CLI_Wallet _ _ _ H1)|].
  apply (exec_bind _ _ t2 t3 (w', Ok tt)); [|exact H3]. apply (exec_map_err _ _ _ (Ok (w', Ok tt))). unfold try_load_deposits.
  rewrite <- (app_nil_r t2). eapply exec_bind; [apply exec_attempt; [exact H2|by intros [? ?]]|]. cbn. rewrite Hd. constructor.
Qed.

(** The key of the client, on the disk. *)
Lemma client_key_wp (HH : HexLaws) (HD : DbcTextLaws) nk root fs failed :
  wp (get_client_secret_key nk root) (λ fs' _ r,
    match r with
    | Ok sk => ∃ b, fs' !! (root ++ [CLIENT_KEY]) = Some (File b) ∧ bls_secret_from_hex b = Ok sk
    | _ => True
    end) fs failed.
Proof.
  apply wp_call. intros [[]|] fs1 _; [|done]. cbn. intros isf fs2 [-> ->]. destruct (is_file _ _) eqn:Hf; cbn.
  - intros [b|] fs3 [Hb ->]; [|done]. cbn. destruct (bls_secret_from_hex b) as [sk| |] eqn:Hs; cbn; [|done|done].
    exists b. split; [by apply Hb|done].
  - intros [[]|] fs3; [|done]. cbn. intros [_ ->]. eexists. split; [apply lookup_insert_eq|].
    unfold bls_secret_from_hex, hex_text. destruct (sk_bytes nk) as [Hl Hsk].
    rewrite String.string_of_list_byte_of_string, hex_decode_encode. cbn. by rewrite decide_True, Hsk.
Qed.

Lemma client_key_present nk root fs failed b sk :
  fs !! (root ++ [CLIENT_KEY]) = Some (File b) → bls_secret_from_hex b = Ok sk →
  wp (get_client_secret_key nk root) (λ _ failed' r, r = Ok sk ∨ (r = Err CLI_Io ∧ failed' = true)) fs failed.
Proof.
  intros Hb Hs. apply wp_call. intros a fs1 Hstep.
  apply (create_step_files _ _ _ _ Hstep) in Hb. destruct a as [[]|]; [|right; cbn; by rewrite orb_true_r].
  cbn. intros isf fs2 [-> ->]. unfold is_file. rewrite Hb. cbn.
  intros [c|] fs3 [Hc ->]; cbn; [|right; by rewrite orb_true_r]. left.
  specialize (Hc c eq_refl). rewrite Hb in Hc. injection Hc as <-. by rewrite Hs.
Qed.

End CliLemmas.

(** ** Properties *)

Section Properties.
Context `{BLS : BlsCrate, XN : XorNameCrate, HX : HexCrate, KD : KadCrate, CR : CrdtsCrate, SE : SelfEncryptionCrate}.
Context `{TK : TokenCrate, DI : DbcIdCrate, SD : !SnDbcCrate, DC : !DbcCrate, RP : !RegisterParams, DT : !DbcTextCrate}.
Context `{MK : MerkleCrate}.
Context `{RH : RmpHeader, RC : Rmp (bytes * PaymentProof), RS : Rmp (list SignedSpend), RR : Rmp SignedRegister}.
Context `{SO : SelfEncryptionOps, BB : Bincode bytes, BD : Bincode DataMapLevel, BW : Bincode KeyLessWallet}.
Context `{BI : Bincode (list (XorName * string))}.

(** when paying for a directory returns, every file found with a name was
    read, chunked, and its chunks kept in files, and is in the map under its
    address; the map has nothing else, and the proofs are for exactly the names
    of the chunks of the files in the map, so that no upload of them lacks a
    proof. *)
Theorem paid_directory_chunked (HM : MerkleLaws) (bld : Build) (fuel : nat) (ch : PayChoices) (new_key : MainKey)
    (chunks_dir : Path) (client : Client) (root files_path : Path) (verify : bool) tr files proofs :
  exec (chunk_and_pay_for_storage bld fuel ch new_key chunks_dir client root files_path verify) tr (Ok (files, proofs)) →
  ∃ walk, existT (WalkFiles files_path) walk ∈ right_events tr ∧ files ≠ ∅ ∧
    (∀ path, path ∈ walk → is_Some (file_name path) →
       ∃ addr cf data chunks, is_Some (files !! addr) ∧ file_chunked fuel chunks_dir tr path addr cf data chunks) ∧
    (∀ addr cf, files !! addr = Some cf →
       ∃ path data chunks, path ∈ walk ∧ file_chunked fuel chunks_dir tr path addr cf data chunks) ∧
    ∀ x, is_Some (proofs !! x) ↔ ∃ addr cf, files !! addr = Some cf ∧ x ∈ (cf_chunks cf).*1.
Proof.
  intros (walk & t1 & t2 & t3 & -> & Hw & [Hm1 Hm2]%chunk_files_Ok & Hne & Hpr)%chunk_and_pay_Ok; [|done].
  exists walk. split_and!; [done|done| | |done].
  - intros path Hp Hn. destruct (Hm2 path Hp Hn) as (addr & cf & data & chunks & Hs & Hc).
    exists addr, cf, data, chunks. split; [done|]. by apply file_chunked_app.
  - intros addr cf Hf. destruct (Hm1 addr cf Hf) as (path & data & chunks & Hp & Hc).
    exists path, data, chunks. split; [done|]. by apply file_chunked_app.
Qed.

(** C4: what was uploaded downloads again.  An upload that returned wrote an
    index with every file of the walk that has a name, whether or not storing its
    chunks succeeded: the file is in the index under the address of its content,
    with the name of a file of the walk that has this address (its own, where no
    other file has the same address).  And a download that returned and read
    this index, from a network that holds the chunks of the file, wrote its
    content under that name, in any interleaving: the write is made, and where
    the file system refused no write of the download it succeeded. *)
Theorem uploaded_files_downloaded (HM : MerkleLaws) (HL : SelfEncryptionLaws) (HB : BincodeLaws bytes)
    (HD : BincodeLaws DataMapLevel) (HI : BincodeLaws (list (XorName * string)))
    (bld : Build) (fuel : nat) (ch : PayChoices) scheds (new_key : MainKey) (chunks_dir : Path) (date_time : string)
    (files_path : Path) (client : Client) (root : Path) (verify : bool) tr :
  exec (upload_files bld fuel ch scheds new_key chunks_dir date_time files_path client root verify) tr (Ok tt) →
  ∃ walk content, existT (WalkFiles files_path) walk ∈ right_events tr ∧ wrote (index_path root date_time) content tr ∧
    ∀ path, path ∈ walk → is_Some (file_name path) →
    ∃ addr data chunks name, was_read path data tr ∧ chunk_bytes fuel data = Some (Ok (addr, chunks)) ∧
      (∃ path' data' chunks', path' ∈ walk ∧ file_name path' = Some name ∧ was_read path' data' tr ∧
         chunk_bytes fuel data' = Some (Ok (addr, chunks'))) ∧
      ∀ fuel' sched (store : XorName → option Chunk) tr' doc,
        0 < fuel' → fuel ≤ fuel' →
        exec (download_files fuel' sched root) tr' (Ok tt) → was_read doc content tr' →
        holds_chunks store (left_events tr') → (∀ c, c ∈ chunks → store (chunk_name c) = Some c) →
        (length data < MIN_ENCRYPTABLE_BYTES → bincode_deserialize (T:=DataMapLevel) data = None) →
        (∃ a, existT (WriteFile (root ++ ["downloaded_files"; name]%string) data) a ∈ right_events tr') ∧
        ((∀ p b, existT (P:=FsAns) (WriteFile p b) None ∉ right_events tr') →
           wrote (root ++ ["downloaded_files"; name]%string) data tr').
Proof.
  intros (files & proofs & content & t1 & t2 & -> & Hp & Hw & Hd)%upload_files_Ok; [|done].
  apply chunk_and_pay_Ok in Hp as (walk & u1 & u2 & u3 & -> & Hwalk & [Hm' Hm]%chunk_files_Ok & _ & _); [|done].
  exists walk, content. split; [rewrite right_events_app; apply elem_of_app; by left|]. split; [done|].
  intros path Hin Hn. destruct (Hm path Hin Hn) as (addr & cf & data & chunks & [cf' Hf] & (_ & Hr & Hc & _)).
  exists addr, data, chunks, (cf_name cf'). split_and!; [rewrite !was_read_app; auto|done| |].
  { destruct (Hm' addr cf' Hf) as (path' & data' & chunks' & Hp' & Hn' & Hr' & Hc' & _).
    exists path', data', chunks'. rewrite !was_read_app. split_and!; auto. }
  intros fuel' sched store tr' doc Hpos Hle He Hrd Hh Hst Hsmall.
  destruct (download_files_Ok _ _ _ _ _ _ He Hrd) as (index & Hd' & Hall). rewrite Hd in Hd'. injection Hd' as <-.
  destruct (Hall (addr, cf_name cf')) as (v1 & v & v2 & -> & Hx).
  { apply (list_elem_of_fmap_2 (λ f : XorName * ChunkedFile, (f.1, cf_name f.2)) _ (addr, cf')). by apply elem_of_bmap_iter. }
  rewrite !left_events_app in Hh. apply holds_chunks_app in Hh as [_ [Hh _]%holds_chunks_app].
  destruct (download_file_stored HL HB HD fuel data addr chunks store fuel' sched _ _ _ Hc Hst Hsmall Hpos Hle Hx Hh) as (a & Ha).
  assert (existT (WriteFile (root ++ ["downloaded_files"; cf_name cf']%string) data) a ∈ right_events (v1 ++ v ++ v2)) as Hw'.
  { rewrite !right_events_app, !elem_of_app. right. left. by rewrite <- app_assoc in Ha. }
  split; [by exists a|]. intros Hok. destruct a as [[]|]; [exact Hw'|]. by apply Hok in Hw'.
Qed.

(** depositing what was received reports the growth of the balance and
    stores the wallet; if the balance is as before, nothing is stored, although
    the wallet may have changed; and if the wallet had kept a stale balance
    above the value of its DBCs, the subtraction underflows: debug builds panic,
    release builds report the wrapped difference. *)
Theorem deposit_received_outcomes (HT : TokenLaws) (bld : Build) (new_key : MainKey) (root : Path) (w w' : LocalWallet)
    (dbcs : list Dbc) t1 t2 :
  exec (load_from new_key root) t1 (Ok w) → exec (load_received_dbcs (wallet_dir w)) t2 (Ok dbcs) →
  deposit bld dbcs w = (w', Ok tt) →
  let before := as_nano (LocalWallet_balance w) in
  let after := as_nano (LocalWallet_balance w') in
  (after = before → exec (deposit_received bld new_key root) (t1 ++ t2) (Ok None)) ∧
  ((before < after)%Z ∨ ((after < before)%Z ∧ bld = Release) → ∀ t3 r, exec (LocalWallet_store w') t3 r → ¬ panics r →
     exec (deposit_received bld new_key root) (t1 ++ t2 ++ t3)
       (Ok (if is_ok r then Some (from_nano ((after - before) mod two64)) else None))) ∧
  ((after < before)%Z → bld = Debug → exec (deposit_received bld new_key root) (t1 ++ t2) (Panic ArithmeticOverflow)).
Proof.
  intros H1 H2 Hd before after. pose proof (as_nano_range (LocalWallet_balance w)) as Hb.
  pose proof (as_nano_range (LocalWallet_balance w')) as Ha. fold before in Hb. fold after in Ha.
  destruct (u64_sub_cases (E:=CliError) bld after before Ha Hb) as (Hle & Hrel & Hdeb). split_and!.
  - intros Heq. rewrite <- (app_nil_r t2). eapply deposit_received_exec; [done..|]. fold before after. rewrite Hle by lia.
    rewrite Heq, Z.sub_diag. cbn. rewrite decide_True by by apply as_from_nano. constructor.
  - intros Hcase t3 r H3 Hn. eapply deposit_received_exec; [done..|]. fold before after.
    assert (u64_sub bld after before = Ok (E:=CliError) ((after - before) mod two64)%Z) as ->.
    { destruct Hcase as [Hlt|[Hlt ->]]; [rewrite Hle by lia|by apply Hrel]. f_equal. rewrite Z.mod_small; [done|]. unfold in_u64 in *. lia. }
    assert (in_u64 ((after - before) mod two64)) as Hr by (unfold in_u64, two64; apply Z.mod_pos_bound; lia).
    assert ((after - before) mod two64 ≠ 0)%Z as Hne.
    { unfold in_u64, two64 in *. rewrite Z.mod_divide by done. intros [k Hk]. destruct Hcase as [?|[? _]]; lia. }
    cbn. rewrite as_from_nano, decide_False by done.
    rewrite <- (app_nil_r t3). eapply exec_bind; [by apply exec_attempt|constructor].
  - intros Hlt ->. rewrite <- (app_nil_r t2). eapply deposit_received_exec; [done..|]. fold before after. rewrite Hdeb by done. constructor.
Qed.

(** The client's key is kept: when it was read or created once, asking for it
    again gives the same key, unless an operation on the files fails. *)
Theorem client_key_reloads (HH : HexLaws) (HD : DbcTextLaws) (new_key new_key' : SecretKey) (root : Path)
    (fs0 fs1 fs2 : Fs) t1 t2 sk r :
  exec (get_client_secret_key new_key root) t1 (Ok sk) → fs_run fs0 t1 fs1 →
  exec (get_client_secret_key new_key' root) t2 r → fs_run fs1 t2 fs2 →
  r = Ok sk ∨ (r = Err CLI_Io ∧ existsb io_failed t2 = true).
Proof.
  intros H1 R1 H2 R2.
  apply (wp_exec _ _ _ _ _ _ _ (client_key_wp _ _ new_key root fs0 false) H1) in R1 as (b & Hb & Hs).
  apply (wp_exec _ _ _ _ _ _ _ (client_key_present new_key' root fs1 false b sk Hb Hs) H2) in R2. exact R2.
Qed.

End Properties.

(** ** The properties at concrete values *)

#[global] Instance toy_bincode_index : Bincode (list (XorName * string)) := {|
  bincode_serialize := λ l, Some (toy_enc (encode l));
  bincode_deserialize := λ b, p ← toy_dec b; decode p;
|}.

#[global] Instance toy_bincode_index_laws : BincodeLaws (list (XorName * string)).
Proof.
  constructor. intros l b [= <-]. cbn. rewrite <- (app_nil_r (toy_enc _)), toy_dec_enc. cbn. apply decode_encode.
Qed.

(** Every peer asks for one nano; the network stores what it is given. *)
Definition toy_cli (s : gmap RecordKey KRecord * Fs) (op : NetOp + FsOp) : (gmap RecordKey KRecord * Fs) * AppAns op :=
  match op return (gmap RecordKey KRecord * Fs) * AppAns op with
  | inl (GetClosestPeers k) => (s, (toy_quotes 0 (GetClosestPeers k)).2)
  | inl (SendRequest r p) => (s, (toy_quotes 0 (SendRequest r p)).2)
  | op => toy_app s op
  end.

Fixpoint toy_cli_end {E A : Type} (s : gmap RecordKey KRecord * Fs) (p : AppProg E A) : gmap RecordKey KRecord * Fs :=
  match p with
  | Done _ => s
  | Vis op k => let '(s', a) := toy_cli s op in toy_cli_end s' (k a)
  end.

Definition toy_file : Path := ["in"; "sub"; "a.txt"]%string.
Definition toy_temp : Path := ["tmp"%string].
Definition toy_pay_choices : PayChoices := {| pc_order := id; pc_target := []; pc_send := []; pc_rnd := [Byte.x31] |}.
(** A wallet of 15 nanos and a directory with one file of ten bytes. *)
Definition toy_cli_start : gmap RecordKey KRecord * Fs := (∅, <[toy_file := File toy_data]> toy_fs2).

Definition toy_upload : AppProg CliError unit :=
  upload_files Debug 3 toy_pay_choices (λ _ _, [2; 1; 3]) toy_other_mk toy_temp "now" ["in"%string] toy_client toy_root true.
Definition toy_up : list (Effects.Event AppAns) * Res CliError unit := run toy_cli toy_cli_start toy_upload.

Definition toy_pay : AppProg CliError (gmap XorName ChunkedFile * gmap XorName PaymentProof) :=
  chunk_and_pay_for_storage Debug 3 toy_pay_choices toy_other_mk toy_temp toy_client toy_root ["in"%string] true.
Definition toy_paid : list (Effects.Event AppAns) * Res CliError (gmap XorName ChunkedFile * gmap XorName PaymentProof) :=
  run toy_cli toy_cli_start toy_pay.

(** The file of ten bytes has five chunks, each with a proof. *)
Lemma paid_directory_chunked_witness :
  ∃ files proofs addr cf, toy_paid.2 = Ok (files, proofs) ∧ files !! addr = Some cf ∧ length (cf_chunks cf) = 5 ∧
    ∀ x, x ∈ (cf_chunks cf).*1 → is_Some (proofs !! x).
Proof.
  assert (match toy_paid.2 with
          | Ok (files, _) => bool_decide ((λ cf, length (cf_chunks cf)) <$> files !! toy_chunks.1 = Some 5) | _ => false end = true) as Hok by by_compute.
  destruct toy_paid.2 as [[files proofs]| |] eqn:Hr; try discriminate Hok. apply bool_decide_eq_true in Hok.
  apply fmap_Some in Hok as (cf & Hcf & Hlen).
  destruct (paid_directory_chunked _ Debug 3 toy_pay_choices toy_other_mk toy_temp toy_client toy_root ["in"%string] true
    toy_paid.1 files proofs) as (walk & _ & _ & _ & _ & H).
  - rewrite <- Hr. exact (run_exec _ _ toy_pay).
  - exists files, proofs, toy_chunks.1, cf. split_and!; [reflexivity|exact Hcf|by symmetry|].
    intros x Hx. apply H. exists toy_chunks.1, cf. split; [exact Hcf|exact Hx].
Defined.

(** The walk and the contents of events of a trace that is computed. *)
Definition toy_walks (ev : Effects.Event FsAns) : bool :=
  match ev with existT op a =>
    match op return FsAns op → bool with WalkFiles _ => λ a, bool_decide (a = [toy_file]) | _ => λ _, true end a end.
Definition toy_reads (p : Path) (b : bytes) (ev : Effects.Event FsAns) : bool :=
  match ev with existT op a =>
    match op return FsAns op → bool with
    | ReadFile q => λ a, if decide (p = q) then bool_decide (a = Some b) else true
    | _ => λ _, true
    end a end.
Definition toy_writes (p : Path) (b : bytes) (ev : Effects.Event FsAns) : bool :=
  match ev with existT op a =>
    match op with WriteFile q c => if decide (p = q) then bool_decide (c = b) else true | _ => true end end.

Definition toy_write_ok (ev : Effects.Event FsAns) : bool :=
  match ev with existT op a =>
    match op return FsAns op → bool with WriteFile _ _ => λ a, if a then true else false | _ => λ _, true end a end.

(** Whether an answer about a chunk is the chunk. *)
Definition toy_gives_chunk (ev : Effects.Event NetAns) : bool :=
  match ev with existT op a =>
    match op return NetAns op → bool with
    | GetNetworkRecord k => λ a,
        match toy_store k, a with
        | Some c, Answer (inr rec) =>
            match RecordHeader_from_record rec, try_deserialize_record rec with
            | Ok {| rh_kind := RK_Chunk |}, Ok cwp => bool_decide (cwp_chunk cwp = c)
            | _, _ => false
            end
        | Some _, _ => false
        | None, _ => true
        end
    | _ => λ _, true
    end a end.

Lemma toy_gives_chunks tr : forallb toy_gives_chunk tr = true → holds_chunks toy_store tr.
Proof.
  rewrite forallb_forall. intros H k a c Hin%list_elem_of_In Hc. specialize (H _ Hin). cbn in H. rewrite Hc in H.
  destruct a as [| |[e|rec]]; try discriminate H. destruct (RecordHeader_from_record rec) as [[[]]| |] eqn:Hh; try discriminate H.
  destruct (try_deserialize_record rec) as [[c' payment]| |] eqn:Hd; try discriminate H. apply bool_decide_eq_true in H. cbn in H. subst c'.
  exists rec, payment. by split_and!.
Qed.

Definition toy_uploaded : gmap RecordKey KRecord * Fs := toy_cli_end toy_cli_start toy_upload.
Definition toy_index : Path := index_path toy_root "now".
Definition toy_index_content : bytes := match toy_uploaded.2 !! toy_index with Some (File b) => b | _ => [] end.
Definition toy_download : AppProg CliError unit := download_files 3 (λ _ _, [1; 0; 1]) toy_root.
Definition toy_down : list (Effects.Event AppAns) * Res CliError unit := run toy_cli toy_uploaded toy_download.

(** From the same network and file system. *)
Lemma uploaded_files_downloaded_witness :
  wrote (toy_root ++ ["downloaded_files"; "a.txt"]%string) toy_data toy_down.1.
Proof.
  assert (toy_up.2 = Ok tt) as H1 by (apply ok_with_true; by_compute).
  assert (toy_down.2 = Ok tt) as H2 by (apply ok_with_true; by_compute).
  destruct (uploaded_files_downloaded _ _ _ _ _ Debug 3 toy_pay_choices (λ _ _, [2; 1; 3]) toy_other_mk toy_temp "now" ["in"%string]
    toy_client toy_root true toy_up.1) as (walk & content & Hw & Hc & Hall).
  { rewrite <- H1. exact (run_exec _ _ toy_upload). }
  assert (walk = [toy_file]) as ->.
  { assert (forallb toy_walks (right_events toy_up.1) = true) as Hf by by_compute.
    rewrite forallb_forall in Hf. apply list_elem_of_In, Hf, bool_decide_eq_true in Hw. exact Hw. }
  assert (content = toy_index_content) as ->.
  { assert (forallb (toy_writes toy_index toy_index_content) (right_events toy_up.1) = true) as Hf by by_compute.
    rewrite forallb_forall in Hf. apply list_elem_of_In, Hf in Hc. cbn [toy_writes] in Hc. rewrite decide_True in Hc by reflexivity.
    by apply bool_decide_eq_true in Hc. }
  destruct (Hall toy_file) as (addr & data & chunks & name & Hr & Hch & (path' & _ & _ & Hp' & Hname & _) & Hdown); [by left|by eexists|].
  apply list_elem_of_singleton in Hp' as ->. injection Hname as <-.
  assert (data = toy_data) as ->.
  { assert (forallb (toy_reads toy_file toy_data) (right_events toy_up.1) = true) as Hf by by_compute.
    rewrite forallb_forall in Hf. apply list_elem_of_In, Hf in Hr. cbn [toy_reads] in Hr. rewrite decide_True in Hr by reflexivity.
    apply bool_decide_eq_true in Hr. by injection Hr. }
  assert (chunks = toy_chunks.2) as -> by (unfold toy_chunks; by rewrite Hch).
  assert (existsb (λ ev, bool_decide (content_read ev = Some toy_index_content)) (right_events toy_down.1) = true) as Hrd by by_compute.
  apply existsb_exists in Hrd as (ev & Hin%list_elem_of_In & Hev). apply bool_decide_eq_true, content_read_Some in Hev as [doc ->].
  refine (proj2 (Hdown 3 (λ _ _, [1; 0; 1]) toy_store toy_down.1 doc _ _ _ _ _ _ _) _).
  - lia.
  - lia.
  - rewrite <- H2. exact (run_exec _ _ toy_download).
  - exact Hin.
  - apply toy_gives_chunks. by_compute.
  - intros c Hc'. assert (Forall (λ c, toy_store (chunk_name c) = Some c) toy_chunks.2) as Hst by by_compute.
    rewrite Forall_forall in Hst. by apply Hst.
  - cbn. lia.
  - intros p b Hp. assert (forallb toy_write_ok (right_events toy_down.1) = true) as Hf by by_compute.
    rewrite forallb_forall in Hf. by apply list_elem_of_In, Hf in Hp.
Defined.

(** A wallet that keeps the balance of 15 nanos after spending both its DBCs. *)
Definition toy_spent_wallet : LocalWallet :=
  (local_send Debug [(toy_tok 15, toy_payee)] zero_hash [[Byte.x44]] [Byte.x55] toy_changed).1.
Definition toy_small_dbc : Dbc := toy_dbc Byte.x1c 7.
Definition toy_spent_fs : Fs :=
  <[toy_dir ++ ["received_dbcs"; "one"]%string := File (String.list_byte_of_string (default ""%string (dbc_to_hex toy_small_dbc)))]>
    (toy_fs_end toy_fs2 (LocalWallet_store (BW:=toy_bincode_wallet) toy_spent_wallet)).
Definition toy_load_spent : list (Effects.Event FsAns) * Res WalletError LocalWallet :=
  run toy_fs toy_spent_fs (load_from toy_other_mk toy_root).
Definition toy_received : list (Effects.Event FsAns) * Res WalletError (list Dbc) :=
  run toy_fs toy_spent_fs (load_received_dbcs toy_dir).

(** It then receives 7 nanos. *)
Lemma deposit_received_outcomes_witness :
  ∃ w, toy_load_spent.2 = Ok w ∧ as_nano (LocalWallet_balance w) = 15%Z ∧
    exec (deposit_received Debug toy_other_mk toy_root) (toy_load_spent.1 ++ toy_received.1) (Panic ArithmeticOverflow).
Proof.
  assert (toy_received.2 = Ok [toy_small_dbc]) as H2 by (apply ok_with_true; by_compute).
  assert (match toy_load_spent.2 with
          | Ok w => bool_decide (as_nano (LocalWallet_balance w) = 15%Z ∧ wallet_dir w = toy_dir) &&
              match deposit Debug [toy_small_dbc] w with (w', Ok _) => bool_decide (as_nano (LocalWallet_balance w') = 7%Z) | _ => false end
          | _ => false end = true) as Hok by by_compute.
  destruct toy_load_spent.2 as [w| |] eqn:H1; try discriminate Hok. apply andb_true_iff in Hok as [Hw Hok].
  apply bool_decide_eq_true in Hw as [Hb Hdir].
  destruct (deposit Debug [toy_small_dbc] w) as [w' [[]| |]] eqn:Hd; try discriminate Hok. apply bool_decide_eq_true in Hok.
  exists w. split_and!; [reflexivity|exact Hb|].
  apply (deposit_received_outcomes _ Debug toy_other_mk toy_root w w' [toy_small_dbc] toy_load_spent.1 toy_received.1).
  - rewrite <- H1. apply run_exec.
  - rewrite Hdir, <- H2. apply run_exec.
  - exact Hd.
  - rewrite Hb, Hok. lia.
  - reflexivity.
Defined.

Definition toy_sk : SecretKey := Byte.x09.
Definition toy_other_sk : SecretKey := Byte.x0b.
Definition toy_key_run : list (Effects.Event FsAns) * Res CliError SecretKey := run toy_fs ∅ (get_client_secret_key toy_sk toy_root).
Definition toy_key_fs : Fs := toy_fs_end ∅ (get_client_secret_key toy_sk toy_root).
Definition toy_key_again : list (Effects.Event FsAns) * Res CliError SecretKey := run toy_fs toy_key_fs (get_client_secret_key toy_other_sk toy_root).

Lemma client_key_reloads_witness : toy_key_again.2 = Ok toy_sk.
Proof.
  assert (toy_key_run.2 = Ok toy_sk) as H1 by (apply ok_with_true; by_compute).
  assert (existsb io_failed toy_key_again.1 = false) as H2 by by_compute.
  destruct (client_key_reloads _ _ toy_sk toy_other_sk toy_root ∅ toy_key_fs (toy_fs_end toy_key_fs (get_client_secret_key toy_other_sk toy_root))
    toy_key_run.1 toy_key_again.1 toy_sk toy_key_again.2) as [H|[_ H]].
  - rewrite <- H1. apply run_exec.
  - apply toy_fs_run.
  - apply run_exec.
  - apply toy_fs_run.
  - exact H.
  - rewrite H2 in H. discriminate H.
Defined.
