(* ===== verification/Startup.v ===== *)
(** * What the binaries share: paths, logging arguments and peers

    - [PathBuf]: the paths of the standard library, as text;
    - [get_logging_targets], [get_log_level_from_str], [parse_log_format],
      [logging_targets]: src/sn_logging/src/lib.rs;
    - [parse_peer_addr]: src/sn_peers_acquisition/src/lib.rs, and
      [with_safe_peers], its use in src/sn_node/src/bin/safenode/main.rs and
      src/sn_node/src/bin/faucet/main.rs.

    - [NodeInfoResponse], [NetworkInfoResponse]: the messages of the RPC service.

    Multiaddresses are parsed by libp2p, which is a parameter.  The main
    theorems: which levels a logging string gives to which crates, and which
    initial peer an address or the environment gives. *)

From S2P Require Import Prelude Deps ToyCrates Network.
From stdpp Require Import base tactics list gmap strings pretty sorting.
From Stdlib Require Import ZArith NArith Strings.Byte Lia.

Open Scope string_scope.
Open Scope list_scope.
Open Scope nat_scope.

(** ** Paths *)

Record PathBuf := { absolute : bool; parts : list string }.

#[global] Instance PathBuf_eq_dec : EqDecision PathBuf.
Proof. solve_decision. Defined.

#[global] Program Instance PathBuf_countable : Countable PathBuf :=
  inj_countable' (λ p, (absolute p, parts p)) (λ x, {| absolute := x.1; parts := x.2 |}) _.
Next Obligation. by intros []. Qed.

Definition path_of (name : string) : PathBuf := {| absolute := false; parts := [name] |}.

(** [PathBuf::push]: an absolute path replaces. *)
Definition path_push (p q : PathBuf) : PathBuf :=
  if absolute q then q else {| absolute := absolute p; parts := parts p ++ parts q |}.
Definition path_join (p : PathBuf) (name : string) : PathBuf := path_push p (path_of name).
Definition path_pop (p : PathBuf) : PathBuf :=
  {| absolute := absolute p; parts := take (length (parts p) - 1) (parts p) |}.
(** The components of a text: empty ones are dropped, and [.] but in front. *)
Definition path_from (s : string) : PathBuf :=
  let names := List.filter (λ w, negb (bool_decide (w = "" ∨ w = "."))) in
  {| absolute := String.prefix "/" s;
     parts := match split_on (Ascii.ascii_of_N 47) s with "." :: ws => "." :: names ws | ws => names ws end |}.
Definition path_to_str (p : PathBuf) : string :=
  (if absolute p then "/" else "") +:+ String.concat "/" (parts p).

(** The [Ord] of paths: lexicographic by components, a root before any name. *)
Section Lex.
Context {A : Type} `{EqDecision A, Ord A}.

Fixpoint lex_leb (x y : list A) : bool :=
  match x, y with
  | [], _ => true
  | _ :: _, [] => false
  | a :: x, b :: y => if decide (a = b) then lex_leb x y else bool_decide (ord_le a b)
  end.

Lemma lex_leb_cons a x b y :
  lex_leb (a :: x) (b :: y) = true ↔ (a ≠ b ∧ ord_le a b) ∨ (a = b ∧ lex_leb x y = true).
Proof. cbn. case_decide as Hab; [subst|rewrite bool_decide_eq_true]; naive_solver. Qed.

#[global] Instance lex_ord : Ord (list A).
Proof.
  refine {| ord_le := λ x y, lex_leb x y = true |}.
  - intros x y. apply _.
  - split; [split|].
    + intros x. induction x as [|a x IH]; [done|]. apply lex_leb_cons. by right.
    + intros x. induction x as [|a x IH]; intros [|b y] [|c z]; try done.
      rewrite !lex_leb_cons. intros [[N1 H1]|[-> H1]] [[N2 H2]|[-> H2]]; [left|by left|by left|right; eauto].
      split; [|by etrans]. intros ->. apply N1. by apply (anti_symm ord_le).
    + intros x. induction x as [|a x IH]; intros [|b y]; try done.
      rewrite !lex_leb_cons. intros [[N1 H1]|[-> H1]] [[N2 H2]|[E2 H2]]; try congruence; [|f_equal; by apply IH].
      destruct N1. by apply (anti_symm ord_le).
  - intros x. induction x as [|a x IH]; intros [|b y]; try (by left); [by right|].
    rewrite !lex_leb_cons. destruct (decide (a = b)) as [->|Hne]; [destruct (IH y); naive_solver|].
    destruct (total ord_le a b); [left|right]; left; naive_solver.
Defined.
End Lex.

Definition path_key (p : PathBuf) : list (list byte) :=
  (if absolute p then [[]] else []) ++ ((λ s, Byte.x01 :: String.list_byte_of_string s) <$> parts p).

Lemma list_byte_of_string_inj s1 s2 : String.list_byte_of_string s1 = String.list_byte_of_string s2 → s1 = s2.
Proof.
  intros H. by rewrite <- (String.string_of_list_byte_of_string s1), H, String.string_of_list_byte_of_string.
Qed.

#[global] Instance path_key_inj : Inj (=) (=) path_key.
Proof.
  intros [a1 p1] [a2 p2] H. unfold path_key in H. cbn in H.
  assert (∀ q1 q2 : list string, (λ s, Byte.x01 :: String.list_byte_of_string s) <$> q1
            = (λ s, Byte.x01 :: String.list_byte_of_string s) <$> q2 → q1 = q2) as Hinj.
  { intros q1 q2. apply list_fmap_eq_inj. intros s1 s2 [= E]. by apply list_byte_of_string_inj. }
  destruct a1, a2; cbn in H.
  - injection H as H. f_equal. by apply Hinj.
  - by destruct p2.
  - by destruct p1.
  - f_equal. by apply Hinj.
Qed.

#[global] Instance PathBuf_ord : Ord PathBuf.
Proof.
  refine {| ord_le := λ p q, ord_le (path_key p) (path_key q) |}.
  - intros p q. apply _.
  - split; [split|].
    + by intros p.
    + intros p q r H1 H2. by etrans.
    + intros p q H1 H2. apply (inj path_key). by apply (anti_symm ord_le).
  - intros p q. apply (total ord_le).
Defined.

(** ** sn_logging *)

Inductive LogOutputDest := LOD_Stdout | LOD_Path (p : PathBuf).
Inductive LogFormat := LF_Default | LF_Json.
Inductive Level := TRACE | DEBUG | INFO | WARN | ERROR.
Inductive LoggingError := UnknownLogFormat | NoCrateName | UnsupportedLevel (log_level : string).

#[global] Instance Level_eq_dec : EqDecision Level.
Proof. solve_decision. Defined.
#[global] Instance LoggingError_eq_dec : EqDecision LoggingError.
Proof. solve_decision. Defined.

Definition parse_log_format (val : string) : Res LoggingError LogFormat :=
  if decide (val = "default") then Ok LF_Default
  else if decide (val = "json") then Ok LF_Json
  else Err UnknownLogFormat.

Definition ALL_SN_LOGS : string := "all".

(** [to_lowercase] on ASCII letters: no other letter becomes one of a level. *)
Definition lower (a : Ascii.ascii) : Ascii.ascii :=
  let n := Ascii.N_of_ascii a in
  if ((65 <=? n) && (n <=? 90))%N then Ascii.ascii_of_N (n + 32) else a.
Definition to_lowercase (s : string) : string :=
  String.string_of_list_ascii (lower <$> String.list_ascii_of_string s).

Definition get_log_level_from_str (log_level : string) : Res LoggingError Level :=
  let l := to_lowercase log_level in
  if decide (l = "info") then Ok INFO
  else if decide (l = "debug") then Ok DEBUG
  else if decide (l = "trace") then Ok TRACE
  else if decide (l = "warn") then Ok WARN
  else if decide (l = "error") then Ok WARN
  else Err (UnsupportedLevel log_level).

Definition all_targets : list (string * Level) :=
  (λ c, (c, TRACE)) <$> ["safenode"; "safe"; "sn_build_info"; "sn_cli"; "sn_client"; "sn_logging"; "sn_networking"; "sn_node";
    "sn_peers_acquisition"; "sn_protocol"; "sn_registers"; "sn_testnet"; "sn_transfers"].

Definition COMMA : Ascii.ascii := Ascii.ascii_of_N 44.
Definition EQUALS : Ascii.ascii := Ascii.ascii_of_N 61.

(** One entry: a crate, and the level after an equals sign. *)
Definition parse_target (c : string) : Res LoggingError (string * Level) :=
  let split := split_on EQUALS c in
  crate_name ← ok_or (head split) NoCrateName;
  let log_level := default "trace" (split !! 1) in
  level ← get_log_level_from_str log_level;
  Ok (crate_name, level).

(** The loop over the entries, with its early return. *)
Fixpoint targets_loop (targets : list (string * Level)) (crates : list string) : Res LoggingError (list (string * Level)) :=
  match crates with
  | [] => Ok targets
  | c :: crates =>
      if decide (c = ALL_SN_LOGS) then Ok all_targets
      else t ← parse_target c; targets_loop (targets ++ [t]) crates
  end.

Definition get_logging_targets (logging_env_value : string) : Res LoggingError (list (string * Level)) :=
  targets_loop [] (split_on COMMA logging_env_value).

(** The targets of a layer: those of the variable [SN_LOG], if it is set. *)
Definition logging_targets (sn_log : option string) (default_logging_targets : list (string * Level))
    : Res LoggingError (list (string * Level)) :=
  match sn_log with Some v => get_logging_targets v | None => Ok default_logging_targets end.

(** ** sn_peers_acquisition *)

Section Peers.
Context `{KD : KadCrate}.
Context (multiaddr_from_str : string → option Multiaddr).

Definition DOT : Ascii.ascii := Ascii.ascii_of_N 46.
Definition COLON : Ascii.ascii := Ascii.ascii_of_N 58.

(** The parser of [std::net::SocketAddrV4]: octets have up to three digits and
    no leading zero. *)
Definition parse_octet (s : string) : option Z :=
  if decide (String.length s ≤ 3 ∧ (s = "0" ∨ String.prefix "0" s = false)) then parse_uint 256 s else None.

Definition parse_socket_v4 (s : string) : option (Z * Z * Z * Z * Z) :=
  match split_on COLON s with
  | [ip; port] =>
      match split_on DOT ip with
      | [a; b; c; d] =>
          a ← parse_octet a; b ← parse_octet b; c ← parse_octet c; d ← parse_octet d;
          port ← parse_uint (2 ^ 16) port;
          Some (a, b, c, d, port)
      | _ => None
      end
  | _ => None
  end.

Definition parse_peer_addr (addr : string) : option Multiaddr :=
  match parse_socket_v4 addr with
  | Some (a, b, c, d, port) => Some [Ip4 a b c d; Tcp port]
  | None => multiaddr_from_str addr
  end.

(** The argument [--peer], or the variable in its place, where commas separate. *)
Definition peers_arg (cli : list string) (safe_peers : option string) : option (list Multiaddr) :=
  let texts := match cli with [] => match safe_peers with Some s => split_on COMMA s | None => [] end | _ => cli end in
  res_ok (try_map (λ s, ok_or (parse_peer_addr s) tt) texts).

(** The peer of the variable [SAFE_PEERS], unless the binary discovers its
    peers locally. *)
Definition with_safe_peers (local_discovery : bool) (safe_peers : option string) (peers : list Multiaddr) : list Multiaddr :=
  if local_discovery then peers
  else
    match safe_peers with
    | Some str =>
        match parse_peer_addr str with
        | Some peer => if decide (peer ∈ peers) then peers else peers ++ [peer]
        | None => peers
        end
    | None => peers
    end.

End Peers.

(** ** The messages of the RPC service (req_resp_types.proto) *)

Record NodeInfoResponse := {
  ni_peer_id : bytes;
  ni_pid : Z;
  ni_log_dir : string;
  ni_bin_version : string;
  ni_uptime_secs : N;
}.
Record NetworkInfoResponse := { nw_connected_peers : list bytes; nw_listeners : list string }.

(** ** Lemmas *)

(** Pieces without the separator, put together and split again. *)
Lemma split_on_concat c (ps : list string) :
  ps ≠ [] → Forall (λ p, c ∉ String.list_ascii_of_string p) ps →
  split_on c (String.concat (String c EmptyString) ps) = ps.
Proof.
  intros Hne Hps. induction Hps as [|p ps Hp Hps IH]; [done|]. destruct ps as [|q ps]; [by apply split_on_none|].
  change (String.concat (String c EmptyString) (p :: q :: ps))
    with (String.append p (String c (String.concat (String c EmptyString) (q :: ps)))).
  rewrite split_on_app by done. f_equal. by apply IH.
Qed.

Lemma in_append a s t :
  a ∈ String.list_ascii_of_string (String.append s t) ↔ a ∈ String.list_ascii_of_string s ∨ a ∈ String.list_ascii_of_string t.
Proof.
  induction s as [|b s IH]; [split; [by right|by intros [?%elem_of_nil|?]]|].
  change (String.list_ascii_of_string (String.append (String b s) t)) with (b :: String.list_ascii_of_string (String.append s t)).
  change (String.list_ascii_of_string (String b s)) with (b :: String.list_ascii_of_string s).
  rewrite !elem_of_cons, IH. tauto.
Qed.

Lemma parse_target_level name level l :
  EQUALS ∉ String.list_ascii_of_string name → EQUALS ∉ String.list_ascii_of_string level →
  get_log_level_from_str level = Ok l →
  parse_target (String.append name (String EQUALS level)) = Ok (name, l).
Proof.
  intros Hn Hl Hlev. unfold parse_target. rewrite split_on_app, split_on_none by done. cbn. by rewrite Hlev.
Qed.

(** An entry of the logging string that gives [level] to [name]. *)
Record target_entry (e : string) (t : string * Level) : Prop := {
  te_no_comma : COMMA ∉ String.list_ascii_of_string e;
  te_not_all : e ≠ ALL_SN_LOGS;
  te_parses : parse_target e = Ok t;
}.

Lemma entry_of name level l :
  (∀ a, a = COMMA ∨ a = EQUALS → a ∉ String.list_ascii_of_string name ∧ a ∉ String.list_ascii_of_string level) →
  get_log_level_from_str level = Ok l → target_entry (String.append name (String EQUALS level)) (name, l).
Proof.
  intros Hsep Hl. destruct (Hsep COMMA) as [Hn Hv]; [by left|]. destruct (Hsep EQUALS) as [Hn' Hv']; [by right|]. split.
  - rewrite in_append. intros [?|[H|?]%elem_of_cons]; [done|by vm_compute in H|done].
  - intros H. assert (EQUALS ∉ String.list_ascii_of_string ALL_SN_LOGS) as Hno by by_compute.
    apply Hno. rewrite <- H, in_append. right. by left.
  - by apply parse_target_level.
Qed.

Lemma targets_loop_entries targets es ts rest :
  Forall2 target_entry es ts → targets_loop targets (es ++ rest) = targets_loop (targets ++ ts) rest.
Proof.
  intros H. revert targets. induction H as [|e t es ts [_ Hna Hp] _ IH]; intros targets; cbn [app]; [by rewrite app_nil_r|].
  cbn [targets_loop]. rewrite decide_False, Hp by done. cbn [mbind Res_bind]. by rewrite IH, <- (assoc (++)).
Qed.

Lemma entries_no_comma es ts : Forall2 target_entry es ts → Forall (λ e, COMMA ∉ String.list_ascii_of_string e) es.
Proof. induction 1 as [|e t es ts []]; by constructor. Qed.

(** Octets and ports in decimal. *)
Lemma parse_octet_pretty n : (n < 256)%N → parse_octet (pretty n) = Some (Z.of_N n).
Proof.
  intros Hn. unfold parse_octet. rewrite decide_True; [by apply parse_uint_pretty; lia|].
  assert (forallb (λ n, bool_decide (String.length (pretty n) ≤ 3 ∧ (pretty n = "0" ∨ String.prefix "0" (pretty n) = false)))
            (N.of_nat <$> seq 0 256) = true) as H by (vm_compute; reflexivity).
  rewrite forallb_forall in H. apply (bool_decide_unpack _), Is_true_true, H.
  apply list_elem_of_In, list_elem_of_fmap. exists (N.to_nat n). split; [lia|]. apply elem_of_seq. lia.
Qed.

Definition show_socket_v4 (a b c d port : N) : string :=
  String.append (String.concat (String DOT EmptyString) [pretty a; pretty b; pretty c; pretty d]) (String COLON (pretty port)).

Lemma parse_socket_show a b c d port :
  (a < 256)%N → (b < 256)%N → (c < 256)%N → (d < 256)%N → (port < 2 ^ 16)%N →
  parse_socket_v4 (show_socket_v4 a b c d port) = Some (Z.of_N a, Z.of_N b, Z.of_N c, Z.of_N d, Z.of_N port).
Proof.
  intros Ha Hb Hc Hd Hp. unfold parse_socket_v4, show_socket_v4.
  set (ip := String.concat _ _).
  assert (COLON ∉ String.list_ascii_of_string ip) as Hip.
  { assert (∀ s t, COLON ∉ String.list_ascii_of_string s → COLON ∉ String.list_ascii_of_string t →
      COLON ∉ String.list_ascii_of_string (String.append s t)) as Happ by (intros s t; rewrite in_append; tauto).
    unfold ip. cbn [String.concat]. repeat apply Happ; first [by apply pretty_no_sep|by_compute]. }
  rewrite split_on_app, split_on_none by (done || by apply pretty_no_sep). unfold ip.
  rewrite split_on_concat by (done || (repeat constructor; by apply pretty_no_sep)).
  rewrite !parse_octet_pretty by done. cbn [mbind option_bind]. by rewrite parse_uint_pretty by lia.
Qed.

(** ** Properties *)

Section Properties.
Context `{KD : KadCrate}.

(** a logging string is read back as it was meant: entries [crate=level]
    that commas separate give these levels to these crates, in order; and an
    entry [all] gives the most detailed level to every crate, whatever follows
    it.  (The entries before it must be well formed.) *)
Theorem logging_string_read es ts rest :
  Forall2 target_entry es ts → Forall (λ e, COMMA ∉ String.list_ascii_of_string e) rest →
  let text l := String.concat (String COMMA EmptyString) l in
  (es ≠ [] → get_logging_targets (text es) = Ok ts) ∧
  get_logging_targets (text (es ++ ALL_SN_LOGS :: rest)) = Ok all_targets.
Proof.
  intros Hes Hrest. pose proof (entries_no_comma _ _ Hes) as Hnc. cbn zeta. unfold get_logging_targets. split.
  - intros Hne. rewrite split_on_concat by done. pose proof (targets_loop_entries [] es ts [] Hes) as H.
    by rewrite app_nil_r in H.
  - rewrite split_on_concat.
    + rewrite (targets_loop_entries [] es ts _ Hes). cbn [targets_loop]. by rewrite decide_True.
    + by destruct es.
    + apply Forall_app. split; [done|]. constructor; [|done]. by_compute.
Qed.

(** the level of a crate is one of four: the five names are known in
    any case, but [error] stands for [WARN], and no name gives [ERROR]. *)
Theorem log_level_names s l :
  get_log_level_from_str s = Ok l ↔
  (to_lowercase s, l) ∈ [("info", INFO); ("debug", DEBUG); ("trace", TRACE); ("warn", WARN); ("error", WARN)].
Proof.
  unfold get_log_level_from_str. rewrite !elem_of_cons, elem_of_nil. set (x := to_lowercase s). clearbody x.
  do 5 (match goal with |- context [decide (x = ?n)] => destruct (decide (x = n)) as [->|?]; [by naive_solver|] end).
  naive_solver.
Qed.

(** an IPv4 socket address in its usual form becomes the TCP
    multiaddress of the same address and port, whatever libp2p's parser says;
    and the peer of the environment is added to the initial peers at most once. *)
Theorem peer_addr_of_socket (from_str : string → option Multiaddr) a b c d port peers :
  (a < 256)%N → (b < 256)%N → (c < 256)%N → (d < 256)%N → (port < 2 ^ 16)%N → NoDup peers →
  let text := show_socket_v4 a b c d port in
  let addr := [Ip4 (Z.of_N a) (Z.of_N b) (Z.of_N c) (Z.of_N d); Tcp (Z.of_N port)] in
  parse_peer_addr from_str text = Some addr ∧
  NoDup (with_safe_peers from_str false (Some text) peers) ∧
  (∀ p, p ∈ with_safe_peers from_str false (Some text) peers ↔ p ∈ peers ∨ p = addr).
Proof.
  intros Ha Hb Hc Hd Hp Hnd. cbn zeta. set (addr := [_; _]).
  assert (parse_peer_addr from_str (show_socket_v4 a b c d port) = Some addr) as E
    by (unfold parse_peer_addr; by rewrite parse_socket_show).
  split; [done|]. unfold with_safe_peers. rewrite E. case_decide as Hin; [split; [done|]; naive_solver|].
  split; [|intros p; rewrite elem_of_app, list_elem_of_singleton; done].
  apply NoDup_app. split_and!; [done| |apply NoDup_singleton]. intros x Hx ->%list_elem_of_singleton. done.
Qed.

End Properties.

(** ** The properties at concrete values *)

Lemma logging_string_read_witness :
  get_logging_targets "sn_node=info,sn_networking=Debug" = Ok [("sn_node", INFO); ("sn_networking", DEBUG)].
Proof.
  refine (proj1 (logging_string_read ["sn_node=info"; "sn_networking=Debug"] [("sn_node", INFO); ("sn_networking", DEBUG)] [] _ _) _);
    [|constructor|done].
  constructor; [|constructor; [|constructor]]; split; by_compute.
Defined.

Lemma peer_addr_of_socket_witness :
  parse_peer_addr (λ _, None) "127.0.0.1:12000" = Some [Ip4 127 0 0 1; Tcp 12000].
Proof.
  exact (proj1 (peer_addr_of_socket (λ _, None) 127 0 0 1 12000 [] eq_refl eq_refl eq_refl eq_refl eq_refl (NoDup_nil_2))).
Defined.

(** Two addresses in the environment are none to the fallback. *)
Example two_safe_peers_ignored p :
  with_safe_peers (λ _, None) false (Some "1.2.3.4:1234,1.2.3.5:1234") [p] = [p].
Proof. reflexivity. Qed.
