(* ===== verification/CliMain.v ===== *)
(** * sn_cli: the entry point

    - [ClientOpt], [client_parse_log_output]: src/sn_cli/src/cli.rs;
    - [client_main]: [main] of src/sn_cli/src/main.rs.

    The commands are those of Cli.v.  [Client::new] builds a swarm and waits for
    the connection; its events are in Client.v, and here it is a program [main]
    is given, as is the setting up of the logs (Startup.v, Safenode.v).

    The main theorem: without peers a client that does not look for them on the
    local network ends with an error before it touches the network, but has
    created its directory and its key; with peers, the command runs on the client
    made with the key on disk. *)

From S2P Require Import Prelude Deps ToyCrates Registers Protocol Transfers RecordStore Payments Effects Network SwarmDriver Wallet WalletFiles Client ClientWallet Files Faucet Cli Startup.
From stdpp Require Import base tactics list gmap sorting strings.
From Stdlib Require Import ZArith NArith Strings.Byte Lia.

Section CliMain.
Context `{BLS : BlsCrate, XN : XorNameCrate, HX : HexCrate, KD : KadCrate, CR : CrdtsCrate, SE : SelfEncryptionCrate}.
Context `{TK : TokenCrate, DI : DbcIdCrate, SD : !SnDbcCrate, DC : !DbcCrate, RP : !RegisterParams, DT : !DbcTextCrate}.
Context `{MK : MerkleCrate}.
Context `{RH : RmpHeader, RC : Rmp (bytes * PaymentProof), RS : Rmp (list SignedSpend), RR : Rmp SignedRegister}.
Context `{SO : SelfEncryptionOps, BB : Bincode bytes, BD : Bincode DataMapLevel, BW : Bincode KeyLessWallet}.
Context `{BI : Bincode (list (XorName * string))}.
Context (bld : Build) (token_from_str : string → option Token).

(** The arguments, once parsed; the timeout is one of the client's start. *)
Record ClientOpt := {
  co_log_output_dest : option LogOutputDest;
  co_log_format : option LogFormat;
  co_peers : list Multiaddr;
  co_cmd : SubCmd;
  co_timeout : option nat;
  co_no_verify : bool;
}.

(** [data_dir] is that of the platform. *)
Definition client_parse_log_output (data_dir : option PathBuf) (val : string) : Res CliError LogOutputDest :=
  if decide (val = "stdout"%string) then Ok LOD_Stdout
  else if decide (val = "data-dir"%string) then
    dir ← ok_or data_dir CLI_NoDataDir;
    Ok (LOD_Path (path_join (path_join (path_join dir "safe") "client") "logs"))
  else Ok (LOD_Path (path_from val)).

Definition client_logging_targets : list (string * Level) :=
  [("safe", INFO); ("sn_client", INFO); ("sn_networking", INFO)]%string.

(** [local_discovery]: the feature of this name. *)
Definition client_main (local_discovery : bool)
    (init_logging : list (string * Level) → LogOutputDest → LogFormat → AppProg CliError unit)
    (Client_new : SecretKey → option (list Multiaddr) → option nat → AppProg CliError Client)
    (new_key : SecretKey) (i : Inputs) (opt : ClientOpt) : AppProg CliError unit :=
  _ ← (match co_log_output_dest opt with
       | Some log_output_dest => init_logging client_logging_targets log_output_dest (default LF_Default (co_log_format opt))
       | None => lift (Ok tt)
       end);
  client_data_dir_path ← on_right get_client_data_dir_path;
  secret_key ← on_right (get_client_secret_key new_key client_data_dir_path);
  _ ← (if decide (co_peers opt = []) then
         if local_discovery then lift (Ok tt) else lift (Err CLI_NoPeers)
       else lift (Ok tt));
  client ← Client_new secret_key (Some (co_peers opt)) (co_timeout opt);
  run_command bld token_from_str i (co_no_verify opt) (co_cmd opt) client client_data_dir_path.

End CliMain.

(** ** Properties *)

Section Properties.
Context `{BLS : BlsCrate, XN : XorNameCrate, HX : HexCrate, KD : KadCrate, CR : CrdtsCrate, SE : SelfEncryptionCrate}.
Context `{TK : TokenCrate, DI : DbcIdCrate, SD : !SnDbcCrate, DC : !DbcCrate, RP : !RegisterParams, DT : !DbcTextCrate}.
Context `{MK : MerkleCrate}.
Context `{RH : RmpHeader, RC : Rmp (bytes * PaymentProof), RS : Rmp (list SignedSpend), RR : Rmp SignedRegister}.
Context `{SO : SelfEncryptionOps, BB : Bincode bytes, BD : Bincode DataMapLevel, BW : Bincode KeyLessWallet}.
Context `{BI : Bincode (list (XorName * string))}.
Context (bld : Build) (token_from_str : string → option Token).
Context (init_logging : list (string * Level) → LogOutputDest → LogFormat → AppProg CliError unit).
Context (connect : SecretKey → option (list Multiaddr) → option nat → AppProg CliError Client).

(** without peers, and without discovery on the local network, the client ends
    with an error or a panic, whatever the command is, and no operation of the
    network is performed.  [client_main] returns only if the client was made with
    the key that [get_client_secret_key] gave, and the command returned on it. *)
Theorem client_needs_peers local_discovery new_key i opt tr r :
  exec (client_main bld token_from_str local_discovery init_logging connect new_key i opt) tr r →
  co_log_output_dest opt = None →
  (co_peers opt = [] → local_discovery = false → left_events tr = [] ∧ r ≠ Ok tt) ∧
  (r = Ok tt → ∃ dir key client t1 t2 t3 t4, tr = t1 ++ t2 ++ t3 ++ t4 ∧
     exec (on_right get_client_data_dir_path) t1 (Ok dir) ∧ exec (on_right (get_client_secret_key new_key dir)) t2 (Ok key) ∧
     exec (connect key (Some (co_peers opt)) (co_timeout opt)) t3 (Ok client) ∧
     exec (run_command bld token_from_str i (co_no_verify opt) (co_cmd opt) client dir) t4 (Ok tt)).
Proof.
  unfold client_main. intros He Hlog. rewrite Hlog in He. split.
  - intros Hp ->.
    apply exec_bind_inv in He as [([] & t0 & t & -> & [-> _]%exec_lift_inv & He)|[(e & -> & [-> _]%exec_lift_inv)|(w & -> & [-> _]%exec_lift_inv)]];
      [|done..].
    apply exec_bind_inv in He as [(dir & t1 & t2 & -> & [_ H1]%exec_on_right & He)|[(e & -> & [_ H1]%exec_on_right)|(w & -> & [_ H1]%exec_on_right)]];
      [|done..].
    apply exec_bind_inv in He as [(key & t3 & t4 & -> & [_ H3]%exec_on_right & He)|[(e & -> & [_ H3]%exec_on_right)|(w & -> & [_ H3]%exec_on_right)]];
      cbn [app]; rewrite left_events_app, H1; [|done..].
    rewrite left_events_app, H3, decide_True in * by done.
    apply exec_bind_inv in He as [([] & t5 & t6 & -> & [_ ?]%exec_lift_inv & _)|[(e & -> & [-> _]%exec_lift_inv)|(w & -> & [-> _]%exec_lift_inv)]];
      done.
  - intros ->. exec_ok; do 7 eexists; (split_and!; cycle 1; [eassumption..|done]).
Qed.

End Properties.
