(* ===== verification/Testnet.v ===== *)
(** * sn_testnet: launching and checking a local network

    - [TestnetBuilder], [Testnet] and its operations: src/sn_testnet/src/lib.rs;
    - [nodes_info_from_logs], [check_testnet_run]:
      src/sn_testnet/src/check_testnet.rs;
    - [run_network], [join_network], [run_faucet], [testnet_main]:
      src/sn_testnet/src/main.rs.

    The operating system is the environment of the programs: processes that
    are spawned, directories, environment variables, log files, and the RPC
    services of the nodes.  Paths are text, so that a path always converts to a
    string.  The regular expressions and the text forms of libp2p's types are
    parameters.

    The main theorems: which nodes are launched and with which arguments, how
    many of them there are and that their ports differ; that a network that
    was started without an error passed the check of its logs and its RPC
    services; and that joining a network launches one node too many. *)

From S2P Require Import Prelude Deps ToyCrates Effects Network Startup.
From stdpp Require Import base tactics list gmap strings pretty sorting.
From Stdlib Require Import ZArith NArith Strings.Byte Lia.

Open Scope string_scope.
Open Scope list_scope.
Open Scope nat_scope.

Definition DEFAULT_NODE_LAUNCH_INTERVAL : nat := 1000.
Definition SAFENODE_BIN_NAME : string := "safenode".
Definition FAUCET_BIN_NAME : string := "faucet".
Definition DEFAULT_NODE_COUNT : nat := 25.
Definition LOG_FILENAME_PREFIX : string := "safenode.log".

(** ** The environment *)

Inductive TestnetError :=
| TE_NoDataDir
| TE_Io
| TE_NotCleared
| TE_AddrParse
| TE_Rpc
| TE_PeerId
| TE_NoNodeCount
| TE_NoFlamegraph
| TE_NoPerf
| TE_BuildFailed.

#[global] Instance TestnetError_eq_dec : EqDecision TestnetError.
Proof. solve_decision. Defined.

Inductive Removal := Removed | NotFound | RemoveFailed.

(** A directory that can be read lists its entries; of each it is known whether
    it is a directory, or reading it failed.  A command that ran gives its exit
    status and its output.  [ReadLines] gives the lines before the first that
    cannot be read. *)
Inductive TestnetOp :=
| DataDir
| EnvVar (name : string)
| Exists (p : PathBuf)
| ReadDir (p : PathBuf)
| RemoveDirAll (p : PathBuf)
| WalkFiles (p : PathBuf)
| ReadLines (p : PathBuf)
| Spawn (bin : PathBuf) (args : list string)
| CommandOutput (bin : string) (args : list string) (target_dir : option string) (cwd : option string)
| SleepMs (ms : nat)
| NodeInfoRpc (port : N)
| NetworkInfoRpc (port : N).

Definition TestnetAns (op : TestnetOp) : Type :=
  match op with
  | DataDir => option PathBuf
  | EnvVar _ => option string
  | Exists _ => bool
  | ReadDir _ => option (list (option bool))
  | RemoveDirAll _ => Removal
  | WalkFiles _ => list PathBuf
  | ReadLines _ => option (list string)
  | Spawn _ _ => bool
  | CommandOutput _ _ _ _ => option (bool * string)
  | SleepMs _ => unit
  | NodeInfoRpc _ => option NodeInfoResponse
  | NetworkInfoRpc _ => option NetworkInfoResponse
  end.

Notation TProg := (Prog TestnetAns TestnetError).

(** The text forms of libp2p and what the regular expressions capture. *)
Class TestnetCrates `{KadCrate} := {
  peer_to_string : PeerId → string;
  peer_from_str : string → option PeerId;
  multiaddr_from_str : string → option Multiaddr;
  node_captures : string → option (string * string);
  listener_captures : string → option string;
}.

Section Testnet.
Context `{KD : KadCrate, TC : !TestnetCrates}.

(** The addresses on the loopback interface, by their port. *)
Definition parse_rpc_address (port : N) : Res TestnetError N :=
  if decide (port ≤ 65535)%N then Ok port else Err TE_AddrParse.
Definition rpc_to_string (port : N) : string := "127.0.0.1:" +:+ pretty port.

(** ** lib.rs *)

(** The traits. *)
Record NodeLauncher := { launch : PathBuf → list string → TProg unit }.
Record RpcClient := { obtain_peer_id : N → TProg PeerId }.

Definition SafeNodeLauncher : NodeLauncher := {|
  launch := λ node_bin_path args, ok ← call (Spawn node_bin_path args); if ok : bool then lift (Ok tt) else lift (Err TE_Io)
|}.

(** [obtain_peer_id] of check_testnet.rs. *)
Definition check_obtain_peer_id (port : N) : TProg PeerId :=
  r ← call (NodeInfoRpc port);
  node_info ← lift (ok_or r TE_Rpc);
  lift (ok_or (peer_from_bytes (ni_peer_id node_info)) TE_PeerId).

Definition SafeRpcClient : RpcClient := {| obtain_peer_id := check_obtain_peer_id |}.

Record TestnetBuilder := {
  tb_node_bin_path : option PathBuf;
  tb_node_launch_interval : option nat;
  tb_nodes_dir_path : option PathBuf;
  tb_clear_nodes_dir : bool;
  tb_flamegraph_mode : bool;
}.

Record Testnet := {
  node_bin_path : PathBuf;
  node_launch_interval : nat;
  nodes_dir_path : PathBuf;
  flamegraph_mode : bool;
  node_count : nat;
  launcher : NodeLauncher;
  rpc_client : RpcClient;
}.

Definition TestnetBuilder_default : TestnetBuilder :=
  {| tb_node_bin_path := None; tb_node_launch_interval := None; tb_nodes_dir_path := None;
     tb_clear_nodes_dir := false; tb_flamegraph_mode := false |}.

Definition configure : TestnetBuilder := TestnetBuilder_default.

Definition set_node_bin_path (p : PathBuf) (b : TestnetBuilder) : TestnetBuilder :=
  {| tb_node_bin_path := Some p; tb_node_launch_interval := tb_node_launch_interval b;
     tb_nodes_dir_path := tb_nodes_dir_path b; tb_clear_nodes_dir := tb_clear_nodes_dir b;
     tb_flamegraph_mode := tb_flamegraph_mode b |}.
Definition set_node_launch_interval (ms : nat) (b : TestnetBuilder) : TestnetBuilder :=
  {| tb_node_bin_path := tb_node_bin_path b; tb_node_launch_interval := Some ms;
     tb_nodes_dir_path := tb_nodes_dir_path b; tb_clear_nodes_dir := tb_clear_nodes_dir b;
     tb_flamegraph_mode := tb_flamegraph_mode b |}.
Definition set_nodes_dir_path (p : PathBuf) (b : TestnetBuilder) : TestnetBuilder :=
  {| tb_node_bin_path := tb_node_bin_path b; tb_node_launch_interval := tb_node_launch_interval b;
     tb_nodes_dir_path := Some p; tb_clear_nodes_dir := tb_clear_nodes_dir b;
     tb_flamegraph_mode := tb_flamegraph_mode b |}.
Definition set_flamegraph_mode (f : bool) (b : TestnetBuilder) : TestnetBuilder :=
  {| tb_node_bin_path := tb_node_bin_path b; tb_node_launch_interval := tb_node_launch_interval b;
     tb_nodes_dir_path := tb_nodes_dir_path b; tb_clear_nodes_dir := tb_clear_nodes_dir b;
     tb_flamegraph_mode := f |}.

(** The directories among the entries. *)
Definition count_dirs (entries : list (option bool)) : TProg nat :=
  prog_fold (λ count entry, is_dir ← lift (ok_or entry TE_Io); lift (Ok (if is_dir : bool then S count else count)))
    0 entries.

Definition Testnet_new (node_bin_path : PathBuf) (node_launch_interval : nat) (nodes_dir_path : PathBuf)
    (flamegraph_mode : bool) (launcher : NodeLauncher) (rpc_client : RpcClient) : TProg Testnet :=
  exists_ ← call (Exists nodes_dir_path);
  node_count ← (if exists_ : bool then
      r ← call (ReadDir nodes_dir_path);
      entries ← lift (ok_or r TE_Io);
      count_dirs entries
    else lift (Ok 0));
  lift (Ok {| node_bin_path := node_bin_path; node_launch_interval := node_launch_interval;
              nodes_dir_path := nodes_dir_path; flamegraph_mode := flamegraph_mode; node_count := node_count;
              launcher := launcher; rpc_client := rpc_client |}).

Definition build (b : TestnetBuilder) : TProg Testnet :=
  data_dir ← call DataDir;
  data_dir ← lift (ok_or data_dir TE_NoDataDir);
  let default_node_dir_path := path_join (path_join data_dir "safe") "node" in
  let nodes_dir_path := default default_node_dir_path (tb_nodes_dir_path b) in
  _ ← (if tb_clear_nodes_dir b then
         exists_ ← call (Exists nodes_dir_path);
         if exists_ : bool then
           r ← call (RemoveDirAll nodes_dir_path);
           match r with Removed => lift (Ok tt) | _ => lift (Err TE_Io) end
         else lift (Ok tt)
       else lift (Ok tt));
  Testnet_new (default (path_of SAFENODE_BIN_NAME) (tb_node_bin_path b))
    (default DEFAULT_NODE_LAUNCH_INTERVAL (tb_node_launch_interval b))
    nodes_dir_path (tb_flamegraph_mode b) SafeNodeLauncher SafeRpcClient.

Definition get_launch_args (t : Testnet) (node_name : string) (rpc_address : option N) (node_args : list string)
    : Res TestnetError (list string) :=
  Ok ((if flamegraph_mode t then
         ["flamegraph"; "--output"; path_to_str (path_join (nodes_dir_path t) (node_name +:+ "-flame.svg"));
          "--root"; "--bin"; "safenode"; "--"]
       else []) ++
      ["--log-output-dest"; "data-dir"; "--local"] ++
      match rpc_address with Some addr => ["--rpc"; rpc_to_string addr] | None => [] end ++
      node_args).

Definition get_launch_bin (t : Testnet) : PathBuf :=
  if flamegraph_mode t then path_of "cargo" else node_bin_path t.

(** The RPC port of the [i]-th node. *)
Definition rpc_port (i : nat) : N := (12000 + N.of_nat i)%N.

Definition GENESIS_PORT : N := 11101.

Definition launch_genesis (t : Testnet) (node_args : list string) : TProg string :=
  if decide (node_count t ≠ 0) then lift (Err TE_NotCleared)
  else
    rpc_address ← lift (parse_rpc_address 12001%N);
    launch_args ← lift (get_launch_args t "safenode-1" (Some rpc_address) node_args);
    let launch_args := launch_args ++ ["--port"; pretty GENESIS_PORT] in
    _ ← launch (launcher t) (get_launch_bin t) launch_args;
    _ ← call (SleepMs (node_launch_interval t));
    peer_id ← obtain_peer_id (rpc_client t) rpc_address;
    lift (Ok ("/ip4/127.0.0.1/tcp/" +:+ pretty GENESIS_PORT +:+ "/p2p/" +:+ peer_to_string peer_id)).

(** One round of the loop of [launch_nodes]. *)
Definition launch_node (t : Testnet) (node_args : list string) (end_ i : nat) : TProg unit :=
  rpc_address ← lift (parse_rpc_address (rpc_port i));
  launch_args ← lift (get_launch_args t ("safenode-" +:+ pretty i) (Some rpc_address) node_args);
  _ ← launch (launcher t) (get_launch_bin t) launch_args;
  if decide (i < end_) then call (SleepMs (node_launch_interval t)) else lift (Ok tt).

Definition set_node_count (n : nat) (t : Testnet) : Testnet :=
  {| node_bin_path := node_bin_path t; node_launch_interval := node_launch_interval t;
     nodes_dir_path := nodes_dir_path t; flamegraph_mode := flamegraph_mode t; node_count := n;
     launcher := launcher t; rpc_client := rpc_client t |}.

(** The numbers of the nodes that are launched. *)
Definition launch_range (t : Testnet) (number_of_nodes : nat) : list nat :=
  let start := if decide (node_count t = 0) then node_count t + 2 else node_count t + 1 in
  let end_ := node_count t + number_of_nodes in
  seq start (end_ + 1 - start).

Definition launch_nodes (number_of_nodes : nat) (node_args : list string) : StP TestnetAns Testnet TestnetError unit := λ t,
  let end_ := node_count t + number_of_nodes in
  r ← attempt (prog_fold (λ _ i, launch_node t node_args end_ i) tt (launch_range t number_of_nodes));
  match r with
  | Ok _ => lift (Ok (set_node_count (node_count t + number_of_nodes) t, Ok tt))
  | Err e => lift (Ok (t, Err e))
  | Panic w => lift (Panic w)
  end.

(** ** check_testnet.rs *)

Record NodeInfo := { pid : Z; peer_id : PeerId; listeners : list Multiaddr; log_path : PathBuf }.

(** The fresh entry of a directory gets a random peer. *)
Definition update_node_info (random : PathBuf → PeerId) (nodes : gmap PathBuf NodeInfo) (dir : PathBuf)
    (peer_info : option (Z * PeerId)) (listener : option Multiaddr) : gmap PathBuf NodeInfo :=
  let node_info := default {| pid := 0; peer_id := random dir; listeners := []; log_path := dir |} (nodes !! dir) in
  let node_info :=
    match peer_info with
    | Some (p, id) => {| pid := p; peer_id := id; listeners := listeners node_info; log_path := log_path node_info |}
    | None => node_info
    end in
  <[dir := {| pid := pid node_info; peer_id := peer_id node_info;
              listeners := listeners node_info ++ option_list listener; log_path := log_path node_info |}]> nodes.

Definition parse_u32 (s : string) : option Z := parse_uint (2 ^ 32) s.

(** One line of the log in [dir]: [expect] on what it captures. *)
Definition log_line (random : PathBuf → PeerId) (dir : PathBuf) (nodes : gmap PathBuf NodeInfo) (line : string)
    : TProg (gmap PathBuf NodeInfo) :=
  nodes ← (match node_captures line with
           | Some (c1, c2) =>
               match parse_u32 c1, peer_from_str c2 with
               | Some pid, Some peer_id => lift (Ok (update_node_info random nodes dir (Some (pid, peer_id)) None))
               | _, _ => lift (Panic ExplicitPanic)
               end
           | None => lift (Ok nodes)
           end);
  match listener_captures line with
  | Some c1 =>
      match multiaddr_from_str c1 with
      | Some multiaddr => lift (Ok (update_node_info random nodes dir None (Some multiaddr)))
      | None => lift (Panic ExplicitPanic)
      end
  | None => lift (Ok nodes)
  end.

(** One file that the walk found. *)
Definition log_file (random : PathBuf → PeerId) (nodes : gmap PathBuf NodeInfo) (file_path : PathBuf)
    : TProg (gmap PathBuf NodeInfo) :=
  match last (parts file_path) with
  | None => lift (Ok nodes)
  | Some file_name =>
      if String.prefix LOG_FILENAME_PREFIX file_name then
        r ← call (ReadLines file_path);
        lines ← lift (ok_or r TE_Io);
        prog_fold (log_line random (path_pop file_path)) nodes lines
      else lift (Ok nodes)
  end.

(** The entries by pid, in the order of their directories: the last one of a
    pid stays. *)
Definition by_pid (nodes : gmap PathBuf NodeInfo) : gmap Z NodeInfo :=
  foldl (λ m x, <[pid x.2 := x.2]> m) ∅ (bmap_iter nodes).

Definition nodes_info_from_logs (random : PathBuf → PeerId) (path : PathBuf) : TProg (gmap Z NodeInfo) :=
  log_files ← call (WalkFiles path);
  nodes ← prog_fold (log_file random) ∅ log_files;
  lift (Ok (by_pid nodes)).

(** [PeerId::from_bytes] and [Multiaddr::from_str], with [expect]. *)
Definition expect_all {A B : Type} (f : A → option B) (l : list A) : TProg (list B) :=
  prog_fold (λ acc x, match f x with Some y => lift (Ok (acc ++ [y])) | None => lift (Panic ExplicitPanic) end) [] l.

Definition send_rpc_queries_to_node (port : N) : TProg (NodeInfo * gset PeerId) :=
  r ← call (NodeInfoRpc port);
  node_info ← lift (ok_or r TE_Rpc);
  peer_id ← lift (ok_or (peer_from_bytes (ni_peer_id node_info)) TE_PeerId);
  r ← call (NetworkInfoRpc port);
  net_info ← lift (ok_or r TE_Rpc);
  addrs ← expect_all multiaddr_from_str (nw_listeners net_info);
  connected_peers ← expect_all peer_from_bytes (nw_connected_peers net_info);
  lift (Ok ({| pid := ni_pid node_info; peer_id := peer_id; listeners := (λ a, a ++ [P2p peer_id]) <$> (addrs : list Multiaddr);
               log_path := path_from (ni_log_dir node_info) |},
            list_to_set connected_peers)).

(** The [u16] arithmetic of the port. *)
Definition check_port (bld : Build) (i : nat) : Res TestnetError N :=
  let p := (12000 + N.of_nat i mod 2 ^ 16)%N in
  if decide (p < 2 ^ 16)%N then Ok p
  else match bld with Debug => Panic ArithmeticOverflow | Release => Ok (p - 2 ^ 16)%N end.

(** The check of the [i]-th node: only the pid and the peer have to agree with
    the logs, other differences are printed. *)
Definition check_node (bld : Build) (nodes : gmap Z NodeInfo) (i : nat) : TProg unit :=
  port ← lift (check_port bld i);
  rpc_addr ← lift (parse_rpc_address port);
  x ← send_rpc_queries_to_node rpc_addr;
  match nodes !! pid x.1 with
  | Some node_log_info => if decide (peer_id x.1 = peer_id node_log_info) then lift (Ok tt) else lift (Panic ExplicitPanic)
  | None => lift (Panic ExplicitPanic)
  end.

Definition check_testnet_run (bld : Build) (random : PathBuf → PeerId) (logs_path : PathBuf) (node_count : nat) : TProg unit :=
  _ ← prog_fold (λ _ _, call (SleepMs 1000)) tt (seq 0 10);
  nodes ← nodes_info_from_logs random logs_path;
  if decide (node_count = size nodes) then
    prog_fold (λ _ i, check_node bld nodes i) tt (seq 1 (size nodes))
  else lift (Panic ExplicitPanic).

(** ** main.rs *)

Definition run_network (bld : Build) (random : PathBuf → PeerId) (node_bin_path : PathBuf) (node_launch_interval : nat)
    (node_count : nat) (node_args : list string) (flamegraph_mode : bool) : TProg string :=
  testnet ← build (set_flamegraph_mode flamegraph_mode (set_node_launch_interval node_launch_interval
                     (set_node_bin_path node_bin_path configure)));
  gen_multi_addr ← launch_genesis testnet node_args;
  let node_args := node_args ++ ["--peer"; gen_multi_addr] in
  x ← prog_map_err (λ e : Empty_set, match e with end) (launch_nodes node_count node_args testnet);
  let '(testnet, r) := x in
  _ ← lift r;
  _ ← check_testnet_run bld random (nodes_dir_path testnet) node_count;
  lift (Ok gen_multi_addr).

Definition join_network (node_bin_path : PathBuf) (node_launch_interval : nat) (node_count : nat) (node_args : list string)
    : TProg unit :=
  testnet ← build (set_node_launch_interval node_launch_interval (set_node_bin_path node_bin_path configure));
  x ← prog_map_err (λ e : Empty_set, match e with end) (launch_nodes (node_count + 1) node_args testnet);
  lift x.2.

Definition run_faucet (gen_multi_addr : string) (bin_path : PathBuf) : TProg unit :=
  testnet ← build (set_node_bin_path bin_path configure);
  let launch_bin := node_bin_path testnet in
  data_dir ← call DataDir;
  data_dir ← lift (ok_or data_dir TE_NoDataDir);
  let log_dir := path_to_str (path_join (path_join (path_join data_dir "safe") "test_faucet") "server_logs") in
  _ ← launch (launcher testnet) launch_bin ["--log-output-dest"; log_dir; "--peer"; gen_multi_addr; "server"];
  call (SleepMs 5000).

(** The cargo features of the build. *)
Record Features := { chaos : bool; statemap : bool; otlp : bool; local_discovery : bool }.

Definition build_binaries (f : Features) (binaries_to_build : list string) : TProg unit :=
  let args := ["build"; "--release"] ++ concat ((λ bin, ["--bin"; bin]) <$> binaries_to_build) ++
    (if chaos f then ["--features"; "chaos"] else []) ++ (if statemap f then ["--features"; "statemap"] else []) ++
    (if otlp f then ["--features"; "otlp"] else []) ++
    (if local_discovery f then ["--features"; "local-discovery"] else []) in
  target_dir ← call (EnvVar "CARGO_TARGET_DIR");
  r ← call (CommandOutput "cargo" args target_dir (Some "sn_node"));
  out ← lift (ok_or r TE_Io);
  if (out.1 : bool) then lift (Ok tt) else lift (Err TE_BuildFailed).

Definition contains (needle s : string) : bool := match String.index 0 needle s with Some _ => true | None => false end.

Definition check_flamegraph_prerequisites : TProg unit :=
  r ← call (CommandOutput "cargo" ["install"; "--list"] None None);
  out ← lift (ok_or r TE_Io);
  if negb (contains "flamegraph" out.2) then lift (Err TE_NoFlamegraph)
  else
    r ← call (CommandOutput "which" ["perf"] None None);
    out ← lift (ok_or r TE_Io);
    if negb out.1 then lift (Err TE_NoPerf) else lift (Ok tt).

Record Cmd := {
  cmd_join_network : bool;
  cmd_node_launch_interval : option nat;
  cmd_flame : bool;
  cmd_build_node : bool;
  cmd_node_path : option PathBuf;
  cmd_build_faucet : bool;
  cmd_faucet_path : option PathBuf;
  cmd_node_count : option nat;
  cmd_clean : bool;
  cmd_node_args : list string;
}.

(** The path of a binary: given, built from source, or looked up. *)
Definition bin_path (f : Features) (cargo_target_dir : PathBuf) (given : option PathBuf) (from_source : bool) (name : string)
    : TProg PathBuf :=
  match given with
  | Some p => lift (Ok (path_push cargo_target_dir p))
  | None =>
      if from_source then
        _ ← build_binaries f [name];
        lift (Ok (path_join (path_join (path_join cargo_target_dir "target") "release") name))
      else lift (Ok (path_join cargo_target_dir name))
  end.

Definition testnet_main (bld : Build) (f : Features) (random : PathBuf → PeerId) (args : Cmd) : TProg unit :=
  _ ← (if cmd_clean args then
         data_dir ← call DataDir;
         data_dir ← lift (ok_or data_dir TE_NoDataDir);
         r ← call (RemoveDirAll (path_join data_dir "safe"));
         match r with RemoveFailed => lift (Err TE_Io) | _ => lift (Ok tt) end
       else lift (Ok tt));
  _ ← (if cmd_flame args then check_flamegraph_prerequisites else lift (Ok tt));
  target ← call (EnvVar "CARGO_TARGET_DIR");
  let cargo_target_dir :=
    match target with Some dir => path_pop (path_from dir) | None => {| absolute := false; parts := [] |} end in
  node_bin_path ← bin_path f cargo_target_dir (cmd_node_path args) (cmd_build_node args) SAFENODE_BIN_NAME;
  let interval := default DEFAULT_NODE_LAUNCH_INTERVAL (cmd_node_launch_interval args) in
  if cmd_join_network args then
    node_count ← lift (ok_or (cmd_node_count args) TE_NoNodeCount);
    join_network node_bin_path interval node_count (cmd_node_args args)
  else
    gen_multi_addr ← run_network bld random node_bin_path interval (default DEFAULT_NODE_COUNT (cmd_node_count args))
                       (cmd_node_args args) (cmd_flame args);
    faucet_bin_path ← bin_path f cargo_target_dir (cmd_faucet_path args) (cmd_build_faucet args) FAUCET_BIN_NAME;
    run_faucet gen_multi_addr faucet_bin_path.

End Testnet.

(** ** Which processes a program starts *)

Section Launching.
Context `{KD : KadCrate, TC : !TestnetCrates}.

Notation Trace := (list (Effects.Event TestnetAns)).
Notation Process := (PathBuf * list string)%type.

(** The processes that were started, in order. *)
Definition started_by (e : Effects.Event TestnetAns) : option Process :=
  match e with
  | existT op a =>
      match op return TestnetAns op → option Process with
      | Spawn bin args => λ ok, if ok : bool then Some (bin, args) else None
      | _ => λ _, None
      end a
  end.
Definition processes (tr : Trace) : list Process := omap started_by tr.

Lemma processes_app t1 t2 : processes (t1 ++ t2) = processes t1 ++ processes t2.
Proof. apply omap_app. Qed.

(** Programs that start nothing. *)
Definition starts_none {E A} (p : Prog TestnetAns E A) : Prop := ∀ tr r, exec p tr r → processes tr = [].

Lemma starts_none_lift {E A} (r : Res E A) : starts_none (lift r).
Proof. by intros tr r' [-> _]%exec_lift_inv. Qed.

Lemma starts_none_call {E} op : match op with Spawn _ _ => False | _ => True end → starts_none (E:=E) (call op).
Proof.
  intros Hop tr r (a & t & -> & [-> _]%exec_done_inv)%exec_vis_inv. by destruct op.
Qed.

Lemma starts_none_bind {E A B} (p : Prog TestnetAns E A) (k : A → Prog TestnetAns E B) :
  starts_none p → (∀ a, starts_none (k a)) → starts_none (p ≫= k).
Proof.
  intros Hp Hk tr r [(a & t1 & t2 & -> & H1 & H2)|[(e & _ & H)|(w & _ & H)]]%exec_bind_inv; [|by eapply Hp..].
  by rewrite processes_app, (Hp _ _ H1), (Hk _ _ _ H2).
Qed.

Lemma starts_none_fold {E S A} (f : S → A → Prog TestnetAns E S) s l :
  (∀ s x, starts_none (f s x)) → starts_none (prog_fold f s l).
Proof.
  intros Hf. revert s. induction l as [|x l IH]; intros s; cbn; [apply starts_none_lift|]. by apply starts_none_bind.
Qed.

Ltac starts_none_step :=
  match goal with
  | |- starts_none (_ ≫= _) => apply starts_none_bind; [|intros ?]
  | |- starts_none (lift _) => apply starts_none_lift
  | |- starts_none (call ?op) => exact (starts_none_call op I)
  | |- starts_none (prog_fold _ _ _) => apply starts_none_fold; intros ? ?
  | |- starts_none (if ?b then _ else _) => destruct b
  | |- starts_none (let '(_, _) := ?x in _) => destruct x
  | |- starts_none (match ?x with _ => _ end) => destruct x
  end.
Ltac starts_none_tac := cbv zeta; repeat starts_none_step.

Lemma build_starts_none b : starts_none (build b).
Proof. unfold build, Testnet_new, count_dirs. starts_none_tac. Qed.


Lemma obtain_peer_starts_none port : starts_none (check_obtain_peer_id port).
Proof. unfold check_obtain_peer_id. starts_none_tac. Qed.

(** The process that is launched for the [i]-th node. *)
Definition node_process (t : Testnet) (node_args : list string) (i : nat) : Process :=
  (get_launch_bin t,
   default [] (res_ok (get_launch_args t ("safenode-" +:+ pretty i) (Some (rpc_port i)) node_args))).

Lemma SafeNodeLauncher_exec bin args tr r :
  exec (launch SafeNodeLauncher bin args) tr r →
  (r = Ok tt ∧ processes tr = [(bin, args)]) ∨ (r = Err TE_Io ∧ processes tr = []).
Proof.
  cbn [launch SafeNodeLauncher]. intros (ok & t & -> & H)%exec_call_inv.
  destruct ok; apply exec_lift_inv in H as [-> ->]; [by left|by right].
Qed.

Lemma launch_node_exec t args end_ i tr r :
  launcher t = SafeNodeLauncher → exec (launch_node t args end_ i) tr r →
  match r with
  | Ok _ => processes tr = [node_process t args i] ∧ (rpc_port i ≤ 65535)%N
  | Err _ => processes tr = []
  | Panic _ => False
  end.
Proof.
  intros Hl. unfold launch_node, parse_rpc_address. rewrite Hl. destruct (decide (rpc_port i ≤ 65535)%N) as [Hp|Hp].
  2: { intros H. apply exec_bind_inv in H as [(a & t1 & t2 & _ & [_ H]%exec_lift_inv & _)|[(e & -> & [-> _]%exec_lift_inv)|
         (w & _ & [_ H]%exec_lift_inv)]]; done. }
  cbn [get_launch_args]. intros H.
  change (exec (_ ← launch SafeNodeLauncher (get_launch_bin t) (node_process t args i).2;
                if decide (i < end_) then call (SleepMs (node_launch_interval t)) else lift (Ok tt)) tr r) in H.
  apply exec_bind_inv in H as [(u & t1 & t2 & -> & H1 & H2)|[(e & -> & H1)|(w & -> & H1)]];
    apply SafeNodeLauncher_exec in H1 as [[Hr H1]|[Hr H1]]; try done.
  rewrite processes_app, H1. case_decide.
  - apply exec_vis_inv in H2 as (a & t3 & -> & [-> ->]%exec_done_inv). by split.
  - apply exec_lift_inv in H2 as [-> ->]. by split.
Qed.

(** A loop whose rounds start one process each. *)
Lemma fold_processes {E A} (f : unit → A → Prog TestnetAns E unit) (g : A → Process) (P : A → Prop) l tr r :
  (∀ x t r, exec (f tt x) t r → match r with Ok _ => processes t = [g x] ∧ P x | Err _ => processes t = [] | Panic _ => False end) →
  exec (prog_fold f tt l) tr r →
  match r with
  | Ok _ => processes tr = g <$> l ∧ Forall P l
  | Err _ => ∃ k, k < length l ∧ processes tr = g <$> take k l
  | Panic _ => False
  end.
Proof.
  intros Hf. revert tr r. induction l as [|x l IH]; intros tr r; cbn [prog_fold].
  { intros [-> ->]%exec_done_inv. by split; [|constructor]. }
  intros [([] & t1 & t2 & -> & H1 & H2)|[(e & -> & H1)|(w & -> & H1)]]%exec_bind_inv; apply Hf in H1; [|by exists 0; split; [cbn; lia|]|done].
  destruct H1 as [H1 HP]. apply IH in H2. rewrite processes_app, H1. destruct r as [u|e|w]; [|destruct H2 as (k & Hk & H2)|done].
  - destruct H2 as [-> HF]. split; [done|by constructor].
  - exists (S k). split; [cbn; lia|]. by rewrite H2.
Qed.

Lemma launch_nodes_exec t n args tr r :
  launcher t = SafeNodeLauncher → exec (launch_nodes n args t) tr r →
  (r = Ok (set_node_count (node_count t + n) t, Ok tt) ∧ processes tr = node_process t args <$> launch_range t n ∧
   Forall (λ i, (rpc_port i ≤ 65535)%N) (launch_range t n)) ∨
  ∃ e k, r = Ok (t, Err e) ∧ k < length (launch_range t n) ∧
    processes tr = node_process t args <$> take k (launch_range t n).
Proof.
  intros Hl. unfold launch_nodes. set (p := prog_fold _ _ _).
  assert (∀ tr r, exec p tr r → _) as Hp by (intros t1 r1; apply fold_processes; intros x t2 r2; by apply launch_node_exec).
  intros [(x & t1 & t2 & -> & H1 & H2)|[(e & -> & H1)|(w & -> & H1)]]%exec_bind_inv;
    apply exec_attempt_inv in H1 as (r0 & H1 & Hr); apply Hp in H1; destruct r0 as [[]|e0|w0]; try done; injection Hr as ->;
    apply exec_lift_inv in H2 as [-> ->]; rewrite app_nil_r; [by left|right].
  destruct H1 as (k & Hk & H1). by exists e0, k.
Qed.

Lemma launch_range_seq t n :
  launch_range t n = seq (if decide (node_count t = 0) then 2 else node_count t + 1)
                         (if decide (node_count t = 0) then n - 1 else n).
Proof. unfold launch_range. destruct (decide (node_count t = 0)); f_equal; lia. Qed.

#[global] Instance rpc_to_string_inj : Inj (=) (=) rpc_to_string.
Proof. intros p q H. unfold rpc_to_string in H. cbn [String.append] in H. injection H as H. exact (pretty_N_inj _ _ H). Qed.

#[global] Instance node_process_inj t args : Inj (=) (=) (node_process t args).
Proof.
  intros i j H. apply (f_equal snd) in H. unfold node_process, get_launch_args in H. cbn [snd res_ok default from_option id] in H.
  apply app_inj_1 in H as [_ H]; [|by destruct (flamegraph_mode t)].
  apply app_inv_head, app_inj_1 in H as [H _]; [|done].
  assert (rpc_to_string (rpc_port i) = rpc_to_string (rpc_port j)) as E
    by exact (f_equal (λ l, default "" (l !! 1)) H).
  apply (inj rpc_to_string) in E. unfold rpc_port in E. lia.
Qed.



(** The first operation of an execution. *)
Tactic Notation "call_inv" hyp(H) ident(a) ident(t) :=
  lazymatch type of H with
  | exec (call ?op ≫= ?k) _ _ => apply (exec_vis_inv (Ans:=TestnetAns) op k) in H; destruct H as (a & t & -> & H)
  end.
(** *** Building a testnet *)

(** The directories among the entries of one. *)
Definition dirs_in (entries : list (option bool)) : nat := length (filter (λ e, e = Some true) entries).

Lemma count_dirs_Ok entries tr n : exec (count_dirs entries) tr (Ok n) → tr = [] ∧ n = dirs_in entries.
Proof.
  apply (exec_fold_Ok (λ seen t c, t = [] ∧ c = dirs_in seen)); [|done].
  intros seen t c e t' c' [-> ->] _ He. apply exec_bind_Ok in He as (d & t1 & t2 & -> & [-> H1]%exec_lift_inv & He).
  apply exec_lift_inv in He as [-> [= ->]]. destruct e as [d'|]; [|done]. injection H1 as ->.
  split; [done|]. unfold dirs_in. rewrite filter_app, length_app.
  destruct d'; [rewrite filter_cons_True by done|rewrite filter_cons_False by done]; rewrite filter_nil; cbn; lia.
Qed.

(** The testnet over a directory, and how many nodes it found there. *)
Lemma build_Ok b tr t :
  exec (build b) tr (Ok t) →
  launcher t = SafeNodeLauncher ∧ rpc_client t = SafeRpcClient ∧
  node_bin_path t = default (path_of SAFENODE_BIN_NAME) (tb_node_bin_path b) ∧
  flamegraph_mode t = tb_flamegraph_mode b ∧
  ((existT (Exists (nodes_dir_path t)) false ∈ tr ∧ node_count t = 0) ∨
   ∃ entries, existT (ReadDir (nodes_dir_path t)) (Some entries) ∈ tr ∧ node_count t = dirs_in entries).
Proof.
  unfold build, Testnet_new. intros He.
  call_inv He dd t1. cbv zeta in He.
  apply exec_bind_Ok in He as (dir & t2 & t3 & -> & H1 & He).
  apply exec_bind_Ok in He as ([] & t4 & t5 & -> & _ & He).
  call_inv He ex t6.
  apply exec_bind_Ok in He as (n & t7 & t8 & -> & Hn & He).
  apply exec_lift_inv in He as [-> [= ->]]. cbn [launcher rpc_client node_bin_path flamegraph_mode nodes_dir_path node_count].
  split_and!; try done. destruct ex.
  - call_inv Hn r t9. apply exec_bind_Ok in Hn as (entries & t10 & t11 & -> & H2 & Hn).
    apply exec_lift_inv in H2 as [-> H2]. destruct r as [l|]; [|done]. injection H2 as ->.
    apply count_dirs_Ok in Hn as [-> ->]. right. exists l. split; [|done].
    set_solver.
  - apply exec_lift_inv in Hn as [-> [= ->]]. left. split; [|done].
    set_solver.
Qed.

(** *** The first node *)




(** *** The check *)






(** *** What the logs say *)

(** One thing that a line of a log says: of a process and its peer, or of an
    address it listens on. *)
Notation Observation := (PathBuf * option (Z * PeerId) * option Multiaddr)%type.

Definition observe (random : PathBuf → PeerId) (nodes : gmap PathBuf NodeInfo) (o : Observation) : gmap PathBuf NodeInfo :=
  update_node_info random nodes o.1.1 o.1.2 o.2.

Definition about (dir : PathBuf) (os : list Observation) : list Observation := filter (λ o, o.1.1 = dir) os.

(** What a list of observations of one directory amounts to. *)
Definition log_summary (random : PathBuf → PeerId) (dir : PathBuf) (os : list Observation) : NodeInfo :=
  let peer_info := last (omap (λ o, o.1.2) os) in
  {| pid := default 0%Z (fst <$> peer_info); peer_id := default (random dir) (snd <$> peer_info);
     listeners := omap snd os; log_path := dir |}.

Lemma log_summary_snoc random dir os pi li :
  log_summary random dir (os ++ [(dir, pi, li)]) =
  let s := log_summary random dir os in
  {| pid := default (pid s) (fst <$> pi); peer_id := default (peer_id s) (snd <$> pi);
     listeners := listeners s ++ option_list li; log_path := dir |}.
Proof.
  unfold log_summary. rewrite !omap_app. cbn. destruct pi as [[p id]|], li; cbn; by rewrite ?last_snoc, ?app_nil_r.
Qed.

Lemma observed_lookup random os dir :
  foldl (observe random) ∅ os !! dir =
  if decide (about dir os = []) then None else Some (log_summary random dir (about dir os)).
Proof.
  induction os as [|[[d pi] li] os IH] using rev_ind; [done|].
  rewrite foldl_app. cbn [foldl]. set (m := foldl _ _ _) in *. unfold observe, update_node_info. cbn [fst snd].
  unfold about in *. rewrite filter_app. destruct (decide (d = dir)) as [->|Hne].
  - rewrite lookup_insert_eq, (filter_cons_True _ (dir, pi, li)), filter_nil by done.
    rewrite decide_False by (by destruct (filter _ os)). rewrite log_summary_snoc. f_equal.
    assert (default {| pid := 0; peer_id := random dir; listeners := []; log_path := dir |} (m !! dir)
            = log_summary random dir (filter (λ o : Observation, o.1.1 = dir) os)) as ->.
    { rewrite IH. case_decide as Hnil; [by rewrite Hnil|done]. }
    by destruct pi as [[p id]|].
  - by rewrite lookup_insert_ne, filter_cons_False, filter_nil, app_nil_r.
Qed.

(** Of the directories with a pid the last one counts. *)
Lemma by_pid_lookup (nodes : gmap PathBuf NodeInfo) p info :
  by_pid nodes !! p = Some info →
  pid info = p ∧ ∃ dir, nodes !! dir = Some info ∧
    ∀ dir' info', nodes !! dir' = Some info' → pid info' = p → ord_le dir' dir.
Proof.
  unfold by_pid. assert (∀ l (m : gmap Z NodeInfo),
    StronglySorted (key_le (K:=PathBuf)) l → m = foldl (λ m x, <[pid x.2 := x.2]> m) ∅ l → m !! p = Some info →
    pid info = p ∧ ∃ dir, (dir, info) ∈ l ∧ ∀ dir' info', (dir', info') ∈ l → pid info' = p → ord_le dir' dir) as H.
  { intros l. induction l as [|[d i] l IH] using rev_ind; intros m Hs -> Hl; [cbn in Hl; by rewrite lookup_empty in Hl|].
    rewrite foldl_app in Hl. cbn in Hl. apply lookup_insert_Some in Hl as [[Hp <-]|[Hp Hl]].
    - split; [done|]. exists d. split; [apply elem_of_app; right; by left|].
      intros dir' info' [Hin|Hin%list_elem_of_singleton]%elem_of_app _; [|by injection Hin as -> ->].
      refine (StronglySorted_app_1_elem_of key_le l [(d, i)] (dir', info') (d, i) Hs Hin _); by left.
    - assert (StronglySorted key_le l) as Hs1 by by eapply StronglySorted_app_1_l.
      destruct (IH _ Hs1 eq_refl Hl) as (Hpid & dir & Hin & Hmax).
      split; [done|]. exists dir. split; [apply elem_of_app; by left|].
      intros dir' info' [Hin'|Hin'%list_elem_of_singleton]%elem_of_app Hp'; [by eapply Hmax|]. injection Hin' as -> ->. done. }
  intros Hl. destruct (H (bmap_iter nodes) _ (StronglySorted_merge_sort key_le _) eq_refl Hl) as (Hp & dir & Hin & Hmax).
  split; [done|]. exists dir. split; [by apply elem_of_bmap_iter|].
  intros dir' info' Hd. by apply Hmax, elem_of_bmap_iter.
Qed.


(** The observations of one line, and of what was read. *)
Definition line_observations (dir : PathBuf) (line : string) : list Observation :=
  match node_captures line with
  | Some (c1, c2) =>
      match parse_u32 c1, peer_from_str c2 with Some p, Some id => [(dir, Some (p, id), None)] | _, _ => [] end
  | None => []
  end ++
  match listener_captures line with
  | Some c1 => match multiaddr_from_str c1 with Some a => [(dir, None, Some a)] | None => [] end
  | None => []
  end.

Definition read_observations (e : Effects.Event TestnetAns) : list Observation :=
  match e with
  | existT op a =>
      match op return TestnetAns op → list Observation with
      | ReadLines p => λ a, match a with Some lines => concat (line_observations (path_pop p) <$> lines) | None => [] end
      | _ => λ _, []
      end a
  end.
Definition observations (tr : Trace) : list Observation := concat (read_observations <$> tr).

Lemma observations_app t1 t2 : observations (t1 ++ t2) = observations t1 ++ observations t2.
Proof. unfold observations. by rewrite fmap_app, concat_app. Qed.

Lemma log_line_Ok random dir nodes line tr nodes' :
  exec (log_line random dir nodes line) tr (Ok nodes') →
  tr = [] ∧ nodes' = foldl (observe random) nodes (line_observations dir line).
Proof.
  unfold log_line, line_observations. intros He. apply exec_bind_Ok in He as (m & t1 & t2 & -> & H1 & He).
  rewrite foldl_app.
  assert (t1 = [] ∧ m = foldl (observe random) nodes
    match node_captures line with
    | Some (c1, c2) =>
        match parse_u32 c1, peer_from_str c2 with Some p, Some id => [(dir, Some (p, id), None)] | _, _ => [] end
    | None => []
    end) as [-> <-].
  { destruct (node_captures line) as [[c1 c2]|]; [|by apply exec_lift_inv in H1 as [-> [= ->]]].
    destruct (parse_u32 c1), (peer_from_str c2); by apply exec_lift_inv in H1 as [-> [= ->]]. }
  destruct (listener_captures line) as [c1|]; [|by apply exec_lift_inv in He as [-> [= ->]]].
  destruct (multiaddr_from_str c1); by apply exec_lift_inv in He as [-> [= ->]].
Qed.

Lemma log_file_Ok random nodes p tr nodes' :
  exec (log_file random nodes p) tr (Ok nodes') → nodes' = foldl (observe random) nodes (observations tr).
Proof.
  unfold log_file. destruct (last (parts p)) as [name|]; [|by intros [-> [= ->]]%exec_lift_inv].
  destruct (String.prefix _ _); [|by intros [-> [= ->]]%exec_lift_inv]. intros He.
  call_inv He r t1. apply exec_bind_Ok in He as (lines & t2 & t3 & -> & [-> Hl]%exec_lift_inv & He).
  destruct r as [l|]; [|done]. injection Hl as ->.
  assert (t3 = [] ∧ nodes' = foldl (observe random) nodes (concat (line_observations (path_pop p) <$> l))) as [-> ->].
  { revert He. apply (exec_fold_Ok (λ seen t m, t = [] ∧ m = foldl (observe random) nodes (concat (line_observations (path_pop p) <$> seen))));
      [|done]. intros seen t m line t' m' [-> ->] _ [-> ->]%log_line_Ok. split; [done|].
    rewrite fmap_app, concat_app, foldl_app. cbn. by rewrite app_nil_r. }
  unfold observations. cbn. by rewrite app_nil_r.
Qed.

Lemma nodes_info_Ok random path tr nodes :
  exec (nodes_info_from_logs random path) tr (Ok nodes) → nodes = by_pid (foldl (observe random) ∅ (observations tr)).
Proof.
  unfold nodes_info_from_logs. intros He. call_inv He files t1.
  apply exec_bind_Ok in He as (m & t2 & t3 & -> & H1 & [-> [= ->]]%exec_lift_inv). f_equal.
  rewrite app_nil_r. change (_ :: t2) with ([existT (P:=TestnetAns) (WalkFiles path) files] ++ t2).
  rewrite observations_app. cbn [observations read_observations fmap list_fmap concat app].
  revert H1. apply (exec_fold_Ok (λ _ t m, m = foldl (observe random) ∅ (observations t))); [|done].
  intros seen t m0 p t' m' -> _ Hf%log_file_Ok. by rewrite observations_app, foldl_app.
Qed.

(** ** Properties *)

(** [launch_nodes] starts the nodes that follow those that exist, the
    genesis node counted when there are none, each with its own RPC port and
    in order, and no others.  If one of them cannot be started, those before it
    keep running and the count stays as it was, so that another call would
    start with the same ports again. *)
Theorem launch_nodes_exact t n args tr r :
  launcher t = SafeNodeLauncher → exec (launch_nodes n args t) tr r →
  let range := seq (if decide (node_count t = 0) then 2 else node_count t + 1)
                   (if decide (node_count t = 0) then n - 1 else n) in
  NoDup (node_process t args <$> range) ∧
  ((r = Ok (set_node_count (node_count t + n) t, Ok tt) ∧ processes tr = node_process t args <$> range ∧
    Forall (λ i, rpc_port i ≤ 65535)%N range) ∨
   ∃ e k, r = Ok (t, Err e) ∧ k < length range ∧ processes tr = node_process t args <$> take k range).
Proof.
  intros Hl He. cbn zeta. rewrite <- launch_range_seq. split; [apply (NoDup_fmap_2 _), NoDup_seq|]. by apply launch_nodes_exec.
Qed.


(** [join_network] launches the number of nodes asked for only where the
    directory of nodes is missing or has no directories; joining an existing
    network launches one more. *)
Theorem join_network_one_more bin ms n args tr :
  exec (join_network bin ms n args) tr (Ok tt) →
  ∃ dir,
    (existT (Exists dir) false ∈ tr ∧ length (processes tr) = n) ∨
    ∃ entries, existT (ReadDir dir) (Some entries) ∈ tr ∧
      length (processes tr) = if decide (dirs_in entries = 0) then n else n + 1.
Proof.
  unfold join_network. intros He. apply exec_bind_Ok in He as (t & b1 & b2 & -> & Hb & He).
  pose proof (build_starts_none _ _ _ Hb) as Hb0. apply build_Ok in Hb as (Hl & _ & _ & _ & Hcount).
  apply exec_bind_Ok in He as ([t' r] & l1 & l2 & -> & Hln & He). apply exec_map_err_Ok in Hln.
  apply exec_lift_inv in He as [-> Hr]. cbn in Hr. subst r.
  destruct (launch_nodes_exec _ _ _ _ _ Hl Hln) as [([= ->] & Hps & _)|(e & k & [=] & _)]. rewrite launch_range_seq in Hps.
  exists (nodes_dir_path t). rewrite !processes_app, Hb0, Hps. change (processes []) with (@nil Process).
  rewrite app_nil_l, !app_nil_r, length_fmap, length_seq. destruct Hcount as [[Hin H0]|(entries & Hin & H0)]; rewrite H0.
  - left. split; [apply elem_of_app; by left|]. rewrite decide_True by done. lia.
  - right. exists entries. split; [apply elem_of_app; by left|]. destruct (decide (dirs_in entries = 0)); lia.
Qed.

(** the nodes that the logs name: for each pid the last directory, in the
    order of paths, whose log gives this pid; with the last process line of the
    log and all the addresses it names, in order. *)
Theorem nodes_from_logs_exact random path tr nodes p info :
  exec (nodes_info_from_logs random path) tr (Ok nodes) → nodes !! p = Some info →
  let log dir := about dir (observations tr) in
  pid info = p ∧ ∃ dir, log dir ≠ [] ∧ info = log_summary random dir (log dir) ∧
    ∀ dir', log dir' ≠ [] → pid (log_summary random dir' (log dir')) = p → ord_le dir' dir.
Proof.
  intros ->%nodes_info_Ok Hp. apply by_pid_lookup in Hp as (Hpid & dir & Hd & Hmax). split; [done|].
  rewrite observed_lookup in Hd. case_decide as Hdir; [done|]. injection Hd as <-. exists dir. split_and!; [done|done|].
  intros dir' Hdir' Hp'. eapply Hmax; [|exact Hp']. by rewrite observed_lookup, decide_False.
Qed.

End Launching.

(** ** The properties at concrete values *)

(** Peers are one character, one address has a text, and the lines of a log are
    [N<pid><peer>]. *)
#[global] Instance toy_testnet_crates : TestnetCrates := {|
  peer_to_string := λ p : PeerId, String (Ascii.ascii_of_byte p) EmptyString;
  peer_from_str := λ s, match s with String a EmptyString => Some (Ascii.byte_of_ascii a : PeerId) | _ => None end;
  multiaddr_from_str := λ s, if decide (s = "t") then Some [Tcp 1] else None;
  node_captures := λ s, match s with
                        | String n (String a rest) =>
                            if decide (Ascii.byte_of_ascii n = Byte.x4e) then Some (String a EmptyString, rest) else None
                        | _ => None
                        end;
  listener_captures := λ _, None |}.

Definition toy_bin : PathBuf := path_of "safenode".
Definition toy_log (d : string) : PathBuf := {| absolute := true; parts := ["data"; "safe"; "node"; d; "safenode.log"] |}.

(** A machine where everything works, with [dirs] directories of nodes, and two
    nodes that log and answer. *)
Definition toy_machine (dirs : option (list (option bool))) (u : unit) (op : TestnetOp) : unit * TestnetAns op :=
  (u, match op return TestnetAns op with
      | DataDir => Some {| absolute := true; parts := ["data"] |}
      | EnvVar _ => None
      | Exists _ => match dirs with Some _ => true | None => false end
      | ReadDir _ => dirs
      | RemoveDirAll _ => Removed
      | WalkFiles _ => [toy_log "n1"; toy_log "n2"]
      | ReadLines p => Some (if decide (p = toy_log "n1") then ["N1a"] else ["N2b"])
      | Spawn _ _ => true
      | CommandOutput _ _ _ _ => Some (true, "")
      | SleepMs _ => tt
      | NodeInfoRpc port =>
          Some (if decide (port = 12001)%N then {| ni_peer_id := peer_to_bytes (Byte.x61 : PeerId); ni_log_dir := ""; ni_pid := 1; ni_bin_version := ""; ni_uptime_secs := 0 |}
                else {| ni_peer_id := peer_to_bytes (Byte.x62 : PeerId); ni_log_dir := ""; ni_pid := 2; ni_bin_version := ""; ni_uptime_secs := 0 |})
      | NetworkInfoRpc _ => Some {| nw_connected_peers := []; nw_listeners := [] |}
      end).

Definition toy_random (p : PathBuf) : PeerId := Byte.x00.

Definition toy_testnet : Testnet :=
  {| node_bin_path := toy_bin; node_launch_interval := 0; nodes_dir_path := path_of "nodes"; flamegraph_mode := false;
     node_count := 3; launcher := SafeNodeLauncher; rpc_client := SafeRpcClient |}.

Lemma launch_nodes_exact_witness :
  processes (run (toy_machine None) tt (launch_nodes 2 [] toy_testnet)).1 = node_process toy_testnet [] <$> [4; 5].
Proof.
  destruct (launch_nodes_exact toy_testnet 2 [] _ _ eq_refl (run_exec (toy_machine None) tt (launch_nodes 2 [] toy_testnet)))
    as [_ [(_ & H & _)|(e & k & H & _)]]; [exact H|].
  exfalso. assert (match (run (toy_machine None) tt (launch_nodes 2 [] toy_testnet)).2 with Ok (_, Ok _) => true | _ => false end
                   = true) as Hok by (vm_compute; reflexivity).
  rewrite H in Hok. discriminate Hok.
Defined.



Definition toy_join_run : list (Effects.Event TestnetAns) * Res TestnetError unit :=
  run (toy_machine (Some [Some true; Some false; Some true])) tt (join_network toy_bin 0 1 []).

(** Two nodes are there, one is to join, two are launched. *)
Lemma join_network_one_more_witness : length (processes toy_join_run.1) = 2 ∧
  ∃ dir, (existT (Exists dir) false ∈ toy_join_run.1 ∧ length (processes toy_join_run.1) = 1) ∨
    ∃ entries, existT (ReadDir dir) (Some entries) ∈ toy_join_run.1 ∧
      length (processes toy_join_run.1) = if decide (dirs_in entries = 0) then 1 else 2.
Proof.
  split; [vm_compute; reflexivity|].
  assert (is_ok toy_join_run.2 = true) as Hok by (vm_compute; reflexivity).
  destruct (toy_join_run.2) as [[]|e|w] eqn:E; [|discriminate Hok..].
  pose proof (run_exec (toy_machine (Some [Some true; Some false; Some true])) tt (join_network toy_bin 0 1 [])) as He.
  fold toy_join_run in He. rewrite E in He.
  exact (join_network_one_more toy_bin 0 1 [] _ He).
Defined.

Definition toy_logs_run : list (Effects.Event TestnetAns) * Res TestnetError (gmap Z NodeInfo) :=
  run (toy_machine None) tt (nodes_info_from_logs toy_random (path_of "nodes")).

Lemma nodes_from_logs_exact_witness :
  ∃ nodes info, exec (nodes_info_from_logs toy_random (path_of "nodes")) toy_logs_run.1 (Ok nodes) ∧
    nodes !! 2%Z = Some info ∧ pid info = 2%Z ∧ ∃ dir, info = log_summary toy_random dir (about dir (observations toy_logs_run.1)).
Proof.
  pose proof (run_exec (toy_machine None) tt (nodes_info_from_logs toy_random (path_of "nodes"))) as He.
  fold toy_logs_run in He.
  assert (is_ok toy_logs_run.2 = true) as Hok by (vm_compute; reflexivity).
  destruct (toy_logs_run.2) as [nodes|e|w] eqn:E; [|discriminate Hok..].
  assert (is_Some (nodes !! 2%Z)) as [info Hinfo].
  { assert (match toy_logs_run.2 with Ok m => bool_decide (is_Some (m !! 2%Z)) | _ => false end = true) as H
      by (vm_compute; reflexivity).
    rewrite E in H. by apply bool_decide_eq_true in H. }
  exists nodes, info. destruct (nodes_from_logs_exact toy_random _ _ nodes 2 info He Hinfo) as (Hp & dir & _ & Hd & _).
  split_and!; [exact He|exact Hinfo|exact Hp|]. exists dir. exact Hd.
Defined.
