(* ===== verification/Safenode.v ===== *)
(** * safenode: the node's binary and its RPC service

    - the arguments, the key and directory of a node, its start, the control
      channel and the restart: src/sn_node/src/bin/safenode/main.rs;
    - [init_logging]: of main.rs, over that of src/sn_logging/src/lib.rs;
    - the RPC service: src/sn_node/src/bin/safenode/rpc.rs;
    - the bytes of an event: src/sn_node/src/event.rs.

    [main] is a program over the operations of the process ([SnOp]).  The node
    itself ([Node::run]) is one operation here: what it does is in
    NodeSystem.v.  The loop of [start_node], the task that monitors the node's
    events and the handlers of the RPC service meet in the control channel:
    [ctrl_next] is one step of one of them, [control_loop] the loop of
    [start_node] against the messages it receives.  [sn_fs_step] says what the
    operations do to the files.

    The main theorems: a node that is started again over its directory has the
    same key, and a key that was written in part stops every later start; a new
    process is started only where an RPC request asked for a restart, and the
    first message on the control channel decides; the testnet's queries read
    what the RPC service answers. *)

From S2P Require Import Prelude Deps ToyCrates Registers Protocol Effects Network NodeApi NodeSystem Startup Testnet.
From stdpp Require Import base tactics list gmap strings pretty.
From Stdlib Require Import ZArith NArith Strings.Byte Lia.

Open Scope string_scope.
Open Scope list_scope.
Open Scope nat_scope.

(** ** libp2p's ed25519 keys: a secret key has 32 bytes *)

Class Ed25519Crate `{KadCrate} := {
  Ed25519Secret : Type;
  Keypair : Type;
  secret_bytes : Ed25519Secret → bytes;
  keypair_of : Ed25519Secret → Keypair;
  ed25519_from_bytes : bytes → option Keypair;
  keypair_peer_id : Keypair → PeerId;
}.

Class Ed25519Laws `{Ed25519Crate} : Prop := {
  ed25519_round : ∀ s, ed25519_from_bytes (secret_bytes s) = Some (keypair_of s);
  ed25519_len : ∀ b k, ed25519_from_bytes b = Some k → length b = 32;
}.

Lemma secret_len `{Ed25519Laws} s : length (secret_bytes s) = 32.
Proof. eapply ed25519_len, ed25519_round. Qed.

(** ** The arguments *)

Inductive IpAddr := V4 (a b c d : Z) | V6 (segments : list Z).
Record SocketAddr := { sa_ip : IpAddr; sa_port : Z }.

Inductive LogOutputDestArg := LOA_Stdout | LOA_DataDir | LOA_Path (p : PathBuf).

Definition LogOutputDestArg_to_string (d : LogOutputDestArg) : string :=
  match d with LOA_Stdout => "stdout" | LOA_DataDir => "data-dir" | LOA_Path p => path_to_str p end.

Definition parse_log_output (val : string) : LogOutputDestArg :=
  if decide (val = "stdout") then LOA_Stdout
  else if decide (val = "data-dir") then LOA_DataDir
  else LOA_Path (path_from val).

Definition LogOutputDest_to_string (d : LogOutputDest) : string :=
  match d with LOD_Stdout => "stdout" | LOD_Path p => path_to_str p end.

(** ** Control messages *)

(** Why a node stops.  The texts of the reports are left out. *)
Inductive StopCause :=
| NodeEventsChannelClosed
| NodeBehindNat
| StoppedByRpc (remote_addr : option SocketAddr).

(** Delays are in milliseconds. *)
Inductive NodeCtrl :=
| Ctrl_Stop (delay : N) (cause : StopCause)
| Ctrl_Restart (delay : N)
| Ctrl_Update (delay : N).

Inductive SnError :=
| SNE_NoDataDir
| SNE_Io
| SNE_KeyFormat
| SNE_KeyUnreadable
| SNE_KeyNotCreated
| SNE_Logging (e : LoggingError)
| SNE_Runtime
| SNE_Node
| SNE_Stopped (cause : StopCause)
| SNE_CtrlClosed.

Section Safenode.
Context `{KD : KadCrate, ED : !Ed25519Crate, TC : !TestnetCrates}.

Record Opt := {
  o_log_output_dest : LogOutputDestArg;
  o_log_format : option LogFormat;
  o_root_dir : option PathBuf;
  o_port : Z;
  o_ip : IpAddr;
  o_peers : list Multiaddr;
  o_rpc : option SocketAddr;
  o_local : bool;
}.

(** ** The operations of the process *)

Inductive KeyRead := Contents (b : bytes) | NoFile | Unreadable.

(** What runs besides [start_node]. *)
Inductive BackgroundTask :=
| MonitorNodeEvents
| RpcService (addr : SocketAddr) (log_dir : string).

(** [OpenAppender] opens the rotating log file of a directory. *)
Inductive SnOp :=
| SnDataDir
| SnEnvVar (name : string)
| SnCreateDirAll (p : PathBuf)
| ReadKeyFile (p : PathBuf)
| CreateNewFile (p : PathBuf)
| SnCreateFile (p : PathBuf)
| WriteAll (p : PathBuf) (b : bytes)
| GenerateSecret
| OpenAppender (p : PathBuf)
| InstallLogger (dest : LogOutputDest) (format : LogFormat) (targets : list (string * Level))
| NewRuntime
| RunNode (keypair : Keypair) (addr : SocketAddr) (initial_peers : list Multiaddr) (local : bool) (root_dir : PathBuf)
| ProcessId
| SpawnTask (t : BackgroundTask)
| SnSleep (millis : N)
| ShutdownTimeout (secs : nat)
| CurrentExe
| ProcessArgs
| SpawnProcess (exe : PathBuf) (args : list string).

Definition SnAns (op : SnOp) : Type :=
  match op with
  | SnDataDir => option PathBuf
  | SnEnvVar _ => option string
  | SnCreateDirAll _ | CreateNewFile _ | SnCreateFile _ | WriteAll _ _ => bool
  | ReadKeyFile _ => KeyRead
  | GenerateSecret => Ed25519Secret
  | OpenAppender _ | InstallLogger _ _ _ | SpawnTask _ | SnSleep _ | ShutdownTimeout _ => unit
  | NewRuntime | RunNode _ _ _ _ _ | SpawnProcess _ _ => bool
  | ProcessId => N
  | CurrentExe => option PathBuf
  | ProcessArgs => list string
  end.

Notation SnProg := (Prog SnAns SnError).

(** [?] on the result of an operation. *)
Definition sn_try (op : SnOp) (to_ok : SnAns op → bool) (e : SnError) : SnProg unit :=
  r ← call op; if to_ok r then lift (Ok tt) else lift (Err e).

(** ** The key and the directory *)

Definition create_secret_key_file (p : PathBuf) : SnProg unit := sn_try (CreateNewFile p) id SNE_KeyNotCreated.

Definition keypair_from_path (p : PathBuf) : SnProg Keypair :=
  r ← call (ReadKeyFile p);
  match r with
  | Contents key => lift (ok_or (ed25519_from_bytes key) SNE_KeyFormat)
  | NoFile =>
      secret_key ← call GenerateSecret;
      _ ← create_secret_key_file p;
      _ ← sn_try (WriteAll p (secret_bytes secret_key)) id SNE_Io;
      lift (Ok (keypair_of secret_key))
  | Unreadable => lift (Err SNE_KeyUnreadable)
  end.

Definition get_root_dir (peer_id : PeerId) : SnProg PathBuf :=
  dir ← call SnDataDir;
  dir ← lift (ok_or dir SNE_NoDataDir);
  lift (Ok (path_join (path_join (path_join dir "safe") "node") (peer_to_string peer_id))).

Definition secret_key_path (dir : PathBuf) : PathBuf := path_join dir "secret-key".

Definition get_root_dir_and_keypair (root_dir : option PathBuf) : SnProg (PathBuf * Keypair) :=
  match root_dir with
  | Some dir =>
      _ ← sn_try (SnCreateDirAll dir) id SNE_Io;
      keypair ← keypair_from_path (secret_key_path dir);
      lift (Ok (dir, keypair))
  | None =>
      secret_key ← call GenerateSecret;
      let keypair := keypair_of secret_key in
      dir ← get_root_dir (keypair_peer_id keypair);
      _ ← sn_try (SnCreateDirAll dir) id SNE_Io;
      _ ← create_secret_key_file (secret_key_path dir);
      _ ← sn_try (WriteAll (secret_key_path dir) (secret_bytes secret_key)) id SNE_Io;
      lift (Ok (dir, keypair))
  end.

(** ** Logging *)

(** [fmt_layer] and [init_logging] of sn_logging. *)
Definition open_log_dir (output_dest : LogOutputDest) : SnProg unit :=
  match output_dest with
  | LOD_Stdout => lift (Ok tt)
  | LOD_Path path => _ ← sn_try (SnCreateDirAll path) id SNE_Io; call (OpenAppender path)
  end.

Definition sn_init_logging (default_targets : list (string * Level)) (output_dest : LogOutputDest) (format : LogFormat)
    : SnProg unit :=
  _ ← open_log_dir output_dest;
  sn_log ← call (SnEnvVar "SN_LOG");
  targets ← lift (map_err SNE_Logging (logging_targets sn_log default_targets));
  _ ← call (InstallLogger output_dest format targets);
  lift (Ok tt).

Definition node_logging_targets : list (string * Level) :=
  [("safenode", INFO); ("sn_transfers", INFO); ("sn_networking", INFO); ("sn_node", INFO)].

Definition init_logging (log_output_dest : LogOutputDestArg) (peer_id : PeerId) (format : option LogFormat) : SnProg string :=
  output_dest ← (match log_output_dest with
                 | LOA_Stdout => lift (Ok LOD_Stdout)
                 | LOA_DataDir => dir ← get_root_dir peer_id; lift (Ok (LOD_Path (path_join dir "logs")))
                 | LOA_Path path => lift (Ok (LOD_Path path))
                 end : SnProg LogOutputDest);
  _ ← sn_init_logging node_logging_targets output_dest (default LF_Default format);
  lift (Ok (LogOutputDest_to_string output_dest)).

(** ** Starting the node *)

(** One message of the control channel: the loop goes on ([None]), or it ends
    with a result after a delay. *)
Definition control_round (msg : NodeCtrl) : option (N * Res SnError unit) :=
  match msg with
  | Ctrl_Restart delay => Some (delay, Ok tt)
  | Ctrl_Stop delay cause => Some (delay, Err (SNE_Stopped cause))
  | Ctrl_Update _ => None
  end.

(** The loop over the messages that the channel gives until it is closed. *)
Fixpoint control_loop (msgs : list NodeCtrl) : SnProg unit :=
  match msgs with
  | [] => lift (Err SNE_CtrlClosed)
  | msg :: msgs =>
      match control_round msg with
      | Some (delay, r) => _ ← call (SnSleep delay); lift r
      | None => control_loop msgs
      end
  end.

Definition pid_file (dir : PathBuf) : PathBuf := path_join dir "safenode.pid".

Definition start_node (msgs : list NodeCtrl) (keypair : Keypair) (node_socket_addr : SocketAddr) (peers : list Multiaddr)
    (rpc : option SocketAddr) (local : bool) (log_output_dest : string) (root_dir : PathBuf) : SnProg unit :=
  _ ← sn_try (RunNode keypair node_socket_addr peers local root_dir) id SNE_Node;
  pid ← call ProcessId;
  _ ← sn_try (SnCreateFile (pid_file root_dir)) id SNE_Io;
  _ ← sn_try (WriteAll (pid_file root_dir) (String.list_byte_of_string (pretty (pid : N)))) id SNE_Io;
  _ ← call (SpawnTask MonitorNodeEvents);
  _ ← (match rpc with
       | Some addr => call (SpawnTask (RpcService addr log_output_dest))
       | None => lift (Ok tt)
       end : SnProg unit);
  control_loop msgs.

(** [unwrap] on the executable, and the slice [args[1..]] out of range without
    arguments; a process that cannot be started is only logged. *)
Definition start_new_node_process : SnProg unit :=
  exe ← call CurrentExe;
  match exe with
  | None => lift (Panic ExplicitPanic)
  | Some current_exe =>
      args ← call ProcessArgs;
      match (args : list string) with
      | [] => lift (Panic SliceOutOfBounds)
      | _ :: args => _ ← call (SpawnProcess current_exe args); lift (Ok tt)
      end
  end.

(** [main] of a binary built with or without the feature [local-discovery]. *)
Definition safenode_main (local_discovery : bool) (msgs : list NodeCtrl) (opt : Opt) : SnProg unit :=
  let node_socket_addr := {| sa_ip := o_ip opt; sa_port := o_port opt |} in
  x ← get_root_dir_and_keypair (o_root_dir opt);
  let '(root_dir, keypair) := x in
  log_output_dest ← init_logging (o_log_output_dest opt) (keypair_peer_id keypair) (o_log_format opt);
  initial_peers ← (if local_discovery then lift (Ok (o_peers opt))
                   else
                     safe_peers ← call (SnEnvVar "SAFE_PEERS");
                     lift (Ok (with_safe_peers multiaddr_from_str false safe_peers (o_peers opt))) : SnProg (list Multiaddr));
  _ ← sn_try NewRuntime id SNE_Runtime;
  _ ← start_node msgs keypair node_socket_addr initial_peers (o_rpc opt) (o_local opt) log_output_dest root_dir;
  _ ← call (ShutdownTimeout 2);
  start_new_node_process.

(** ** The control channel *)

(** The broadcast receiver lags behind, or its channel is closed. *)
Inductive RecvError := Lagged (n : N) | Closed.

Context `{BLS : BlsCrate, XN : XorNameCrate, CR : CrdtsCrate}.
Context `{TK : TokenCrate, DI : DbcIdCrate, SD : !SnDbcCrate}.

(** What [monitor_node_events] sends for what it receives. *)
Definition monitor_round (received : RecvError + NodeEvent) : option NodeCtrl :=
  match received with
  | inr ConnectedToNetwork => None
  | inr ChannelClosed | inl Closed => Some (Ctrl_Stop 1000 NodeEventsChannelClosed)
  | inr BehindNat => Some (Ctrl_Stop 1000 NodeBehindNat)
  | inr _ => None
  | inl (Lagged _) => None
  end.

(** *** rpc.rs *)

(** Requests with a delay; those to stop come from an address, if it is known. *)
Inductive CtrlRequest :=
| StopRequest (remote_addr : option SocketAddr) (delay_millis : N)
| RestartRequest (delay_millis : N)
| UpdateRequest (delay_millis : N).

Inductive CtrlOp := SendCtrl (msg : NodeCtrl).
Definition CtrlAns (op : CtrlOp) : Type := match op with SendCtrl _ => bool end.

(** The status [Internal]. *)
Inductive Status := Internal.

Definition send_ctrl (msg : NodeCtrl) : Prog CtrlAns Status unit :=
  ok ← call (SendCtrl msg); if (ok : bool) then lift (Ok tt) else lift (Err Internal).

Definition rpc_stop (remote_addr : option SocketAddr) (delay_millis : N) : Prog CtrlAns Status unit :=
  send_ctrl (Ctrl_Stop delay_millis (StoppedByRpc remote_addr)).
Definition rpc_restart (delay_millis : N) : Prog CtrlAns Status unit := send_ctrl (Ctrl_Restart delay_millis).
Definition rpc_update (delay_millis : N) : Prog CtrlAns Status unit := send_ctrl (Ctrl_Update delay_millis).

Definition ctrl_handler (req : CtrlRequest) : Prog CtrlAns Status unit :=
  match req with
  | StopRequest remote_addr delay => rpc_stop remote_addr delay
  | RestartRequest delay => rpc_restart delay
  | UpdateRequest delay => rpc_update delay
  end.

(** The struct behind the service, with what the process knows. *)
Record SafeNodeRpcService := {
  svc_log_dir : string;
  svc_peer_id : PeerId;
  svc_pid : N;
  svc_bin_version : string;
}.

Definition node_info (svc : SafeNodeRpcService) (elapsed_secs : N) : NodeInfoResponse :=
  {| ni_peer_id := peer_to_bytes (svc_peer_id svc); ni_pid := Z.of_N (svc_pid svc); ni_log_dir := svc_log_dir svc;
     ni_bin_version := svc_bin_version svc; ni_uptime_secs := elapsed_secs |}.

(** [unwrap] on what the node answers.  The text of an address is libp2p's. *)
Definition network_info (multiaddr_to_string : Multiaddr → string) : NetProg Status NetworkInfoResponse :=
  state ← expect RunningNode_get_swarm_local_state;
  lift (Ok {| nw_connected_peers := peer_to_bytes <$> sls_connected_peers state;
              nw_listeners := multiaddr_to_string <$> sls_listeners state |}).

Definition record_addresses : NetProg Status (list bytes) :=
  addresses ← expect RunningNode_get_all_record_addresses;
  lift (Ok (as_bytes <$> (addresses : list NetworkAddress))).

(** The events that a client of the service is sent: the stream ends with the
    first error of the receiver, or when the client is gone. *)
Inductive StreamOp := SendEvent (event : bytes).
Definition StreamAns (op : StreamOp) : Type := match op with SendEvent _ => bool end.

Definition event_to_bytes `{Rmp NodeEvent} (e : NodeEvent) : option bytes := rmp_to_vec e.
Definition event_from_bytes `{Rmp NodeEvent} (b : bytes) : option NodeEvent := rmp_from_slice b.

Fixpoint node_events_stream `{Rmp NodeEvent} (received : list (RecvError + NodeEvent)) : Prog StreamAns Status unit :=
  match received with
  | inr event :: received =>
      match event_to_bytes event with
      | Some event_bytes =>
          ok ← call (SendEvent event_bytes);
          if (ok : bool) then node_events_stream received else lift (Ok tt)
      | None => node_events_stream received
      end
  | inl _ :: _ | [] => lift (Ok tt)
  end.

(** *** The tasks around the channel

    It holds five messages.  [start_node] owns the receiver, so a task that
    sends after it returned gets an error.  The senders: the monitor's, and
    either the RPC service's or, without a service, one that [start_node]
    keeps. *)

Definition CTRL_CAPACITY : nat := 5.

Inductive Monitor := Listening | Sending (msg : NodeCtrl) | MonitorEnded.
Inductive Service := NoService | Serving | ServiceEnded.
Inductive MainLoop := Waiting | Sleeping (delay : N) (r : Res SnError unit) | Returned (r : Res SnError unit).

(** The last three fields are the history: what the monitor received, the
    requests to the service, and the messages sent, in order. *)
Record CtrlState := {
  cs_queue : list NodeCtrl;
  cs_monitor : Monitor;
  cs_service : Service;
  cs_handlers : list (Prog CtrlAns Status unit);
  cs_main : MainLoop;
  cs_events : list (RecvError + NodeEvent);
  cs_requests : list CtrlRequest;
  cs_sent : list NodeCtrl;
}.

Definition ctrl_start (rpc : bool) : CtrlState :=
  {| cs_queue := []; cs_monitor := Listening; cs_service := if rpc then Serving else NoService; cs_handlers := [];
     cs_main := Waiting; cs_events := []; cs_requests := []; cs_sent := [] |}.

Definition receiver_alive (m : MainLoop) : bool := match m with Returned _ => false | _ => true end.

(** A send on the channel: it waits for room, and fails without the receiver. *)
Definition channel_send (msg : NodeCtrl) (s : CtrlState) : option (CtrlState * bool) :=
  if receiver_alive (cs_main s) then
    if decide (length (cs_queue s) < CTRL_CAPACITY) then
      Some ({| cs_queue := cs_queue s ++ [msg]; cs_monitor := cs_monitor s; cs_service := cs_service s;
               cs_handlers := cs_handlers s; cs_main := cs_main s; cs_events := cs_events s;
               cs_requests := cs_requests s; cs_sent := cs_sent s ++ [msg] |}, true)
    else None
  else Some (s, false).

Definition set_monitor (m : Monitor) (s : CtrlState) : CtrlState :=
  {| cs_queue := cs_queue s; cs_monitor := m; cs_service := cs_service s; cs_handlers := cs_handlers s;
     cs_main := cs_main s; cs_events := cs_events s; cs_requests := cs_requests s; cs_sent := cs_sent s |}.
Definition set_handlers (h : list (Prog CtrlAns Status unit)) (s : CtrlState) : CtrlState :=
  {| cs_queue := cs_queue s; cs_monitor := cs_monitor s; cs_service := cs_service s; cs_handlers := h;
     cs_main := cs_main s; cs_events := cs_events s; cs_requests := cs_requests s; cs_sent := cs_sent s |}.
Definition set_main (q : list NodeCtrl) (m : MainLoop) (s : CtrlState) : CtrlState :=
  {| cs_queue := q; cs_monitor := cs_monitor s; cs_service := cs_service s; cs_handlers := cs_handlers s;
     cs_main := m; cs_events := cs_events s; cs_requests := cs_requests s; cs_sent := cs_sent s |}.

Inductive CtrlStep :=
| MonitorReceives (received : RecvError + NodeEvent)
| MonitorSends
| ServiceReceives (req : CtrlRequest)
| HandlerSends (i : nat)
| ServiceEnds
| MainReceives
| MainWakes.

(** Whether a sender is left. *)
Definition senders_left (s : CtrlState) : bool :=
  match cs_monitor s with MonitorEnded => false | _ => true end
  || match cs_service s with ServiceEnded => false | _ => true end
  || existsb (λ h, match h with Vis _ _ => true | Done _ => false end) (cs_handlers s).

Definition ctrl_next (c : CtrlStep) (s : CtrlState) : option CtrlState :=
  match c with
  | MonitorReceives received =>
      match cs_monitor s with
      | Listening =>
          Some {| cs_queue := cs_queue s;
                  cs_monitor := match monitor_round received with Some msg => Sending msg | None => Listening end;
                  cs_service := cs_service s; cs_handlers := cs_handlers s; cs_main := cs_main s;
                  cs_events := cs_events s ++ [received]; cs_requests := cs_requests s; cs_sent := cs_sent s |}
      | _ => None
      end
  | MonitorSends =>
      match cs_monitor s with
      | Sending msg =>
          x ← channel_send msg s;
          Some (set_monitor (if x.2 : bool then Listening else MonitorEnded) x.1)
      | _ => None
      end
  | ServiceReceives req =>
      match cs_service s with
      | Serving =>
          Some {| cs_queue := cs_queue s; cs_monitor := cs_monitor s; cs_service := cs_service s;
                  cs_handlers := cs_handlers s ++ [ctrl_handler req]; cs_main := cs_main s; cs_events := cs_events s;
                  cs_requests := cs_requests s ++ [req]; cs_sent := cs_sent s |}
      | _ => None
      end
  | HandlerSends i =>
      match cs_handlers s !! i with
      | Some (Vis op k) =>
          match op return (CtrlAns op → Prog CtrlAns Status unit) → option CtrlState with
          | SendCtrl msg => λ k,
              x ← channel_send msg s;
              Some (set_handlers (<[i := k x.2]> (cs_handlers s)) x.1)
          end k
      | _ => None
      end
  | ServiceEnds =>
      match cs_service s with
      | Serving =>
          Some {| cs_queue := cs_queue s; cs_monitor := cs_monitor s; cs_service := ServiceEnded;
                  cs_handlers := cs_handlers s; cs_main := cs_main s; cs_events := cs_events s;
                  cs_requests := cs_requests s; cs_sent := cs_sent s |}
      | _ => None
      end
  | MainReceives =>
      match cs_main s with
      | Waiting =>
          match cs_queue s with
          | msg :: queue =>
              Some (set_main queue (match control_round msg with Some (delay, r) => Sleeping delay r | None => Waiting end) s)
          | [] => if senders_left s then None else Some (set_main [] (Returned (Err SNE_CtrlClosed)) s)
          end
      | _ => None
      end
  | MainWakes => match cs_main s with Sleeping _ r => Some (set_main (cs_queue s) (Returned r) s) | _ => None end
  end.

Fixpoint ctrl_run (cs : list CtrlStep) (s : CtrlState) : option CtrlState :=
  match cs with [] => Some s | c :: cs => s' ← ctrl_next c s; ctrl_run cs s' end.

Inductive ctrl_reachable (rpc : bool) : CtrlState → Prop :=
| ctrl_init : ctrl_reachable rpc (ctrl_start rpc)
| ctrl_step s c s' : ctrl_reachable rpc s → ctrl_next c s = Some s' → ctrl_reachable rpc s'.

End Safenode.

Notation SnProg := (Prog SnAns SnError).

(** ** What the operations do to the files *)

(** The files by their paths. *)
Notation SnFs := (gmap PathBuf bytes).

Section Lemmas.
Context `{KD : KadCrate, ED : !Ed25519Crate, TC : !TestnetCrates}.

Notation SnEvent := (Effects.Event SnAns).

(** A file that is written was created before; a write that fails leaves a part
    of what was to be written.  The node keeps its records in other files. *)
Definition sn_fs_step (fs : SnFs) (ev : SnEvent) (fs' : SnFs) : Prop :=
  match ev with
  | existT op a =>
      match op return SnAns op → Prop with
      | ReadKeyFile p => λ a, fs' = fs ∧
          match a with Contents b => fs !! p = Some b | NoFile => fs !! p = None | Unreadable => True end
      | CreateNewFile p => λ ok, if ok : bool then fs !! p = None ∧ fs' = <[p := []]> fs else fs' = fs
      | SnCreateFile p => λ ok, if ok : bool then fs' = <[p := []]> fs else fs' = fs
      | WriteAll p b => λ ok,
          match fs !! p with
          | Some old => ∃ b1, b1 `prefix_of` b ∧ (ok = true → b1 = b) ∧ fs' = <[p := old ++ b1]> fs
          | None => ok = false ∧ fs' = fs
          end
      | _ => λ _, fs' = fs
      end a
  end.

Inductive sn_fs_run : SnFs → list SnEvent → SnFs → Prop :=
| fs_run_nil fs : sn_fs_run fs [] fs
| fs_run_cons fs ev fs1 tr fs2 : sn_fs_step fs ev fs1 → sn_fs_run fs1 tr fs2 → sn_fs_run fs (ev :: tr) fs2.

Lemma sn_fs_run_nil fs fs' : sn_fs_run fs [] fs' → fs' = fs.
Proof. intros H. by inversion H. Qed.

Lemma sn_fs_run_cons fs ev tr fs' : sn_fs_run fs (ev :: tr) fs' → ∃ fs1, sn_fs_step fs ev fs1 ∧ sn_fs_run fs1 tr fs'.
Proof. intros H. inversion H; subst. eauto. Qed.

Lemma sn_fs_run_app fs t1 t2 fs' : sn_fs_run fs (t1 ++ t2) fs' → ∃ fs1, sn_fs_run fs t1 fs1 ∧ sn_fs_run fs1 t2 fs'.
Proof.
  revert fs. induction t1 as [|ev t1 IH]; intros fs; [exists fs; split; [constructor|done]|].
  intros (fs1 & H1 & (fs2 & H2 & H3)%IH)%sn_fs_run_cons. exists fs2. split; [by econstructor|done].
Qed.

(** Which file an operation can change. *)
Definition op_writes (op : SnOp) : option PathBuf :=
  match op with CreateNewFile p | SnCreateFile p | WriteAll p _ => Some p | _ => None end.

Lemma sn_fs_step_other fs op a fs' p : sn_fs_step fs (existT op a) fs' → op_writes op ≠ Some p → fs' !! p = fs !! p.
Proof.
  destruct op; cbn; try (intros -> _; done); try (intros [-> _] _; done).
  - destruct a; [intros [_ ->]|intros ->]; intros Hne; [|done]. rewrite lookup_insert_ne; congruence.
  - destruct a; intros ->; intros Hne; [|done]. rewrite lookup_insert_ne; congruence.
  - destruct (fs !! p0) as [old|]; [|by intros [_ ->]].
    intros (b1 & _ & _ & ->) Hne. rewrite lookup_insert_ne; congruence.
Qed.

Lemma sn_fs_run_other fs tr fs' p :
  sn_fs_run fs tr fs' → (∀ op a, existT op a ∈ tr → op_writes op ≠ Some p) → fs' !! p = fs !! p.
Proof.
  induction 1 as [|fs [op a] fs1 tr fs2 H1 H2 IH]; intros Hw; [done|].
  rewrite IH by (intros ? ? ?; eapply Hw; by right). eapply sn_fs_step_other; [done|]. eapply Hw. by left.
Qed.

(** *** Operations with [?] *)

Tactic Notation "sn_call" hyp(H) ident(a) ident(t) :=
  lazymatch type of H with
  | exec (call ?op ≫= ?k) _ _ => apply (exec_vis_inv (Ans:=SnAns) op k) in H; destruct H as (a & t & -> & H)
  end.

Lemma sn_try_exec op ok e tr r :
  exec (sn_try op ok e) tr r → ∃ a, tr = [existT op a] ∧ r = if ok a then Ok tt else Err e.
Proof.
  unfold sn_try. intros He. sn_call He a t. exists a. by destruct (ok a); apply exec_lift_inv in He as [-> ->].
Qed.

(** The first of a sequence: it went through, or this is the end. *)
Lemma sn_try_bind {A} op ok e (k : unit → SnProg A) tr r :
  exec (sn_try op ok e ≫= k) tr r →
  (∃ a t, tr = existT op a :: t ∧ ok a = true ∧ exec (k tt) t r) ∨
  (∃ a, tr = [existT op a] ∧ ok a = false ∧ r = Err e).
Proof.
  intros [([] & t1 & t2 & -> & (a & -> & Ha)%sn_try_exec & H)|[(e' & -> & (a & -> & Ha)%sn_try_exec)|
    (w & -> & (a & -> & Ha)%sn_try_exec)]]%exec_bind_inv; destruct (ok a) eqn:E; simplify_eq; eauto 10.
Qed.

Lemma sn_try_Ok {A} op ok e (k : unit → SnProg A) tr x :
  exec (sn_try op ok e ≫= k) tr (Ok x) → ∃ a t, tr = existT op a :: t ∧ ok a = true ∧ exec (k tt) t (Ok x).
Proof. intros [?|(a & _ & _ & ?)]%sn_try_bind; [done|discriminate]. Qed.

Tactic Notation "sn_step" hyp(H) ident(a) ident(t) := apply sn_try_Ok in H as (a & t & -> & ?Ha & H).

(** *** The key *)

Lemma secret_key_path_ne d1 d2 : pid_file d1 ≠ secret_key_path d2.
Proof.
  unfold pid_file, secret_key_path, path_join, path_push. cbn. intros H. apply (f_equal (λ p, last (parts p))) in H.
  cbn in H. rewrite !last_snoc in H. discriminate H.
Qed.

#[local] Instance secret_key_path_inj : Inj (=) (=) secret_key_path.
Proof.
  intros [a1 p1] [a2 p2] H. unfold secret_key_path, path_join, path_push in H. cbn in H.
  injection H as -> H. by apply app_inj_tail in H as [-> _].
Qed.

(** The file of a key that this program ends with. *)
Definition has_key (fs : SnFs) (dir : PathBuf) (kp : Keypair) : Prop :=
  ∃ b, fs !! secret_key_path dir = Some b ∧ ed25519_from_bytes b = Some kp.

Lemma has_key_unique fs dir kp kp' : has_key fs dir kp → has_key fs dir kp' → kp = kp'.
Proof. intros (b & H & E) (b' & H' & E'). congruence. Qed.

(** A key is written to a new file. *)
Lemma written_key `{!Ed25519Laws} {B} fs dir s (k : unit → SnProg B) tr x fs' :
  exec (_ ← create_secret_key_file (secret_key_path dir);
        _ ← sn_try (WriteAll (secret_key_path dir) (secret_bytes s)) id SNE_Io; k tt) tr (Ok x) →
  (∀ t y, exec (k tt) t (Ok y) → t = []) → sn_fs_run fs tr fs' →
  fs !! secret_key_path dir = None ∧ has_key fs' dir (keypair_of s) ∧ exec (k tt) [] (Ok x).
Proof.
  intros He Hk Hr. unfold create_secret_key_file in He. sn_step He a t.
  sn_step He a' t'. pose proof (Hk _ _ He) as ->.
  apply sn_fs_run_cons in Hr as (fs1 & H1 & Hr). apply sn_fs_run_cons in Hr as (fs2 & H2 & ->%sn_fs_run_nil).
  cbn in a, a', Ha, Ha0. rewrite Ha in H1. destruct H1 as [Hn ->].
  cbn in H2. rewrite lookup_insert_eq in H2. destruct H2 as (b1 & _ & Hb & ->). specialize (Hb Ha0) as ->. split_and!; [done| |done]. exists (secret_bytes s). rewrite lookup_insert_eq. split; [done|].
  apply ed25519_round.
Qed.

Lemma get_root_dir_and_keypair_Ok `{!Ed25519Laws} o tr dir kp fs fs' :
  exec (get_root_dir_and_keypair o) tr (Ok (dir, kp)) → sn_fs_run fs tr fs' →
  has_key fs' dir kp ∧
  match o with
  | Some d => d = dir ∧ ∀ kp0, has_key fs dir kp0 → kp0 = kp
  | None => ∃ s, existT GenerateSecret s ∈ tr ∧ kp = keypair_of s ∧ fs !! secret_key_path dir = None
  end.
Proof.
  destruct o as [d|]; cbn [get_root_dir_and_keypair]; intros He Hr.
  - sn_step He a t. apply sn_fs_run_cons in Hr as (fs1 & -> & Hr).
    unfold keypair_from_path in He.
    apply exec_bind_Ok in He as (kp1 & t1 & t2 & -> & H1 & [-> [= -> ->]]%exec_lift_inv). rewrite app_nil_r in Hr.
    sn_call H1 c t3. apply sn_fs_run_cons in Hr as (fs2 & [-> Hc] & Hr). destruct c as [b| |].
    + apply exec_lift_inv in H1 as [-> H1]. apply sn_fs_run_nil in Hr as ->.
      destruct (ed25519_from_bytes b) as [k|] eqn:Hb; [|done]. injection H1 as ->.
      assert (has_key fs d k) as Hk by by exists b. split; [done|]. split; [done|].
      intros kp0 Hk0. by eapply has_key_unique.
    + sn_call H1 s t4. apply sn_fs_run_cons in Hr as (fs2 & -> & Hr).
      destruct (written_key fs d s (λ _, lift (Ok (keypair_of s))) _ _ fs' H1) as (Hn & Hk & Hlast); [|done|].
      { by intros t y [-> _]%exec_lift_inv. }
      apply exec_lift_inv in Hlast as [_ [= ->]]. split; [done|]. split; [done|]. intros kp0 (b & Hb & _). congruence.
    + by apply exec_lift_inv in H1 as [_ ?].
  - sn_call He s t. apply sn_fs_run_cons in Hr as (fs1 & -> & Hr).
    apply exec_bind_Ok in He as (dir' & t1 & t2 & -> & Hd & He).
    apply sn_fs_run_app in Hr as (fs2 & Hr1 & Hr2).
    assert (fs2 = fs) as ->.
    { unfold get_root_dir in Hd. sn_call Hd dd t3. apply exec_bind_Ok in Hd as (dd' & t4 & t5 & -> & [-> _]%exec_lift_inv & Hd).
      apply exec_lift_inv in Hd as [-> _]. apply sn_fs_run_cons in Hr1 as (fs3 & -> & Hr1). by apply sn_fs_run_nil in Hr1. }
    sn_step He a t3. apply sn_fs_run_cons in Hr2 as (fs3 & -> & Hr2).
    destruct (written_key fs dir' s (λ _, lift (Ok (dir', keypair_of s))) _ _ fs' He) as (Hn & Hk & Hlast); [|done|].
    { by intros t y [-> _]%exec_lift_inv. }
    apply exec_lift_inv in Hlast as [_ [= -> ->]]. split; [done|]. exists s. split_and!; [by left|done|done].
Qed.

(** *** The rest of [main] *)

(** Operations before the key is known, and after. *)
Definition before_node (op : SnOp) : Prop :=
  match op with RunNode _ _ _ _ _ | SpawnProcess _ _ => False | _ => True end.
Definition after_key (dir : PathBuf) (kp : Keypair) (op : SnOp) : Prop :=
  match op with
  | RunNode kp' _ _ _ dir' => kp' = kp ∧ dir' = dir
  | CreateNewFile _ | ReadKeyFile _ | GenerateSecret => False
  | SnCreateFile p | WriteAll p _ => p = pid_file dir
  | _ => True
  end.

Lemma after_key_writes dir kp op d : after_key dir kp op → op_writes op ≠ Some (secret_key_path d).
Proof. destruct op; cbn; try done; intros -> H; apply (inj Some) in H; by apply secret_key_path_ne in H. Qed.

Lemma control_loop_ops (P : SnOp → Prop) msgs : (∀ ms, P (SnSleep ms)) → all_ops P (control_loop msgs).
Proof.
  intros HP. induction msgs as [|m msgs IH]; cbn [control_loop]; [apply all_ops_done|].
  destruct (control_round m) as [[d r]|]; [|done]. apply all_ops_bind; [|intros _; apply all_ops_done].
  by apply (all_ops_call P (SnSleep d)).
Qed.

Ltac sn_ops :=
  unfold init_logging, sn_init_logging, open_log_dir, start_node, start_new_node_process,
    get_root_dir_and_keypair, get_root_dir, keypair_from_path, create_secret_key_file, sn_try;
  repeat first [all_ops_step | by apply control_loop_ops | exact I | by cbn].

Lemma get_key_ops o : all_ops before_node (get_root_dir_and_keypair o).
Proof. sn_ops. Qed.

Lemma safenode_main_split ld msgs opt tr r :
  exec (safenode_main ld msgs opt) tr r →
  (∃ dir kp t1 t2, tr = t1 ++ t2 ∧ exec (get_root_dir_and_keypair (o_root_dir opt)) t1 (Ok (dir, kp)) ∧
     ∀ op a, existT op a ∈ t2 → after_key dir kp op) ∨
  ((∃ r0 : Res SnError (PathBuf * Keypair), exec (get_root_dir_and_keypair (o_root_dir opt)) tr r0 ∧ is_ok r0 = false ∧
      r = match r0 with Err e => Err e | Panic w => Panic w | Ok _ => Ok tt end) ∧
   ∀ op a, existT op a ∈ tr → before_node op).
Proof.
  intros [([dir kp] & t1 & t2 & -> & H1 & H2)|[(e & -> & H)|(w & -> & H)]]%exec_bind_inv; [left|right|right].
  - exists dir, kp, t1, t2. split_and!; [done|done|]. revert H2. cbv zeta. intros H2.
    eapply (all_ops_bind (after_key dir kp)) in H2; [exact H2|sn_ops|]. intros log. sn_ops; done.
  - split; [by exists (Err e)|]. by eapply get_key_ops.
  - split; [by exists (Panic w)|]. by eapply get_key_ops.
Qed.

(** The node ran with a key, over a directory. *)
Definition node_ran (tr : list SnEvent) (kp : Keypair) (dir : PathBuf) : Prop :=
  ∃ addr peers local ok, existT (RunNode kp addr peers local dir) ok ∈ tr.

Lemma node_ran_split ld msgs opt tr r kp dir :
  exec (safenode_main ld msgs opt) tr r → node_ran tr kp dir →
  ∃ t1 t2, tr = t1 ++ t2 ∧ exec (get_root_dir_and_keypair (o_root_dir opt)) t1 (Ok (dir, kp)) ∧
    ∀ op a, existT op a ∈ t2 → after_key dir kp op.
Proof.
  intros He (addr & peers & local & ok & Hin).
  apply safenode_main_split in He as [(dir0 & kp0 & t1 & t2 & -> & He & Hops)|[_ Hops]]; [|by apply Hops in Hin].
  exists t1, t2. apply elem_of_app in Hin as [Hin|Hin]; [by destruct (get_key_ops _ _ _ He _ _ Hin)|].
  destruct (Hops _ _ Hin) as [-> ->]. done.
Qed.

(** What the files hold after [main]: the key of the node that ran. *)
Lemma main_has_key `{!Ed25519Laws} ld msgs opt tr r kp dir fs fs' :
  exec (safenode_main ld msgs opt) tr r → sn_fs_run fs tr fs' → node_ran tr kp dir →
  has_key fs' dir kp ∧
  match o_root_dir opt with
  | Some d => d = dir ∧ ∀ kp0, has_key fs dir kp0 → kp0 = kp
  | None => ∃ s, existT GenerateSecret s ∈ tr ∧ kp = keypair_of s ∧ fs !! secret_key_path dir = None
  end.
Proof.
  intros He Hr Hran. destruct (node_ran_split _ _ _ _ _ _ _ He Hran) as (t1 & t2 & -> & Hk & Hops).
  apply sn_fs_run_app in Hr as (fs1 & Hr1 & Hr2).
  destruct (get_root_dir_and_keypair_Ok _ _ _ _ _ _ Hk Hr1) as [(b & Hb & Hbk) Ho]. split.
  - exists b. split; [|done]. rewrite (sn_fs_run_other _ _ _ _ Hr2); [done|].
    intros op a Hin. by eapply after_key_writes, Hops.
  - destruct (o_root_dir opt); [done|]. destruct Ho as (s & Hs & Hrest). exists s. split; [|done].
    apply elem_of_app. by left.
Qed.

(** *** The control loop *)

(** The first message that is not to update. *)
Definition is_update (m : NodeCtrl) : bool := match m with Ctrl_Update _ => true | _ => false end.

Fixpoint control_result (msgs : list NodeCtrl) : Res SnError unit :=
  match msgs with
  | [] => Err SNE_CtrlClosed
  | Ctrl_Update _ :: msgs => control_result msgs
  | Ctrl_Restart _ :: _ => Ok tt
  | Ctrl_Stop _ cause :: _ => Err (SNE_Stopped cause)
  end.

Lemma control_loop_exec msgs tr r :
  exec (control_loop msgs) tr r → r = control_result msgs ∧ ∀ op a, existT op a ∈ tr → ∃ ms, op = SnSleep ms.
Proof.
  intros He. split; [|by eapply (control_loop_ops (λ op, ∃ ms, op = SnSleep ms)); [eauto|]].
  revert tr He. induction msgs as [|m msgs IH]; intros tr; cbn [control_loop]; [by intros [_ ->]%exec_lift_inv|].
  destruct m; cbn [control_round control_result]; [| |apply IH]; intros He; sn_call He u t; by apply exec_lift_inv in He as [_ ->].
Qed.

Lemma control_result_cases msgs :
  match control_result msgs with
  | Ok _ => ∃ d, Ctrl_Restart d ∈ msgs
  | Err (SNE_Stopped c) => ∃ d, Ctrl_Stop d c ∈ msgs
  | Err SNE_CtrlClosed => Forall (λ m, is_update m = true) msgs
  | _ => False
  end.
Proof.
  induction msgs as [|m msgs IH]; cbn; [constructor|].
  destruct m as [d c|d|d]; [exists d; by left|exists d; by left|].
  destruct (control_result msgs) as [[]|[]|]; try done; [| |by constructor]; destruct IH as [d' H]; exists d'; by right.
Qed.

Lemma control_result_prefix pre m rest d r :
  Forall (λ m, is_update m = true) pre → control_round m = Some (d, r) → control_result (pre ++ m :: rest) = r.
Proof.
  intros Hpre Hm. induction Hpre as [|x pre Hx _ IH]; cbn.
  - destruct m; cbn in Hm; congruence.
  - by destruct x.
Qed.

Lemma control_result_Ok msgs u :
  control_result msgs = Ok u → ∃ pre delay rest, msgs = pre ++ Ctrl_Restart delay :: rest ∧ Forall (λ m, is_update m = true) pre.
Proof.
  induction msgs as [|m msgs IH]; cbn; [done|]. destruct m as [d c|d|d]; [done| |].
  - intros _. by exists [], d, msgs.
  - intros (pre & d' & rest & -> & Hpre)%IH. exists (Ctrl_Update d :: pre), d', rest. split; [done|by constructor].
Qed.

(** [start_node] ends as its control loop does, once the node runs. *)
Definition no_process (op : SnOp) : Prop := match op with SpawnProcess _ _ => False | _ => True end.

Lemma start_node_exec msgs kp addr peers rpc local log dir tr r :
  exec (start_node msgs kp addr peers rpc local log dir) tr r →
  (r = control_result msgs ∨ r = Err SNE_Node ∨ r = Err SNE_Io) ∧ ∀ op a, existT op a ∈ tr → no_process op.
Proof.
  intros He. split.
  2: { assert (all_ops no_process (start_node msgs kp addr peers rpc local log dir)) as Hops by sn_ops. by eapply Hops. }
  unfold start_node in He.
  apply sn_try_bind in He as [(ok & t & -> & _ & He)|(? & _ & _ & ->)]; [|by right; left]. sn_call He pid t1.
  apply sn_try_bind in He as [(ok1 & t2 & -> & _ & He)|(? & _ & _ & ->)]; [|by right; right].
  apply sn_try_bind in He as [(ok2 & t3 & -> & _ & He)|(? & _ & _ & ->)]; [|by right; right]. sn_call He u t4.
  left. destruct rpc as [a|].
  - sn_call He u' t5. by apply control_loop_exec in He as [-> _].
  - apply exec_bind_inv in He as [(u' & t5 & t6 & -> & [-> _]%exec_lift_inv & He)|[(e & _ & [_ ?]%exec_lift_inv)|(w & _ & [_ ?]%exec_lift_inv)]];
      [|done|done]. by apply control_loop_exec in He as [-> _].
Qed.

End Lemmas.

(** *** The control channel *)

Section Control.
Context `{KD : KadCrate, ED : !Ed25519Crate, TC : !TestnetCrates}.
Context `{BLS : BlsCrate, XN : XorNameCrate, CR : CrdtsCrate}.
Context `{TK : TokenCrate, DI : DbcIdCrate, SD : !SnDbcCrate}.

Definition ctrl_msg (req : CtrlRequest) : NodeCtrl :=
  match req with
  | StopRequest remote_addr delay => Ctrl_Stop delay (StoppedByRpc remote_addr)
  | RestartRequest delay => Ctrl_Restart delay
  | UpdateRequest delay => Ctrl_Update delay
  end.

Lemma ctrl_handler_msg req : ctrl_handler req = send_ctrl (ctrl_msg req).
Proof. by destruct req. Qed.

(** A message has a cause: something the monitor received, or a request. *)
Definition has_cause (events : list (RecvError + NodeEvent)) (requests : list CtrlRequest) (m : NodeCtrl) : Prop :=
  (∃ e, e ∈ events ∧ monitor_round e = Some m) ∨ (∃ req, req ∈ requests ∧ m = ctrl_msg req).

Lemma has_cause_more events requests events' requests' m :
  has_cause events requests m → has_cause (events ++ events') (requests ++ requests') m.
Proof.
  intros [(e & He & Hm)|(req & Hr & Hm)]; [left; exists e|right; exists req]; (split; [|done]);
    apply elem_of_app; by left.
Qed.

(** Whether a handler has sent its message, or it still will. *)
Definition handler_ok (requests : list CtrlRequest) (h : Prog CtrlAns Status unit) : Prop :=
  (∃ r, h = Done r) ∨ ∃ req, req ∈ requests ∧ h = ctrl_handler req.

Lemma handler_ok_more requests requests' h : handler_ok requests h → handler_ok (requests ++ requests') h.
Proof. intros [?|(req & Hr & ->)]; [by left|right]. exists req. split; [apply elem_of_app; by left|done]. Qed.

(** What the loop of [start_node] received. *)
Definition main_received (m : MainLoop) (received : list NodeCtrl) : Prop :=
  match m with
  | Waiting => Forall (λ m, is_update m = true) received
  | Sleeping _ r | Returned r => ∃ pre msg delay, received = pre ++ [msg] ∧ Forall (λ m, is_update m = true) pre ∧
                                   control_round msg = Some (delay, r)
  end.

Record ctrl_inv (rpc : bool) (s : CtrlState) : Prop := {
  ci_capacity : length (cs_queue s) ≤ CTRL_CAPACITY;
  ci_sent : Forall (has_cause (cs_events s) (cs_requests s)) (cs_sent s);
  ci_monitor : match cs_monitor s with
               | Listening => True
               | Sending msg => has_cause (cs_events s) (cs_requests s) msg
               | MonitorEnded => receiver_alive (cs_main s) = false
               end;
  ci_handlers : Forall (handler_ok (cs_requests s)) (cs_handlers s);
  ci_service : rpc = false → cs_service s = NoService ∧ cs_requests s = [];
  ci_main : ∃ received, cs_sent s = received ++ cs_queue s ∧ main_received (cs_main s) received;
}.

Lemma ctrl_inv_start rpc : ctrl_inv rpc (ctrl_start rpc).
Proof. split; cbn; try done; [lia|by intros ->|]. by exists []. Qed.

(** A send with a cause keeps the invariant; it fails only without a receiver. *)
Lemma channel_send_inv rpc msg s s' ok :
  ctrl_inv rpc s → has_cause (cs_events s) (cs_requests s) msg → channel_send msg s = Some (s', ok) →
  ctrl_inv rpc s' ∧ cs_events s' = cs_events s ∧ cs_requests s' = cs_requests s ∧ cs_handlers s' = cs_handlers s ∧
  cs_main s' = cs_main s ∧ ok = receiver_alive (cs_main s').
Proof.
  intros Hi Hc. destruct (Hi) as [Hcap Hsent Hmon Hh Hsvc (received & Hrec & Hmain)]. unfold channel_send.
  destruct (receiver_alive (cs_main s)) eqn:Ha.
  - case_decide as Hlen; [|done]. intros [= <- <-]. split; [|by rewrite ?Ha]. split; cbn; try done.
    + rewrite length_app. cbn. lia.
    + apply Forall_app. split; [done|by constructor].
    + by destruct (cs_monitor s).
    + exists received. by rewrite Hrec, (assoc (++)).
  - by intros [= <- <-].
Qed.

Lemma monitor_receives_inv rpc e s s' : ctrl_inv rpc s → ctrl_next (MonitorReceives e) s = Some s' → ctrl_inv rpc s'.
Proof.
  intros [Hcap Hsent Hmon Hh Hsvc Hmain] H. cbn in H. destruct (cs_monitor s) eqn:Em; [|done|done].
  injection H as <-. split; cbn; try done.
  - eapply Forall_impl; [exact Hsent|]. intros m Hm. rewrite <- (app_nil_r (cs_requests s)). by apply has_cause_more.
  - destruct (monitor_round e) as [msg|] eqn:He; [|done]. left. exists e. split; [|done].
    apply elem_of_app. right. by left.
Qed.

Lemma monitor_sends_inv rpc s s' : ctrl_inv rpc s → ctrl_next MonitorSends s = Some s' → ctrl_inv rpc s'.
Proof.
  intros Hi H. cbn in H. pose proof (ci_monitor _ _ Hi) as Hc. destruct (cs_monitor s) as [|msg|] eqn:Em; [done| |done].
  destruct (channel_send msg s) as [[s1 ok]|] eqn:Hs; [|done]. cbn in H. injection H as <-.
  destruct (channel_send_inv _ _ _ _ _ Hi Hc Hs) as ([Hcap Hsent Hmon Hh Hsvc Hmain] & _ & _ & _ & _ & ->).
  split; cbn; try done. by destruct (receiver_alive (cs_main s1)) eqn:?.
Qed.

Lemma service_receives_inv rpc req s s' : ctrl_inv rpc s → ctrl_next (ServiceReceives req) s = Some s' → ctrl_inv rpc s'.
Proof.
  intros [Hcap Hsent Hmon Hh Hsvc Hmain] H. cbn in H. destruct (cs_service s) eqn:Es; [done| |done].
  injection H as <-. assert (∀ m, has_cause (cs_events s) (cs_requests s) m →
    has_cause (cs_events s) (cs_requests s ++ [req]) m) as Hmore.
  { intros m Hm. rewrite <- (app_nil_r (cs_events s)). by apply has_cause_more. }
  split; cbn; try done.
  - by eapply Forall_impl.
  - destruct (cs_monitor s); [done|by apply Hmore|done].
  - apply Forall_app. split; [eapply Forall_impl; [exact Hh|]; intros h; apply handler_ok_more|].
    constructor; [|constructor]. right. exists req. split; [|done]. apply elem_of_app. right. by left.
  - intros Hr. by destruct (Hsvc Hr).
Qed.

Lemma handler_sends_inv rpc i s s' : ctrl_inv rpc s → ctrl_next (HandlerSends i) s = Some s' → ctrl_inv rpc s'.
Proof.
  intros Hi H. cbn in H. destruct (cs_handlers s !! i) as [h|] eqn:Eh; [|done].
  pose proof (Forall_lookup_1 _ _ _ _ (ci_handlers _ _ Hi) Eh) as [[r ->]|(req & Hreq & ->)]; [done|].
  rewrite ctrl_handler_msg in H. cbn in H.
  destruct (channel_send (ctrl_msg req) s) as [[s1 ok]|] eqn:Hs; [|done]. cbn in H. injection H as <-.
  destruct (channel_send_inv _ _ _ _ _ Hi (or_intror (ex_intro _ req (conj Hreq eq_refl))) Hs)
    as ([Hcap Hsent Hmon Hh Hsvc Hmain] & Hev & Hrq & Hhs & _).
  split; cbn; try done. apply Forall_insert; [by rewrite <- Hhs|]. left. by destruct ok; eexists.
Qed.

Lemma service_ends_inv rpc s s' : ctrl_inv rpc s → ctrl_next ServiceEnds s = Some s' → ctrl_inv rpc s'.
Proof.
  intros [Hcap Hsent Hmon Hh Hsvc Hmain] H. cbn in H. destruct (cs_service s) eqn:Es; [done| |done].
  injection H as <-. split; cbn; try done. intros Hr. by destruct (Hsvc Hr).
Qed.

(** The channel is never closed while the loop waits: the monitor holds a
    sender until it fails to send. *)
Lemma main_receives_inv rpc s s' : ctrl_inv rpc s → ctrl_next MainReceives s = Some s' → ctrl_inv rpc s'.
Proof.
  intros [Hcap Hsent Hmon Hh Hsvc (received & Hrec & Hmain)] H. cbn in H. destruct (cs_main s) eqn:Em; [|done|done].
  destruct (cs_queue s) as [|msg queue] eqn:Eq.
  - unfold senders_left in H. by destruct (cs_monitor s).
  - injection H as <-. split; cbn; try done.
    + cbn in Hcap. lia.
    + by destruct (cs_monitor s).
    + exists (received ++ [msg]). split; [by rewrite Hrec, <- (assoc (++))|].
      destruct (control_round msg) as [[delay r]|] eqn:Er; cbn.
      * by exists received, msg, delay.
      * apply Forall_app. split; [done|]. by destruct msg; repeat constructor.
Qed.

Lemma main_wakes_inv rpc s s' : ctrl_inv rpc s → ctrl_next MainWakes s = Some s' → ctrl_inv rpc s'.
Proof.
  intros [Hcap Hsent Hmon Hh Hsvc Hmain] H. cbn in H. destruct (cs_main s) eqn:Em; [done| |done].
  injection H as <-. split; cbn; try done. by destruct (cs_monitor s).
Qed.

Lemma ctrl_reachable_inv rpc s : ctrl_reachable rpc s → ctrl_inv rpc s.
Proof.
  induction 1 as [|s c s' _ IH Hs]; [apply ctrl_inv_start|]. revert Hs.
  destruct c; [by apply monitor_receives_inv|by apply monitor_sends_inv|by apply service_receives_inv
    |by apply handler_sends_inv|by apply service_ends_inv|by apply main_receives_inv|by apply main_wakes_inv].
Qed.

(** What the loop returns is decided by the first message sent. *)
Lemma returned_result rpc s r : ctrl_reachable rpc s → cs_main s = Returned r → r = control_result (cs_sent s).
Proof.
  intros Hs Hm. destruct (ctrl_reachable_inv _ _ Hs) as [_ _ _ _ _ (received & -> & Hrec)]. rewrite Hm in Hrec.
  destruct Hrec as (pre & msg & delay & -> & Hpre & Hmsg). rewrite <- (assoc (++)). symmetry.
  by apply (control_result_prefix pre msg (cs_queue s) delay r).
Qed.

Lemma sent_cause rpc s m : ctrl_reachable rpc s → m ∈ cs_sent s → has_cause (cs_events s) (cs_requests s) m.
Proof. intros Hs. pose proof (ci_sent _ _ (ctrl_reachable_inv _ _ Hs)) as H. rewrite Forall_forall in H. apply H. Qed.

Lemma monitor_stops e m : monitor_round e = Some m →
  (m = Ctrl_Stop 1000 NodeBehindNat ∧ e = inr BehindNat) ∨
  (m = Ctrl_Stop 1000 NodeEventsChannelClosed ∧ (e = inr ChannelClosed ∨ e = inl Closed)).
Proof. destruct e as [[n|]|[]]; cbn; intros [= <-]; auto. Qed.

End Control.

(** ** Properties *)

Section Properties.
Context `{KD : KadCrate, ED : !Ed25519Crate, TC : !TestnetCrates}.
Context `{BLS : BlsCrate, XN : XorNameCrate, CR : CrdtsCrate}.
Context `{TK : TokenCrate, DI : DbcIdCrate, SD : !SnDbcCrate}.

Notation SnEvent := (Effects.Event SnAns).

(** An operation that the first program never performs comes from the second. *)
Lemma reaches_second (P : SnOp → Prop) {A B} (p : SnProg A) (k : A → SnProg B) tr r op a :
  all_ops P p → ¬ P op → exec (p ≫= k) tr r → existT op a ∈ tr →
  ∃ x t1 t2, tr = t1 ++ t2 ∧ exec p t1 (Ok x) ∧ exec (k x) t2 r ∧ existT op a ∈ t2.
Proof.
  intros Hp Hop [(x & t1 & t2 & -> & H1 & H2)|[(e & _ & H)|(w & _ & H)]]%exec_bind_inv Hin;
    [|by destruct Hop; eapply Hp..].
  exists x, t1, t2. split_and!; [done..|]. apply elem_of_app in Hin as [Hin|Hin]; [|done].
  by destruct Hop; eapply Hp.
Qed.

Ltac no_process_ops :=
  unfold init_logging, sn_init_logging, open_log_dir, start_node, get_root_dir_and_keypair, get_root_dir,
    keypair_from_path, create_secret_key_file, sn_try;
  repeat first [all_ops_step | by apply control_loop_ops | exact I].

Tactic Notation "later" hyp(He) hyp(Hin) "as" simple_intropattern(x) ident(H1) :=
  let t1 := fresh "t" in let t2 := fresh "t" in let Hin' := fresh in
  match type of Hin with
  | existT ?op ?a ∈ _ =>
      eapply (reaches_second no_process _ _ _ _ op a) in He;
      [destruct He as (x & t1 & t2 & -> & H1 & He & Hin'); clear Hin; rename Hin' into Hin|no_process_ops|exact id|exact Hin]
  end.

(** A new process: the loop ended with a restart, and the process has the
    arguments of this one. *)
Lemma main_spawns ld msgs opt tr r exe args ok :
  exec (safenode_main ld msgs opt) tr r → existT (SpawnProcess exe args) ok ∈ tr →
  control_result msgs = Ok tt ∧ r = Ok tt ∧ ∃ name, existT ProcessArgs (name :: args) ∈ tr.
Proof.
  unfold safenode_main. cbv zeta. intros He Hin.
  later He Hin as [dir kp] H1.
  later He Hin as log H_log.
  later He Hin as peers H_peers.
  later He Hin as u H_u.
  later He Hin as u' Hs.
  apply start_node_exec in Hs as [Hres _]. destruct u', Hres as [Hres|[?|?]]; [|done..].
  later He Hin as u2 H_u2.
  unfold start_new_node_process in He.
  apply (exec_vis_inv (Ans:=SnAns) CurrentExe) in He as (e & t13 & -> & He). destruct e as [e|]; [|by apply exec_lift_inv in He as [-> _]; set_solver].
  apply (exec_vis_inv (Ans:=SnAns) ProcessArgs) in He as (args0 & t14 & -> & He).
  destruct args0 as [|name args0]; [by apply exec_lift_inv in He as [-> _]; set_solver|].
  apply (exec_vis_inv (Ans:=SnAns) (SpawnProcess e args0)) in He as (ok' & t15 & -> & [-> ->]%exec_lift_inv).
  split; [done|]. split; [done|]. exists name.
  assert (existT (SpawnProcess exe args) ok = existT (P:=SnAns) (SpawnProcess e args0) ok') as E by set_solver.
  apply (f_equal (projT1 (P:=SnAns))) in E. injection E as <- <-. set_solver.
Qed.

(** A file that holds no key stops every start over its directory. *)
Lemma read_bad_key fs dir b tr r fs' :
  fs !! secret_key_path dir = Some b → ed25519_from_bytes b = None →
  exec (keypair_from_path (secret_key_path dir)) tr r → sn_fs_run fs tr fs' →
  fs' = fs ∧ (r = Err SNE_KeyFormat ∨ r = Err SNE_KeyUnreadable).
Proof.
  intros Hb Hk He Hr. unfold keypair_from_path in He.
  apply (exec_vis_inv (Ans:=SnAns) (ReadKeyFile (secret_key_path dir))) in He as (c & t & -> & He).
  apply sn_fs_run_cons in Hr as (fs1 & [-> Hc] & Hr). destruct c as [b'| |]; [|congruence|];
    apply exec_lift_inv in He as [-> ->]; apply sn_fs_run_nil in Hr as ->; [|by auto].
  rewrite Hb in Hc. injection Hc as <-. rewrite Hk. by auto.
Qed.

Definition start_error (e : SnError) : Prop := e ∈ [SNE_Io; SNE_KeyFormat; SNE_KeyUnreadable].

Lemma get_bad_key fs dir b tr r fs' :
  fs !! secret_key_path dir = Some b → ed25519_from_bytes b = None →
  exec (get_root_dir_and_keypair (Some dir)) tr r → sn_fs_run fs tr fs' → fs' = fs ∧ ∃ e, r = Err e ∧ start_error e.
Proof.
  intros Hb Hk He Hr. cbn [get_root_dir_and_keypair] in He.
  apply sn_try_bind in He as [(a & t1 & -> & _ & He)|(a & -> & _ & ->)]; apply sn_fs_run_cons in Hr as (fs1 & -> & Hr);
    [|apply sn_fs_run_nil in Hr as ->; split; [done|]; exists SNE_Io; split; [done|by left]].
  apply exec_bind_inv in He as [(kp & t2 & t3 & -> & He & _)|[(e & -> & He)|(w & -> & He)]].
  - apply sn_fs_run_app in Hr as (fs2 & Hr & _). by destruct (read_bad_key _ _ _ _ _ _ Hb Hk He Hr) as [_ [|]].
  - destruct (read_bad_key _ _ _ _ _ _ Hb Hk He Hr) as [-> [[= ->]|[= ->]]]; (split; [done|]); eexists; (split; [done|]);
      unfold start_error; set_solver.
  - by destruct (read_bad_key _ _ _ _ _ _ Hb Hk He Hr) as [_ [|]].
Qed.

Lemma bad_key_blocks ld msgs opt tr r dir b fs fs' :
  o_root_dir opt = Some dir → fs !! secret_key_path dir = Some b → ed25519_from_bytes b = None →
  exec (safenode_main ld msgs opt) tr r → sn_fs_run fs tr fs' →
  fs' !! secret_key_path dir = Some b ∧ (∃ e, r = Err e ∧ start_error e) ∧ ∀ kp d, ¬ node_ran tr kp d.
Proof.
  intros Ho Hb Hk He Hr.
  apply safenode_main_split in He as [(dir0 & kp & t1 & t2 & -> & H1 & _)|[(r0 & H0 & Hr0 & ->) Hops]].
  - rewrite Ho in H1. apply sn_fs_run_app in Hr as (fs1 & Hr & _).
    by destruct (get_bad_key _ _ _ _ _ _ Hb Hk H1 Hr) as [_ (e & ? & _)].
  - rewrite Ho in H0. destruct (get_bad_key _ _ _ _ _ _ Hb Hk H0 Hr) as [-> (e & -> & He)].
    split; [done|]. split; [by exists e|]. intros kp d (addr & peers & local & ok & Hin). by apply Hops in Hin.
Qed.

(** The key that could not be written in full. *)
Lemma partial_key_file dir sk tr r fs fs' :
  exec (keypair_from_path (secret_key_path dir)) tr r → sn_fs_run fs tr fs' →
  existT (WriteAll (secret_key_path dir) sk) false ∈ tr →
  r = Err SNE_Io ∧ ∃ b, fs' !! secret_key_path dir = Some b ∧ b `prefix_of` sk.
Proof.
  intros He Hr Hin. unfold keypair_from_path in He.
  apply (exec_vis_inv (Ans:=SnAns) (ReadKeyFile (secret_key_path dir))) in He as (c & t1 & -> & He).
  apply sn_fs_run_cons in Hr as (fs1 & [-> _] & Hr). apply elem_of_cons in Hin as [?|Hin]; [done|].
  destruct c as [b'| |]; [by apply exec_lift_inv in He as [-> _]; set_solver| |by apply exec_lift_inv in He as [-> _]; set_solver].
  apply (exec_vis_inv (Ans:=SnAns) GenerateSecret) in He as (s & t2 & -> & He).
  apply sn_fs_run_cons in Hr as (fs1 & -> & Hr). apply elem_of_cons in Hin as [?|Hin]; [done|].
  unfold create_secret_key_file in He.
  apply sn_try_bind in He as [(ok & t3 & -> & Hok & He)|(ok & -> & _ & ->)]; [|set_solver].
  apply sn_fs_run_cons in Hr as (fs1 & H1 & Hr). cbn in ok, Hok, H1. rewrite Hok in H1. destruct H1 as [_ ->].
  apply elem_of_cons in Hin as [?|Hin]; [done|].
  apply sn_try_bind in He as [(ok' & t4 & -> & Hok' & He)|(ok' & -> & _ & ->)];
    apply elem_of_cons in Hin as [E|Hin]; try (apply exec_lift_inv in He as [-> _]); try by apply elem_of_nil in Hin.
  - apply (f_equal (λ ev, match ev with existT op a => match op return SnAns op → bool with WriteAll _ _ => λ a, a | _ => λ _, true end a end)) in E.
    cbn in E, Hok'. congruence.
  - split; [done|]. apply (f_equal (projT1 (P:=SnAns))) in E. injection E as ->.
    apply sn_fs_run_cons in Hr as (fs1 & H2 & ->%sn_fs_run_nil).
    cbn in H2. rewrite lookup_insert_eq in H2. destruct H2 as (b1 & Hb1 & _ & ->). exists b1. by rewrite lookup_insert_eq.
Qed.

Lemma partial_key dir sk tr r fs fs' :
  exec (get_root_dir_and_keypair (Some dir)) tr r → sn_fs_run fs tr fs' →
  existT (WriteAll (secret_key_path dir) sk) false ∈ tr →
  r = Err SNE_Io ∧ ∃ b, fs' !! secret_key_path dir = Some b ∧ b `prefix_of` sk.
Proof.
  intros He Hr Hin. cbn [get_root_dir_and_keypair] in He.
  apply sn_try_bind in He as [(a & t1 & -> & _ & He)|(a & -> & _ & ->)]; [|set_solver].
  apply sn_fs_run_cons in Hr as (fs1 & -> & Hr). apply elem_of_cons in Hin as [?|Hin]; [done|].
  apply exec_bind_inv in He as [(kp & t2 & t3 & -> & He & H2)|[(e & -> & He)|(w & -> & He)]].
  - apply exec_lift_inv in H2 as [-> _]. rewrite app_nil_r in *. by destruct (partial_key_file _ _ _ _ _ _ He Hr Hin).
  - destruct (partial_key_file _ _ _ _ _ _ He Hr Hin) as [[= ->] ?]. done.
  - by destruct (partial_key_file _ _ _ _ _ _ He Hr Hin).
Qed.

(** *** The RPC service *)

Lemma exec_lift_bind {Op} {Ans : Op → Type} {E A B} (x : A) (k : A → Prog Ans E B) tr r :
  exec (y ← lift (Ok x); k y) tr r → exec (k x) tr r.
Proof. done. Qed.

Lemma network_info_Ok to_string tr resp :
  exec (network_info to_string) tr (Ok resp) →
  ∃ st, tr = [existT GetSwarmLocalState (Answer st)] ∧
    resp = {| nw_connected_peers := peer_to_bytes <$> sls_connected_peers st;
              nw_listeners := to_string <$> sls_listeners st |}.
Proof.
  intros He. apply exec_bind_Ok in He as (st & t1 & t2 & -> & H1%exec_expect_Ok & [-> [= ->]]%exec_lift_inv).
  exists st. split; [|done]. apply exec_map_err_Ok in H1.
  apply (exec_vis_inv (Ans:=NetAns) GetSwarmLocalState) in H1 as (a & t & -> & [-> Ha]%exec_lift_inv).
  destruct a; [done|done|]. by injection Ha as ->.
Qed.

(** Values that are read back from what was written. *)
Lemma expect_all_bind {A B C} (f : A → option B) (g : B → A) (xs : list B) (k : list B → TProg C) tr r :
  (∀ y, y ∈ xs → f (g y) = Some y) → exec (ys ← expect_all f (g <$> xs); k ys) tr r → exec (k xs) tr r.
Proof.
  unfold expect_all. set (step := λ acc x, _). intros Hfg.
  cut (∀ acc, exec (ys ← prog_fold step acc (g <$> xs); k ys) tr r → exec (k (acc ++ xs)) tr r); [intros H; apply (H [])|].
  induction xs as [|x xs IH]; intros acc; [cbn; by rewrite app_nil_r|].
  change (x :: xs) with ([x] ++ xs). rewrite (assoc (++)). intros He. apply IH; [intros y Hy; apply Hfg; by right|].
  cbn [fmap list_fmap app prog_fold] in He. replace (step acc (g x)) with (lift (Ok (acc ++ [x])) : TProg (list B)) in He
    by (unfold step; by rewrite Hfg by by left). exact He.
Qed.

(** What a stream delivered, and what the receiver gave before its first error. *)
Definition streamed (ev : Effects.Event StreamAns) : option bytes :=
  match ev with
  | existT op a => match op return StreamAns op → option bytes with SendEvent b => λ ok, if ok : bool then Some b else None end a
  end.

Fixpoint heard (received : list (RecvError + NodeEvent)) : list NodeEvent :=
  match received with inr e :: received => e :: heard received | _ => [] end.

(** *** The node's identity *)

(** C31: a node that is started over the directory of one that ran has the same
    key; one that is started without a directory makes a new one, and its
    directory did not have a key before.  (So a node that is restarted with the
    arguments of a process that had no directory is another node.) *)
Theorem node_keeps_identity `{!Ed25519Laws} ld msgs opt tr r kp dir ld' msgs' opt' tr' r' kp' dir' fs fs1 fs2 :
  exec (safenode_main ld msgs opt) tr r → sn_fs_run fs tr fs1 → node_ran tr kp dir →
  exec (safenode_main ld' msgs' opt') tr' r' → sn_fs_run fs1 tr' fs2 → node_ran tr' kp' dir' →
  (o_root_dir opt' = Some dir → kp' = kp ∧ dir' = dir) ∧
  (o_root_dir opt' = None → ∃ s, existT GenerateSecret s ∈ tr' ∧ kp' = keypair_of s ∧
     fs1 !! secret_key_path dir' = None ∧ dir' ≠ dir).
Proof.
  intros He Hr Hran He' Hr' Hran'.
  destruct (main_has_key _ _ _ _ _ _ _ _ _ He Hr Hran) as [Hkey _].
  destruct (main_has_key _ _ _ _ _ _ _ _ _ He' Hr' Hran') as [_ Ho]. split; intros E; rewrite E in Ho.
  - destruct Ho as [<- Hk]. by rewrite (Hk kp).
  - destruct Ho as (s & Hs & -> & Hn). exists s. split_and!; [done..|]. intros ->. destruct Hkey as (b & Hb & _). congruence.
Qed.

(** C39: when a node that was given its directory could not write its key in
    full, the start ends with an error and leaves a file with the beginning of
    the key.  If this is too short for a key, every later start that is given
    this directory is stopped by it: the node does not run, [main] returns an
    error, and the file stays as it is. *)
Theorem partial_key_stops_node `{!Ed25519Laws} ld msgs opt tr r dir sk fs fs1 :
  exec (safenode_main ld msgs opt) tr r → sn_fs_run fs tr fs1 → o_root_dir opt = Some dir →
  existT (WriteAll (secret_key_path dir) sk) false ∈ tr →
  ∃ b, fs1 !! secret_key_path dir = Some b ∧ b `prefix_of` sk ∧ r = Err SNE_Io ∧
    (length b < 32 → ∀ ld' msgs' opt' tr' r' fs2,
       o_root_dir opt' = Some dir → exec (safenode_main ld' msgs' opt') tr' r' → sn_fs_run fs1 tr' fs2 →
       fs2 !! secret_key_path dir = Some b ∧ (∃ e, r' = Err e ∧ start_error e) ∧ ∀ kp d, ¬ node_ran tr' kp d).
Proof.
  intros He Hr Ho Hin.
  assert (∀ t x, exec (get_root_dir_and_keypair (Some dir)) t x → sn_fs_run fs t fs1 →
    existT (WriteAll (secret_key_path dir) sk) false ∈ t → x = Err SNE_Io ∧
    ∃ b, fs1 !! secret_key_path dir = Some b ∧ b `prefix_of` sk) as Hget by eauto using partial_key.
  apply safenode_main_split in He as [(dir0 & kp & t1 & t2 & -> & H1 & Hops)|[(r0 & H0 & _ & ->) _]].
  - exfalso. rewrite Ho in H1. apply elem_of_app in Hin as [Hin|Hin].
    + apply sn_fs_run_app in Hr as (fs2 & Hr & _). by destruct (partial_key _ _ _ _ _ _ H1 Hr Hin).
    + apply Hops in Hin. cbn in Hin. by apply eq_sym, secret_key_path_ne in Hin.
  - rewrite Ho in H0. destruct (Hget _ _ H0 Hr Hin) as [-> (b & Hb & Hpre)]. exists b. split_and!; [done..|].
    intros Hlen ld' msgs' opt' tr' r' fs2 Ho' He' Hr'. eapply bad_key_blocks; [done|done| |done|done].
    destruct (ed25519_from_bytes b) as [k|] eqn:Ek; [|done]. apply ed25519_len in Ek. lia.
Qed.

(** *** Restarts *)

(** C30: a new process is started only where a client of the RPC service asked
    for a restart, and this request was the first message on the control channel
    that was not to update; the process has the arguments of this one. *)
Theorem restart_only_on_request ld opt s res tr r exe args ok :
  ctrl_reachable (bool_decide (is_Some (o_rpc opt))) s → cs_main s = Returned res →
  exec (safenode_main ld (cs_sent s) opt) tr r → existT (SpawnProcess exe args) ok ∈ tr →
  is_Some (o_rpc opt) ∧ res = Ok tt ∧ r = Ok tt ∧ (∃ name, existT ProcessArgs (name :: args) ∈ tr) ∧
  ∃ pre delay rest, cs_sent s = pre ++ Ctrl_Restart delay :: rest ∧ Forall (λ m, is_update m = true) pre ∧
    RestartRequest delay ∈ cs_requests s.
Proof.
  intros Hs Hres He Hin. destruct (main_spawns _ _ _ _ _ _ _ _ He Hin) as (Hctrl & Hr & Hargs).
  destruct (control_result_Ok _ _ Hctrl) as (pre & delay & rest & Hsent & Hpre).
  assert (Ctrl_Restart delay ∈ cs_sent s) as Hc by (rewrite Hsent; set_solver).
  destruct (sent_cause _ _ _ Hs Hc) as [(e & _ & [[? _]|[? _]]%monitor_stops)|(req & Hreq & Hm)]; [done|done|].
  split_and!; [|by rewrite (returned_result _ _ _ Hs Hres)|done|done|].
  - destruct (decide (is_Some (o_rpc opt))) as [|Hn]; [done|]. rewrite bool_decide_eq_false_2 in Hs by done.
    destruct (ci_service _ _ (ctrl_reachable_inv _ _ Hs) eq_refl) as [_ Hnil]. rewrite Hnil in Hreq. by apply elem_of_nil in Hreq.
  - exists pre, delay, rest. destruct req; simplify_eq/=. done.
Qed.

(** the loop of [start_node] ends with a cause: a restart or a stop that
    an RPC client asked for, or a stop for an event of the node.  It never finds
    the control channel closed, and at most five messages wait in it. *)
Theorem control_loop_caused rpc s r :
  ctrl_reachable rpc s → cs_main s = Returned r →
  length (cs_queue s) ≤ CTRL_CAPACITY ∧
  match r with
  | Ok _ => ∃ delay, RestartRequest delay ∈ cs_requests s
  | Err (SNE_Stopped NodeBehindNat) => inr BehindNat ∈ cs_events s
  | Err (SNE_Stopped NodeEventsChannelClosed) => inr ChannelClosed ∈ cs_events s ∨ inl Closed ∈ cs_events s
  | Err (SNE_Stopped (StoppedByRpc addr)) => ∃ delay, StopRequest addr delay ∈ cs_requests s
  | _ => False
  end.
Proof.
  intros Hs Hm. pose proof (ctrl_reachable_inv _ _ Hs) as Hi. split; [apply Hi|].
  destruct (ci_main _ _ Hi) as (received & Hsent & Hrec). rewrite Hm in Hrec.
  destruct Hrec as (pre & msg & delay & -> & _ & Hmsg).
  assert (has_cause (cs_events s) (cs_requests s) msg) as Hc.
  { eapply sent_cause; [done|]. rewrite Hsent. set_solver. }
  destruct Hc as [(e & He & [[-> ->]|[-> [-> | ->]]]%monitor_stops)|(req & Hreq & ->)].
  - by injection Hmsg as <- <-.
  - injection Hmsg as <- <-. by left.
  - injection Hmsg as <- <-. by right.
  - destruct req; simplify_eq/=; by eexists.
Qed.

(** *** The RPC service *)

(** The addresses of a node with its peer. *)
Definition with_peer (p : PeerId) (addrs : list Multiaddr) : list Multiaddr := (λ a, a ++ [P2p p]) <$> (addrs : list Multiaddr).

(** the queries of the testnet read back what the service of a node
    answers: the peer, the process and the log directory of the node, and the
    addresses and peers of its swarm. *)
Theorem rpc_queries_read_back (KL : KadLaws) (to_string : Multiaddr → string) svc secs st tr_node resp port tr r :
  (∀ m, m ∈ sls_listeners st → multiaddr_from_str (to_string m) = Some m) →
  exec (network_info to_string) tr_node (Ok resp) → existT GetSwarmLocalState (Answer st) ∈ tr_node →
  exec (send_rpc_queries_to_node port) tr r →
  (∀ a, existT (NodeInfoRpc port) a ∈ tr → a = Some (node_info svc secs)) →
  (∀ a, existT (NetworkInfoRpc port) a ∈ tr → a = Some resp) →
  r = Ok ({| pid := Z.of_N (svc_pid svc); peer_id := svc_peer_id svc;
             listeners := with_peer (svc_peer_id svc) (sls_listeners st);
             log_path := path_from (svc_log_dir svc) |},
          list_to_set (C:=gset PeerId) (sls_connected_peers st)).
Proof.
  intros Hstr Hnode Hst He Hinfo Hnet.
  assert (resp = {| nw_connected_peers := peer_to_bytes <$> sls_connected_peers st;
                    nw_listeners := to_string <$> sls_listeners st |}) as ->.
  { apply network_info_Ok in Hnode as (st' & -> & ->). apply list_elem_of_singleton in Hst.
    apply (f_equal (λ ev : Effects.Event NetAns, match ev with existT op a => match op return NetAns op → option SwarmLocalState with GetSwarmLocalState => λ a, match a with Answer s => Some s | _ => None end | _ => λ _, None end a end)) in Hst.
    by injection Hst as ->. }
  unfold send_rpc_queries_to_node in He.
  apply (exec_vis_inv (Ans:=TestnetAns) (NodeInfoRpc port)) in He as (a & t1 & -> & He).
  rewrite (Hinfo a) in He by by left. clear Hinfo.
  apply exec_lift_bind in He. cbn [ok_or] in He. cbn [ni_peer_id node_info] in He. rewrite peer_from_to_bytes in He.
  apply exec_lift_bind in He.
  apply (exec_vis_inv (Ans:=TestnetAns) (NetworkInfoRpc port)) in He as (a' & t2 & -> & He).
  rewrite (Hnet a') in He by set_solver. apply exec_lift_bind in He. cbn [nw_listeners nw_connected_peers] in He.
  apply (expect_all_bind _ to_string) in He; [|done].
  apply (expect_all_bind _ peer_to_bytes) in He; [|intros; apply peer_from_to_bytes].
  by apply exec_lift_inv in He as [_ ->].
Qed.

(** what a client of the event stream was sent are events of the node, in
    their order and without gaps, but for those that cannot be written: all
    before the first error of the receiver, if the client took each. *)
Theorem streamed_events_read_back `{RE : Rmp NodeEvent, RL : !RmpLaws NodeEvent} received tr r :
  exec (node_events_stream received) tr r →
  let events := List.filter (λ e, bool_decide (is_Some (event_to_bytes e))) (heard received) in
  ∃ k, event_from_bytes <$> omap streamed tr = Some <$> take k events ∧
    ((∀ b ok, existT (SendEvent b) ok ∈ tr → ok = true) → take k events = events).
Proof.
  intros He. cbn zeta. revert tr He. induction received as [|[e|e] received IH]; intros tr He; cbn [node_events_stream heard] in *.
  1-2: apply exec_lift_inv in He as [-> _]; by exists 0.
  destruct (event_to_bytes e) as [b|] eqn:Eb.
  2: { destruct (IH _ He) as (k & Hk). exists k. cbn [List.filter]. by rewrite Eb. }
  cbn [List.filter]. rewrite Eb.
  apply (exec_vis_inv (Ans:=StreamAns) (SendEvent b)) in He as (ok & t & -> & He). destruct ok.
  - destruct (IH _ He) as (k & Hk & Hall). exists (S k). cbn. split.
    + f_equal; [|exact Hk]. unfold event_from_bytes. pose proof (rmp_from_to e b [] Eb) as H. by rewrite app_nil_r in H.
    + intros Hok. f_equal. apply Hall. intros b' ok' Hin. eapply Hok. by right.
  - apply exec_lift_inv in He as [-> _]. exists 0. split; [done|]. intros Hok.
    specialize (Hok b false (ltac:(by left))). done.
Qed.

End Properties.

(** ** The properties at concrete values *)

(** Secret keys of one byte, filled up to their length. *)
#[global] Program Instance toy_ed25519 : Ed25519Crate := {|
  Ed25519Secret := byte;
  Keypair := byte;
  secret_bytes := λ s, s :: replicate 31 Byte.x00;
  keypair_of := λ s, s;
  ed25519_from_bytes := λ b, match b with s :: rest => if decide (rest = replicate 31 Byte.x00) then Some s else None | [] => None end;
  keypair_peer_id := λ k, k : PeerId |}.

#[global] Instance toy_ed25519_laws : Ed25519Laws.
Proof.
  split.
  - intros s. cbn [secret_bytes ed25519_from_bytes toy_ed25519]. by rewrite decide_True.
  - intros [|s b] k; cbn [ed25519_from_bytes toy_ed25519]; [done|]. by case_decide as E; [subst|].
Qed.

(** A machine with these files; writes succeed, or write nothing. *)
Definition toy_os (secret : byte) (writes : bool) (fs : SnFs) (op : SnOp) : SnFs * SnAns op :=
  match op return SnFs * SnAns op with
  | SnDataDir => (fs, Some {| absolute := true; parts := ["data"] |})
  | SnEnvVar _ => (fs, None)
  | SnCreateDirAll _ => (fs, true)
  | ReadKeyFile p => (fs, match fs !! p with Some b => Contents b | None => NoFile end)
  | CreateNewFile p => match fs !! p with Some _ => (fs, false) | None => (<[p := []]> fs, true) end
  | SnCreateFile p => (<[p := []]> fs, true)
  | WriteAll p b =>
      match fs !! p with
      | Some old => if writes then (<[p := old ++ b]> fs, true) else (fs, false)
      | None => (fs, false)
      end
  | GenerateSecret => (fs, secret)
  | OpenAppender _ | InstallLogger _ _ _ | SpawnTask _ | SnSleep _ | ShutdownTimeout _ => (fs, tt)
  | NewRuntime | RunNode _ _ _ _ _ | SpawnProcess _ _ => (fs, true)
  | ProcessId => (fs, 7%N)
  | CurrentExe => (fs, Some (path_of "safenode"))
  | ProcessArgs => (fs, ["safenode"; "--rpc"; "127.0.0.1:12001"])
  end.

Lemma toy_os_step secret writes fs op :
  sn_fs_step fs (existT op (toy_os secret writes fs op).2) (toy_os secret writes fs op).1.
Proof.
  destruct op; cbn; try done.
  - split; [done|]. by destruct (fs !! p).
  - by destruct (fs !! p) eqn:E; cbn.
  - destruct (fs !! p) as [old|] eqn:E; cbn; [|done]. destruct writes; cbn.
    + exists b. done.
    + exists []. split_and!; [by exists b|done|]. by rewrite app_nil_r, insert_id.
Qed.

(** The files at the end. *)
Fixpoint toy_os_end {E A : Type} (secret : byte) (writes : bool) (fs : SnFs) (p : Prog SnAns E A) : SnFs :=
  match p with
  | Done _ => fs
  | Vis op k => toy_os_end secret writes (toy_os secret writes fs op).1 (k (toy_os secret writes fs op).2)
  end.

Lemma toy_os_run {E A} secret writes fs (p : Prog SnAns E A) :
  sn_fs_run fs (run (toy_os secret writes) fs p).1 (toy_os_end secret writes fs p).
Proof.
  revert fs. induction p as [r|op k IH]; intros fs; cbn [run toy_os_end]; [constructor|].
  pose proof (toy_os_step secret writes fs op) as H. destruct (toy_os secret writes fs op) as [fs1 a]. cbn [fst snd] in *.
  specialize (IH a fs1). destruct (run (toy_os secret writes) fs1 (k a)) as [tr r]. cbn [fst] in *. by econstructor.
Qed.

Definition toy_opt (dir : option PathBuf) : Opt :=
  {| o_log_output_dest := LOA_DataDir; o_log_format := None; o_root_dir := dir; o_port := 0; o_ip := V4 0 0 0 0;
     o_peers := []; o_rpc := Some {| sa_ip := V4 127 0 0 1; sa_port := 12001 |}; o_local := true |}.

(** Whether a node ran with this key, and over which directory. *)
Definition ran_with (ev : Effects.Event SnAns) : option (byte * PathBuf) :=
  match projT1 ev with RunNode kp _ _ _ dir => Some (kp : byte, dir) | _ => None end.

Lemma ran_with_node tr kp dir : (kp, dir) ∈ omap ran_with tr → node_ran tr kp dir.
Proof.
  intros ([op a] & Hin & Hop)%list_elem_of_omap. destruct op; cbn in Hop; try discriminate Hop. injection Hop as -> ->.
  by eexists _, _, _, _.
Qed.

(** The processes that were started, and the writes that failed. *)
Definition spawned (ev : Effects.Event SnAns) : option (PathBuf * list string) :=
  match ev with
  | existT op a => match op return SnAns op → option (PathBuf * list string) with
                   | SpawnProcess exe args => λ ok, if ok : bool then Some (exe, args) else None | _ => λ _, None end a
  end.
Definition torn (ev : Effects.Event SnAns) : option (PathBuf * bytes) :=
  match ev with
  | existT op a => match op return SnAns op → option (PathBuf * bytes) with
                   | WriteAll p b => λ ok, if ok : bool then None else Some (p, b) | _ => λ _, None end a
  end.

Lemma spawned_in (tr : list (Effects.Event SnAns)) exe args :
  (exe, args) ∈ omap spawned tr → existT (P:=SnAns) (SpawnProcess exe args) true ∈ tr.
Proof.
  intros ([op a] & Hin & Hop)%list_elem_of_omap. destruct op; cbn in Hop; try discriminate Hop.
  destruct a; [|done]. by injection Hop as -> ->.
Qed.
Lemma torn_in (tr : list (Effects.Event SnAns)) p b : (p, b) ∈ omap torn tr → existT (P:=SnAns) (WriteAll p b) false ∈ tr.
Proof.
  intros ([op a] & Hin & Hop)%list_elem_of_omap. destruct op; cbn in Hop; try discriminate Hop.
  destruct a; [done|]. by injection Hop as -> ->.
Qed.

Definition toy_dir : PathBuf := {| absolute := true; parts := ["data"; "safe"; "node"; "a"] |}.
Definition toy_first : SnProg unit := safenode_main false [Ctrl_Restart 5] (toy_opt None).
Definition toy_second : SnProg unit := safenode_main false [] (toy_opt (Some toy_dir)).
Definition toy_first_run : list (Effects.Event SnAns) * Res SnError unit := run (toy_os Byte.x61 true) ∅ toy_first.
Definition toy_first_end : SnFs := toy_os_end Byte.x61 true ∅ toy_first.
Definition toy_second_run : list (Effects.Event SnAns) * Res SnError unit := run (toy_os Byte.x62 true) toy_first_end toy_second.

(** A node without a directory, and a second one over the directory of it. *)
Lemma node_keeps_identity_witness :
  omap ran_with toy_second_run.1 = [(Byte.x61, toy_dir)] ∧ ∃ kp', node_ran toy_second_run.1 kp' toy_dir ∧ kp' = Byte.x61.
Proof.
  assert (omap ran_with toy_first_run.1 = [(Byte.x61, toy_dir)]) as H1 by (vm_compute; reflexivity).
  assert (omap ran_with toy_second_run.1 = [(Byte.x61, toy_dir)]) as H2 by (vm_compute; reflexivity).
  split; [exact H2|]. exists Byte.x61.
  assert (node_ran toy_second_run.1 Byte.x61 toy_dir) as Hran by (apply ran_with_node; rewrite H2; by left).
  split; [exact Hran|].
  refine (proj1 (proj1 (node_keeps_identity false [Ctrl_Restart 5] (toy_opt None) _ _ Byte.x61 toy_dir
    false [] (toy_opt (Some toy_dir)) _ _ Byte.x61 toy_dir ∅ _ _
    (run_exec (toy_os Byte.x61 true) ∅ toy_first) (toy_os_run _ _ _ _) _
    (run_exec (toy_os Byte.x62 true) toy_first_end toy_second) (toy_os_run _ _ _ _) Hran) eq_refl)).
  apply ran_with_node. unfold toy_first_run in H1. rewrite H1. by left.
Defined.

Definition toy_torn : SnProg unit := safenode_main false [] (toy_opt (Some toy_dir)).
Definition toy_torn_run : list (Effects.Event SnAns) * Res SnError unit := run (toy_os Byte.x61 false) ∅ toy_torn.

Lemma toy_torn_write : omap torn toy_torn_run.1 = [(secret_key_path toy_dir, Byte.x61 :: replicate 31 Byte.x00)].
Proof. vm_compute. reflexivity. Qed.

(** A full disk: the key is not written, and the empty file stays. *)
Lemma partial_key_stops_node_witness :
  ∃ b, toy_os_end Byte.x61 false ∅ toy_torn !! secret_key_path toy_dir = Some b ∧ toy_torn_run.2 = Err SNE_Io.
Proof.
  assert (existT (WriteAll (secret_key_path toy_dir) (Byte.x61 :: replicate 31 Byte.x00)) false ∈ toy_torn_run.1) as Hin
    by (apply torn_in; rewrite toy_torn_write; by left).
  destruct (partial_key_stops_node false [] (toy_opt (Some toy_dir)) toy_torn_run.1 toy_torn_run.2 toy_dir _ ∅
    (toy_os_end Byte.x61 false ∅ toy_torn) (run_exec (toy_os Byte.x61 false) ∅ toy_torn) (toy_os_run _ _ _ _) eq_refl Hin)
    as (b & Hb & _ & Hr & _).
  exists b. split; [exact Hb|exact Hr].
Defined.

Lemma ctrl_run_reachable `{BLS : BlsCrate, DI : DbcIdCrate} rpc cs :
  ctrl_reachable rpc (default (ctrl_start rpc) (ctrl_run cs (ctrl_start rpc))).
Proof.
  assert (∀ s, ctrl_reachable rpc s → ctrl_reachable rpc (default (ctrl_start rpc) (ctrl_run cs s))) as H;
    [|apply H; constructor].
  induction cs as [|c cs IH]; intros s Hs; cbn; [done|].
  destruct (ctrl_next c s) as [s1|] eqn:E; [|constructor]. apply IH. by eapply ctrl_step.
Qed.

(** An update, a restart, and a stop that comes too late. *)
Definition toy_ctrl_steps : list CtrlStep :=
  [ServiceReceives (UpdateRequest 1); HandlerSends 0; ServiceReceives (RestartRequest 5); HandlerSends 1;
   MonitorReceives (inr BehindNat); MonitorSends; MainReceives; MainReceives; MainWakes].
Definition toy_ctrl : CtrlState := default (ctrl_start true) (ctrl_run toy_ctrl_steps (ctrl_start true)).

Lemma toy_ctrl_reachable : ctrl_reachable true toy_ctrl.
Proof. apply ctrl_run_reachable. Qed.

Definition toy_restart : SnProg unit := safenode_main false (cs_sent toy_ctrl) (toy_opt None).
Definition toy_restart_run : list (Effects.Event SnAns) * Res SnError unit := run (toy_os Byte.x61 true) ∅ toy_restart.

Lemma toy_restart_spawns : omap spawned toy_restart_run.1 = [(path_of "safenode", ["--rpc"; "127.0.0.1:12001"])].
Proof. vm_compute. reflexivity. Qed.

Lemma toy_ctrl_returned : cs_main toy_ctrl = Returned (Ok tt).
Proof.
  assert (match cs_main toy_ctrl with Returned (Ok _) => true | _ => false end = true) as H by (vm_compute; reflexivity).
  destruct (cs_main toy_ctrl) as [| |[[]| |]]; done.
Qed.

Lemma restart_only_on_request_witness :
  toy_restart_run.2 = Ok tt ∧ ∃ delay, RestartRequest delay ∈ cs_requests toy_ctrl.
Proof.
  assert (existT (SpawnProcess (path_of "safenode") ["--rpc"; "127.0.0.1:12001"]) true ∈ toy_restart_run.1) as Hin.
  { apply spawned_in. rewrite toy_restart_spawns. by left. }
  destruct (restart_only_on_request false (toy_opt None) toy_ctrl (Ok tt) toy_restart_run.1 toy_restart_run.2 _ _ _
    toy_ctrl_reachable toy_ctrl_returned (run_exec (toy_os Byte.x61 true) ∅ toy_restart) Hin)
    as (_ & _ & Hr & _ & pre & delay & rest & _ & _ & Hreq).
  split; [exact Hr|exists delay; exact Hreq].
Defined.

(** The monitor's stop comes first. *)
Definition toy_nat_steps : list CtrlStep :=
  [MonitorReceives (inr BehindNat); ServiceReceives (RestartRequest 5); MonitorSends; HandlerSends 0; MainReceives; MainWakes].
Definition toy_nat : CtrlState := default (ctrl_start true) (ctrl_run toy_nat_steps (ctrl_start true)).

Lemma toy_nat_reachable : ctrl_reachable true toy_nat.
Proof. apply ctrl_run_reachable. Qed.

Lemma control_loop_caused_witness :
  cs_main toy_nat = Returned (Err (SNE_Stopped NodeBehindNat)) ∧ inr BehindNat ∈ cs_events toy_nat.
Proof.
  assert (match cs_main toy_nat with Returned (Err (SNE_Stopped NodeBehindNat)) => true | _ => false end = true) as H
    by (vm_compute; reflexivity).
  assert (cs_main toy_nat = Returned (Err (SNE_Stopped NodeBehindNat))) as Hm
    by (destruct (cs_main toy_nat) as [| |[|[| | | | | | | |[]|]|]]; done).
  split; [exact Hm|]. exact (proj2 (control_loop_caused true toy_nat _ toy_nat_reachable Hm)).
Defined.

(** *** The RPC service *)

(** One address, whose text is that of the toy machine. *)
Definition toy_svc : SafeNodeRpcService :=
  {| svc_log_dir := "/logs"; svc_peer_id := (Byte.x61 : PeerId); svc_pid := 7; svc_bin_version := "0.1" |}.
Definition toy_local_state : SwarmLocalState := {| sls_connected_peers := [(Byte.x62 : PeerId)]; sls_listeners := [[Tcp 1]] |}.
Definition toy_network_info : NetworkInfoResponse := {| nw_connected_peers := [[Byte.x62]]; nw_listeners := ["t"] |}.

(** The node's service behind the operations of the testnet. *)
Definition toy_rpc_machine (u : unit) (op : TestnetOp) : unit * TestnetAns op :=
  match op return unit * TestnetAns op with
  | NodeInfoRpc port => (u, Some (node_info toy_svc 3))
  | NetworkInfoRpc port => (u, Some toy_network_info)
  | op => toy_machine None u op
  end.

(** The answers of the two queries. *)
Definition node_answer (ev : Effects.Event TestnetAns) : option NodeInfoResponse :=
  match ev with existT op a => match op return TestnetAns op → option NodeInfoResponse with NodeInfoRpc _ => id | _ => λ _, None end a end.
Definition network_answer (ev : Effects.Event TestnetAns) : option NetworkInfoResponse :=
  match ev with
  | existT op a => match op return TestnetAns op → option NetworkInfoResponse with NetworkInfoRpc _ => id | _ => λ _, None end a
  end.

Definition toy_query : Prog TestnetAns TestnetError (NodeInfo * gset PeerId) := send_rpc_queries_to_node 12001.
Definition toy_query_run : list (Effects.Event TestnetAns) * Res TestnetError (NodeInfo * gset PeerId) :=
  run toy_rpc_machine tt toy_query.
Definition toy_info_trace : list (Effects.Event NetAns) := [existT (P:=NetAns) GetSwarmLocalState (Answer toy_local_state)].

Lemma toy_info_exec : exec (network_info (λ _, "t")) toy_info_trace (Ok toy_network_info).
Proof. apply (exec_vis (Ans:=NetAns) GetSwarmLocalState _ (Answer toy_local_state)). constructor. Qed.

Lemma rpc_queries_read_back_witness :
  toy_query_run.2 = Ok ({| pid := Z.of_N 7; peer_id := svc_peer_id toy_svc;
                           listeners := with_peer (svc_peer_id toy_svc) (sls_listeners toy_local_state);
                           log_path := path_from "/logs" |},
                        list_to_set (C:=gset PeerId) (sls_connected_peers toy_local_state)).
Proof.
  assert (toy_query_run.1 = [existT (P:=TestnetAns) (NodeInfoRpc 12001) (Some (node_info toy_svc 3));
                             existT (P:=TestnetAns) (NetworkInfoRpc 12001) (Some toy_network_info)]) as Htr
    by (vm_compute; reflexivity).
  pose proof (run_exec toy_rpc_machine tt toy_query) as He. fold toy_query_run in He.
  apply (rpc_queries_read_back toy_kad_laws (λ _, "t") toy_svc 3 toy_local_state toy_info_trace toy_network_info 12001
    toy_query_run.1 toy_query_run.2); [|exact toy_info_exec|by left|exact He| |].
  - intros m Hm. apply list_elem_of_singleton in Hm as ->. reflexivity.
  - intros a Ha. rewrite Htr in Ha. apply elem_of_cons in Ha as [Ha|Ha%list_elem_of_singleton].
    + exact (f_equal node_answer Ha).
    + apply (f_equal (projT1 (P:=TestnetAns))) in Ha. discriminate Ha.
  - intros a Ha. rewrite Htr in Ha. apply elem_of_cons in Ha as [Ha|Ha%list_elem_of_singleton].
    + apply (f_equal (projT1 (P:=TestnetAns))) in Ha. discriminate Ha.
    + exact (f_equal network_answer Ha).
Defined.

(** Events are one byte, and only two are written. *)
#[global] Instance toy_rmp_event : Rmp NodeEvent := {|
  rmp_to_vec := λ e, match e with ConnectedToNetwork => Some [Byte.x01] | BehindNat => Some [Byte.x02] | _ => None end;
  rmp_from_slice := λ b, match b with
                         | Byte.x01 :: _ => Some ConnectedToNetwork | Byte.x02 :: _ => Some BehindNat | _ => None end |}.

#[global] Instance toy_rmp_event_laws : RmpLaws NodeEvent.
Proof. split. by intros [] b rest; cbn; intros [= <-]. Qed.

Definition toy_heard : list (RecvError + NodeEvent) := [inr ConnectedToNetwork; inr ChannelClosed; inr BehindNat; inl (Lagged 2); inr BehindNat].
Definition toy_stream_run : list (Effects.Event StreamAns) * Res Status unit :=
  run (λ (u : unit) (op : StreamOp), (u, match op return StreamAns op with SendEvent _ => true end)) tt (node_events_stream toy_heard).

(** The receiver lagged: the last event is not delivered. *)
Lemma streamed_events_read_back_witness :
  event_from_bytes <$> omap streamed toy_stream_run.1 = Some <$> [ConnectedToNetwork; BehindNat].
Proof.
  destruct (streamed_events_read_back toy_heard toy_stream_run.1 toy_stream_run.2
    (run_exec (λ (u : unit) (op : StreamOp), (u, match op return StreamAns op with SendEvent _ => true end)) tt
       (node_events_stream toy_heard))) as (k & Hk & Hall).
  rewrite Hk, Hall; [reflexivity|]. intros b ok Hin.
  assert (toy_stream_run.1 = [existT (P:=StreamAns) (SendEvent [Byte.x01]) true; existT (P:=StreamAns) (SendEvent [Byte.x02]) true]) as Htr
    by (vm_compute; reflexivity).
  rewrite Htr in Hin. apply elem_of_cons in Hin as [H|H%list_elem_of_singleton];
    apply (f_equal (λ ev : Effects.Event StreamAns,
      match ev with existT op a => match op return StreamAns op → bool with SendEvent _ => λ a, a end a end)) in H; exact H.
Defined.
