(* ===== verification/FaucetServer.v ===== *)
(** * The faucet's binary

    [faucet_cmds], [send_tokens], [claim_genesis]: src/sn_node/src/bin/faucet/main.rs;
    [run_faucet_server]: src/sn_node/src/bin/faucet/faucet_server.rs.

    The server answers HTTP requests one after the other, each with tokens of
    the faucet's wallet.  Its operations are those of the client and of the
    wallet files ([AppProg] of Faucet.v) and those on the server's socket.  The
    requests are those the server receives until it ends.

    The main theorems: the server answers each request once and in order, and
    what it answers with success is the text of the DBC that the one sending for
    this request made for its address; and a request that the wallet cannot pay for ends
    the server, with this request and all later ones unanswered. *)

From S2P Require Import Prelude Deps ToyCrates Registers Protocol Transfers RecordStore Payments Effects Network Wallet WalletFiles Client ClientWallet Faucet Startup.
From stdpp Require Import base tactics list gmap sorting strings.
From Stdlib Require Import ZArith NArith Strings.Byte Lia.

(** ** The server's socket *)

(** [Respond] answers the current request with a status and a text; whether the
    response could be sent is only logged. *)
Inductive HttpOp :=
| StartServer
| Respond (status : Z) (body : bytes).
Definition HttpAns (op : HttpOp) : Type := match op with StartServer => bool | Respond _ _ => bool end.

Notation SrvAns := (SumAns (Ans1:=AppAns) (Ans2:=HttpAns)).
Notation SrvProg := (Prog SrvAns).

(** [trim_matches(path::is_separator)] where only the slash separates. *)
Definition SLASH : byte := Byte.x2f.
Fixpoint trim_start (b : bytes) : bytes :=
  match b with [] => [] | x :: b' => if decide (x = SLASH) then trim_start b' else b end.
Definition trim_separators (b : bytes) : bytes := reverse (trim_start (reverse (trim_start b))).

Section FaucetServer.
Context `{BLS : BlsCrate, XN : XorNameCrate, HX : HexCrate, KD : KadCrate, CR : CrdtsCrate, SE : SelfEncryptionCrate}.
Context `{TK : TokenCrate, DI : DbcIdCrate, SD : !SnDbcCrate, DC : !DbcCrate, RP : !RegisterParams, DT : !DbcTextCrate}.
Context `{RH : RmpHeader, RC : Rmp (bytes * PaymentProof), RS : Rmp (list SignedSpend), RR : Rmp SignedRegister}.
Context `{BW : Bincode KeyLessWallet}.
Context (bld : Build) (main_key_from_hex : string → option MainKey) (token_from_str : string → option Token).

(** An [eyre] report; [FE_OutOfFuel] is that of a fuelled definition. *)
Inductive FaucetError :=
| FE_Wallet (e : WalletError)
| FE_Client (e : ClientError)
| FE_Token
| FE_ZeroAmount
| FE_DbcHex
| FE_NoDataDir
| FE_Server
| FE_OutOfFuel.

(** The text that a failed request is answered with. *)
Context (error_text : FaucetError → bytes).

(** What is chosen at random in one use of the faucet: for loading it, for
    sending from it, the keys of new wallets and the schedule of verifying. *)
Record Draws := {
  dr_load : Choices;
  dr_send : Choices;
  dr_keys : MainKey * MainKey;
  dr_sched : list nat;
}.

(** ** main.rs *)

(** The result is dropped; a panic is not. *)
Definition claim_genesis (fuel : nat) (d : Draws) (client : Client) : AppProg FaucetError unit :=
  _ ← attempt (load_faucet_wallet_from_genesis_wallet bld main_key_from_hex fuel (dr_load d) (dr_keys d) (dr_sched d) client);
  lift (Ok tt).

Definition send_tokens (fuel : nat) (d : Draws) (client : Client) (amount : string) (to : bytes) : AppProg FaucetError string :=
  to ← lift (map_err FE_Wallet (parse_public_address to));
  amount ← lift (ok_or (token_from_str amount) FE_Token);
  if decide (as_nano amount = 0%Z) then lift (Err FE_ZeroAmount)
  else
    dbc ← prog_map_err FE_Client
            (get_tokens_from_faucet bld main_key_from_hex fuel (dr_load d) (dr_send d) (dr_keys d) (dr_sched d) amount to client);
    dbc ← lift (ok_or dbc FE_OutOfFuel);
    lift (ok_or (dbc_to_hex dbc) FE_DbcHex).

(** [data_dir] is that of the platform. *)
Definition faucet_parse_log_output (data_dir : option PathBuf) (val : string) : Res FaucetError LogOutputDest :=
  if decide (val = "stdout"%string) then Ok LOD_Stdout
  else if decide (val = "data-dir"%string) then
    dir ← ok_or data_dir FE_NoDataDir;
    Ok (LOD_Path (path_join (path_join (path_join dir "safe") "test_faucet") "logs"))
  else Ok (LOD_Path (path_from val)).

(** ** faucet_server.rs *)

Definition REQUEST_AMOUNT : string := "100".

Definition srv_app {E A : Type} (p : AppProg E A) : SrvProg E A := on_left p.
Definition respond {E : Type} (status : Z) (body : bytes) : SrvProg E unit :=
  _ ← on_right (call (Respond status body)); lift (Ok tt).

(** One request, by its path. *)
Definition serve_request (fuel : nat) (d : Draws) (client : Client) (url : bytes) : SrvProg FaucetError unit :=
  let key := trim_separators url in
  sent ← srv_app (attempt (send_tokens fuel d client REQUEST_AMOUNT key));
  match sent with
  | Ok dbc => respond 200 (String.list_byte_of_string dbc)
  | Err e => respond 500 (error_text e)
  | Panic w => lift (Panic w)
  end.

(** The requests, each with what is chosen for it. *)
Definition run_faucet_server (fuel : nat) (d : Draws) (client : Client) (requests : list (bytes * Draws)) : SrvProg FaucetError unit :=
  started ← on_right (call StartServer);
  if (started : bool) then
    _ ← srv_app (claim_genesis fuel d client);
    prog_fold (λ _ req, serve_request fuel req.2 client req.1) tt requests
  else lift (Err FE_Server).

Inductive FaucetCmd :=
| ClaimGenesis
| SendTokens (amount : string) (to : bytes)
| Server.

Definition faucet_cmds (fuel : nat) (d : Draws) (requests : list (bytes * Draws)) (cmds : FaucetCmd) (client : Client)
    : SrvProg FaucetError unit :=
  match cmds with
  | ClaimGenesis => srv_app (claim_genesis fuel d client)
  | SendTokens amount to => _ ← srv_app (send_tokens fuel d client amount to); lift (Ok tt)
  | Server => run_faucet_server fuel d client requests
  end.

End FaucetServer.

(** ** Lemmas *)

Section ServerLemmas.
Context `{BLS : BlsCrate, XN : XorNameCrate, HX : HexCrate, KD : KadCrate, CR : CrdtsCrate, SE : SelfEncryptionCrate}.
Context `{TK : TokenCrate, DI : DbcIdCrate, SD : !SnDbcCrate, DC : !DbcCrate, RP : !RegisterParams, DT : !DbcTextCrate}.
Context `{RH : RmpHeader, RC : Rmp (bytes * PaymentProof), RS : Rmp (list SignedSpend), RR : Rmp SignedRegister}.
Context `{BW : Bincode KeyLessWallet}.
Context (bld : Build) (from_hex : string → option MainKey) (token_from_str : string → option Token).
Context (error_text : FaucetError → bytes).
Context (HL : HexLaws) (HD : DbcTextLaws).

Notation SrvTrace := (list (Effects.Event SrvAns)).
Notation AppTrace := (list (Effects.Event AppAns)).

Lemma srv_app_exec {E A} (p : AppProg E A) tr r : exec (srv_app p) tr r → exec p (left_events tr) r ∧ right_events tr = [].
Proof. apply exec_on_left. Qed.

Lemma respond_exec {E} status body tr (r : Res E unit) :
  exec (respond status body) tr r → r = Ok tt ∧ ∃ a, tr = [existT (P:=SrvAns) (inr (Respond status body)) a].
Proof.
  unfold respond, on_right, call. cbn. intros (a & t & -> & [-> ->]%exec_done_inv)%exec_vis_inv. split; [done|]. by exists a.
Qed.

(** What tokens were sent for. *)
Definition tokens_for (key text : bytes) (d : Draws) (tr : AppTrace) : Prop :=
  ∃ amount to from w transfer dbc,
    token_from_str REQUEST_AMOUNT = Some amount ∧ parse_public_address key = Ok to ∧
    local_send bld [(amount, to)] zero_hash (ch_rnds (dr_send d)) (ch_rnd (dr_send d)) from = (w, Ok transfer) ∧
    head (created_dbcs transfer) = Some dbc ∧ dbc_of_text text = Some dbc ∧
    ∀ r, r ∈ all_spend_requests transfer → spend_put r true (left_events tr).

Lemma send_tokens_Ok fuel d client key tr text :
  exec (send_tokens bld from_hex token_from_str fuel d client REQUEST_AMOUNT key) tr (Ok text) →
  tokens_for key (String.list_byte_of_string text) d tr.
Proof.
  unfold send_tokens, get_tokens_from_faucet. intros He.
  apply exec_bind_Ok in He as (to & t1 & t2 & -> & [-> Hto]%exec_lift_inv & He). symmetry in Hto. apply map_err_Ok_iff in Hto.
  apply exec_bind_Ok in He as (amount & t3 & t4 & -> & [-> Ha]%exec_lift_inv & He).
  destruct (token_from_str REQUEST_AMOUNT) as [amount'|] eqn:Ht; [|done]. injection Ha as ->.
  case_decide; [by apply exec_lift_inv in He as [_ ?]|].
  apply exec_bind_Ok in He as (sent & t5 & t6 & -> & H1%exec_map_err_Ok & He).
  apply exec_bind_Ok in He as (dbc & t7 & t8 & -> & [-> Hd]%exec_lift_inv & [-> Hx]%exec_lift_inv).
  destruct sent as [dbc'|]; [|done]. injection Hd as ->. destruct (dbc_to_hex dbc') as [h|] eqn:Hh; [|done]. injection Hx as ->.
  apply exec_bind_Ok in H1 as (loaded & t9 & t10 & -> & _ & H1). destruct loaded as [faucet|]; [|by apply exec_lift_inv in H1 as [_ ?]].
  apply exec_map_err_Ok, send_Ok in H1 as (w & transfer & tw & td & Hl & Hhead & _ & _ & _ & Hput).
  exists amount', to, faucet, w, transfer, dbc'. split_and!; [done|done|done|done|by apply dbc_of_written_text|].
  intros r Hr. eapply spend_put_mono; [|by apply Hput]. rewrite !app_nil_l, !app_nil_r, left_events_app. by apply sublist_inserts_l.
Qed.

Notation sending fuel client req :=
  (send_tokens bld from_hex token_from_str fuel req.2 client REQUEST_AMOUNT (trim_separators req.1)).

(** The part of the server's run that serves one request: tokens are sent once,
    by this server, and then there is one response, made of what this sending
    returned. *)
Definition served (fuel : nat) (client : Client) (req : bytes * Draws) (tr : SrvTrace) : Prop :=
  ∃ t sent status body a,
    tr = t ++ [existT (P:=SrvAns) (inr (Respond status body)) a] ∧ right_events t = [] ∧
    exec (sending fuel client req) (left_events t) sent ∧
    match sent with
    | Ok text => status = 200%Z ∧ body = String.list_byte_of_string text ∧
                 tokens_for (trim_separators req.1) body req.2 (left_events t)
    | Err e => status = 500%Z ∧ body = error_text e
    | Panic _ => False
    end.

Lemma serve_request_exec fuel client req tr r :
  exec (serve_request bld from_hex token_from_str error_text fuel req.2 client req.1) tr r →
  match r with
  | Ok _ => served fuel client req tr
  | Err _ => False
  | Panic w => right_events tr = [] ∧ exec (sending fuel client req) (left_events tr) (Panic w)
  end.
Proof.
  unfold serve_request. cbv zeta.
  intros [(sent & t1 & t2 & -> & [H1 R1]%srv_app_exec & He)|[(e & -> & [H1 _]%srv_app_exec)|(w & -> & [H1 R1]%srv_app_exec)]]%exec_bind_inv;
    apply exec_attempt_inv in H1 as (r0 & H1 & Hr0).
  - assert (r0 = sent) as -> by (destruct r0; simplify_eq; done).
    destruct sent as [dbc|e|w]; [| |done]; apply respond_exec in He as [-> [a ->]]; eexists t1, _, _, _, a;
      (split; [done|]); (split; [done|]); (split; [exact H1|]); [|done].
    split_and!; [done|done|]. by eapply send_tokens_Ok.
  - by destruct r0.
  - destruct r0 as [|e|w']; [done|done|]. by injection Hr0 as ->.
Qed.

Lemma claim_genesis_no_Err fuel d client tr e : ¬ exec (claim_genesis bld from_hex fuel d client) tr (Err e).
Proof.
  unfold claim_genesis. intros [(x & t1 & t2 & _ & _ & [_ ?]%exec_lift_inv)|[(e' & _ & H)|(w & ? & _)]]%exec_bind_inv; [done| |done].
  apply exec_attempt_inv in H as ([] & _ & ?); done.
Qed.

(** The loop over the requests: the parts of the run that serve the first of
    them, and what remains of a run that ended in the next one. *)
Lemma requests_exec fuel client reqs tr r :
  exec (prog_fold (λ _ req, serve_request bld from_hex token_from_str error_text fuel req.2 client req.1) tt reqs) tr r →
  ∃ parts rest, tr = concat parts ++ rest ∧ right_events rest = [] ∧
    Forall2 (served fuel client) (take (length parts) reqs) parts ∧
    match r with
    | Ok _ => length parts = length reqs ∧ rest = []
    | Err _ => False
    | Panic w => ∃ req, reqs !! length parts = Some req ∧ exec (sending fuel client req) (left_events rest) (Panic w)
    end.
Proof.
  revert tr. induction reqs as [|req reqs IH]; intros tr; cbn [prog_fold].
  { intros [-> ->]%exec_done_inv. by exists [], []. }
  intros [([] & t1 & t2 & -> & Hs%serve_request_exec & He)|[(e & _ & []%serve_request_exec)|
    (w & -> & [R1 H1]%serve_request_exec)]]%exec_bind_inv.
  - apply IH in He as (parts & rest & -> & R2 & Hall & Hr). exists (t1 :: parts), rest. cbn.
    split_and!; [by rewrite (assoc (++))|done|by constructor|]. destruct r as [u|e|w]; [|done|done]. destruct Hr as [-> ->]. done.
  - exists [], tr. cbn. split_and!; [done|done|constructor|]. by exists req.
Qed.

End ServerLemmas.

(** ** Properties *)

Section Properties.
Context `{BLS : BlsCrate, XN : XorNameCrate, HX : HexCrate, KD : KadCrate, CR : CrdtsCrate, SE : SelfEncryptionCrate}.
Context `{TK : TokenCrate, DI : DbcIdCrate, SD : !SnDbcCrate, DC : !DbcCrate, RP : !RegisterParams, DT : !DbcTextCrate}.
Context `{RH : RmpHeader, RC : Rmp (bytes * PaymentProof), RS : Rmp (list SignedSpend), RR : Rmp SignedRegister}.
Context `{BW : Bincode KeyLessWallet}.

(** C40: the faucet's server answers the requests in order, each once.  Once
    listening and with the genesis claimed, its run consists of a part for each
    of the first requests, in order: in it tokens are sent exactly once, for the
    address in the request, and then there is one response, either with success
    and the text of the DBC that this sending made, whose spends the network
    took in this part, or with the error of this sending.  A run that ends
    without a panic has such a part for every request and nothing else; it ends
    early only where claiming the genesis or sending for the next request
    panics, and this request and all later ones are then not answered. *)
Theorem faucet_serves_in_order (HL : HexLaws) (HD : DbcTextLaws) bld from_hex token_from_str error_text fuel d client reqs
    (tr : list (Effects.Event SrvAns)) r :
  exec (run_faucet_server bld from_hex token_from_str error_text fuel d client reqs) tr r →
  (tr = [existT (inr StartServer) false] ∧ r = Err FE_Server) ∨
  ∃ claim parts rest, tr = existT (inr StartServer) true :: claim ++ concat parts ++ rest ∧
    right_events claim = [] ∧ right_events rest = [] ∧
    Forall2 (served bld from_hex token_from_str error_text fuel client) (take (length parts) reqs) parts ∧
    match r with
    | Ok _ => exec (claim_genesis bld from_hex fuel d client) (left_events claim) (Ok tt) ∧ length parts = length reqs ∧ rest = []
    | Err _ => False
    | Panic w =>
        (parts = [] ∧ rest = [] ∧ exec (claim_genesis bld from_hex fuel d client) (left_events claim) (Panic w)) ∨
        (exec (claim_genesis bld from_hex fuel d client) (left_events claim) (Ok tt) ∧
         ∃ req, reqs !! length parts = Some req ∧
           exec (send_tokens bld from_hex token_from_str fuel req.2 client REQUEST_AMOUNT (trim_separators req.1)) (left_events rest) (Panic w))
    end.
Proof.
  unfold run_faucet_server, on_right, call. cbn [on_right prog_bind mbind Prog_bind].
  intros (started & t & -> & He)%exec_vis_inv.
  destruct started; [right|left; apply exec_lift_inv in He as [-> ->]; by split].
  apply exec_bind_inv in He as [([] & t1 & t2 & -> & [H1 R1]%srv_app_exec & He)|[(e & -> & [H1 _]%srv_app_exec)|(w & -> & [H1 R1]%srv_app_exec)]].
  - apply requests_exec in He as (parts & rest & -> & R2 & Hall & Hr); [|done..].
    exists t1, parts, rest. split_and!; [done|done|done|done|]. destruct r as [u|e|w]; [by destruct Hr|done|by right].
  - by apply claim_genesis_no_Err in H1.
  - exists t, [], []. rewrite !app_nil_r. split_and!; [done|done|done|constructor|]. by left.
Qed.

End Properties.

(** ** The properties at concrete values *)

Definition toy_token_from_str (amount : Z) (s : string) : option Token := if decide (s = "100"%string) then Some (toy_tok amount) else None.
Definition toy_error_text (e : FaucetError) : bytes := [Byte.x21].
Definition toy_draws (n : byte) : Draws :=
  {| dr_load := toy_choices;
     dr_send := {| ch_rnds := [[n]]; ch_rnd := [Byte.x55]; ch_resend := λ _, []; ch_send := [1; 0]; ch_rounds := λ _ _, [] |};
     dr_keys := (toy_other_mk, toy_other_mk); dr_sched := [] |}.

(** The toy application with a socket. *)
Definition toy_srv (s : gmap RecordKey KRecord * Fs) (op : (NetOp + FsOp) + HttpOp) : (gmap RecordKey KRecord * Fs) * SrvAns op :=
  match op return (gmap RecordKey KRecord * Fs) * SrvAns op with
  | inl op => toy_app s op
  | inr op => (s, match op return HttpAns op with StartServer => true | Respond _ _ => true end)
  end.

Definition toy_request (key : bytes) (n : byte) : bytes * Draws := (SLASH :: key, toy_draws n).
Definition toy_address : bytes := hex_text (pa_to_bytes toy_payee).

(** A request with an address, and one with something else. *)
Definition toy_requests : list (bytes * Draws) := [toy_request toy_address Byte.x44; toy_request [Byte.x7a] Byte.x45].
Definition toy_server (amount : Z) : SrvProg FaucetError unit :=
  run_faucet_server Debug toy_key_from_hex (toy_token_from_str amount) toy_error_text 12 (toy_draws Byte.x43) toy_client toy_requests.
Definition toy_server_run (amount : Z) : list (Effects.Event SrvAns) * Res FaucetError unit := run toy_srv toy_start (toy_server amount).

(** The responses in a trace. *)
Definition response_of (ev : Effects.Event HttpAns) : option (Z * bytes) :=
  match projT1 ev with Respond status body => Some (status, body) | StartServer => None end.
Definition responses (tr : list (Effects.Event SrvAns)) : list (Z * bytes) := omap response_of (right_events tr).

Lemma faucet_serves_in_order_witness :
  (responses (toy_server_run 5).1).*1 = [200; 500]%Z ∧
  ∃ claim parts, (toy_server_run 5).1 = existT (inr StartServer) true :: claim ++ concat parts ∧
    Forall2 (served Debug toy_key_from_hex (toy_token_from_str 5) toy_error_text 12 toy_client) toy_requests parts.
Proof.
  split; [vm_compute; reflexivity|].
  assert (is_ok (toy_server_run 5).2 = true) as Hok by (vm_compute; reflexivity).
  destruct (faucet_serves_in_order _ _ Debug toy_key_from_hex (toy_token_from_str 5) toy_error_text 12 (toy_draws Byte.x43) toy_client
    toy_requests (toy_server_run 5).1 (toy_server_run 5).2 (run_exec toy_srv toy_start (toy_server 5)))
    as [[_ Hr]|(claim & parts & rest & Htr & _ & _ & Hall & Hr)]; [rewrite Hr in Hok; discriminate Hok|].
  destruct (toy_server_run 5).2 as [u|e|w]; [|discriminate Hok..]. destruct Hr as (_ & Hl & ->).
  rewrite Hl in Hall. exists claim, parts. rewrite app_nil_r in Htr. split; [exact Htr|exact Hall].
Defined.

(** A request for more than there is ends the server without any response. *)
Example poor_faucet_stops :
  responses (toy_server_run (10 ^ 19 - 1)).1 = [] ∧ match (toy_server_run (10 ^ 19 - 1)).2 with Panic _ => true | _ => false end = true.
Proof. vm_compute. split; reflexivity. Qed.
